(* ===== verification/_CoqProject ===== *)
-Q . S2P
Prelude.v
Double.v
Types.v
Tier.v
BlockPool.v
PoolInv.v
PoolOps.v
PoolMigrate.v
PoolAsync.v
PoolWorker.v
PoolHands.v
PoolInit.v
PoolSpec.v
PoolCalls.v
BlockStore.v
RadixTree.v
RadixInv.v
RadixSplit.v
RadixWalk.v
RadixInsert.v
RadixLru.v
RadixEvict.v
RadixDemote.v
RadixPins.v
RadixState.v
RadixPath.v
RadixDestroy.v
RadixOps.v
RadixSpec.v
CacheManager.v
ManagerInv.v
ManagerPhases.v
ManagerEvict.v
ManagerFill.v
ManagerPin.v
ManagerAcquire.v
ManagerRelease.v
ManagerOps.v
ManagerSpec.v
Serving.v
Bench.v
BenchDrivers.v
BenchSpec.v
Workers.v
Threads.v
