(* ===== verification/Prelude.v ===== *)
(** * kvslab: a verification of the KV cache engine

    kvslab keeps the key/value cache of an LLM server: blocks of fixed size in
    one or two memory tiers, a prefix tree that says which block holds the KV
    of which tokens, and a manager that hands a request its block table. This
    library models the program and proves what its parts promise each other.

    ** The program and the files that model it

    - Machine integers, failures, the state monad, its triples [wp] and the
      lemmas on lists and loops: Prelude. Unsigned integers are [N] with the
      wrap-around of their type written out. A computation [M S A] takes a
      state and returns a result and a state, or the [error] that stops the
      program: [fatal()], a failed [assert], an exception, an access outside an
      object, a wait that never ends ([Blocked]), or a loop of the model out of
      fuel. [wp] excludes all of them, [wp_unless] allows the wait and says
      under which condition.
    - The floating-point arithmetic of the rates: Double, binary64 in software.
    - include/kvslab/types.hpp: Types ([CacheConfig], [block_key]).
    - include/kvslab/tier.hpp, src/tier.cpp: Tier. The abstract class is the
      type class [Tier] with its laws [TierLaws]; [HostTier] is an instance
      whose laws are proved. Everything above is proved for any tier that has
      the laws.
    - include/kvslab/block_pool.hpp, src/block_pool.cpp: BlockPool has the
      state (free lists, locations, counts, the migration queue, the job heap
      and the tiers' memory) and one definition per member function. PoolInv
      states the invariant [pool_inv], and [pool_ok], which adds what it needs
      of the copies in flight; PoolOps, PoolMigrate, PoolAsync and PoolWorker
      prove the operations against it, PoolInit the constructor and what ids
      that are not live do. PoolSpec is the contract, and PoolCalls the pool in
      use, over any sequence of its calls. The workers are part of the state:
      the threads [ensure_worker] started ([workers_]), the job each holds with
      the point it is at ([hands_]), and the threads that will take a turn
      before the calls to come ([turns_]). In its turn a thread claims a job or
      takes one step with the one it holds ([take_turn]); a thread that was
      never started has no turn. [preempt] is the turns that fall before the
      next call. PoolHands proves each turn, and each write of a block's owner,
      whatever the other threads hold ([hands_ok]); [running] is the invariant
      of a pool at work.
    - The same queue as threads see it: Workers. The scheduler thread and up to
      three workers interleave at every access to the mutex, the condition
      variable, the cursor and the flags of a job. Threads shows that this is
      the pool seen from the threads: the relation [tracks] is kept by every
      step of a worker thread and every call of the scheduler.
    - include/kvslab/radix_tree.hpp, src/radix_tree.cpp: RadixTree has the node
      heap and the member functions, over any pool with the interface
      [BlockStore]; BlockStore states what the tree relies on
      ([BlockStoreLaws]) and shows that the pool provides it. RadixInv gives
      the invariant and the abstract meaning of a tree, the partial function
      [find] from sequences of whole blocks to block ids. RadixSplit,
      RadixWalk, RadixInsert, RadixLru, RadixEvict, RadixDemote, RadixPins,
      RadixState, RadixPath, RadixDestroy and RadixOps take one operation or
      one part of the state each; RadixSpec is the contract.
    - include/kvslab/cache_manager.hpp, src/cache_manager.cpp: CacheManager has
      the state (pool, tree, counters, options) and every operation; a handle
      ([Allocation]) is a value, and an operation that takes one by reference
      returns what it leaves of it. ManagerInv is the ledger [manager_ok]: each
      live block is owned exactly once, by the tree or by the handle that
      allocated it. ManagerPhases, ManagerEvict, ManagerFill and ManagerPin
      prove the parts of [acquire], ManagerAcquire the whole, ManagerRelease
      and ManagerOps the other calls. ManagerSpec is the contract, and the
      system of manager, callers and workers as a step function [exec] with its
      reachable states. Serving is the engine in use: calls of the manager,
      turns of the workers, and requests that write the KV of their blocks, in
      any order ([run_event], [reached]).
    - bench/bench_prefix_cache.cpp: Bench has the workload generators, the
      drivers, the tables with their rates, [bench_tiering] and [main];
      BenchDrivers and BenchSpec run them against the manager's contract.

    A method of the tree runs on the pair of a pool and a tree, a method of the
    manager on the manager, which lifts the others with [on_cache] and
    [pool_op]; so the calls compose as they do in the source. The workers run
    between any two calls that change the pool, also inside a call of the tree
    or the manager: the instance of [BlockStore] and [pool_op] start with
    [preempt], and the theorems hold for every list of turns.

    ** What is proved

    - Serving: the bytes a request finds under its cached prefix are the KV of
      its own tokens, in every history; nobody writes to a block of a handle
      that is out but its owner; rounds of turns, as many as there are steps
      left, bring every queued copy to its end, and a caller that waits for one
      is let go unless the workers are not [fair].
    - The pool: its invariant holds from construction on; what [allocate],
      [decref], [migrate], [migrate_async], [cancel_migration],
      [drain_migrations] and [wait_for_migrations] do to the view of every
      block, to the free slots and to the bytes; in every history of calls the
      slots stay partitioned, and live blocks are disjoint; every use of a block
      that is not live aborts, and the queries that do not abort say that it is
      not; which exception a refused constructor throws.
    - The threads: workers only touch jobs the queue owns, a wait that returns
      has seen all copies, the destructor returns, and an unclaimed job always
      has an awake worker. A wakeup of [wait_for_migrations] can be lost, and
      the interleaving that loses it is exhibited. Every schedule of the worker
      threads is a history of the engine of Serving, turn by turn of the same
      threads, and every call of the scheduler a schedule of its thread.
    - The tree: [match_prefix] finds the longest cached prefix, [insert] caches
      what it is given and nothing else, [evict] and [pick_demotion_victims]
      choose by access order whatever order the hash maps iterate in and leave
      pinned and shared entries alone, splits change nothing that is cached,
      and the destructor gives back every reference once.
    - The manager: [acquire] serves a request with the longest cached prefix
      first and every block in or on its way to the compute tier, or refuses it
      without a trace and only when nothing more can be evicted; [release] and
      dropped handles give back what they hold exactly once; what was released
      is found again; and no legal sequence of calls, with the workers'
      turns anywhere between and inside them, ends in a failure of any kind,
      but for a wait that workers which are not [fair] never end.
    - The benchmark: its two drivers respect the manager's contract for any
      workload, and [main] prints tables whose hit rates lie between 0 and 1,
      whatever the clock says and the workers do, and runs to its end unless a
      wait of its last row does not return.
    - Types and tiers: [block_key] tells blocks apart that differ in one token,
      the arena is as large as it says, bytes written are read back, and the
      bounds assertion of [HostTier::read] wraps.

    ** Assumptions

    The type class [IterOrder] says that iterating over a hash map visits each
    entry once, in some order. [aligned_alloc] is a parameter: it returns a
    block of the size it was asked for, if it returns one. The manager's
    theorems assume what its types do: sequences shorter than 2^64 tokens, a
    tree clock that has not reached 2^64, fewer than 2^32 handles at once.
    [std::thread::hardware_concurrency] is a parameter without a hypothesis.
    What a vector answers when the constructor of a pool asks it for room is a
    parameter ([room] of [init_in]) without one either; [init], which the other
    theorems are about, is the constructor when memory lasts ([plenty]).

    ** Waiting and fairness

    [wait_for_migrations] evaluates its condition, sleeps while it is false,
    and evaluates it again when it is woken ([awaken]). What the worker threads
    do before each wakeup, and how many wakeups there are, is the parameter
    [Wakes], of which nothing is assumed: a list of turns for each wakeup. When
    the list is exhausted and a job is unfinished nobody wakes the scheduler
    again, and the call is [Blocked]. That is how a lost notification shows
    here, as much as a thread that is never run: Workers has the interleaving
    that loses one. So no theorem says of a call that waits for unfinished jobs
    that it returns: it returns, or the workers are not [fair].
    [fair] means that in every wait each thread has as many turns before the
    last wakeup as there are steps left to take ([patient]); that this is enough
    is proved, from the steps left ([work]) and from the threads that were
    started: with jobs queued and no thread there would be no end ([staffed]).
    [round_robin] is such a schedule.

    The destructor joins its threads, and a join needs no notification after
    the one that precedes it: a thread that holds a job takes the at most three
    steps that are left and leaves ([join]). Workers proves the same of the
    threads, with the mutex and the condition variable.

    ** Loops and fuel

    A [for] over a vector is a fold; a [while] is [loop] with fuel, and every
    theorem about one shows that the fuel is enough, since a loop out of fuel
    is a failure and [wp] excludes failures. The walk of [match_prefix] has one
    round per block of the query and one more; the walks over the tree (victim
    search, destructor, pins) two more rounds than there are nodes; [evict],
    [pick_demotion_victims] and the eviction loop of [acquire] one more than
    there are nodes, since each round drops or rejects a leaf; [wait_ready]
    two rounds; the last loop of the pipelined driver one more than the window.
    [awaken] has no fuel: it follows the list of wakeups.

    ** Not modelled

    A call of the pool is one step for the workers: their turns fall before it,
    not inside it, where all it shares with them is the queue's cursor and the
    two flags of a job. The queries of the pool come without turns, since no turn
    changes an answer. The condition of a wait is evaluated in one step here,
    job by job between the steps of the workers in Workers. Threads connects
    the turns with the accesses of Workers, thread by thread. Workers leaves
    out spurious wakeups, which the language allows but promises to nobody.
    Memory is sequentially consistent throughout. A handle that outlives its
    manager would call into a destroyed object; the manager is destroyed here
    only once no handle is out.
    Of the benchmark's output the calls of [printf] are modelled, not the
    characters they make of a number; what the clock measures is a parameter.
    The tests are not modelled. *)

From Stdlib Require Export ZArith Lia.
From stdpp Require Export base numbers list list_numbers gmap sets option strings.

(** ** Machine integers

    Unsigned C++ integers are natural numbers [N]; every operation of the
    source that can leave the range of its type is followed by the
    wrap-around of that type, written out with [u32] or [u64]. *)

Declare Scope kv_scope.
Delimit Scope kv_scope with kv.

Definition two32 : N := 4294967296.
Definition two64 : N := 18446744073709551616.

Definition u32 (x : N) : N := (x mod two32)%N.
Definition u64 (x : N) : N := (x mod two64)%N.

(** [a - b] in [size_t] or [uint64_t]: wraps below zero. *)
Definition sub64 (a b : N) : N := u64 (a + two64 - u64 b)%N.
Definition sub32 (a b : N) : N := u32 (a + two32 - u32 b)%N.

(** The number of elements of a vector, as the [size_t] it is in the source. *)
Definition size_of {A} (l : list A) : N := N.of_nat (length l).

(** Linear arithmetic that also sees through [/] and [mod]. *)
Ltac lia_div := zify; Z.to_euclidean_division_equations; lia.

(** ** Failures and the state monad

    Everything that stops the program is a value: [fatal()] in block_pool.cpp
    (which aborts), a failed [assert] (live in every build by default, see
    CMakeLists.txt), an exception, a memory access outside an object, a wait
    that nobody ends, and the exhaustion of the fuel that bounds a loop of the
    model. *)

Inductive error : Type :=
  | Fatal (what : string) (id : N)
  | AssertFailed (what : string)
  | InvalidArgument (what : string)
  | LengthError
  | BadAlloc
  | OutOfBounds (what : string)
  | BadPointer (what : string)
  | Blocked
  | OutOfFuel.

Inductive result (A : Type) : Type :=
  | Ok (a : A)
  | Err (e : error).
Arguments Ok {A} _.
Arguments Err {A} _.

Definition M (S A : Type) : Type := S → result (A * S).

#[global] Instance M_ret {S} : MRet (M S) := λ A a s, Ok (a, s).
#[global] Instance M_bind {S} : MBind (M S) := λ A B k m s,
  match m s with
  | Ok (a, s') => k a s'
  | Err e => Err e
  end.

Definition fail {S A} (e : error) : M S A := λ _, Err e.
Definition get {S} : M S S := λ s, Ok (s, s).
Definition put {S} (s : S) : M S () := λ _, Ok ((), s).
Definition gets {S A} (f : S → A) : M S A := λ s, Ok (f s, s).
Definition modify {S} (f : S → S) : M S () := λ s, Ok ((), f s).
Definition assert {S} (b : bool) (what : string) : M S () :=
  if b then mret () else fail (AssertFailed what).
Definition of_option {S A} (e : error) (o : option A) : M S A :=
  match o with Some a => mret a | None => fail e end.

(** Runs a computation on a part of the state: a method called on a member. *)
Definition zoom {S T A} (proj : S → T) (upd : T → S → S) (m : M T A) : M S A :=
  λ s, match m (proj s) with
       | Ok (a, t) => Ok (a, upd t s)
       | Err e => Err e
       end.

(** [for (x : l) body(x);] *)
Fixpoint for_each {S A} (l : list A) (body : A → M S ()) : M S () :=
  match l with
  | [] => mret ()
  | x :: l => body x ;; for_each l body
  end.

Lemma for_each_app {S A} (l k : list A) (body : A → M S ()) s :
  for_each (l ++ k) body s = (for_each l body ;; for_each k body) s.
Proof.
  revert s. induction l as [|x l IH]; intros s; [done|]. cbn [app for_each]. unfold mbind, M_bind.
  destruct (body x s) as [[[] s']|]; [exact (IH s')|done].
Qed.

(** [for (x : l) { if (!body(x)) break; }] *)
Fixpoint for_while {S A} (l : list A) (body : A → M S bool) : M S () :=
  match l with
  | [] => mret ()
  | x :: l => c ← body x; if (c : bool) then for_while l body else mret ()
  end.

(** [while (true) { r = body(x); if (r is a value) return it; x = r; }], at
    most [fuel] rounds. *)
Fixpoint loop {S A B} (fuel : nat) (body : A → M S (A + B)) (a : A) : M S B :=
  match fuel with
  | O => fail OutOfFuel
  | S fuel => r ← body a;
              match r with inl a => loop fuel body a | inr b => mret b end
  end.

(** ** Raw memory

    An arena is a list of bytes. [memcpy] reads [n] bytes at an offset and
    writes them at another; outside the arena it has no behaviour, which the
    model reports as [OutOfBounds]. *)

Definition slice {A} (off n : nat) (a : list A) : list A := take n (drop off a).
Definition splice {A} (off : nat) (bs a : list A) : list A :=
  take off a ++ bs ++ drop (off + length bs) a.

Definition mem_load {A} (a : list A) (off n : N) : result (list A) :=
  if (off + n <=? size_of a)%N then Ok (slice (N.to_nat off) (N.to_nat n) a)
  else Err (OutOfBounds "load").
Definition mem_store {A} (a : list A) (off : N) (bs : list A) : result (list A) :=
  if (off + size_of bs <=? size_of a)%N then Ok (splice (N.to_nat off) bs a)
  else Err (OutOfBounds "store").

Section raw_memory.
Context {A : Type}.
Implicit Types a bs : list A.

Lemma length_slice off n a : off + n ≤ length a → length (slice off n a) = n.
Proof. intros. unfold slice. rewrite length_take, length_drop. lia. Qed.

Lemma length_splice off bs a :
  off + length bs ≤ length a → length (splice off bs a) = length a.
Proof. intros. unfold splice. rewrite !length_app, length_take, length_drop. lia. Qed.

Lemma slice_splice_same off bs a :
  off + length bs ≤ length a → slice off (length bs) (splice off bs a) = bs.
Proof.
  intros. unfold slice, splice.
  rewrite drop_app_length' by (rewrite length_take; lia). by rewrite take_app_length.
Qed.

Lemma lookup_splice off bs a i :
  off + length bs ≤ length a →
  splice off bs a !! i = if decide (off ≤ i < off + length bs) then bs !! (i - off) else a !! i.
Proof.
  intros H. unfold splice. case_decide as Hi.
  - rewrite lookup_app_r by (rewrite length_take; lia).
    rewrite length_take, lookup_app_l by lia. f_equal. lia.
  - destruct (decide (i < off)).
    + rewrite lookup_app_l by (rewrite length_take; lia). by apply lookup_take_lt.
    + rewrite lookup_app_r by (rewrite length_take; lia).
      rewrite length_take, lookup_app_r by lia. rewrite lookup_drop. f_equal. lia.
Qed.

Lemma lookup_slice off n a i :
  slice off n a !! i = if decide (i < n) then a !! (off + i) else None.
Proof.
  unfold slice. case_decide.
  - rewrite lookup_take_lt by done. apply lookup_drop.
  - apply lookup_take_ge. lia.
Qed.

(** A store leaves every disjoint range as it was. *)
Lemma slice_splice_disjoint off bs off' n a :
  off + length bs ≤ length a → off' + n ≤ off ∨ off + length bs ≤ off' →
  slice off' n (splice off bs a) = slice off' n a.
Proof.
  intros H Hd. apply list_eq. intros i. rewrite !lookup_slice.
  case_decide; [|done]. rewrite lookup_splice by done. case_decide; [lia|done].
Qed.
End raw_memory.

(** ** Total-correctness triples

    [wp m Q s]: from [s], the computation [m] finishes without a failure of
    any kind and ends in a result and a state that satisfy [Q]. *)

Definition wp {S A} (m : M S A) (Q : A → S → Prop) (s : S) : Prop :=
  match m s with
  | Ok (a, s') => Q a s'
  | Err _ => False
  end.

(** [wp_unless B m Q s]: [m] finishes as [wp m Q s] says, or it waits for good
    and [B] holds. No other failure is possible. *)

Definition wp_unless {S A} (B : Prop) (m : M S A) (Q : A → S → Prop) (s : S) : Prop :=
  match m s with
  | Ok (a, s') => Q a s'
  | Err Blocked => B
  | Err _ => False
  end.

Create HintDb kv.

Section wp_rules.
Context {S : Type}.

Lemma wp_mono {A} (m : M S A) (P Q : A → S → Prop) s :
  wp m P s → (∀ a s', P a s' → Q a s') → wp m Q s.
Proof. unfold wp. destruct (m s) as [[a s']|]; naive_solver. Qed.

(** A run that is known. *)
Lemma wp_ok {A} (m : M S A) (Q : A → S → Prop) s a s' : m s = Ok (a, s') → Q a s' → wp m Q s.
Proof. unfold wp. by intros ->. Qed.

Lemma wp_result {A} (m : M S A) (Q : A → S → Prop) s : wp m Q s → ∃ a s', m s = Ok (a, s') ∧ Q a s'.
Proof. unfold wp. destruct (m s) as [[a s']|]; [eauto|done]. Qed.

Lemma wp_run {A} (m : M S A) (Q : A → S → Prop) s a s' : wp m Q s → m s = Ok (a, s') → Q a s'.
Proof. unfold wp. by intros H E; rewrite E in H. Qed.

(** A triple that leaves one outcome names the run. *)
Lemma wp_exact {A} (m : M S A) s a s' : wp m (λ b t, b = a ∧ t = s') s → m s = Ok (a, s').
Proof. unfold wp. destruct (m s) as [[b t]|]; [by intros [-> ->]|done]. Qed.

Lemma wp_conj {A} (m : M S A) (P Q : A → S → Prop) s :
  wp m P s → wp m Q s → wp m (λ a s', P a s' ∧ Q a s') s.
Proof. unfold wp. destruct (m s) as [[a s']|]; naive_solver. Qed.

Lemma wp_ret {A} (a : A) (Q : A → S → Prop) s : Q a s → wp (mret a) Q s.
Proof. done. Qed.

Lemma wp_bind {A B} (m : M S A) (k : A → M S B) (Q : B → S → Prop) s :
  wp m (λ a s', wp (k a) Q s') s → wp (m ≫= k) Q s.
Proof. unfold wp, mbind, M_bind. by destruct (m s) as [[a s']|]. Qed.

Lemma wp_bind_inv {A B} (m : M S A) (k : A → M S B) (Q : B → S → Prop) s :
  wp (m ≫= k) Q s → wp m (λ a s', wp (k a) Q s') s.
Proof. unfold wp, mbind, M_bind. by destruct (m s) as [[a s']|]. Qed.

Lemma wp_get (Q : S → S → Prop) s : Q s s → wp get Q s.
Proof. done. Qed.
Lemma wp_put t (Q : () → S → Prop) s : Q () t → wp (put t) Q s.
Proof. done. Qed.
Lemma wp_gets {A} (f : S → A) (Q : A → S → Prop) s : Q (f s) s → wp (gets f) Q s.
Proof. done. Qed.
Lemma wp_modify f (Q : () → S → Prop) s : Q () (f s) → wp (modify f) Q s.
Proof. done. Qed.

Lemma wp_assert (b : bool) what (Q : () → S → Prop) s :
  b = true → Q () s → wp (assert b what) Q s.
Proof. by intros ->. Qed.

Lemma wp_of_option {A} e (o : option A) a (Q : A → S → Prop) s :
  o = Some a → Q a s → wp (of_option e o) Q s.
Proof. by intros ->. Qed.

Lemma wp_zoom {T A} (proj : S → T) upd (m : M T A) (Q : A → S → Prop) s :
  wp m (λ a t, Q a (upd t s)) (proj s) → wp (zoom proj upd m) Q s.
Proof. unfold wp, zoom. by destruct (m (proj s)) as [[a t]|]. Qed.

(** The invariant of a [for_each] speaks of the elements already handled
    and of those still to come. *)
Lemma wp_for_each {A} (body : A → M S ()) (I : list A → list A → S → Prop) l s :
  I [] l s →
  (∀ pre x suf s, l = pre ++ x :: suf → I pre (x :: suf) s →
     wp (body x) (λ _ s', I (pre ++ [x]) suf s') s) →
  wp (for_each l body) (λ _ s', I l [] s') s.
Proof.
  intros H0 Hstep.
  enough (∀ suf pre s, l = pre ++ suf → I pre suf s →
            wp (for_each suf body) (λ _ s', I l [] s') s) as H by (by apply (H l [])).
  clear H0 s. induction suf as [|x suf IH]; intros pre s Hl HI; simpl.
  - apply wp_ret. by rewrite app_nil_r in Hl; subst pre.
  - apply wp_bind. eapply wp_mono; [by apply (Hstep pre x suf)|].
    intros [] s' HI'. apply (IH (pre ++ [x])); [|done].
    by rewrite <-app_assoc.
Qed.

(** A [for_while] with an invariant that holds at the head of every round
    and a goal that a [break] has to establish. *)
Lemma wp_for_while {A} (body : A → M S bool) (I : list A → list A → S → Prop)
    (Q : S → Prop) l s :
  I [] l s →
  (∀ pre x suf s, l = pre ++ x :: suf → I pre (x :: suf) s →
     wp (body x) (λ c s', if (c : bool) then I (pre ++ [x]) suf s' else Q s') s) →
  (∀ s, I l [] s → Q s) →
  wp (for_while l body) (λ _ s', Q s') s.
Proof.
  intros H0 Hstep Hend.
  enough (∀ suf pre s, l = pre ++ suf → I pre suf s →
            wp (for_while suf body) (λ _ s', Q s') s) as H by (by apply (H l [])).
  clear H0 s. induction suf as [|x suf IH]; intros pre s Hl HI; simpl.
  - apply wp_ret, Hend. by rewrite app_nil_r in Hl; subst pre.
  - apply wp_bind. eapply wp_mono; [by apply (Hstep pre x suf)|].
    intros [] s' HI'; simpl; [|by apply wp_ret].
    apply (IH (pre ++ [x])); [|done]. by rewrite <-app_assoc.
Qed.

(** ** Calls that may never return *)

Lemma wp_unless_result {A} B (m : M S A) (Q : A → S → Prop) s :
  wp_unless B m Q s ↔ m s = Err Blocked ∧ B ∨ ∃ a s', m s = Ok (a, s') ∧ Q a s'.
Proof. unfold wp_unless. destruct (m s) as [[a s']|[]]; naive_solver. Qed.

Lemma wp_unless_wp {A} B (m : M S A) (Q : A → S → Prop) s : wp m Q s → wp_unless B m Q s.
Proof. unfold wp, wp_unless. by destruct (m s) as [[a s']|[]]. Qed.

Lemma wp_unless_never {A} B (m : M S A) (Q : A → S → Prop) s : ¬ B → wp_unless B m Q s → wp m Q s.
Proof. unfold wp, wp_unless. by destruct (m s) as [[a s']|[]]. Qed.

Lemma wp_unless_mono {A} (B C : Prop) (m : M S A) (P Q : A → S → Prop) s :
  wp_unless B m P s → (B → C) → (∀ a s', P a s' → Q a s') → wp_unless C m Q s.
Proof. unfold wp_unless. destruct (m s) as [[a s']|[]]; naive_solver. Qed.

Lemma wp_unless_bind {A A'} B (m : M S A) (k : A → M S A') (Q : A' → S → Prop) s :
  wp_unless B m (λ a s', wp_unless B (k a) Q s') s → wp_unless B (m ≫= k) Q s.
Proof. unfold wp_unless, mbind, M_bind. by destruct (m s) as [[a s']|[]]. Qed.

(** The first half cannot wait. *)
Lemma wp_unless_then {A A'} B (m : M S A) (k : A → M S A') (Q : A' → S → Prop) s :
  wp m (λ a s', wp_unless B (k a) Q s') s → wp_unless B (m ≫= k) Q s.
Proof. intros Hm. by apply wp_unless_bind, wp_unless_wp. Qed.

Lemma wp_unless_zoom {T A} B (proj : S → T) upd (m : M T A) (Q : A → S → Prop) s :
  wp_unless B m (λ a t, Q a (upd t s)) (proj s) → wp_unless B (zoom proj upd m) Q s.
Proof. unfold wp_unless, zoom. by destruct (m (proj s)) as [[a t]|[]]. Qed.

(** ** Loops with fuel

    When a value that the program need not compute decreases each round, the
    loop ends within any fuel above it: the fuel is never what stops it. *)
Lemma wp_unless_loop {A A' G} B (body : A → M S (A + A')) (I : G → A → S → Prop)
    (m : G → nat) (Q : A' → S → Prop) fuel g a s :
  I g a s → m g < fuel →
  (∀ g a s, I g a s →
     wp_unless B (body a) (λ r s', match r with
                          | inl a' => ∃ g', I g' a' s' ∧ m g' < m g
                          | inr b => Q b s'
                          end) s) →
  wp_unless B (loop fuel body a) Q s.
Proof.
  intros HI Hm Hstep. revert g a s HI Hm.
  induction fuel as [|fuel IH]; intros g a s HI Hm; [lia|]; simpl.
  apply wp_unless_bind. eapply wp_unless_mono; [by apply (Hstep g)|done|].
  intros [a'|b] s'; simpl; [|done].
  intros (g' & HI' & Hm'). eapply IH; [done|lia].
Qed.

Lemma wp_loop_ghost {A B G} (body : A → M S (A + B)) (I : G → A → S → Prop)
    (m : G → nat) (Q : B → S → Prop) fuel g a s :
  I g a s → m g < fuel →
  (∀ g a s, I g a s →
     wp (body a) (λ r s', match r with
                          | inl a' => ∃ g', I g' a' s' ∧ m g' < m g
                          | inr b => Q b s'
                          end) s) →
  wp (loop fuel body a) Q s.
Proof.
  intros HI Hm Hstep. apply (wp_unless_never False); [tauto|].
  eapply wp_unless_loop; [exact HI|done|]. intros g' a' s' HI'. by apply wp_unless_wp, Hstep.
Qed.

(** The same with a measure of the state. *)
Lemma wp_loop {A B} (body : A → M S (A + B)) (I : A → S → Prop)
    (m : A → S → nat) (Q : B → S → Prop) fuel a s :
  I a s → m a s < fuel →
  (∀ a s, I a s →
     wp (body a) (λ r s', match r with
                          | inl a' => I a' s' ∧ m a' s' < m a s
                          | inr b => Q b s'
                          end) s) →
  wp (loop fuel body a) Q s.
Proof.
  intros HI Hm Hstep. apply (wp_loop_ghost _ (λ n a s, I a s ∧ m a s = n) (λ n, n) _ _ (m a s)); [done|done|].
  intros n b t [Ib <-]. eapply wp_mono; [by apply Hstep|]. intros [a'|c] s'; [|done]. intros [? ?]. eauto.
Qed.
End wp_rules.

(** One symbolic step of a program in a [wp] goal. *)
Ltac wp_step :=
  lazymatch goal with
  | |- wp (mbind _ _) _ _ => apply wp_bind
  | |- wp (mret _) _ _ => apply wp_ret
  | |- wp get _ _ => apply wp_get
  | |- wp (put _) _ _ => apply wp_put
  | |- wp (gets _) _ _ => apply wp_gets
  | |- wp (modify _) _ _ => apply wp_modify
  | |- wp (zoom _ _ _) _ _ => apply wp_zoom
  end; cbv beta.
Ltac wp_steps := repeat wp_step.

(** Opens a condition of the program into its two branches. *)
Ltac wp_if H :=
  lazymatch goal with
  | |- wp (if ?b then _ else _) _ _ => destruct b eqn:H
  end.

(** ** Lists *)

Section lists.
Context {A B : Type}.
Implicit Types l : list A.

Lemma last_Some_split l x : last l = Some x → l = take (pred (length l)) l ++ [x].
Proof.
  intros H. destruct l as [|y l] using rev_ind; [done|].
  rewrite last_snoc in H. simplify_eq. rewrite length_app, Nat.add_comm. simpl.
  by rewrite take_app_length.
Qed.

Lemma omap_cons_app (f : A → option B) x l : omap f (x :: l) = option_list (f x) ++ omap f l.
Proof. simpl. by destruct (f x). Qed.

(** Updating one entry of a list exchanges its contribution to an [omap]. *)
Lemma omap_insert_perm (f : A → option B) l i x y :
  l !! i = Some x →
  option_list (f x) ++ omap f (<[i:=y]> l) ≡ₚ option_list (f y) ++ omap f l.
Proof.
  intros H. rewrite (insert_take_drop l i y) by (by eapply lookup_lt_Some).
  rewrite <-(take_drop_middle l i x H) at 3.
  rewrite !omap_app, !omap_cons_app.
  generalize (omap f (take i l)) (omap f (drop (S i) l)) (option_list (f x)) (option_list (f y)).
  clear. intros a b u v.
  rewrite (Permutation_app_swap_app u), (Permutation_app_swap_app v). f_equiv.
  by rewrite Permutation_app_swap_app.
Qed.

Lemma omap_ext_in (f g : A → option B) l : (∀ x, x ∈ l → f x = g x) → omap f l = omap g l.
Proof.
  induction l as [|x l IH]; [done|]. intros H. rewrite !omap_cons_app, H, IH; [done| |].
  - intros. apply H. by right.
  - by left.
Qed.

(** Entries that contribute the same value to a duplicate-free [omap] are one
    and the same entry. *)
Lemma omap_NoDup_inj (f : A → option B) l i j x y z :
  NoDup (omap f l) → l !! i = Some x → l !! j = Some y → f x = Some z → f y = Some z → i = j.
Proof.
  assert (∀ l i x z, l !! i = Some x → f x = Some z → z ∈ omap f l) as Hin.
  { intros k n w u Hn Hu. apply list_elem_of_omap. exists w. split; [|done].
    by eapply list_elem_of_lookup_2. }
  revert i j. induction l as [|w l IH]; intros i j; [done|].
  rewrite omap_cons_app, NoDup_app. intros (_ & Hd & Hnd) Hi Hj Hx Hy.
  destruct i as [|i], j as [|j]; simplify_eq/=; [done|..].
  - exfalso. apply (Hd z); [rewrite Hx; by left|eauto].
  - exfalso. apply (Hd z); [rewrite Hy; by left|eauto].
  - f_equal. eauto.
Qed.

Lemma NoDup_snoc l x : NoDup l → x ∉ l → NoDup (l ++ [x]).
Proof.
  intros Hl Hx. apply NoDup_app. split_and!; [done| |apply NoDup_singleton].
  by intros y Hy ->%list_elem_of_singleton.
Qed.

Lemma zip_insert (l : list A) (k : list B) i x y :
  zip (<[i:=x]> l) (<[i:=y]> k) = <[i:=(x,y)]> (zip l k).
Proof. revert k i. induction l as [|z l IH]; intros [|w k] [|i]; simpl; try done. by rewrite IH. Qed.

Lemma lookup_zip (l : list A) (k : list B) i x y :
  l !! i = Some x → k !! i = Some y → zip l k !! i = Some (x, y).
Proof. revert k i. induction l as [|z l IH]; intros [|w k] [|i]; simpl; naive_solver. Qed.

Lemma lookup_zip_inv (l : list A) (k : list B) i x y :
  zip l k !! i = Some (x, y) → l !! i = Some x ∧ k !! i = Some y.
Proof. revert k i. induction l as [|z l IH]; intros [|w k] [|i]; simpl; naive_solver. Qed.
End lists.

Lemma zip_insert_l {A B} (l : list A) (k : list B) i x y :
  k !! i = Some y → zip (<[i:=x]> l) k = <[i:=(x,y)]> (zip l k).
Proof. intros H. rewrite <-zip_insert. by rewrite (list_insert_id k). Qed.

Lemma zip_insert_r {A B} (l : list A) (k : list B) i x y :
  l !! i = Some x → zip l (<[i:=y]> k) = <[i:=(x,y)]> (zip l k).
Proof. intros H. rewrite <-zip_insert. by rewrite (list_insert_id l). Qed.
