(* ===== verification/Double.v ===== *)
(** * Doubles

    The counters' quotients are computed in [double]: binary64 as the Standard
    Library's [SpecFloat] defines it, with no hardware floats. A quotient of
    counters that are not above each other and below 2^53 lies in [[0, 1]]. *)

From S2P Require Import Prelude.
From Stdlib Require Import Floats.SpecFloat.

Local Open Scope Z_scope.

Definition double := spec_float.

(** [static_cast<double>] of a [std::uint64_t] or a [std::size_t]. *)
Definition of_u64 (n : N) : double := binary_normalize 53 1024 (Z.of_N n) 0 false.
Definition ddiv (x y : double) : double := SFdiv 53 1024 x y.
Definition dmul (x y : double) : double := SFmul 53 1024 x y.
Definition dlt (x y : double) : bool := SFltb x y.
Definition dle (x y : double) : bool := SFleb x y.
Definition dzero : double := S754_zero false.
Definition d_one : double := S754_finite false 4503599627370496 (-52).

Definition in_unit (x : double) : Prop := dle dzero x = true ∧ dle x d_one = true.

(** ** Digits *)

Lemma digits_log2 (p : positive) : Zpos (digits2_pos p) = Z.log2 (Zpos p) + 1.
Proof.
  induction p as [p IH|p IH|]; simpl digits2_pos; [| |done]; rewrite Pos2Z.inj_succ, IH.
  - rewrite Pos2Z.inj_xI, Z.log2_succ_double by lia. lia.
  - rewrite Pos2Z.inj_xO, Z.log2_double by lia. lia.
Qed.

Lemma digits_le m k : 0 < m → 0 <= k → m <= 2 ^ k → Zdigits2 m <= k + 1.
Proof.
  intros Hm Hk Hle. destruct m as [|p|]; [lia| |lia]. simpl Zdigits2. rewrite digits_log2.
  pose proof (Z.log2_le_mono _ _ Hle) as Hl. rewrite Z.log2_pow2 in Hl by done. lia.
Qed.

(** ** Shifting right *)

Lemma iter_pos_compose {A} (f : A → A) (n : positive) x : iter_pos f n x = Nat.iter (Pos.to_nat n) f x.
Proof.
  revert x. induction n as [n IH|n IH|]; intros x; simpl iter_pos; [| |done]; rewrite !IH, <-Nat.iter_add.
  - rewrite <-Nat.iter_succ_r. f_equal. lia.
  - f_equal. lia.
Qed.

Lemma shr_1_m mrs : 0 <= shr_m mrs → shr_m (shr_1 mrs) = shr_m mrs / 2.
Proof.
  destruct mrs as [[|[p|p|]|p] r s]; intros Hm; simpl in *; try done.
  - rewrite Pos2Z.inj_xI. apply Z.div_unique with 1; lia.
  - rewrite Pos2Z.inj_xO. apply Z.div_unique with 0; lia.
Qed.

Lemma shr_iter_m (n : nat) mrs :
  0 <= shr_m mrs → shr_m (Nat.iter n shr_1 mrs) = shr_m mrs / 2 ^ Z.of_nat n.
Proof.
  intros Hm. induction n as [|n IH]; [by rewrite Z.div_1_r|]. rewrite Nat.iter_succ, shr_1_m, IH.
  - rewrite Nat2Z.inj_succ, Z.pow_succ_r, Z.mul_comm by lia. apply Z.div_div; lia.
  - rewrite IH. by apply Z.div_pos; [|lia].
Qed.

Lemma shr_iter_exact (n : nat) k :
  0 <= k → Nat.iter n shr_1 (Build_shr_record (k * 2 ^ Z.of_nat n) false false) = Build_shr_record k false false.
Proof.
  intros Hk. induction n as [|n IH]; [by rewrite Z.mul_1_r|].
  rewrite Nat.iter_succ_r, Nat2Z.inj_succ, Z.pow_succ_r by lia.
  etrans; [|exact IH]. f_equal.
  destruct (k * 2 ^ Z.of_nat n) as [|p|p] eqn:E; [| |pose proof (Z.pow_pos_nonneg 2 (Z.of_nat n)); nia].
  - replace (k * (2 * 2 ^ Z.of_nat n)) with 0 by lia. done.
  - replace (k * (2 * 2 ^ Z.of_nat n)) with (2 * Zpos p) by lia. done.
Qed.

(** What a shift by [n], or by nothing when [n] is negative, leaves. *)
Lemma shr_spec mrs e n :
  0 <= shr_m mrs → shr mrs e n = (Nat.iter (Z.to_nat n) shr_1 mrs, e + Z.max 0 n).
Proof.
  intros Hm. destruct n as [|n|n]; simpl shr.
  - by rewrite Z.add_0_r.
  - by rewrite iter_pos_compose.
  - by rewrite Z.add_0_r.
Qed.

(** ** Rounding does not cross a power of two *)

(** The number [m * 2^e], or something strictly between it and [(m+1) * 2^e],
    is at most 1. *)
Definition below_one (m e : Z) (l : location) : Prop :=
  0 <= m ∧ e <= -52 ∧ m <= 2 ^ (- e) ∧ (l = loc_Exact ∨ m < 2 ^ (- e)).

Lemma shift_exp m e : 0 <= m → e <= -52 → m <= 2 ^ (- e) → e + Z.max 0 (fexp 53 1024 (Zdigits2 m + e) - e) <= -52.
Proof.
  intros Hm He Hle. unfold fexp, emin. destruct (decide (m = 0)) as [->|Hne]; [simpl Zdigits2; lia|].
  pose proof (digits_le m (- e) ltac:(lia) ltac:(lia) Hle). lia.
Qed.

Lemma shifted_below m e n :
  0 <= m → 0 <= n → e + n <= 0 → m <= 2 ^ (- e) →
  0 <= m / 2 ^ n ∧ m / 2 ^ n <= 2 ^ (- (e + n)) ∧
  (m < 2 ^ (- e) → m / 2 ^ n < 2 ^ (- (e + n))) ∧
  (m = 2 ^ (- e) → m = 2 ^ (- (e + n)) * 2 ^ n).
Proof.
  intros Hm Hn Hen Hle. assert (2 ^ (- e) = 2 ^ (- (e + n)) * 2 ^ n) as E
    by (rewrite <-Z.pow_add_r by lia; f_equal; lia).
  pose proof (Z.pow_pos_nonneg 2 n ltac:(lia) Hn) as Hp. split_and!.
  - by apply Z.div_pos.
  - apply Z.div_le_upper_bound; lia.
  - intros Hlt. apply Z.div_lt_upper_bound; lia.
  - intros ->. exact E.
Qed.

(** A shift and the rounding after it. *)
Lemma round_shifted m e l :
  below_one m e l →
  let '(mrs, e') := shr_fexp 53 1024 m e l in
  below_one (round_nearest_even (shr_m mrs) (loc_of_shr_record mrs)) e' loc_Exact.
Proof.
  intros (Hm & He & Hle & Hl). unfold shr_fexp.
  set (n := fexp 53 1024 (Zdigits2 m + e) - e). pose proof (shift_exp m e Hm He Hle) as Hs. fold n in Hs.
  assert (shr_m (shr_record_of_loc m l) = m) as Em by (destruct l as [|[]]; done).
  rewrite shr_spec by (by rewrite Em). set (mrs := Nat.iter _ _ _).
  assert (shr_m mrs = m / 2 ^ Z.max 0 n) as Emrs.
  { unfold mrs. rewrite shr_iter_m, Em by (by rewrite Em). do 2 f_equal. lia. }
  destruct (shifted_below m e (Z.max 0 n)) as (H1 & H2 & H3 & H4); [lia..|].
  set (N := 2 ^ (- (e + Z.max 0 n))) in *.
  destruct (Z.eq_dec m (2 ^ (- e))) as [E|Hne].
  - destruct Hl as [->|]; [|lia]. specialize (H4 E).
    assert (mrs = Build_shr_record N false false) as ->.
    { unfold mrs. simpl. rewrite H4. rewrite <-(shr_iter_exact (Z.to_nat n) N) at 1 by (unfold N; lia).
      do 3 f_equal. f_equal. lia. }
    cbn. unfold below_one. split_and!; [unfold N; lia|done|done|by left].
  - specialize (H3 ltac:(lia)). rewrite Emrs. unfold below_one. fold N.
    assert (∀ x, m / 2 ^ Z.max 0 n <= x <= m / 2 ^ Z.max 0 n + 1 → 0 <= x ∧ e + Z.max 0 n <= -52 ∧ x <= N ∧
      (loc_Exact = loc_Exact ∨ x < N)) as Hx by (intros x ?; split_and!; [lia..|by left]).
    apply Hx. unfold round_nearest_even. repeat case_match; lia.
Qed.

Lemma dle_same a b e : Zpos a <= Zpos b → dle (S754_finite false a e) (S754_finite false b e) = true.
Proof.
  intros Hle. unfold dle, SFleb, SFcompare. rewrite Z.compare_refl.
  change (Pos.compare_cont Eq a b) with (Pos.compare a b). by destruct (Pos.compare_spec a b); [..|lia].
Qed.

Lemma dle_one m e : 0 < m → e <= -52 → m <= 2 ^ (- e) → dle (S754_finite false (Z.to_pos m) e) d_one = true.
Proof.
  intros Hm He Hle. destruct (Z.compare_spec e (-52)) as [->|Hlt|Hgt]; [| |lia].
  - apply dle_same. by rewrite Z2Pos.id.
  - unfold dle, SFleb, SFcompare, d_one. by rewrite (proj2 (Z.compare_lt_iff _ _) Hlt).
Qed.

Lemma round_below_one m e l : below_one m e l → in_unit (binary_round_aux 53 1024 false m e l).
Proof.
  intros B. unfold binary_round_aux. pose proof (round_shifted m e l B) as B1.
  destruct (shr_fexp 53 1024 m e l) as [mrs e1]. set (m1 := round_nearest_even _ _) in *.
  destruct B1 as (Hm1 & He1 & Hle1 & _). unfold shr_fexp.
  set (n := fexp 53 1024 (Zdigits2 m1 + e1) - e1). pose proof (shift_exp m1 e1 Hm1 He1 Hle1) as Hs. fold n in Hs.
  rewrite shr_spec by done. cbv beta iota. simpl shr_record_of_loc. rewrite shr_iter_m by done. cbn [shr_m].
  destruct (shifted_below m1 e1 (Z.max 0 n)) as (H1 & H2 & _); [lia..|].
  replace (Z.of_nat (Z.to_nat n)) with (Z.max 0 n) by lia.
  destruct (m1 / 2 ^ Z.max 0 n) as [|p|p] eqn:E; [done| |lia].
  destruct (Z.leb_spec (e1 + Z.max 0 n) (1024 - 53)); [|lia].
  split; [done|]. by apply (dle_one (Zpos p)).
Qed.

(** ** Counters below 2^53 are exact *)

(** A mantissa of 53 digits needs no rounding. *)
Lemma round_normal m e :
  Zdigits2 (Zpos m) = 53 → -1074 <= e <= 971 → binary_round_aux 53 1024 false (Zpos m) e loc_Exact = S754_finite false m e.
Proof.
  intros Hd He. unfold binary_round_aux, shr_fexp.
  assert (fexp 53 1024 (Zdigits2 (Zpos m) + e) - e = 0) as E by (rewrite Hd; unfold fexp, emin; lia).
  rewrite E. cbn [shr shr_record_of_loc shr_m loc_of_shr_record round_nearest_even].
  rewrite E. cbn [shr shr_record_of_loc shr_m]. by destruct (Z.leb_spec e (1024 - 53)); [|lia].
Qed.

Lemma iter_xO (p n : positive) : Zpos (Pos.iter xO p n) = Zpos p * 2 ^ Zpos n.
Proof.
  induction n as [|n IH] using Pos.peano_ind; [simpl; lia|].
  rewrite Pos.iter_succ, Pos2Z.inj_xO, IH, Pos2Z.inj_succ, Z.pow_succ_r by lia. lia.
Qed.

(** The double of [n] is [n], with a mantissa of 53 digits. *)
Definition exactly (x : double) (n : Z) : Prop :=
  ∃ m e, x = S754_finite false m e ∧ -52 <= e <= 0 ∧ Zpos m = n * 2 ^ (- e) ∧ Zdigits2 (Zpos m) = 53.

Lemma digits_mul p k : 0 <= k → Z.log2 (Zpos p * 2 ^ k) + 1 = Zpos (digits2_pos p) + k.
Proof. intros Hk. rewrite Z.log2_mul_pow2, digits_log2 by lia. lia. Qed.

Lemma of_u64_exact (n : N) : (0 < n < 2 ^ 53)%N → exactly (of_u64 n) (Z.of_N n).
Proof.
  intros Hn. destruct n as [|p]; [lia|]. cbn [Z.of_N]. unfold of_u64, binary_normalize, binary_round. cbv beta iota.
  set (d := Zpos (digits2_pos p)). assert (1 <= d <= 53) as Hd.
  { unfold d. rewrite digits_log2. pose proof (Z.log2_nonneg (Zpos p)).
    pose proof (Z.log2_lt_pow2 (Zpos p) 53 ltac:(lia)) as Hl. apply proj1 in Hl. specialize (Hl ltac:(lia)). lia. }
  cbn [Z.of_N]. fold d. assert (fexp 53 1024 (d + 0) = d - 53) as -> by (unfold fexp, emin; lia).
  assert (∃ m, shl_align p 0 (d - 53) = (m, d - 53) ∧ Zpos m = Zpos p * 2 ^ (- (d - 53))) as (m & -> & Em).
  { unfold shl_align. rewrite Z.sub_0_r. destruct (d - 53) as [|k|k] eqn:E; [|lia|].
    - exists p. split; [done|]. simpl. lia.
    - eexists. split; [done|]. by rewrite iter_xO. }
  assert (Zdigits2 (Zpos m) = 53) as Hdm.
  { simpl. rewrite digits_log2, Em, digits_mul by lia. fold d. lia. }
  exists m, (d - 53). split_and!; [apply round_normal; [done|lia]|lia..|done|done].
Qed.

(** ** Quotients *)

(** The quotient's mantissa before rounding. *)
Lemma div_core m1 e1 m2 e2 :
  Zdigits2 (Zpos m1) = 53 → Zdigits2 (Zpos m2) = 53 → -52 <= e1 <= 0 → -52 <= e2 <= 0 →
  ∃ l, SFdiv_core_binary 53 1024 (Zpos m1) e1 (Zpos m2) e2
    = (Zpos m1 * 2 ^ 53 / Zpos m2, e1 - e2 - 53, l) ∧ ((Zpos m1 * 2 ^ 53) mod Zpos m2 = 0 → l = loc_Exact).
Proof.
  intros H1 H2 B1 B2. unfold SFdiv_core_binary. rewrite H1, H2.
  assert (Z.min (fexp 53 1024 (53 + e1 - (53 + e2))) (e1 - e2) = e1 - e2 - 53) as -> by (unfold fexp, emin; lia).
  replace (e1 - e2 - (e1 - e2 - 53)) with 53 by lia. cbv beta iota zeta.
  rewrite Z.shiftl_mul_pow2 by lia. unfold Z.div, Z.modulo.
  destruct (Z.div_eucl (Zpos m1 * 2 ^ 53) (Zpos m2)) as [q r]. exists (new_location (Zpos m2) r).
  split; [done|]. intros ->. unfold new_location. by destruct (Z.even _).
Qed.

Lemma exact_exponent m e n : 0 < n → e <= 0 → Zpos m = n * 2 ^ (- e) → Zdigits2 (Zpos m) = 53 → e = Z.log2 n - 52.
Proof.
  intros Hn He E D. simpl Zdigits2 in D. rewrite digits_log2, E, Z.log2_mul_pow2 in D by lia. lia.
Qed.

Lemma div_in_unit x y h t : exactly x h → exactly y t → 0 < h <= t → in_unit (ddiv x y).
Proof.
  intros (m1 & e1 & -> & B1 & E1 & D1) (m2 & e2 & -> & B2 & E2 & D2) Hle. unfold ddiv, SFdiv.
  destruct (div_core m1 e1 m2 e2 D1 D2 B1 B2) as (l & -> & Hl). cbn [xorb]. apply round_below_one.
  assert (e1 <= e2) as He.
  { rewrite (exact_exponent m1 e1 h), (exact_exponent m2 e2 t) by (done || lia).
    pose proof (Z.log2_le_mono h t). lia. }
  set (N := 2 ^ (- (e1 - e2 - 53))).
  assert (Zpos m1 * 2 ^ 53 <= Zpos m2 * N) as Hb.
  { rewrite E1, E2. unfold N. replace (- (e1 - e2 - 53)) with ((53 - e1) + e2) by lia.
    assert (2 ^ (- e2) * 2 ^ (53 - e1 + e2) = 2 ^ (- e1) * 2 ^ 53) as Ep
      by (rewrite <-!Z.pow_add_r by lia; f_equal; lia).
    pose proof (Z.pow_pos_nonneg 2 (- e1) ltac:(lia) ltac:(lia)). rewrite <-!Z.mul_assoc, Ep. nia. }
  assert (Zpos m1 * 2 ^ 53 / Zpos m2 <= N) as Hq by (apply Z.div_le_upper_bound; lia).
  unfold below_one. fold N. split_and!; [by apply Z.div_pos|lia|done|].
  destruct (Z.eq_dec ((Zpos m1 * 2 ^ 53) mod Zpos m2) 0) as [Hr|Hr]; [left; auto|right].
  pose proof (Z.div_mod (Zpos m1 * 2 ^ 53) (Zpos m2) ltac:(lia)).
  pose proof (Z.mod_pos_bound (Zpos m1 * 2 ^ 53) (Zpos m2) ltac:(lia)). nia.
Qed.

(** A quotient of equals is one, exactly. *)
Lemma div_self x t : exactly x t → ddiv x x = d_one.
Proof.
  intros (m & e & -> & B & _ & D). unfold ddiv, SFdiv. destruct (div_core m e m e D D B B) as (l & -> & Hl).
  rewrite Z.mul_comm, Z.div_mul by lia. rewrite Z.sub_diag, Hl; [vm_compute; reflexivity|].
  rewrite Z.mul_comm. by apply Z.mod_mul.
Qed.
