(* ===== verification/Types.v ===== *)
(** * Geometry of the cache and the key of a block

    include/kvslab/types.hpp: the id types, [CacheConfig] with its derived
    sizes (computed in [size_t], so modulo 2^64), and [block_key], the hash
    under which the prefix tree files a child. *)

From S2P Require Import Prelude.

Open Scope N_scope.

(** [TokenId] is a signed 32-bit integer, [BlockId] an unsigned one. *)
Abbreviation TokenId := Z (only parsing).
Abbreviation BlockId := N (only parsing).

Definition kInvalidBlock : BlockId := two32 - 1.

Record CacheConfig := {
  num_blocks : N;
  block_tokens : N;
  num_layers : N;
  num_kv_heads : N;
  head_dim : N;
  dtype_bytes : N;
}.

Definition bytes_per_token (cfg : CacheConfig) : N :=
  u64 (u64 (u64 (u64 (2 * num_layers cfg) * num_kv_heads cfg) * head_dim cfg)
       * dtype_bytes cfg).

Definition block_bytes (cfg : CacheConfig) : N :=
  u64 (block_tokens cfg * bytes_per_token cfg).

Definition total_bytes (cfg : CacheConfig) : N :=
  u64 (num_blocks cfg * block_bytes cfg).

(** ** block_key *)

Definition fnv_basis : N := 1469598103934665603.
Definition fnv_prime : N := 1099511628211.

(** One round of the inner loop: byte number [byte] of [v]. *)
Definition fnv_byte (v h byte : N) : N :=
  u64 (N.lxor h (N.land (N.shiftr v (byte * 8)) 255) * fnv_prime).

(** [static_cast<std::uint32_t>(token)]. *)
Definition token_bits (t : TokenId) : N := Z.to_N (t mod 4294967296)%Z.

Definition fnv_token (h : N) (t : TokenId) : N :=
  fold_left (fnv_byte (token_bits t)) [0; 1; 2; 3] h.

Definition block_key (tokens : list TokenId) (n : nat) : N :=
  fold_left fnv_token (take n tokens) fnv_basis.

(** ** Sizes *)

(** The sizes of a configuration without the wrap-around of [size_t]. *)
Definition exact_block_bytes (cfg : CacheConfig) : N :=
  block_tokens cfg * (2 * num_layers cfg * num_kv_heads cfg * head_dim cfg * dtype_bytes cfg).

Lemma u64_small x : x < two64 → u64 x = x.
Proof. apply N.mod_small. Qed.

Lemma u64_lt x : u64 x < two64.
Proof. by apply N.mod_lt. Qed.

Lemma u64_mul_l a b : u64 (u64 a * b) = u64 (a * b).
Proof. apply N.Div0.mul_mod_idemp_l. Qed.

Lemma u64_mul_r a b : u64 (a * u64 b) = u64 (a * b).
Proof. apply N.Div0.mul_mod_idemp_r. Qed.

Lemma block_bytes_mod cfg : block_bytes cfg = u64 (exact_block_bytes cfg).
Proof.
  unfold block_bytes, bytes_per_token, exact_block_bytes.
  by rewrite (u64_mul_l (2 * _)), (u64_mul_l (2 * _ * _)), (u64_mul_l (2 * _ * _ * _)),
    u64_mul_r.
Qed.

(** When the pool's exact size fits in [size_t] none of the three sizes wraps:
    [total_bytes] is the exact product of blocks, tokens and bytes. *)
Lemma config_sizes_exact cfg :
  num_blocks cfg * exact_block_bytes cfg < two64 →
  total_bytes cfg = num_blocks cfg * exact_block_bytes cfg.
Proof.
  intros H. unfold total_bytes.
  rewrite block_bytes_mod, u64_mul_r. by apply u64_small.
Qed.

(** ** Injectivity of one token's worth of hashing *)

Section key_injectivity.
Local Open Scope Z_scope.

Let P : Z := 1099511628211.
Let W : Z := 18446744073709551616.

Lemma lxor_low_byte (h b : N) :
  (b < 256)%N → ∃ e : Z, Z.of_N (N.lxor h b) = 256 * (Z.of_N h / 256) + e ∧ 0 <= e < 256.
Proof.
  intros Hb.
  assert (N.lxor h b / 256 = h / 256)%N as Hhi.
  { change 256%N with (2 ^ 8)%N. rewrite <-!N.shiftr_div_pow2, N.shiftr_lxor.
    rewrite (N.shiftr_div_pow2 b), (N.div_small b) by done. apply N.lxor_0_r. }
  generalize dependent (N.lxor h b). intros x Hhi.
  exists (Z.of_N (x mod 256)). split; lia_div.
Qed.

Lemma lxor_inj_r (h b b' : N) : N.lxor h b = N.lxor h b' → b = b'.
Proof.
  intros H. apply (f_equal (N.lxor h)) in H.
  by rewrite <-!N.lxor_assoc, !N.lxor_nilpotent, !N.lxor_0_l in H.
Qed.

Lemma lxor_inj_l (h h' b : N) : N.lxor h b = N.lxor h' b → h = h'.
Proof. rewrite !(N.lxor_comm _ b). apply lxor_inj_r. Qed.

Lemma lxor_lt_two64 (h b : N) : (h < two64)%N → (b < 256)%N → (N.lxor h b < two64)%N.
Proof.
  intros Hh Hb. destruct (lxor_low_byte h b Hb) as (e & He & Hb').
  unfold two64 in *. lia_div.
Qed.

(** One round is, modulo 2^64, multiplication by an invertible constant. *)
Lemma fnv_byte_mod v h byte :
  Z.of_N (fnv_byte v h byte)
  = (Z.of_N (N.lxor h (N.land (N.shiftr v (byte * 8)) 255)) * P) mod W.
Proof. unfold fnv_byte, u64, two64, fnv_prime, P, W. lia_div. Qed.

Lemma mul_prime_inj x y :
  0 <= x < W → 0 <= y < W → (x * P) mod W = (y * P) mod W → x = y.
Proof.
  assert (∀ z, 0 <= z < W → ((z * P) mod W * 14886173955864302971) mod W = z) as Hinv.
  { intros z Hz. rewrite Z.mul_mod_idemp_l by done.
    replace (z * P * 14886173955864302971) with (z + z * 887285111055 * W)
      by (unfold P, W; lia).
    rewrite Z.mod_add by done. by apply Z.mod_small. }
  intros Hx Hy H. by rewrite <-(Hinv x), <-(Hinv y), H.
Qed.

(** No short combination of the powers of the prime vanishes modulo 2^64. *)
Lemma prime_powers_independent d e1 e2 e3 k :
  -255 <= d <= 255 → -510 <= e1 <= 510 → -510 <= e2 <= 510 → -255 <= e3 <= 255 →
  ((d * P + e1) * P + e2) * P + k * W = e3 → d = 0 ∧ e1 = 0 ∧ e2 = 0 ∧ e3 = 0.
Proof.
  intros Hd H1 H2 H3 H.
  set (q := 2 ^ 40).
  assert (∃ k', q * (567675 * d + 870 * e1 + e2 + k' * 16777216)
                + (82312875 * d + 189225 * e1 + 435 * e2 - e3) = 0) as [k' Hk].
  { exists (k + d * 72057594123452416 + e1 * 65536).
    unfold P, W, q in *. lia. }
  assert (82312875 * d + 189225 * e1 + 435 * e2 - e3 = 0) as HL by (unfold q in *; lia).
  assert (567675 * d + 870 * e1 + e2 + k' * 16777216 = 0) as HH by (unfold q in *; lia).
  lia.
Qed.

Lemma fnv_byte_lt v h byte : (fnv_byte v h byte < two64)%N.
Proof. apply u64_lt. Qed.

Lemma land_255_lt (x : N) : (N.land x 255 < 256)%N.
Proof. change 255%N with (N.ones 8). rewrite N.land_ones. by apply N.mod_lt. Qed.

Lemma fnv_byte_inj v v' h h' byte :
  (h < two64)%N → (h' < two64)%N → fnv_byte v h byte = fnv_byte v' h' byte →
  N.lxor h (N.land (N.shiftr v (byte * 8)) 255) = N.lxor h' (N.land (N.shiftr v' (byte * 8)) 255).
Proof.
  intros Hh Hh' H. apply (f_equal Z.of_N) in H. rewrite !fnv_byte_mod in H.
  pose proof (lxor_lt_two64 h _ Hh (land_255_lt (N.shiftr v (byte * 8)))).
  pose proof (lxor_lt_two64 h' _ Hh' (land_255_lt (N.shiftr v' (byte * 8)))).
  apply mul_prime_inj in H; unfold two64, W in *; lia.
Qed.

(** How far apart two runs are after one round, given how far apart they
    were before it. *)
Lemma fnv_round_drift v v' h h' byte :
  ∃ e k, -510 <= e <= 510 ∧ (h = h' → -255 <= e <= 255) ∧
    Z.of_N (N.lxor h (N.land (N.shiftr v (byte * 8)) 255))
    - Z.of_N (N.lxor h' (N.land (N.shiftr v' (byte * 8)) 255))
    = Z.of_N h - Z.of_N h' + e ∧
    Z.of_N (fnv_byte v h byte) - Z.of_N (fnv_byte v' h' byte)
    = (Z.of_N h - Z.of_N h' + e) * P + k * W.
Proof.
  destruct (lxor_low_byte h _ (land_255_lt (N.shiftr v (byte * 8)))) as (a & Ha & Ba).
  destruct (lxor_low_byte h' _ (land_255_lt (N.shiftr v' (byte * 8)))) as (a' & Ha' & Ba').
  rewrite !fnv_byte_mod.
  set (x := Z.of_N (N.lxor h _)) in *. set (x' := Z.of_N (N.lxor h' _)) in *.
  exists (x - x' - (Z.of_N h - Z.of_N h')), (x' * P / W - x * P / W).
  pose proof (Z.div_mod (x * P) W). pose proof (Z.div_mod (x' * P) W).
  split; [lia_div|]. split; [intros ->; lia|]. split; [lia|].
  unfold W, P in *; lia.
Qed.

Lemma lxor_eq_close (h h' b b' : N) :
  (b < 256)%N → (b' < 256)%N → N.lxor h b = N.lxor h' b' →
  -255 <= Z.of_N h - Z.of_N h' <= 255.
Proof.
  intros Hb Hb' H.
  destruct (lxor_low_byte h b Hb) as (a & Ha & Ba).
  destruct (lxor_low_byte h' b' Hb') as (a' & Ha' & Ba').
  rewrite H in Ha. lia_div.
Qed.

(** From the same state, two values whose four bytes lead to the same state
    have the same four bytes. *)
Lemma fnv_bytes_inj v v' h b0 b1 b2 b3 :
  fold_left (fnv_byte v) [b0; b1; b2; b3] h = fold_left (fnv_byte v') [b0; b1; b2; b3] h →
  Forall (λ b, N.land (N.shiftr v (b * 8)) 255 = N.land (N.shiftr v' (b * 8)) 255)
    [b0; b1; b2; b3].
Proof.
  cbn [fold_left]. intros H.
  destruct (fnv_round_drift v v' h h b0) as (e0 & k0 & _ & B0 & X0 & D0).
  destruct (fnv_round_drift v v' (fnv_byte v h b0) (fnv_byte v' h b0) b1)
    as (e1 & k1 & B1 & _ & X1 & D1).
  destruct (fnv_round_drift v v' (fnv_byte v (fnv_byte v h b0) b1)
    (fnv_byte v' (fnv_byte v' h b0) b1) b2) as (e2 & k2 & B2 & _ & X2 & D2).
  apply fnv_byte_inj in H; [|apply fnv_byte_lt..].
  pose proof (lxor_eq_close _ _ _ _ (land_255_lt _) (land_255_lt _) H) as B3.
  destruct (prime_powers_independent e0 e1 e2 _ (k0 * P * P + k1 * P + k2)
    (B0 eq_refl) B1 B2 B3) as (-> & -> & -> & E3); [rewrite D2, D1, D0; ring|].
  assert (E0 : N.lxor h (N.land (N.shiftr v (b0 * 8)) 255)
               = N.lxor h (N.land (N.shiftr v' (b0 * 8)) 255)) by lia.
  assert (F0 : fnv_byte v h b0 = fnv_byte v' h b0) by (unfold fnv_byte; by rewrite E0).
  rewrite F0 in X1, X2, H.
  assert (E1 : N.lxor (fnv_byte v' h b0) (N.land (N.shiftr v (b1 * 8)) 255)
               = N.lxor (fnv_byte v' h b0) (N.land (N.shiftr v' (b1 * 8)) 255)) by lia.
  assert (F1 : fnv_byte v (fnv_byte v' h b0) b1 = fnv_byte v' (fnv_byte v' h b0) b1)
    by (unfold fnv_byte at 1 3; by rewrite E1).
  rewrite F1 in X2, H.
  assert (E2 : N.lxor (fnv_byte v' (fnv_byte v' h b0) b1) (N.land (N.shiftr v (b2 * 8)) 255)
               = N.lxor (fnv_byte v' (fnv_byte v' h b0) b1)
                   (N.land (N.shiftr v' (b2 * 8)) 255)) by lia.
  assert (F2 : fnv_byte v (fnv_byte v' (fnv_byte v' h b0) b1) b2
               = fnv_byte v' (fnv_byte v' (fnv_byte v' h b0) b1) b2)
    by (unfold fnv_byte at 1 4; by rewrite E2).
  rewrite F2 in H.
  repeat constructor; eapply lxor_inj_r; eassumption.
Qed.
End key_injectivity.

Definition is_token (t : TokenId) : Prop := (-2147483648 <= t < 2147483648)%Z.
#[global] Instance is_token_dec t : Decision (is_token t).
Proof. unfold is_token. apply _. Defined.

(** A 32-bit value is its four bytes. *)
Lemma four_bytes (v : N) :
  v < two32 →
  v = N.land (N.shiftr v (0 * 8)) 255 + 256 * N.land (N.shiftr v (1 * 8)) 255
      + 65536 * N.land (N.shiftr v (2 * 8)) 255 + 16777216 * N.land (N.shiftr v (3 * 8)) 255.
Proof.
  intros H. change 255 with (N.ones 8). rewrite !N.land_ones, !N.shiftr_div_pow2.
  change (2 ^ (0 * 8)) with 1. change (2 ^ (1 * 8)) with 256.
  change (2 ^ (2 * 8)) with 65536. change (2 ^ (3 * 8)) with 16777216. change (2 ^ 8) with 256.
  unfold two32 in H. lia_div.
Qed.

Lemma token_bits_inj t t' : is_token t → is_token t' → token_bits t = token_bits t' → t = t'.
Proof. unfold is_token, token_bits. intros. lia_div. Qed.

Lemma token_bits_lt t : token_bits t < two32.
Proof. unfold token_bits, two32. lia_div. Qed.

Lemma fnv_token_lt h t : fnv_token h t < two64.
Proof. apply fnv_byte_lt. Qed.

Lemma fnv_token_inj_token h t t' :
  is_token t → is_token t' → fnv_token h t = fnv_token h t' → t = t'.
Proof.
  intros Ht Ht' H. apply token_bits_inj; [done..|].
  apply fnv_bytes_inj in H. rewrite !Forall_cons in H. destruct H as (H0 & H1 & H2 & H3 & _).
  rewrite (four_bytes (token_bits t)), (four_bytes (token_bits t')) by apply token_bits_lt.
  by rewrite H0, H1, H2, H3.
Qed.

Lemma fnv_token_inj_state h h' t :
  h < two64 → h' < two64 → fnv_token h t = fnv_token h' t → h = h'.
Proof.
  unfold fnv_token. generalize [0; 1; 2; 3]. intros l. revert h h'.
  induction l as [|b l IH]; simpl; [done|]. intros h h' Hh Hh' H.
  apply IH in H; [|apply fnv_byte_lt..].
  apply fnv_byte_inj in H; [|done..]. by apply lxor_inj_l in H.
Qed.

Lemma fnv_fold_inj l h h' :
  h < two64 → h' < two64 → fold_left fnv_token l h = fold_left fnv_token l h' → h = h'.
Proof.
  revert h h'. induction l as [|t l IH]; simpl; [done|]. intros h h' Hh Hh' H.
  apply IH in H; [|apply fnv_token_lt..]. by apply fnv_token_inj_state in H.
Qed.

(** Keys are 64-bit values. *)
Lemma block_key_lt tokens n : block_key tokens n < two64.
Proof.
  unfold block_key. assert (fnv_basis < two64) as H by done. revert H.
  generalize fnv_basis. induction (take n tokens) as [|t l IH]; simpl; [done|].
  intros h _. apply IH, fnv_token_lt.
Qed.

Lemma block_key_app_l l1 l2 n :
  length l1 = n → block_key (l1 ++ l2) n = block_key l1 n.
Proof. intros <-. unfold block_key. by rewrite take_app_length, take_ge. Qed.

(** C39: two blocks of tokens that differ in exactly one token, anywhere in the
    block, never share a key: a collision between blocks of the prefix tree
    needs at least two differing tokens. *)
Theorem block_key_separates_one_token l1 l2 t t' n :
  is_token t → is_token t' → t ≠ t' → (length l1 < n)%nat →
  block_key (l1 ++ t :: l2) n ≠ block_key (l1 ++ t' :: l2) n.
Proof.
  intros Ht Ht' Hne Hn H. unfold block_key in H.
  rewrite !take_app_ge in H by lia.
  destruct (n - length l1)%nat as [|k] eqn:E; [lia|].
  simpl in H. rewrite !fold_left_app in H. simpl in H.
  apply fnv_fold_inj in H; [|apply fnv_token_lt..].
  by apply fnv_token_inj_token in H.
Qed.

Lemma block_key_separates_one_token_witness :
  block_key ([1; 2]%Z ++ (-3)%Z :: [4]%Z) 4 ≠ block_key ([1; 2]%Z ++ 7%Z :: [4]%Z) 4.
Proof.
  apply block_key_separates_one_token;
    [by apply (bool_decide_unpack _); vm_compute..|done|simpl; lia].
Defined.

(** The starting value is not the published 64-bit FNV offset basis: its last
    decimal digit is missing. *)
Definition fnv64_offset_basis : N := 14695981039346656037.

Lemma block_key_basis_is_not_fnv :
  block_key [] 0 = fnv64_offset_basis / 10 ∧ block_key [] 0 ≠ fnv64_offset_basis.
Proof. split; vm_compute; done. Qed.
