(* ===== verification/Tier.v ===== *)
(** * Tiers

    include/kvslab/tier.hpp and src/tier.cpp. The abstract class [Tier] is a
    type class: its operations are the virtual methods, its laws are what
    block_pool.cpp relies on. [HostTier], the one implementation in the
    repository, is an instance, and its laws are proved. *)

From S2P Require Import Prelude Types.
From Stdlib Require Strings.Byte.

Open Scope N_scope.

Abbreviation byte := Byte.byte.

(** [host_data] is [None] for [nullptr] and the arena as the CPU sees it
    otherwise; [host_store] is a store through that pointer. *)
Class Tier (T : Type) := {
  tier_name : T → string;
  capacity_bytes : T → N;
  host_data : T → option (list byte);
  host_store : N → list byte → T → T;
  read : N → N → T → result (list byte);
  write : N → list byte → T → result T;
}.

(** What a tier promises: bulk reads and writes act on one flat arena of
    [capacity_bytes] bytes, and the pointer, when there is one, addresses that
    same arena. [tier_ok] is the implementation's own representation
    invariant. *)
Class TierLaws (T : Type) `{Tier T} := {
  tier_ok : T → Prop;
  contents : T → list byte;
  contents_size t : tier_ok t → size_of (contents t) = capacity_bytes t;
  capacity_lt t : tier_ok t → capacity_bytes t < two64;
  host_data_contents t a : tier_ok t → host_data t = Some a → a = contents t;
  host_store_law t off bs :
    tier_ok t → is_Some (host_data t) → off + size_of bs <= capacity_bytes t →
    tier_ok (host_store off bs t) ∧
    contents (host_store off bs t) = splice (N.to_nat off) bs (contents t) ∧
    is_Some (host_data (host_store off bs t)) ∧
    capacity_bytes (host_store off bs t) = capacity_bytes t;
  read_law t off n :
    tier_ok t → off + n <= capacity_bytes t →
    read off n t = Ok (slice (N.to_nat off) (N.to_nat n) (contents t));
  write_law t off bs :
    tier_ok t → off + size_of bs <= capacity_bytes t →
    ∃ t', write off bs t = Ok t' ∧ tier_ok t' ∧
      contents t' = splice (N.to_nat off) bs (contents t) ∧
      (is_Some (host_data t') ↔ is_Some (host_data t)) ∧
      capacity_bytes t' = capacity_bytes t;
}.

Module HostTier.
Definition kArenaAlignment : N := 4096.

Definition round_up (value multiple : N) : N :=
  u64 (u64 (value + multiple - 1) / multiple * multiple).

Record t := mk { arena_ : option (list byte); capacity_bytes_ : N }.

(** The constructor. [aligned_alloc] is the C library's: it takes an
    alignment and a size and returns a block of that size or null. *)
Definition make (aligned_alloc : N → N → option (list byte)) (capacity : N) : result t :=
  let cap := round_up capacity kArenaAlignment in
  if cap =? 0 then Ok (mk None cap)
  else match aligned_alloc kArenaAlignment cap with
       | None => Err BadAlloc
       | Some raw => Ok (mk (Some raw) cap)
       end.

(** [arena_] with a null pointer read as an empty arena: [memcpy] of zero
    bytes is the only access that stays inside it. *)
Definition arena (h : t) : list byte := default [] (arena_ h).

Definition read (offset bytes : N) (h : t) : result (list byte) :=
  if u64 (offset + bytes) <=? capacity_bytes_ h
  then mem_load (arena h) offset bytes
  else Err (AssertFailed "read past the end of the tier").

Definition write (offset : N) (src : list byte) (h : t) : result t :=
  if u64 (offset + size_of src) <=? capacity_bytes_ h
  then match mem_store (arena h) offset src with
       | Ok a => Ok (mk (if arena_ h is Some _ then Some a else None) (capacity_bytes_ h))
       | Err e => Err e
       end
  else Err (AssertFailed "write past the end of the tier").

Definition host_store (offset : N) (src : list byte) (h : t) : t :=
  mk (splice (N.to_nat offset) src <$> arena_ h) (capacity_bytes_ h).

(** A null arena belongs to a tier of capacity zero. *)
Definition ok (h : t) : Prop :=
  size_of (arena h) = capacity_bytes_ h ∧ capacity_bytes_ h < two64.
End HostTier.

#[global] Instance HostTier_tier : Tier HostTier.t := {|
  tier_name _ := "host"%string;
  capacity_bytes := HostTier.capacity_bytes_;
  host_data := HostTier.arena_;
  host_store := HostTier.host_store;
  read := HostTier.read;
  write := HostTier.write;
|}.

Module HostTierFacts.
Import HostTier.

Lemma mem_load_ok {A} (a : list A) off n :
  off + n <= size_of a → mem_load a off n = Ok (slice (N.to_nat off) (N.to_nat n) a).
Proof. intros H%N.leb_le. unfold mem_load. by rewrite H. Qed.

Lemma mem_store_ok {A} (a : list A) off bs :
  off + size_of bs <= size_of a → mem_store a off bs = Ok (splice (N.to_nat off) bs a).
Proof. intros H%N.leb_le. unfold mem_store. by rewrite H. Qed.

Lemma size_of_splice {A} off (bs a : list A) :
  off + size_of bs <= size_of a → size_of (splice (N.to_nat off) bs a) = size_of a.
Proof. unfold size_of. intros. rewrite length_splice; lia. Qed.

Lemma read_ok (h : t) off n :
  ok h → off + n <= capacity_bytes_ h →
  read off n h = Ok (slice (N.to_nat off) (N.to_nat n) (arena h)).
Proof.
  intros [Hs Hc] H. unfold read. rewrite u64_small by lia.
  apply N.leb_le in H as H'. rewrite H'. apply mem_load_ok. lia.
Qed.

Lemma write_ok (h : t) off bs :
  ok h → off + size_of bs <= capacity_bytes_ h →
  write off bs h = Ok (host_store off bs h).
Proof.
  intros [Hs Hc] H. unfold write. rewrite u64_small by lia.
  apply N.leb_le in H as H'. rewrite H', mem_store_ok by lia.
  unfold host_store, arena. by destruct (arena_ h).
Qed.

Lemma arena_host_store (h : t) off bs :
  ok h → off + size_of bs <= capacity_bytes_ h →
  arena (host_store off bs h) = splice (N.to_nat off) bs (arena h).
Proof.
  intros [Hs Hc] H. unfold host_store, arena in *. destruct (arena_ h) as [a|]; simpl in *; [done|].
  assert (bs = []) as -> by (apply length_zero_iff_nil; unfold size_of in *; simpl in *; lia).
  unfold splice. by rewrite take_nil, drop_nil.
Qed.

Lemma host_store_ok (h : t) off bs :
  ok h → off + size_of bs <= capacity_bytes_ h → ok (host_store off bs h).
Proof.
  intros Hok H. split; [|apply Hok].
  rewrite arena_host_store by done. destruct Hok as [Hs ?]. simpl.
  rewrite size_of_splice; lia.
Qed.
End HostTierFacts.

#[global] Program Instance HostTier_laws : TierLaws HostTier.t := {|
  tier_ok := HostTier.ok;
  contents := HostTier.arena;
|}.
Next Obligation. by intros t [??]. Qed.
Next Obligation. by intros t [??]. Qed.
Next Obligation. intros t a _ H. simpl in H. unfold HostTier.arena. by rewrite H. Qed.
Next Obligation.
  intros t off bs Hok [a Ha] H. simpl in *. split_and!;
    [by apply HostTierFacts.host_store_ok|by apply HostTierFacts.arena_host_store| |done].
  unfold HostTier.host_store. simpl. rewrite Ha. by eexists.
Qed.
Next Obligation. intros. by apply HostTierFacts.read_ok. Qed.
Next Obligation.
  intros t off bs Hok H. exists (HostTier.host_store off bs t). split_and!;
    [by apply HostTierFacts.write_ok|by apply HostTierFacts.host_store_ok
    |by apply HostTierFacts.arena_host_store| |done].
  simpl. unfold HostTier.host_store. simpl. apply fmap_is_Some.
Qed.

(** ** Properties of HostTier *)

Section host_tier_properties.
Context (aligned_alloc : N → N → option (list byte)).
(** The C library returns a block of the size it was asked for. *)
Hypothesis aligned_alloc_size :
  ∀ align size a, aligned_alloc align size = Some a → size_of a = size.

Lemma round_up_exact value multiple :
  0 < multiple → value + multiple - 1 < two64 →
  HostTier.round_up value multiple = (value + multiple - 1) / multiple * multiple.
Proof.
  intros Hm H. unfold HostTier.round_up. rewrite (u64_small (value + multiple - 1)) by done.
  apply u64_small. pose proof (N.Div0.mul_div_le (value + multiple - 1) multiple). lia.
Qed.

Lemma round_up_least value multiple :
  0 < multiple → value + multiple - 1 < two64 →
  let r := HostTier.round_up value multiple in
  value <= r ∧ r mod multiple = 0 ∧ r < value + multiple.
Proof.
  intros Hm H. cbv zeta. rewrite round_up_exact by done.
  pose proof (N.Div0.div_mod (value + multiple - 1) multiple) as Hdm.
  pose proof (N.mod_lt (value + multiple - 1) multiple ltac:(lia)) as Hlt.
  rewrite N.mul_comm in Hdm.
  generalize dependent ((value + multiple - 1) mod multiple). intros q Hdm Hlt.
  split_and!; [lia| |lia]. apply N.Div0.mod_mul.
Qed.

Lemma make_capacity capacity :
  capacity <= two64 - HostTier.kArenaAlignment →
  match HostTier.make aligned_alloc capacity with
  | Ok h => HostTier.ok h ∧ capacity <= capacity_bytes h < capacity + HostTier.kArenaAlignment ∧
            capacity_bytes h mod HostTier.kArenaAlignment = 0 ∧
            (host_data h = None ↔ capacity = 0)
  | Err e => e = BadAlloc ∧
             aligned_alloc HostTier.kArenaAlignment
               (HostTier.round_up capacity HostTier.kArenaAlignment) = None
  end.
Proof.
  intros H.
  destruct (round_up_least capacity HostTier.kArenaAlignment) as (H1 & H2 & H3);
    [done|unfold HostTier.kArenaAlignment, two64 in *; lia|].
  pose proof (u64_lt (u64 (capacity + HostTier.kArenaAlignment - 1)
    / HostTier.kArenaAlignment * HostTier.kArenaAlignment)) as Hlt.
  unfold HostTier.make. fold (HostTier.round_up capacity HostTier.kArenaAlignment) in Hlt.
  set (r := HostTier.round_up _ _) in *. destruct (N.eqb_spec r 0) as [Hr|Hr].
  - unfold HostTier.ok; simpl. assert (capacity = 0) as -> by lia.
    split_and!; try done; lia.
  - destruct (aligned_alloc _ _) as [a|] eqn:Ha; [|done].
    unfold HostTier.ok; simpl. split_and!; try done; [by eapply aligned_alloc_size|].
    split; [done|]. intros ->. exfalso. apply Hr. unfold HostTier.kArenaAlignment in *.
    lia_div.
Qed.

(** A host tier asked for [capacity] bytes owns an arena of exactly the
    size it reports, which is the smallest multiple of the page size that is
    large enough; it is well formed, and its only failure is the allocator's. *)
Theorem host_tier_capacity capacity :
  capacity <= two64 - HostTier.kArenaAlignment →
  match HostTier.make aligned_alloc capacity with
  | Ok h => HostTier.ok h ∧ capacity <= capacity_bytes h < capacity + HostTier.kArenaAlignment ∧
            capacity_bytes h mod HostTier.kArenaAlignment = 0 ∧
            (host_data h = None ↔ capacity = 0)
  | Err e => e = BadAlloc ∧
             aligned_alloc HostTier.kArenaAlignment
               (HostTier.round_up capacity HostTier.kArenaAlignment) = None
  end.
Proof. apply make_capacity. Qed.

(** Bytes written to a host tier are read back unchanged, and a write
    leaves every disjoint range of the tier as it was. *)
Theorem host_tier_write_read (h : HostTier.t) off bs off' n :
  HostTier.ok h → off + size_of bs <= capacity_bytes h → off' + n <= capacity_bytes h →
  ∃ h', write off bs h = Ok h' ∧ HostTier.ok h' ∧ capacity_bytes h' = capacity_bytes h ∧
    read off (size_of bs) h' = Ok bs ∧
    (off' + n <= off ∨ off + size_of bs <= off' → read off' n h' = read off' n h).
Proof.
  intros Hok Hw Hr.
  pose proof Hok as [Hs Hc].
  destruct (write_law h off bs) as (h' & Hwr & Hok' & Hcont & _ & Hcap); [done..|].
  exists h'. split_and!; [done..| |].
  - rewrite (read_law h') by (try done; by rewrite Hcap). rewrite Hcont. f_equal.
    simpl in *. unfold size_of in *. rewrite Nat2N.id. apply slice_splice_same. lia.
  - intros Hd. rewrite (read_law h'), (read_law h) by (try done; by rewrite Hcap).
    rewrite Hcont. f_equal. simpl in *. unfold size_of in *.
    apply slice_splice_disjoint; lia.
Qed.
End host_tier_properties.

(** An allocator that always succeeds, for the concrete runs below. *)
Definition zeroed_alloc (align size : N) : option (list byte) :=
  Some (replicate (N.to_nat size) Byte.x00).

Lemma zeroed_alloc_size align size a : zeroed_alloc align size = Some a → size_of a = size.
Proof. intros [= <-]. unfold size_of. rewrite length_replicate. lia. Qed.

Lemma host_tier_capacity_witness :
  ∃ h, HostTier.make zeroed_alloc 4000 = Ok h ∧ capacity_bytes h < 4000 + 4096 ∧
       capacity_bytes h mod 4096 = 0.
Proof.
  pose proof (host_tier_capacity zeroed_alloc zeroed_alloc_size 4000) as H.
  destruct (HostTier.make zeroed_alloc 4000) as [h|e] eqn:E.
  - exists h. destruct H as (_ & H1 & H2 & _); [vm_compute; discriminate|]. split_and!; [done|apply H1|apply H2].
  - exfalso. destruct H as [_ H]; [vm_compute; discriminate|]. discriminate.
Defined.

Definition small_tier : HostTier.t :=
  HostTier.mk (Some (replicate 16 Byte.x00)) 16.

Lemma host_tier_write_read_witness :
  ∃ h', write 8 [Byte.x01; Byte.x02] small_tier = Ok h' ∧
        read 8 2 h' = Ok [Byte.x01; Byte.x02] ∧ read 0 8 h' = Ok (replicate 8 Byte.x00).
Proof.
  destruct (host_tier_write_read small_tier 8 [Byte.x01; Byte.x02] 0 8) as (h' & H1 & _ & _ & H2 & H3).
  - split; vm_compute; done.
  - vm_compute; discriminate.
  - vm_compute; discriminate.
  - exists h'. split; [exact H1|]. split; [exact H2|]. rewrite H3; [reflexivity|].
    left. vm_compute; discriminate.
Defined.

(** C40: the bounds assertion of [HostTier::read] adds two [size_t] values, and the
    sum wraps: an offset just below 2^64 passes the assertion on every tier and
    the copy that follows leaves the arena. *)
Theorem host_tier_read_assert_wraps (h : HostTier.t) :
  HostTier.ok h → 8 <= capacity_bytes h →
  read (two64 - 8) 16 h = Err (OutOfBounds "load").
Proof.
  intros [Hs Hc] H. simpl in *. unfold HostTier.read.
  replace (u64 (two64 - 8 + 16)) with 8 by done.
  apply N.leb_le in H. rewrite H. unfold mem_load.
  destruct (N.leb_spec (two64 - 8 + 16) (size_of (HostTier.arena h))); [|done].
  unfold two64 in *. lia.
Qed.

Lemma host_tier_read_assert_wraps_witness : read (two64 - 8) 16 small_tier = Err (OutOfBounds "load").
Proof.
  apply (host_tier_read_assert_wraps small_tier); [split; vm_compute; done|vm_compute; discriminate].
Defined.
