(* ===== verification/BlockPool.v ===== *)
(** * The block pool

    include/kvslab/block_pool.hpp and src/block_pool.cpp: a fixed-size block
    allocator over one or more tiers. The state is the class's own; the tier
    objects a pool borrows live in a store indexed by address, and migration
    jobs live in a heap that both the queue [jobs_] and the map [migrating_]
    point into, as they do in the source. *)

From S2P Require Import Prelude Types Tier.

Open Scope N_scope.

(** Addresses of tier objects and of migration jobs. *)
Abbreviation TierPtr := N (only parsing).
Abbreviation JobPtr := N (only parsing).
Abbreviation TierIndex := N (only parsing).

Record TierSpec := { spec_tier : option TierPtr; spec_num_blocks : N }.

Record TierState := {
  ts_tier : TierPtr;
  ts_num_blocks : N;
  ts_free_slots : list N;
}.

Record Location := { loc_tier : TierIndex; loc_slot : N }.

(** [src] and [dst] are pointers: a tier's arena and an offset into it. *)
Record MigrationJob := {
  job_id : BlockId;
  job_dst_tier : TierIndex;
  job_dst_slot : N;
  job_src : TierPtr * N;
  job_dst : TierPtr * N;
  job_bytes : N;
  job_done : bool;
  job_cancelled : bool;
}.

Definition set_done (j : MigrationJob) : MigrationJob := {|
  job_id := job_id j; job_dst_tier := job_dst_tier j; job_dst_slot := job_dst_slot j;
  job_src := job_src j; job_dst := job_dst j; job_bytes := job_bytes j;
  job_done := true; job_cancelled := job_cancelled j |}.
Definition set_cancelled (j : MigrationJob) : MigrationJob := {|
  job_id := job_id j; job_dst_tier := job_dst_tier j; job_dst_slot := job_dst_slot j;
  job_src := job_src j; job_dst := job_dst j; job_bytes := job_bytes j;
  job_done := job_done j; job_cancelled := true |}.

Definition set_free_slots (l : list N) (ts : TierState) : TierState := {|
  ts_tier := ts_tier ts; ts_num_blocks := ts_num_blocks ts; ts_free_slots := l |}.

(** ** Vectors *)

Definition push_back {A} (x : A) (l : list A) : list A := l ++ [x].
Definition back {A} (l : list A) : option A := last l.
Definition pop_back {A} (l : list A) : list A := take (pred (length l)) l.

(** [for (i = n; i > 0; --i) v.push_back(static_cast<uint32_t>(i - 1));] *)
Fixpoint countdown (n : nat) : list N :=
  match n with
  | O => []
  | S n => u32 (N.of_nat n) :: countdown n
  end.

(** Where a worker that holds a job is in [worker_loop]. *)
Inductive stage :=
  | Tests      (* about to read [cancelled] *)
  | Copies     (* read false *)
  | Finishes.  (* about to store [done] *)

#[global] Instance stage_eq_dec : EqDecision stage.
Proof. solve_decision. Defined.

Section pool.
Context {T : Type} `{Tier T}.

(** Beyond the members: the heap of job objects and of tier objects; the
    program counters of the worker threads, [hands_], which has the job a
    thread holds and where it is with it; and [turns_], the threads that are
    going to take a step before each of the calls to come. [workers_] is the
    number of threads, and they are the threads [0], [1] and so on below it. *)
Record BlockPool := {
  cfg_ : CacheConfig;
  tiers_ : list TierState;
  location_ : list Location;
  refcount_ : list N;
  free_ids_ : list BlockId;
  bounce_ : list byte;
  jobs_ : list JobPtr;
  migrating_ : gmap BlockId JobPtr;
  workers_ : N;
  next_unclaimed_ : N;
  stopping_ : bool;
  job_heap : gmap JobPtr MigrationJob;
  job_next : JobPtr;
  arenas : gmap TierPtr T;
  hands_ : gmap nat (JobPtr * stage);
  turns_ : list (list nat);
}.

Definition upd_tiers (x : list TierState) (p : BlockPool) : BlockPool :=
  Build_BlockPool (cfg_ p) x (location_ p) (refcount_ p) (free_ids_ p) (bounce_ p) (jobs_ p)
    (migrating_ p) (workers_ p) (next_unclaimed_ p) (stopping_ p) (job_heap p) (job_next p)
    (arenas p) (hands_ p) (turns_ p).
Definition upd_location (x : list Location) (p : BlockPool) : BlockPool :=
  Build_BlockPool (cfg_ p) (tiers_ p) x (refcount_ p) (free_ids_ p) (bounce_ p) (jobs_ p)
    (migrating_ p) (workers_ p) (next_unclaimed_ p) (stopping_ p) (job_heap p) (job_next p)
    (arenas p) (hands_ p) (turns_ p).
Definition upd_refcount (x : list N) (p : BlockPool) : BlockPool :=
  Build_BlockPool (cfg_ p) (tiers_ p) (location_ p) x (free_ids_ p) (bounce_ p) (jobs_ p)
    (migrating_ p) (workers_ p) (next_unclaimed_ p) (stopping_ p) (job_heap p) (job_next p)
    (arenas p) (hands_ p) (turns_ p).
Definition upd_free_ids (x : list BlockId) (p : BlockPool) : BlockPool :=
  Build_BlockPool (cfg_ p) (tiers_ p) (location_ p) (refcount_ p) x (bounce_ p) (jobs_ p)
    (migrating_ p) (workers_ p) (next_unclaimed_ p) (stopping_ p) (job_heap p) (job_next p)
    (arenas p) (hands_ p) (turns_ p).
(** The job queue, its index and the heap its entries live in. *)
Definition upd_queue (jobs : list JobPtr) (mig : gmap BlockId JobPtr)
    (heap : gmap JobPtr MigrationJob) (p : BlockPool) : BlockPool :=
  Build_BlockPool (cfg_ p) (tiers_ p) (location_ p) (refcount_ p) (free_ids_ p) (bounce_ p) jobs
    mig (workers_ p) (next_unclaimed_ p) (stopping_ p) heap (job_next p) (arenas p) (hands_ p) (turns_ p).
Definition upd_cursor (x : N) (p : BlockPool) : BlockPool :=
  Build_BlockPool (cfg_ p) (tiers_ p) (location_ p) (refcount_ p) (free_ids_ p) (bounce_ p)
    (jobs_ p) (migrating_ p) (workers_ p) x (stopping_ p) (job_heap p) (job_next p) (arenas p) (hands_ p) (turns_ p).
Definition upd_threads (workers : N) (stop : bool) (p : BlockPool) : BlockPool :=
  Build_BlockPool (cfg_ p) (tiers_ p) (location_ p) (refcount_ p) (free_ids_ p) (bounce_ p)
    (jobs_ p) (migrating_ p) workers (next_unclaimed_ p) stop (job_heap p) (job_next p)
    (arenas p) (hands_ p) (turns_ p).
Definition upd_job_next (x : JobPtr) (p : BlockPool) : BlockPool :=
  Build_BlockPool (cfg_ p) (tiers_ p) (location_ p) (refcount_ p) (free_ids_ p) (bounce_ p)
    (jobs_ p) (migrating_ p) (workers_ p) (next_unclaimed_ p) (stopping_ p) (job_heap p) x
    (arenas p) (hands_ p) (turns_ p).
Definition upd_bytes (bounce : list byte) (x : gmap TierPtr T) (p : BlockPool) : BlockPool :=
  Build_BlockPool (cfg_ p) (tiers_ p) (location_ p) (refcount_ p) (free_ids_ p) bounce
    (jobs_ p) (migrating_ p) (workers_ p) (next_unclaimed_ p) (stopping_ p) (job_heap p)
    (job_next p) x (hands_ p) (turns_ p).

(** The workers' side. *)
Definition upd_workers (hands : gmap nat (JobPtr * stage)) (turns : list (list nat)) (p : BlockPool) : BlockPool :=
  Build_BlockPool (cfg_ p) (tiers_ p) (location_ p) (refcount_ p) (free_ids_ p) (bounce_ p)
    (jobs_ p) (migrating_ p) (workers_ p) (next_unclaimed_ p) (stopping_ p) (job_heap p)
    (job_next p) (arenas p) hands turns.

Abbreviation PM := (M BlockPool).

(** [fatal()]: print and abort. *)
Definition fatal {A} (what : string) (id : BlockId) : PM A := fail (Fatal what id).

(** ** Element access, where the source writes [v[i]] or [*ptr] *)

Definition at_ {A} (what : string) (l : list A) (i : N) : PM A :=
  of_option (OutOfBounds what) (l !! N.to_nat i).
Definition tier_at (i : TierIndex) : PM TierState :=
  p ← get; at_ "tiers_" (tiers_ p) i.
Definition refcount_at (id : BlockId) : PM N :=
  p ← get; at_ "refcount_" (refcount_ p) id.
Definition location_at (id : BlockId) : PM Location :=
  p ← get; at_ "location_" (location_ p) id.
Definition job_at (j : JobPtr) : PM MigrationJob :=
  p ← get; of_option (BadPointer "job") (job_heap p !! j).
Definition tier_obj (t : TierPtr) : PM T :=
  p ← get; of_option (BadPointer "tier") (arenas p !! t).

Definition set_tier (i : TierIndex) (ts : TierState) : PM () :=
  modify (λ p, upd_tiers (<[N.to_nat i := ts]> (tiers_ p)) p).
Definition set_location (id : BlockId) (l : Location) : PM () :=
  modify (λ p, upd_location (<[N.to_nat id := l]> (location_ p)) p).
Definition set_refcount (id : BlockId) (n : N) : PM () :=
  modify (λ p, upd_refcount (<[N.to_nat id := n]> (refcount_ p)) p).

(** [tiers_[i].free_slots.push_back(slot)] *)
Definition free_slot_push (i : TierIndex) (slot : N) : PM () :=
  ts ← tier_at i; set_tier i (set_free_slots (push_back slot (ts_free_slots ts)) ts).
(** [slot = tiers_[i].free_slots.back(); tiers_[i].free_slots.pop_back();] *)
Definition free_slot_pop (i : TierIndex) : PM N :=
  ts ← tier_at i;
  slot ← of_option (OutOfBounds "free_slots.back()") (back (ts_free_slots ts));
  set_tier i (set_free_slots (pop_back (ts_free_slots ts)) ts) ;;
  mret slot.

(** ** Construction *)

(** [v.reserve(n)], [v.assign(n, x)] or [v.resize(n)] on the vector [v], and
    what follows it. What [std::vector] does with the request is [room]: it
    finds the room, or throws [std::length_error] beyond its [max_size()], or
    [std::bad_alloc]. *)
Definition reserving {A} (room : string → N → option error) (v : string) (n : N) (k : result A) : result A :=
  match room v n with Some e => Err e | None => k end.

(** Memory that lasts. *)
Definition plenty : string → N → option error := λ _ _, None.

Fixpoint init_tiers (room : string → N → option error) (cfg : CacheConfig) (objs : gmap TierPtr T)
    (specs : list TierSpec) (tiers : list TierState) (total : N) : result (list TierState * N) :=
  match specs with
  | [] => Ok (tiers, total)
  | spec :: specs =>
      match spec_tier spec with
      | None => Err (InvalidArgument "kvslab: null tier in pool spec")
      | Some ptr =>
          match objs !! ptr with
          | None => Err (BadPointer "tier")
          | Some t =>
              if capacity_bytes t <? u64 (spec_num_blocks spec * block_bytes cfg)
              then Err (InvalidArgument "kvslab: tier is too small for the requested pool")
              else reserving room "free_slots" (spec_num_blocks spec)
                     (init_tiers room cfg objs specs
                       (push_back {| ts_tier := ptr; ts_num_blocks := spec_num_blocks spec;
                           ts_free_slots := countdown (N.to_nat (spec_num_blocks spec)) |} tiers)
                       (u64 (total + spec_num_blocks spec)))
          end
      end
  end.

(** The members as [init] leaves them. *)
Definition new_pool (cfg : CacheConfig) (objs : gmap TierPtr T) (tiers : list TierState) (total : N) : BlockPool := {|
  cfg_ := cfg;
  tiers_ := tiers;
  location_ := replicate (N.to_nat total) {| loc_tier := 0; loc_slot := 0 |};
  refcount_ := replicate (N.to_nat total) 0;
  free_ids_ := countdown (N.to_nat total);
  bounce_ := replicate (N.to_nat (block_bytes cfg)) Byte.x00;
  jobs_ := [];
  migrating_ := ∅;
  workers_ := 0;
  next_unclaimed_ := 0;
  stopping_ := false;
  job_heap := ∅;
  job_next := 0;
  arenas := objs;
  hands_ := ∅;
  turns_ := [] |}.

(** [BlockPool(specs, cfg)] and the [init] it calls; [objs] holds the tier
    objects the specs point to. *)
Definition init_in (room : string → N → option error) (specs : list TierSpec) (cfg : CacheConfig)
    (objs : gmap TierPtr T) : result BlockPool :=
  match specs with
  | [] => Err (InvalidArgument "kvslab: a pool needs at least one tier")
  | _ =>
      reserving room "tiers_" (size_of specs)
      match init_tiers room cfg objs specs [] 0 with
      | Err e => Err e
      | Ok (tiers, total) =>
          reserving room "location_" total (reserving room "refcount_" total (reserving room "free_ids_" total
          (reserving room "bounce_" (block_bytes cfg)
            (Ok (new_pool cfg objs tiers total)))))
      end
  end.

(** As long as memory lasts. *)
Definition init := init_in plenty.

(** [BlockPool(tier, cfg)]: one borrowed tier. *)
Definition make_borrowed (tier : TierPtr) (cfg : CacheConfig) (objs : gmap TierPtr T)
    : result BlockPool :=
  init [{| spec_tier := Some tier; spec_num_blocks := num_blocks cfg |}] cfg objs.

(** ** Lookups *)

Definition locate (id : BlockId) : PM Location :=
  p ← get;
  if size_of (location_ p) <=? id then fatal "access to an out-of-range block" id else
  rc ← refcount_at id;
  if rc =? 0 then fatal "access to a block that is not allocated" id else
  location_at id.

Definition refcount (id : BlockId) : PM N :=
  p ← get;
  if size_of (location_ p) <=? id then fatal "refcount of an out-of-range block" id else
  refcount_at id.

Definition block_tier (id : BlockId) : PM TierIndex :=
  l ← locate id; mret (loc_tier l).

Definition migrating (id : BlockId) : PM bool :=
  p ← get; mret (bool_decide (is_Some (migrating_ p !! id))).

Definition migration_target (id : BlockId) : PM TierIndex :=
  p ← get;
  match migrating_ p !! id with
  | None => fatal "migration_target of a block not migrating" id
  | Some j => job ← job_at j; mret (job_dst_tier job)
  end.

Definition num_tiers (p : BlockPool) : nat := length (tiers_ p).
Definition tier_free (p : BlockPool) (i : TierIndex) : nat :=
  match tiers_ p !! N.to_nat i with
  | Some ts => length (ts_free_slots ts)
  | None => 0%nat
  end.
Definition num_free (p : BlockPool) : nat := tier_free p 0.
Definition num_used (p : BlockPool) : nat := (length (location_ p) - length (free_ids_ p))%nat.
Definition pending_migrations (p : BlockPool) : nat := size (migrating_ p).

(** The body of the loop of [pending_departures]; [None] is a dangling job
    pointer or an id outside [location_]. *)
Definition departs (p : BlockPool) (tier : TierIndex) (id : BlockId) (j : JobPtr) : bool :=
  match location_ p !! N.to_nat id, job_heap p !! j with
  | Some l, Some job => (loc_tier l =? tier) && negb (job_dst_tier job =? tier)
  | _, _ => false
  end.
Definition pending_departures (p : BlockPool) (tier : TierIndex) : nat :=
  length (filter (λ ij, departs p tier ij.1 ij.2 = true) (map_to_list (migrating_ p))).

Definition block_offset (id : BlockId) : PM N :=
  l ← locate id; p ← get; mret (u64 (loc_slot l * block_bytes (cfg_ p))).

(** [nullptr], or the tier object whose arena the pointer points into and
    the offset inside it. *)
Definition block_data (id : BlockId) : PM (option (TierPtr * N)) :=
  l ← locate id;
  ts ← tier_at (loc_tier l);
  t ← tier_obj (ts_tier ts);
  p ← get;
  match host_data t with
  | None => mret None
  | Some _ => mret (Some (ts_tier ts, u64 (loc_slot l * block_bytes (cfg_ p))))
  end.

(** ** Allocation and reference counts *)

Definition allocate : PM BlockId :=
  p ← get;
  if bool_decide (free_ids_ p = []) then mret kInvalidBlock else
  ts ← tier_at 0;
  if bool_decide (ts_free_slots ts = []) then mret kInvalidBlock else
  id ← of_option (OutOfBounds "free_ids_.back()") (back (free_ids_ p));
  modify (upd_free_ids (pop_back (free_ids_ p))) ;;
  rc ← refcount_at id;
  assert (rc =? 0) "refcount_[id] == 0" ;;
  _ ← location_at id;
  slot ← free_slot_pop 0;
  set_location id {| loc_tier := 0; loc_slot := slot |} ;;
  set_refcount id 1 ;;
  mret id.

Definition incref (id : BlockId) : PM () :=
  p ← get;
  if size_of (location_ p) <=? id then fatal "incref of an out-of-range block" id else
  rc ← refcount_at id;
  if rc =? 0 then fatal "incref of a block that is already free" id else
  set_refcount id (u32 (rc + 1)).

Definition cancel_migration (id : BlockId) : PM () :=
  p ← get;
  match migrating_ p !! id with
  | None => mret ()
  | Some j =>
      job ← job_at j;
      modify (upd_queue (jobs_ p) (delete id (migrating_ p))
                (<[j := set_cancelled job]> (job_heap p)))
  end.

Definition decref (id : BlockId) : PM bool :=
  p ← get;
  if size_of (location_ p) <=? id then fatal "decref of an out-of-range block" id else
  rc ← refcount_at id;
  if rc =? 0 then fatal "decref of a block that is already free" id else
  set_refcount id (rc - 1) ;;
  if rc - 1 =? 0 then
    cancel_migration id ;;
    loc ← location_at id;
    free_slot_push (loc_tier loc) (loc_slot loc) ;;
    modify (λ p, upd_free_ids (push_back id (free_ids_ p)) p) ;;
    mret true
  else mret false.

(** ** Copies *)

(** [std::memcpy(dst, src, bytes)] between two arenas. *)
Definition memcpy (dst src : TierPtr * N) (bytes : N) : PM () :=
  s ← tier_obj src.1;
  a ← of_option (BadPointer "memcpy from a null arena") (host_data s);
  match mem_load a src.2 bytes with
  | Err e => fail e
  | Ok bs =>
      d ← tier_obj dst.1;
      b ← of_option (BadPointer "memcpy to a null arena") (host_data d);
      if dst.2 + size_of bs <=? size_of b
      then modify (λ p, upd_bytes (bounce_ p) (<[dst.1 := host_store dst.2 bs d]> (arenas p)) p)
      else fail (OutOfBounds "store")
  end.

(** [src_tier.read(src_off, bounce_.data(), bytes);
    dst_tier.write(dst_off, bounce_.data(), bytes);] *)
Definition bounce_copy (dst src : TierPtr * N) (bytes : N) : PM () :=
  s ← tier_obj src.1;
  match read src.2 bytes s with
  | Err e => fail e
  | Ok bs =>
      modify (λ p, upd_bytes bs (arenas p) p) ;;
      d ← tier_obj dst.1;
      p ← get;
      match write dst.2 (bounce_ p) d with
      | Err e => fail e
      | Ok d' => modify (λ p, upd_bytes (bounce_ p) (<[dst.1 := d']> (arenas p)) p)
      end
  end.

(** ** Synchronous migration *)

(** The second half of [migrate], once the destination is known to have room:
    takes a slot there, copies, and rebinds the block. *)
Definition move_block (id : BlockId) (loc : Location) (dst : TierIndex) : PM bool :=
  p ← get;
  src_ts ← tier_at (loc_tier loc);
  dst_ts ← tier_at dst;
  src_tier ← tier_obj (ts_tier src_ts);
  dst_tier ← tier_obj (ts_tier dst_ts);
  let bytes := block_bytes (cfg_ p) in
  let src_off := u64 (loc_slot loc * bytes) in
  dst_slot ← free_slot_pop dst;
  let dst_off := u64 (dst_slot * bytes) in
  (if bool_decide (is_Some (host_data src_tier)) && bool_decide (is_Some (host_data dst_tier))
   then memcpy (ts_tier dst_ts, dst_off) (ts_tier src_ts, src_off) bytes
   else bounce_copy (ts_tier dst_ts, dst_off) (ts_tier src_ts, src_off) bytes) ;;
  free_slot_push (loc_tier loc) (loc_slot loc) ;;
  set_location id {| loc_tier := dst; loc_slot := dst_slot |} ;;
  mret true.

Definition migrate (id : BlockId) (dst : TierIndex) : PM bool :=
  cancel_migration id ;;
  loc ← locate id;
  p ← get;
  if size_of (tiers_ p) <=? dst then fatal "migrate to an out-of-range tier" id else
  if loc_tier loc =? dst then mret true else
  dst_ts ← tier_at dst;
  if bool_decide (ts_free_slots dst_ts = []) then mret false else
  move_block id loc dst.

(** ** Asynchronous migration *)

Context (hardware_concurrency : N).

(** [ensure_worker]: the thread count; what the threads do is [take_turn]
    below. *)
Definition ensure_worker : PM () :=
  p ← get;
  if negb (workers_ p =? 0) then mret () else
  modify (upd_threads (if 4 <=? hardware_concurrency then 3 else 1) (stopping_ p)).

Definition migrate_async (id : BlockId) (dst : TierIndex) : PM bool :=
  loc ← locate id;
  p ← get;
  if size_of (tiers_ p) <=? dst then fatal "async migrate to an out-of-range tier" id else
  if loc_tier loc =? dst then mret false else
  if bool_decide (is_Some (migrating_ p !! id)) then mret false else
  dst_ts ← tier_at dst;
  if bool_decide (ts_free_slots dst_ts = []) then mret false else
  src_ts ← tier_at (loc_tier loc);
  src_tier ← tier_obj (ts_tier src_ts);
  dst_tier ← tier_obj (ts_tier dst_ts);
  if negb (bool_decide (is_Some (host_data src_tier))
           && bool_decide (is_Some (host_data dst_tier))) then mret false else
  dst_slot ← free_slot_pop dst;
  let bytes := block_bytes (cfg_ p) in
  let job := {| job_id := id; job_dst_tier := dst; job_dst_slot := dst_slot;
                job_src := (ts_tier src_ts, u64 (loc_slot loc * bytes));
                job_dst := (ts_tier dst_ts, u64 (dst_slot * bytes));
                job_bytes := bytes; job_done := false; job_cancelled := false |} in
  let j := job_next p in
  modify (upd_job_next (j + 1)) ;;
  modify (λ p, upd_queue (push_back j (jobs_ p)) (<[id := j]> (migrating_ p))
                 (<[j := job]> (job_heap p)) p) ;;
  ensure_worker ;;
  mret true.

(** The first loop of [drain_migrations]: moves the finished jobs at the
    front of the queue into a list of its own. *)
Fixpoint take_finished (jobs : list JobPtr) : PM (list MigrationJob) :=
  match jobs with
  | [] => mret []
  | j :: rest =>
      job ← job_at j;
      if job_done job then
        modify (λ p, upd_queue rest (migrating_ p) (delete j (job_heap p)) p) ;;
        modify (λ p, upd_cursor (sub64 (next_unclaimed_ p) 1) p) ;;
        finished ← take_finished rest;
        mret (job :: finished)
      else mret []
  end.

(** The body of its second loop. *)
Definition apply_finished (job : MigrationJob) : PM () :=
  if job_cancelled job then free_slot_push (job_dst_tier job) (job_dst_slot job) else
  loc ← location_at (job_id job);
  free_slot_push (loc_tier loc) (loc_slot loc) ;;
  set_location (job_id job) {| loc_tier := job_dst_tier job; loc_slot := job_dst_slot job |} ;;
  modify (λ p, upd_queue (jobs_ p) (delete (job_id job) (migrating_ p)) (job_heap p) p).

Definition drain_migrations : PM () :=
  p ← get;
  if bool_decide (jobs_ p = []) then mret () else
  finished ← take_finished (jobs_ p);
  for_each finished apply_finished.

(** ** What a worker thread does

    One round of [worker_loop], in the pieces other threads can come between:
    claiming the next job under the queue's mutex, reading its [cancelled]
    flag, the copy, and the store to [done]. *)

Definition worker_claim : PM (option JobPtr) :=
  p ← get;
  if stopping_ p then mret None else
  if next_unclaimed_ p <? size_of (jobs_ p) then
    j ← at_ "jobs_" (jobs_ p) (next_unclaimed_ p);
    modify (upd_cursor (next_unclaimed_ p + 1)) ;;
    mret (Some j)
  else mret None.

Definition worker_finish (j : JobPtr) : PM () :=
  job ← job_at j;
  modify (λ p, upd_queue (jobs_ p) (migrating_ p) (<[j := set_done job]> (job_heap p)) p).

(** One step of the worker that holds [j]; it has let go of [j] after the
    last. *)
Definition hand_step (j : JobPtr) (st : stage) : PM (option stage) :=
  match st with
  | Tests => job ← job_at j; mret (Some (if job_cancelled job then Finishes else Copies))
  | Copies => job ← job_at j; memcpy (job_dst job) (job_src job) (job_bytes job) ;; mret (Some Finishes)
  | Finishes => worker_finish j ;; mret None
  end.

(** A turn of thread [w]. There is nothing to run when it was never started. It
    claims a job when it holds none, and goes on with the one it holds. *)
Definition take_turn (w : nat) : PM () :=
  p ← get;
  if workers_ p <=? N.of_nat w then mret () else
  match hands_ p !! w with
  | None =>
      c ← worker_claim;
      match c with
      | Some j => modify (λ p, upd_workers (<[w := (j, Tests)]> (hands_ p)) (turns_ p) p)
      | None => mret ()
      end
  | Some (j, st) =>
      o ← hand_step j st;
      modify (λ p, upd_workers (partial_alter (λ _, pair j <$> o) w (hands_ p)) (turns_ p) p)
  end.

(** Which turns the workers will take before each of the coming calls. *)
Definition schedule (ts : list (list nat)) : PM () := modify (λ p, upd_workers (hands_ p) ts p).

(** What the threads do between two calls of the scheduler. *)
Definition preempt : PM () :=
  p ← get;
  match turns_ p with
  | [] => mret ()
  | ts :: rest => modify (λ p, upd_workers (hands_ p) rest p) ;; for_each ts take_turn
  end.

(** The destructor: tells the workers to stop, and joins the threads one by
    one. Each finishes the job it holds first, which takes three steps at most,
    and leaves the loop where it would claim the next. *)
Definition join (w : nat) : PM () := for_each (replicate 3 w) take_turn.
Definition stop : PM () :=
  modify (λ p, upd_threads (workers_ p) true p) ;;
  p ← get; for_each (seq 0 (N.to_nat (workers_ p))) join.

(** ** Waiting for the workers *)

(** The condition [wait_for_migrations] waits for. *)
Fixpoint jobs_done (jobs : list JobPtr) : PM bool :=
  match jobs with
  | [] => mret true
  | j :: rest => job ← job_at j; if job_done job then jobs_done rest else mret false
  end.

(** [queue_cv_.wait(lk, condition)]: evaluate the condition, go to sleep when
    it is false, and again after each wakeup. [tss] has the turns the workers
    take before each wakeup that is still to come; after the last of them
    nobody wakes the thread again, and the call never returns. *)
Fixpoint awaken (tss : list (list nat)) : PM () :=
  p ← get;
  d ← jobs_done (jobs_ p);
  if (d : bool) then mret () else
  match tss with
  | [] => fail Blocked
  | ts :: tss => for_each ts take_turn ;; awaken tss
  end.

(** The workers' part in a wait: what they do before each wakeup of a scheduler
    that starts to wait in a given state. Nothing is assumed of it. No two
    waits with work left start in the same state, since jobs are numbered, so
    any run of the threads is described by some such function. *)
Class Wakes := wakes : BlockPool → list (list nat).

Definition wait_for_migrations `{Wk : Wakes} : PM () :=
  p ← get; awaken (wakes p) ;; drain_migrations.
End pool.
Arguments BlockPool T : clear implicits.
Arguments Wakes T : clear implicits.

(** [BlockPool(cfg)]: one host tier of the pool's own, at address 0. *)
Definition make_owned (aligned_alloc : N → N → option (list byte)) (cfg : CacheConfig)
    : result (BlockPool HostTier.t) :=
  match HostTier.make aligned_alloc (total_bytes cfg) with
  | Err e => Err e
  | Ok h => init [{| spec_tier := Some 0; spec_num_blocks := num_blocks cfg |}] cfg {[0 := h]}
  end.
