(* ===== verification/PoolInv.v ===== *)
(** * The pool's invariant

    What every state of a [BlockPool] satisfies between two operations: ids are
    either free or counted, every slot of every tier is in exactly one of three
    places (on the tier's free list, under a live block, reserved by a queued
    migration), and the queue, its index and the cursor agree. *)

From S2P Require Import Prelude Types Tier BlockPool.

Open Scope N_scope.

(** Permutations of lists of ids and slots, by counting occurrences. *)
Lemma count_occ_cons_app (y : N) l x :
  count_occ N.eq_dec (y :: l) x = (count_occ N.eq_dec [y] x + count_occ N.eq_dec l x)%nat.
Proof. apply (count_occ_app N.eq_dec [y]). Qed.

Ltac count_cons :=
  repeat match goal with
    | |- context [count_occ N.eq_dec (?y :: ?l) ?x] =>
        lazymatch l with [] => fail | _ => rewrite (count_occ_cons_app y l x) end
    | H : context [count_occ N.eq_dec (?y :: ?l) ?x] |- _ =>
        lazymatch l with [] => fail | _ => rewrite (count_occ_cons_app y l x) in H end
    end.

Ltac perm_lia :=
  repeat match goal with
    | H : _ ≡ₚ _ |- _ => rewrite (Permutation_count_occ N.eq_dec) in H
    end;
  rewrite (Permutation_count_occ N.eq_dec);
  let x := fresh "x" in intros x;
  repeat match goal with
    | H : ∀ _, count_occ _ _ _ = count_occ _ _ _ |- _ => specialize (H x)
    end;
  rewrite ?count_occ_app in *; count_cons; rewrite ?count_occ_nil in *; lia.

(** The slots of a tier of [n] blocks. *)
Definition slot_range (n : N) : list N := N.of_nat <$> seq 0 (N.to_nat n).

Section invariant.
Context {T : Type} `{TierLaws T}.
Implicit Types p : BlockPool T.

Definition live_slot (t : TierIndex) (e : Location * N) : option N :=
  if (e.2 =? 0) || negb (loc_tier e.1 =? t) then None else Some (loc_slot e.1).
Definition live_slots p (t : TierIndex) : list N :=
  omap (live_slot t) (zip (location_ p) (refcount_ p)).

Definition job_slot (t : TierIndex) (job : MigrationJob) : option N :=
  if job_dst_tier job =? t then Some (job_dst_slot job) else None.
Definition reserved_slots p (t : TierIndex) : list N :=
  omap (λ j, job_heap p !! j ≫= job_slot t) (jobs_ p).

(** A tier object that can hold [n] blocks of the pool's size. *)
Definition tier_fits (cfg : CacheConfig) (n : N) (t : T) : Prop :=
  tier_ok t ∧ n * block_bytes cfg <= capacity_bytes t.

(** One end of a copy lies inside a host-addressable arena. *)
Definition copy_end_ok p (end_ : TierPtr * N) : Prop :=
  ∃ t, arenas p !! end_.1 = Some t ∧ tier_ok t ∧ is_Some (host_data t) ∧
       end_.2 + block_bytes (cfg_ p) <= capacity_bytes t.

(** The address of slot [slot] of tier [t]. *)
Definition slot_addr p (t slot : N) : option (TierPtr * N) :=
  (λ ts, (ts_tier ts, slot * block_bytes (cfg_ p))) <$> tiers_ p !! N.to_nat t.

(** A block is live: its location and its (non-zero) count. *)
Definition live p (id : BlockId) (l : Location) (rc : N) : Prop :=
  location_ p !! N.to_nat id = Some l ∧ refcount_ p !! N.to_nat id = Some rc ∧ rc ≠ 0.

Record job_ok p (job : MigrationJob) : Prop := {
  jo_dst : slot_addr p (job_dst_tier job) (job_dst_slot job) = Some (job_dst job);
  jo_bytes : job_bytes job = block_bytes (cfg_ p);
  jo_dst_ok : copy_end_ok p (job_dst job);
  jo_src_ok : copy_end_ok p (job_src job);
  jo_live : job_cancelled job = false →
    ∃ l rc, live p (job_id job) l rc ∧ loc_tier l ≠ job_dst_tier job ∧
            slot_addr p (loc_tier l) (loc_slot l) = Some (job_src job);
}.

(** The parts of the invariant, each over the members it constrains. *)

Record ids_inv (locs : list Location) (rcs : list N) (free_ids : list BlockId) : Prop := {
  pi_len : length rcs = length locs;
  pi_ids : size_of locs <= kInvalidBlock;
  pi_rc : Forall (λ rc, rc < two32) rcs;
  pi_free_nodup : NoDup free_ids;
  pi_free id : id ∈ free_ids ↔ rcs !! N.to_nat id = Some 0;
}.

Record queue_inv (jobs : list JobPtr) (mig : gmap BlockId JobPtr)
    (heap : gmap JobPtr MigrationJob) (next : JobPtr) (cursor : N) : Prop := {
  pi_jobs_nodup : NoDup jobs;
  pi_jobs_dom j : j ∈ jobs ↔ is_Some (heap !! j);
  pi_jobs_next j : is_Some (heap !! j) → j < next;
  pi_mig id j : mig !! id = Some j ↔
    ∃ job, heap !! j = Some job ∧ job_id job = id ∧ job_cancelled job = false;
  pi_cursor : cursor <= size_of jobs;
  pi_done i j job : jobs !! i = Some j → heap !! j = Some job → job_done job = true →
    N.of_nat i < cursor;
}.

Record frame_inv (cfg : CacheConfig) (tiers : list TierState) (objs : gmap TierPtr T)
    (nids : nat) : Prop := {
  pi_tiers : tiers ≠ [];
  pi_total : nids = sum_list ((λ ts, N.to_nat (ts_num_blocks ts)) <$> tiers);
  pi_arena t ts : tiers !! N.to_nat t = Some ts →
    ∃ obj, objs !! ts_tier ts = Some obj ∧ tier_fits cfg (ts_num_blocks ts) obj;
  pi_arenas : NoDup (ts_tier <$> tiers);
}.

Record pool_inv p : Prop := {
  pi_i :> ids_inv (location_ p) (refcount_ p) (free_ids_ p);
  pi_q :> queue_inv (jobs_ p) (migrating_ p) (job_heap p) (job_next p) (next_unclaimed_ p);
  pi_f :> frame_inv (cfg_ p) (tiers_ p) (arenas p) (length (location_ p));
  pi_slots t ts : tiers_ p !! N.to_nat t = Some ts →
    ts_free_slots ts ++ live_slots p t ++ reserved_slots p t ≡ₚ slot_range (ts_num_blocks ts);
  pi_loc id l rc : live p id l rc → is_Some (tiers_ p !! N.to_nat (loc_tier l));
  pi_job j job : job_heap p !! j = Some job → job_ok p job;
}.

(** ** What clients see of a block *)

Record BlockView := { bv_refs : N; bv_tier : TierIndex; bv_target : option TierIndex }.

Definition target p (id : BlockId) : option TierIndex :=
  j ← migrating_ p !! id; job ← job_heap p !! j; Some (job_dst_tier job).

Definition view p (id : BlockId) : option BlockView :=
  rc ← refcount_ p !! N.to_nat id;
  l ← location_ p !! N.to_nat id;
  if rc =? 0 then None
  else Some {| bv_refs := rc; bv_tier := loc_tier l; bv_target := target p id |}.

(** ** Consequences *)

Lemma slot_range_elem n s : s ∈ slot_range n ↔ s < n.
Proof.
  unfold slot_range. rewrite list_elem_of_fmap. split.
  - intros (i & -> & Hi%elem_of_seq). lia.
  - intros Hs. exists (N.to_nat s). rewrite elem_of_seq. lia.
Qed.

Lemma slot_range_nodup n : NoDup (slot_range n).
Proof. apply NoDup_fmap; [intros ???; lia|apply NoDup_seq]. Qed.

Lemma length_slot_range n : length (slot_range n) = N.to_nat n.
Proof. unfold slot_range. by rewrite length_fmap, length_seq. Qed.

Lemma view_live p id v :
  view p id = Some v ↔
  ∃ l, live p id l (bv_refs v) ∧ bv_tier v = loc_tier l ∧ bv_target v = target p id.
Proof.
  unfold view, live. split.
  - intros Hv. destruct (refcount_ p !! _) as [rc|] eqn:Hrc; [|done].
    destruct (location_ p !! _) as [l|] eqn:Hl; [|done]. simpl in Hv.
    destruct (N.eqb_spec rc 0); simplify_eq/=. eauto 10.
  - intros (l & (Hl & Hrc & Hne) & Ht & Htg). rewrite Hrc, Hl. simpl.
    destruct (N.eqb_spec (bv_refs v) 0); [done|]. by destruct v; simplify_eq/=.
Qed.

Lemma live_lt p id l rc : live p id l rc → id < size_of (location_ p).
Proof. intros (Hl & _). apply lookup_lt_Some in Hl. unfold size_of. lia. Qed.

Lemma live_slots_elem p t s :
  s ∈ live_slots p t ↔ ∃ id l rc, live p id l rc ∧ loc_tier l = t ∧ loc_slot l = s.
Proof.
  unfold live_slots, live. rewrite list_elem_of_omap. split.
  - intros ([l rc] & Hin & Hs). apply list_elem_of_lookup in Hin as [i Hi].
    apply lookup_zip_inv in Hi as [Hl Hrc]. unfold live_slot in Hs; simpl in Hs.
    exists (N.of_nat i), l, rc. rewrite Nat2N.id.
    destruct (N.eqb_spec rc 0), (N.eqb_spec (loc_tier l) t); naive_solver.
  - intros (id & l & rc & (Hl & Hrc & Hne) & <- & <-). exists (l, rc). split.
    + apply list_elem_of_lookup. exists (N.to_nat id). by apply lookup_zip.
    + unfold live_slot; simpl. apply N.eqb_neq in Hne. by rewrite Hne, N.eqb_refl.
Qed.

Lemma reserved_slots_elem p t s :
  s ∈ reserved_slots p t ↔
  ∃ j job, j ∈ jobs_ p ∧ job_heap p !! j = Some job ∧ job_dst_tier job = t ∧ job_dst_slot job = s.
Proof.
  unfold reserved_slots. rewrite list_elem_of_omap. split.
  - intros (j & Hj & Hs). destruct (job_heap p !! j) as [job|] eqn:Hjob; simpl in Hs; [|done].
    unfold job_slot in Hs. destruct (N.eqb_spec (job_dst_tier job) t); naive_solver.
  - intros (j & job & Hj & Hjob & <- & <-). exists j. split; [done|].
    rewrite Hjob. simpl. unfold job_slot. by rewrite N.eqb_refl.
Qed.

Section facts.
Context p (I : pool_inv p).

Lemma rc_lookup id l : location_ p !! N.to_nat id = Some l → is_Some (refcount_ p !! N.to_nat id).
Proof. intros Hl%lookup_lt_Some. apply lookup_lt_is_Some. by rewrite (pi_len _ _ _ I). Qed.

Lemma loc_lookup id rc : refcount_ p !! N.to_nat id = Some rc → is_Some (location_ p !! N.to_nat id).
Proof. intros Hl%lookup_lt_Some. apply lookup_lt_is_Some. by rewrite <-(pi_len _ _ _ I). Qed.

(** Nothing on a tier's three lists is outside the tier. *)
Lemma slot_lt t ts s :
  tiers_ p !! N.to_nat t = Some ts →
  s ∈ ts_free_slots ts ∨ s ∈ live_slots p t ∨ s ∈ reserved_slots p t → s < ts_num_blocks ts.
Proof.
  intros Ht Hs. apply slot_range_elem. rewrite <-(pi_slots _ I t ts Ht), !elem_of_app. done.
Qed.

(** The three lists of a tier are disjoint and free of repetitions. *)
Lemma slots_nodup t ts :
  tiers_ p !! N.to_nat t = Some ts →
  NoDup (ts_free_slots ts ++ live_slots p t ++ reserved_slots p t).
Proof. intros Ht. rewrite (pi_slots _ I t ts Ht). apply slot_range_nodup. Qed.

(** The byte offset of a slot of a tier does not wrap. *)
Lemma slot_offset_bound t ts s :
  tiers_ p !! N.to_nat t = Some ts → s < ts_num_blocks ts →
  ∃ obj, arenas p !! ts_tier ts = Some obj ∧ tier_ok obj ∧
    s * block_bytes (cfg_ p) + block_bytes (cfg_ p) <= capacity_bytes obj ∧
    u64 (s * block_bytes (cfg_ p)) = s * block_bytes (cfg_ p).
Proof.
  intros Ht Hs. destruct (pi_arena _ _ _ _ I t ts Ht) as (obj & Hobj & Hok & Hcap).
  pose proof (capacity_lt obj Hok).
  assert ((s + 1) * block_bytes (cfg_ p) <= ts_num_blocks ts * block_bytes (cfg_ p))
    by (apply N.mul_le_mono_r; lia).
  exists obj. split_and!; [done..|lia|]. apply u64_small.
  destruct (N.eq_0_gt_0_cases (block_bytes (cfg_ p))) as [->|]; [rewrite N.mul_0_r; done|lia].
Qed.
End facts.

(** ** Counting ids and slots *)

Fixpoint zero_ids (k : nat) (l : list N) : list N :=
  match l with
  | [] => []
  | x :: l => option_list (if x =? 0 then Some (N.of_nat k) else None) ++ zero_ids (S k) l
  end.

Lemma zero_ids_elem k l id :
  id ∈ zero_ids k l ↔ ∃ i, id = N.of_nat (k + i) ∧ l !! i = Some 0.
Proof.
  revert k. induction l as [|x l IH]; intros k; simpl.
  - split; [by intros ?%not_elem_of_nil|by intros (i & _ & ?)].
  - rewrite elem_of_app, IH. split.
    + intros [Hx|(i & -> & Hi)].
      * destruct (N.eqb_spec x 0); [|by apply not_elem_of_nil in Hx].
        apply list_elem_of_singleton in Hx. exists 0%nat. rewrite Nat.add_0_r. by subst.
      * exists (S i). split; [lia|done].
    + intros ([|i] & -> & Hi); simplify_eq/=.
      * left. apply list_elem_of_singleton. lia.
      * right. exists i. split; [lia|done].
Qed.

Lemma zero_ids_nodup k l : NoDup (zero_ids k l).
Proof.
  revert k. induction l as [|x l IH]; intros k; simpl; [constructor|].
  destruct (x =? 0); simpl; [|apply IH]. constructor; [|apply IH].
  rewrite zero_ids_elem. intros (i & Hi & _). lia.
Qed.

Definition live_count (l : list N) : nat := length (filter (λ x, x ≠ 0) l).

Lemma zero_ids_length k l : (length (zero_ids k l) + live_count l = length l)%nat.
Proof.
  unfold live_count. revert k. induction l as [|x l IH]; intros k; [done|]. simpl.
  rewrite filter_cons, length_app. specialize (IH (S k)).
  destruct (N.eqb_spec x 0); case_decide; simpl; try done; lia.
Qed.

Lemma sum_with_plus {A} (f g : A → nat) l :
  sum_list_with (λ x, (f x + g x)%nat) l = (sum_list_with f l + sum_list_with g l)%nat.
Proof. induction l as [|x l IH]; simpl; lia. Qed.

Lemma sum_with_ext {A} (f g : A → nat) l :
  (∀ x, x ∈ l → f x = g x) → sum_list_with f l = sum_list_with g l.
Proof.
  induction l as [|x l IH]; intros Hfg; [done|]. simpl.
  rewrite Hfg by (by left). f_equal. apply IH. intros. apply Hfg. by right.
Qed.

Lemma sum_with_zero {A} (l : list A) : sum_list_with (λ _, 0%nat) l = 0%nat.
Proof. by induction l. Qed.

Lemma sum_with_indicator (k n : nat) :
  (k < n)%nat → sum_list_with (λ t, if decide (t = k) then 1%nat else 0%nat) (seq 0 n) = 1%nat.
Proof.
  revert k. induction n as [|n IH]; intros k Hk; [lia|].
  rewrite seq_S, sum_list_with_app. simpl.
  destruct (decide (n = k)) as [->|Hne].
  - rewrite (sum_with_ext _ (λ _, 0%nat)); [|intros i Hi%elem_of_seq; case_decide; [lia|done]].
    by rewrite sum_with_zero.
  - rewrite IH; lia.
Qed.

(** Entries of a list, sorted into classes: the sizes of the classes add up. *)
Lemma sum_by_class {A} n (f : nat → A → option N) (c : A → option nat) es :
  (∀ e t, e ∈ es → f t e = None ↔ c e ≠ Some t) →
  (∀ e k, e ∈ es → c e = Some k → (k < n)%nat) →
  sum_list_with (λ t, length (omap (f t) es)) (seq 0 n) = length (omap c es).
Proof.
  induction es as [|e es IH]; intros Hf Hc; [apply sum_with_zero|].
  rewrite (sum_with_ext _ (λ t, (length (option_list (f t e)) + length (omap (f t) es))%nat))
    by (intros t _; by rewrite omap_cons_app, length_app).
  rewrite omap_cons_app, length_app, sum_with_plus, IH
    by (intros; (apply Hf || eapply Hc); by (right || done)). f_equal.
  destruct (c e) as [k|] eqn:Hk; simpl.
  - rewrite (sum_with_ext _ (λ t, if decide (t = k) then 1%nat else 0%nat)).
    + apply sum_with_indicator. apply (Hc e); [by left|done].
    + intros t _. pose proof (Hf e t ltac:(by left)) as Hft. rewrite Hk in Hft.
      destruct (f t e) eqn:Hfe; simpl; case_decide; naive_solver.
  - rewrite (sum_with_ext _ (λ _, 0%nat)); [apply sum_with_zero|].
    intros t _. pose proof (Hf e t ltac:(by left)) as Hft. rewrite Hk in Hft.
    destruct (f t e); naive_solver.
Qed.

Lemma live_slots_total n (es : list (Location * N)) :
  Forall (λ e, e.2 ≠ 0 → (N.to_nat (loc_tier e.1) < n)%nat) es →
  sum_list_with (λ t, length (omap (live_slot (N.of_nat t)) es)) (seq 0 n)
  = live_count (snd <$> es).
Proof.
  rewrite Forall_forall. intros He.
  rewrite (sum_by_class n (λ t, live_slot (N.of_nat t))
    (λ e, if e.2 =? 0 then None else Some (N.to_nat (loc_tier e.1)))).
  - clear He. unfold live_count. induction es as [|[l rc] es IH]; [done|].
    rewrite omap_cons_app, length_app, IH, fmap_cons, filter_cons. simpl.
    destruct (N.eqb_spec rc 0); case_decide; done.
  - intros [l rc] t _. unfold live_slot. simpl. destruct (N.eqb_spec rc 0); simpl; [done|].
    destruct (N.eqb_spec (loc_tier l) (N.of_nat t)) as [->|]; simpl.
    + rewrite Nat2N.id. naive_solver.
    + split; [|done]. intros _ [= <-]. lia.
  - intros [l rc] k Hin. simpl. specialize (He _ Hin). simpl in He.
    destruct (N.eqb_spec rc 0); [done|]. intros [= <-]. auto.
Qed.

Lemma sum_by_index {A} (f : A → nat) (l : list A) :
  sum_list (f <$> l) = sum_list_with (λ t, default 0%nat (f <$> l !! t)) (seq 0 (length l)).
Proof.
  induction l as [|x l IH] using rev_ind; [done|].
  rewrite fmap_app, length_app, seq_app, !sum_list_with_app, IH. simpl.
  rewrite lookup_app_r, Nat.sub_diag by lia. simpl. f_equal.
  apply sum_with_ext. intros i Hi%elem_of_seq. by rewrite lookup_app_l by lia.
Qed.

(** The free ids are as many as the slots no live block occupies. *)
Lemma free_ids_count p :
  pool_inv p →
  length (free_ids_ p)
  = sum_list_with (λ t, (length (default [] (ts_free_slots <$> tiers_ p !! t))
                        + length (reserved_slots p (N.of_nat t)))%nat)
      (seq 0 (length (tiers_ p))).
Proof.
  intros I.
  assert (free_ids_ p ≡ₚ zero_ids 0 (refcount_ p)) as ->.
  { apply NoDup_Permutation; [apply (pi_free_nodup _ _ _ I)|apply zero_ids_nodup|].
    intros id. rewrite (pi_free _ _ _ I), zero_ids_elem. split.
    - intros Hid. exists (N.to_nat id). split; [lia|done].
    - intros (i & -> & Hi). by rewrite Nat2N.id. }
  pose proof (zero_ids_length 0 (refcount_ p)) as Hz.
  pose proof (live_slots_total (length (tiers_ p)) (zip (location_ p) (refcount_ p))) as Hl.
  rewrite snd_zip in Hl by (rewrite (pi_len _ _ _ I); lia).
  rewrite <-Hl in Hz; clear Hl.
  - rewrite (pi_len _ _ _ I), (pi_total _ _ _ _ I), sum_by_index in Hz.
    rewrite (sum_with_ext (λ t, default _ _) (λ t,
      (length (default [] (ts_free_slots <$> tiers_ p !! t))
       + length (reserved_slots p (N.of_nat t)) + length (live_slots p (N.of_nat t)))%nat)) in Hz.
    + rewrite sum_with_plus in Hz. unfold live_slots in Hz. lia.
    + intros t Ht%elem_of_seq. destruct (tiers_ p !! t) as [ts|] eqn:Hts; simpl.
      * pose proof (pi_slots _ I (N.of_nat t) ts) as Hp. rewrite Nat2N.id in Hp.
        apply Permutation_length in Hp; [|done]. rewrite !length_app, length_slot_range in Hp. lia.
      * apply lookup_ge_None in Hts. lia.
  - apply Forall_lookup. intros i [l rc] Hi Hne. simpl in *.
    apply lookup_zip_inv in Hi as [Hil Hir].
    destruct (pi_loc _ I (N.of_nat i) l rc) as [ts Hts].
    { unfold live. by rewrite Nat2N.id. }
    by apply lookup_lt_Some in Hts.
Qed.

(** The queue is no longer than the pool has slots. *)
Lemma jobs_count p : pool_inv p → (length (jobs_ p) ≤ length (free_ids_ p))%nat.
Proof.
  intros I. rewrite free_ids_count, sum_with_plus by done.
  assert (length (jobs_ p) = sum_list_with (λ t, length (reserved_slots p (N.of_nat t)))
    (seq 0 (length (tiers_ p)))) as ->; [|lia].
  unfold reserved_slots.
  set (c := λ j, (λ job, N.to_nat (job_dst_tier job)) <$> job_heap p !! j).
  rewrite (sum_by_class _ _ c).
  - assert (∀ l, (∀ j, j ∈ l → is_Some (job_heap p !! j)) → length l = length (omap c l)) as Hl.
    { induction l as [|j l IH]; intros Hj; [done|]. rewrite omap_cons_app, length_app, <-IH.
      - destruct (Hj j ltac:(by left)) as [job Hjob]. unfold c. by rewrite Hjob.
      - intros; apply Hj; by right. }
    apply Hl. intros j. apply (pi_jobs_dom _ _ _ _ _ I).
  - intros j t _. unfold c, job_slot. destruct (job_heap p !! j) as [job|]; simpl; [|done].
    destruct (N.eqb_spec (job_dst_tier job) (N.of_nat t)) as [->|]; simpl.
    + rewrite Nat2N.id. naive_solver.
    + split; [|done]. intros _ [= <-]. lia.
  - intros j k _. unfold c. destruct (job_heap p !! j) as [job|] eqn:Hjob; simpl; [|done].
    intros [= <-]. pose proof (jo_dst _ _ (pi_job _ I j job Hjob)) as Ha.
    unfold slot_addr in Ha. destruct (tiers_ p !! _) eqn:Ht; [|done]. by eapply lookup_lt_Some.
Qed.

Lemma jobs_bound p : pool_inv p → size_of (jobs_ p) < two32.
Proof.
  intros I. pose proof (jobs_count p I). pose proof (pi_ids _ _ _ I) as Hids.
  assert (length (free_ids_ p) ≤ length (location_ p))%nat.
  { rewrite <-(pi_len _ _ _ I). rewrite <-(length_fmap N.to_nat).
    rewrite <-(length_seq (length (refcount_ p)) 0). apply submseteq_length, NoDup_submseteq.
    - apply NoDup_fmap; [apply _|apply (pi_free_nodup _ _ _ I)].
    - intros i (id & -> & Hid)%list_elem_of_fmap.
      apply (pi_free _ _ _ I), lookup_lt_Some in Hid. apply elem_of_seq. lia. }
  unfold size_of, kInvalidBlock, two32 in *. lia.
Qed.

(** While the compute tier has a free slot there is an id to bind to it. *)
Lemma free_ids_available p :
  pool_inv p → (num_free p ≤ length (free_ids_ p))%nat.
Proof.
  intros I. rewrite free_ids_count by done. unfold num_free, tier_free.
  destruct (tiers_ p) as [|ts tiers] eqn:Ht; [by destruct (pi_tiers _ _ _ _ I)|].
  simpl. lia.
Qed.
End invariant.
Arguments pool_inv {_ _ _} _.

(** ** Moving the invariant from one state to the next *)

Section transitions.
Context {T : Type} `{TierLaws T}.
Implicit Types p : BlockPool T.

(** Only the free lists of the tiers differ. *)
Definition same_tier (x y : TierState) : Prop :=
  ts_tier x = ts_tier y ∧ ts_num_blocks x = ts_num_blocks y.
Definition same_shape : list TierState → list TierState → Prop := Forall2 same_tier.

#[export] Instance same_tier_equiv : Equivalence same_tier.
Proof. unfold same_tier. split; repeat intro; intuition congruence. Qed.

(** Only the bytes of the tier objects differ. *)
Definition same_obj (x y : T) : Prop :=
  (tier_ok x → tier_ok y) ∧ capacity_bytes x = capacity_bytes y ∧
  (is_Some (host_data x) ↔ is_Some (host_data y)).
Definition same_objs (a b : gmap TierPtr T) : Prop := ∀ k, option_Forall2 same_obj (a !! k) (b !! k).

#[export] Instance same_objs_preorder : PreOrder same_objs.
Proof.
  split.
  - intros a k. destruct (a !! k); constructor. done.
  - intros a b c Hab Hbc k. specialize (Hab k). specialize (Hbc k).
    destruct Hab as [x y Hxy|]; inversion Hbc as [? z Hyz|]; subst; constructor.
    unfold same_obj in *. split_and!; [tauto|etrans; apply Hxy || apply Hyz|tauto].
Qed.

Lemma same_shape_set (tiers : list TierState) i ts fs :
  tiers !! i = Some ts → same_shape tiers (<[i := set_free_slots fs ts]> tiers).
Proof.
  intros Hi. rewrite <-(list_insert_id tiers i ts) at 1 by done.
  apply Forall2_insert; [|done]. by apply Forall_Forall2_diag, Forall_true.
Qed.

Lemma same_shape_lookup a b i y :
  same_shape a b → b !! i = Some y → ∃ x, a !! i = Some x ∧ same_tier x y.
Proof. intros Hs Hy. destruct (Forall2_lookup_r _ _ _ _ _ Hs Hy) as (x & Hx & Hxy). eauto. Qed.

Lemma same_shape_fmap {A} (f : TierState → A) a b :
  (∀ x y, same_tier x y → f x = f y) → same_shape a b → f <$> a = f <$> b.
Proof. intros Hf. induction 1 as [|x y a b Hxy _ IH]; [done|]. rewrite !fmap_cons. by rewrite IH, (Hf x y). Qed.

Lemma frame_inv_shape cfg tiers tiers' objs objs' n :
  same_shape tiers tiers' → same_objs objs objs' →
  frame_inv cfg tiers objs n → frame_inv cfg tiers' objs' n.
Proof.
  intros Hs Ho [H1 H2 H3 H4]. constructor.
  - intros ->. apply H1. by apply Forall2_nil_inv_r in Hs.
  - rewrite H2. f_equal. apply same_shape_fmap; [|done]. intros x y [_ Hxy]. by rewrite Hxy.
  - intros t ts Ht. destruct (same_shape_lookup _ _ _ _ Hs Ht) as (ts0 & Hts0 & <- & <-).
    destruct (H3 t ts0 Hts0) as (obj & Hobj & Hok & Hcap).
    specialize (Ho (ts_tier ts0)). rewrite Hobj in Ho.
    inversion Ho as [? obj' (Hok' & Hcap' & _) E1 E2|]. exists obj'. split; [done|].
    split; [auto|]. by rewrite <-Hcap'.
  - rewrite <-(same_shape_fmap ts_tier tiers tiers'); [done| |done]. by intros x y [Hxy _].
Qed.

(** What stays of a job when only free lists, bytes and other blocks change. *)
Lemma job_ok_transfer p p' job :
  cfg_ p' = cfg_ p → same_shape (tiers_ p) (tiers_ p') → same_objs (arenas p) (arenas p') →
  (job_cancelled job = false → ∀ l rc, live p (job_id job) l rc →
     ∃ rc', live p' (job_id job) l rc') →
  job_ok p job → job_ok p' job.
Proof.
  intros Hc Hs Ho Hl [J1 J2 J3 J4 J5].
  assert (∀ t s, slot_addr p' t s = slot_addr p t s) as Haddr.
  { intros t s. unfold slot_addr. rewrite Hc, <-!list_lookup_fmap.
    f_equal. symmetry. apply same_shape_fmap; [|done]. intros x y [Hxy _]. by rewrite Hxy. }
  assert (∀ e, copy_end_ok p e → copy_end_ok p' e) as Hend.
  { intros e (t & Ht & Hok & Hh & Hcap). specialize (Ho e.1). rewrite Ht in Ho.
    inversion Ho as [? t' (Hok' & Hcap' & Hh') E1 E2|]. exists t'.
    split; [done|]. rewrite Hc, <-Hcap'. tauto. }
  constructor; [by rewrite Haddr|by rewrite Hc|auto..|].
  intros Hcan. destruct (J5 Hcan) as (l & rc & Hlive & Ht & Ha).
  destruct (Hl Hcan l rc Hlive) as [rc' Hlive']. exists l, rc'. by rewrite Haddr.
Qed.

Lemma pool_inv_step p p' :
  pool_inv p → cfg_ p' = cfg_ p → same_shape (tiers_ p) (tiers_ p') →
  same_objs (arenas p) (arenas p') → length (location_ p') = length (location_ p) →
  ids_inv (location_ p') (refcount_ p') (free_ids_ p') →
  queue_inv (jobs_ p') (migrating_ p') (job_heap p') (job_next p') (next_unclaimed_ p') →
  (∀ t ts ts', tiers_ p !! N.to_nat t = Some ts → tiers_ p' !! N.to_nat t = Some ts' →
     ts_free_slots ts' ++ live_slots p' t ++ reserved_slots p' t
     ≡ₚ ts_free_slots ts ++ live_slots p t ++ reserved_slots p t) →
  (∀ id l rc, live p' id l rc → is_Some (tiers_ p !! N.to_nat (loc_tier l))) →
  (∀ j job, job_heap p' !! j = Some job → job_ok p' job) →
  pool_inv p'.
Proof.
  intros I Hc Hs Ho Hlen Hi Hq Hsl Hloc Hj. constructor; [done..| | | |done].
  - rewrite Hlen, Hc. eapply frame_inv_shape; [done..|apply I].
  - intros t ts' Hts'. destruct (same_shape_lookup _ _ _ _ Hs Hts') as (ts & Hts & _ & <-).
    rewrite (Hsl t ts ts' Hts Hts'). by apply (pi_slots _ I).
  - intros id l rc Hlive. destruct (Hloc id l rc Hlive) as [ts Hts].
    eapply Forall2_lookup_l in Hs as (ts' & Hts' & _); [|done]. eauto.
Qed.

(** ** Updates of the id tables *)

Lemma ids_inv_alloc locs rcs ids id l :
  ids_inv locs rcs (ids ++ [id]) →
  ids_inv (<[N.to_nat id := l]> locs) (<[N.to_nat id := 1]> rcs) ids.
Proof.
  intros [H1 H2 H3 H4 H5]. constructor.
  - by rewrite !length_insert.
  - unfold size_of. by rewrite length_insert.
  - by apply Forall_insert.
  - by apply NoDup_app in H4 as (? & _ & _).
  - assert (rcs !! N.to_nat id = Some 0) as Hid by (apply H5; set_solver).
    intros id'. destruct (decide (id' = id)) as [->|Hne].
    + rewrite list_lookup_insert_eq by (by eapply lookup_lt_Some).
      apply NoDup_app in H4 as (_ & H4 & _). split; [|done]. intros Hin%H4. set_solver.
    + rewrite list_lookup_insert_ne by lia. rewrite <-H5. set_solver.
Qed.

Lemma ids_inv_set locs rcs ids id l rc rc' :
  ids_inv locs rcs ids → rcs !! N.to_nat id = Some rc → rc ≠ 0 → rc' ≠ 0 → rc' < two32 →
  ids_inv (<[N.to_nat id := l]> locs) (<[N.to_nat id := rc']> rcs) ids.
Proof.
  intros [H1 H2 H3 H4 H5] Hid Hne Hne' Hlt. constructor; [| | |done|].
  - by rewrite !length_insert.
  - unfold size_of. by rewrite length_insert.
  - by apply Forall_insert.
  - intros id'. rewrite H5. destruct (decide (id' = id)) as [->|].
    + rewrite list_lookup_insert_eq by (by eapply lookup_lt_Some). naive_solver.
    + by rewrite list_lookup_insert_ne by lia.
Qed.

Lemma ids_inv_free locs rcs ids id rc :
  ids_inv locs rcs ids → rcs !! N.to_nat id = Some rc → rc ≠ 0 →
  ids_inv locs (<[N.to_nat id := 0]> rcs) (ids ++ [id]).
Proof.
  intros [H1 H2 H3 H4 H5] Hid Hne. constructor; [|done| | |].
  - by rewrite length_insert.
  - by apply Forall_insert.
  - apply NoDup_app. split_and!; [done| |apply NoDup_singleton].
    intros id' Hin Hid'%list_elem_of_singleton. subst. apply H5 in Hin. congruence.
  - intros id'. rewrite elem_of_app, list_elem_of_singleton, H5.
    destruct (decide (id' = id)) as [->|].
    + rewrite list_lookup_insert_eq by (by eapply lookup_lt_Some). naive_solver.
    + rewrite list_lookup_insert_ne by lia. naive_solver.
Qed.
End transitions.
