(* ===== verification/PoolOps.v ===== *)
(** * The pool's operations preserve its invariant

    One theorem per operation of [BlockPool]: from a state that satisfies
    [pool_inv] it runs to completion, re-establishes [pool_inv], and changes the
    view of exactly the blocks it names; and, for the checked operations, which
    abort they end in when the block is not live. *)

From S2P Require Import Prelude Types Tier BlockPool PoolInv.

Open Scope N_scope.

Section ops.
Context {T : Type} `{TierLaws T}.
Implicit Types p : BlockPool T.

(** ** Running the primitives *)

Lemma at_run {A} what (l : list A) i x p :
  l !! N.to_nat i = Some x → at_ what l i p = Ok (x, p).
Proof. intros Hi. unfold at_. by rewrite Hi. Qed.

Lemma wp_at {A} what (l : list A) i x (Q : A → BlockPool T → Prop) p :
  l !! N.to_nat i = Some x → Q x p → wp (at_ what l i) Q p.
Proof. intros Hi HQ. unfold wp. by rewrite (at_run _ _ _ x). Qed.

Lemma wp_tier_at t ts (Q : TierState → BlockPool T → Prop) p :
  tiers_ p !! N.to_nat t = Some ts → Q ts p → wp (tier_at t) Q p.
Proof. intros. unfold tier_at. wp_steps. by eapply wp_at. Qed.
Lemma wp_refcount_at id rc (Q : N → BlockPool T → Prop) p :
  refcount_ p !! N.to_nat id = Some rc → Q rc p → wp (refcount_at id) Q p.
Proof. intros. unfold refcount_at. wp_steps. by eapply wp_at. Qed.
Lemma wp_location_at id l (Q : Location → BlockPool T → Prop) p :
  location_ p !! N.to_nat id = Some l → Q l p → wp (location_at id) Q p.
Proof. intros. unfold location_at. wp_steps. by eapply wp_at. Qed.
Lemma wp_job_at j job (Q : MigrationJob → BlockPool T → Prop) p :
  job_heap p !! j = Some job → Q job p → wp (job_at j) Q p.
Proof. intros. unfold job_at. wp_steps. by eapply wp_of_option. Qed.
Lemma wp_tier_obj ptr t (Q : T → BlockPool T → Prop) p :
  arenas p !! ptr = Some t → Q t p → wp (tier_obj ptr) Q p.
Proof. intros. unfold tier_obj. wp_steps. by eapply wp_of_option. Qed.

Lemma wp_free_slot_push t slot ts (Q : () → BlockPool T → Prop) p :
  tiers_ p !! N.to_nat t = Some ts →
  Q () (upd_tiers (<[N.to_nat t := set_free_slots (ts_free_slots ts ++ [slot]) ts]> (tiers_ p)) p) →
  wp (free_slot_push t slot) Q p.
Proof.
  intros Ht HQ. unfold free_slot_push, tier_at. wp_steps.
  eapply wp_at; [done|]. by unfold set_tier; wp_steps.
Qed.

Lemma wp_free_slot_pop t slot ts (Q : N → BlockPool T → Prop) p :
  tiers_ p !! N.to_nat t = Some ts → back (ts_free_slots ts) = Some slot →
  Q slot (upd_tiers (<[N.to_nat t := set_free_slots (pop_back (ts_free_slots ts)) ts]> (tiers_ p)) p) →
  wp (free_slot_pop t) Q p.
Proof.
  intros Ht Hb HQ. unfold free_slot_pop, tier_at. wp_steps.
  eapply wp_at; [done|]. wp_steps. eapply wp_of_option; [done|].
  by unfold set_tier; wp_steps.
Qed.

Lemma back_Some {A} (l : list A) : l ≠ [] → ∃ x, back l = Some x ∧ l = pop_back l ++ [x].
Proof.
  intros Hl. destruct (back l) as [x|] eqn:Hb.
  - exists x. split; [done|]. by apply last_Some_split.
  - by apply last_None in Hb.
Qed.

Lemma eq_reflexivity_perm {A} (l k : list A) : l = k → l ≡ₚ k.
Proof. by intros ->. Qed.

(** ** Changing one entry *)

(** [p'] binds block [id] to location [l] with [rc] references. *)
Definition rebound p p' (id : BlockId) (l : Location) (rc : N) : Prop :=
  location_ p' = <[N.to_nat id := l]> (location_ p) ∧
  refcount_ p' = <[N.to_nat id := rc]> (refcount_ p).

Lemma live_rebound p p' id l rc id' l' rc' :
  pool_inv p → rebound p p' id l rc → id < size_of (location_ p) →
  live p' id' l' rc' ↔
  if decide (id' = id) then l' = l ∧ rc' = rc ∧ rc ≠ 0 else live p id' l' rc'.
Proof.
  intros I [Hl Hr] Hid. unfold live. rewrite Hl, Hr. unfold size_of in Hid.
  case_decide as He.
  - subst id'. rewrite !list_lookup_insert_eq by (rewrite ?(pi_len _ _ _ I); lia). naive_solver.
  - by rewrite !list_lookup_insert_ne by lia.
Qed.

Lemma live_slots_rebound p p' id l0 rc0 l rc t :
  rebound p p' id l rc → location_ p !! N.to_nat id = Some l0 →
  refcount_ p !! N.to_nat id = Some rc0 →
  option_list (live_slot t (l0, rc0)) ++ live_slots p' t
  ≡ₚ option_list (live_slot t (l, rc)) ++ live_slots p t.
Proof.
  intros [Hl Hr] Hl0 Hr0. unfold live_slots. rewrite Hl, Hr, zip_insert.
  apply omap_insert_perm. by apply lookup_zip.
Qed.

Lemma free_ids_lt p id : pool_inv p → id ∈ free_ids_ p → id < size_of (location_ p).
Proof.
  intros I Hid. apply (pi_free _ _ _ I) in Hid. apply lookup_lt_Some in Hid.
  rewrite (pi_len _ _ _ I) in Hid. unfold size_of. lia.
Qed.

(** ** allocate *)

(** The state [allocate] leaves when it binds [id] to [slot]. *)
Definition allocated p (ts : TierState) (id slot : N) : BlockPool T :=
  upd_refcount (<[N.to_nat id := 1]> (refcount_ p))
    (upd_location (<[N.to_nat id := {| loc_tier := 0; loc_slot := slot |}]> (location_ p))
      (upd_tiers (<[0%nat := set_free_slots (pop_back (ts_free_slots ts)) ts]> (tiers_ p))
        (upd_free_ids (pop_back (free_ids_ p)) p))).

Lemma compute_tier p : pool_inv p → ∃ ts, tiers_ p !! N.to_nat 0 = Some ts.
Proof. intros I. destruct (tiers_ p) eqn:Ht; [by destruct (pi_tiers _ _ _ _ I)|]. simpl. eauto. Qed.

Lemma wp_allocate (Q : BlockId → BlockPool T → Prop) p :
  pool_inv p →
  (num_free p = 0%nat → Q kInvalidBlock p) →
  (∀ id slot ts, tiers_ p !! N.to_nat 0 = Some ts →
     free_ids_ p = pop_back (free_ids_ p) ++ [id] →
     ts_free_slots ts = pop_back (ts_free_slots ts) ++ [slot] → Q id (allocated p ts id slot)) →
  wp allocate Q p.
Proof.
  intros I HQ0 HQ. pose proof (free_ids_available p I) as Havail.
  destruct (compute_tier p I) as [ts Ht].
  unfold num_free, tier_free in *. rewrite Ht in *.
  unfold allocate. wp_steps. case_bool_decide as Hfi.
  { apply wp_ret, HQ0. rewrite Hfi in Havail. simpl in Havail. lia. }
  wp_steps. eapply wp_tier_at; [done|]. case_bool_decide as Hfs.
  { apply wp_ret, HQ0. by rewrite Hfs. }
  destruct (back_Some _ Hfs) as (slot & Hslot & Hs).
  destruct (back_Some _ Hfi) as (id & Hid & Hi).
  assert (id ∈ free_ids_ p) as Hin by (rewrite Hi; set_solver).
  pose proof (proj1 (pi_free _ _ _ I id) Hin) as Hrc.
  destruct (loc_lookup p I id 0 Hrc) as [l Hl].
  wp_steps. eapply wp_of_option; [done|]. wp_steps.
  eapply wp_refcount_at; [done|]. wp_steps. apply wp_assert; [done|]. wp_steps.
  eapply wp_location_at; [done|]. wp_steps. eapply wp_free_slot_pop; [done..|].
  unfold set_location, set_refcount. wp_steps. by apply HQ.
Qed.

Lemma free_not_live p id : pool_inv p → id ∈ free_ids_ p → ∀ l rc, ¬ live p id l rc.
Proof. intros I Hid l rc (_ & Hrc & Hne). apply (pi_free _ _ _ I) in Hid. congruence. Qed.

Lemma option_list_live_slot t l rc :
  option_list (live_slot t (l, rc))
  = if (rc =? 0) || negb (loc_tier l =? t) then [] else [loc_slot l].
Proof. unfold live_slot. simpl. by destruct ((rc =? 0) || negb (loc_tier l =? t)). Qed.

Lemma lookup_set_tier (tiers : list TierState) t i ts ts' x :
  tiers !! N.to_nat t = Some ts → <[N.to_nat t := ts']> tiers !! N.to_nat i = Some x →
  if decide (i = t) then x = ts' else tiers !! N.to_nat i = Some x.
Proof.
  intros Ht Hx. case_decide as Hi.
  - subst i. rewrite list_lookup_insert_eq in Hx by (by eapply lookup_lt_Some). congruence.
  - by rewrite list_lookup_insert_ne in Hx by lia.
Qed.

Lemma allocated_inv p ts id slot :
  pool_inv p → tiers_ p !! N.to_nat 0 = Some ts →
  free_ids_ p = pop_back (free_ids_ p) ++ [id] →
  ts_free_slots ts = pop_back (ts_free_slots ts) ++ [slot] →
  pool_inv (allocated p ts id slot).
Proof.
  intros I Ht Hi Hs. set (p' := allocated p ts id slot).
  assert (id ∈ free_ids_ p) as Hin by (rewrite Hi; set_solver).
  pose proof (proj1 (pi_free _ _ _ I id) Hin) as Hrc.
  pose proof (free_ids_lt p id I Hin) as Hlt.
  destruct (loc_lookup p I id 0 Hrc) as [l0 Hl0].
  assert (rebound p p' id {| loc_tier := 0; loc_slot := slot |} 1) as Hreb by done.
  assert (∀ id' l rc, live p' id' l rc ↔ _) as Hlive
    by (intros; apply (live_rebound p p' id _ _ _ _ _ I Hreb Hlt)).
  apply (pool_inv_step p p'); try done.
  - by apply same_shape_set.
  - simpl. by rewrite length_insert.
  - simpl. apply ids_inv_alloc. rewrite <-Hi. apply I.
  - apply I.
  - intros t ts1 ts2 Ht1 Ht2.
    pose proof (live_slots_rebound p p' id l0 0 _ 1 t Hreb Hl0 Hrc) as Hp.
    rewrite !option_list_live_slot in Hp. cbn [loc_tier loc_slot] in Hp.
    change (reserved_slots p' t) with (reserved_slots p t).
    pose proof (lookup_set_tier _ 0 t _ _ _ Ht Ht2) as Ht2'. case_decide.
    + subst t. simplify_eq. simpl in *.
      pose proof (eq_reflexivity_perm _ _ Hs). perm_lia.
    + destruct (N.eqb_spec 0 t); [done|]. simpl in Hp. simplify_eq. perm_lia.
  - intros id' l rc Hl%Hlive. case_decide.
    + destruct Hl as (-> & _). simpl. eauto.
    + by apply (pi_loc _ I) in Hl.
  - intros j job Hjob. apply (job_ok_transfer p); try done.
    + by apply same_shape_set.
    + intros Hcan l rc Hl. exists rc. apply Hlive. case_decide; [|done].
      exfalso. subst. eapply free_not_live; eauto.
    + by apply (pi_job _ I j).
Qed.

(** ** Views *)

Definition view_upd p p' (id : BlockId) (v : option BlockView) : Prop :=
  ∀ id', view p' id' = if decide (id' = id) then v else view p id'.

(** Geometry and bytes are as they were. *)
Definition same_bytes p p' : Prop := cfg_ p' = cfg_ p ∧ arenas p' = arenas p.

(** Job [j] is behind the cursor: some worker has taken it. *)
Definition claimed p (j : JobPtr) : Prop :=
  ∃ i, jobs_ p !! i = Some j ∧ N.of_nat i < next_unclaimed_ p.

Definition bytes_at (objs : gmap TierPtr T) (r : TierPtr * N) (n : N) : list byte :=
  match objs !! r.1 with
  | Some t => slice (N.to_nat r.2) (N.to_nat n) (contents t)
  | None => []
  end.

(** A worker has claimed job [j] and not finished it. *)
Definition in_hand p (j : JobPtr) (job : MigrationJob) : Prop :=
  claimed p j ∧ job_heap p !! j = Some job ∧ job_done job = false.

(** No copy is under way: what was claimed is finished. *)
Definition settled p : Prop := ∀ j job, ¬ in_hand p j job.

(** What a worker that holds [job] may rely on while others run: the job at
    most gets cancelled, nobody writes to its destination, and as long as it is
    not cancelled nobody writes to its source. *)
Record job_kept p p' (job job' : MigrationJob) : Prop := {
  jk_job : job' = job ∨ job' = set_cancelled job;
  jk_dst : bytes_at (arenas p') (job_dst job) (block_bytes (cfg_ p))
         = bytes_at (arenas p) (job_dst job) (block_bytes (cfg_ p));
  jk_src : job_cancelled job' = false →
    bytes_at (arenas p') (job_src job) (block_bytes (cfg_ p))
    = bytes_at (arenas p) (job_src job) (block_bytes (cfg_ p));
}.

(** Whenever a job is queued, a worker thread has been started. *)
Definition staffed p : Prop := jobs_ p ≠ [] → workers_ p ≠ 0.

(** The workers are left alone, but for the one that holds [own]: what they
    have claimed stays theirs, no job is claimed on the side, and no thread
    goes away. *)
Record hands_kept (own : option JobPtr) p p' : Prop := {
  qk_stop : stopping_ p' = stopping_ p;
  qk_cfg : cfg_ p' = cfg_ p;
  qk_hands : hands_ p' = hands_ p;
  qk_workers : workers_ p <= workers_ p';
  qk_staffed : staffed p → staffed p';
  qk_back j job' : own ≠ Some j → in_hand p' j job' → ∃ job, in_hand p j job;
  qk_hand j job : own ≠ Some j → in_hand p j job → ∃ job', in_hand p' j job' ∧ job_kept p p' job job';
}.
Abbreviation queue_kept := (hands_kept None).

Lemma job_kept_trans p q r a b c :
  cfg_ q = cfg_ p → job_kept p q a b → job_kept q r b c → job_kept p r a c.
Proof.
  intros E [A1 A2 A3] [B1 B2 B3]. rewrite E in B2, B3.
  assert (job_dst b = job_dst a ∧ job_src b = job_src a) as [Ed Es] by (by destruct A1 as [->| ->]).
  rewrite Ed in B2. rewrite Es in B3. constructor.
  - destruct A1 as [->| ->], B1 as [->| ->]; eauto.
  - congruence.
  - intros Hc. rewrite B3 by done. apply A3. destruct B1 as [->| ->]; [done|discriminate].
Qed.

(** Nothing that is in hand changes, and no byte. *)
Lemma hands_kept_same own p p' :
  cfg_ p' = cfg_ p → stopping_ p' = stopping_ p → hands_ p' = hands_ p → arenas p' = arenas p →
  workers_ p' = workers_ p → (jobs_ p' ≠ [] → jobs_ p ≠ []) →
  (∀ j job, own ≠ Some j → in_hand p' j job ↔ in_hand p j job) → hands_kept own p p'.
Proof.
  intros E1 E2 Eh E3 Ew Ej Hh. constructor; [done..|lia|unfold staffed; rewrite Ew; auto|intros j job' Hne Hj; exists job'; by apply Hh|].
  intros j job Hne Hj. exists job. split; [by apply Hh|]. constructor; [by left|by rewrite E3..].
Qed.

(** The workers' part of the state is as it was. *)
Lemma queue_kept_same p p' :
  cfg_ p' = cfg_ p → jobs_ p' = jobs_ p → job_heap p' = job_heap p → next_unclaimed_ p' = next_unclaimed_ p →
  stopping_ p' = stopping_ p → hands_ p' = hands_ p → arenas p' = arenas p → workers_ p' = workers_ p →
  queue_kept p p'.
Proof.
  intros E1 E2 E3 E4 E5 Eh E6 Ew. apply hands_kept_same; [done..|by rewrite E2|].
  intros j job _. unfold in_hand, claimed. by rewrite E2, E3, E4.
Qed.

#[export] Instance hands_kept_preorder own : PreOrder (hands_kept own).
Proof.
  split; [intros p; by apply hands_kept_same|].
  intros p q r [A1 A2 Ah Aw As A3 A4] [B1 B2 Bh Bw Bs B3 B4]. constructor; [congruence..|lia|auto|intros j ? Hne (? & ?)%B3; [by eapply A3|done]|].
  intros j a Hne Ha. destruct (A4 j a Hne Ha) as (b & Hb & K1). destruct (B4 j b Hne Hb) as (c & Hc & K2).
  exists c. split; [done|]. by eapply job_kept_trans.
Qed.

Lemma queue_kept_settled p p' : queue_kept p p' → settled p → settled p'.
Proof. intros [_ _ _ _ _ B _] S j job (job0 & Hj)%B; [|done]. by apply (S j job0). Qed.

#[local] Hint Extern 0 (hands_kept None _ _) => (apply queue_kept_same; reflexivity) : core.

(** Bookkeeping that moves no block: geometry, bytes and the places of the
    live blocks stay, and no copy becomes finished. *)
Record quiet p p' : Prop := {
  q_bytes : same_bytes p p';
  q_shape : same_shape (tiers_ p) (tiers_ p');
  q_loc id : is_Some (view p id) → location_ p' !! N.to_nat id = location_ p !! N.to_nat id;
  q_jobs j job : job_heap p' !! j = Some job → job_done job = true → job_cancelled job = false →
    job_heap p !! j = Some job;
  q_queue : queue_kept p p';
}.

(** Free slots gained ([d = 1]) or lost ([d = -1]) by tier [t] alone. *)
Definition free_upd p p' (t : TierIndex) (d : Z) : Prop :=
  ∀ i, Z.of_nat (tier_free p' i) = (Z.of_nat (tier_free p i) + if decide (i = t) then d else 0)%Z.

Lemma view_rebound p p' id l rc tg :
  pool_inv p → rebound p p' id l rc → id < size_of (location_ p) →
  (∀ id', target p' id' = if decide (id' = id) then tg else target p id') →
  view_upd p p' id (if rc =? 0 then None
                    else Some {| bv_refs := rc; bv_tier := loc_tier l; bv_target := tg |}).
Proof.
  intros I [Hl Hr] Hid Ht id'. unfold view. rewrite Hl, Hr, Ht. unfold size_of in Hid.
  case_decide as He.
  - subst id'. by rewrite !list_lookup_insert_eq by (rewrite ?(pi_len _ _ _ I); lia).
  - by rewrite !list_lookup_insert_ne by lia.
Qed.

Lemma target_live p id d :
  pool_inv p → target p id = Some d → ∃ l rc, live p id l rc ∧ loc_tier l ≠ d.
Proof.
  intros I Ht. unfold target in Ht. destruct (migrating_ p !! id) as [j|] eqn:Hj; [|done].
  apply (pi_mig _ _ _ _ _ I) in Hj as (job & Hjob & <- & Hcan). simpl in Ht.
  rewrite Hjob in Ht. simpl in Ht. simplify_eq.
  destruct (jo_live _ _ (pi_job _ I j job Hjob) Hcan) as (l & rc & ? & ? & _). eauto.
Qed.

Lemma migrating_live p id j : pool_inv p → migrating_ p !! id = Some j → ∃ l rc, live p id l rc.
Proof.
  intros I Hj. apply (pi_mig _ _ _ _ _ I) in Hj as (job & Hjob & <- & Hcan).
  destruct (jo_live _ _ (pi_job _ I j job Hjob) Hcan) as (l & rc & ? & _). eauto.
Qed.

Lemma tier_free_set p p' t ts fs :
  tiers_ p !! N.to_nat t = Some ts →
  tiers_ p' = <[N.to_nat t := set_free_slots fs ts]> (tiers_ p) →
  free_upd p p' t (Z.of_nat (length fs) - Z.of_nat (length (ts_free_slots ts)))%Z.
Proof.
  intros Ht Ht' i. unfold tier_free. rewrite Ht'. case_decide as Hi.
  - subst i. rewrite list_lookup_insert_eq by (by eapply lookup_lt_Some). rewrite Ht. simpl. lia.
  - rewrite list_lookup_insert_ne by lia. lia.
Qed.

Lemma length_pop_back {A} (l : list A) x : l = pop_back l ++ [x] → length l = S (length (pop_back l)).
Proof. intros Hl. rewrite Hl at 1. rewrite length_app. simpl. lia. Qed.

(** [allocate] hands out a block that nobody holds, resident in the compute
    tier with one reference, exactly when that tier has a free slot;
    otherwise it returns [kInvalidBlock] and changes nothing. *)
Lemma allocate_spec p :
  pool_inv p →
  wp allocate (λ id p', pool_inv p' ∧ quiet p p' ∧
    if decide (num_free p = 0%nat) then id = kInvalidBlock ∧ p' = p
    else id ≠ kInvalidBlock ∧ view p id = None ∧ free_upd p p' 0 (-1) ∧
         view_upd p p' id (Some {| bv_refs := 1; bv_tier := 0; bv_target := None |})) p.
Proof.
  intros I. apply wp_allocate; [done|..].
  - intros H0'. rewrite decide_True by done. done.
  - intros id slot ts Ht Hi Hs.
    assert (id ∈ free_ids_ p) as Hin by (rewrite Hi; set_solver).
    pose proof (free_ids_lt p id I Hin) as Hlt.
    pose proof (length_pop_back _ _ Hs) as Hlen.
    assert (num_free p ≠ 0%nat) as Hnf.
    { unfold num_free, tier_free. rewrite Ht. lia. }
    rewrite decide_False by done. split_and!.
    + by apply allocated_inv.
    + constructor; try done; [by apply same_shape_set|]. intros id' Hv'. simpl.
      rewrite list_lookup_insert_ne; [done|]. intros ->%N2Nat.inj.
      destruct Hv' as [v (l & Hl & _)%view_live]. eapply free_not_live; eauto.
    + intros ->. pose proof (pi_ids _ _ _ I). lia.
    + destruct (view p id) as [v|] eqn:Hv; [|done].
      apply view_live in Hv as (l & Hl & _). exfalso. eapply free_not_live; eauto.
    + intros i. rewrite (tier_free_set p (allocated p ts id slot) 0 ts (pop_back (ts_free_slots ts)));
        [|done..]. case_decide; lia.
    + apply (view_rebound p (allocated p ts id slot) id {| loc_tier := 0; loc_slot := slot |} 1 None);
        try done. intros id'. case_decide; [|done]. subst id'.
      change (target (allocated p ts id slot) id) with (target p id).
      destruct (target p id) as [d|] eqn:Hd; [|done].
      apply target_live in Hd as (l & rc & Hl & _); [|done].
      exfalso. eapply free_not_live; eauto.
Qed.

(** ** incref *)

Lemma in_range p id l rc : live p id l rc → (size_of (location_ p) <=? id) = false.
Proof. intros Hl%live_lt. by apply N.leb_gt. Qed.

Lemma set_refs_inv p id l rc rc' :
  pool_inv p → live p id l rc → rc' ≠ 0 → rc' < two32 →
  pool_inv (upd_refcount (<[N.to_nat id := rc']> (refcount_ p)) p).
Proof.
  intros I Hlive Hne Hlt. pose proof Hlive as (Hl & Hr & Hne0).
  set (p' := upd_refcount _ _).
  assert (rebound p p' id l rc') as Hreb by (split; [simpl; by rewrite list_insert_id|done]).
  pose proof (live_lt p id l rc Hlive) as Hid.
  assert (∀ id' l rc, live p' id' l rc ↔ _) as Hlive'
    by (intros; apply (live_rebound p p' id _ _ _ _ _ I Hreb Hid)).
  apply (pool_inv_step p p'); try done; simpl.
  - rewrite <-(list_insert_id (location_ p) (N.to_nat id) l) by done.
    eapply ids_inv_set; try done. apply I.
  - apply I.
  - intros t ts ts' Hts Hts'.
    pose proof (live_slots_rebound p p' id l rc _ rc' t Hreb Hl Hr) as Hp.
    rewrite !option_list_live_slot in Hp.
    apply N.eqb_neq in Hne, Hne0. rewrite Hne, Hne0 in Hp. simplify_eq.
    change (reserved_slots p' t) with (reserved_slots p t). perm_lia.
  - intros id' l' rc1 Hl'%Hlive'. case_decide; [|by apply (pi_loc _ I) in Hl'].
    destruct Hl' as (-> & _). by apply (pi_loc _ I) in Hlive.
  - intros j job Hjob. apply (job_ok_transfer p); try done.
    + intros _ l1 rc1 Hl1. destruct (decide (job_id job = id)) as [E|E].
      * exists rc'. apply Hlive'. rewrite decide_True by done. split_and!; try done.
        destruct Hl1 as (Hl1 & _). rewrite E in Hl1. congruence.
      * exists rc1. apply Hlive'. by rewrite decide_False.
    + by apply (pi_job _ I j).
Qed.

Lemma incref_spec p id v :
  pool_inv p → view p id = Some v → bv_refs v + 1 < two32 →
  wp (incref id) (λ _ p', pool_inv p' ∧ quiet p p' ∧ (∀ t, tier_free p' t = tier_free p t) ∧
    view_upd p p' id (Some {| bv_refs := bv_refs v + 1; bv_tier := bv_tier v;
                              bv_target := bv_target v |})) p.
Proof.
  intros I Hv Hlt. apply view_live in Hv as (l & Hlive & Ht & Htg).
  pose proof Hlive as (Hl & Hr & Hne).
  unfold incref. wp_steps. rewrite (in_range p id l _ Hlive). wp_steps.
  eapply wp_refcount_at; [done|]. apply N.eqb_neq in Hne as Hne'. rewrite Hne'.
  unfold set_refcount. wp_steps.
  assert (u32 (bv_refs v + 1) = bv_refs v + 1) as -> by (by apply N.mod_small).
  split_and!; [eapply set_refs_inv; try done; lia|by constructor|done|].
  assert ((bv_refs v + 1 =? 0) = false) as E by (apply N.eqb_neq; lia).
  pose proof (view_rebound p (upd_refcount (<[N.to_nat id := bv_refs v + 1]> (refcount_ p)) p)
    id l (bv_refs v + 1) (bv_target v) I) as Hup. rewrite E in Hup. rewrite Ht.
  apply Hup; [split; [simpl; by rewrite list_insert_id|done]|by eapply live_lt|].
  intros id'. case_decide; [|done]. subst. by rewrite Htg.
Qed.

(** ** cancel_migration *)

Definition cancelled p (id : BlockId) : BlockPool T :=
  match migrating_ p !! id with
  | None => p
  | Some j =>
      match job_heap p !! j with
      | None => p
      | Some job => upd_queue (jobs_ p) (delete id (migrating_ p))
                      (<[j := set_cancelled job]> (job_heap p)) p
      end
  end.

(** Rewriting a job in place keeps the reservations when its destination
    stays. *)
Lemma reserved_slots_insert p p' j job job' t :
  jobs_ p' = jobs_ p → job_heap p' = <[j := job']> (job_heap p) → job_heap p !! j = Some job →
  job_slot t job' = job_slot t job → reserved_slots p' t = reserved_slots p t.
Proof.
  intros Hjobs Hheap Hj Hs. unfold reserved_slots. rewrite Hjobs, Hheap.
  apply omap_ext_in. intros k _. destruct (decide (k = j)) as [->|Hk].
  - by rewrite lookup_insert_eq, Hj.
  - by rewrite lookup_insert_ne.
Qed.

Lemma queue_inv_cancel jobs mig heap next cursor id j job :
  queue_inv jobs mig heap next cursor → mig !! id = Some j → heap !! j = Some job →
  queue_inv jobs (delete id mig) (<[j := set_cancelled job]> heap) next cursor.
Proof.
  intros [Q1 Q2 Q3 Q4 Q5 Q6] Hid Hj.
  assert (job_id job = id) as Hjid.
  { apply Q4 in Hid as (job0 & Hj0 & ? & _). congruence. }
  constructor; try done.
  - intros k. rewrite Q2. destruct (decide (k = j)) as [->|].
    + rewrite lookup_insert_eq, Hj. split; eauto.
    + by rewrite lookup_insert_ne.
  - intros k. destruct (decide (k = j)) as [->|].
    + rewrite lookup_insert_eq. intros _. apply Q3. by rewrite Hj.
    + rewrite lookup_insert_ne by done. apply Q3.
  - intros id' k. destruct (decide (k = j)) as [->|Hk].
    + rewrite lookup_insert_eq. split; [|by intros (? & [= <-] & _ & ?)].
      destruct (decide (id' = id)) as [->|]; [by rewrite lookup_delete_eq|].
      rewrite lookup_delete_ne by done. intros (job' & Hj' & <- & _)%Q4. congruence.
    + rewrite lookup_insert_ne by done. rewrite <-Q4.
      destruct (decide (id' = id)) as [->|]; [|by rewrite lookup_delete_ne].
      rewrite lookup_delete_eq, Hid. split; congruence.
  - intros i k job' Hi Hk. destruct (decide (k = j)) as [->|].
    + rewrite lookup_insert_eq in Hk. simplify_eq. simpl. eauto.
    + rewrite lookup_insert_ne in Hk by done. eauto.
Qed.

Lemma cancelled_spec p id :
  pool_inv p → pool_inv (cancelled p id) ∧ migrating_ (cancelled p id) !! id = None ∧
    (∀ id', target (cancelled p id) id' = if decide (id' = id) then None else target p id').
Proof.
  intros I. unfold cancelled, target. destruct (migrating_ p !! id) as [j|] eqn:Hj.
  2: { split_and!; [done..|]. intros id'. case_decide; [|done]. subst. by rewrite Hj. }
  destruct (proj1 (pi_mig _ _ _ _ _ I id j) Hj) as (job & Hjob & Hid & Hcan).
  rewrite Hjob. set (p' := upd_queue _ _ _ _). split_and!.
  - apply (pool_inv_step p p'); try done; try apply I.
    + by apply queue_inv_cancel; [apply I|..].
    + intros t ts ts' Hts Hts'. simplify_eq/=.
      by rewrite (reserved_slots_insert p p' j job (set_cancelled job)).
    + intros k job' Hk. simpl in Hk. destruct (decide (k = j)) as [->|].
      * rewrite lookup_insert_eq in Hk. simplify_eq.
        apply (job_ok_transfer p); try done. destruct (pi_job _ I j job Hjob). by constructor.
      * rewrite lookup_insert_ne in Hk by done.
        apply (job_ok_transfer p); try done; [intros _ l rc ?; by exists rc|].
        by apply (pi_job _ I k).
  - simpl. apply lookup_delete_eq.
  - intros id'. simpl. case_decide as He.
    + subst. by rewrite lookup_delete_eq.
    + rewrite lookup_delete_ne by done. destruct (migrating_ p !! id') as [k|] eqn:Hk; [|done].
      simpl. rewrite lookup_insert_ne; [done|]. intros <-.
      apply (pi_mig _ _ _ _ _ I) in Hk as (job' & Hk & Hid' & _). congruence.
Qed.

Lemma cancelled_fields p id :
  cfg_ (cancelled p id) = cfg_ p ∧ tiers_ (cancelled p id) = tiers_ p ∧
  location_ (cancelled p id) = location_ p ∧ refcount_ (cancelled p id) = refcount_ p ∧
  free_ids_ (cancelled p id) = free_ids_ p ∧ arenas (cancelled p id) = arenas p ∧
  jobs_ (cancelled p id) = jobs_ p ∧ next_unclaimed_ (cancelled p id) = next_unclaimed_ p.
Proof. unfold cancelled. by repeat case_match. Qed.

Lemma wp_cancel_migration id (Q : () → BlockPool T → Prop) p :
  (∀ j, migrating_ p !! id = Some j → is_Some (job_heap p !! j)) →
  Q () (cancelled p id) → wp (cancel_migration id) Q p.
Proof.
  intros Hj HQ. unfold cancel_migration. wp_steps. unfold cancelled in HQ.
  destruct (migrating_ p !! id) as [j|]; [|by apply wp_ret].
  destruct (Hj j eq_refl) as [job Hjob]. rewrite Hjob in HQ.
  wp_steps. eapply wp_job_at; [done|]. by wp_steps.
Qed.

Lemma migrating_job p id j :
  pool_inv p → migrating_ p !! id = Some j → is_Some (job_heap p !! j).
Proof. intros I (job & Hjob & _)%(pi_mig _ _ _ _ _ I). eauto. Qed.

Lemma cancelled_view p id id' :
  pool_inv p → view (cancelled p id) id' =
    if decide (id' = id)
    then (λ v, {| bv_refs := bv_refs v; bv_tier := bv_tier v; bv_target := None |}) <$> view p id
    else view p id'.
Proof.
  intros I. destruct (cancelled_fields p id) as (_ & _ & Hl & Hr & _).
  destruct (cancelled_spec p id I) as (_ & _ & Ht).
  unfold view. rewrite Hl, Hr, Ht. case_decide; [subst id'|done].
  destruct (refcount_ p !! _) as [rc|]; simpl; [|done].
  destruct (location_ p !! _) as [l|]; simpl; [|done]. by destruct (rc =? 0).
Qed.

Lemma cancelled_jobs p id j job :
  job_heap (cancelled p id) !! j = Some job → job_cancelled job = false →
  job_heap p !! j = Some job.
Proof.
  unfold cancelled. destruct (migrating_ p !! id) as [k|]; [|done].
  destruct (job_heap p !! k) as [job'|] eqn:Hk; [|done]. simpl.
  destruct (decide (j = k)) as [->|]; [|by rewrite lookup_insert_ne].
  rewrite lookup_insert_eq. by intros [= <-].
Qed.

Lemma in_hand_cancelled p id j job :
  in_hand (cancelled p id) j job ↔ ∃ job0, in_hand p j job0 ∧
    job = if decide (migrating_ p !! id = Some j) then set_cancelled job0 else job0.
Proof.
  destruct (cancelled_fields p id) as (_ & _ & _ & _ & _ & _ & E1 & E2).
  unfold in_hand, claimed. rewrite E1, E2. unfold cancelled.
  destruct (migrating_ p !! id) as [k|]; [|by naive_solver].
  destruct (job_heap p !! k) as [job'|] eqn:Hk; simpl.
  - destruct (decide (k = j)) as [->|].
    + rewrite lookup_insert_eq. setoid_rewrite decide_True; [|done]. naive_solver.
    + rewrite lookup_insert_ne by done. setoid_rewrite decide_False; [|congruence]. naive_solver.
  - case_decide; naive_solver.
Qed.

Lemma cancelled_queue p id : queue_kept p (cancelled p id).
Proof.
  destruct (cancelled_fields p id) as (Ec & _ & _ & _ & _ & Ea & _).
  assert (stopping_ (cancelled p id) = stopping_ p ∧ hands_ (cancelled p id) = hands_ p ∧
    workers_ (cancelled p id) = workers_ p ∧ jobs_ (cancelled p id) = jobs_ p) as (Es & Eh & Ew & Ej)
    by (unfold cancelled; by repeat case_match).
  constructor; [done|done|done|lia|unfold staffed; by rewrite Ew, Ej|..].
  - intros j job' _ (job & Hj & _)%in_hand_cancelled. eauto.
  - intros j job _ Hj. eexists. split; [apply in_hand_cancelled; by exists job|].
    constructor; [case_decide; eauto|by rewrite Ea..].
Qed.

Lemma cancelled_quiet p id : quiet p (cancelled p id).
Proof.
  destruct (cancelled_fields p id) as (Hc & Ht & Hl & _ & _ & Ha & _). constructor.
  - by split.
  - by rewrite Ht.
  - intros. by rewrite Hl.
  - intros j job Hj _ Hcan. by eapply cancelled_jobs.
  - apply cancelled_queue.
Qed.

(** Cancelling leaves every block where it is and every count as it was; the
    reserved slot stays reserved. *)
Lemma cancel_migration_spec p id :
  pool_inv p →
  wp (cancel_migration id) (λ _ p', pool_inv p' ∧ quiet p p' ∧
    (∀ t, tier_free p' t = tier_free p t) ∧
    view_upd p p' id
      ((λ v, {| bv_refs := bv_refs v; bv_tier := bv_tier v; bv_target := None |}) <$> view p id)) p.
Proof.
  intros I. apply wp_cancel_migration; [intros j; by apply migrating_job|].
  destruct (cancelled_fields p id) as (Hc & Ht & _ & _ & _ & Ha & _).
  split_and!; [by apply cancelled_spec|by apply cancelled_quiet| |].
  - intros t. unfold tier_free. by rewrite Ht.
  - intros id'. by apply cancelled_view.
Qed.

(** ** decref *)

(** The state after the last reference to a block is dropped. *)
Definition freed p (id : BlockId) (l : Location) (ts : TierState) : BlockPool T :=
  upd_free_ids (free_ids_ p ++ [id])
    (upd_tiers (<[N.to_nat (loc_tier l) :=
                    set_free_slots (ts_free_slots ts ++ [loc_slot l]) ts]> (tiers_ p))
      (upd_refcount (<[N.to_nat id := 0]> (refcount_ p)) p)).

Lemma freed_inv p id l rc ts :
  pool_inv p → live p id l rc → migrating_ p !! id = None →
  tiers_ p !! N.to_nat (loc_tier l) = Some ts → pool_inv (freed p id l ts).
Proof.
  intros I Hlive Hmig Hts. pose proof Hlive as (Hl & Hr & Hne).
  set (p' := freed p id l ts). pose proof (live_lt p id l rc Hlive) as Hid.
  assert (rebound p p' id l 0) as Hreb by (split; [simpl; by rewrite list_insert_id|done]).
  assert (∀ id' l rc, live p' id' l rc ↔ _) as Hlive'
    by (intros; apply (live_rebound p p' id _ _ _ _ _ I Hreb Hid)).
  apply (pool_inv_step p p'); try done; simpl.
  - by apply same_shape_set.
  - eapply ids_inv_free; try done. apply I.
  - apply I.
  - intros t ts1 ts2 Ht1 Ht2.
    pose proof (live_slots_rebound p p' id l rc _ 0 t Hreb Hl Hr) as Hp.
    rewrite !option_list_live_slot in Hp. apply N.eqb_neq in Hne. rewrite Hne in Hp.
    change (reserved_slots p' t) with (reserved_slots p t).
    pose proof (lookup_set_tier _ _ t _ _ _ Hts Ht2) as Ht2'. case_decide as He.
    + subst t. simplify_eq. rewrite N.eqb_refl in Hp. simpl in *. perm_lia.
    + destruct (N.eqb_spec (loc_tier l) t); [done|]. simpl in Hp. simplify_eq. perm_lia.
  - intros id' l' rc1 Hl'%Hlive'. case_decide; [by destruct Hl' as (_ & _ & ?)|].
    by apply (pi_loc _ I) in Hl'.
  - intros j job Hjob. apply (job_ok_transfer p); try done.
    + by apply same_shape_set.
    + intros Hcan l1 rc1 Hl1. exists rc1. apply Hlive'. rewrite decide_False; [done|].
      intros E. assert (migrating_ p !! id = Some j) as Hj; [|congruence].
      apply (pi_mig _ _ _ _ _ I). eauto.
    + by apply (pi_job _ I j).
Qed.

(** Dropping a reference: the last one returns the block's slot to its tier,
    its id to the free list, and takes a migration in flight with it. *)
Lemma decref_spec p id v :
  pool_inv p → view p id = Some v →
  wp (decref id) (λ b p', pool_inv p' ∧ quiet p p' ∧
    b = bool_decide (bv_refs v = 1) ∧
    if b then free_upd p p' (bv_tier v) 1 ∧ view_upd p p' id None
    else (∀ t, tier_free p' t = tier_free p t) ∧
         view_upd p p' id (Some {| bv_refs := bv_refs v - 1; bv_tier := bv_tier v;
                                   bv_target := bv_target v |})) p.
Proof.
  intros I Hv. apply view_live in Hv as (l & Hlive & Ht & Htg).
  pose proof Hlive as (Hl & Hr & Hne). destruct (pi_loc _ I _ _ _ Hlive) as [ts Hts].
  assert (bv_refs v < two32) as Hlt by (eapply (Forall_lookup_1 _ _ _ _ (pi_rc _ _ _ I)); done).
  unfold decref. wp_steps. rewrite (in_range p id l _ Hlive). wp_steps.
  eapply wp_refcount_at; [done|]. apply N.eqb_neq in Hne as Hne'. rewrite Hne'.
  unfold set_refcount. wp_steps. destruct (N.eqb_spec (bv_refs v - 1) 0) as [E|E].
  - wp_steps. destruct (cancelled_spec p id I) as (Ic & Hmig & Htgt).
    destruct (cancelled_fields p id) as (Hc & Htc & Hlc & Hrc & Hfc & Hac & _).
    set (p0 := upd_refcount _ p).
    assert (cancelled p0 id = upd_refcount (<[N.to_nat id := bv_refs v - 1]> (refcount_ p)) (cancelled p id))
      as Hcomm by (unfold cancelled; simpl; by repeat case_match).
    apply wp_cancel_migration; [exact (λ j, migrating_job p id j I)|]. rewrite Hcomm, E.
    wp_steps. eapply wp_location_at; [simpl; by rewrite Hlc|].
    wp_steps. eapply wp_free_slot_push; [simpl; by rewrite Htc|]. wp_steps.
    rewrite bool_decide_eq_true_2 by lia.
    assert (live (cancelled p id) id l (bv_refs v)) as Hlive' by (unfold live; by rewrite Hlc, Hrc).
    pose proof (freed_inv (cancelled p id) id l (bv_refs v) ts Ic Hlive' Hmig) as Hf.
    unfold freed in Hf. rewrite Hrc, Htc, Hfc in Hf. rewrite Ht. unfold push_back. simpl.
    rewrite Htc, Hfc.
    set (p' := upd_free_ids _ _) in *. split_and!; [by apply Hf| |done| |].
    + constructor; simpl; [by split|by apply same_shape_set|by rewrite Hlc| |etrans; [exact (cancelled_queue p id)|done]].
      intros j job Hj _ Hcan. by eapply cancelled_jobs.
    + intros i. rewrite (tier_free_set p p' (loc_tier l) ts (ts_free_slots ts ++ [loc_slot l]));
        [|done..]. rewrite length_app. simpl. case_decide; lia.
    + apply (view_rebound p p' id l 0 None); try done; [|by eapply live_lt].
      split; [simpl; by rewrite Hlc, list_insert_id|done].
  - wp_steps. rewrite bool_decide_eq_false_2 by lia.
    split_and!; [eapply set_refs_inv; try done; lia|by constructor|done|done|].
    set (p' := upd_refcount _ _).
    assert ((bv_refs v - 1 =? 0) = false) as E' by (apply N.eqb_neq; lia).
    pose proof (view_rebound p p' id l (bv_refs v - 1) (bv_target v) I) as Hup.
    rewrite E' in Hup. rewrite Ht.
    apply Hup; [split; [simpl; by rewrite list_insert_id|done]|by eapply live_lt|].
    intros id'. case_decide; [|done]. subst. by rewrite Htg.
Qed.
End ops.

Abbreviation queue_kept := (hands_kept None).
#[export] Hint Extern 0 (hands_kept None _ _) => (apply queue_kept_same; reflexivity) : core.
