(* ===== verification/PoolMigrate.v ===== *)
(** * Migration

    The copies of [BlockPool::migrate] (one [memcpy] between host tiers, the
    bounce buffer otherwise), the synchronous migration built on them, and the
    asynchronous one: queueing, draining, and what a worker does. *)

From S2P Require Import Prelude Types Tier BlockPool PoolInv PoolOps.

Open Scope N_scope.

Section migrate.
Context {T : Type} `{TierLaws T}.
Implicit Types p : BlockPool T.

(** ** Copies *)

(** A range of [n] bytes inside a well-formed tier object. *)
Definition range_ok (objs : gmap TierPtr T) (r : TierPtr * N) (n : N) (t : T) : Prop :=
  objs !! r.1 = Some t ∧ tier_ok t ∧ r.2 + n <= capacity_bytes t.

(** [objs'] is [objs] with [bs] stored at [dst]. *)
Definition stored (objs objs' : gmap TierPtr T) (dst : TierPtr * N) (bs : list byte) : Prop :=
  ∃ d d', objs !! dst.1 = Some d ∧ objs' = <[dst.1 := d']> objs ∧ same_obj d d' ∧
    contents d' = splice (N.to_nat dst.2) bs (contents d).

Lemma stored_same objs objs' dst bs : stored objs objs' dst bs → same_objs objs objs'.
Proof.
  intros (d & d' & Hd & -> & Hs & _) k. destruct (decide (k = dst.1)) as [->|].
  - rewrite lookup_insert_eq, Hd. by constructor.
  - rewrite lookup_insert_ne by done. destruct (objs !! k); constructor. done.
Qed.

Lemma range_length objs r n t :
  range_ok objs r n t → length (bytes_at objs r n) = N.to_nat n.
Proof.
  intros (Ht & Hok & Hb). unfold bytes_at. rewrite Ht. apply length_slice.
  pose proof (contents_size t Hok). unfold size_of in *. lia.
Qed.

Lemma wp_memcpy dst src n s d (Q : () → BlockPool T → Prop) p :
  range_ok (arenas p) src n s → range_ok (arenas p) dst n d →
  is_Some (host_data s) → is_Some (host_data d) →
  (∀ objs', stored (arenas p) objs' dst (bytes_at (arenas p) src n) →
     Q () (upd_bytes (bounce_ p) objs' p)) →
  wp (memcpy dst src n) Q p.
Proof.
  intros Hs Hd [a Ha] [b Hb] HQ. pose proof (range_length _ _ _ _ Hs) as Hlen.
  pose proof Hs as (Hs1 & Hs2 & Hs3). pose proof Hd as (Hd1 & Hd2 & Hd3).
  pose proof (host_data_contents _ _ Hs2 Ha) as ->.
  pose proof (host_data_contents _ _ Hd2 Hb) as ->.
  pose proof (contents_size s Hs2) as Es. pose proof (contents_size d Hd2) as Ed.
  unfold memcpy. wp_steps. eapply wp_tier_obj; [done|]. wp_steps.
  eapply wp_of_option; [done|]. rewrite HostTierFacts.mem_load_ok by (rewrite Es; done).
  wp_steps. eapply wp_tier_obj; [done|]. wp_steps. eapply wp_of_option; [done|].
  unfold bytes_at in *. rewrite Hs1 in *.
  set (bs := slice _ _ _) in *.
  assert (size_of bs = n) as Hbs by (unfold size_of; lia).
  assert ((dst.2 + size_of bs <=? size_of (contents d)) = true) as Hle
    by (apply N.leb_le; rewrite Hbs, Ed; done).
  rewrite Hle. wp_steps. apply HQ.
  destruct (host_store_law d dst.2 bs) as (L1 & L2 & L3 & L4); [done|eauto|by rewrite Hbs|].
  exists d, (host_store dst.2 bs d). split_and!; try done.
Qed.

Lemma wp_bounce_copy dst src n s d (Q : () → BlockPool T → Prop) p :
  range_ok (arenas p) src n s → range_ok (arenas p) dst n d →
  (∀ bounce objs', stored (arenas p) objs' dst (bytes_at (arenas p) src n) →
     Q () (upd_bytes bounce objs' p)) →
  wp (bounce_copy dst src n) Q p.
Proof.
  intros Hs Hd HQ. pose proof (range_length _ _ _ _ Hs) as Hlen.
  pose proof Hs as (Hs1 & Hs2 & Hs3). pose proof Hd as (Hd1 & Hd2 & Hd3).
  unfold bounce_copy. wp_steps. eapply wp_tier_obj; [done|].
  rewrite (read_law s) by done. unfold bytes_at in *. rewrite Hs1 in *.
  set (bs := slice _ _ _) in *.
  assert (size_of bs = n) as Hbs by (unfold size_of; lia).
  wp_steps. eapply wp_tier_obj; [done|]. wp_steps. simpl.
  destruct (write_law d dst.2 bs) as (d' & W & L1 & L2 & L3 & L4); [done|by rewrite Hbs|].
  rewrite W. wp_steps. apply (HQ bs). exists d, d'. split_and!; try done.
Qed.

(** ** Slots do not overlap *)

Lemma slot_addr_lookup p t s a :
  slot_addr p t s = Some a ↔
  ∃ ts, tiers_ p !! N.to_nat t = Some ts ∧ a = (ts_tier ts, s * block_bytes (cfg_ p)).
Proof. unfold slot_addr. rewrite fmap_Some. naive_solver. Qed.

Lemma slot_range_ok p t ts s :
  pool_inv p → tiers_ p !! N.to_nat t = Some ts → s < ts_num_blocks ts →
  ∃ obj, range_ok (arenas p) (ts_tier ts, s * block_bytes (cfg_ p)) (block_bytes (cfg_ p)) obj.
Proof.
  intros I Ht Hs. destruct (slot_offset_bound p I t ts s Ht Hs) as (obj & ? & ? & ? & _).
  by exists obj.
Qed.

(** Two tiers with the same object are the same tier. *)
Lemma tier_ptr_inj p t t' ts ts' :
  pool_inv p → tiers_ p !! N.to_nat t = Some ts → tiers_ p !! N.to_nat t' = Some ts' →
  ts_tier ts = ts_tier ts' → t = t'.
Proof.
  intros I Ht Ht' He. apply N2Nat.inj. eapply NoDup_lookup; [apply (pi_arenas _ _ _ _ I)|..];
    rewrite list_lookup_fmap, fmap_Some; eauto.
Qed.

(** A store into one slot leaves every other slot of the pool as it was. *)
Lemma stored_slot_other p objs t ts s t' ts' s' bs :
  pool_inv p → tiers_ p !! N.to_nat t = Some ts → s < ts_num_blocks ts →
  tiers_ p !! N.to_nat t' = Some ts' → s' < ts_num_blocks ts' → (t, s) ≠ (t', s') →
  length bs = N.to_nat (block_bytes (cfg_ p)) →
  stored (arenas p) objs (ts_tier ts, s * block_bytes (cfg_ p)) bs →
  bytes_at objs (ts_tier ts', s' * block_bytes (cfg_ p)) (block_bytes (cfg_ p))
  = bytes_at (arenas p) (ts_tier ts', s' * block_bytes (cfg_ p)) (block_bytes (cfg_ p)).
Proof.
  intros I Ht Hs Ht' Hs' Hne Hbs (d & d' & Hd & -> & _ & Hc). simpl in *. unfold bytes_at. simpl.
  destruct (slot_offset_bound p I t ts s Ht Hs) as (obj & Hobj & Hok & Hb & _). simplify_eq.
  destruct (decide (ts_tier ts' = ts_tier ts)) as [E|E].
  2: by rewrite lookup_insert_ne.
  rewrite E, lookup_insert_eq, Hd, Hc.
  assert (t' = t) as -> by (by eapply (tier_ptr_inj p)).
  assert (s ≠ s') as Hss by congruence.
  pose proof (contents_size _ Hok) as Hsz. unfold size_of in Hsz.
  apply slice_splice_disjoint; [lia|].
  destruct (N.lt_ge_cases s s').
  - right. assert ((s + 1) * block_bytes (cfg_ p) <= s' * block_bytes (cfg_ p))
      by (apply N.mul_le_mono_r; lia). lia.
  - left. assert ((s' + 1) * block_bytes (cfg_ p) <= s * block_bytes (cfg_ p))
      by (apply N.mul_le_mono_r; lia). lia.
Qed.

Lemma stored_slot_same objs objs' r n t bs :
  range_ok objs r n t → length bs = N.to_nat n → stored objs objs' r bs → bytes_at objs' r n = bs.
Proof.
  intros (Ht & Hok & Hb) Hlen (d & d' & Hd & -> & _ & Hc). simplify_eq.
  unfold bytes_at. rewrite lookup_insert_eq, Hc, <-Hlen. apply slice_splice_same.
  pose proof (contents_size _ Hok) as Hsz. unfold size_of in Hsz. lia.
Qed.

(** Two live blocks never share a slot. *)
Lemma live_slot_inj p id id' l l' rc rc' :
  pool_inv p → live p id l rc → live p id' l' rc' →
  loc_tier l = loc_tier l' → loc_slot l = loc_slot l' → id = id'.
Proof.
  intros I Hl Hl' Ht Hs. pose proof Hl as (H1 & H2 & H3). pose proof Hl' as (H1' & H2' & H3').
  destruct (pi_loc _ I _ _ _ Hl) as [ts Hts].
  pose proof (slots_nodup p I _ ts Hts) as Hnd.
  apply NoDup_app in Hnd as (_ & _ & Hnd). apply NoDup_app in Hnd as (Hnd & _ & _).
  apply N2Nat.inj. apply N.eqb_neq in H3, H3'.
  eapply (omap_NoDup_inj (live_slot (loc_tier l))); [exact Hnd|by apply lookup_zip..| |];
    unfold live_slot; simpl; rewrite ?H3, ?H3', <-?Ht, N.eqb_refl; [done|by rewrite Hs].
Qed.

Lemma live_slot_lt p id l rc ts :
  pool_inv p → live p id l rc → tiers_ p !! N.to_nat (loc_tier l) = Some ts →
  loc_slot l < ts_num_blocks ts.
Proof.
  intros I Hl Hts. apply (slot_lt p I (loc_tier l)); [done|]. right. left.
  apply live_slots_elem. eauto 10.
Qed.

(** The bytes of a block, wherever it lives. *)
Definition block_contents p (id : BlockId) : option (list byte) :=
  l ← location_ p !! N.to_nat id;
  a ← slot_addr p (loc_tier l) (loc_slot l);
  Some (bytes_at (arenas p) a (block_bytes (cfg_ p))).

Definition contents_kept p p' : Prop :=
  ∀ id, is_Some (view p id) → block_contents p' id = block_contents p id.

(** ** Synchronous migration *)

(** The state after block [id] moved from [l] to slot [slot] of tier [dst]. *)
Definition moved p (id : BlockId) (l : Location) (src_ts dst_ts : TierState) (dst slot : N)
    (bounce : list byte) (objs : gmap TierPtr T) : BlockPool T :=
  upd_location (<[N.to_nat id := {| loc_tier := dst; loc_slot := slot |}]> (location_ p))
    (upd_tiers
      (<[N.to_nat (loc_tier l) := set_free_slots (ts_free_slots src_ts ++ [loc_slot l]) src_ts]>
        (<[N.to_nat dst := set_free_slots (pop_back (ts_free_slots dst_ts)) dst_ts]> (tiers_ p)))
      (upd_bytes bounce objs p)).

Lemma same_shape_set2 (tiers : list TierState) i j ts ts' fs fs' :
  tiers !! i = Some ts → tiers !! j = Some ts' → i ≠ j →
  same_shape tiers (<[i := set_free_slots fs ts]> (<[j := set_free_slots fs' ts']> tiers)).
Proof.
  intros Hi Hj Hne. etrans; [by apply (same_shape_set tiers j ts' fs')|].
  apply same_shape_set. by rewrite list_lookup_insert_ne.
Qed.

Lemma moved_inv p id l rc src_ts dst_ts dst slot bounce objs :
  pool_inv p → live p id l rc → migrating_ p !! id = None → loc_tier l ≠ dst →
  tiers_ p !! N.to_nat (loc_tier l) = Some src_ts → tiers_ p !! N.to_nat dst = Some dst_ts →
  ts_free_slots dst_ts = pop_back (ts_free_slots dst_ts) ++ [slot] →
  same_objs (arenas p) objs →
  pool_inv (moved p id l src_ts dst_ts dst slot bounce objs).
Proof.
  intros I Hlive Hmig Hne Hsrc Hdst Hs Ho. pose proof Hlive as (Hl & Hr & Hrc).
  set (p' := moved _ _ _ _ _ _ _ _ _). pose proof (live_lt p id l rc Hlive) as Hid.
  set (l' := {| loc_tier := dst; loc_slot := slot |}).
  assert (rebound p p' id l' rc) as Hreb by (split; [done|simpl; by rewrite list_insert_id]).
  assert (∀ id' l rc, live p' id' l rc ↔ _) as Hlive'
    by (intros; apply (live_rebound p p' id _ _ _ _ _ I Hreb Hid)).
  assert (same_shape (tiers_ p) (tiers_ p')) as Hshape by (apply same_shape_set2; [done..|lia]).
  apply (pool_inv_step p p'); try done; simpl.
  - by rewrite length_insert.
  - rewrite <-(list_insert_id (refcount_ p) (N.to_nat id) rc) by done.
    eapply ids_inv_set; try done; [apply I|].
    by apply (Forall_lookup_1 _ _ _ _ (pi_rc _ _ _ I) Hr).
  - apply I.
  - intros t ts1 ts2 Ht1 Ht2.
    pose proof (live_slots_rebound p p' id l rc l' rc t Hreb Hl Hr) as Hp.
    rewrite !option_list_live_slot in Hp. apply N.eqb_neq in Hrc. rewrite Hrc in Hp.
    cbn [loc_tier loc_slot l'] in Hp.
    change (reserved_slots p' t) with (reserved_slots p t).
    pose proof (eq_reflexivity_perm _ _ Hs) as Hs'. clear Hs.
    destruct (decide (t = loc_tier l)) as [->|Htl].
    + rewrite list_lookup_insert_eq in Ht2
        by (rewrite length_insert; by eapply lookup_lt_Some).
      simplify_eq. rewrite N.eqb_refl in Hp.
      destruct (N.eqb_spec dst (loc_tier l)); [done|]. simpl in *. perm_lia.
    + rewrite list_lookup_insert_ne in Ht2 by lia.
      destruct (N.eqb_spec (loc_tier l) t); [done|].
      destruct (decide (t = dst)) as [->|].
      * rewrite list_lookup_insert_eq in Ht2 by (by eapply lookup_lt_Some). simplify_eq.
        rewrite N.eqb_refl in Hp. simpl in *. perm_lia.
      * rewrite list_lookup_insert_ne in Ht2 by lia. simplify_eq.
        destruct (N.eqb_spec dst t); [done|]. simpl in *. perm_lia.
  - intros id' l1 rc1 Hl1%Hlive'. case_decide; [|by apply (pi_loc _ I) in Hl1].
    destruct Hl1 as (-> & _). simpl. eauto.
  - intros j job Hjob. apply (job_ok_transfer p); try done.
    + intros Hcan l1 rc1 Hl1. exists rc1. apply Hlive'. rewrite decide_False; [done|].
      intros E. assert (migrating_ p !! id = Some j) as Hj; [|congruence].
      apply (pi_mig _ _ _ _ _ I). eauto.
    + by apply (pi_job _ I j).
Qed.

Lemma view_live_1 p id : is_Some (view p id) → ∃ l rc, live p id l rc.
Proof. intros [v (l & Hl & _)%view_live]. eauto. Qed.

(** Where the tiers of [moved] sit. *)
Lemma moved_slot_addr p id l src_ts dst_ts dst slot bounce objs t s :
  tiers_ p !! N.to_nat (loc_tier l) = Some src_ts → tiers_ p !! N.to_nat dst = Some dst_ts →
  loc_tier l ≠ dst →
  slot_addr (moved p id l src_ts dst_ts dst slot bounce objs) t s = slot_addr p t s.
Proof.
  intros Hs Hd Hne. unfold slot_addr. simpl. rewrite <-!list_lookup_fmap. f_equal. symmetry.
  apply same_shape_fmap; [|by apply same_shape_set2; [..|lia]]. intros x y [Hxy _]. by rewrite Hxy.
Qed.

Lemma moved_contents p id l rc src_ts dst_ts dst slot bounce objs :
  pool_inv p → live p id l rc → loc_tier l ≠ dst →
  tiers_ p !! N.to_nat (loc_tier l) = Some src_ts → tiers_ p !! N.to_nat dst = Some dst_ts →
  ts_free_slots dst_ts = pop_back (ts_free_slots dst_ts) ++ [slot] →
  stored (arenas p) objs (ts_tier dst_ts, slot * block_bytes (cfg_ p))
    (bytes_at (arenas p) (ts_tier src_ts, loc_slot l * block_bytes (cfg_ p)) (block_bytes (cfg_ p))) →
  contents_kept p (moved p id l src_ts dst_ts dst slot bounce objs).
Proof.
  intros I Hlive Hne Hsrc Hdst Hs Hst id' Hv.
  pose proof Hlive as (Hl & _ & _).
  assert (slot ∈ ts_free_slots dst_ts) as Hin by (rewrite Hs; set_solver).
  pose proof (slot_lt p I dst dst_ts slot Hdst (or_introl Hin)) as Hslot.
  pose proof (live_slot_lt p id l rc src_ts I Hlive Hsrc) as Hls.
  destruct (slot_range_ok p _ _ _ I Hsrc Hls) as [so Hso].
  destruct (slot_range_ok p _ _ _ I Hdst Hslot) as [do Hdo].
  pose proof (range_length _ _ _ _ Hso) as Hlen.
  destruct (view_live_1 p id' Hv) as (l' & rc' & Hlive'). pose proof Hlive' as (Hl' & _ & _).
  unfold block_contents. simpl.
  destruct (decide (id' = id)) as [->|Hid].
  - rewrite list_lookup_insert_eq by (by eapply lookup_lt_Some). simplify_eq. rewrite Hl. simpl.
    rewrite (moved_slot_addr p) by done. unfold slot_addr. rewrite Hdst, Hsrc. simpl. f_equal.
    by eapply stored_slot_same.
  - rewrite list_lookup_insert_ne by lia. rewrite Hl'. simpl.
    rewrite (moved_slot_addr p) by done.
    destruct (pi_loc _ I _ _ _ Hlive') as [ts' Hts'].
    unfold slot_addr. rewrite Hts'. simpl. f_equal.
    eapply (stored_slot_other p objs dst dst_ts slot (loc_tier l') ts'); try done.
    + by eapply live_slot_lt.
    + intros [= -> ->].
      pose proof (slots_nodup p I _ _ Hdst) as Hnd. apply NoDup_app in Hnd as (_ & Hnd & _).
      apply (Hnd (loc_slot l') Hin). apply elem_of_app. left. apply live_slots_elem. eauto 10.
Qed.

Lemma locate_run p id l rc : live p id l rc → locate id p = Ok (l, p).
Proof.
  intros Hlive. pose proof Hlive as (Hl & Hr & Hne).
  unfold locate, refcount_at, location_at, at_, mbind, M_bind. simpl.
  rewrite (in_range p id l rc Hlive). simpl. rewrite Hr. simpl.
  apply N.eqb_neq in Hne. rewrite Hne. simpl. by rewrite Hl.
Qed.

Lemma wp_locate id l rc (Q : Location → BlockPool T → Prop) p :
  live p id l rc → Q l p → wp (locate id) Q p.
Proof. intros Hl HQ. unfold wp. by rewrite (locate_run p id l rc Hl). Qed.

Lemma cancelled_contents p id : contents_kept p (cancelled p id).
Proof.
  destruct (cancelled_fields p id) as (Hc & Ht & Hl & _ & _ & Ha & _).
  intros id' _. unfold block_contents, slot_addr. by rewrite Hl, Ht, Hc, Ha.
Qed.

Definition retarget (v : BlockView) (t : TierIndex) : BlockView :=
  {| bv_refs := bv_refs v; bv_tier := t; bv_target := None |}.

(** The heart of [migrate]: from a state with no migration of [id] in flight,
    and the destination neither where the block is nor full. *)
Lemma moved_spec p id l v src_ts dst_ts dst slot bounce objs :
  pool_inv p → live p id l (bv_refs v) → migrating_ p !! id = None → loc_tier l ≠ dst →
  tiers_ p !! N.to_nat (loc_tier l) = Some src_ts → tiers_ p !! N.to_nat dst = Some dst_ts →
  ts_free_slots dst_ts = pop_back (ts_free_slots dst_ts) ++ [slot] →
  let p' := moved p id l src_ts dst_ts dst slot bounce objs in
  (∀ i, Z.of_nat (tier_free p' i)
        = (Z.of_nat (tier_free p i) + (if decide (i = loc_tier l) then 1 else 0)
           - (if decide (i = dst) then 1 else 0))%Z) ∧
  view_upd p p' id (Some (retarget v dst)).
Proof.
  intros I Hlive Hmig Hne Hsrc Hdst Hs p'. split.
  - intros i.
    pose proof (tier_free_set p (upd_tiers (<[N.to_nat dst :=
      set_free_slots (pop_back (ts_free_slots dst_ts)) dst_ts]> (tiers_ p)) p) dst dst_ts
      (pop_back (ts_free_slots dst_ts)) Hdst eq_refl i) as H1.
    pose proof (tier_free_set (upd_tiers (<[N.to_nat dst :=
      set_free_slots (pop_back (ts_free_slots dst_ts)) dst_ts]> (tiers_ p)) p) p'
      (loc_tier l) src_ts (ts_free_slots src_ts ++ [loc_slot l])) as H2.
    specialize (H2 ltac:(simpl; by rewrite list_lookup_insert_ne by lia) eq_refl i).
    pose proof (length_pop_back _ _ Hs). rewrite length_app in H2. simpl in H2.
    do 2 case_decide; lia.
  - pose proof Hlive as (Hl & Hr & Hrc). apply N.eqb_neq in Hrc as Hrc'.
    pose proof (view_rebound p p' id {| loc_tier := dst; loc_slot := slot |} (bv_refs v) None I) as Hu.
    rewrite Hrc' in Hu. apply Hu; [|by eapply live_lt|].
    + split; [done|]. simpl. by rewrite list_insert_id.
    + intros id'. case_decide; [|done]. subst. unfold target. simpl. by rewrite Hmig.
Qed.

(** What [migrate id dst] does to the tiers and to the block's view. *)
Definition migrate_outcome p p' (id : BlockId) (v : BlockView) (dst : TierIndex) (ok : bool) : Prop :=
  if decide (bv_tier v ≠ dst ∧ tier_free p dst ≠ 0%nat) then
    ok = true ∧ view_upd p p' id (Some (retarget v dst)) ∧
    ∀ i, Z.of_nat (tier_free p' i)
         = (Z.of_nat (tier_free p i) + (if decide (i = bv_tier v) then 1 else 0)
            - (if decide (i = dst) then 1 else 0))%Z
  else
    ok = bool_decide (bv_tier v = dst) ∧ view_upd p p' id (Some (retarget v (bv_tier v))) ∧
    ∀ i, tier_free p' i = tier_free p i.

Lemma wp_move_block id l rc src_ts dst_ts dst slot (Q : bool → BlockPool T → Prop) p :
  pool_inv p → live p id l rc → loc_tier l ≠ dst →
  tiers_ p !! N.to_nat (loc_tier l) = Some src_ts → tiers_ p !! N.to_nat dst = Some dst_ts →
  back (ts_free_slots dst_ts) = Some slot →
  (∀ bounce objs,
     stored (arenas p) objs (ts_tier dst_ts, slot * block_bytes (cfg_ p))
       (bytes_at (arenas p) (ts_tier src_ts, loc_slot l * block_bytes (cfg_ p))
          (block_bytes (cfg_ p))) →
     Q true (moved p id l src_ts dst_ts dst slot bounce objs)) →
  wp (move_block id l dst) Q p.
Proof.
  intros I Hlive Hne Hsrc Hdst Hback HQ.
  assert (slot ∈ ts_free_slots dst_ts) as Hin
    by (rewrite (last_Some_split _ _ Hback); set_solver).
  pose proof (slot_lt p I dst dst_ts slot Hdst (or_introl Hin)) as Hslt.
  pose proof (live_slot_lt p id l rc src_ts I Hlive Hsrc) as Hlslt.
  destruct (slot_offset_bound p I _ _ _ Hsrc Hlslt) as (so & Hso & Hsok & Hsb & Hsw).
  destruct (slot_offset_bound p I _ _ _ Hdst Hslt) as (do & Hdo & Hdok & Hdb & Hdw).
  unfold move_block. wp_steps. eapply wp_tier_at; [exact Hsrc|]. wp_steps.
  eapply wp_tier_at; [exact Hdst|]. wp_steps. eapply wp_tier_obj; [done|].
  wp_steps. eapply wp_tier_obj; [done|]. wp_steps.
  eapply wp_free_slot_pop; [done..|]. rewrite Hsw, Hdw. wp_steps.
  assert (∀ bounce objs,
    Q true (moved p id l src_ts dst_ts dst slot bounce objs) →
    wp (free_slot_push (loc_tier l) (loc_slot l) ;;
        set_location id {| loc_tier := dst; loc_slot := slot |} ;; mret true) Q
      (upd_bytes bounce objs (upd_tiers (<[N.to_nat dst :=
         set_free_slots (pop_back (ts_free_slots dst_ts)) dst_ts]> (tiers_ p)) p))) as Hend.
  { intros bounce objs HQ'. wp_steps.
    eapply wp_free_slot_push; [simpl; rewrite list_lookup_insert_ne by lia; exact Hsrc|].
    unfold set_location. by wp_steps. }
  destruct (bool_decide (is_Some (host_data so)) && bool_decide (is_Some (host_data do))) eqn:Eh.
  - apply andb_true_iff in Eh as [Hh1%bool_decide_eq_true Hh2%bool_decide_eq_true].
    eapply (wp_memcpy _ _ _ so do); [by split_and!..|done|done|].
    intros objs Hst. apply Hend. by apply HQ.
  - eapply (wp_bounce_copy _ _ _ so do); [by split_and!..|].
    intros bounce objs Hst. apply Hend. by apply HQ.
Qed.

(** [migrate] moves a live block, bytes included, to a free slot of the
    destination; it refuses only when the destination is full, and then the
    block stays as it was but for a cancelled migration. *)
Lemma migrate_spec p id v dst :
  pool_inv p → view p id = Some v → (N.to_nat dst < length (tiers_ p))%nat →
  wp (migrate id dst) (λ ok p', pool_inv p' ∧ cfg_ p' = cfg_ p ∧ contents_kept p p' ∧
    migrate_outcome p p' id v dst ok) p.
Proof.
  intros I Hv Hdst. pose proof Hv as Hv'. apply view_live in Hv' as (l & Hlive & Ht & Htg).
  destruct (cancelled_spec p id I) as (Ic & Hmig & _).
  destruct (cancelled_fields p id) as (Hc & Htc & Hlc & Hrc & _ & Hac & _).
  assert (view_upd p (cancelled p id) id (Some (retarget v (bv_tier v)))) as Hstay.
  { intros id'. rewrite (cancelled_view p id id' I). by rewrite Hv. }
  pose proof (cancelled_contents p id) as Hkc.
  assert (live (cancelled p id) id l (bv_refs v)) as Hlive' by (unfold live; by rewrite Hlc, Hrc).
  assert (∀ i, tier_free (cancelled p id) i = tier_free p i) as Hfree
    by (intros; unfold tier_free; by rewrite Htc).
  unfold migrate. wp_steps. apply wp_cancel_migration; [exact (λ j, migrating_job p id j I)|].
  wp_steps. eapply wp_locate; [exact Hlive'|]. wp_steps. rewrite Htc.
  set (q := cancelled p id) in *.
  assert ((size_of (tiers_ p) <=? dst) = false) as -> by (apply N.leb_gt; unfold size_of; lia).
  unfold migrate_outcome. destruct (N.eqb_spec (loc_tier l) dst) as [E|E].
  { wp_steps. rewrite decide_False by (rewrite Ht; tauto).
    rewrite bool_decide_eq_true_2 by congruence. done. }
  destruct (lookup_lt_is_Some_2 _ _ Hdst) as [dst_ts Hdts].
  wp_steps. eapply wp_tier_at; [rewrite Htc; exact Hdts|].
  assert (tier_free p dst = length (ts_free_slots dst_ts)) as Htf
    by (unfold tier_free; by rewrite Hdts).
  case_bool_decide as Hempty.
  { wp_steps. rewrite decide_False by (rewrite Htf, Hempty; simpl; naive_solver).
    rewrite bool_decide_eq_false_2 by congruence. done. }
  assert (bv_tier v ≠ dst ∧ tier_free p dst ≠ 0%nat) as Hgo
    by (rewrite Htf, Ht; by destruct (ts_free_slots dst_ts)).
  destruct (pi_loc _ Ic _ _ _ Hlive') as [src_ts Hsts].
  destruct (back_Some _ Hempty) as (slot & Hback & Hslot).
  assert (tiers_ q !! N.to_nat dst = Some dst_ts) as Hdts' by (by rewrite Htc).
  eapply wp_move_block; [done..|]. intros bounce objs Hst.
  rewrite decide_True by exact Hgo. rewrite Ht. destruct (moved_spec q id l v src_ts dst_ts dst slot bounce objs) as [Hf Hu]; [done..|].
  split_and!; try done.
  - eapply moved_inv; [done..|]. by eapply stored_same.
  - intros id' Hid'. rewrite <-Hkc by done.
    eapply (moved_contents q id l); [done..|].
    destruct Hid' as [v' Hv']. specialize (Hstay id'). case_decide; [by eexists|].
    rewrite Hstay. by eexists.
  - intros id'. specialize (Hu id'). specialize (Hstay id'). case_decide; congruence.
  - intros i. rewrite Hf, Hfree. lia.
Qed.
End migrate.
