(* ===== verification/PoolAsync.v ===== *)
(** * Asynchronous migration

    Queueing a copy, draining finished ones, and a worker's round: each keeps
    [pool_inv]; a block's location changes only at the drain, and the bytes the
    drain exposes are the bytes the block had. *)

From S2P Require Import Prelude Types Tier BlockPool PoolInv PoolOps PoolMigrate.

Open Scope N_scope.

Section async.
Context {T : Type} `{TierLaws T}.
Implicit Types p : BlockPool T.

(** ** migrate_async *)

Lemma queue_inv_push jobs mig heap next cursor job :
  queue_inv jobs mig heap next cursor → job_cancelled job = false → job_done job = false →
  mig !! job_id job = None →
  queue_inv (jobs ++ [next]) (<[job_id job := next]> mig) (<[next := job]> heap) (next + 1) cursor.
Proof.
  intros [Q1 Q2 Q3 Q4 Q5 Q6] Hcan Hdone Hmig.
  assert (heap !! next = None) as Hnext.
  { destruct (heap !! next) eqn:E; [|done]. pose proof (Q3 next ltac:(by rewrite E)). lia. }
  constructor.
  - apply NoDup_app. split_and!; [done| |apply NoDup_singleton].
    intros j Hj Hj'%list_elem_of_singleton. subst. apply Q2 in Hj as [? ?]. congruence.
  - intros j. rewrite elem_of_app, list_elem_of_singleton, Q2. destruct (decide (j = next)) as [->|].
    + rewrite lookup_insert_eq. naive_solver.
    + rewrite lookup_insert_ne by done. naive_solver.
  - intros j. destruct (decide (j = next)) as [->|]; [lia|].
    rewrite lookup_insert_ne by done. intros Hj%Q3. lia.
  - intros id j. destruct (decide (j = next)) as [->|Hj].
    + rewrite lookup_insert_eq. destruct (decide (id = job_id job)) as [->|Hid].
      * rewrite lookup_insert_eq. naive_solver.
      * rewrite lookup_insert_ne by done. rewrite Q4. naive_solver.
    + rewrite (lookup_insert_ne heap) by done.
      destruct (decide (id = job_id job)) as [->|Hid].
      * rewrite lookup_insert_eq, <-Q4, Hmig. naive_solver.
      * rewrite lookup_insert_ne by done. apply Q4.
  - unfold size_of in *. rewrite length_app. lia.
  - intros i j job' Hi. destruct (decide (j = next)) as [->|].
    + rewrite lookup_insert_eq. intros [= <-]. congruence.
    + rewrite lookup_insert_ne by done. intros Hj. apply (Q6 i j job'); [|done].
      rewrite lookup_app in Hi. destruct (jobs !! i) eqn:E; [done|].
      apply list_lookup_singleton_Some in Hi as [_ ?]. congruence.
Qed.

Definition new_job p (id : BlockId) (l : Location) (src_ts dst_ts : TierState) (dst slot : N)
    : MigrationJob :=
  {| job_id := id; job_dst_tier := dst; job_dst_slot := slot;
     job_src := (ts_tier src_ts, loc_slot l * block_bytes (cfg_ p));
     job_dst := (ts_tier dst_ts, slot * block_bytes (cfg_ p));
     job_bytes := block_bytes (cfg_ p); job_done := false; job_cancelled := false |}.

(** The state after a copy of [id] to slot [slot] of tier [dst] is queued. *)
Definition queued p (id : BlockId) (l : Location) (src_ts dst_ts : TierState) (dst slot : N)
    (workers : N) : BlockPool T :=
  upd_threads workers (stopping_ p)
    (upd_queue (jobs_ p ++ [job_next p]) (<[id := job_next p]> (migrating_ p))
      (<[job_next p := new_job p id l src_ts dst_ts dst slot]> (job_heap p))
      (upd_job_next (job_next p + 1)
        (upd_tiers (<[N.to_nat dst := set_free_slots (pop_back (ts_free_slots dst_ts)) dst_ts]>
          (tiers_ p)) p))).

Lemma reserved_slots_queued p id l src_ts dst_ts dst slot w t :
  pool_inv p →
  reserved_slots (queued p id l src_ts dst_ts dst slot w) t
  = reserved_slots p t ++ (if dst =? t then [slot] else []).
Proof.
  intros I. unfold reserved_slots. simpl. rewrite omap_app. f_equal.
  - apply omap_ext_in. intros j Hj. rewrite lookup_insert_ne; [done|]. intros <-.
    apply (pi_jobs_dom _ _ _ _ _ I), (pi_jobs_next _ _ _ _ _ I) in Hj. lia.
  - simpl. rewrite lookup_insert_eq. simpl. unfold job_slot. simpl. by destruct (dst =? t).
Qed.

Lemma slot_addr_shape p p' t s :
  cfg_ p' = cfg_ p → same_shape (tiers_ p) (tiers_ p') → slot_addr p' t s = slot_addr p t s.
Proof.
  intros Hc Hs. unfold slot_addr. rewrite Hc, <-!list_lookup_fmap. f_equal. symmetry.
  apply same_shape_fmap; [|done]. intros x y [Hxy _]. by rewrite Hxy.
Qed.

Lemma queued_inv p id l rc src_ts dst_ts dst slot w so do :
  pool_inv p → live p id l rc → migrating_ p !! id = None → loc_tier l ≠ dst →
  tiers_ p !! N.to_nat (loc_tier l) = Some src_ts → tiers_ p !! N.to_nat dst = Some dst_ts →
  ts_free_slots dst_ts = pop_back (ts_free_slots dst_ts) ++ [slot] →
  arenas p !! ts_tier src_ts = Some so → arenas p !! ts_tier dst_ts = Some do →
  is_Some (host_data so) → is_Some (host_data do) →
  pool_inv (queued p id l src_ts dst_ts dst slot w).
Proof.
  intros I Hlive Hmig Hne Hsrc Hdst Hs Hso Hdo Hhs Hhd.
  set (p' := queued _ _ _ _ _ _ _ _).
  assert (same_shape (tiers_ p) (tiers_ p')) as Hshape by (by apply same_shape_set).
  assert (slot ∈ ts_free_slots dst_ts) as Hin by (rewrite Hs; set_solver).
  pose proof (slot_lt p I dst dst_ts slot Hdst (or_introl Hin)) as Hslt.
  pose proof (live_slot_lt p id l rc src_ts I Hlive Hsrc) as Hlslt.
  destruct (slot_offset_bound p I _ _ _ Hsrc Hlslt) as (so' & Hso' & Hsok & Hsb & _).
  destruct (slot_offset_bound p I _ _ _ Hdst Hslt) as (do' & Hdo' & Hdok & Hdb & _).
  simplify_eq.
  apply (pool_inv_step p p'); try done; try apply I.
  - apply (queue_inv_push _ _ _ _ _ (new_job p id l src_ts dst_ts dst slot)); try done. apply I.
  - intros t ts1 ts2 Ht1 Ht2. unfold p'. rewrite reserved_slots_queued by done. fold p'.
    change (live_slots p' t) with (live_slots p t).
    pose proof (eq_reflexivity_perm _ _ Hs) as Hs'. clear Hs.
    pose proof (lookup_set_tier _ _ t _ _ _ Hdst Ht2) as Ht2'. case_decide.
    + subst t. simplify_eq. rewrite N.eqb_refl. simpl in *. perm_lia.
    + destruct (N.eqb_spec dst t); [done|]. simplify_eq. perm_lia.
  - intros j job Hjob. simpl in Hjob. destruct (decide (j = job_next p)) as [->|].
    + rewrite lookup_insert_eq in Hjob. simplify_eq. constructor; simpl; try done.
      * rewrite (slot_addr_shape p p') by done. unfold slot_addr. by rewrite Hdst.
      * by exists do.
      * by exists so.
      * intros _. exists l, rc. rewrite (slot_addr_shape p p') by done.
        split_and!; try done. unfold slot_addr. by rewrite Hsrc.
    + rewrite lookup_insert_ne in Hjob by done. apply (job_ok_transfer p); try done.
      * intros _ l1 rc1 Hl1. by exists rc1.
      * by apply (pi_job _ I j).
Qed.

(** [true] exactly when a copy was queued. *)
Definition can_queue p (v : BlockView) (dst : TierIndex) : Prop :=
  bv_tier v ≠ dst ∧ bv_target v = None ∧ tier_free p dst ≠ 0%nat ∧
  ∃ s d so do, tiers_ p !! N.to_nat (bv_tier v) = Some s ∧ tiers_ p !! N.to_nat dst = Some d ∧
    arenas p !! ts_tier s = Some so ∧ arenas p !! ts_tier d = Some do ∧
    is_Some (host_data so) ∧ is_Some (host_data do).

Lemma target_None p id : pool_inv p → target p id = None ↔ migrating_ p !! id = None.
Proof.
  intros I. unfold target. destruct (migrating_ p !! id) as [j|] eqn:Hj; [|done]. simpl.
  destruct (migrating_job p id j I Hj) as [job ->]. done.
Qed.

Lemma wp_ensure_worker hw (Q : () → BlockPool T → Prop) p :
  (∀ w, w ≠ 0 → workers_ p <= w → Q () (upd_threads w (stopping_ p) p)) → wp (ensure_worker hw) Q p.
Proof.
  intros HQ. unfold ensure_worker. wp_steps. destruct (N.eqb_spec (workers_ p) 0) as [E|E]; simpl; wp_steps.
  - apply HQ; [by destruct (4 <=? hw)|lia].
  - specialize (HQ (workers_ p) E ltac:(lia)). by destruct p.
Qed.

Lemma queued_view p id l v src_ts dst_ts dst slot w :
  pool_inv p → live p id l (bv_refs v) → tiers_ p !! N.to_nat dst = Some dst_ts →
  ts_free_slots dst_ts = pop_back (ts_free_slots dst_ts) ++ [slot] →
  let p' := queued p id l src_ts dst_ts dst slot w in
  free_upd p p' dst (-1) ∧
  view_upd p p' id (Some {| bv_refs := bv_refs v; bv_tier := loc_tier l; bv_target := Some dst |}).
Proof.
  intros I Hlive Hdts Hslot p'. split.
  - intros i. rewrite (tier_free_set p p' dst dst_ts (pop_back (ts_free_slots dst_ts))); [|done..].
    pose proof (length_pop_back _ _ Hslot). case_decide; lia.
  - pose proof Hlive as (Hl & Hr & Hne). apply N.eqb_neq in Hne.
    pose proof (view_rebound p p' id l (bv_refs v) (Some dst) I) as Hu. rewrite Hne in Hu.
    apply Hu; [split; simpl; by rewrite list_insert_id|by eapply live_lt|].
    intros id'. unfold target. simpl. case_decide as Hid.
    + subst. rewrite lookup_insert_eq. simpl. by rewrite lookup_insert_eq.
    + rewrite lookup_insert_ne by done.
      destruct (migrating_ p !! id') as [j|] eqn:Hj; [|done]. simpl.
      rewrite lookup_insert_ne; [done|]. intros <-.
      destruct (migrating_job p id' _ I Hj) as [job Hjob].
      pose proof (pi_jobs_next _ _ _ _ _ I _ ltac:(by rewrite Hjob)). lia.
Qed.

(** The new job is not claimed yet. *)
Lemma queued_queue p id l src_ts dst_ts dst slot w :
  pool_inv p → w ≠ 0 → workers_ p <= w → queue_kept p (queued p id l src_ts dst_ts dst slot w).
Proof.
  intros I Hw Hle. assert (∀ j job, in_hand (queued p id l src_ts dst_ts dst slot w) j job ↔ in_hand p j job) as E.
  2: { constructor; [done|done|done|done|by intros _ _|intros j job' _ Hj; exists job'; by apply E|].
       intros j job _ Hj. exists job. split; [by apply E|]. constructor; [by left|done..]. }
  intros j job. unfold in_hand, claimed. simpl.
  pose proof (pi_cursor _ _ _ _ _ I) as Hcur. unfold size_of in Hcur. unfold push_back.
  assert (∀ i, N.of_nat i < next_unclaimed_ p → (jobs_ p ++ [job_next p]) !! i = jobs_ p !! i) as Hi
    by (intros i Hlt; apply lookup_app_l; lia).
  assert ((∃ i, (jobs_ p ++ [job_next p]) !! i = Some j ∧ N.of_nat i < next_unclaimed_ p)
    ↔ ∃ i, jobs_ p !! i = Some j ∧ N.of_nat i < next_unclaimed_ p) as ->
    by (split; intros (i & Hj & Hlt); exists i; (split; [|done]); [rewrite <-Hi|rewrite Hi]; done).
  enough (∀ i, jobs_ p !! i = Some j → j ≠ job_next p) as Hne.
  { split; intros [(i & Hj & Hlt) H']; (split; [by exists i|]);
      rewrite lookup_insert_ne in *; try done; by apply not_eq_sym, (Hne i). }
  intros i Hj ->.
  apply list_elem_of_lookup_2, (pi_jobs_dom _ _ _ _ _ I), (pi_jobs_next _ _ _ _ _ I) in Hj. lia.
Qed.

(** [migrate_async] queues a copy, and reserves its destination, exactly when
    the block is elsewhere, has no migration in flight, the destination has a
    free slot and both tiers are host-addressable; otherwise it changes
    nothing. The block stays where it is either way. *)
Lemma queued_quiet p id l src_ts dst_ts dst slot w :
  pool_inv p → w ≠ 0 → workers_ p <= w → tiers_ p !! N.to_nat dst = Some dst_ts →
  quiet p (queued p id l src_ts dst_ts dst slot w).
Proof.
  intros I Hw Hle Hdts. constructor; try done; [by apply same_shape_set| |by apply queued_queue]. intros j job Hj Hd _. simpl in Hj.
  destruct (decide (j = job_next p)) as [->|]; [|by rewrite lookup_insert_ne in Hj].
  rewrite lookup_insert_eq in Hj. by simplify_eq.
Qed.

(** The conditions [migrate_async] tests, in its order. *)
Lemma can_queue_live p id v l dst :
  pool_inv p → loc_tier l = bv_tier v → target p id = bv_target v →
  can_queue p v dst ↔ loc_tier l ≠ dst ∧ migrating_ p !! id = None ∧ tier_free p dst ≠ 0%nat ∧
    ∃ s d so do, tiers_ p !! N.to_nat (loc_tier l) = Some s ∧ tiers_ p !! N.to_nat dst = Some d ∧
      arenas p !! ts_tier s = Some so ∧ arenas p !! ts_tier d = Some do ∧
      is_Some (host_data so) ∧ is_Some (host_data do).
Proof. intros I Ht Htg. unfold can_queue. by rewrite <-Htg, <-Ht, (target_None p id I). Qed.

Lemma migrate_async_spec hw p id v dst :
  pool_inv p → view p id = Some v → (N.to_nat dst < length (tiers_ p))%nat →
  wp (migrate_async hw id dst) (λ ok p', pool_inv p' ∧ quiet p p' ∧
    (ok = true ↔ can_queue p v dst) ∧
    if (ok : bool) then workers_ p' ≠ 0 ∧ free_upd p p' dst (-1) ∧
      view_upd p p' id (Some {| bv_refs := bv_refs v; bv_tier := bv_tier v;
                                bv_target := Some dst |})
    else p' = p) p.
Proof.
  intros I Hv Hdst. pose proof Hv as Hv'. apply view_live in Hv' as (l & Hlive & Ht & Htg).
  unfold migrate_async. wp_steps. eapply wp_locate; [done|]. wp_steps.
  assert ((size_of (tiers_ p) <=? dst) = false) as -> by (apply N.leb_gt; unfold size_of; lia).
  pose proof (can_queue_live p id v l dst I ltac:(done) ltac:(done)) as Hcq.
  destruct (N.eqb_spec (loc_tier l) dst) as [E|E]; [wp_steps; rewrite Hcq; by split_and!; [| |split; [|intros [??]]|]|].
  case_bool_decide as Hm.
  { wp_steps. split_and!; [done..| |done]. rewrite Hcq. split; [done|].
    intros (_ & Hn & _). rewrite Hn in Hm. by destruct Hm. }
  apply eq_None_not_Some in Hm.
  destruct (lookup_lt_is_Some_2 _ _ Hdst) as [dst_ts Hdts].
  wp_steps. eapply wp_tier_at; [exact Hdts|].
  assert (tier_free p dst = length (ts_free_slots dst_ts)) as Htf
    by (unfold tier_free; by rewrite Hdts).
  case_bool_decide as Hempty.
  { wp_steps. split_and!; [done..| |done]. rewrite Hcq. split; [done|].
    intros (_ & _ & Hn & _). by rewrite Htf, Hempty in Hn. }
  destruct (pi_loc _ I _ _ _ Hlive) as [src_ts Hsts].
  destruct (back_Some _ Hempty) as (slot & Hback & Hslot).
  assert (slot ∈ ts_free_slots dst_ts) as Hin by (rewrite Hslot; set_solver).
  pose proof (slot_lt p I dst dst_ts slot Hdts (or_introl Hin)) as Hslt.
  pose proof (live_slot_lt p id l _ src_ts I Hlive Hsts) as Hlslt.
  destruct (slot_offset_bound p I _ _ _ Hsts Hlslt) as (so & Hso & _ & _ & Hsw).
  destruct (slot_offset_bound p I _ _ _ Hdts Hslt) as (do & Hdo & _ & _ & Hdw).
  wp_steps. eapply wp_tier_at; [exact Hsts|]. wp_steps. eapply wp_tier_obj; [done|].
  wp_steps. eapply wp_tier_obj; [done|].
  destruct (bool_decide (is_Some (host_data so)) && bool_decide (is_Some (host_data do))) eqn:Eh;
    simpl.
  2: { wp_steps. split_and!; [done..| |done]. rewrite Hcq. split; [done|].
       intros (_ & _ & _ & s & d & so' & do' & ? & ? & ? & ? & ? & ?). simplify_eq.
       apply andb_false_iff in Eh as [?%bool_decide_eq_false|?%bool_decide_eq_false]; done. }
  apply andb_true_iff in Eh as [Hh1%bool_decide_eq_true Hh2%bool_decide_eq_true].
  wp_steps. eapply wp_free_slot_pop; [done..|]. rewrite Hsw, Hdw. wp_steps.
  apply wp_ensure_worker. intros w Hw Hle. wp_steps.
  match goal with |- pool_inv ?q ∧ _ => change q with (queued p id l src_ts dst_ts dst slot w) end.
  destruct (queued_view p id l v src_ts dst_ts dst slot w) as [Hf Hu]; try done.
  split_and!; [by eapply queued_inv|by apply queued_quiet| |done|done|by rewrite Ht].
  rewrite Hcq. split; [intros _|done]. split_and!; [done..| |by exists src_ts, dst_ts, so, do].
  rewrite Htf. by destruct (ts_free_slots dst_ts).
Qed.

Lemma block_contents_shape p p' id :
  cfg_ p' = cfg_ p → same_shape (tiers_ p) (tiers_ p') → arenas p' = arenas p →
  location_ p' !! N.to_nat id = location_ p !! N.to_nat id →
  block_contents p' id = block_contents p id.
Proof.
  intros Hc Hs Ha Hl. unfold block_contents. rewrite Hl, Ha, Hc.
  destruct (location_ p !! N.to_nat id) as [l|]; simpl; [|done]. by rewrite (slot_addr_shape p p').
Qed.

(** ** drain_migrations *)

Definition push_slot (t slot : N) p : BlockPool T :=
  match tiers_ p !! N.to_nat t with
  | Some ts => upd_tiers (<[N.to_nat t := set_free_slots (ts_free_slots ts ++ [slot]) ts]> (tiers_ p)) p
  | None => p
  end.

(** The queue without its front job. *)
Definition popped (j : JobPtr) (rest : list JobPtr) p : BlockPool T :=
  upd_cursor (sub64 (next_unclaimed_ p) 1) (upd_queue rest (migrating_ p) (delete j (job_heap p)) p).

(** What the drain does with one finished job. *)
Definition applied (job : MigrationJob) p : BlockPool T :=
  if job_cancelled job then push_slot (job_dst_tier job) (job_dst_slot job) p
  else match location_ p !! N.to_nat (job_id job) with
       | None => p
       | Some l =>
           let q := push_slot (loc_tier l) (loc_slot l) p in
           upd_queue (jobs_ q) (delete (job_id job) (migrating_ q)) (job_heap q)
             (upd_location (<[N.to_nat (job_id job) :=
                {| loc_tier := job_dst_tier job; loc_slot := job_dst_slot job |}]> (location_ q)) q)
       end.

Lemma queue_inv_pop j rest mig heap next cursor job :
  queue_inv (j :: rest) mig heap next cursor → heap !! j = Some job → job_done job = true →
  queue_inv rest (if job_cancelled job then mig else delete (job_id job) mig)
    (delete j heap) next (cursor - 1).
Proof.
  intros [Q1 Q2 Q3 Q4 Q5 Q6] Hj Hdone. apply NoDup_cons in Q1 as [Hnj Hnd].
  pose proof (Q6 0%nat j job eq_refl Hj Hdone) as Hc.
  constructor; [done|..].
  - intros k. destruct (decide (k = j)) as [->|].
    + rewrite lookup_delete_eq. split; [done|by intros [? ?]].
    + rewrite lookup_delete_ne by done. rewrite <-Q2, elem_of_cons. naive_solver.
  - intros k [job' Hk]. apply Q3. apply lookup_delete_Some in Hk as [_ Hk]. eauto.
  - intros id k. destruct (decide (k = j)) as [->|Hk].
    + rewrite lookup_delete_eq. split; [|by intros (? & ? & _)]. intros Hid. exfalso.
      destruct (job_cancelled job) eqn:Hcan.
      * apply Q4 in Hid as (job' & ? & _ & ?). congruence.
      * apply lookup_delete_Some in Hid as [Hne Hid]. apply Q4 in Hid as (job' & ? & ? & _).
        congruence.
    + rewrite (lookup_delete_ne heap) by done. rewrite <-Q4.
      destruct (job_cancelled job) eqn:Hcan; [done|].
      destruct (decide (id = job_id job)) as [->|]; [|by rewrite lookup_delete_ne].
      rewrite lookup_delete_eq. split; [done|]. intros Hid. exfalso. apply Hk.
      assert (mig !! job_id job = Some j) by (apply Q4; eauto). congruence.
  - unfold size_of in *. simpl in *. lia.
  - intros i k job' Hi Hk Hd. apply lookup_delete_Some in Hk as [_ Hk].
    specialize (Q6 (S i) k job' Hi Hk Hd). lia.
Qed.

Lemma sub64_pred c : c ≠ 0 → c < two64 → sub64 c 1 = c - 1.
Proof.
  intros Hc Hlt. unfold sub64. rewrite (u64_small 1) by done. unfold u64.
  replace (c + two64 - 1) with ((c - 1) + 1 * two64) by (unfold two64 in *; lia).
  rewrite N.Div0.mod_add. apply N.mod_small. lia.
Qed.

Lemma reserved_slots_pop p p' j rest job t :
  pool_inv p → jobs_ p = j :: rest → job_heap p !! j = Some job → jobs_ p' = rest →
  job_heap p' = delete j (job_heap p) →
  reserved_slots p t = (if job_dst_tier job =? t then [job_dst_slot job] else []) ++ reserved_slots p' t.
Proof.
  intros I Hjobs Hj Hjobs' Hheap. unfold reserved_slots. rewrite Hjobs, Hjobs', Hheap.
  rewrite omap_cons_app, Hj. f_equal; [simpl; unfold job_slot; by destruct (_ =? _)|].
  apply omap_ext_in. intros k Hk. rewrite lookup_delete_ne; [done|]. intros <-.
  pose proof (pi_jobs_nodup _ _ _ _ _ I) as Hnd. rewrite Hjobs in Hnd.
  by apply NoDup_cons in Hnd as [? _].
Qed.

Section drain_one.
Context p (I : pool_inv p) (j : JobPtr) (rest : list JobPtr) (job : MigrationJob).
Context (Hjobs : jobs_ p = j :: rest) (Hj : job_heap p !! j = Some job)
        (Hdone : job_done job = true).

Lemma popped_cursor : sub64 (next_unclaimed_ p) 1 = next_unclaimed_ p - 1.
Proof.
  pose proof (pi_done _ _ _ _ _ I 0 j job) as Hd. rewrite Hjobs in Hd.
  specialize (Hd eq_refl Hj Hdone). pose proof (pi_cursor _ _ _ _ _ I).
  pose proof (jobs_bound p I). apply sub64_pred; unfold two64, two32 in *; lia.
Qed.

Lemma job_dst_tier_lookup : ∃ ts, tiers_ p !! N.to_nat (job_dst_tier job) = Some ts ∧
  job_dst job = (ts_tier ts, job_dst_slot job * block_bytes (cfg_ p)).
Proof.
  pose proof (jo_dst _ _ (pi_job _ I j job Hj)) as Ha. by apply slot_addr_lookup in Ha.
Qed.

(** A cancelled job hands its reserved slot back and does nothing else. *)
Lemma drain_cancelled :
  job_cancelled job = true →
  let p' := applied job (popped j rest p) in
  pool_inv p' ∧ same_bytes p p' ∧ free_upd p p' (job_dst_tier job) 1 ∧
  (∀ id, view p' id = view p id) ∧ contents_kept p p' ∧
  jobs_ p' = rest ∧ job_heap p' = delete j (job_heap p) ∧ migrating_ p' = migrating_ p.
Proof.
  intros Hcan p'. destruct job_dst_tier_lookup as (ts & Hts & _).
  assert (p' = upd_tiers (<[N.to_nat (job_dst_tier job) :=
    set_free_slots (ts_free_slots ts ++ [job_dst_slot job]) ts]> (tiers_ p)) (popped j rest p)) as Hp'.
  { unfold p', applied, push_slot. rewrite Hcan. simpl. by rewrite Hts. }
  pose proof (pi_q _ I) as Q. rewrite Hjobs in Q.
  pose proof (queue_inv_pop _ _ _ _ _ _ _ Q Hj Hdone) as Q'. rewrite Hcan in Q'.
  assert (same_shape (tiers_ p) (tiers_ p')) as Hsh by (rewrite Hp'; by apply same_shape_set).
  assert (∀ id, target p' id = target p id) as Htg.
  { intros id. rewrite Hp'. unfold target. simpl.
    destruct (migrating_ p !! id) as [k|] eqn:Hk; [|done]. simpl.
    rewrite lookup_delete_ne; [done|]. intros <-.
    apply (pi_mig _ _ _ _ _ I) in Hk as (? & ? & _ & ?). congruence. }
  split_and!; try (by rewrite Hp').
  - apply (pool_inv_step p p'); rewrite ?Hp'; try done; try apply I; simpl.
    + by apply same_shape_set.
    + rewrite popped_cursor. done.
    + intros t ts1 ts2 Ht1 Ht2. rewrite <-Hp'.
      pose proof (eq_reflexivity_perm _ _ (reserved_slots_pop p p' j rest job t I Hjobs Hj
        ltac:(by rewrite Hp') ltac:(by rewrite Hp'))) as Hr.
      assert (live_slots p' t = live_slots p t) as -> by (by rewrite Hp').
      pose proof (lookup_set_tier _ _ t _ _ _ Hts Ht2) as Ht2'. case_decide.
      * subst t. simplify_eq. rewrite N.eqb_refl in Hr. simpl in *. perm_lia.
      * destruct (N.eqb_spec (job_dst_tier job) t); [done|]. simplify_eq. perm_lia.
    + intros k job' Hk. apply lookup_delete_Some in Hk as [_ Hk].
      rewrite <-Hp'. apply (job_ok_transfer p); rewrite ?Hp'; try done.
      * by apply same_shape_set.
      * intros _ l rc Hl. by exists rc.
      * by apply (pi_job _ I k).
  - intros i. rewrite (tier_free_set p p' _ _ _ Hts) by (by rewrite Hp').
    rewrite length_app. simpl. case_decide; lia.
  - intros id. unfold view. rewrite Htg. by rewrite Hp'.
  - intros id _. apply block_contents_shape; rewrite ?Hp'; try done. by apply same_shape_set.
Qed.

Section landing.
Context (Hcan : job_cancelled job = false) (l : Location) (rc : N) (ts : TierState).
Context (Hlive : live p (job_id job) l rc) (Hts : tiers_ p !! N.to_nat (loc_tier l) = Some ts).
Context (Hne : loc_tier l ≠ job_dst_tier job).

Let l' := {| loc_tier := job_dst_tier job; loc_slot := job_dst_slot job |}.

(** The pool once the job's block has landed. *)
Definition arrived : BlockPool T :=
  upd_queue rest (delete (job_id job) (migrating_ p)) (delete j (job_heap p))
    (upd_cursor (next_unclaimed_ p - 1) (upd_location (<[N.to_nat (job_id job) := l']> (location_ p))
      (upd_tiers (<[N.to_nat (loc_tier l) :=
        set_free_slots (ts_free_slots ts ++ [loc_slot l]) ts]> (tiers_ p)) p))).

Lemma arrived_applied : applied job (popped j rest p) = arrived.
Proof.
  destruct Hlive as (Hl & _). unfold applied, push_slot. rewrite Hcan. simpl. rewrite Hl, Hts. simpl.
  unfold popped. by rewrite popped_cursor.
Qed.

Lemma arrived_shape : same_shape (tiers_ p) (tiers_ arrived).
Proof. by apply same_shape_set. Qed.

Lemma arrived_rebound : rebound p arrived (job_id job) l' rc.
Proof. destruct Hlive as (_ & Hr & _). split; [done|]. simpl. by rewrite list_insert_id. Qed.

Lemma arrived_live id1 l1 rc1 :
  live arrived id1 l1 rc1 ↔
  if decide (id1 = job_id job) then l1 = l' ∧ rc1 = rc ∧ rc ≠ 0 else live p id1 l1 rc1.
Proof. apply (live_rebound p arrived (job_id job) _ _ _ _ _ I arrived_rebound (live_lt p _ l rc Hlive)). Qed.

Lemma arrived_migrating : migrating_ p !! job_id job = Some j.
Proof. apply (pi_mig _ _ _ _ _ I). eauto. Qed.

Lemma arrived_target id : target arrived id = if decide (id = job_id job) then None else target p id.
Proof.
  unfold target. simpl. case_decide as He.
  - subst. by rewrite lookup_delete_eq.
  - rewrite lookup_delete_ne by done. destruct (migrating_ p !! id) as [k|] eqn:Hk; [|done].
    simpl. rewrite lookup_delete_ne; [done|]. intros <-.
    apply (pi_mig _ _ _ _ _ I) in Hk as (? & ? & ? & _). congruence.
Qed.

(** The slot reserved for the block becomes its own, the one it leaves free. *)
Lemma arrived_slots t ts1 ts2 :
  tiers_ p !! N.to_nat t = Some ts1 → tiers_ arrived !! N.to_nat t = Some ts2 →
  ts_free_slots ts2 ++ live_slots arrived t ++ reserved_slots arrived t
  ≡ₚ ts_free_slots ts1 ++ live_slots p t ++ reserved_slots p t.
Proof.
  intros Ht1 Ht2. destruct Hlive as (Hl & Hr & Hrc).
  pose proof (live_slots_rebound p arrived (job_id job) l rc l' rc t arrived_rebound Hl Hr) as Hp.
  rewrite !option_list_live_slot in Hp. apply N.eqb_neq in Hrc. rewrite Hrc in Hp.
  cbn [loc_tier loc_slot l'] in Hp.
  pose proof (eq_reflexivity_perm _ _ (reserved_slots_pop p arrived j rest job t I Hjobs Hj
    eq_refl eq_refl)) as Hres.
  pose proof (lookup_set_tier _ _ t _ _ _ Hts Ht2) as Ht2'. case_decide.
  - subst t. simplify_eq. rewrite N.eqb_refl in Hp.
    destruct (N.eqb_spec (job_dst_tier job) (loc_tier l)); [done|]. simpl in *. perm_lia.
  - destruct (N.eqb_spec (loc_tier l) t); [done|]. simplify_eq.
    destruct (job_dst_tier job =? t); simpl in *; perm_lia.
Qed.

Lemma arrived_inv : pool_inv arrived.
Proof.
  destruct Hlive as (Hl & Hr & Hrc). pose proof (pi_q _ I) as Q. rewrite Hjobs in Q.
  pose proof (queue_inv_pop _ _ _ _ _ _ _ Q Hj Hdone) as Q'. rewrite Hcan in Q'.
  pose proof arrived_shape as Hsh. pose proof arrived_migrating as Hmig.
  destruct job_dst_tier_lookup as (dts & Hdts & _).
  apply (pool_inv_step p arrived); try done.
  - simpl. by rewrite length_insert.
  - simpl. rewrite <-(list_insert_id (refcount_ p) (N.to_nat (job_id job)) rc) by done.
    eapply ids_inv_set; try done; [apply I|]. by apply (Forall_lookup_1 _ _ _ _ (pi_rc _ _ _ I) Hr).
  - exact arrived_slots.
  - intros id l1 rc1 Hl1%arrived_live. case_decide; [|by apply (pi_loc _ I) in Hl1].
    destruct Hl1 as (-> & _). simpl. eauto.
  - intros k job' Hk. simpl in Hk. apply lookup_delete_Some in Hk as [Hkj Hk].
    apply (job_ok_transfer p); try done; [|by apply (pi_job _ I k)].
    intros Hcan' l1 rc1 Hl1. exists rc1. apply arrived_live. rewrite decide_False; [done|].
    intros E. apply Hkj. assert (migrating_ p !! job_id job = Some k); [|congruence].
    apply (pi_mig _ _ _ _ _ I). eauto.
Qed.

Lemma arrived_contents :
  slot_addr p (loc_tier l) (loc_slot l) = Some (job_src job) →
  bytes_at (arenas p) (job_dst job) (block_bytes (cfg_ p))
  = bytes_at (arenas p) (job_src job) (block_bytes (cfg_ p)) → contents_kept p arrived.
Proof.
  intros Hsrc Hcopy id Hid'. pose proof arrived_shape as Hsh. destruct Hlive as (Hl & _).
  destruct (decide (id = job_id job)) as [->|Hne'].
  - unfold block_contents. simpl. rewrite list_lookup_insert_eq by (by eapply lookup_lt_Some).
    simpl. rewrite Hl. simpl. rewrite (slot_addr_shape p arrived) by done. rewrite Hsrc.
    rewrite (jo_dst _ _ (pi_job _ I j job Hj)). simpl. by rewrite Hcopy.
  - apply block_contents_shape; try done. simpl. by rewrite list_lookup_insert_ne by lia.
Qed.
End landing.

(** A finished job that was not cancelled rebinds its block to the
    destination and frees the slot it left. *)
Lemma drain_applied :
  job_cancelled job = false →
  let p' := applied job (popped j rest p) in
  ∃ v, view p (job_id job) = Some v ∧ bv_target v = Some (job_dst_tier job) ∧
  pool_inv p' ∧ same_bytes p p' ∧ free_upd p p' (bv_tier v) 1 ∧
  view_upd p p' (job_id job) (Some (retarget v (job_dst_tier job))) ∧
  (bytes_at (arenas p) (job_dst job) (block_bytes (cfg_ p))
   = bytes_at (arenas p) (job_src job) (block_bytes (cfg_ p)) → contents_kept p p') ∧
  jobs_ p' = rest ∧ job_heap p' = delete j (job_heap p) ∧
  migrating_ p' = delete (job_id job) (migrating_ p).
Proof.
  intros Hcan p'. destruct (jo_live _ _ (pi_job _ I j job Hj) Hcan) as (l & rc & Hlive & Hne & Hsrc).
  destruct (pi_loc _ I _ _ _ Hlive) as [ts Hts]. pose proof Hlive as (Hl & Hr & Hrc).
  pose proof (arrived_applied Hcan l rc ts Hlive Hts) as Hp'. fold p' in Hp'. clearbody p'. subst p'.
  exists {| bv_refs := rc; bv_tier := loc_tier l; bv_target := Some (job_dst_tier job) |}. split_and!; try done.
  - apply view_live. exists l. split_and!; try done. unfold target. simpl.
    rewrite (arrived_migrating Hcan). simpl. by rewrite Hj.
  - by eapply arrived_inv.
  - intros i. rewrite (tier_free_set p _ _ _ _ Hts) by done. rewrite length_app. simpl. case_decide; lia.
  - pose proof (view_rebound p _ (job_id job) _ rc None I (arrived_rebound l rc ts Hlive)
      (live_lt p _ l rc Hlive) (arrived_target l ts)) as Hu.
    apply N.eqb_neq in Hrc. rewrite Hrc in Hu. exact Hu.
  - by eapply arrived_contents.
Qed.
End drain_one.

(** *** The drain handles the jobs one by one

    The source first moves all finished jobs off the queue and then applies
    them; the two loops commute, so the state is the same as after popping and
    applying one job at a time. *)

Fixpoint drained (jobs : list JobPtr) p : BlockPool T :=
  match jobs with
  | [] => p
  | j :: rest =>
      match job_heap p !! j with
      | Some job => if job_done job then drained rest (applied job (popped j rest p)) else p
      | None => p
      end
  end.

Lemma applied_heap job p : job_heap (applied job p) = job_heap p.
Proof. unfold applied, push_slot. by repeat case_match. Qed.

Lemma applied_popped job j rest p : applied job (popped j rest p) = popped j rest (applied job p).
Proof.
  unfold applied, push_slot. simpl. destruct (job_cancelled job); [by destruct (tiers_ p !! _)|].
  destruct (location_ p !! _) as [l|]; [|done]. by destruct (tiers_ p !! _).
Qed.

Lemma take_finished_applied job jobs p fs p' :
  take_finished jobs p = Ok (fs, p') → take_finished jobs (applied job p) = Ok (fs, applied job p').
Proof.
  revert p fs p'. induction jobs as [|j rest IH]; intros p fs p' Hp; simpl in *;
    unfold mret, M_ret in *; [by simplify_eq|].
  unfold mbind, M_bind, job_at in *. simpl in *. unfold mbind, M_bind in *. simpl in *.
  rewrite applied_heap. destruct (job_heap p !! j) as [job'|] eqn:Hj; simpl in *; [|done].
  unfold mret, M_ret in *. destruct (job_done job'); simpl in *; [|by simplify_eq].
  fold (popped j rest p) in Hp. change (upd_cursor _ _) with (popped j rest (applied job p)).
  destruct (take_finished rest (popped j rest p)) as [[fs' q]|] eqn:Hq; [|done].
  apply IH in Hq. rewrite applied_popped in Hq. rewrite Hq. by simplify_eq.
Qed.

Lemma wp_apply_finished job p (Q : () → BlockPool T → Prop) :
  is_Some (tiers_ p !! N.to_nat (job_dst_tier job)) →
  (job_cancelled job = false → ∃ l, location_ p !! N.to_nat (job_id job) = Some l ∧
     is_Some (tiers_ p !! N.to_nat (loc_tier l))) →
  Q () (applied job p) → wp (apply_finished job) Q p.
Proof.
  intros [ts Hts] Hl HQ. unfold apply_finished, applied, push_slot in *.
  destruct (job_cancelled job).
  - eapply wp_free_slot_push; [done|]. by rewrite Hts in HQ.
  - destruct (Hl eq_refl) as (l & Hloc & ts' & Hts'). rewrite Hloc, Hts' in HQ.
    wp_steps. eapply wp_location_at; [done|]. wp_steps. eapply wp_free_slot_push; [done|].
    unfold set_location. by wp_steps.
Qed.

Lemma take_finished_cons j rest p :
  take_finished (j :: rest) p =
  match job_heap p !! j with
  | None => Err (BadPointer "job")
  | Some job =>
      if job_done job then
        match take_finished rest (popped j rest p) with
        | Ok (fs, q) => Ok (job :: fs, q)
        | Err e => Err e
        end
      else Ok ([], p)
  end.
Proof.
  simpl. unfold mbind, M_bind, job_at. simpl. unfold mbind, M_bind. simpl.
  destruct (job_heap p !! j) as [job|]; [|done]. simpl. by destruct (job_done job).
Qed.

Lemma take_finished_total jobs p :
  NoDup jobs → (∀ j, j ∈ jobs → is_Some (job_heap p !! j)) →
  ∃ fs q, take_finished jobs p = Ok (fs, q) ∧ tiers_ q = tiers_ p ∧ location_ q = location_ p.
Proof.
  revert p. induction jobs as [|j rest IH]; intros p Hnd Hj; [by exists [], p|].
  rewrite take_finished_cons. destruct (Hj j ltac:(by left)) as [job ->].
  apply NoDup_cons in Hnd as [Hnj Hnd].
  destruct (job_done job); [|by exists [], p].
  destruct (IH (popped j rest p)) as (fs & q & -> & Ht & Hl); [done| |by exists (job :: fs), q].
  intros k Hk. simpl. rewrite lookup_delete_ne by (intros ->; done). apply Hj. by right.
Qed.

(** One step of the drain, whichever kind of job is at the front. *)
Lemma drain_one_inv p j rest job :
  pool_inv p → jobs_ p = j :: rest → job_heap p !! j = Some job → job_done job = true →
  pool_inv (applied job (popped j rest p)) ∧ jobs_ (applied job (popped j rest p)) = rest.
Proof.
  intros I Hjobs Hj Hd. destruct (job_cancelled job) eqn:Hc.
  - destruct (drain_cancelled p I j rest job Hjobs Hj Hd Hc) as (? & _ & _ & _ & _ & ? & _). done.
  - destruct (drain_applied p I j rest job Hjobs Hj Hd Hc) as (v & _ & _ & ? & _ & _ & _ & _ & ? & _).
    done.
Qed.

Lemma drain_loops jobs p :
  pool_inv p → jobs_ p = jobs →
  (fs ← take_finished jobs; for_each fs apply_finished) p = Ok ((), drained jobs p).
Proof.
  revert p. induction jobs as [|j rest IH]; intros p I Hjobs; [done|].
  pose proof (proj1 (pi_jobs_dom _ _ _ _ _ I j)) as Hdom. rewrite Hjobs in Hdom.
  destruct (Hdom ltac:(by left)) as [job Hj]. clear Hdom.
  unfold mbind at 1, M_bind at 1. rewrite take_finished_cons. simpl. rewrite Hj.
  destruct (job_done job) eqn:Hd; [|done].
  destruct (drain_one_inv p j rest job I Hjobs Hj Hd) as [I1 Hjobs1].
  pose proof (pi_jobs_nodup _ _ _ _ _ I) as Hnd. rewrite Hjobs in Hnd.
  apply NoDup_cons in Hnd as [Hnj Hnd].
  destruct (take_finished_total rest (popped j rest p)) as (fs & q & Hq & Ht & Hl); [done|..].
  { intros k Hk. simpl. rewrite lookup_delete_ne by (intros ->; done).
    apply (pi_jobs_dom _ _ _ _ _ I). rewrite Hjobs. by right. }
  rewrite Hq. specialize (IH _ I1 Hjobs1). unfold mbind, M_bind in IH.
  rewrite (take_finished_applied _ _ _ _ _ Hq) in IH.
  assert (wp (apply_finished job) (λ _ q', q' = applied job q) q) as Happ.
  { destruct (job_dst_tier_lookup p I j job Hj) as (ts & Hts & _).
    apply wp_apply_finished; [rewrite Ht; simpl; eauto| |done].
    intros Hc. destruct (jo_live _ _ (pi_job _ I j job Hj) Hc) as (l & rc & Hlive & _).
    exists l. rewrite Hl, Ht. split; [apply Hlive|by eapply (pi_loc _ I)]. }
  unfold wp in Happ. simpl. unfold mbind, M_bind.
  destruct (apply_finished job q) as [[[] q']|]; [by subst|done].
Qed.

Lemma wp_drain_migrations (Q : () → BlockPool T → Prop) p :
  pool_inv p → Q () (drained (jobs_ p) p) → wp drain_migrations Q p.
Proof.
  intros I HQ. unfold drain_migrations. wp_steps. case_bool_decide as Hj.
  - apply wp_ret. by rewrite Hj in HQ.
  - unfold wp. by rewrite drain_loops.
Qed.

(** ** Copies in flight *)

(** A finished, uncancelled copy holds the bytes of the block it copies. *)
Definition copies_ok p : Prop :=
  ∀ j job, job_heap p !! j = Some job → job_done job = true → job_cancelled job = false →
    bytes_at (arenas p) (job_dst job) (block_bytes (cfg_ p))
    = bytes_at (arenas p) (job_src job) (block_bytes (cfg_ p)).

Definition pool_ok p : Prop := pool_inv p ∧ copies_ok p.

Lemma quiet_contents p p' : quiet p p' → contents_kept p p'.
Proof. intros [[Hc Ha] Hs Hl _ _] id Hid. apply block_contents_shape; auto. Qed.

Lemma quiet_copies p p' : quiet p p' → copies_ok p → copies_ok p'.
Proof. intros [[Hc Ha] _ _ Hj _] C j job ???. rewrite Hc, Ha. eapply C; eauto. Qed.

(** What a drain may change of a block: nothing, or it lands where its
    migration was headed. *)
Definition landed (v v' : option BlockView) : Prop :=
  v' = v ∨ ∃ w d, v = Some w ∧ bv_target w = Some d ∧ v' = Some (retarget w d).

Record drain_result p p' : Prop := {
  dr_bytes : same_bytes p p';
  dr_view id : landed (view p id) (view p' id);
  dr_free t : (tier_free p t ≤ tier_free p' t)%nat;
  dr_contents : contents_kept p p';
  dr_front j rest job : jobs_ p' = j :: rest → job_heap p' !! j = Some job → job_done job = false;
  dr_jobs : ∃ k, jobs_ p' = drop k (jobs_ p);
  dr_heap j job : job_heap p' !! j = Some job → job_heap p !! j = Some job;
  dr_queue : queue_kept p p';
  dr_shape : same_shape (tiers_ p) (tiers_ p');
}.

Lemma landed_trans a b c : landed a b → landed b c → landed a c.
Proof.
  intros [->|(w & d & -> & Hw & ->)] [->|(w' & d' & Hb & Hw' & ->)]; unfold landed; eauto 10.
  simplify_eq.
Qed.

Lemma landed_None a b : landed a b → (is_Some a ↔ is_Some b).
Proof. intros [->|(w & d & -> & _ & ->)]; [done|]. split; eauto. Qed.

Lemma applied_queue job p :
  jobs_ (applied job p) = jobs_ p ∧ next_unclaimed_ (applied job p) = next_unclaimed_ p ∧
  stopping_ (applied job p) = stopping_ p ∧ hands_ (applied job p) = hands_ p ∧ workers_ (applied job p) = workers_ p.
Proof. unfold applied, push_slot. by repeat case_match. Qed.

Lemma applied_shape job p : same_shape (tiers_ p) (tiers_ (applied job p)).
Proof.
  assert (∀ t slot, same_shape (tiers_ p) (tiers_ (push_slot t slot p))) as Hp.
  { intros t slot. unfold push_slot. destruct (tiers_ p !! N.to_nat t) as [ts|] eqn:E; [by apply same_shape_set|done]. }
  unfold applied. repeat case_match; try done; apply Hp.
Qed.

Lemma drain_one_queue p j rest job :
  pool_inv p → jobs_ p = j :: rest → job_heap p !! j = Some job → job_done job = true →
  same_bytes p (applied job (popped j rest p)) → queue_kept p (applied job (popped j rest p)).
Proof.
  intros I Hjobs Hj Hd [Ec Ea]. destruct (applied_queue job (popped j rest p)) as (E1 & E2 & E3 & E4 & E5).
  apply hands_kept_same; [done..|by rewrite Hjobs|]. intros k job' _. unfold in_hand, claimed. rewrite E1, E2, applied_heap. simpl.
  rewrite (popped_cursor p I j rest job), Hjobs by done.
  destruct (decide (k = j)) as [->|Hne].
  { rewrite lookup_delete_eq. split; [by intros (_ & ? & _)|]. intros (_ & Hk & Hnd). congruence. }
  rewrite lookup_delete_ne by done. apply and_iff_compat_r. split.
  - intros (i & Hi & Hlt). exists (S i). split; [done|lia].
  - intros (i & Hi & Hlt). destruct i as [|i]; [simpl in Hi; congruence|]. exists i. split; [done|lia].
Qed.

Lemma drain_one_ok p j rest job :
  pool_ok p → jobs_ p = j :: rest → job_heap p !! j = Some job → job_done job = true →
  let p' := applied job (popped j rest p) in
  pool_ok p' ∧ jobs_ p' = rest ∧ same_bytes p p' ∧ contents_kept p p' ∧
  (∀ id, landed (view p id) (view p' id)) ∧ (∀ t, (tier_free p t ≤ tier_free p' t)%nat) ∧
  job_heap p' = delete j (job_heap p) ∧ queue_kept p p'.
Proof.
  intros [I C] Hjobs Hj Hd p'. pose proof (drain_one_queue p j rest job I Hjobs Hj Hd) as Hq. fold p' in Hq.
  destruct (job_cancelled job) eqn:Hc.
  - destruct (drain_cancelled p I j rest job Hjobs Hj Hd Hc) as (I' & [Hcfg Har] & Hf & Hv & Hk & Hjs & Hh & _).
    fold p' in I', Hcfg, Har, Hf, Hv, Hk, Hjs, Hh. specialize (Hq (conj Hcfg Har)). split_and!; try done.
    + split; [done|]. intros k job' Hk'. rewrite Hh in Hk'. rewrite Har, Hcfg.
      apply lookup_delete_Some in Hk' as [_ ?]. by apply (C k).
    + intros id. left. apply Hv.
    + intros t. specialize (Hf t). case_decide; lia.
  - destruct (drain_applied p I j rest job Hjobs Hj Hd Hc)
      as (v & Hv0 & Htg & I' & [Hcfg Har] & Hf & Hv & Hk & Hjs & Hh & _).
    fold p' in I', Hcfg, Har, Hf, Hv, Hk, Hjs, Hh. specialize (Hq (conj Hcfg Har)). split_and!; try done.
    + split; [done|]. intros k job' Hk'. rewrite Hh in Hk'. rewrite Har, Hcfg.
      apply lookup_delete_Some in Hk' as [_ ?]. by apply (C k).
    + apply Hk. by apply (C j).
    + intros id. rewrite Hv. case_decide as He; [|by left]. rewrite He. right. eauto.
    + intros t. specialize (Hf t). case_decide; lia.
Qed.

Lemma drain_result_refl p :
  pool_ok p →
  (∀ j rest job, jobs_ p = j :: rest → job_heap p !! j = Some job → job_done job = false) →
  drain_result p p.
Proof. intros Ok Hf. constructor; try done; [by left|by exists 0%nat]. Qed.

Lemma drained_spec jobs p :
  pool_ok p → jobs_ p = jobs → pool_ok (drained jobs p) ∧ drain_result p (drained jobs p).
Proof.
  revert p. induction jobs as [|j rest IH]; intros p Ok Hjobs.
  { split; [done|]. apply drain_result_refl; [done|]. simpl. congruence. }
  pose proof Ok as [I C]. simpl.
  pose proof (proj1 (pi_jobs_dom _ _ _ _ _ I j)) as Hdom. rewrite Hjobs in Hdom.
  destruct (Hdom ltac:(by left)) as [job Hj]. clear Hdom. rewrite Hj.
  destruct (job_done job) eqn:Hd.
  - destruct (drain_one_ok p j rest job Ok Hjobs Hj Hd) as (Ok1 & Hjobs1 & [U1 U2] & K1 & V1 & F1 & H1 & Q1).
    destruct (IH _ Ok1 Hjobs1) as [Ok2 [[U3 U4] V2 F2 K2 R2 [k J2] H2 Q2 S2]]. split; [done|].
    constructor; try done.
    + split; congruence.
    + intros id. by eapply landed_trans.
    + intros t. etrans; [apply F1|apply F2].
    + intros id Hid. rewrite K2, K1; [done..|]. by rewrite <-landed_None.
    + exists (S k). by rewrite J2, Hjobs1, Hjobs.
    + intros k' job' Hk'%H2. rewrite H1 in Hk'. by apply lookup_delete_Some in Hk' as [_ ?].
    + by etrans.
    + etrans; [|exact S2]. exact (applied_shape job (popped j rest p)).
  - split; [done|]. apply drain_result_refl; [done|]. congruence.
Qed.

(** Draining keeps the pool sound: blocks land where their migrations were
    headed or stay, no tier loses a free slot, no block's bytes change, and it
    stops at the first unfinished copy. *)
Lemma drain_migrations_spec p :
  pool_ok p → wp drain_migrations (λ _ p', pool_ok p' ∧ drain_result p p') p.
Proof. intros Ok. apply wp_drain_migrations; [apply Ok|]. by apply drained_spec. Qed.
End async.
