(* ===== verification/PoolWorker.v ===== *)
(** * Workers and the bytes they copy

    A store into a slot that is free or reserved disturbs no live block and no
    other copy; hence synchronous migration, and each step of a worker, keep
    [pool_ok]. The last part is what a wait achieves. *)

From S2P Require Import Prelude Types Tier BlockPool PoolInv PoolOps PoolMigrate PoolAsync.

Open Scope N_scope.

Section worker.
Context {T : Type} `{TierLaws T}.
Implicit Types p : BlockPool T.

(** Slot [s] of tier [t] holds no live block and is not the destination of a
    copy other than [own]. *)
Definition scratch_slot p (own : option JobPtr) (t s : N) : Prop :=
  ∃ ts, tiers_ p !! N.to_nat t = Some ts ∧ s < ts_num_blocks ts ∧
    ¬ (s ∈ live_slots p t) ∧
    (∀ j job, job_heap p !! j = Some job → own ≠ Some j →
       (job_dst_tier job, job_dst_slot job) ≠ (t, s)).

Lemma free_scratch p t ts s :
  pool_inv p → tiers_ p !! N.to_nat t = Some ts → s ∈ ts_free_slots ts → scratch_slot p None t s.
Proof.
  intros I Ht Hs. pose proof (slots_nodup p I t ts Ht) as Hnd.
  apply NoDup_app in Hnd as (_ & Hnd & _). specialize (Hnd s Hs). rewrite elem_of_app in Hnd.
  exists ts. split_and!; [done|by eapply slot_lt; eauto|tauto|].
  intros j job Hj _ [= Ht' Hs']. apply Hnd. right. apply reserved_slots_elem. exists j, job.
  split_and!; [|done..]. by apply (pi_jobs_dom _ _ _ _ _ I).
Qed.

(** The destinations of two jobs differ. *)
Lemma job_slot_inj p j j' job job' :
  pool_inv p → job_heap p !! j = Some job → job_heap p !! j' = Some job' →
  job_dst_tier job = job_dst_tier job' → job_dst_slot job = job_dst_slot job' → j = j'.
Proof.
  intros I Hj Hj' Ht Hs.
  destruct (job_dst_tier_lookup p I j job Hj) as (ts & Hts & _).
  pose proof (slots_nodup p I _ ts Hts) as Hnd.
  apply NoDup_app in Hnd as (_ & _ & Hnd). apply NoDup_app in Hnd as (_ & _ & Hnd).
  assert (j ∈ jobs_ p) as [i Hi]%list_elem_of_lookup by (apply (pi_jobs_dom _ _ _ _ _ I); eauto).
  assert (j' ∈ jobs_ p) as [i' Hi']%list_elem_of_lookup by (apply (pi_jobs_dom _ _ _ _ _ I); eauto).
  assert (i = i'); [|congruence].
  eapply (omap_NoDup_inj (λ j, job_heap p !! j ≫= job_slot (job_dst_tier job)) (jobs_ p) i i' j j' (job_dst_slot job)); [exact Hnd|done..| |].
  - simpl. rewrite Hj. simpl. unfold job_slot. by rewrite N.eqb_refl.
  - simpl. rewrite Hj'. simpl. unfold job_slot. by rewrite Ht, N.eqb_refl, Hs.
Qed.

Lemma reserved_scratch p j job :
  pool_inv p → job_heap p !! j = Some job →
  scratch_slot p (Some j) (job_dst_tier job) (job_dst_slot job).
Proof.
  intros I Hj. destruct (job_dst_tier_lookup p I j job Hj) as (ts & Hts & _).
  assert (job_dst_slot job ∈ reserved_slots p (job_dst_tier job)) as Hin.
  { apply reserved_slots_elem. exists j, job. split_and!; [|done..].
    by apply (pi_jobs_dom _ _ _ _ _ I). }
  pose proof (slots_nodup p I _ ts Hts) as Hnd. apply NoDup_app in Hnd as (_ & _ & Hnd).
  apply NoDup_app in Hnd as (_ & Hnd & _).
  exists ts. split_and!; [done|by eapply slot_lt; eauto|intros Hl; by apply (Hnd _ Hl)|].
  intros j' job' Hj' Hne [= Ht Hs]. apply Hne. f_equal. by eapply (job_slot_inj p).
Qed.

Section store.
Context p (I : pool_inv p) (own : option JobPtr) (t s : N) (ts : TierState).
Context (Hts : tiers_ p !! N.to_nat t = Some ts) (Hscratch : scratch_slot p own t s).
Context (objs : gmap TierPtr T) (bs : list byte).
Context (Hlen : length bs = N.to_nat (block_bytes (cfg_ p))).
Context (Hst : stored (arenas p) objs (ts_tier ts, s * block_bytes (cfg_ p)) bs).

Lemma scratch_lt : s < ts_num_blocks ts.
Proof. destruct Hscratch as (ts' & ? & ? & _). simplify_eq. done. Qed.

Lemma store_live id l rc ts' :
  live p id l rc → tiers_ p !! N.to_nat (loc_tier l) = Some ts' →
  bytes_at objs (ts_tier ts', loc_slot l * block_bytes (cfg_ p)) (block_bytes (cfg_ p))
  = bytes_at (arenas p) (ts_tier ts', loc_slot l * block_bytes (cfg_ p)) (block_bytes (cfg_ p)).
Proof.
  intros Hl Hts'.
  eapply (stored_slot_other p objs t ts s (loc_tier l) ts'); try done.
  - apply scratch_lt.
  - by eapply live_slot_lt.
  - intros [= -> ->]. destruct Hscratch as (_ & _ & _ & Hn & _). apply Hn.
    apply live_slots_elem. eauto 10.
Qed.

Lemma store_dst j job :
  job_heap p !! j = Some job → own ≠ Some j →
  bytes_at objs (job_dst job) (block_bytes (cfg_ p))
  = bytes_at (arenas p) (job_dst job) (block_bytes (cfg_ p)).
Proof.
  intros Hj Hown. destruct (job_dst_tier_lookup p I j job Hj) as (ts' & Hts' & ->).
  destruct (reserved_scratch p j job I Hj) as (ts'' & ? & Hlt & _). simplify_eq.
  eapply (stored_slot_other p objs t ts s (job_dst_tier job) ts'); try done.
  - apply scratch_lt.
  - destruct Hscratch as (_ & _ & _ & _ & Hn). intros E. by eapply (Hn j job).
Qed.

Lemma store_src j job :
  job_heap p !! j = Some job → job_cancelled job = false →
  bytes_at objs (job_src job) (block_bytes (cfg_ p))
  = bytes_at (arenas p) (job_src job) (block_bytes (cfg_ p)).
Proof.
  intros Hj Hc. destruct (jo_live _ _ (pi_job _ I j job Hj) Hc) as (l & rc & Hl & _ & Ha).
  apply slot_addr_lookup in Ha as (ts' & Hts' & ->). by eapply store_live.
Qed.

(** Nor anything a worker relies on. *)
Lemma store_hands p' :
  cfg_ p' = cfg_ p → stopping_ p' = stopping_ p → hands_ p' = hands_ p → arenas p' = objs →
  workers_ p' = workers_ p → jobs_ p' = jobs_ p →
  (∀ j job, in_hand p' j job ↔ in_hand p j job) → hands_kept own p p'.
Proof.
  intros E1 E2 Eh E3 Ew Ej Hh. constructor; [done|done|done|lia|unfold staffed; by rewrite Ew, Ej|intros j job' _ Hj; exists job'; by apply Hh|].
  intros j job Hne Hj. exists job. split; [by apply Hh|]. destruct Hj as (_ & Hj & _).
  constructor; [by left|rewrite E3; by apply (store_dst j)|rewrite E3; by apply (store_src j)].
Qed.

Lemma store_contents id :
  is_Some (view p id) → block_contents (upd_bytes (bounce_ p) objs p) id = block_contents p id.
Proof.
  intros (l & rc & Hl)%view_live_1. destruct (pi_loc _ I _ _ _ Hl) as [ts' Hts'].
  unfold block_contents. simpl. pose proof Hl as (-> & _). simpl.
  unfold slot_addr. simpl. rewrite Hts'. simpl. f_equal. by eapply store_live.
Qed.
End store.

(** Synchronous migration keeps every finished copy intact, and disturbs no
    worker. *)
Section moved.
Context p (id : BlockId) (l : Location) (rc : N) (src_ts dst_ts : TierState) (dst slot : N) (bounce : list byte)
  (objs : gmap TierPtr T).
Context (I : pool_inv p) (Hlive : live p id l rc).
Context (Hsrc : tiers_ p !! N.to_nat (loc_tier l) = Some src_ts) (Hdst : tiers_ p !! N.to_nat dst = Some dst_ts).
Context (Hs : ts_free_slots dst_ts = pop_back (ts_free_slots dst_ts) ++ [slot]).
Context (Hst : stored (arenas p) objs (ts_tier dst_ts, slot * block_bytes (cfg_ p))
  (bytes_at (arenas p) (ts_tier src_ts, loc_slot l * block_bytes (cfg_ p)) (block_bytes (cfg_ p)))).

Lemma moved_scratch : scratch_slot p None dst slot.
Proof. eapply free_scratch; [done..|]. rewrite Hs. set_solver. Qed.

Lemma moved_length :
  length (bytes_at (arenas p) (ts_tier src_ts, loc_slot l * block_bytes (cfg_ p)) (block_bytes (cfg_ p)))
  = N.to_nat (block_bytes (cfg_ p)).
Proof.
  destruct (slot_range_ok p _ _ _ I Hsrc (live_slot_lt p id l rc src_ts I Hlive Hsrc)) as [so Hso].
  by eapply range_length.
Qed.

Lemma moved_copies : copies_ok p → copies_ok (moved p id l src_ts dst_ts dst slot bounce objs).
Proof.
  intros C j job Hj Hd Hc. simpl in *.
  rewrite (store_dst p I None dst slot dst_ts Hdst moved_scratch objs _ moved_length Hst j job Hj) by done.
  rewrite (store_src p I None dst slot dst_ts Hdst moved_scratch objs _ moved_length Hst j job Hj Hc).
  by apply (C j).
Qed.

Lemma moved_hands : queue_kept p (moved p id l src_ts dst_ts dst slot bounce objs).
Proof. by apply (store_hands p I None dst slot dst_ts Hdst moved_scratch objs _ moved_length Hst). Qed.
End moved.

Lemma migrate_ok p id v dst :
  pool_ok p → view p id = Some v → (N.to_nat dst < length (tiers_ p))%nat →
  wp (migrate id dst) (λ ok p', pool_ok p' ∧ cfg_ p' = cfg_ p ∧
    same_shape (tiers_ p) (tiers_ p') ∧ contents_kept p p' ∧ queue_kept p p' ∧
    migrate_outcome p p' id v dst ok) p.
Proof.
  intros [I C] Hv Hdst. eapply wp_mono.
  - apply wp_conj; [by apply migrate_spec|].
    instantiate (1 := λ _ p', copies_ok p' ∧ same_shape (tiers_ p) (tiers_ p') ∧ queue_kept p p').
    pose proof (cancelled_queue p id) as Hq.
    apply view_live in Hv as (l & Hlive & Ht & Htg).
    destruct (cancelled_spec p id I) as (Ic & Hmig & _).
    destruct (cancelled_fields p id) as (Hc & Htc & Hlc & Hrc & _ & Hac & _).
    pose proof (quiet_copies p _ (cancelled_quiet p id) C) as Cc.
    assert (live (cancelled p id) id l (bv_refs v)) as Hlive' by (unfold live; by rewrite Hlc, Hrc).
    unfold migrate. wp_steps. apply wp_cancel_migration; [exact (λ j, migrating_job p id j I)|].
    wp_steps. eapply wp_locate; [exact Hlive'|]. wp_steps. set (q := cancelled p id) in *.
    assert ((size_of (tiers_ q) <=? dst) = false) as ->
      by (apply N.leb_gt; rewrite Htc; unfold size_of; lia).
    destruct (N.eqb_spec (loc_tier l) dst) as [E|E]; [wp_steps; split_and!; [done|by rewrite Htc|done]|].
    destruct (lookup_lt_is_Some_2 _ _ Hdst) as [dst_ts Hdts]. rewrite <-Htc in Hdts.
    wp_steps. eapply wp_tier_at; [exact Hdts|]. case_bool_decide as Hempty.
    { wp_steps. split_and!; [done|by rewrite Htc|done]. }
    destruct (pi_loc _ Ic _ _ _ Hlive') as [src_ts Hsts].
    destruct (back_Some _ Hempty) as (slot & Hback & Hslot).
    eapply wp_move_block; [done..|]. intros bounce objs Hst. split_and!.
    + by eapply moved_copies.
    + rewrite <-Htc. by apply same_shape_set2; [..|lia].
    + etrans; [exact Hq|]. by eapply moved_hands.
  - intros ok p'. cbv beta. intros [(?&?&?&?) (?&?&?)]. by split_and!.
Qed.

(** ** The steps of a worker *)

(** Only bytes, the cursor and [done] flags change. *)
Record worker_result p p' : Prop := {
  wr_cfg : cfg_ p' = cfg_ p;
  wr_tiers : tiers_ p' = tiers_ p;
  wr_jobs : jobs_ p' = jobs_ p;
  wr_stop : stopping_ p' = stopping_ p;
  wr_workers : workers_ p' = workers_ p;
  wr_view id : view p' id = view p id;
  wr_contents : contents_kept p p';
}.

Lemma worker_result_trans p q r : worker_result p q → worker_result q r → worker_result p r.
Proof.
  intros [A1 A2 A3 A4 A5 A6 A7] [B1 B2 B3 B4 B5 B6 B7]. constructor; try congruence.
  intros id Hid. rewrite B7, A7; [done..|]. by rewrite A6.
Qed.

Lemma claim_ok p j :
  pool_ok p → stopping_ p = false → jobs_ p !! N.to_nat (next_unclaimed_ p) = Some j →
  let p' := upd_cursor (next_unclaimed_ p + 1) p in
  pool_ok p' ∧ worker_result p p' ∧ hands_kept (Some j) p p' ∧
  ∃ job, job_heap p !! j = Some job ∧ in_hand p' j job ∧ ¬ claimed p j.
Proof.
  intros [I C] Hstop Hj p'. apply lookup_lt_Some in Hj as Hlt. destruct (pi_q _ I) as [Q1 Q2 Q3 Q4 Q5 Q6].
  assert (∃ job, job_heap p !! j = Some job) as [job Hjob] by (apply Q2; by eapply list_elem_of_lookup_2).
  assert (∀ k, claimed p' k ↔ claimed p k ∨ k = j) as Hcl.
  { intros k. unfold claimed. simpl. split.
    - intros (i & Hi & Hil). destruct (decide (N.of_nat i = next_unclaimed_ p)) as [E|].
      + right. rewrite <-E, Nat2N.id in Hj. congruence.
      + left. exists i. split; [done|lia].
    - intros [(i & Hi & Hil)| ->]; [exists i|exists (N.to_nat (next_unclaimed_ p))]; (split; [done|lia]). }
  split_and!.
  - split; [|done]. apply (pool_inv_step p p'); try done; try apply I.
    + constructor; try done.
      * simpl. unfold size_of. lia.
      * intros i k job' Hi Hk Hd. simpl. specialize (Q6 i k job' Hi Hk Hd). lia.
    + intros t ts ts' ??. by simplify_eq/=.
    + intros k job' Hk. apply (job_ok_transfer p); try done; [|by apply (pi_job _ I k)].
      intros _ l rc Hl. by exists rc.
  - by constructor.
  - apply hands_kept_same; [done..|]. intros k job' Hne. unfold in_hand. rewrite Hcl. simpl. naive_solver.
  - exists job. split_and!; [done| |].
    + split_and!; [apply Hcl; by right|done|]. destruct (job_done job) eqn:Hd; [|done].
      pose proof (Q6 _ _ _ Hj Hjob Hd). lia.
    + intros (i & Hi & Hil). rewrite (NoDup_lookup _ _ _ _ Q1 Hi Hj) in Hil. lia.
Qed.

(** The copy: the destination ends up with the source's bytes, and nothing else
    a client can see moves. *)
Lemma copied_ok p j job objs :
  pool_ok p → job_heap p !! j = Some job → job_done job = false →
  stored (arenas p) objs (job_dst job) (bytes_at (arenas p) (job_src job) (block_bytes (cfg_ p))) →
  let p' := upd_bytes (bounce_ p) objs p in
  pool_ok p' ∧ worker_result p p' ∧ hands_kept (Some j) p p' ∧
  (job_cancelled job = false →
   bytes_at objs (job_dst job) (block_bytes (cfg_ p)) = bytes_at objs (job_src job) (block_bytes (cfg_ p))).
Proof.
  intros [I C] Hj Hd Hst p'. pose proof (pi_job _ I j job Hj) as J.
  destruct (job_dst_tier_lookup p I j job Hj) as (ts & Hts & Hdst).
  pose proof (reserved_scratch p j job I Hj) as Hscr.
  destruct (jo_src_ok _ _ J) as (so & Hso & Hsok & _ & Hsr).
  destruct (jo_dst_ok _ _ J) as (do & Hdo & Hdok & _ & Hdr).
  assert (length (bytes_at (arenas p) (job_src job) (block_bytes (cfg_ p)))
          = N.to_nat (block_bytes (cfg_ p))) as Hlen by (by apply (range_length _ _ _ so)).
  pose proof Hst as Hst'. rewrite Hdst in Hst'.
  split_and!.
  - split.
    + apply (pool_inv_step p p'); try done; try apply I.
      * by eapply stored_same.
      * intros t ts1 ts2 ??. by simplify_eq/=.
      * intros k job' Hk. apply (job_ok_transfer p); try done; [by eapply stored_same| |by apply (pi_job _ I k)].
        intros _ l rc Hl. by exists rc.
    + intros k job' Hk Hd' Hc'. simpl.
      assert (Some j ≠ Some k) by (intros [= ->]; simpl in Hk; congruence).
      rewrite (store_dst p I (Some j) _ _ ts Hts Hscr objs _ Hlen Hst' k job' Hk) by done.
      rewrite (store_src p I (Some j) _ _ ts Hts Hscr objs _ Hlen Hst' k job' Hk Hc').
      by apply (C k).
  - constructor; try done. intros id Hid.
    by eapply (store_contents p I (Some j) _ _ ts Hts Hscr objs).
  - by apply (store_hands p I (Some j) _ _ ts Hts Hscr objs _ Hlen Hst').
  - intros Hc. rewrite (store_src p I (Some j) _ _ ts Hts Hscr objs _ Hlen Hst' j job Hj Hc).
    by eapply (stored_slot_same (arenas p) objs _ _ do).
Qed.

(** Raising [done] on a claimed job whose bytes are in place. *)
Lemma finish_ok p j job :
  pool_ok p → job_heap p !! j = Some job → claimed p j →
  (job_cancelled job = false →
     bytes_at (arenas p) (job_dst job) (block_bytes (cfg_ p))
     = bytes_at (arenas p) (job_src job) (block_bytes (cfg_ p))) →
  let p' := upd_queue (jobs_ p) (migrating_ p) (<[j := set_done job]> (job_heap p)) p in
  pool_ok p' ∧ worker_result p p' ∧ hands_kept (Some j) p p' ∧ (∀ job', ¬ in_hand p' j job').
Proof.
  intros [I C] Hj Hcl Hcopy p'.
  assert (∀ id, target p' id = target p id) as Htg.
  { intros id. unfold target. simpl. destruct (migrating_ p !! id) as [k|]; [|done]. simpl.
    destruct (decide (k = j)) as [->|]; [|by rewrite lookup_insert_ne].
    by rewrite lookup_insert_eq, Hj. }
  split_and!; [split|..].
  - apply (pool_inv_step p p'); try done; try apply I.
    + destruct (pi_q _ I) as [Q1 Q2 Q3 Q4 Q5 Q6]. constructor; simpl; try done.
      * intros k. rewrite Q2. destruct (decide (k = j)) as [->|];
          [rewrite lookup_insert_eq, Hj; split; eauto|by rewrite lookup_insert_ne].
      * intros k. destruct (decide (k = j)) as [->|]; [|rewrite lookup_insert_ne by done; apply Q3].
        intros _. apply Q3. by rewrite Hj.
      * intros id k. rewrite Q4. destruct (decide (k = j)) as [->|]; [|by rewrite lookup_insert_ne].
        rewrite lookup_insert_eq, Hj. split; intros (? & [= <-] & ? & ?); eauto.
      * intros i k job' Hi Hk Hd. destruct (decide (k = j)) as [->|].
        -- destruct Hcl as (i' & Hi' & Hlt). by rewrite (NoDup_lookup _ _ _ _ Q1 Hi Hi').
        -- simpl in Hk. rewrite lookup_insert_ne in Hk by done. eauto.
    + intros t ts ts' ??. simplify_eq/=.
      by rewrite (reserved_slots_insert p p' j job (set_done job) t).
    + intros k job' Hk. simpl in Hk. apply (job_ok_transfer p); try done.
      { intros _ l rc Hl. by exists rc. }
      destruct (decide (k = j)) as [->|]; [|rewrite lookup_insert_ne in Hk by done; by apply (pi_job _ I k)].
      rewrite lookup_insert_eq in Hk. simplify_eq. by destruct (pi_job _ I j job Hj).
  - intros k job' Hk Hd Hc. simpl in Hk. destruct (decide (k = j)) as [->|].
    + rewrite lookup_insert_eq in Hk. simplify_eq. by apply Hcopy.
    + rewrite lookup_insert_ne in Hk by done. by apply (C k).
  - constructor; try done. intros id. unfold view. by rewrite Htg.
  - apply hands_kept_same; [done..|]. intros k job' Hne. unfold in_hand. simpl.
    rewrite lookup_insert_ne by congruence. done.
  - intros job' (_ & Hk & Hd). simpl in Hk. rewrite lookup_insert_eq in Hk. by simplify_eq/=.
Qed.

(** [worker_claim] takes the job at the cursor, or finds none. *)
Lemma worker_claim_spec p :
  pool_ok p → stopping_ p = false →
  wp worker_claim (λ o p', match o with
    | None => p' = p ∧ next_unclaimed_ p = size_of (jobs_ p)
    | Some j => p' = upd_cursor (next_unclaimed_ p + 1) p ∧ jobs_ p !! N.to_nat (next_unclaimed_ p) = Some j ∧
        pool_ok p' ∧ worker_result p p' ∧ hands_kept (Some j) p p' ∧
        ∃ job, job_heap p !! j = Some job ∧ in_hand p' j job ∧ ¬ claimed p j
    end) p.
Proof.
  intros Ok Hstop. pose proof (pi_cursor _ _ _ _ _ (proj1 Ok)) as Hcur.
  unfold worker_claim. wp_steps. rewrite Hstop.
  destruct (N.ltb_spec (next_unclaimed_ p) (size_of (jobs_ p))) as [Hlt|Hge].
  2: { wp_steps. split; [done|lia]. }
  destruct (lookup_lt_is_Some_2 (jobs_ p) (N.to_nat (next_unclaimed_ p))) as [j Hj];
    [unfold size_of in Hlt; lia|].
  wp_steps. eapply wp_at; [done|]. wp_steps. do 2 (split; [done|]). by apply claim_ok.
Qed.

(** ** wait_for_migrations *)

Definition settle (v : BlockView) : BlockView :=
  {| bv_refs := bv_refs v; bv_tier := default (bv_tier v) (bv_target v); bv_target := None |}.

Lemma all_done_drained p p' :
  pool_ok p' → drain_result p p' →
  (∀ j job, job_heap p !! j = Some job → job_done job = true) →
  jobs_ p' = [] ∧ (∀ id, view p' id = settle <$> view p id).
Proof.
  intros [I' _] D Hall.
  assert (jobs_ p' = []) as Hnil.
  { destruct (jobs_ p') as [|j rest] eqn:Hj; [done|].
    destruct (proj1 (pi_jobs_dom _ _ _ _ _ I' j)) as [job Hjob]; [rewrite Hj; by left|].
    pose proof (dr_front _ _ D j rest job Hj Hjob).
    pose proof (Hall j job (dr_heap _ _ D j job Hjob)). congruence. }
  split; [done|]. intros id.
  assert (∀ v, view p' id = Some v → bv_target v = None) as Hnone.
  { intros v (l & _ & _ & ->)%view_live. apply target_None; [done|].
    destruct (migrating_ p' !! id) as [j|] eqn:Hj; [|done].
    apply (migrating_job p' id j I'), (pi_jobs_dom _ _ _ _ _ I') in Hj.
    rewrite Hnil in Hj. by apply not_elem_of_nil in Hj. }
  destruct (dr_view _ _ D id) as [E|(w & d & E & Hd & E')].
  - rewrite E in *. destruct (view p id) as [v|]; [|done]. simpl.
    specialize (Hnone v eq_refl). destruct v; simpl in *; subst; done.
  - rewrite E', E. simpl. unfold settle, retarget. by rewrite Hd.
Qed.

(** What waiting achieves, from the state before to the state after. *)
Record waited p p' : Prop := {
  wt_cfg : cfg_ p' = cfg_ p;
  wt_contents : contents_kept p p';
  wt_jobs : jobs_ p' = [];
  wt_free t : (tier_free p t ≤ tier_free p' t)%nat;
  wt_view id : view p' id = settle <$> view p id;
  wt_shape : same_shape (tiers_ p) (tiers_ p');
}.

Lemma worker_waited p q p' : worker_result p q → waited q p' → waited p p'.
Proof.
  intros W [A1 A2 A3 A4 A5 A6]. constructor; [by rewrite A1, (wr_cfg _ _ W)| |done| | |].
  - intros id Hid. rewrite A2, (wr_contents _ _ W); [done..|]. by rewrite (wr_view _ _ W).
  - intros t. specialize (A4 t). unfold tier_free in A4 at 1. by rewrite (wr_tiers _ _ W) in A4.
  - intros id. by rewrite A5, (wr_view _ _ W).
  - by rewrite <-(wr_tiers _ _ W).
Qed.

(** What [wait_for_migrations] waits for. *)
Definition all_done p : Prop := ∀ j job, j ∈ jobs_ p → job_heap p !! j = Some job → job_done job = true.

Lemma drain_all_done p :
  pool_ok p → all_done p → wp drain_migrations (λ _ p', pool_ok p' ∧ waited p p' ∧ queue_kept p p') p.
Proof.
  intros Ok Hall. eapply wp_mono; [by apply drain_migrations_spec|]. intros [] p' [Ok' D].
  destruct (all_done_drained p p' Ok' D) as [Hnil Hv].
  { intros j job Hj. apply (Hall j); [|done]. apply (pi_jobs_dom _ _ _ _ _ (proj1 Ok)). by eexists. }
  split_and!; [done| |apply D]. constructor; [by destruct (dr_bytes _ _ D)|apply D|done|apply D|done|apply D].
Qed.

End worker.
