(* ===== verification/PoolHands.v ===== *)
(** * Workers between their steps

    A worker's round in src/block_pool.cpp is four accesses other threads can
    come between: it claims a job, reads its [cancelled] flag, copies, and
    stores [done]. Here each is a step of its own on the pool, every thread
    [ensure_worker] started takes them in its own time, and the owner of a block
    writes to it meanwhile. Every step keeps [pool_ok]; none disturbs what
    another worker relies on. The pool at work is [running]: its triples are
    those of the turns, of the turns before a call, of waiting, with what the
    threads have to do for a wait to end, and of the destructor. *)

From S2P Require Import Prelude Types Tier BlockPool PoolInv PoolOps PoolMigrate PoolAsync PoolWorker.

Open Scope N_scope.

(** ** How much is left to do *)

Definition steps_left (o : option stage) : nat :=
  match o with Some Tests => 3 | Some Copies => 2 | Some Finishes => 1 | None => 0 end.
Definition effort (hands : gmap nat (JobPtr * stage)) : nat :=
  sum_list ((λ x, steps_left (Some x.2.2)) <$> map_to_list hands).

Lemma effort_insert hands w x :
  hands !! w = None → effort (<[w := x]> hands) = (steps_left (Some x.2) + effort hands)%nat.
Proof. intros Hw. unfold effort. by rewrite (map_to_list_insert hands w x Hw). Qed.

Lemma effort_delete hands w x :
  hands !! w = Some x → effort hands = (steps_left (Some x.2) + effort (delete w hands))%nat.
Proof.
  intros Hw. rewrite <-(insert_id _ _ _ Hw) at 1. rewrite <-insert_delete_eq.
  by apply effort_insert, lookup_delete_eq.
Qed.

Lemma effort_move hands w j st o :
  hands !! w = Some (j, st) → (effort (partial_alter (λ _, pair j <$> o) w hands) + steps_left (Some st)
    = effort hands + steps_left o)%nat.
Proof.
  intros Hw. rewrite (effort_delete _ _ _ Hw).
  assert (partial_alter (λ _, pair j <$> o) w hands = partial_alter (λ _, pair j <$> o) w (delete w hands)) as ->
    by (apply map_eq; intros k; destruct (decide (k = w)) as [->|];
        [by rewrite !lookup_partial_alter_eq|by rewrite !lookup_partial_alter_ne, lookup_delete_ne]).
  destruct o as [st'|]; simpl.
  - change (partial_alter (λ _, Some (j, st')) w (delete w hands)) with (<[w := (j, st')]> (delete w hands)).
    rewrite effort_insert by apply lookup_delete_eq. simpl. lia.
  - change (partial_alter (λ _, None) w (delete w hands)) with (delete w (delete w hands)).
    rewrite delete_delete_eq. lia.
Qed.

Lemma effort_none hands : effort hands = 0%nat → hands = ∅.
Proof.
  intros E. apply map_empty. intros w. destruct (hands !! w) as [[j st]|] eqn:Hw; [|done].
  rewrite (effort_delete _ _ _ Hw) in E. by destruct st.
Qed.

Section hands.
Context {T : Type} `{TierLaws T}.
Implicit Types (p : BlockPool T) (hands : gmap nat (JobPtr * stage)).

(** Four steps for every job nobody has claimed, and the rest of those in
    hand. *)
Definition work p : nat := (4 * (length (jobs_ p) - N.to_nat (next_unclaimed_ p)) + effort (hands_ p))%nat.

(** ** What holds between the steps *)

Definition copied p (job : MigrationJob) : Prop :=
  bytes_at (arenas p) (job_dst job) (block_bytes (cfg_ p))
  = bytes_at (arenas p) (job_src job) (block_bytes (cfg_ p)).

(** Every unfinished job behind the cursor is held by one thread, and a thread
    about to raise [done] has its bytes in place, unless it was cancelled. *)
Record hands_ok p hands : Prop := {
  hn_held j : (∃ w st, hands !! w = Some (j, st)) ↔ ∃ job, in_hand p j job;
  hn_one w w' j st st' : hands !! w = Some (j, st) → hands !! w' = Some (j, st') → w = w';
  hn_copied w j job : hands !! w = Some (j, Finishes) → in_hand p j job → job_cancelled job = false → copied p job;
}.

Lemma in_hand_inj p j job job' : in_hand p j job → in_hand p j job' → job = job'.
Proof. intros (_ & E & _) (_ & E' & _). congruence. Qed.

Lemma hands_settled p : hands_ok p ∅ ↔ settled p.
Proof.
  split.
  - intros [A _ _] j job Hj. destruct (proj2 (A j)) as (w & st & Hw); [by exists job|by rewrite lookup_empty in Hw].
  - intros S. constructor; [|by intros w ?????%lookup_empty_Some|by intros w ???%lookup_empty_Some].
    intros j. split; [by intros (w & st & ?%lookup_empty_Some)|]. by intros (job & Hj%S).
Qed.

Lemma copied_kept p p' job job' :
  cfg_ p' = cfg_ p → job_kept p p' job job' → job_cancelled job' = false → copied p job → copied p' job'.
Proof.
  intros Ec [[->| ->] K2 K3] Hc C; [|done]. unfold copied. by rewrite Ec, K2, K3.
Qed.

(** What others do leaves the copies of everybody else in place. *)
Lemma kept_copied own p p' hands w j job' :
  hands_kept own p p' → hands_ok p hands → own ≠ Some j → hands !! w = Some (j, Finishes) →
  in_hand p' j job' → job_cancelled job' = false → copied p' job'.
Proof.
  intros K [_ _ A3] Hne Hw Hj' Hcan. destruct (qk_back _ _ _ K j job' Hne Hj') as (job & Hj).
  destruct (qk_hand _ _ _ K j job Hne Hj) as (job2 & Hj2 & Hk).
  rewrite (in_hand_inj _ _ _ _ Hj' Hj2) in *. eapply copied_kept; [apply K|done..|].
  apply (A3 w j); [done..|]. destruct (jk_job _ _ _ _ Hk) as [->| ->]; done.
Qed.

Lemma kept_in_hand own p p' j :
  hands_kept own p p' → own ≠ Some j → (∃ job, in_hand p' j job) ↔ ∃ job, in_hand p j job.
Proof.
  intros K Hne. split; intros (job & Hj).
  - by eapply (qk_back _ _ _ K j).
  - destruct (qk_hand _ _ _ K j job Hne Hj) as (job' & Hj' & _). by exists job'.
Qed.

(** The thread that moves only has to answer for its own job. *)
Lemma hands_ok_move w j o p p' hands :
  hands_kept (Some j) p p' → hands_ok p hands →
  (∀ k st, hands !! w = Some (k, st) → k = j) → (∀ w' st, hands !! w' = Some (j, st) → w' = w) →
  (is_Some o ↔ ∃ job, in_hand p' j job) →
  (∀ job, o = Some Finishes → in_hand p' j job → job_cancelled job = false → copied p' job) →
  hands_ok p' (partial_alter (λ _, pair j <$> o) w hands).
Proof.
  intros K Ha Hown Honly Ho Hc. pose proof Ha as [A1 A2 A3].
  assert (∀ w' k st, partial_alter (λ _, pair j <$> o) w hands !! w' = Some (k, st) →
    w' = w ∧ k = j ∧ o = Some st ∨ w' ≠ w ∧ k ≠ j ∧ hands !! w' = Some (k, st)) as Hl.
  { intros w' k st. destruct (decide (w' = w)) as [->|Hne].
    - rewrite lookup_partial_alter_eq. destruct o; simpl; intros [= <- <-]. by left.
    - rewrite lookup_partial_alter_ne by done. intros Hk. right. split_and!; [done| |done].
      intros ->. apply Hne. by eapply Honly. }
  constructor.
  - intros k. destruct (decide (k = j)) as [->|Hne].
    + rewrite <-Ho. split.
      * intros (w' & st & [(_ & _ & ->)|(_ & [] & _)]%Hl); done.
      * intros [st ->]. exists w, st. by rewrite lookup_partial_alter_eq.
    + rewrite (kept_in_hand _ p p' k K) by congruence. rewrite <-A1. split; intros (w' & st & Hw').
      * apply Hl in Hw' as [(_ & ? & _)|(_ & _ & ?)]; [done|eauto].
      * exists w', st. rewrite lookup_partial_alter_ne; [done|]. intros ->. by apply Hne, (Hown k st).
  - intros w1 w2 k st st' [(-> & -> & _)|(H1 & H1' & H1'')]%Hl [(-> & E & _)|(H2 & H2' & H2'')]%Hl;
      [done|done|done|by eapply A2].
  - intros w' k job [(_ & -> & Hf)|(_ & Hne & Hw')]%Hl Hj Hcan; [by apply Hc|].
    apply (kept_copied (Some j) p p' hands w' k job); [done|done|congruence|done..].
Qed.

Lemma hands_ok_kept p p' hands : queue_kept p p' → hands_ok p hands → hands_ok p' hands.
Proof.
  intros K Ha. pose proof Ha as [A1 A2 A3]. constructor; [|done|].
  - intros j. by rewrite A1, (kept_in_hand None p p' j K).
  - intros w j job Hw Hj Hc. by eapply (kept_copied None).
Qed.

(** ** The steps *)

(** An idle thread takes the next job, if there is one. *)
Lemma claim_hand w p hands :
  pool_ok p → stopping_ p = false → hands_ok p hands → hands !! w = None →
  wp worker_claim (λ o p', pool_ok p' ∧ worker_result p p' ∧ hands_ p' = hands_ p ∧
    match o with
    | None => p' = p ∧ next_unclaimed_ p = size_of (jobs_ p)
    | Some j => hands_ok p' (<[w := (j, Tests)]> hands) ∧ next_unclaimed_ p < size_of (jobs_ p) ∧
        next_unclaimed_ p' = next_unclaimed_ p + 1
    end) p.
Proof.
  intros Ok Hst Ha Hw. eapply wp_mono; [by apply worker_claim_spec|].
  intros [j|] p'; [|by intros [-> E]]. intros (Ep & Hj & Ok' & R & K & job & Hjob & Hin & Hn).
  split_and!; [done..|apply K| | |by subst].
  2: { apply lookup_lt_Some in Hj. unfold size_of. lia. }
  apply (hands_ok_move w j (Some Tests) p p' hands K Ha); [congruence| |split; [by eexists|by eexists]|done].
  intros w' st Hw'. destruct (proj1 (hn_held _ _ Ha j)) as (job' & Hcl & _); [by eauto|]. done.
Qed.

(** A step of a thread that holds a job: it always can, whatever the others
    have done in the meantime. *)
Lemma step_hand w j st p hands :
  pool_ok p → hands_ok p hands → hands !! w = Some (j, st) →
  wp (hand_step j st) (λ o p', pool_ok p' ∧ worker_result p p' ∧ hands_ p' = hands_ p ∧
    next_unclaimed_ p' = next_unclaimed_ p ∧
    hands_ok p' (partial_alter (λ _, pair j <$> o) w hands) ∧ (steps_left o < steps_left (Some st))%nat) p.
Proof.
  intros Ok Ha Hst. destruct (proj1 (hn_held _ _ Ha j)) as [job Hin]; [by eauto|].
  assert (∀ o p', hands_kept (Some j) p p' → (is_Some o ↔ ∃ job, in_hand p' j job) →
    (∀ job, o = Some Finishes → in_hand p' j job → job_cancelled job = false → copied p' job) →
    hands_ok p' (partial_alter (λ _, pair j <$> o) w hands)) as Hmove.
  { intros o p' K Ho Hc. apply (hands_ok_move w j o p p' hands K Ha); [intros k st' E; congruence| |done|done].
    intros w' st' E. by eapply (hn_one _ _ Ha w' w). }
  pose proof Hin as (Hcl & Hj & Hnd). destruct st; unfold hand_step; wp_step.
  - eapply wp_job_at; [done|]. wp_steps. split_and!; [done|by constructor|done|done| |by destruct (job_cancelled job); simpl; lia].
    apply Hmove; [done|naive_solver|].
    intros job' E Hin'. rewrite (in_hand_inj _ _ _ _ Hin' Hin). by destruct (job_cancelled job).
  - eapply wp_job_at; [done|]. wp_step.
    destruct (pi_job _ (proj1 Ok) j job Hj) as [_ Hb (d & Hd & Hdok & Hdh & Hdr) (s & Hs & Hsok & Hsh & Hsr) _].
    rewrite Hb. eapply (wp_memcpy _ _ _ s d); [done..|]. intros objs Hst'. wp_steps.
    destruct (copied_ok p j job objs Ok Hj Hnd Hst') as (Ok' & R & K & Hc). split_and!; [done|done|apply K|done| |simpl; lia].
    apply Hmove; [done| |].
    + split; [|by eexists]. intros _. by exists job.
    + intros job' _ Hin' Hcan. rewrite (in_hand_inj _ _ _ _ Hin' Hin) in *. by apply Hc.
  - unfold worker_finish. wp_steps. eapply wp_job_at; [done|]. wp_steps.
    destruct (finish_ok p j job Ok Hj Hcl) as (Ok' & R & K & Hout).
    { intros Hcan. by apply (hn_copied _ _ Ha w j). }
    split_and!; [done|done|apply K|done| |simpl; lia]. apply Hmove; [done| |done].
    split; [by intros []|]. intros (job' & Hj'). by destruct (Hout job').
Qed.

(** ** Turns *)

(** The threads are where the pool says they are, told to stop or not. *)
Record manned p : Prop := {
  mn_ok : pool_ok p;
  mn_hands : hands_ok p (hands_ p);
  mn_range w : is_Some (hands_ p !! w) → N.of_nat w < workers_ p;
}.

(** A pool at work: its invariant holds, the program counters of the workers
    are right, there are workers for what is queued, and nobody has told them
    to stop. *)
Record running p : Prop := {
  rn_manned : manned p;
  rn_staffed : staffed p;
  rn_stop : stopping_ p = false;
}.

Lemma rn_ok p : running p → pool_ok p.
Proof. intros [[]]. done. Qed.

Lemma running_inv p : running p → pool_inv p.
Proof. intros [[[I _] _ _] _ _]. exact I. Qed.

Lemma pool_inv_workers hands turns p : pool_inv p → pool_inv (upd_workers hands turns p).
Proof. intros [I1 I2 I3 I4 I5 I6]. constructor; [done..|]. intros j job Hj. destruct (I6 j job Hj). by constructor. Qed.

Lemma hands_ok_workers hands turns p h : hands_ok p h → hands_ok (upd_workers hands turns p) h.
Proof. intros [A B C]. by constructor. Qed.

Lemma manned_workers hands turns p :
  pool_ok p → hands_ok p hands → (∀ w, is_Some (hands !! w) → N.of_nat w < workers_ p) →
  manned (upd_workers hands turns p).
Proof.
  intros [I C] Ha Hr. constructor; [|by apply hands_ok_workers|done]. split; [by apply pool_inv_workers|done].
Qed.

Lemma running_turns turns p : running p → running (upd_workers (hands_ p) turns p).
Proof. intros [[Ok Ha Hr] Hw Hs]. constructor; [by apply manned_workers|done..]. Qed.

Lemma worker_result_workers hands turns p q : worker_result p q → worker_result p (upd_workers hands turns q).
Proof. intros [W1 W2 W3 W4 W5 W6 W7]. by constructor. Qed.

Lemma running_worker p p' : running p → manned p' → worker_result p p' → running p'.
Proof.
  intros [_ Hw Hs] Mn R. constructor; [done| |by rewrite (wr_stop _ _ R)].
  unfold staffed. by rewrite (wr_jobs _ _ R), (wr_workers _ _ R).
Qed.

Lemma running_kept p p' : running p → pool_ok p' → queue_kept p p' → running p'.
Proof.
  intros [[Ok Ha Hr] Hw Hs] Ok' K. pose proof (qk_workers _ _ _ K).
  constructor; [constructor; [done|..]|by apply (qk_staffed _ _ _ K)|by rewrite (qk_stop _ _ _ K)];
    rewrite (qk_hands _ _ _ K); [by eapply hands_ok_kept|]. intros w Hw'. specialize (Hr w Hw'). lia.
Qed.

Lemma quiet_running p p' : running p → pool_inv p' → quiet p p' → running p'.
Proof.
  intros R I Q. eapply running_kept; [done| |apply Q]. split; [done|]. eapply quiet_copies; [done|by apply rn_ok].
Qed.

(** No worker has claimed anything yet. *)
Lemma running_idle p :
  pool_ok p → hands_ p = ∅ → next_unclaimed_ p = 0 → stopping_ p = false → staffed p → running p.
Proof.
  intros Ok Eh Ec Hs Hw. constructor; [constructor; [done|..]|done|done]; rewrite Eh.
  - apply hands_settled. intros j job [(i & _ & Hlt) _]. lia.
  - intros w. rewrite lookup_empty. by intros [].
Qed.

(** Thread [w] has nothing to do. *)
Definition resting w p : Prop :=
  N.of_nat w < workers_ p → hands_ p !! w = None ∧ (stopping_ p = true ∨ next_unclaimed_ p = size_of (jobs_ p)).

(** A turn brings the end closer, or there was nothing to do. Told to stop, a
    thread is closer to its own end. *)
Record turn_result w p p' : Prop := {
  tt_manned : manned p';
  tt_worker : worker_result p p';
  tt_work : (work p' < work p)%nat ∨ p' = p ∧ resting w p;
  tt_others w' : w' ≠ w → hands_ p' !! w' = hands_ p !! w';
  tt_ends : stopping_ p = true →
    (steps_left (snd <$> hands_ p' !! w) <= pred (steps_left (snd <$> hands_ p !! w)))%nat;
}.

(** Every thread can take its turn at any time. *)
Lemma take_turn_spec w p : manned p → wp (take_turn w) (λ _ p', turn_result w p p') p.
Proof.
  intros Mn. pose proof Mn as [Ok Ha Hr]. unfold take_turn. wp_step. wp_step.
  destruct (N.leb_spec (workers_ p) (N.of_nat w)) as [Hle|Hlt].
  { wp_steps. assert (hands_ p !! w = None) as E
      by (destruct (hands_ p !! w) eqn:E; [pose proof (Hr w ltac:(by eexists)); lia|done]).
    constructor; [done|by constructor|right; split; [done|intros ?; lia]|done|by rewrite E]. }
  destruct (hands_ p !! w) as [[j st]|] eqn:Hw; wp_step.
  - eapply wp_mono; [by apply (step_hand w j st p (hands_ p))|]. intros o p' (Ok' & R & Eh & Ec & Ha' & Hlo). wp_steps.
    rewrite Eh. constructor.
    + apply manned_workers; [done..|]. rewrite (wr_workers _ _ R). intros w'. destruct (decide (w' = w)) as [->|]; [done|].
      rewrite lookup_partial_alter_ne by done. apply Hr.
    + by apply worker_result_workers.
    + left. pose proof (effort_move _ _ _ _ o Hw). unfold work. cbn. rewrite (wr_jobs _ _ R), Ec. lia.
    + intros w' Hne. cbn. by rewrite lookup_partial_alter_ne.
    + intros _. cbn. rewrite lookup_partial_alter_eq, Hw. simpl. destruct o; simpl in *; lia.
  - destruct (stopping_ p) eqn:Hs.
    { unfold worker_claim. wp_steps. rewrite Hs. wp_steps.
      constructor; [done|by constructor|right; split; [done|intros _; split; [done|by left]]|done|by rewrite Hw]. }
    eapply wp_mono; [by apply (claim_hand w p (hands_ p))|]. intros [j|] p' (Ok' & R & Eh & Ho); wp_steps.
    + destruct Ho as (Ha' & Hq & Ec). rewrite Eh. constructor.
      * apply manned_workers; [done..|]. rewrite (wr_workers _ _ R). intros w'. destruct (decide (w' = w)) as [->|]; [done|].
        rewrite lookup_insert_ne by done. apply Hr.
      * by apply worker_result_workers.
      * left. unfold work. cbn. rewrite (wr_jobs _ _ R), Ec, effort_insert by done. unfold size_of in Hq. simpl. lia.
      * intros w' Hne. cbn. by rewrite lookup_insert_ne.
      * congruence.
    + destruct Ho as [-> E]. constructor; [done|by constructor|right; split; [done|intros _; split; [done|by right]]|done|congruence].
Qed.

(** Any sequence of turns. *)
Lemma take_turns_spec ts p :
  running p → wp (for_each ts take_turn) (λ _ p', running p' ∧ worker_result p p' ∧
    ((work p' < work p)%nat ∨ p' = p ∧ ∀ w, w ∈ ts → resting w p)) p.
Proof.
  intros Rn. apply (wp_for_each _ (λ pre _ p', running p' ∧ worker_result p p' ∧
    ((work p' < work p)%nat ∨ p' = p ∧ ∀ w, w ∈ pre → resting w p))).
  { split_and!; [done|by constructor|right]. split; [done|]. by intros w ?%not_elem_of_nil. }
  intros pre w suf q _ (Rq & Wq & Hq). eapply wp_mono; [by apply take_turn_spec, rn_manned|].
  intros [] p' [Mn W Hw _ _]. split_and!; [by eapply running_worker|by eapply worker_result_trans|].
  destruct Hw as [Hlt|[-> Hrest]]; [left; destruct Hq as [|[-> _]]; lia|]. destruct Hq as [|[-> Hpre]]; [by left|right].
  split; [done|]. intros w' [?| ->%list_elem_of_singleton]%elem_of_app; [by apply Hpre|done].
Qed.

Lemma preempt_spec p :
  running p → wp preempt (λ _ p', running p' ∧ worker_result p p' ∧ (work p' <= work p)%nat) p.
Proof.
  intros Rn. unfold preempt. wp_steps. destruct (turns_ p) as [|ts rest]; wp_steps; [by split_and!|].
  eapply wp_mono; [by apply take_turns_spec, running_turns|]. intros [] p' (Rp & W & Hw). split_and!; [done| |].
  - eapply worker_result_trans; [|exact W]. by apply worker_result_workers.
  - change (work p) with (work (upd_workers (hands_ p) rest p)). destruct Hw as [|[-> _]]; lia.
Qed.

Lemma wp_preempt (Q : () → BlockPool T → Prop) p :
  running p → (∀ p', running p' → worker_result p p' → Q () p') → wp preempt Q p.
Proof. intros Rn HQ. eapply wp_mono; [by apply preempt_spec|]. intros [] p' (Rp & W & _). by apply HQ. Qed.

(** ** How the workers get to the end *)

(** Each of the [n] threads has a turn. *)
Definition round_of (n : N) (ts : list nat) : Prop := ∀ w, N.of_nat w < n → w ∈ ts.

(** A pool whose threads all rest has nothing left to do. *)
Lemma resting_all p : running p → (∀ w, N.of_nat w < workers_ p → resting w p) → work p = 0%nat.
Proof.
  intros [[Ok Ha Hr] Hw Hs] Hrest. unfold work.
  assert (hands_ p = ∅) as ->.
  { apply map_empty. intros w. destruct (hands_ p !! w) as [x|] eqn:E; [|done].
    pose proof (Hr w ltac:(by eexists)) as Hlt. destruct (Hrest w Hlt Hlt). congruence. }
  change (effort ∅) with 0%nat. destruct (decide (jobs_ p = [])) as [->|Hj]; [done|].
  specialize (Hw Hj). destruct (Hrest 0%nat) as [_ [|E]]; [lia|lia|congruence|]. rewrite E. unfold size_of. lia.
Qed.

(** Each round of turns gets something done. *)
Lemma rounds_spec rounds p :
  running p → Forall (round_of (workers_ p)) rounds →
  wp (for_each (concat rounds) take_turn) (λ _ p', running p' ∧ worker_result p p' ∧
    (work p' <= work p - length rounds)%nat) p.
Proof.
  revert p. induction rounds as [|ts rounds IH]; intros p Rn Hall; cbn [concat length].
  { cbn [for_each]. wp_steps. split_and!; [done|by constructor|lia]. }
  apply Forall_cons in Hall as [Hts Hall]. unfold wp. rewrite for_each_app. fold (wp (for_each ts take_turn ;; for_each (concat rounds) take_turn)
    (λ _ p', running p' ∧ worker_result p p' ∧ (work p' <= work p - S (length rounds))%nat) p).
  wp_step. eapply wp_mono; [by apply take_turns_spec|]. intros [] q (Rq & W & Hq).
  assert (work q <= pred (work p))%nat as Hlt.
  { destruct Hq as [|[-> Hrest]]; [lia|]. rewrite (resting_all p Rn); [lia|]. intros w Hw. by apply Hrest, Hts. }
  eapply wp_mono; [apply IH; [done|by rewrite (wr_workers _ _ W)]|].
  intros [] p' (Rp & W' & Hp). split_and!; [done|by eapply worker_result_trans|lia].
Qed.

(** With nothing left to do every job is done and nobody holds one. *)
Lemma work_done p : running p → work p = 0%nat → all_done p ∧ hands_ p = ∅.
Proof.
  intros Rn E. unfold work in E. assert (hands_ p = ∅) as Eh by (apply effort_none; lia). split; [|done].
  intros j job [i Hi]%list_elem_of_lookup Hj. destruct (job_done job) eqn:Hd; [done|exfalso].
  pose proof (mn_hands _ (rn_manned _ Rn)) as Ha. rewrite Eh in Ha. apply hands_settled in Ha.
  apply (Ha j job). split_and!; [|done..]. exists i. split; [done|]. apply lookup_lt_Some in Hi. lia.
Qed.

(** ** Waiting *)

(** Some job is unfinished after all these turns. *)
Definition stalled p (tss : list (list nat)) : Prop :=
  ∃ q, for_each (concat tss) take_turn p = Ok ((), q) ∧ ¬ all_done q.

(** The turns contain as many rounds, one after the other, as there is work. *)
Definition patient p (tss : list (list nat)) : Prop :=
  ∃ rounds rest, concat tss = concat rounds ++ rest ∧ (work p <= length rounds)%nat ∧
    Forall (round_of (workers_ p)) rounds.

Lemma patient_done p tss : running p → patient p tss → ¬ stalled p tss.
Proof.
  intros Rn (rounds & rest & E & Hn & Hall) (q & Hrun & Hq). rewrite E, for_each_app in Hrun. apply Hq.
  refine (wp_run _ (λ _ q, all_done q) _ _ _ _ Hrun). wp_step. eapply wp_mono; [by apply rounds_spec|].
  intros [] r (Rr & _ & Hr). eapply wp_mono; [by apply take_turns_spec|]. intros [] q' (Rq & _ & Hq').
  apply work_done; [done|]. destruct Hq' as [|[-> _]]; lia.
Qed.

Lemma jobs_done_spec jobs p :
  (∀ j, j ∈ jobs → is_Some (job_heap p !! j)) →
  wp (jobs_done jobs) (λ b q, q = p ∧ (b = true ↔ ∀ j job, j ∈ jobs → job_heap p !! j = Some job → job_done job = true)) p.
Proof.
  induction jobs as [|j jobs IH]; intros Hj; cbn [jobs_done].
  { wp_steps. split; [done|]. split; [|done]. by intros _ j job ?%not_elem_of_nil. }
  destruct (Hj j) as [job E]; [by left|]. wp_step. eapply wp_job_at; [done|]. destruct (job_done job) eqn:Hd.
  - eapply wp_mono; [apply IH; intros; apply Hj; by right|]. intros b q [-> Hb]. split; [done|]. rewrite Hb.
    setoid_rewrite elem_of_cons. split; [|by eauto]. intros Hall k job' [->|Hk] Hk'; [by simplify_eq|by eapply Hall].
  - wp_steps. split; [done|]. split; [done|]. intros Hall. by rewrite (Hall j job) in Hd by (done || by left).
Qed.

Lemma wp_jobs_done p :
  running p → wp (jobs_done (jobs_ p)) (λ b q, q = p ∧ (b = true ↔ all_done p)) p.
Proof.
  intros Rn. apply jobs_done_spec. intros j. apply (pi_jobs_dom _ _ _ _ _ (running_inv _ Rn)).
Qed.

(** The scheduler is let go with every job done, or never, when the workers had
    not finished at its last wakeup. *)
Lemma awaken_spec tss p :
  running p → wp_unless (stalled p tss) (awaken tss) (λ _ q, running q ∧ worker_result p q ∧ all_done q) p.
Proof.
  revert p. induction tss as [|ts tss IH]; intros p Rn; cbn [awaken].
  - apply wp_unless_then, wp_get, wp_unless_then. eapply wp_mono; [by apply wp_jobs_done|].
    intros d q [-> Hd]. destruct d; [|exists p; split; [done|]; by rewrite <-Hd].
    split_and!; [done|by constructor|by apply Hd].
  - apply wp_unless_then, wp_get, wp_unless_then. eapply wp_mono; [by apply wp_jobs_done|].
    intros d q [-> Hd]. destruct d; [split_and!; [done|by constructor|by apply Hd]|].
    destruct (wp_result _ _ _ (take_turns_spec ts p Rn)) as ([] & q & E & Rq & W & _).
    apply wp_unless_then. eapply wp_ok; [exact E|]. eapply wp_unless_mono; [by apply IH|..].
    + intros (r & Hr & Hn). exists r. split; [|done]. cbn [concat]. rewrite for_each_app. unfold mbind, M_bind. by rewrite E.
    + intros [] r (Rr & W' & Hall). split_and!; [done|by eapply worker_result_trans|done].
Qed.

(** The drain after any turns that leave every job done. *)
Lemma drain_after p q :
  running q → worker_result p q → all_done q → wp drain_migrations (λ _ p', running p' ∧ waited p p') q.
Proof.
  intros Rq W Hall. eapply wp_mono; [apply drain_all_done; [by apply rn_ok|done]|].
  intros [] p' (Ok' & Hw & K). split; [by eapply running_kept|by eapply worker_waited].
Qed.

(** In whatever order the workers get there. *)
Lemma wait_any_order ts p q :
  running p → for_each ts take_turn p = Ok ((), q) → all_done q →
  wp drain_migrations (λ _ p', running p' ∧ waited p p') q.
Proof.
  intros Rn E Hall. destruct (wp_run _ _ _ _ _ (take_turns_spec ts p Rn) E) as (Rq & W & _).
  by apply drain_after.
Qed.

Section wait.
Context `{Wk : Wakes T}.

(** In every wait, every thread gets as many turns before the last wakeup as
    there are steps left to take: no thread is starved, and the notification
    that follows the last [done] is not lost. *)
Definition fair : Prop := ∀ p, running p → patient p (wakes p).

(** Waiting gets every job finished, and every block to where it was headed,
    unless it does not end. *)
Lemma wait_for_migrations_spec p :
  running p →
  wp_unless (stalled p (wakes p)) wait_for_migrations (λ _ p', running p' ∧ waited p p') p.
Proof.
  intros Rn. unfold wait_for_migrations. apply wp_unless_then, wp_get, wp_unless_bind.
  eapply wp_unless_mono; [by apply awaken_spec|done|]. intros [] q (Rq & W & Hall).
  by apply wp_unless_wp, drain_after.
Qed.

Lemma wait_unless_fair p :
  running p → wp_unless (¬ fair) wait_for_migrations (λ _ p', running p' ∧ waited p p') p.
Proof.
  intros Rn. eapply wp_unless_mono; [by apply wait_for_migrations_spec| |done].
  intros Hst F. by apply (patient_done p (wakes p) Rn); [apply F|].
Qed.
End wait.

(** Threads that take turns. *)
Definition round_robin : Wakes T := λ p, replicate (work p) (seq 0 (N.to_nat (workers_ p))).

Lemma round_robin_fair : fair (Wk := round_robin).
Proof.
  intros p _. exists (round_robin p), []. unfold wakes, round_robin.
  split_and!; [by rewrite app_nil_r|by rewrite length_replicate|].
  apply Forall_replicate. intros w Hw. apply elem_of_seq. lia.
Qed.

(** ** The schedule, and the destructor *)

Lemma schedule_spec ts p : running p → wp (schedule ts) (λ _ p', running p' ∧ worker_result p p') p.
Proof.
  intros Rn. unfold schedule. wp_steps. split; [by apply running_turns|].
  by apply worker_result_workers.
Qed.

(** Nobody looks at the number of threads, or whether they are stopping. *)
Lemma upd_threads_ok p w b : pool_ok p → pool_ok (upd_threads w b p).
Proof.
  intros [[I1 I2 I3 I4 I5 I6] C]. split; [|exact C]. constructor; try done.
  intros j job Hj. destruct (I6 j job Hj). by constructor.
Qed.

Lemma upd_threads_hands p w b hands : hands_ok p hands → hands_ok (upd_threads w b p) hands.
Proof. intros [A1 A2 A3]. by constructor. Qed.

(** A thread that is told to stop ends. *)
Lemma join_spec w p :
  manned p → stopping_ p = true →
  wp (join w) (λ _ p', manned p' ∧ worker_result p p' ∧ hands_ p' !! w = None ∧
    ∀ w', w' ≠ w → hands_ p' !! w' = hands_ p !! w') p.
Proof.
  intros Mn Hs. unfold join. cbn [replicate for_each].
  wp_step. eapply wp_mono; [by apply take_turn_spec|]. intros [] p1 [M1 W1 _ O1 E1]. specialize (E1 Hs).
  wp_step. eapply wp_mono; [by apply take_turn_spec|]. intros [] p2 [M2 W2 _ O2 E2]. rewrite (wr_stop _ _ W1) in E2. specialize (E2 Hs).
  wp_step. eapply wp_mono; [by apply take_turn_spec|]. intros [] p3 [M3 W3 _ O3 E3].
  rewrite (wr_stop _ _ W2), (wr_stop _ _ W1) in E3. specialize (E3 Hs). wp_steps.
  split_and!; [done|by do 2 (eapply worker_result_trans; [done|])| |intros w' Hne; by rewrite O3, O2, O1].
  assert (steps_left (snd <$> hands_ p !! w) <= 3)%nat by (destruct (hands_ p !! w) as [[? []]|]; simpl; lia).
  destruct (hands_ p3 !! w) as [[? []]|]; [..|done]; simpl in E3; lia.
Qed.

(** When the destructor's joins return no worker holds a job. *)
Lemma stop_spec p :
  running p → wp stop (λ _ p', pool_ok p' ∧ (∀ id, view p' id = view p id) ∧
    stopping_ p' = true ∧ hands_ p' = ∅) p.
Proof.
  intros [[Ok Ha Hr] Hw Hs]. unfold stop. wp_steps. set (q := upd_threads (workers_ p) true p).
  assert (manned q) as Mq by (constructor; [by apply upd_threads_ok|by apply upd_threads_hands|done]).
  eapply wp_mono; [apply (wp_for_each _ (λ pre _ r, manned r ∧ worker_result q r ∧
    ∀ w, hands_ r !! w = if decide (w ∈ pre) then None else hands_ p !! w))|].
  - split_and!; [done|by constructor|]. intros w. by rewrite decide_False by apply not_elem_of_nil.
  - intros pre w suf r _ (Mr & Wr & Hh). eapply wp_mono; [apply (join_spec w); [done|by rewrite (wr_stop _ _ Wr)]|].
    intros [] r' (Mr' & Wr' & Hn & Ho). split_and!; [done|by eapply worker_result_trans|]. intros w'.
    destruct (decide (w' = w)) as [->|Hne]; [rewrite decide_True by set_solver; done|].
    rewrite Ho, Hh by done. apply decide_ext. set_solver.
  - intros [] r (Mr & Wr & Hh). split_and!; [apply Mr|intros id; by rewrite (wr_view _ _ Wr)|by rewrite (wr_stop _ _ Wr)|].
    apply map_empty. intros w. rewrite Hh. case_decide as Hin; [done|].
    destruct (hands_ p !! w) eqn:E; [|done]. destruct Hin. apply elem_of_seq.
    pose proof (Hr w ltac:(by eexists)). cbn [workers_ upd_threads q]. lia.
Qed.

(** ** The owner of a block writes to it *)

(** What a client does through the pointer it gets from [block_data]. *)
Definition write_block (id : BlockId) (bs : list byte) : M (BlockPool T) () :=
  ptr ← block_data id;
  match ptr with
  | None => fail (BadPointer "block_data")
  | Some (arena, off) =>
      t ← tier_obj arena;
      modify (λ p, upd_bytes (bounce_ p) (<[arena := host_store off bs t]> (arenas p)) p)
  end.

(** A block that stays where it is, in an addressable tier. *)
Definition writable p (id : BlockId) : Prop :=
  (∃ v, view p id = Some v ∧ bv_target v = None) ∧ ∃ ptr, block_data id p = Ok (Some ptr, p).

Section write.
Context p (I : pool_inv p) (id : BlockId) (l : Location) (rc : N) (ts : TierState).
Context (Hlive : live p id l rc) (Htg : migrating_ p !! id = None).
Context (Hts : tiers_ p !! N.to_nat (loc_tier l) = Some ts).
Context (objs : gmap TierPtr T) (bs : list byte).
Context (Hlen : length bs = N.to_nat (block_bytes (cfg_ p))).
Context (Hst : stored (arenas p) objs (ts_tier ts, loc_slot l * block_bytes (cfg_ p)) bs).

Lemma write_other t ts' s :
  tiers_ p !! N.to_nat t = Some ts' → s < ts_num_blocks ts' → (loc_tier l, loc_slot l) ≠ (t, s) →
  bytes_at objs (ts_tier ts', s * block_bytes (cfg_ p)) (block_bytes (cfg_ p))
  = bytes_at (arenas p) (ts_tier ts', s * block_bytes (cfg_ p)) (block_bytes (cfg_ p)).
Proof.
  intros Ht Hs Hne. eapply (stored_slot_other p objs (loc_tier l) ts (loc_slot l)); try done.
  by eapply live_slot_lt.
Qed.

Lemma write_live id' l' rc' ts' :
  live p id' l' rc' → id' ≠ id → tiers_ p !! N.to_nat (loc_tier l') = Some ts' →
  bytes_at objs (ts_tier ts', loc_slot l' * block_bytes (cfg_ p)) (block_bytes (cfg_ p))
  = bytes_at (arenas p) (ts_tier ts', loc_slot l' * block_bytes (cfg_ p)) (block_bytes (cfg_ p)).
Proof.
  intros Hl' Hne Hts'. eapply write_other; [done|by eapply live_slot_lt|]. intros [= E1 E2].
  apply Hne. symmetry. by eapply (live_slot_inj p id id').
Qed.

Lemma write_dst j job :
  job_heap p !! j = Some job →
  bytes_at objs (job_dst job) (block_bytes (cfg_ p)) = bytes_at (arenas p) (job_dst job) (block_bytes (cfg_ p)).
Proof.
  intros Hj. destruct (reserved_scratch p j job I Hj) as (ts' & Hts' & Hlt & Hn & _).
  pose proof (jo_dst _ _ (pi_job _ I j job Hj)) as Hd. apply slot_addr_lookup in Hd as (ts2 & ? & ->). simplify_eq.
  eapply write_other; [done..|]. intros [= E1 E2]. apply Hn, live_slots_elem. rewrite <-E2. eauto 10.
Qed.

Lemma write_src j job :
  job_heap p !! j = Some job → job_cancelled job = false →
  bytes_at objs (job_src job) (block_bytes (cfg_ p)) = bytes_at (arenas p) (job_src job) (block_bytes (cfg_ p)).
Proof.
  intros Hj Hc. destruct (jo_live _ _ (pi_job _ I j job Hj) Hc) as (l' & rc' & Hl & _ & Ha).
  apply slot_addr_lookup in Ha as (ts' & Hts' & ->). eapply write_live; [done| |done].
  intros E. assert (migrating_ p !! id = Some j); [|congruence].
  apply (pi_mig _ _ _ _ _ I). eauto.
Qed.

Let p' := upd_bytes (bounce_ p) objs p.

Lemma written_ok : copies_ok p → pool_ok p' ∧ queue_kept p p' ∧ (∀ x, view p' x = view p x).
Proof.
  intros C. split_and!; [split|..].
  - apply (pool_inv_step p p'); try done; try apply I.
    + by eapply stored_same.
    + intros t ts1 ts2 ??. by simplify_eq/=.
    + intros k job Hk. apply (job_ok_transfer p); try done; [by eapply stored_same| |by apply (pi_job _ I k)].
      intros _ l0 rc0 Hl. by exists rc0.
  - intros j job Hj Hd Hc. simpl in *. rewrite (write_dst j job Hj), (write_src j job Hj Hc). by apply (C j).
  - constructor; [done|done|done|simpl; lia|done|intros j job _ Hj; by exists job|]. intros j job _ Hj. exists job. split; [done|].
    destruct Hj as (_ & Hj & _). constructor; [by left|by apply (write_dst j)|by apply (write_src j)].
  - done.
Qed.

Lemma written_contents id' :
  is_Some (view p id') → block_contents p' id' = if decide (id' = id) then Some bs else block_contents p id'.
Proof.
  intros (l' & rc' & Hl')%view_live_1. destruct (pi_loc _ I _ _ _ Hl') as [ts' Hts'].
  pose proof Hl' as (El & _). unfold block_contents, slot_addr. simpl. rewrite El. simpl. rewrite Hts'. simpl.
  case_decide as E; f_equal; [|by eapply write_live]. subst id'. destruct Hlive as (El' & _). simplify_eq.
  destruct (slot_range_ok p (loc_tier l') ts (loc_slot l') I Hts) as [t Hr]; [by eapply live_slot_lt|].
  by eapply stored_slot_same.
Qed.
End write.

(** Writing to a block one owns changes its bytes and nothing else, whatever
    copies are under way. *)
Lemma write_block_spec id bs p hands :
  pool_ok p → hands_ok p hands → writable p id → length bs = N.to_nat (block_bytes (cfg_ p)) →
  wp (write_block id bs) (λ _ p', pool_ok p' ∧ hands_ok p' hands ∧ queue_kept p p' ∧ tiers_ p' = tiers_ p ∧
    (∀ x, view p' x = view p x) ∧
    ∀ x, is_Some (view p x) → block_contents p' x = if decide (x = id) then Some bs else block_contents p x) p.
Proof.
  intros [I C] Ha [(v & (l & Hlive & _ & Htg)%view_live & Hn) [ptr Hptr]] Hlen.
  rewrite Htg in Hn. apply (target_None p id I) in Hn.
  destruct (pi_loc _ I _ _ _ Hlive) as [ts Hts].
  pose proof (live_slot_lt p id l _ ts I Hlive Hts) as Hlt.
  destruct (slot_offset_bound p I _ _ _ Hts Hlt) as (t & Ht & Htok & Hb & Hw).
  assert (is_Some (host_data t) ∧ ptr = (ts_tier ts, loc_slot l * block_bytes (cfg_ p))) as [Hh ->].
  { eapply (wp_run (block_data id) (λ o _, match o with
      | Some x => is_Some (host_data t) ∧ x = (ts_tier ts, loc_slot l * block_bytes (cfg_ p))
      | None => True end) p (Some ptr) p); [|exact Hptr].
    unfold block_data. wp_steps. eapply wp_locate; [done|]. wp_steps. eapply wp_tier_at; [done|]. wp_steps.
    eapply wp_tier_obj; [done|]. wp_steps. destruct (host_data t) eqn:E; wp_steps; [|done].
    split; [by eexists|]. by rewrite Hw. }
  unfold write_block. wp_step. eapply wp_ok; [exact Hptr|]. cbv beta iota. wp_step. eapply wp_tier_obj; [done|]. wp_steps.
  assert (stored (arenas p) (<[ts_tier ts := host_store (loc_slot l * block_bytes (cfg_ p)) bs t]> (arenas p))
    (ts_tier ts, loc_slot l * block_bytes (cfg_ p)) bs) as Hst.
  { destruct (host_store_law t (loc_slot l * block_bytes (cfg_ p)) bs) as (L1 & L2 & L3 & L4); [done..| |].
    { unfold size_of. rewrite Hlen, N2Nat.id. exact Hb. }
    eexists t, _. split_and!; try done. }
  destruct (written_ok p I id l _ ts Hlive Hn Hts _ bs Hlen Hst C) as (Ok' & K & V).
  split_and!; [done|by eapply hands_ok_kept|done|done|done|]. intros x Hx.
  by apply (written_contents p I id l _ ts Hlive Hts _ bs Hlen Hst).
Qed.
End hands.
