(* ===== verification/PoolInit.v ===== *)
(** * Construction of a pool, and access to blocks that are not allocated

    [init] accepts exactly the specs its checks describe, as long as the vectors
    it makes find room, and throws the first exception it comes to otherwise; on
    a layout whose byte sizes and ids fit their types it produces an empty pool
    that satisfies the invariant. The second half is about ids that are not
    live: what each operation that takes one does. *)

From S2P Require Import Prelude Types Tier BlockPool PoolInv PoolOps PoolMigrate PoolAsync PoolWorker.

Open Scope N_scope.

Lemma countdown_perm n : N.of_nat n <= two32 → countdown n ≡ₚ N.of_nat <$> seq 0 n.
Proof.
  induction n as [|n IH]; intros Hn; [done|]. rewrite seq_S, fmap_app. simpl.
  rewrite IH by lia. unfold u32. rewrite N.mod_small by lia.
  by rewrite Permutation_app_comm.
Qed.

Section init.
Context {T : Type} `{TierLaws T}.
Implicit Types p : BlockPool T.

Definition fresh_tier (spec : TierSpec) : TierState :=
  {| ts_tier := default 0 (spec_tier spec); ts_num_blocks := spec_num_blocks spec;
     ts_free_slots := countdown (N.to_nat (spec_num_blocks spec)) |}.

Definition total_blocks (specs : list TierSpec) : N :=
  foldr (λ s n, spec_num_blocks s + n) 0 specs.

(** What [init] checks of a spec: the product is the wrapped one. *)
Definition accepted (cfg : CacheConfig) (objs : gmap TierPtr T) (spec : TierSpec) : Prop :=
  ∃ ptr t, spec_tier spec = Some ptr ∧ objs !! ptr = Some t ∧
    u64 (spec_num_blocks spec * block_bytes cfg) <= capacity_bytes t.

(** A spec whose blocks really fit in its tier. *)
Definition spec_ok (cfg : CacheConfig) (objs : gmap TierPtr T) (spec : TierSpec) : Prop :=
  ∃ ptr t, spec_tier spec = Some ptr ∧ objs !! ptr = Some t ∧
    tier_fits cfg (spec_num_blocks spec) t.

Lemma spec_ok_accepted cfg objs spec : spec_ok cfg objs spec → accepted cfg objs spec.
Proof.
  intros (ptr & t & Hp & Ht & Hok & Hcap). exists ptr, t. split_and!; [done..|].
  pose proof (capacity_lt t Hok). rewrite u64_small; lia.
Qed.

(** What [init] asks of its vectors, in the order of the code. *)
Definition requests (specs : list TierSpec) (cfg : CacheConfig) : list (string * N) :=
  let total := u64 (total_blocks specs) in
  ("tiers_", size_of specs)%string ::
  ((λ s, ("free_slots"%string, spec_num_blocks s)) <$> specs) ++
  [("location_", total); ("refcount_", total); ("free_ids_", total); ("bounce_", block_bytes cfg)]%string.

Definition granted (room : string → N → option error) (vs : list (string * N)) : Prop :=
  Forall (λ x, room x.1 x.2 = None) vs.

(** What a spec is refused for. *)
Definition refused_spec (cfg : CacheConfig) (objs : gmap TierPtr T) (spec : TierSpec) (e : error) : Prop :=
  spec_tier spec = None ∧ e = InvalidArgument "kvslab: null tier in pool spec" ∨
  ∃ ptr t, spec_tier spec = Some ptr ∧ objs !! ptr = Some t ∧
    capacity_bytes t < u64 (spec_num_blocks spec * block_bytes cfg) ∧
    e = InvalidArgument "kvslab: tier is too small for the requested pool".

(** The loop over the specs stops at the first it cannot take. *)
Lemma init_tiers_cases room cfg objs specs tiers total :
  (∀ s ptr, s ∈ specs → spec_tier s = Some ptr → is_Some (objs !! ptr)) →
  match init_tiers room cfg objs specs tiers (u64 total) with
  | Ok r => Forall (accepted cfg objs) specs ∧ granted room ((λ s, ("free_slots"%string, spec_num_blocks s)) <$> specs) ∧
      r = (tiers ++ (fresh_tier <$> specs), u64 (total + total_blocks specs))
  | Err e => ∃ pre s suf, specs = pre ++ s :: suf ∧ Forall (accepted cfg objs) pre ∧
      (refused_spec cfg objs s e ∨ accepted cfg objs s ∧ room "free_slots"%string (spec_num_blocks s) = Some e)
  end.
Proof.
  revert tiers total. induction specs as [|spec specs IH]; intros tiers total Hobj; simpl.
  { split_and!; [constructor|constructor|]. by rewrite app_nil_r, N.add_0_r. }
  destruct (spec_tier spec) as [ptr|] eqn:Hp.
  2: { exists [], spec, specs. split_and!; [done|constructor|left; by left]. }
  destruct (Hobj spec ptr) as [t Ht]; [by left|done|]. rewrite Ht.
  destruct (N.ltb_spec (capacity_bytes t) (u64 (spec_num_blocks spec * block_bytes cfg))) as [Hlt|Hcap].
  { exists [], spec, specs. split_and!; [done|constructor|left; right]. by exists ptr, t. }
  assert (accepted cfg objs spec) as Ha by (by exists ptr, t). unfold reserving.
  destruct (room "free_slots"%string (spec_num_blocks spec)) as [e|] eqn:Er.
  { exists [], spec, specs. split_and!; [done|constructor|by right]. }
  replace (u64 (u64 total + spec_num_blocks spec)) with (u64 (total + spec_num_blocks spec))
    by (unfold u64; by rewrite N.Div0.add_mod_idemp_l).
  specialize (IH (push_back {| ts_tier := ptr; ts_num_blocks := spec_num_blocks spec;
    ts_free_slots := countdown (N.to_nat (spec_num_blocks spec)) |} tiers) (total + spec_num_blocks spec)).
  destruct (init_tiers room cfg objs specs _ _) as [r|e] eqn:E.
  - destruct IH as (Hall & Hg & ->); [intros; by eapply Hobj; [right|]|]. split_and!; [by constructor|by constructor|].
    unfold push_back, fresh_tier. by rewrite <-app_assoc, N.add_assoc, Hp.
  - destruct IH as (pre & s & suf & -> & Hpre & Hs); [intros; by eapply Hobj; [right|]|].
    exists (spec :: pre), s, suf. split_and!; [done|by constructor|done].
Qed.

Lemma init_tiers_ok cfg objs specs tiers total :
  Forall (accepted cfg objs) specs →
  init_tiers plenty cfg objs specs tiers (u64 total)
  = Ok (tiers ++ (fresh_tier <$> specs), u64 (total + total_blocks specs)).
Proof.
  revert tiers total. induction specs as [|spec specs IH]; intros tiers total Hall; simpl.
  - by rewrite app_nil_r, N.add_0_r.
  - inversion_clear Hall as [|? ? (ptr & t & Hp & Ht & Hcap) Hrest]. rewrite Hp, Ht.
    rewrite (proj2 (N.ltb_ge _ _) Hcap). unfold reserving, plenty at 1.
    replace (u64 (u64 total + spec_num_blocks spec)) with (u64 (total + spec_num_blocks spec))
      by (unfold u64; by rewrite N.Div0.add_mod_idemp_l).
    rewrite IH by done. unfold push_back. rewrite <-app_assoc, N.add_assoc. simpl.
    do 4 f_equal. unfold fresh_tier. by rewrite Hp.
Qed.

(** Conversely, [init_tiers] only gets through specs that pass its checks. *)
Lemma init_tiers_inv cfg objs specs tiers total r :
  init_tiers plenty cfg objs specs tiers total = Ok r → Forall (accepted cfg objs) specs.
Proof.
  revert tiers total. induction specs as [|spec specs IH]; intros tiers total Hr; [constructor|].
  simpl in Hr. destruct (spec_tier spec) as [ptr|] eqn:Hp; [|done].
  destruct (objs !! ptr) as [t|] eqn:Ht; [|done].
  destruct (N.ltb_spec (capacity_bytes t) (u64 (spec_num_blocks spec * block_bytes cfg))); [done|].
  unfold reserving, plenty at 1 in Hr. constructor; [|by eapply IH]. exists ptr, t. auto.
Qed.

Lemma total_blocks_sum specs :
  N.to_nat (total_blocks specs) = sum_list ((λ s, N.to_nat (spec_num_blocks s)) <$> specs).
Proof. induction specs as [|s l IH]; [done|]. simpl. rewrite N2Nat.inj_add. by f_equal. Qed.

Lemma total_blocks_elem specs s : s ∈ specs → spec_num_blocks s <= total_blocks specs.
Proof. induction 1; simpl; lia. Qed.

(** The pool [init] returns when it returns one. *)
Definition empty_pool (specs : list TierSpec) (cfg : CacheConfig) (objs : gmap TierPtr T)
    : BlockPool T :=
  let total := N.to_nat (u64 (total_blocks specs)) in
  {| cfg_ := cfg; tiers_ := fresh_tier <$> specs;
     location_ := replicate total {| loc_tier := 0; loc_slot := 0 |};
     refcount_ := replicate total 0; free_ids_ := countdown total;
     bounce_ := replicate (N.to_nat (block_bytes cfg)) Byte.x00;
     jobs_ := []; migrating_ := ∅; workers_ := 0; next_unclaimed_ := 0; stopping_ := false;
     job_heap := ∅; job_next := 0; arenas := objs; hands_ := ∅; turns_ := [] |}.

Lemma init_run specs cfg objs p :
  init specs cfg objs = Ok p ↔
  specs ≠ [] ∧ Forall (accepted cfg objs) specs ∧ p = empty_pool specs cfg objs.
Proof.
  unfold init, init_in. destruct specs as [|s l]; [naive_solver|]. remember (s :: l) as specs.
  unfold reserving, plenty at 1. split.
  - destruct (init_tiers plenty cfg objs specs [] 0) as [[tiers total]|] eqn:Hr; [|done].
    pose proof (init_tiers_inv _ _ _ _ _ _ Hr) as Hall.
    pose proof (init_tiers_ok cfg objs specs [] 0 Hall) as Hr'. change (u64 0) with 0 in Hr'.
    rewrite Hr in Hr'. simplify_eq/=. intros [= <-]. done.
  - intros (_ & Hall & ->).
    pose proof (init_tiers_ok cfg objs specs [] 0 Hall) as Hr. change (u64 0) with 0 in Hr.
    rewrite Hr. done.
Qed.

(** What [init] does, with whatever room there is. *)
Lemma init_in_cases room specs cfg objs :
  (∀ s ptr, s ∈ specs → spec_tier s = Some ptr → is_Some (objs !! ptr)) →
  match init_in room specs cfg objs with
  | Ok p => specs ≠ [] ∧ Forall (accepted cfg objs) specs ∧ granted room (requests specs cfg) ∧
      p = empty_pool specs cfg objs
  | Err e =>
      specs = [] ∧ e = InvalidArgument "kvslab: a pool needs at least one tier" ∨
      (∃ pre s suf, specs = pre ++ s :: suf ∧ Forall (accepted cfg objs) pre ∧ refused_spec cfg objs s e) ∨
      ∃ v n, (v, n) ∈ requests specs cfg ∧ room v n = Some e
  end.
Proof.
  intros Hobj. destruct (decide (specs = [])) as [->|Hne]; [by left|].
  assert (∀ v n e, (v, n) ∈ requests specs cfg → room v n = Some e →
    ∃ v n, (v, n) ∈ requests specs cfg ∧ room v n = Some e) as Hreq by eauto.
  pose proof (init_tiers_cases room cfg objs specs [] 0 Hobj) as Ht. change (u64 0) with 0 in Ht.
  set (total := u64 (total_blocks specs)) in *.
  assert (∀ v, v ∈ ["location_"; "refcount_"; "free_ids_"]%string → (v, total) ∈ requests specs cfg) as Htot.
  { intros v Hv. unfold requests. right. apply elem_of_app. right. fold total. set_solver. }
  assert (("bounce_"%string, block_bytes cfg) ∈ requests specs cfg) as Hb
    by (unfold requests; right; apply elem_of_app; right; set_solver).
  assert (init_in room specs cfg objs = reserving room "tiers_"%string (size_of specs)
    match init_tiers room cfg objs specs [] 0 with
    | Err e => Err e
    | Ok (tiers, total) =>
        reserving room "location_"%string total (reserving room "refcount_"%string total (reserving room "free_ids_"%string total
        (reserving room "bounce_"%string (block_bytes cfg) (Ok (new_pool cfg objs tiers total)))))
    end) as -> by (by destruct specs).
  unfold reserving.
  destruct (room "tiers_"%string (size_of specs)) as [e|] eqn:E0.
  { do 2 right. eapply Hreq; [|exact E0]. unfold requests. by left. }
  destruct (init_tiers room cfg objs specs [] 0) as [r|e].
  2: { destruct Ht as (pre & s & suf & E & Hpre & [Hs|[_ Hs]]); right; [left; eauto 10|right].
       eapply Hreq; [|exact Hs]. unfold requests. right. apply elem_of_app. left. apply list_elem_of_fmap.
       exists s. split; [done|]. rewrite E. set_solver. }
  destruct Ht as (Hall & Hg & ->). rewrite N.add_0_l. fold total.
  destruct (room "location_"%string total) as [e|] eqn:E1; [do 2 right; eapply Hreq, E1; apply Htot; set_solver|].
  destruct (room "refcount_"%string total) as [e|] eqn:E2; [do 2 right; eapply Hreq, E2; apply Htot; set_solver|].
  destruct (room "free_ids_"%string total) as [e|] eqn:E3; [do 2 right; eapply Hreq, E3; apply Htot; set_solver|].
  destruct (room "bounce_"%string (block_bytes cfg)) as [e|] eqn:E4; [do 2 right; by eapply Hreq, E4|].
  split_and!; [done|done| |done]. unfold granted, requests. constructor; [done|]. apply Forall_app. split; [exact Hg|].
  fold total. by repeat constructor.
Qed.

(** A spec that is refused is not accepted. *)
Lemma refused_not_accepted cfg objs s e : refused_spec cfg objs s e → ¬ accepted cfg objs s.
Proof.
  intros [[E _]|(ptr & t & E & Ht & Hlt & _)] (ptr' & t' & E' & Ht' & Hle); simplify_eq. lia.
Qed.

Lemma live_slots_zero locs n t : omap (live_slot t) (zip locs (replicate n 0)) = [].
Proof.
  revert n. induction locs as [|l locs IH]; intros [|n]; try done. simpl.
  unfold live_slot. simpl. apply IH.
Qed.

(** Distinct tier objects stay distinct once their pointers are followed. *)
Lemma fresh_tiers_nodup cfg objs specs :
  (∀ s, s ∈ specs → spec_ok cfg objs s) → NoDup (spec_tier <$> specs) → NoDup (ts_tier <$> (fresh_tier <$> specs)).
Proof.
  rewrite <-list_fmap_compose. intros Hall Hnd. induction specs as [|s l IH]; [constructor|].
  rewrite fmap_cons in *. inversion_clear Hnd as [|? ? Hnin Hnd']. constructor.
  - intros (s' & E & Hin)%list_elem_of_fmap.
    apply Hnin, list_elem_of_fmap. exists s'. split; [|done]. unfold fresh_tier in E; simpl in E.
    destruct (Hall s) as (a & ? & Ha & _); [by left|].
    destruct (Hall s') as (b & ? & Hb & _); [by right|].
    rewrite Ha, Hb in *. simpl in E. by subst.
  - apply IH; [|done]. intros. apply Hall. by right.
Qed.

Lemma empty_pool_ok specs cfg objs :
  specs ≠ [] → Forall (spec_ok cfg objs) specs → NoDup (spec_tier <$> specs) →
  total_blocks specs <= kInvalidBlock →
  pool_ok (empty_pool specs cfg objs).
Proof.
  intros Hne Hall Hnd Htot. unfold kInvalidBlock in Htot.
  assert (u64 (total_blocks specs) = total_blocks specs) as Hu
    by (apply u64_small; unfold two64, two32 in *; lia).
  rewrite Forall_forall in Hall. split; [|by intros j job Hj].
  constructor; unfold empty_pool; simpl; rewrite ?Hu.
  - constructor.
    + by rewrite !length_replicate.
    + unfold size_of. rewrite length_replicate. unfold kInvalidBlock. lia.
    + by apply Forall_replicate.
    + rewrite countdown_perm by (unfold two32 in *; lia).
      apply NoDup_fmap; [intros ???; lia|apply NoDup_seq].
    + intros id. rewrite countdown_perm by (unfold two32 in *; lia).
      rewrite lookup_replicate. setoid_rewrite (slot_range_elem (total_blocks specs) id). split; [|lia].
      intros; split; [done|lia].
  - constructor; simpl; try done.
    + constructor.
    + intros j. rewrite lookup_empty. split; [by intros ?%not_elem_of_nil|by intros []].
    + intros j. rewrite lookup_empty. by intros [].
    + intros id j. rewrite lookup_empty. split; [done|]. intros (? & Hj & _).
      by rewrite lookup_empty in Hj.
  - constructor; simpl.
    + by destruct specs.
    + rewrite length_replicate, total_blocks_sum, <-list_fmap_compose. done.
    + intros t ts Hts. apply list_lookup_fmap_Some in Hts as (s & -> & Hs).
      destruct (Hall s) as (ptr & obj & Hp & Hobj & Hfit); [by eapply list_elem_of_lookup_2|].
      exists obj. unfold fresh_tier; simpl. by rewrite Hp.
    + by eapply fresh_tiers_nodup.
  - intros t ts Hts. apply list_lookup_fmap_Some in Hts as (s & -> & Hs).
    unfold live_slots, reserved_slots. simpl. rewrite live_slots_zero, app_nil_r. simpl.
    rewrite countdown_perm; [done|].
    pose proof (total_blocks_elem specs s ltac:(by eapply list_elem_of_lookup_2)).
    unfold two32 in *; lia.
  - intros id l rc (_ & Hrc & Hz). simpl in Hrc. apply lookup_replicate in Hrc as [-> _]. done.
  - by intros j job Hj.
Qed.

Lemma empty_pool_view specs cfg objs id : view (empty_pool specs cfg objs) id = None.
Proof.
  destruct (view _ id) as [v|] eqn:Hv; [|done]. apply view_live in Hv as (l & (_ & Hrc & Hz) & _).
  simpl in Hrc. apply lookup_replicate in Hrc as [Hrc _]. done.
Qed.

Lemma length_countdown n : length (countdown n) = n.
Proof. induction n; simpl; lia. Qed.

Lemma empty_pool_free specs cfg objs t s :
  specs !! N.to_nat t = Some s →
  tier_free (empty_pool specs cfg objs) t = N.to_nat (spec_num_blocks s).
Proof.
  intros Hs. unfold tier_free. simpl. rewrite list_lookup_fmap, Hs. simpl. apply length_countdown.
Qed.
End init.

(** ** Ids that are not live *)

(** The program stops in [fatal()], naming the block. *)
Definition aborts_on {S A} (id : BlockId) (m : M S A) (s : S) : Prop :=
  ∃ what, m s = Err (Fatal what id).

Section dead.
Context {T : Type} `{TierLaws T}.
Implicit Types p : BlockPool T.

Lemma aborts_bind {A B} (m : M (BlockPool T) A) (k : A → M (BlockPool T) B) id p :
  aborts_on id m p → aborts_on id (m ≫= k) p.
Proof. intros [what Hm]. exists what. unfold mbind, M_bind. by rewrite Hm. Qed.

Lemma not_live_refcount p id :
  pool_inv p → view p id = None →
  size_of (location_ p) <= id ∨
  id < size_of (location_ p) ∧ refcount_ p !! N.to_nat id = Some 0.
Proof.
  intros I Hv. destruct (N.le_gt_cases (size_of (location_ p)) id) as [|Hlt]; [by left|right].
  split; [done|].
  destruct (lookup_lt_is_Some_2 (location_ p) (N.to_nat id)) as [l Hl]; [unfold size_of in *; lia|].
  destruct (rc_lookup p I id l Hl) as [rc Hrc]. unfold view in Hv. rewrite Hrc, Hl in Hv. simpl in Hv.
  destruct (N.eqb_spec rc 0) as [->|]; done.
Qed.

Lemma not_live_migrating p id : pool_inv p → view p id = None → migrating_ p !! id = None.
Proof.
  intros I Hv. destruct (migrating_ p !! id) as [j|] eqn:Hj; [|done].
  destruct (migrating_live p id j I Hj) as (l & rc & Hlive).
  assert (view p id = Some {| bv_refs := rc; bv_tier := loc_tier l; bv_target := target p id |}).
  { apply view_live. by exists l. }
  congruence.
Qed.

(** The guard shared by [locate], [incref] and [decref]: range, then count. *)
Lemma guard_aborts {A} what1 what2 id (k : N → M (BlockPool T) A) p :
  pool_inv p → view p id = None →
  aborts_on id (p ← get;
    if size_of (location_ p) <=? id then fatal what1 id else
    rc ← refcount_at id; if rc =? 0 then fatal what2 id else k rc) p.
Proof.
  intros I Hv. unfold aborts_on, refcount_at, at_, mbind, M_bind, get.
  destruct (not_live_refcount p id I Hv) as [Hge|[Hlt Hrc]].
  - rewrite (proj2 (N.leb_le _ _) Hge). by eexists.
  - rewrite (proj2 (N.leb_gt _ _) Hlt), Hrc. by eexists.
Qed.

Section ops.
Context p id (I : pool_inv p) (Hv : view p id = None).

Lemma locate_aborts : aborts_on id (locate id) p.
Proof. by apply guard_aborts. Qed.
Lemma incref_aborts : aborts_on id (incref id) p.
Proof. by apply guard_aborts. Qed.
Lemma decref_aborts : aborts_on id (decref id) p.
Proof. by apply guard_aborts. Qed.
Lemma block_tier_aborts : aborts_on id (block_tier id) p.
Proof. apply aborts_bind, locate_aborts. Qed.
Lemma block_offset_aborts : aborts_on id (block_offset id) p.
Proof. apply aborts_bind, locate_aborts. Qed.
Lemma block_data_aborts : aborts_on id (block_data id) p.
Proof. apply aborts_bind, locate_aborts. Qed.
Lemma migrate_async_aborts hw dst : aborts_on id (migrate_async hw id dst) p.
Proof. apply aborts_bind, locate_aborts. Qed.
Lemma migration_target_aborts : aborts_on id (migration_target id) p.
Proof.
  unfold migration_target, aborts_on, mbind, M_bind, get.
  rewrite (not_live_migrating p id I Hv). by eexists.
Qed.
Lemma migrating_dead : migrating id p = Ok (false, p).
Proof. unfold migrating, mbind, M_bind, get. by rewrite (not_live_migrating p id I Hv). Qed.
Lemma cancel_dead : cancel_migration id p = Ok ((), p).
Proof. unfold cancel_migration, mbind, M_bind, get. by rewrite (not_live_migrating p id I Hv). Qed.
Lemma refcount_dead :
  if size_of (location_ p) <=? id then aborts_on id (refcount id) p else refcount id p = Ok (0, p).
Proof.
  unfold refcount, refcount_at, at_, aborts_on, mbind, M_bind, get.
  destruct (N.leb_spec (size_of (location_ p)) id) as [Hge|Hlt]; [by eexists|].
  destruct (not_live_refcount p id I Hv) as [?|[_ Hrc]]; [lia|]. by rewrite Hrc.
Qed.
Lemma migrate_aborts dst : aborts_on id (migrate id dst) p.
Proof.
  unfold migrate, aborts_on. destruct locate_aborts as [what Hl]. exists what.
  unfold mbind at 1, M_bind at 1. rewrite cancel_dead. unfold mbind at 1, M_bind at 1. by rewrite Hl.
Qed.
End ops.
End dead.
