(* ===== verification/PoolSpec.v ===== *)
(** * What the block pool guarantees

    The contracts of the pool's operations in terms of what a caller sees: the
    view of each block (its count, its tier, where it is headed), the free
    slots of each tier, and the bytes of every block. [pool_ok] is the
    invariant; every operation keeps it. *)

From S2P Require Import Prelude Types Tier BlockPool PoolInv PoolOps PoolMigrate PoolAsync.
From S2P Require Import PoolWorker PoolHands PoolInit.

Open Scope N_scope.

Section spec.
Context {T : Type} `{TierLaws T}.
Implicit Types p : BlockPool T.

Lemma quiet_ok p p' : pool_ok p → pool_inv p' → quiet p p' → pool_ok p' ∧ contents_kept p p'.
Proof. intros [I C] I' Q. split; [split|]; eauto using quiet_copies, quiet_contents. Qed.

(** C10: construction. On specs whose tiers exist, are distinct and are really
    large enough, and whose blocks can be numbered below [kInvalidBlock], the
    constructor succeeds, and the pool is empty, satisfies the invariant and
    has every slot of every tier free. *)
Theorem init_establishes specs cfg (objs : gmap TierPtr T) :
  specs ≠ [] → Forall (spec_ok cfg objs) specs → NoDup (spec_tier <$> specs) →
  total_blocks specs <= kInvalidBlock →
  ∃ p, init specs cfg objs = Ok p ∧ pool_ok p ∧ (∀ id, view p id = None) ∧
    num_tiers p = length specs ∧ num_used p = 0%nat ∧
    ∀ t s, specs !! N.to_nat t = Some s → tier_free p t = N.to_nat (spec_num_blocks s).
Proof.
  intros Hne Hall Hnd Htot. exists (empty_pool specs cfg objs). split_and!.
  - apply init_run. split_and!; [done| |done]. by eapply Forall_impl, spec_ok_accepted.
  - by apply empty_pool_ok.
  - intros. apply empty_pool_view.
  - unfold num_tiers. simpl. apply length_fmap.
  - unfold num_used. simpl. rewrite length_replicate, length_countdown. lia.
  - intros t s Hs. by apply empty_pool_free.
Qed.

(** C38: what the constructor accepts, and how it refuses. With whatever room
    the vectors find, it returns a pool exactly when the list of tiers is not
    empty, none is null, each has a capacity of at least the wrapped product of
    its block count and the block size, and every vector finds its room; the
    pool is then the empty one. Otherwise it ends in an exception, which names
    the reason: [std::invalid_argument], for an empty list, or for the first
    spec that is refused, with the message for a null tier or for one that is
    too small; or what a vector threw at a request of the constructor. *)
Theorem init_accepts_iff room specs cfg (objs : gmap TierPtr T) :
  (∀ s ptr, s ∈ specs → spec_tier s = Some ptr → is_Some (objs !! ptr)) →
  (∀ p, init_in room specs cfg objs = Ok p ↔
     specs ≠ [] ∧ Forall (accepted cfg objs) specs ∧ granted room (requests specs cfg) ∧
     p = empty_pool specs cfg objs) ∧
  (∀ e, init_in room specs cfg objs = Err e →
     specs = [] ∧ e = InvalidArgument "kvslab: a pool needs at least one tier" ∨
     (∃ pre s suf, specs = pre ++ s :: suf ∧ Forall (accepted cfg objs) pre ∧ refused_spec cfg objs s e) ∨
     ∃ v n, (v, n) ∈ requests specs cfg ∧ room v n = Some e).
Proof.
  intros Hobj. pose proof (init_in_cases room specs cfg objs Hobj) as Hc.
  destruct (init_in room specs cfg objs) as [q|e]; (split; [intros p|intros e']); [|done| |by intros [= <-]].
  - split; [by intros [= <-]|]. destruct Hc as (_ & _ & _ & ->). by intros (_ & _ & _ & ->).
  - split; [done|]. intros (Hne & Hall & Hg & _). exfalso. destruct Hc as [[? _]|[(pre & s & suf & -> & _ & Hs)|(v & n & Hin & Hv)]].
    + done.
    + apply (refused_not_accepted _ _ _ _ Hs). rewrite Forall_forall in Hall. apply Hall. set_solver.
    + unfold granted in Hg. rewrite Forall_forall in Hg. specialize (Hg _ Hin). simpl in Hg. congruence.
Qed.

(** C11: [allocate] fails, returning [kInvalidBlock] and changing nothing,
    exactly when the compute tier has no free slot; otherwise it returns a
    block that was not live, now with count 1 in the compute tier, and takes
    one compute slot. No other block and no byte changes. *)
Theorem pool_allocate p :
  pool_ok p →
  wp allocate (λ id p', pool_ok p' ∧ contents_kept p p' ∧
    if decide (num_free p = 0%nat) then id = kInvalidBlock ∧ p' = p
    else id ≠ kInvalidBlock ∧ view p id = None ∧ free_upd p p' 0 (-1) ∧
         view_upd p p' id (Some {| bv_refs := 1; bv_tier := 0; bv_target := None |})) p.
Proof.
  intros Ok. eapply wp_mono; [apply allocate_spec, Ok|]. intros id p' (I & Q & R).
  destruct (quiet_ok p p' Ok I Q). done.
Qed.

(** [incref] of a live block adds one to its count and changes nothing
    else, as long as the count fits in 32 bits. *)
Theorem pool_incref p id v :
  pool_ok p → view p id = Some v → bv_refs v + 1 < two32 →
  wp (incref id) (λ _ p', pool_ok p' ∧ contents_kept p p' ∧
    (∀ t, tier_free p' t = tier_free p t) ∧
    view_upd p p' id (Some {| bv_refs := bv_refs v + 1; bv_tier := bv_tier v;
                              bv_target := bv_target v |})) p.
Proof.
  intros Ok Hv Hlt. eapply wp_mono; [by apply incref_spec; [apply Ok|..]|].
  intros [] p' (I & Q & R). destruct (quiet_ok p p' Ok I Q). done.
Qed.

(** C12: [decref] of a live block takes one from its count; it returns true,
    frees the id and gives the slot back to the tier the block was in exactly
    when the count was 1, cancelling a migration in flight. *)
Theorem pool_decref p id v :
  pool_ok p → view p id = Some v →
  wp (decref id) (λ b p', pool_ok p' ∧ contents_kept p p' ∧
    b = bool_decide (bv_refs v = 1) ∧
    if b then free_upd p p' (bv_tier v) 1 ∧ view_upd p p' id None
    else (∀ t, tier_free p' t = tier_free p t) ∧
         view_upd p p' id (Some {| bv_refs := bv_refs v - 1; bv_tier := bv_tier v;
                                   bv_target := bv_target v |})) p.
Proof.
  intros Ok Hv. eapply wp_mono; [by apply decref_spec; [apply Ok|..]|].
  intros b p' (I & Q & R). destruct (quiet_ok p p' Ok I Q). done.
Qed.

(** C17: a block that is not live, its id out of range or on the free list.
    Whatever would use it aborts in [fatal()] with that id: changing its count,
    asking where it is, moving it, asking where it is headed. So there is no use
    after free, no double free and no resurrection. The three queries that are
    defined on it say so: it is not migrating, cancelling its migration does
    nothing, and its count is 0, if its id is in range. *)
Theorem pool_dead_block hw p id dst :
  pool_ok p → view p id = None →
  (aborts_on id (incref id) p ∧ aborts_on id (decref id) p ∧ aborts_on id (block_tier id) p ∧
   aborts_on id (block_offset id) p ∧ aborts_on id (block_data id) p ∧
   aborts_on id (migrate id dst) p ∧ aborts_on id (migrate_async hw id dst) p ∧
   aborts_on id (migration_target id) p) ∧
  migrating id p = Ok (false, p) ∧ cancel_migration id p = Ok ((), p) ∧
  if size_of (location_ p) <=? id then aborts_on id (refcount id) p else refcount id p = Ok (0, p).
Proof.
  intros [I _] Hv. split; [split_and!;
    [by apply incref_aborts|by apply decref_aborts|by apply block_tier_aborts
    |by apply block_offset_aborts|by apply block_data_aborts|by apply migrate_aborts
    |by apply migrate_async_aborts|by apply migration_target_aborts]|].
  split_and!; [by apply migrating_dead|by apply cancel_dead|by apply refcount_dead].
Qed.

(** C13: [migrate] of a live block to a tier of the pool. It moves the block,
    its bytes included, when the block is elsewhere and the tier has a free
    slot; it returns true without moving when the block is there already, and
    false when the tier is full. In every case a migration in flight is
    abandoned, and every live block keeps its bytes. *)
Theorem pool_migrate p id v dst :
  pool_ok p → view p id = Some v → (N.to_nat dst < num_tiers p)%nat →
  wp (migrate id dst) (λ ok p', pool_ok p' ∧ contents_kept p p' ∧
    migrate_outcome p p' id v dst ok) p.
Proof.
  intros Ok Hv Hd. eapply wp_mono; [by apply migrate_ok|].
  intros ok p' (Ok' & _ & _ & Hc & _ & Ho). done.
Qed.

(** C16: [migrate_async] returns true exactly when the block is elsewhere, has
    no migration in flight, the destination has a free slot and both tiers
    are host-addressable; it then reserves one slot there and marks the block
    as headed there, leaving it readable where it is, and there is a worker
    thread to copy it. Otherwise it changes nothing. *)
Theorem pool_migrate_async hw p id v dst :
  pool_ok p → view p id = Some v → (N.to_nat dst < num_tiers p)%nat →
  wp (migrate_async hw id dst) (λ ok p', pool_ok p' ∧ contents_kept p p' ∧
    (ok = true ↔ can_queue p v dst) ∧
    if (ok : bool) then workers_ p' ≠ 0 ∧ free_upd p p' dst (-1) ∧
      view_upd p p' id (Some {| bv_refs := bv_refs v; bv_tier := bv_tier v;
                                bv_target := Some dst |})
    else p' = p) p.
Proof.
  intros Ok Hv Hd. eapply wp_mono; [by apply migrate_async_spec; [apply Ok|..]|].
  intros ok p' (I & Q & R). destruct (quiet_ok p p' Ok I Q). done.
Qed.

(** [cancel_migration] leaves the block where it is, no longer headed
    anywhere, and frees no slot: the reserved one comes back at a drain. It
    never fails, on any id. *)
Theorem pool_cancel_migration p id :
  pool_ok p →
  wp (cancel_migration id) (λ _ p', pool_ok p' ∧ contents_kept p p' ∧
    (∀ t, tier_free p' t = tier_free p t) ∧
    view_upd p p' id
      ((λ v, {| bv_refs := bv_refs v; bv_tier := bv_tier v; bv_target := None |}) <$> view p id)) p.
Proof.
  intros Ok. eapply wp_mono; [apply cancel_migration_spec, Ok|].
  intros [] p' (I & Q & R). destruct (quiet_ok p p' Ok I Q). done.
Qed.

(** C15: [drain_migrations] never fails. Each block is left alone or lands in
    the tier its finished migration was headed to; its bytes are the ones it
    had; free slots only grow; what stays queued is a suffix of the queue
    whose front is unfinished. *)
Theorem pool_drain_migrations p :
  pool_ok p →
  wp drain_migrations (λ _ p', pool_ok p' ∧ contents_kept p p' ∧
    (∀ id, landed (view p id) (view p' id)) ∧
    (∀ t, (tier_free p t ≤ tier_free p' t)%nat) ∧
    (∃ k, jobs_ p' = drop k (jobs_ p)) ∧
    ∀ j rest job, jobs_ p' = j :: rest → job_heap p' !! j = Some job → job_done job = false) p.
Proof.
  intros Ok. eapply wp_mono; [by apply drain_migrations_spec|]. intros [] p' [Ok' D].
  destruct D as [_ D2 D3 D4 D5 D6 _ _]. done.
Qed.

(** What the caller of [wait_for_migrations] finds afterwards. *)
Definition all_settled p p' : Prop :=
  running p' ∧ contents_kept p p' ∧ jobs_ p' = [] ∧ pending_migrations p' = 0%nat ∧
  ∀ id, view p' id = settle <$> view p id.

Lemma waited_settled p p' : running p' → waited p p' → all_settled p p'.
Proof.
  intros Rp [_ Hc Hj _ Hv _]. pose proof (running_inv _ Rp) as I'. split_and!; try done.
  unfold pending_migrations. apply map_size_empty_iff, map_empty. intros id.
  destruct (migrating_ p' !! id) as [j|] eqn:Hm; [|done].
  apply (migrating_job p' id j I'), (pi_jobs_dom _ _ _ _ _ I') in Hm.
  rewrite Hj in Hm. by apply not_elem_of_nil in Hm.
Qed.

(** C14: waiting. Whatever the workers do before each wakeup of the scheduler,
    [wait_for_migrations] returns only with the queue and the map of migrations
    empty, every block that was moving arrived where it was headed and every
    block holding the bytes it held. There is one way not to return: the turns
    the workers took up to its last wakeup left a job unfinished. That is not
    the case once every thread had a turn for each step there was to take; then
    the call returns. It makes no difference in which order the turns are taken:
    after any of them that leave every job done, which is what the code waits
    for, the drain has the same outcome. *)
Theorem pool_wait_for_migrations `{Wk : Wakes T} p :
  running p →
  wp_unless (stalled p (wakes p)) wait_for_migrations (λ _ p', all_settled p p') p ∧
  (patient p (wakes p) → wp wait_for_migrations (λ _ p', all_settled p p') p) ∧
  ∀ ts q, for_each ts take_turn p = Ok ((), q) → all_done q →
    wp drain_migrations (λ _ p', all_settled p p') q.
Proof.
  intros Rn. assert (wp_unless (stalled p (wakes p)) wait_for_migrations (λ _ p', all_settled p p') p) as Hw.
  { eapply wp_unless_mono; [by apply wait_for_migrations_spec|done|]. intros [] p' [Rp Hw]. by apply waited_settled. }
  split_and!; [done|intros Hp; eapply wp_unless_never; [by eapply patient_done|done]|].
  intros ts q E Hall. eapply wp_mono; [by eapply wait_any_order|]. intros [] p' [Rp Hq]. by apply waited_settled.
Qed.

(** C27: two live blocks in one tier occupy disjoint byte ranges, each inside
    the tier's arena, at the offsets [block_offset] reports. *)
Theorem pool_blocks_disjoint p id id' v v' :
  pool_ok p → view p id = Some v → view p id' = Some v' → id ≠ id' → bv_tier v = bv_tier v' →
  ∃ ts obj o o', tiers_ p !! N.to_nat (bv_tier v) = Some ts ∧ arenas p !! ts_tier ts = Some obj ∧
    block_offset id p = Ok (o, p) ∧ block_offset id' p = Ok (o', p) ∧
    o + block_bytes (cfg_ p) <= capacity_bytes obj ∧ o' + block_bytes (cfg_ p) <= capacity_bytes obj ∧
    (o + block_bytes (cfg_ p) <= o' ∨ o' + block_bytes (cfg_ p) <= o).
Proof.
  intros [I _] (l & Hl & Et & _)%view_live (l' & Hl' & Et' & _)%view_live Hne Etier.
  destruct (pi_loc _ I id l _ Hl) as [ts Hts].
  assert (tiers_ p !! N.to_nat (loc_tier l') = Some ts) as Hts' by congruence.
  pose proof (live_slot_lt p id l _ ts I Hl Hts) as Hlt.
  pose proof (live_slot_lt p id' l' _ ts I Hl' Hts') as Hlt'.
  destruct (slot_offset_bound p I _ ts (loc_slot l) Hts Hlt) as (obj & Hobj & _ & Hb & Hu).
  destruct (slot_offset_bound p I _ ts (loc_slot l') Hts Hlt') as (obj' & Hobj' & _ & Hb' & Hu').
  simplify_eq.
  exists ts, obj, (loc_slot l * block_bytes (cfg_ p)), (loc_slot l' * block_bytes (cfg_ p)).
  assert (∀ i x rc, live p i x rc → block_offset i p = Ok (u64 (loc_slot x * block_bytes (cfg_ p)), p)) as Hoff.
  { intros i x rc Hi. unfold block_offset, mbind, M_bind. by rewrite (locate_run p i x rc Hi). }
  split_and!; [by rewrite Et|done|by rewrite (Hoff _ _ _ Hl), Hu|by rewrite (Hoff _ _ _ Hl'), Hu'|done..|].
  destruct (N.lt_trichotomy (loc_slot l) (loc_slot l')) as [Hs|[Hs|Hs]].
  - left. rewrite <-N.mul_succ_l. apply N.mul_le_mono_r. lia.
  - exfalso. apply Hne. apply (live_slot_inj p id id' l l' _ _ I Hl Hl'); congruence.
  - right. rewrite <-N.mul_succ_l. apply N.mul_le_mono_r. lia.
Qed.

End spec.

(** ** A concrete pool: two host tiers of two blocks of eight bytes *)

Module Example2.
Definition cfg : CacheConfig := {|
  num_blocks := 2; block_tokens := 2; num_layers := 1; num_kv_heads := 1; head_dim := 1;
  dtype_bytes := 2 |}.
Definition specs : list TierSpec :=
  [{| spec_tier := Some 0; spec_num_blocks := 2 |}; {| spec_tier := Some 1; spec_num_blocks := 2 |}].
Definition objs : gmap TierPtr HostTier.t := {[0 := small_tier; 1 := small_tier]}.

Definition run {A} (m : M (BlockPool HostTier.t) A) (p : BlockPool HostTier.t) : BlockPool HostTier.t :=
  match m p with Ok (_, p') => p' | Err _ => p end.

Definition p0 : BlockPool HostTier.t := empty_pool specs cfg objs.
(** Two blocks allocated: ids 0 and 1. *)
Definition p1 : BlockPool HostTier.t := run allocate p0.
Definition p2 : BlockPool HostTier.t := run allocate p1.
(** Block 0 on its way to the second tier. *)
Definition p3 : BlockPool HostTier.t := run (migrate_async 1 0 1) p2.

Lemma specs_fit : Forall (spec_ok cfg objs) specs.
Proof.
  repeat constructor; eexists _, small_tier; (split; [reflexivity|]); (split; [reflexivity|]);
    (split; [split; vm_compute; done|vm_compute; discriminate]).
Qed.

Lemma p0_ok : pool_ok p0.
Proof.
  apply empty_pool_ok; [done|apply specs_fit| |vm_compute; discriminate].
  apply NoDup_cons; split; [|apply NoDup_singleton]. intros H%list_elem_of_singleton. done.
Qed.

Lemma allocated_ok p id p' : pool_ok p → allocate p = Ok (id, p') → pool_ok p'.
Proof.
  intros Ok E. destruct (wp_run _ _ _ _ _ (allocate_spec p (proj1 Ok)) E) as (I & Q & _).
  by apply (quiet_ok p p').
Qed.

Lemma p1_ok : pool_ok p1.
Proof. eapply (allocated_ok p0 0); [apply p0_ok|]. vm_compute. reflexivity. Qed.
Lemma p2_ok : pool_ok p2.
Proof. eapply (allocated_ok p1 1); [apply p1_ok|]. vm_compute. reflexivity. Qed.

Lemma p3_ok : pool_ok p3.
Proof.
  assert (migrate_async 1 0 1 p2 = Ok (true, p3)) as E by (vm_compute; reflexivity).
  eapply wp_run in E; [|eapply migrate_async_spec; [apply p2_ok|vm_compute; reflexivity|vm_compute; lia]].
  destruct E as (I & Q & _). by apply (quiet_ok p2 p3 p2_ok).
Qed.

Lemma p2_running : running p2.
Proof. apply running_idle; [apply p2_ok|vm_compute; reflexivity..|by intros []]. Qed.
Lemma p3_running : running p3.
Proof. apply running_idle; [apply p3_ok|vm_compute; reflexivity..|by intros _]. Qed.

Definition v0 : BlockView := {| bv_refs := 1; bv_tier := 0; bv_target := None |}.
Definition v0' : BlockView := {| bv_refs := 1; bv_tier := 0; bv_target := Some 1 |}.

Lemma init_establishes_witness : ∃ p, init specs cfg objs = Ok p ∧ pool_ok p ∧ num_tiers p = 2%nat.
Proof.
  destruct (init_establishes specs cfg objs) as (p & H1 & H2 & _ & H3 & _).
  - discriminate.
  - apply specs_fit.
  - apply NoDup_cons; split; [|apply NoDup_singleton]. intros H%list_elem_of_singleton. discriminate.
  - vm_compute. discriminate.
  - exists p. split; [exact H1|]. split; [exact H2|]. exact H3.
Defined.

Lemma pool_allocate_witness : allocate p0 = Ok (0, p1) ∧ pool_ok p1 ∧ view p1 0 = Some v0.
Proof.
  assert (allocate p0 = Ok (0, p1)) as E by (vm_compute; reflexivity).
  pose proof (wp_run _ _ _ _ _ (pool_allocate p0 p0_ok) E) as H.
  split; [exact E|]. split; [apply H|]. vm_compute; reflexivity.
Defined.

Lemma pool_incref_witness : wp (incref 0) (λ _ p', pool_ok p') p1.
Proof.
  eapply wp_mono; [apply (pool_incref p1 0 v0); [apply p1_ok|vm_compute; reflexivity|vm_compute; reflexivity]|].
  intros [] p' H. apply H.
Defined.

Lemma pool_decref_witness : wp (decref 0) (λ b p', b = true ∧ view p' 0 = None) p3.
Proof.
  eapply wp_mono; [apply (pool_decref p3 0 v0'); [apply p3_ok|vm_compute; reflexivity]|].
  intros b p' (_ & _ & Hb & H). subst b. split; [reflexivity|]. destruct H as [_ H].
  rewrite (H 0). reflexivity.
Defined.

Lemma pool_dead_block_witness :
  aborts_on 3 (decref 3) p2 ∧ refcount 3 p2 = Ok (0, p2) ∧ aborts_on 9 (migrate 9 1) p2 ∧ aborts_on 9 (refcount 9) p2.
Proof.
  destruct (pool_dead_block 1 p2 3 1 p2_ok) as ((_ & H1 & _) & _ & _ & H2); [vm_compute; reflexivity|].
  destruct (pool_dead_block 1 p2 9 1 p2_ok) as ((_ & _ & _ & _ & _ & H3 & _) & _ & _ & H4); [vm_compute; reflexivity|].
  split; [exact H1|]. split; [exact H2|]. split; [exact H3|exact H4].
Defined.

Lemma pool_migrate_witness :
  wp (migrate 0 1) (λ ok p', ok = true ∧ view p' 0 = Some {| bv_refs := 1; bv_tier := 1; bv_target := None |}) p3.
Proof.
  eapply wp_mono; [apply (pool_migrate p3 0 v0' 1); [apply p3_ok|vm_compute; reflexivity|vm_compute; lia]|].
  intros ok p' (_ & _ & H). unfold migrate_outcome in H. rewrite decide_True in H.
  - destruct H as (-> & H & _). split; [reflexivity|]. rewrite (H 0). reflexivity.
  - split; vm_compute; discriminate.
Defined.

Lemma pool_migrate_async_witness : wp (migrate_async 1 0 1) (λ ok p', pool_ok p') p2.
Proof.
  eapply wp_mono; [apply (pool_migrate_async 1 p2 0 v0 1); [apply p2_ok|vm_compute; reflexivity|vm_compute; lia]|].
  intros ok p' H. apply H.
Defined.

Lemma pool_cancel_migration_witness : wp (cancel_migration 0) (λ _ p', view p' 0 = Some v0) p3.
Proof.
  eapply wp_mono; [apply (pool_cancel_migration p3 0), p3_ok|].
  intros [] p' (_ & _ & _ & H). rewrite (H 0). vm_compute. reflexivity.
Defined.

Lemma pool_drain_migrations_witness : wp drain_migrations (λ _ p', pool_ok p' ∧ contents_kept p3 p') p3.
Proof.
  eapply wp_mono; [apply (pool_drain_migrations p3), p3_ok|].
  intros [] p' (H1 & H2 & _). split; [exact H1|exact H2].
Defined.

(** With threads that take turns the wait returns; when the last wakeup comes
    before the copy is done it does not. *)
Lemma pool_wait_for_migrations_witness :
  wp (wait_for_migrations (Wk := round_robin))
    (λ _ p', view p' 0 = Some {| bv_refs := 1; bv_tier := 1; bv_target := None |}) p3 ∧
  wait_for_migrations (Wk := λ _, [[0; 0]; [0]]%nat) p3 = Err Blocked.
Proof.
  split; [|vm_compute; reflexivity].
  destruct (pool_wait_for_migrations (Wk := round_robin) p3 p3_running) as (_ & Hw & _).
  eapply wp_mono; [apply Hw, (round_robin_fair p3 p3_running)|].
  intros [] p' (_ & _ & _ & _ & H). rewrite (H 0). vm_compute. reflexivity.
Defined.

Lemma pool_blocks_disjoint_witness :
  ∃ o o', block_offset 0 p2 = Ok (o, p2) ∧ block_offset 1 p2 = Ok (o', p2) ∧ (o + 8 <= o' ∨ o' + 8 <= o).
Proof.
  destruct (pool_blocks_disjoint p2 0 1 v0 v0) as (ts & obj & o & o' & _ & _ & H1 & H2 & _ & _ & H3);
    [apply p2_ok|vm_compute; reflexivity|vm_compute; reflexivity|discriminate|reflexivity|].
  exists o, o'. split; [exact H1|]. split; [exact H2|exact H3].
Defined.

(** The vectors of libstdc++: at most 2^63 - 1 bytes, four to an id. *)
Definition room : string → N → option error := λ _ n, if 2 ^ 61 <=? n then Some LengthError else None.

(** A null tier is refused; so is, by the vector, a block count that wraps the
    product with the block size to 0. *)
Lemma init_accepts_iff_witness :
  let null := {| spec_tier := None; spec_num_blocks := 2 |} in
  let huge := {| spec_tier := Some 0; spec_num_blocks := 2 ^ 61 |} in
  init_in room (specs ++ [null]) cfg objs = Err (InvalidArgument "kvslab: null tier in pool spec") ∧
  accepted cfg objs huge ∧ init_in room [huge] cfg objs = Err LengthError ∧
  init_in room specs cfg objs = Ok (empty_pool specs cfg objs).
Proof.
  cbv zeta. split; [vm_compute; reflexivity|]. split; [|split].
  - exists 0, small_tier. split; [reflexivity|]. split; [reflexivity|]. vm_compute. discriminate.
  - reflexivity.
  - apply init_accepts_iff.
    + intros s ptr Hs Hp. pose proof specs_fit as Hf. rewrite Forall_forall in Hf.
      destruct (Hf s Hs) as (ptr' & t & Hp' & Ht & _). exists t. congruence.
    + split; [discriminate|]. split; [|split; [|reflexivity]].
      * eapply Forall_impl; [apply specs_fit|]. intros s. apply spec_ok_accepted.
      * repeat constructor.
Defined.
End Example2.
