(* ===== verification/PoolCalls.v ===== *)
(** * The pool in use

    Any sequence of calls of a block pool by its one scheduler, with the turns
    of the worker threads between them: the states a pool can get into, from its
    constructor on. No call in any of them fails, and none loses a slot. *)

From S2P Require Import Prelude Types Tier BlockPool PoolInv PoolOps PoolMigrate PoolAsync PoolWorker.
From S2P Require Import PoolHands PoolInit PoolSpec.

Open Scope N_scope.

Section calls.
Context {T : Type} `{TierLaws T} `{Wk : Wakes T} (hw : N).
Implicit Types p : BlockPool T.

(** The members of the class, a turn of a worker thread, and a write through
    the pointer of [block_data]. *)
Inductive pool_call :=
  | Allocate
  | Incref (id : BlockId)
  | Decref (id : BlockId)
  | Migrate (id : BlockId) (dst : TierIndex)
  | MigrateAsync (id : BlockId) (dst : TierIndex)
  | Cancel (id : BlockId)
  | Drain
  | WaitFor
  | Turn (w : nat)
  | Write (id : BlockId) (bs : list byte).

Definition run_call (c : pool_call) : M (BlockPool T) () :=
  match c with
  | Allocate => _ ← allocate; mret ()
  | Incref id => incref id
  | Decref id => _ ← decref id; mret ()
  | Migrate id dst => _ ← migrate id dst; mret ()
  | MigrateAsync id dst => _ ← migrate_async hw id dst; mret ()
  | Cancel id => cancel_migration id
  | Drain => drain_migrations
  | WaitFor => wait_for_migrations
  | Turn w => take_turn w
  | Write id bs => write_block id bs
  end.

(** What the caller respects: blocks are live, tiers exist, a count stays in 32
    bits, and a write is as long as a block and goes to one that stays put. *)
Definition legal (c : pool_call) p : Prop :=
  match c with
  | Incref id => ∃ v, view p id = Some v ∧ bv_refs v + 1 < two32
  | Decref id => is_Some (view p id)
  | Migrate id dst | MigrateAsync id dst => is_Some (view p id) ∧ (N.to_nat dst < num_tiers p)%nat
  | Write id bs => writable p id ∧ length bs = N.to_nat (block_bytes (cfg_ p))
  | _ => True
  end.

(** The states of a pool over the tiers of [specs]. *)
Inductive history (specs : list TierSpec) : BlockPool T → Prop :=
  | history_init cfg (objs : gmap TierPtr T) p :
      specs ≠ [] → Forall (spec_ok cfg objs) specs → NoDup (spec_tier <$> specs) →
      total_blocks specs <= kInvalidBlock → init specs cfg objs = Ok p → history specs p
  | history_call c p p' : history specs p → legal c p → run_call c p = Ok ((), p') → history specs p'.

(** Every call keeps the pool at work and its tiers as large as they are. *)
Definition carries_on p p' : Prop := running p' ∧ same_shape (tiers_ p) (tiers_ p').

Lemma quiet_carries p p' : running p → pool_inv p' → quiet p p' → carries_on p p'.
Proof. intros Rp I Q. split; [by eapply quiet_running|apply Q]. Qed.

Lemma run_call_ok c p : running p → legal c p → wp_unless (¬ fair) (run_call c) (λ _ p', carries_on p p') p.
Proof.
  intros Rp Hl. pose proof (running_inv _ Rp) as I. pose proof (rn_ok _ Rp) as Ok.
  destruct c as [|id|id|id dst|id dst|id| | |w|id bs]; cbn [run_call].
  8: { eapply wp_unless_mono; [by apply wait_unless_fair|done|]. intros [] p' [Rp' W]. split; [done|apply W]. }
  all: apply wp_unless_wp.
  - wp_step. eapply wp_mono; [by apply allocate_spec|]. intros x p' (I' & Q & _). wp_steps. by apply quiet_carries.
  - destruct Hl as (v & Hv & Hlt). eapply wp_mono; [by apply incref_spec|]. intros [] p' (I' & Q & _). by apply quiet_carries.
  - destruct Hl as [v Hv]. wp_step. eapply wp_mono; [by apply decref_spec|]. intros b p' (I' & Q & _). wp_steps. by apply quiet_carries.
  - destruct Hl as [[v Hv] Hd]. wp_step. eapply wp_mono; [by apply migrate_ok|].
    intros b p' (Ok' & _ & Sh & _ & K & _). wp_steps. split; [by eapply running_kept|done].
  - destruct Hl as [[v Hv] Hd]. wp_step. eapply wp_mono; [by apply migrate_async_spec|].
    intros b p' (I' & Q & _). wp_steps. by apply quiet_carries.
  - eapply wp_mono; [by apply cancel_migration_spec|]. intros [] p' (I' & Q & _). by apply quiet_carries.
  - eapply wp_mono; [by apply drain_migrations_spec|]. intros [] p' [Ok' D]. split; [by eapply running_kept; [..|apply D]|apply D].
  - eapply wp_mono; [apply take_turn_spec, Rp|]. intros [] p' [Mn W _ _ _].
    split; [by eapply running_worker|by rewrite (wr_tiers _ _ W)].
  - destruct Hl as [Hw Hlen]. eapply wp_mono; [apply (write_block_spec id bs p (hands_ p)); [done|apply Rp|done|done]|].
    intros [] p' (Ok' & _ & K & E & _). split; [by eapply running_kept|by rewrite E].
Qed.

Lemma history_running specs p :
  history specs p → running p ∧ ts_num_blocks <$> tiers_ p = spec_num_blocks <$> specs.
Proof.
  induction 1 as [cfg objs p Hne Hall Hnd Htot Hi|c p p' _ [Rp Sh] Hl E].
  - apply init_run in Hi as (_ & _ & ->). split; [|simpl; by rewrite <-list_fmap_compose].
    apply running_idle; [by apply empty_pool_ok|done..|by intros []].
  - pose proof (run_call_ok c p Rp Hl) as Hc. apply wp_unless_result in Hc as [[Hb _]|([] & q & E' & Rq & Sq)]; [congruence|].
    rewrite E in E'. injection E' as <-. split; [done|]. rewrite <-Sh. symmetry. apply same_shape_fmap; [|done].
    by intros x y [_ Hxy].
Qed.

(** C26: the pool in use. From its constructor on, whatever live blocks its
    scheduler allocates, shares, moves, copies and gives back, whatever it
    writes to them, and however the worker threads take their turns in between,
    no slot is ever lost or shared: each tier has the slots the constructor was
    given, and each of them is free, or holds one live block, or is reserved for
    one queued copy. There is an id for every free compute slot. And every call
    a caller may make returns, with the pool in such a state again; only a wait
    may last for good, when the workers do not come to an end. *)
Theorem pool_slots_partition specs p :
  history specs p →
  (∀ t s, specs !! N.to_nat t = Some s → ∃ ts, tiers_ p !! N.to_nat t = Some ts ∧
     ts_num_blocks ts = spec_num_blocks s ∧
     ts_free_slots ts ++ live_slots p t ++ reserved_slots p t ≡ₚ slot_range (spec_num_blocks s)) ∧
  (num_free p ≤ length (free_ids_ p))%nat ∧
  ∀ c, legal c p → wp_unless (¬ fair) (run_call c) (λ _ p', history specs p') p.
Proof.
  intros Hh. destruct (history_running specs p Hh) as [Rp Sh]. pose proof (running_inv _ Rp) as I. split_and!.
  - intros t s Hs. assert ((ts_num_blocks <$> tiers_ p) !! N.to_nat t = Some (spec_num_blocks s)) as Ht
      by (by rewrite Sh, list_lookup_fmap, Hs).
    apply list_lookup_fmap_Some in Ht as (ts & En & Hts). exists ts. split_and!; [done..|]. rewrite En. by apply (pi_slots _ I).
  - by apply free_ids_available.
  - intros c Hl. pose proof (run_call_ok c p Rp Hl) as Hc. apply wp_unless_result in Hc as [[Hb Hf]|([] & q & E & _)].
    + apply wp_unless_result. by left.
    + apply wp_unless_result. right. exists (), q. split; [done|]. by eapply history_call.
Qed.
End calls.

(** ** A run of the pool of Example2 *)

Module ExampleCalls.
Import Example2.
#[local] Existing Instance round_robin.

(** Two blocks, one on its way to the second tier, its copy claimed and then
    cancelled, since the block is given back. *)
Definition calls : list pool_call := [Allocate; Allocate; MigrateAsync 0 1; Turn 0; Turn 0; Decref 0].

Definition after (c : pool_call) (p : BlockPool HostTier.t) : BlockPool HostTier.t := run (run_call 1 c) p.
Definition q1 := after Allocate p0.
Definition q2 := after Allocate q1.
Definition q3 := after (MigrateAsync 0 1) q2.
Definition q4 := after (Turn 0) q3.
Definition q5 := after (Turn 0) q4.
Definition q6 := after (Decref 0) q5.

Lemma q0_history : history 1 specs p0.
Proof.
  apply (history_init 1 specs cfg objs); [done|apply specs_fit| |vm_compute; discriminate|vm_compute; reflexivity].
  apply NoDup_cons; split; [|apply NoDup_singleton]. by intros ?%list_elem_of_singleton.
Qed.

Lemma step c p : history 1 specs p → legal c p → run_call 1 c p = Ok ((), after c p) → history 1 specs (after c p).
Proof. intros. by eapply history_call. Qed.

Lemma q6_history : history 1 specs q6.
Proof.
  apply (step (Decref 0)); [|by eexists; vm_compute|by vm_compute].
  do 2 (apply (step (Turn 0)); [|done|by vm_compute]).
  apply (step (MigrateAsync 0 1)); [|by split; [eexists; vm_compute|vm_compute; lia]|by vm_compute].
  do 2 (apply (step Allocate); [|done|by vm_compute]). apply q0_history.
Qed.

(** Slot 0 of the first tier is free again and slot 1 in use; the copy nobody
    wants any more still holds a slot of the second. *)
Lemma pool_slots_partition_witness :
  live_slots q6 0 = [1] ∧ reserved_slots q6 1 = [0] ∧
  (∀ t s, specs !! N.to_nat t = Some s → ∃ ts, tiers_ q6 !! N.to_nat t = Some ts ∧
     ts_free_slots ts ++ live_slots q6 t ++ reserved_slots q6 t ≡ₚ [0; 1]) ∧
  wp_unless (¬ fair) (run_call 1 WaitFor) (λ _ p', history 1 specs p') q6.
Proof.
  destruct (pool_slots_partition 1 specs q6 q6_history) as (Hs & _ & Hc).
  split; [vm_compute; reflexivity|]. split; [vm_compute; reflexivity|]. split; [|by apply (Hc WaitFor)].
  intros t s Ht. destruct (Hs t s Ht) as (ts & H1 & _ & H3). exists ts. split; [exact H1|].
  assert (spec_num_blocks s = 2) as E.
  { apply list_elem_of_lookup_2 in Ht. unfold specs in Ht. apply elem_of_cons in Ht as [->|Ht]; [reflexivity|].
    apply list_elem_of_singleton in Ht. rewrite Ht. reflexivity. }
  rewrite E in H3. exact H3.
Defined.
End ExampleCalls.
