(* ===== verification/BlockStore.v ===== *)
(** * What the prefix tree needs of a pool

    src/radix_tree.cpp calls five members of [BlockPool]. They are the
    interface [BlockStore]; [BlockStoreLaws] states what they promise in terms
    of the views of blocks, and the block pool discharges it. *)

From S2P Require Import Prelude Types Tier BlockPool PoolInv PoolOps PoolMigrate PoolAsync PoolWorker PoolHands.

Open Scope N_scope.

Class BlockStore (P : Type) := {
  bs_incref : BlockId → M P ();
  bs_decref : BlockId → M P bool;
  bs_refcount : BlockId → M P N;
  bs_block_tier : BlockId → M P TierIndex;
  bs_migrating : BlockId → M P bool;
}.

(** The view [v] with another count. *)
Definition with_refs (n : N) (v : BlockView) : BlockView :=
  {| bv_refs := n; bv_tier := bv_tier v; bv_target := bv_target v |}.

(** Only the block [id] looks different, and now looks like [v]. *)
Definition views_upd (f g : BlockId → option BlockView) (id : BlockId) (v : option BlockView) : Prop :=
  ∀ id', g id' = if decide (id' = id) then v else f id'.

(** [bs_keeps p p'] is what the implementation promises beyond the views, for
    the clients that share the store: it has to survive any sequence of calls. *)
Class BlockStoreLaws (P : Type) `{BlockStore P} := {
  bs_ok : P → Prop;
  bs_view : P → BlockId → option BlockView;
  bs_keeps : P → P → Prop;
  bs_keeps_preorder :: PreOrder bs_keeps;
  bs_refs_pos p id v : bs_view p id = Some v → bv_refs v ≠ 0;
  bs_incref_law p id v :
    bs_ok p → bs_view p id = Some v → bv_refs v + 1 < two32 →
    wp (bs_incref id) (λ _ p', bs_ok p' ∧ bs_keeps p p' ∧
      views_upd (bs_view p) (bs_view p') id (Some (with_refs (bv_refs v + 1) v))) p;
  bs_decref_law p id v :
    bs_ok p → bs_view p id = Some v →
    wp (bs_decref id) (λ b p', bs_ok p' ∧ bs_keeps p p' ∧ b = bool_decide (bv_refs v = 1) ∧
      views_upd (bs_view p) (bs_view p') id
        (if b then None else Some (with_refs (bv_refs v - 1) v))) p;
  bs_refcount_law p id v :
    bs_ok p → bs_view p id = Some v → bs_refcount id p = Ok (bv_refs v, p);
  bs_block_tier_law p id v :
    bs_ok p → bs_view p id = Some v → bs_block_tier id p = Ok (bv_tier v, p);
  bs_migrating_law p id v :
    bs_ok p → bs_view p id = Some v →
    bs_migrating id p = Ok (bool_decide (is_Some (bv_target v)), p);
}.

(** ** The block pool

    Between two calls of the scheduler the workers take the turns they are going
    to take. A query comes without: no turn changes its answer. *)

#[global] Instance BlockPool_store {T} `{Tier T} : BlockStore (BlockPool T) := {|
  bs_incref id := preempt ;; incref id;
  bs_decref id := preempt ;; decref id;
  bs_refcount := refcount;
  bs_block_tier := block_tier;
  bs_migrating := migrating;
|}.

Section pool_store.
Context {T : Type} `{TierLaws T}.
Implicit Types p : BlockPool T.

(** Counts going up and down move no block and no byte of a block that stays,
    free slots only, and never bring a dead block back. *)
Record pool_keeps p p' : Prop := {
  pk_shape : same_shape (tiers_ p) (tiers_ p');
  pk_view id : is_Some (view p' id) → is_Some (view p id) ∧ block_contents p' id = block_contents p id;
  pk_free t : (tier_free p t ≤ tier_free p' t)%nat;
}.

#[export] Instance pool_keeps_preorder : PreOrder pool_keeps.
Proof.
  split.
  - intros p. by constructor.
  - intros p q r [A1 A2 A3] [B1 B2 B3]. constructor.
    + by etrans.
    + intros id Hid. destruct (B2 id Hid) as [Hq E], (A2 id) as [Hp E']; [done..|]. split; congruence.
    + intros t. specialize (A3 t). specialize (B3 t). lia.
Qed.

Lemma worker_keeps p p' : worker_result p p' → pool_keeps p p'.
Proof.
  intros [W1 W2 W3 W4 _ W5 W6]. constructor.
  - by rewrite W2.
  - intros id. rewrite W5. intros Hid. split; [done|by apply W6].
  - intros t. unfold tier_free. by rewrite W2.
Qed.

Lemma quiet_keeps p p' :
  quiet p p' → (∀ id, is_Some (view p' id) → is_Some (view p id)) → (∀ t, (tier_free p t ≤ tier_free p' t)%nat) →
  pool_keeps p p'.
Proof.
  intros Q Hv Hf. constructor; [apply Q| |done]. intros id Hid. specialize (Hv id Hid). split; [done|].
  by apply quiet_contents.
Qed.

Lemma view_refs_pos p id v : view p id = Some v → bv_refs v ≠ 0.
Proof. by intros (l & (_ & _ & Hz) & _)%view_live. Qed.

Lemma refcount_run p id v : view p id = Some v → refcount id p = Ok (bv_refs v, p).
Proof.
  intros (l & Hl & _)%view_live. pose proof (in_range p id l _ Hl) as Hr. destruct Hl as (_ & Hrc & _).
  unfold refcount, refcount_at, at_, mbind, M_bind, get. rewrite Hr, Hrc. done.
Qed.

Lemma block_tier_run p id v : view p id = Some v → block_tier id p = Ok (bv_tier v, p).
Proof.
  intros (l & Hl & Ht & _)%view_live. unfold block_tier, mbind, M_bind.
  rewrite (locate_run p id l _ Hl). by rewrite Ht.
Qed.

Lemma migrating_run p id v :
  pool_inv p → view p id = Some v →
  migrating id p = Ok (bool_decide (is_Some (bv_target v)), p).
Proof.
  intros I (l & _ & _ & Ht)%view_live. unfold migrating, mbind, M_bind, get, mret, M_ret.
  do 2 f_equal. apply bool_decide_ext. rewrite Ht. split; intros Hs.
  - destruct (target p id) eqn:E; [by eexists|]. apply target_None in E; [|done].
    rewrite E in Hs. by destruct Hs.
  - destruct (migrating_ p !! id) eqn:E; [by eexists|]. apply (target_None p id I) in E.
    rewrite E in Hs. by destruct Hs.
Qed.
End pool_store.

#[global] Program Instance BlockPool_store_laws {T} `{TierLaws T} : BlockStoreLaws (BlockPool T) := {|
  bs_ok := running;
  bs_view := view;
  bs_keeps := pool_keeps;
|}.
Next Obligation. intros. by eapply view_refs_pos. Qed.
Next Obligation.
  intros T HT HL p id v Rn Hv Hlt. cbn. wp_step. apply wp_preempt; [done|]. intros q Rq W.
  rewrite <-(wr_view _ _ W) in Hv.
  eapply wp_mono; [by apply incref_spec; [by apply running_inv|..]|]. intros [] p' (I & Q & F & V).
  assert (views_upd (view p) (view p') id (Some (with_refs (bv_refs v + 1) v))) as V'
    by (intros x; rewrite V; case_decide; [done|apply W]).
  split_and!; [|etrans; [by apply worker_keeps|apply quiet_keeps; [done| |intros t; by rewrite F]]|done].
  - by eapply quiet_running.
  - intros x. rewrite V. case_decide; [subst; intros _; by eexists|done].
Qed.
Next Obligation.
  intros T HT HL p id v Rn Hv. cbn. wp_step. apply wp_preempt; [done|]. intros q Rq W.
  rewrite <-(wr_view _ _ W) in Hv.
  eapply wp_mono; [by apply decref_spec; [by apply running_inv|..]|]. intros b p' (I & Q & Hb & R).
  assert (views_upd (view q) (view p') id (if b then None else Some (with_refs (bv_refs v - 1) v))) as V
    by (destruct b; apply R).
  split_and!; [|etrans; [by apply worker_keeps|apply quiet_keeps; [done|..]]|done|].
  - by eapply quiet_running.
  - intros x. rewrite V. destruct (decide (x = id)) as [->|]; [intros _; by eexists|done].
  - intros t. destruct b; destruct R as [F _]; [specialize (F t); case_decide; lia|by rewrite F].
  - intros x. rewrite V. destruct (decide (x = id)); [done|apply W].
Qed.
Next Obligation. intros. by apply refcount_run. Qed.
Next Obligation. intros. by apply block_tier_run. Qed.
Next Obligation. intros T HT HL p id v Rp Hv. by apply migrating_run; [apply running_inv|]. Qed.
