(* ===== verification/RadixTree.v ===== *)
(** * The prefix tree

    include/kvslab/radix_tree.hpp and src/radix_tree.cpp: a block-aligned radix
    tree over token sequences. Nodes live in a heap, because callers hold
    pointers to them and splits rely on those pointers staying valid; children
    are a map from block keys to nodes; parents are back pointers. The pool the
    tree takes references in is any [BlockStore]; a method of the tree runs on
    the pair of the two. *)

From S2P Require Import Prelude Types BlockPool BlockStore.

Local Open Scope nat_scope.

Abbreviation NodePtr := N (only parsing).

Record Node := {
  tokens : list TokenId;
  blocks : list BlockId;
  children : gmap N NodePtr;
  parent : option NodePtr;
  lock_count : N;
  last_access : N;
}.

Definition set_run (ts : list TokenId) (bs : list BlockId) (p : NodePtr) (n : Node) : Node := {|
  tokens := ts; blocks := bs; children := children n; parent := Some p;
  lock_count := lock_count n; last_access := last_access n |}.
Definition set_blocks (bs : list BlockId) (n : Node) : Node := {|
  tokens := tokens n; blocks := bs; children := children n; parent := parent n;
  lock_count := lock_count n; last_access := last_access n |}.
Definition set_children (cs : gmap N NodePtr) (n : Node) : Node := {|
  tokens := tokens n; blocks := blocks n; children := cs; parent := parent n;
  lock_count := lock_count n; last_access := last_access n |}.
Definition set_lock (k : N) (n : Node) : Node := {|
  tokens := tokens n; blocks := blocks n; children := children n; parent := parent n;
  lock_count := k; last_access := last_access n |}.
Definition set_access (k : N) (n : Node) : Node := {|
  tokens := tokens n; blocks := blocks n; children := children n; parent := parent n;
  lock_count := lock_count n; last_access := k |}.

(** A value-initialised [Node]. *)
Definition empty_node : Node := {|
  tokens := []; blocks := []; children := ∅; parent := None; lock_count := 0; last_access := 0 |}.

Record RadixTree := mk_tree {
  block_tokens_ : nat;
  nodes : gmap NodePtr Node;
  root_ : NodePtr;
  clock_ : N;
  stored_blocks_ : N;
  num_nodes_ : N;
  collisions_ : N;
  node_next : NodePtr;
}.

Definition upd_nodes (m : gmap NodePtr Node) (t : RadixTree) : RadixTree :=
  mk_tree (block_tokens_ t) m (root_ t) (clock_ t) (stored_blocks_ t) (num_nodes_ t)
    (collisions_ t) (node_next t).
Definition upd_clock (c : N) (t : RadixTree) : RadixTree :=
  mk_tree (block_tokens_ t) (nodes t) (root_ t) c (stored_blocks_ t) (num_nodes_ t)
    (collisions_ t) (node_next t).
Definition upd_counts (stored num : N) (t : RadixTree) : RadixTree :=
  mk_tree (block_tokens_ t) (nodes t) (root_ t) (clock_ t) stored num (collisions_ t) (node_next t).
Definition upd_collisions (c : N) (t : RadixTree) : RadixTree :=
  mk_tree (block_tokens_ t) (nodes t) (root_ t) (clock_ t) (stored_blocks_ t) (num_nodes_ t)
    c (node_next t).
Definition upd_next (l : NodePtr) (t : RadixTree) : RadixTree :=
  mk_tree (block_tokens_ t) (nodes t) (root_ t) (clock_ t) (stored_blocks_ t) (num_nodes_ t)
    (collisions_ t) l.

Record MatchResult := {
  mr_num_tokens : nat;
  mr_blocks : list BlockId;
  mr_node : option NodePtr;
}.

(** [for (auto& [key, child] : children)] visits the entries of an
    [unordered_map] in an order the library chooses. *)
Class IterOrder := {
  iter : gmap N NodePtr → list (N * NodePtr);
  iter_perm m : iter m ≡ₚ map_to_list m;
}.

(** [RadixTree(pool, block_tokens)] *)
Definition make_tree (block_tokens : nat) : result RadixTree :=
  if 0 <? block_tokens
  then Ok (mk_tree block_tokens {[0%N := empty_node]} 0 0 0 0 0 1)
  else Err (AssertFailed "block_tokens_ > 0").

(** The inner loop of [match_prefix] and [insert]: how many whole blocks of the
    child's run agree with the tokens from the current position on, of [max]
    at most. [n] is [max - common]. *)
Fixpoint common_blocks (bt : nat) (run query : list TokenId) (n common : nat) : nat :=
  match n with
  | O => common
  | S n =>
      if bool_decide (slice (common * bt) bt run = slice (common * bt) bt query)
      then common_blocks bt run query n (S common)
      else common
  end.

(** [blocks.size() * block_tokens_] in [size_t]. *)
Definition mul_size (a b : nat) : nat := N.to_nat (u64 (N.of_nat a * N.of_nat b)).

Section tree.
Context {P : Type} `{BlockStore P} `{IterOrder}.

Abbreviation RM := (M (P * RadixTree)).

Definition on_pool {A} (m : M P A) : RM A := zoom fst (λ p s, (p, s.2)) m.
Definition get_tree : RM RadixTree := gets snd.
Definition upd_tree (f : RadixTree → RadixTree) : RM () := modify (λ s, (s.1, f s.2)).

(** [*node], [*node = n] and [make_unique<Node>(n)]. *)
Definition node_at (l : NodePtr) : RM Node :=
  t ← get_tree; of_option (BadPointer "node") (nodes t !! l).
Definition set_node (l : NodePtr) (n : Node) : RM () :=
  upd_tree (λ t, upd_nodes (<[l := n]> (nodes t)) t).
Definition new_node (n : Node) : RM NodePtr :=
  t ← get_tree;
  upd_tree (λ t, upd_next (node_next t + 1)%N (upd_nodes (<[node_next t := n]> (nodes t)) t)) ;;
  mret (node_next t).

Definition touch (l : NodePtr) : RM () :=
  upd_tree (λ t, upd_clock (u64 (clock_ t + 1)) t) ;;
  t ← get_tree;
  n ← node_at l;
  set_node l (set_access (clock_ t) n).

Definition release_blocks (l : NodePtr) : RM () :=
  n ← node_at l;
  for_each (blocks n) (λ id, _ ← on_pool (bs_decref id); mret ()) ;;
  set_node l (set_blocks [] n).

(** ** Splitting *)

Definition split_node (node : NodePtr) (offset : nat) : RM NodePtr :=
  t ← get_tree;
  let bt := block_tokens_ t in
  n ← node_at node;
  assert ((0 <? offset) && (offset <? length (tokens n))) "offset > 0 && offset < node->tokens.size()" ;;
  assert (offset mod bt =? 0) "offset % block_tokens_ == 0" ;;
  par ← of_option (BadPointer "parent") (parent n);
  let head_key := block_key (tokens n) bt in
  let head_blocks := offset / bt in
  pn ← node_at par;
  owned ← of_option (BadPointer "children[head_key]") (children pn !! head_key);
  (if length (blocks n) <? head_blocks then fail (OutOfBounds "blocks") else mret ()) ;;
  head ← new_node {|
    tokens := take offset (tokens n); blocks := take head_blocks (blocks n); children := ∅;
    parent := Some par; lock_count := lock_count n; last_access := last_access n |};
  set_node node (set_run (drop offset (tokens n)) (drop head_blocks (blocks n)) head n) ;;
  let tail_key := block_key (drop offset (tokens n)) bt in
  hn ← node_at head;
  set_node head (set_children (<[tail_key := owned]> (children hn)) hn) ;;
  pn ← node_at par;
  set_node par (set_children (<[head_key := head]> (children pn)) pn) ;;
  upd_tree (λ t, upd_counts (stored_blocks_ t) (u64 (num_nodes_ t + 1)) t) ;;
  mret head.

(** ** Walking down

    The loops of [match_prefix] and of [insert] make the same moves; one also
    collects the blocks it passes and the deepest node. The state of the loop
    is the current node, the position, the blocks and that node. *)

Definition walk : Type := NodePtr * nat * list BlockId * option NodePtr.

Definition descend_round (query : list TokenId) (limit : nat) (w : walk) : RM (walk + walk) :=
  let '(cur, pos, res, node) := w in
  t ← get_tree;
  let bt := block_tokens_ t in
  if pos <? limit then
    n ← node_at cur;
    match children n !! block_key (drop pos query) bt with
    | None => mret (inr w)
    | Some child =>
        c ← node_at child;
        let max_blocks := Nat.min (length (blocks c)) ((limit - pos) / bt) in
        let common := common_blocks bt (tokens c) (drop pos query) max_blocks 0 in
        if common =? 0 then mret (inr w) else
        let res' := res ++ take common (blocks c) in
        let pos' := pos + common * bt in
        if common <? length (blocks c) then
          head ← split_node child (common * bt);
          touch head ;;
          mret (inr (head, pos', res', Some head))
        else
          touch child ;;
          mret (inl (child, pos', res', Some child))
    end
  else mret (inr w).

(** Each round but the last moves at least one block on. *)
Definition descend (query : list TokenId) (limit : nat) : RM walk :=
  t ← get_tree;
  loop (S limit) (descend_round query limit) (root_ t, 0, [], None).

Definition match_prefix (query : list TokenId) : RM MatchResult :=
  t ← get_tree;
  let bt := block_tokens_ t in
  let limit := length query / bt * bt in
  '(_, pos, res, node) ← descend query limit;
  mret {| mr_num_tokens := pos; mr_blocks := res; mr_node := node |}.

Definition insert (query : list TokenId) (table : list BlockId) : RM nat :=
  t ← get_tree;
  let bt := block_tokens_ t in
  let limit := Nat.min (length query / bt * bt) (mul_size (length table) bt) in
  '(cur, pos, _, _) ← descend query limit;
  if limit <=? pos then
    touch cur ;;
    mret 0
  else
    let key := block_key (drop pos query) bt in
    n ← node_at cur;
    match children n !! key with
    | Some _ =>
        upd_tree (λ t, upd_collisions (u64 (collisions_ t + 1)) t) ;;
        mret 0
    | None =>
        let bs := slice (pos / bt) (limit / bt - pos / bt) table in
        leaf ← new_node {|
          tokens := slice pos (limit - pos) query; blocks := bs; children := ∅;
          parent := Some cur; lock_count := 0; last_access := 0 |};
        touch leaf ;;
        for_each bs (λ id, on_pool (bs_incref id)) ;;
        n ← node_at cur;
        set_node cur (set_children (<[key := leaf]> (children n)) n) ;;
        upd_tree (λ t, upd_counts (u64 (stored_blocks_ t + size_of bs))
                         (u64 (num_nodes_ t + 1)) t) ;;
        mret (length bs)
    end.

(** ** Eviction *)

Fixpoint all_sole (bs : list BlockId) : RM bool :=
  match bs with
  | [] => mret true
  | id :: bs =>
      rc ← on_pool (bs_refcount id);
      if negb (rc =? 1)%N then mret false else all_sole bs
  end.
Definition tree_is_sole_owner (node : NodePtr) : RM bool :=
  n ← node_at node; all_sole (blocks n).

Fixpoint decref_all (bs : list BlockId) (freed : nat) : RM nat :=
  match bs with
  | [] => mret freed
  | id :: bs =>
      b ← on_pool (bs_decref id);
      decref_all bs (if (b : bool) then S freed else freed)
  end.

Definition drop_leaf (victim : NodePtr) : RM nat :=
  n ← node_at victim;
  freed ← decref_all (blocks n) 0;
  upd_tree (λ t, upd_counts (sub64 (stored_blocks_ t) (size_of (blocks n)))
                   (sub64 (num_nodes_ t) 1) t) ;;
  par ← of_option (BadPointer "parent") (parent n);
  t ← get_tree;
  let key := block_key (tokens n) (block_tokens_ t) in
  pn ← node_at par;
  set_node par (set_children (delete key (children pn)) pn) ;;
  match children pn !! key with
  | Some v => upd_tree (λ t, upd_nodes (delete v (nodes t)) t)
  | None => mret ()
  end ;;
  mret freed.

(** What [find_lru_leaf] looks for in a node other than the root. *)
Definition candidate (t : RadixTree) (rejected : list NodePtr) (l : NodePtr) (n : Node) : bool :=
  negb (l =? root_ t)%N && bool_decide (children n = ∅) && (lock_count n =? 0)%N
  && negb (bool_decide (l ∈ rejected)).

(** The stack's [back()] is the head of the list. *)
Definition lru_round (rejected : list NodePtr) (st : list NodePtr * option NodePtr)
    : RM ((list NodePtr * option NodePtr) + option NodePtr) :=
  let '(stack, best) := st in
  match stack with
  | [] => mret (inr best)
  | node :: stack =>
      n ← node_at node;
      t ← get_tree;
      let stack := rev ((iter (children n)).*2) ++ stack in
      if candidate t rejected node n then
        match best with
        | None => mret (inl (stack, Some node))
        | Some b =>
            bn ← node_at b;
            mret (inl (stack, if (last_access n <? last_access bn)%N then Some node else best))
        end
      else mret (inl (stack, best))
  end.

Definition find_lru_leaf (rejected : list NodePtr) : RM (option NodePtr) :=
  t ← get_tree;
  loop (2 + size (nodes t)) (lru_round rejected) ([root_ t], None).

Definition evict_round (num_blocks : nat) (st : nat * list NodePtr)
    : RM ((nat * list NodePtr) + nat) :=
  let '(freed, rejected) := st in
  if freed <? num_blocks then
    v ← find_lru_leaf rejected;
    match v with
    | None => mret (inr freed)
    | Some victim =>
        sole ← tree_is_sole_owner victim;
        if negb sole then mret (inl (freed, rejected ++ [victim])) else
        reclaimed ← drop_leaf victim;
        assert (0 <? reclaimed) "a sole-owner leaf freed nothing" ;;
        mret (inl (freed + reclaimed, rejected))
    end
  else mret (inr freed).

Definition evict (num_blocks : nat) : RM nat :=
  t ← get_tree;
  loop (S (size (nodes t))) (evict_round num_blocks) (0, []).

(** ** Demotion *)

(** The loop over one victim's blocks; [before] is the size [out] had at the
    start. *)
Fixpoint pick_blocks (num_slots before : nat) (bs : list BlockId) (out : list BlockId)
    : RM (list BlockId) :=
  match bs with
  | [] => mret out
  | id :: bs =>
      if num_slots <=? length out - before then mret out else
      tier ← on_pool (bs_block_tier id);
      if negb (tier =? 0)%N then pick_blocks num_slots before bs out else
      rc ← on_pool (bs_refcount id);
      if negb (rc =? 1)%N then pick_blocks num_slots before bs out else
      mig ← on_pool (bs_migrating id);
      if (mig : bool) then pick_blocks num_slots before bs out else
      pick_blocks num_slots before bs (out ++ [id])
  end.

Definition pick_round (num_slots before : nat) (st : list BlockId * list NodePtr)
    : RM ((list BlockId * list NodePtr) + list BlockId) :=
  let '(out, rejected) := st in
  if length out - before <? num_slots then
    v ← find_lru_leaf rejected;
    match v with
    | None => mret (inr out)
    | Some victim =>
        n ← node_at victim;
        out ← pick_blocks num_slots before (blocks n) out;
        mret (inl (out, rejected ++ [victim]))
    end
  else mret (inr out).

(** Returns the count and [out] with the picks appended. *)
Definition pick_demotion_victims (num_slots : nat) (out : list BlockId)
    : RM (nat * list BlockId) :=
  t ← get_tree;
  out' ← loop (S (size (nodes t))) (pick_round num_slots (length out)) (out, []);
  mret (length out' - length out, out').

(** ** Pins *)

Definition lock_round (o : option NodePtr) : RM (option NodePtr + ()) :=
  t ← get_tree;
  match o with
  | Some l =>
      if (l =? root_ t)%N then mret (inr ()) else
      n ← node_at l;
      set_node l (set_lock (u32 (lock_count n + 1)) n) ;;
      mret (inl (parent n))
  | None => mret (inr ())
  end.
Definition lock (node : option NodePtr) : RM () :=
  t ← get_tree; loop (2 + size (nodes t)) lock_round node.

Definition unlock_round (o : option NodePtr) : RM (option NodePtr + ()) :=
  t ← get_tree;
  match o with
  | Some l =>
      if (l =? root_ t)%N then mret (inr ()) else
      n ← node_at l;
      assert (negb (lock_count n =? 0)%N) "unbalanced unlock" ;;
      set_node l (set_lock (lock_count n - 1)%N n) ;;
      mret (inl (parent n))
  | None => mret (inr ())
  end.
Definition unlock (node : option NodePtr) : RM () :=
  t ← get_tree; loop (2 + size (nodes t)) unlock_round node.

(** ** The destructor *)

Definition destroy_round (pending : list NodePtr) : RM (list NodePtr + ()) :=
  match pending with
  | [] => mret (inr ())
  | l :: pending =>
      release_blocks l ;;
      n ← node_at l;
      upd_tree (λ t, upd_nodes (delete l (nodes t)) t) ;;
      mret (inl (rev ((iter (children n)).*2) ++ pending))
  end.
Definition destroy : RM () :=
  t ← get_tree; loop (2 + size (nodes t)) destroy_round [root_ t].
End tree.
