(* ===== verification/RadixInv.v ===== *)
(** * The prefix tree's invariant and what it caches

    [tree_inv] is the shape of the node heap: a tree whose nodes each own a
    non-empty run of whole blocks, filed under the key of the run's first
    block. [find] is what the tree means: the block cached for a sequence of
    whole blocks of tokens, if any. *)

From S2P Require Import Prelude Types BlockPool PoolInv BlockStore RadixTree.

Local Open Scope nat_scope.

Abbreviation chunk := (list TokenId) (only parsing).

(** The whole blocks of a token sequence. *)
Definition chunk_at (bt i : nat) (q : list TokenId) : chunk := slice (i * bt) bt q.
Definition chunks (bt : nat) (q : list TokenId) : list chunk :=
  (λ i, chunk_at bt i q) <$> seq 0 (length q / bt).

Lemma block_key_take q bt : block_key (take bt q) bt = block_key q bt.
Proof. unfold block_key. by rewrite take_take, Nat.min_id. Qed.

Lemma block_key_chunk bt i q : block_key (chunk_at bt i q) bt = block_key (drop (i * bt) q) bt.
Proof. unfold chunk_at, slice. apply block_key_take. Qed.

Lemma chunk_at_0 bt q : chunk_at bt 0 q = take bt q.
Proof. done. Qed.

Lemma chunk_at_drop bt i j q : chunk_at bt i (drop (j * bt) q) = chunk_at bt (j + i) q.
Proof. unfold chunk_at, slice. rewrite drop_drop. f_equal. f_equal. lia. Qed.

Lemma chunk_at_take bt i n q : i < n → chunk_at bt i (take (n * bt) q) = chunk_at bt i q.
Proof.
  intros Hi. unfold chunk_at. apply list_eq. intros k. rewrite !lookup_slice.
  case_decide; [|done]. apply lookup_take_lt. nia.
Qed.

Lemma length_chunks bt q : length (chunks bt q) = length q / bt.
Proof. unfold chunks. by rewrite length_fmap, length_seq. Qed.

Lemma lookup_chunks bt q i c :
  chunks bt q !! i = Some c ↔ i < length q / bt ∧ c = chunk_at bt i q.
Proof.
  unfold chunks. rewrite list_lookup_fmap_Some. setoid_rewrite lookup_seq.
  split; [intros (k & -> & -> & ?)|intros [? ->]]; [done|]. exists i. auto.
Qed.

Section shape.
Context (m : gmap NodePtr Node) (root : NodePtr).

(** [chain l ls]: the nodes from [l] up to, and without, the root. *)
Inductive chain : NodePtr → list NodePtr → Prop :=
  | chain_root : chain root []
  | chain_up l n p ls :
      l ≠ root → m !! l = Some n → parent n = Some p → chain p ls → chain l (l :: ls).
End shape.

Record tree_inv (t : RadixTree) : Prop := {
  ti_bt : 0 < block_tokens_ t;
  ti_root : ∃ rn, nodes t !! root_ t = Some rn ∧ tokens rn = [] ∧ blocks rn = [] ∧ parent rn = None;
  ti_run l n : nodes t !! l = Some n → l ≠ root_ t →
    length (tokens n) = length (blocks n) * block_tokens_ t ∧ blocks n ≠ [];
  ti_parent l n : nodes t !! l = Some n → l ≠ root_ t →
    ∃ p pn, parent n = Some p ∧ nodes t !! p = Some pn ∧
      children pn !! block_key (tokens n) (block_tokens_ t) = Some l;
  ti_child p pn k c : nodes t !! p = Some pn → children pn !! k = Some c →
    c ≠ root_ t ∧ ∃ n, nodes t !! c = Some n ∧ parent n = Some p ∧
      block_key (tokens n) (block_tokens_ t) = k;
  ti_chain l : is_Some (nodes t !! l) → ∃ ls, chain (nodes t) (root_ t) l ls;
  ti_next l : is_Some (nodes t !! l) → (l < node_next t)%N;
}.

(** ** Reading the tree *)

(** A position is a node and how many of its blocks have been consumed. *)
Abbreviation position := (N * nat)%type (only parsing).

Definition step_chunk (t : RadixTree) (x : position) (c : chunk) : option (position * BlockId) :=
  let bt := block_tokens_ t in
  n ← nodes t !! x.1;
  match blocks n !! x.2 with
  | Some b => if decide (chunk_at bt x.2 (tokens n) = c) then Some ((x.1, S x.2), b) else None
  | None =>
      l ← children n !! block_key c bt;
      d ← nodes t !! l;
      b ← blocks d !! 0;
      if decide (chunk_at bt 0 (tokens d) = c) then Some ((l, 1), b) else None
  end.

(** The longest walk along [cs], with the blocks passed. *)
Fixpoint follow (t : RadixTree) (x : position) (cs : list chunk) : list BlockId * position :=
  match cs with
  | [] => ([], x)
  | c :: cs =>
      match step_chunk t x c with
      | Some (y, b) => let r := follow t y cs in (b :: r.1, r.2)
      | None => ([], x)
      end
  end.

Definition cached (t : RadixTree) (cs : list chunk) : list BlockId := (follow t (root_ t, 0) cs).1.

(** The block cached for exactly the prefix [cs]. *)
Definition find (t : RadixTree) (cs : list chunk) : option BlockId :=
  if decide (length (cached t cs) = length cs) then last (cached t cs) else None.

Lemma follow_app t x cs ds :
  length (follow t x cs).1 = length cs →
  follow t x (cs ++ ds)
  = ((follow t x cs).1 ++ (follow t (follow t x cs).2 ds).1, (follow t (follow t x cs).2 ds).2).
Proof.
  revert x. induction cs as [|c cs IH]; intros x Hl; simpl in *.
  - by destruct (follow t x ds).
  - destruct (step_chunk t x c) as [[y b]|]; simpl in *; [|done].
    rewrite IH by lia. done.
Qed.

Lemma follow_length t x cs : length (follow t x cs).1 ≤ length cs.
Proof.
  revert x. induction cs as [|c cs IH]; intros x; simpl; [lia|].
  destruct (step_chunk t x c) as [[y b]|]; simpl; [|lia]. specialize (IH y). lia.
Qed.

(** A walk along a prefix is a prefix of the walk. *)
Lemma follow_take t x cs k : (follow t x (take k cs)).1 = take k (follow t x cs).1.
Proof.
  revert x k. induction cs as [|c cs IH]; intros x [|k]; simpl; try done.
  destruct (step_chunk t x c) as [[y b]|]; simpl; [|done]. by rewrite IH.
Qed.

(** The blocks along a sequence are the values of [find] at its prefixes, up to
    the first prefix that is not cached. *)
Lemma cached_find t cs i :
  cached t cs !! i = if decide (i < length cs) then find t (take (S i) cs) else None.
Proof.
  unfold find, cached. rewrite follow_take. pose proof (follow_length t (root_ t, 0) cs) as Hl.
  set (r := (follow t (root_ t, 0) cs).1) in *. case_decide as Hi.
  - rewrite !length_take. case_decide as Hk.
    + rewrite last_lookup, length_take.
      replace (Init.Nat.pred (S i `min` length r)) with i by lia. by rewrite lookup_take_lt by lia.
    + apply lookup_ge_None. lia.
  - apply lookup_ge_None. lia.
Qed.

Lemma find_nil t : find t [] = None.
Proof. done. Qed.

(** ** Trees with the same structure

    Recency and pins do not matter to what the tree is: [same_struct] relates
    trees whose nodes differ in these two fields only. *)

Definition struct (n : Node) : list TokenId * list BlockId * gmap N NodePtr * option NodePtr :=
  (tokens n, blocks n, children n, parent n).

Record same_struct (t t' : RadixTree) : Prop := {
  ss_bt : block_tokens_ t' = block_tokens_ t;
  ss_root : root_ t' = root_ t;
  ss_next : node_next t' = node_next t;
  ss_nodes l : struct <$> nodes t' !! l = struct <$> nodes t !! l;
}.

#[global] Instance same_struct_equiv : Equivalence same_struct.
Proof.
  split.
  - by constructor.
  - intros t t' [? ? ? E]. by constructor.
  - intros t t' t'' [? ? ? E] [? ? ? E']. constructor; congruence.
Qed.

Lemma struct_Some (o : option Node) n :
  struct <$> o = struct <$> Some n → ∃ n', o = Some n' ∧ tokens n' = tokens n ∧
    blocks n' = blocks n ∧ children n' = children n ∧ parent n' = parent n.
Proof. destruct o as [n'|]; intros E; [|done]. injection E as E1 E2 E3 E4. eauto 10. Qed.

Lemma same_struct_lookup t t' l n :
  same_struct t t' → nodes t !! l = Some n → ∃ n', nodes t' !! l = Some n' ∧
    tokens n' = tokens n ∧ blocks n' = blocks n ∧ children n' = children n ∧ parent n' = parent n.
Proof. intros S Hl. apply struct_Some. by rewrite (ss_nodes _ _ S), Hl. Qed.

Lemma same_struct_None t t' l : same_struct t t' → nodes t !! l = None → nodes t' !! l = None.
Proof. intros S Hl. pose proof (ss_nodes _ _ S l) as E. rewrite Hl in E. by destruct (nodes t' !! l). Qed.

Lemma step_chunk_struct t t' x c : same_struct t t' → step_chunk t' x c = step_chunk t x c.
Proof.
  intros S. unfold step_chunk. rewrite (ss_bt _ _ S).
  destruct (nodes t !! x.1) as [n|] eqn:Hn; simpl; [|by rewrite (same_struct_None t t')].
  destruct (same_struct_lookup t t' _ n S Hn) as (n' & Hn' & E1 & E2 & E3 & _).
  rewrite Hn'. simpl. rewrite E1, E2, E3.
  destruct (blocks n !! x.2); [done|]. destruct (children n !! _) as [l|]; [|done]. simpl.
  destruct (nodes t !! l) as [d|] eqn:Hd; simpl; [|by rewrite (same_struct_None t t')].
  destruct (same_struct_lookup t t' _ d S Hd) as (d' & Hd' & E4 & E5 & _).
  rewrite Hd'. simpl. by rewrite E4, E5.
Qed.

Lemma follow_struct t t' x cs : same_struct t t' → follow t' x cs = follow t x cs.
Proof.
  intros S. revert x. induction cs as [|c cs IH]; intros x; [done|]. simpl.
  rewrite (step_chunk_struct t t') by done. destruct (step_chunk t x c) as [[y b]|]; [|done].
  by rewrite IH.
Qed.

Lemma cached_struct t t' cs : same_struct t t' → cached t' cs = cached t cs.
Proof. intros S. unfold cached. by rewrite (follow_struct t t') by done; rewrite (ss_root _ _ S). Qed.

Lemma find_struct t t' cs : same_struct t t' → find t' cs = find t cs.
Proof. intros S. unfold find. by rewrite (cached_struct t t'). Qed.

(** A chain only reads the parents of the nodes on it. *)
Lemma chain_ext m m' root l ls :
  (∀ x n, x ∈ ls → m !! x = Some n → ∃ n', m' !! x = Some n' ∧ parent n' = parent n) →
  chain m root l ls → chain m' root l ls.
Proof.
  intros Hext H. induction H as [|l n p ls Hne Hl Hp Hc IH]; [constructor|].
  destruct (Hext l n) as (n' & Hn' & Hp'); [by left|done|].
  econstructor; [done|done|by rewrite Hp'|]. apply IH. intros x k Hx. apply Hext. by right.
Qed.

Lemma chain_det m root l ls ls' : chain m root l ls → chain m root l ls' → ls = ls'.
Proof.
  intros H. revert ls'. induction H as [|l n p ls Hne Hl Hp Hc IH]; intros ls' H';
    inversion H'; subst; try done. simplify_eq. f_equal. by apply IH.
Qed.

(** Every node of a chain has the rest of it as its own. *)
Lemma chain_elem m root l ls x :
  chain m root l ls → x ∈ ls → ∃ pre suf, ls = pre ++ x :: suf ∧ chain m root x (x :: suf).
Proof.
  induction 1 as [|l n p ls Hne Hl Hp Hc IH]; [by intros ?%not_elem_of_nil|].
  rewrite elem_of_cons. intros [->|Hx].
  - exists [], ls. split; [done|]. by econstructor.
  - destruct (IH Hx) as (pre & suf & -> & Hx'). by exists (l :: pre), suf.
Qed.

Lemma chain_nodup m root l ls : chain m root l ls → NoDup ls.
Proof.
  induction 1 as [|l n p ls Hne Hl Hp Hc IH]; constructor; [|done].
  intros Hin. destruct (chain_elem _ _ _ _ _ Hc Hin) as (pre & suf & E & Hl').
  assert (chain m root l (l :: ls)) as H by (by econstructor).
  pose proof (chain_det _ _ _ _ _ H Hl') as E'. apply (f_equal length) in E, E'.
  rewrite length_app in E. simpl in *. lia.
Qed.

Lemma chain_nodes m root l ls x : chain m root l ls → x ∈ ls → is_Some (m !! x) ∧ x ≠ root.
Proof. intros Hc Hx. destruct (chain_elem _ _ _ _ _ Hc Hx) as (? & ? & _ & H). inversion H; subst. eauto. Qed.

(** A chain is no longer than the heap is large. *)
Lemma chain_length m root l ls : chain m root l ls → length ls ≤ size m.
Proof.
  intros Hc. rewrite <-size_dom. rewrite <-(size_list_to_set (C := gset N) ls) by (by eapply chain_nodup).
  apply subseteq_size. intros x Hx%elem_of_list_to_set. apply elem_of_dom. by eapply chain_nodes.
Qed.

Lemma chain_head m root l ls : chain m root l ls → l ≠ root → ∃ ls', ls = l :: ls'.
Proof. by inversion 1; subst; eauto. Qed.

Lemma tree_inv_struct t t' : same_struct t t' → tree_inv t → tree_inv t'.
Proof.
  intros S I. assert (same_struct t' t) as S' by done. destruct I as [I1 I2 I3 I4 I5 I6 I7].
  assert (∀ l n', nodes t' !! l = Some n' → ∃ n, nodes t !! l = Some n ∧
    tokens n = tokens n' ∧ blocks n = blocks n' ∧ children n = children n' ∧ parent n = parent n') as B
    by (intros l n'; by apply same_struct_lookup).
  pose proof (same_struct_lookup t t') as F.
  rewrite <-(ss_bt _ _ S), <-(ss_root _ _ S) in *. constructor; try done.
  - destruct I2 as (rn & Hr & Ht & Hb & Hp). destruct (F _ _ S Hr) as (n' & Hn' & E1 & E2 & _ & E3).
    exists n'. by rewrite E1, E2, E3.
  - intros l n' Hn Hne. destruct (B l n' Hn) as (n & Hn' & E1 & E2 & _).
    rewrite <-E1, <-E2. eauto.
  - intros l n' Hn Hne. destruct (B l n' Hn) as (n & Hn' & E1 & _ & _ & E2). rewrite <-E1, <-E2.
    destruct (I4 l n Hn' Hne) as (p & pn & Hp & Hpn & Hk).
    destruct (F _ _ S Hpn) as (pn' & Hpn' & _ & _ & E & _). exists p, pn'. by rewrite E.
  - intros p pn' k c Hp Hc. destruct (B p pn' Hp) as (pn & Hpn & _ & _ & E & _). rewrite <-E in Hc.
    destruct (I5 p pn k c Hpn Hc) as (Hne & n & Hn & Hpar & Hk). split; [done|].
    destruct (F _ _ S Hn) as (n' & Hn' & E1 & _ & _ & E2). exists n'. by rewrite E1, E2.
  - intros l [n' Hn]. destruct (B l n' Hn) as (n & Hn' & _). destruct (I6 l) as [ls Hls]; [by eexists|].
    exists ls. eapply chain_ext; [|done]. intros x nx _ Hx.
    destruct (F _ _ S Hx) as (? & ? & _ & _ & _ & ?). eauto.
  - intros l [n' Hn]. destruct (B l n' Hn) as (n & Hn' & _). rewrite (ss_next _ _ S). apply I7. by eexists.
Qed.

(** Changing recency or a pin count leaves the structure alone. *)
Lemma same_struct_set t l n n' :
  nodes t !! l = Some n → struct n' = struct n → same_struct t (upd_nodes (<[l := n']> (nodes t)) t).
Proof.
  intros Hl E. constructor; try done. intros x. simpl.
  destruct (decide (x = l)) as [->|]; [by rewrite lookup_insert_eq, Hl; simpl; rewrite E|by rewrite lookup_insert_ne].
Qed.

(** No node is its own parent. *)
Lemma parent_ne t l n p :
  tree_inv t → nodes t !! l = Some n → l ≠ root_ t → parent n = Some p → p ≠ l.
Proof.
  intros I Hl Hne Hp ->. destruct (ti_chain _ I l) as [ls Hls]; [by eexists|].
  pose proof (chain_nodup _ _ _ _ Hls) as Hnd. inversion Hls as [|? m q ls' ? Hm Hq Hc]; subst; [done|].
  simplify_eq. destruct (chain_head _ _ _ _ Hc Hne) as [ls'' ->].
  apply NoDup_cons in Hnd as [Hnin _]. apply Hnin. by left.
Qed.

(** The node a sequence of blocks is served from, as far as it is cached. *)
Definition holder (t : RadixTree) (cs : list chunk) : NodePtr := (follow t (root_ t, 0) cs).2.1.

(** The blocks in the tree are live, and no block is in it twice. *)
Record store_inv (f : BlockId → option BlockView) (t : RadixTree) : Prop := {
  st_live l n id : nodes t !! l = Some n → id ∈ blocks n → is_Some (f id);
  st_nodup l n : nodes t !! l = Some n → NoDup (blocks n);
  st_disj l m n k id : nodes t !! l = Some n → nodes t !! m = Some k → id ∈ blocks n → id ∈ blocks k → l = m;
}.
