(* ===== verification/RadixSplit.v ===== *)
(** * Splitting a node

    [split_node] interposes a new parent over the head of a node's run. Nothing
    the tree caches changes, the node's own address stays valid as the deeper
    half, and every chain that went through it now also goes through the new
    parent. *)

From S2P Require Import Prelude Types BlockPool BlockStore RadixTree RadixInv.

Local Open Scope nat_scope.

Section rules.
Context {P : Type} `{BlockStore P} `{IterOrder}.

Lemma wp_node_at l n (Q : Node → P * RadixTree → Prop) s :
  nodes s.2 !! l = Some n → Q n s → wp (node_at l) Q s.
Proof. intros Hl HQ. unfold node_at, get_tree. wp_steps. by apply (wp_of_option _ _ n). Qed.

Lemma wp_on_pool {A} (m : M P A) (Q : A → P * RadixTree → Prop) s :
  wp m (λ a p, Q a (p, s.2)) s.1 → wp (on_pool m) Q s.
Proof. intros Hm. unfold on_pool. by wp_step. Qed.

Lemma wp_touch l n (Q : () → P * RadixTree → Prop) s :
  nodes s.2 !! l = Some n →
  Q () (s.1, upd_clock (u64 (clock_ s.2 + 1))
               (upd_nodes (<[l := set_access (u64 (clock_ s.2 + 1)) n]> (nodes s.2)) s.2)) →
  wp (touch l) Q s.
Proof.
  intros Hl HQ. unfold touch, upd_tree, get_tree. wp_steps. eapply wp_node_at; [done|].
  unfold set_node, upd_tree. by wp_steps.
Qed.
End rules.

(** The tree after [node], the child of [par], is split at block [k]. *)
Definition split_tree (t : RadixTree) (node : NodePtr) (n : Node) (par : NodePtr) (pn : Node) (k : nat)
    : RadixTree :=
  let bt := block_tokens_ t in
  let head := node_next t in
  let off := k * bt in
  upd_counts (stored_blocks_ t) (u64 (num_nodes_ t + 1))
  (upd_next (node_next t + 1)%N
  (upd_nodes (<[par := set_children (<[block_key (tokens n) bt := head]> (children pn)) pn]>
    (<[head := {| tokens := take off (tokens n); blocks := take k (blocks n);
                  children := {[block_key (drop off (tokens n)) bt := node]};
                  parent := Some par; lock_count := lock_count n; last_access := last_access n |}]>
    (<[node := set_run (drop off (tokens n)) (drop k (blocks n)) head n]> (nodes t)))) t)).

(** Where a position of the old tree is in the new one. *)
Definition moved_pos (node head : NodePtr) (k : nat) (x : N * nat) : N * nat :=
  if decide (x.1 = node) then (if decide (x.2 ≤ k) then (head, x.2) else (node, x.2 - k)) else x.

(** A chain with the new parent interposed. *)
Definition interpose (node head : NodePtr) (ls : list NodePtr) : list NodePtr :=
  flat_map (λ x, if decide (x = node) then [node; head] else [x]) ls.

(** Following a step stays inside the tree. *)
Lemma step_chunk_valid t x c y b : step_chunk t x c = Some (y, b) → is_Some (nodes t !! y.1).
Proof.
  unfold step_chunk. destruct (nodes t !! x.1) as [n|] eqn:Hn; simpl; [|done].
  destruct (blocks n !! x.2) as [b'|].
  - case_decide; [|done]. intros [= <- <-]. by eexists.
  - destruct (children n !! _) as [l|]; simpl; [|done].
    destruct (nodes t !! l) as [d|] eqn:Hd; simpl; [|done]. destruct (blocks d !! 0); simpl; [|done].
    case_decide; [|done]. intros [= <- <-]. by eexists.
Qed.

(** When [split_node] may be called. *)
Record splittable (t : RadixTree) (node : NodePtr) (n : Node) (par : NodePtr) (pn : Node) (k : nat)
    : Prop := {
  sp_inv : tree_inv t;
  sp_node : nodes t !! node = Some n;
  sp_parent : parent n = Some par;
  sp_par : nodes t !! par = Some pn;
  sp_root : node ≠ root_ t;
  sp_pos : 0 < k;
  sp_lt : k < length (blocks n);
}.

Section split.
Context (t : RadixTree) (node : NodePtr) (n : Node) (par : NodePtr) (pn : Node) (k : nat).
Context (Sp : splittable t node n par pn k).
Let I := sp_inv _ _ _ _ _ _ Sp.
Let Hn := sp_node _ _ _ _ _ _ Sp.
Let Hpar := sp_parent _ _ _ _ _ _ Sp.
Let Hpn := sp_par _ _ _ _ _ _ Sp.
Let Hroot := sp_root _ _ _ _ _ _ Sp.
Let Hk := sp_pos _ _ _ _ _ _ Sp.
Let Hk' := sp_lt _ _ _ _ _ _ Sp.

Let bt := block_tokens_ t.
Let head := node_next t.
Let t' := split_tree t node n par pn k.

Lemma split_fresh : nodes t !! head = None.
Proof.
  destruct (nodes t !! head) eqn:E; [|done].
  pose proof (ti_next _ I head ltac:(by eexists)). unfold head in *. lia.
Qed.

Lemma split_par_ne : par ≠ node.
Proof. by eapply parent_ne. Qed.

Lemma split_distinct : node ≠ head ∧ par ≠ head ∧ root_ t ≠ head.
Proof.
  pose proof split_fresh as Hf. destruct (ti_root _ I) as (rn & Hr & _).
  split_and!; intros E; rewrite <-E in Hf; congruence.
Qed.

Lemma split_key : children pn !! block_key (tokens n) bt = Some node.
Proof. destruct (ti_parent _ I node n Hn Hroot) as (p & pn' & Hp & Hpn' & Hc). by simplify_eq. Qed.

Lemma split_run : length (tokens n) = length (blocks n) * bt ∧ 0 < bt.
Proof. split; [by apply (ti_run _ I node)|apply I]. Qed.

(** Reading the new heap. *)
Lemma split_lookup l :
  nodes t' !! l =
    if decide (l = par) then Some (set_children (<[block_key (tokens n) bt := head]> (children pn)) pn)
    else if decide (l = head) then
      Some {| tokens := take (k * bt) (tokens n); blocks := take k (blocks n);
              children := {[block_key (drop (k * bt) (tokens n)) bt := node]};
              parent := Some par; lock_count := lock_count n; last_access := last_access n |}
    else if decide (l = node) then Some (set_run (drop (k * bt) (tokens n)) (drop k (blocks n)) head n)
    else nodes t !! l.
Proof.
  unfold t', split_tree. simpl. fold bt head.
  repeat case_decide; subst; rewrite ?lookup_insert_eq; rewrite ?lookup_insert_ne by done;
    rewrite ?lookup_insert_eq; try done; by rewrite ?lookup_insert_ne by done.
Qed.

Lemma split_lookup_par :
  nodes t' !! par = Some (set_children (<[block_key (tokens n) bt := head]> (children pn)) pn).
Proof. rewrite split_lookup. by rewrite decide_True. Qed.

Lemma split_lookup_head : nodes t' !! head =
  Some {| tokens := take (k * bt) (tokens n); blocks := take k (blocks n);
          children := {[block_key (drop (k * bt) (tokens n)) bt := node]};
          parent := Some par; lock_count := lock_count n; last_access := last_access n |}.
Proof.
  destruct split_distinct as (? & ? & _). rewrite split_lookup.
  rewrite decide_False by done. by rewrite decide_True.
Qed.

Lemma split_lookup_node :
  nodes t' !! node = Some (set_run (drop (k * bt) (tokens n)) (drop k (blocks n)) head n).
Proof.
  destruct split_distinct as (? & _ & _). pose proof split_par_ne. rewrite split_lookup.
  rewrite decide_False by done. rewrite decide_False by done. by rewrite decide_True.
Qed.

(** Everything but the split node keeps its run and its parent. *)
Lemma split_lookup_other l m :
  nodes t !! l = Some m → l ≠ node →
  ∃ m', nodes t' !! l = Some m' ∧ tokens m' = tokens m ∧ blocks m' = blocks m ∧ parent m' = parent m ∧
    lock_count m' = lock_count m ∧ last_access m' = last_access m ∧
    (l ≠ par → children m' = children m).
Proof.
  intros Hl Hne. assert (l ≠ head) by (intros ->; pose proof split_fresh; congruence).
  rewrite split_lookup. case_decide; [subst; simplify_eq; eexists; split_and!; done|].
  rewrite !decide_False by done. eauto 10.
Qed.

Lemma split_lookup_inv l m' :
  nodes t' !! l = Some m' → l ≠ node → l ≠ head → ∃ m, nodes t !! l = Some m.
Proof.
  intros Hl H1 H2. rewrite split_lookup in Hl.
  case_decide; [subst; eauto|]. rewrite !decide_False in Hl by done. eauto.
Qed.

Lemma split_chain l ls : chain (nodes t) (root_ t) l ls → chain (nodes t') (root_ t) l (interpose node head ls).
Proof.
  induction 1 as [|l m p ls Hne Hl Hp Hc IH]; [constructor|]. simpl.
  destruct split_distinct as (? & ? & ?). case_decide as E.
  - subst. simplify_eq. simpl. econstructor; [done|apply split_lookup_node|done|].
    econstructor; [done|apply split_lookup_head|done|done].
  - destruct (split_lookup_other l m Hl E) as (m' & Hm' & _ & _ & Hp' & _). simpl.
    econstructor; [done|done|by rewrite Hp'|done].
Qed.

Lemma split_head_key : block_key (take (k * bt) (tokens n)) bt = block_key (tokens n) bt.
Proof. destruct split_run as [Hrun Hbt]. unfold block_key. rewrite take_take. do 2 f_equal. nia. Qed.

(** Both halves are non-empty runs of whole blocks. *)
Lemma split_inv_run l m :
  nodes t' !! l = Some m → l ≠ root_ t →
  length (tokens m) = length (blocks m) * bt ∧ blocks m ≠ [].
Proof.
  destruct split_distinct as (D1 & D2 & D3). destruct split_run as [Hrun Hbt].
  intros Hm Hne.
  destruct (decide (l = node)) as [->|Hln]; [|destruct (decide (l = head)) as [->|Hlh]].
  + rewrite split_lookup_node in Hm. simplify_eq/=. rewrite !length_drop. split; [nia|].
    intros E%(f_equal length). rewrite length_drop in E. simpl in E. lia.
  + rewrite split_lookup_head in Hm. simplify_eq/=. rewrite !length_take. split; [nia|].
    intros E%(f_equal length). rewrite length_take in E. simpl in E. lia.
  + destruct (split_lookup_inv l m Hm Hln Hlh) as [m0 Hm0].
    destruct (split_lookup_other l m0 Hm0 Hln) as (? & ? & E1 & E2 & _). simplify_eq.
    rewrite E1, E2. by apply (ti_run _ I l).
Qed.

(** Every node is filed in its parent under its key. *)
Lemma split_inv_parent l m :
  nodes t' !! l = Some m → l ≠ root_ t →
  ∃ p q, parent m = Some p ∧ nodes t' !! p = Some q ∧
    children q !! block_key (tokens m) bt = Some l.
Proof.
  destruct split_distinct as (D1 & D2 & D3). destruct split_run as [Hrun Hbt].
  pose proof split_par_ne as Hpne. pose proof split_key as Hkey. pose proof split_head_key as Ehk.
  intros Hm Hne.
  destruct (decide (l = node)) as [->|Hln]; [|destruct (decide (l = head)) as [->|Hlh]].
  + rewrite split_lookup_node in Hm. simplify_eq/=. eexists head, _.
    split; [done|]. split; [apply split_lookup_head|]. simpl. apply lookup_singleton_eq.
  + rewrite split_lookup_head in Hm. simplify_eq/=. eexists par, _.
    split; [done|]. split; [apply split_lookup_par|]. simpl. rewrite Ehk. apply lookup_insert_eq.
  + destruct (split_lookup_inv l m Hm Hln Hlh) as [m0 Hm0].
    destruct (split_lookup_other l m0 Hm0 Hln) as (? & ? & E1 & _ & E3 & _). simplify_eq.
    rewrite E1, E3. destruct (ti_parent _ I l m0 Hm0 Hne) as (p & q & Hp & Hq & Hc).
    destruct (decide (p = par)) as [->|Hpp]; [|destruct (decide (p = node)) as [->|Hpn']].
    * eexists par, _. split; [done|]. split; [apply split_lookup_par|]. simpl. simplify_eq.
      rewrite lookup_insert_ne; [done|]. intros E. fold bt in Hc. congruence.
    * eexists node, _. split; [done|]. split; [apply split_lookup_node|]. simpl. by simplify_eq.
    * destruct (split_lookup_other p q Hq Hpn') as (q' & Hq' & _ & _ & _ & _ & _ & Ec).
      exists p, q'. by rewrite Ec.
Qed.

(** A node that was not split is where it was. *)
Lemma split_child_kept p key c m0 :
  nodes t !! c = Some m0 → c ≠ node → parent m0 = Some p → block_key (tokens m0) bt = key →
  ∃ m, nodes t' !! c = Some m ∧ parent m = Some p ∧ block_key (tokens m) bt = key.
Proof.
  intros Hm0 Hcn Hp <-. destruct (split_lookup_other c m0 Hm0 Hcn) as (m' & ? & E1 & _ & E3 & _).
  exists m'. by rewrite E1, E3.
Qed.

(** Every child points back to its parent. *)
Lemma split_inv_child p q key c :
  nodes t' !! p = Some q → children q !! key = Some c →
  c ≠ root_ t ∧ ∃ m, nodes t' !! c = Some m ∧ parent m = Some p ∧ block_key (tokens m) bt = key.
Proof.
  destruct split_distinct as (D1 & D2 & D3). destruct split_run as [Hrun Hbt].
  pose proof split_par_ne as Hpne. pose proof split_key as Hkey. pose proof split_head_key as Ehk.
  intros Hq Hc.
  destruct (decide (p = node)) as [->|Hpn']; [|destruct (decide (p = head)) as [->|Hph]].
  + rewrite split_lookup_node in Hq. simplify_eq/=.
    destruct (ti_child _ I node n key c Hn Hc) as (Hcr & m0 & Hm0 & Hp & Hkc). split; [done|].
    eapply (split_child_kept _ _ c m0); try done. intros ->. congruence.
  + rewrite split_lookup_head in Hq. simplify_eq/=. apply lookup_singleton_Some in Hc as [<- <-].
    split; [done|]. eexists. split; [apply split_lookup_node|]. done.
  + destruct (split_lookup_inv p q Hq Hpn' Hph) as [q0 Hq0].
    destruct (decide (p = par)) as [->|Hpp].
    * rewrite split_lookup_par in Hq. simplify_eq/=.
      apply lookup_insert_Some in Hc as [[<- <-]|[Hkne Hc]].
      -- split; [done|]. eexists. split; [apply split_lookup_head|]. done.
      -- destruct (ti_child _ I par pn key c Hpn Hc) as (Hcr & m0 & Hm0 & Hp & Hkc). split; [done|].
         eapply (split_child_kept _ _ c m0); try done. intros ->. by simplify_eq.
    * destruct (split_lookup_other p q0 Hq0 Hpn') as (q' & Hq' & _ & _ & _ & _ & _ & Ec). simplify_eq.
      rewrite Ec in Hc by done.
      destruct (ti_child _ I p q0 key c Hq0 Hc) as (Hcr & m0 & Hm0 & Hp & Hkc). split; [done|].
      eapply (split_child_kept _ _ c m0); try done. intros ->. congruence.
Qed.

Lemma split_inv : tree_inv t'.
Proof.
  destruct split_distinct as (D1 & D2 & D3). destruct split_run as [_ Hbt].
  constructor; [exact Hbt||apply I| |exact split_inv_run|exact split_inv_parent|exact split_inv_child|..].
  - destruct (ti_root _ I) as (rn & Hr & Ht & Hb & Hp).
    destruct (split_lookup_other (root_ t) rn Hr) as (m' & Hm' & E1 & E2 & E3 & _); [done|].
    exists m'. by rewrite E1, E2, E3.
  - intros l [m Hm]. change (root_ t') with (root_ t).
    destruct (decide (l = head)) as [->|Hlh].
    + destruct (ti_chain _ I par) as [ls Hls]; [by eexists|]. exists (head :: interpose node head ls).
      econstructor; [done|apply split_lookup_head|done|by apply split_chain].
    + destruct (ti_chain _ I l) as [ls Hls]; [|eauto using split_chain].
      destruct (decide (l = node)) as [->|]; [by eexists|]. destruct (split_lookup_inv l m); eauto.
  - intros l [m Hm]. simpl. destruct (decide (l = head)) as [->|Hlh]; [unfold head; lia|].
    destruct (decide (l = node)) as [->|]; [pose proof (ti_next _ I node ltac:(by eexists)); lia|].
    destruct (split_lookup_inv l m) as [m0 Hm0]; [done..|]. pose proof (ti_next _ I l ltac:(by eexists)). lia.
Qed.

(** *** The cache is the same *)

Ltac sm := cbn [mbind option_bind fmap option_fmap option_map fst snd
                blocks tokens children parent set_run set_children] in *.

(** Entering a child that was not split. *)
Lemma split_step_child l m c l' :
  nodes t !! l = Some m → l' ≠ node → children m !! block_key c bt = Some l' →
  (d ← nodes t' !! l'; b ← blocks d !! 0;
   if decide (chunk_at bt 0 (tokens d) = c) then Some (l', 1, b) else None)
  = (λ r, (moved_pos node head k r.1, r.2)) <$>
    (d ← nodes t !! l'; b ← blocks d !! 0;
     if decide (chunk_at bt 0 (tokens d) = c) then Some (l', 1, b) else None).
Proof.
  intros Hm Hne El. destruct (ti_child _ I l m _ l' Hm El) as (_ & d & Hd & _).
  destruct (split_lookup_other l' d Hd Hne) as (d' & Hd' & F1 & F2 & _). rewrite Hd, Hd'. sm.
  rewrite F1, F2. destruct (blocks d !! 0); [|done]. sm. case_decide; [|done]. sm.
  unfold moved_pos. sm. by rewrite decide_False.
Qed.

(** A step from the half that moved into the new parent. *)
Lemma split_step_head i c :
  i ≤ k → step_chunk t' (head, i) c = (λ r, (moved_pos node head k r.1, r.2)) <$> step_chunk t (node, i) c.
Proof.
  destruct split_distinct as (D1 & D2 & D3). destruct split_run as [Hrun Hbt].
  intros Hi.
  unfold step_chunk. cbn [fst snd]. change (block_tokens_ t') with bt. fold bt. rewrite split_lookup_head, Hn. sm.
  destruct (decide (i < k)) as [Hlt|Hge].
  + rewrite lookup_take_lt by done.
    destruct (lookup_lt_is_Some_2 (blocks n) i) as [b Hb]; [lia|]. rewrite Hb, chunk_at_take by done.
    case_decide; [|done]. sm. unfold moved_pos. sm. by rewrite !decide_True by lia.
  + assert (i = k) as -> by lia. rewrite lookup_take_ge by lia.
    destruct (lookup_lt_is_Some_2 (blocks n) k) as [b Hb]; [lia|]. rewrite Hb.
    destruct (decide (chunk_at bt k (tokens n) = c)) as [<-|Hc].
    * rewrite block_key_chunk, lookup_singleton_eq. sm. rewrite split_lookup_node. sm.
      rewrite lookup_drop, Nat.add_0_r, Hb. sm.
      rewrite decide_True by (by rewrite chunk_at_drop, Nat.add_0_r).
      unfold moved_pos. sm. rewrite decide_True by done. rewrite decide_False by lia.
      do 3 f_equal. lia.
    * destruct ({[block_key (drop (k * bt) (tokens n)) bt := node]} !! block_key c bt)
        as [l'|] eqn:El; [|done].
      apply lookup_singleton_Some in El as [_ <-]. sm. rewrite split_lookup_node. sm.
      rewrite lookup_drop, Nat.add_0_r, Hb. sm.
      rewrite decide_False; [done|]. by rewrite chunk_at_drop, Nat.add_0_r.
Qed.

(** A step from the half that stayed. *)
Lemma split_step_tail i c :
  k < i → step_chunk t' (node, i - k) c = (λ r, (moved_pos node head k r.1, r.2)) <$> step_chunk t (node, i) c.
Proof.
  destruct split_distinct as (D1 & D2 & D3). destruct split_run as [Hrun Hbt].
  intros Hi.
  unfold step_chunk. cbn [fst snd]. change (block_tokens_ t') with bt. fold bt. rewrite split_lookup_node, Hn. sm.
  rewrite lookup_drop. replace (k + (i - k)) with i by lia.
  destruct (blocks n !! i) as [b|] eqn:Hb.
  + rewrite chunk_at_drop. replace (k + (i - k)) with i by lia. case_decide; [|done]. sm.
    unfold moved_pos. sm. rewrite decide_True by done. rewrite decide_False by lia. do 3 f_equal. lia.
  + destruct (children n !! block_key c bt) as [l'|] eqn:El; [|done]. sm.
    destruct (ti_child _ I node n _ l' Hn El) as (_ & d & Hd & Hdp & _).
    eapply split_step_child; [exact Hn| |done]. intros ->. pose proof split_par_ne. congruence.
Qed.

(** A step from any other node. *)
Lemma split_step_other l m i c :
  nodes t !! l = Some m → l ≠ node →
  step_chunk t' (l, i) c = (λ r, (moved_pos node head k r.1, r.2)) <$> step_chunk t (l, i) c.
Proof.
  destruct split_distinct as (D1 & D2 & D3). destruct split_run as [Hrun Hbt].
  pose proof split_par_ne as Hpne. pose proof split_key as Hkey. intros Hm Hln.
  destruct (split_lookup_other l m Hm Hln) as (m' & Hm' & E1 & E2 & _ & _ & _ & Ec).
  unfold step_chunk. cbn [fst snd]. change (block_tokens_ t') with bt. fold bt. rewrite Hm, Hm'. sm. rewrite E1, E2.
  destruct (blocks m !! i) as [b|] eqn:Hb.
  { case_decide; [|done]. sm. unfold moved_pos. sm. by rewrite decide_False. }
  destruct (decide (l = par)) as [->|Hlp].
  + rewrite split_lookup_par in Hm'. simplify_eq; sm.
    destruct (decide (block_key (tokens n) bt = block_key c bt)) as [E|E].
    * rewrite E, lookup_insert_eq. rewrite E in Hkey. rewrite Hkey. sm.
      rewrite split_lookup_head, Hn. sm. rewrite lookup_take_lt by done.
      destruct (blocks n !! 0); [|done]. sm.
      rewrite chunk_at_take by done. case_decide; [|done]. sm.
      unfold moved_pos. sm. by rewrite !decide_True by lia.
    * rewrite lookup_insert_ne by done. destruct (children pn !! block_key c bt) as [l'|] eqn:El; [|done].
      sm. eapply split_step_child; [done| |done]. intros ->. 
      destruct (ti_child _ I par pn _ node Hpn El) as (_ & d & Hd & _ & Hdk). by simplify_eq.
  + rewrite Ec by done. destruct (children m !! block_key c bt) as [l'|] eqn:El; [|done].
    sm. eapply split_step_child; [done| |done]. intros ->.
    destruct (ti_child _ I l m _ node Hm El) as (_ & d & Hd & Hdp & _). congruence.
Qed.

Lemma split_step x c :
  is_Some (nodes t !! x.1) →
  step_chunk t' (moved_pos node head k x) c
  = (λ r, (moved_pos node head k r.1, r.2)) <$> step_chunk t x c.
Proof.
  destruct x as [l i]. simpl. intros [m Hm]. unfold moved_pos at 1. simpl.
  destruct (decide (l = node)) as [->|Hln]; [destruct (decide (i ≤ k)) as [Hi|Hi]|].
  - by apply split_step_head.
  - apply split_step_tail. lia.
  - by eapply split_step_other.
Qed.

Lemma split_follow x cs :
  is_Some (nodes t !! x.1) →
  follow t' (moved_pos node head k x) cs
  = ((follow t x cs).1, moved_pos node head k (follow t x cs).2).
Proof.
  revert x. induction cs as [|c cs IH]; intros x Hx; [done|].
  cbn [follow]. rewrite split_step by done. destruct (step_chunk t x c) as [[y b]|] eqn:E; [|done].
  apply step_chunk_valid in E. cbn [fmap option_fmap option_map fst snd].
  rewrite IH by done. done.
Qed.

Lemma split_cached cs : cached t' cs = cached t cs.
Proof.
  unfold cached. destruct (ti_root _ I) as (rn & Hr & _).
  replace (root_ t', 0) with (moved_pos node head k (root_ t, 0)).
  - rewrite split_follow by (by eexists). done.
  - unfold moved_pos. cbn [fst]. by rewrite decide_False.
Qed.

Lemma split_find cs : find t' cs = find t cs.
Proof. unfold find. by rewrite split_cached. Qed.

(** The program computes exactly this tree. *)
Lemma wp_split_node {P} `{BlockStore P} (p : P) (Q : NodePtr → P * RadixTree → Prop) :
  Q head (p, t') → wp (split_node node (k * bt)) Q (p, t).
Proof.
  intros HQ. destruct split_distinct as (D1 & D2 & D3). destruct split_run as [Hrun Hbt].
  pose proof split_par_ne as Hpne. pose proof split_key as Hkey.
  unfold split_node, get_tree. wp_steps. eapply wp_node_at; [done|].
  wp_steps. apply wp_assert.
  { apply andb_true_intro. split; apply Nat.ltb_lt; [nia|]. rewrite Hrun. simpl. nia. }
  wp_steps. apply wp_assert.
  { apply Nat.eqb_eq. simpl. fold bt. apply Nat.Div0.mod_mul. }
  wp_steps. eapply wp_of_option; [done|]. wp_steps. eapply wp_node_at; [done|].
  wp_steps. eapply wp_of_option; [exact Hkey|]. wp_steps. simpl. fold bt.
  rewrite Nat.div_mul by lia. rewrite (proj2 (Nat.ltb_ge _ _)) by lia. wp_steps.
  unfold new_node, get_tree, upd_tree. wp_steps. unfold set_node, upd_tree. wp_steps.
  eapply wp_node_at.
  { simpl. rewrite lookup_insert_ne by done. apply lookup_insert_eq. }
  wp_steps. eapply wp_node_at.
  { simpl. rewrite lookup_insert_ne by done. rewrite lookup_insert_ne by done.
    by rewrite lookup_insert_ne by done. }
  wp_steps. simpl.
  match goal with |- Q _ (p, ?x) => replace x with t'; [done|] end.
  unfold t', split_tree, upd_counts, upd_next, upd_nodes. simpl. fold bt head. f_equal. f_equal.
  rewrite insert_empty. rewrite (insert_insert_ne _ node head) by done. by rewrite insert_insert_eq.
Qed.
End split.
