(* ===== verification/RadixWalk.v ===== *)
(** * Walking down the tree: match_prefix

    The loop shared by [match_prefix] and [insert] follows the query as far as
    the tree caches it, touching the nodes it passes and splitting at most the
    last one, so that it ends exactly at the end of a node. *)

From S2P Require Import Prelude Types BlockPool BlockStore RadixTree RadixInv RadixSplit.

Local Open Scope nat_scope.

Definition touch_tree (t : RadixTree) (l : NodePtr) (n : Node) : RadixTree :=
  upd_clock (u64 (clock_ t + 1))
    (upd_nodes (<[l := set_access (u64 (clock_ t + 1)) n]> (nodes t)) t).

Lemma touch_struct t l n : nodes t !! l = Some n → same_struct t (touch_tree t l n).
Proof. intros Hl. by destruct (same_struct_set t l n (set_access (u64 (clock_ t + 1)) n) Hl eq_refl). Qed.

Lemma wp_touch_tree {P} l n (Q : () → P * RadixTree → Prop) s :
  nodes s.2 !! l = Some n → Q () (s.1, touch_tree s.2 l n) → wp (touch l) Q s.
Proof. apply wp_touch. Qed.

(** What a walk does to the tree: [k] touches, some of them right after a split
    of a node below [par]. *)
Inductive walks : nat → RadixTree → RadixTree → Prop :=
  | walks_refl t : walks 0 t t
  | walks_touch k t u l n :
      walks k t u → nodes u !! l = Some n → walks (S k) t (touch_tree u l n)
  | walks_split k t u node n par pn b hn :
      walks k t u → splittable u node n par pn b →
      nodes (split_tree u node n par pn b) !! node_next u = Some hn →
      walks (S k) t (touch_tree (split_tree u node n par pn b) (node_next u) hn).

Lemma walks_inv k t u : tree_inv t → walks k t u →
  tree_inv u ∧ block_tokens_ u = block_tokens_ t ∧ root_ u = root_ t ∧ ∀ cs, cached u cs = cached t cs.
Proof.
  intros I. induction 1 as [t|k t u l n W IH Hl|k t u node n par pn b hn W IH Sp Hh].
  - done.
  - destruct (IH I) as (Iu & E1 & E2 & E3). pose proof (touch_struct u l n Hl) as S.
    split_and!; [by eapply tree_inv_struct|done..|]. intros cs. by rewrite (cached_struct _ _ cs S).
  - destruct (IH I) as (_ & E1 & E2 & E3).
    pose proof (split_inv u node n par pn b Sp) as Is.
    pose proof (touch_struct _ _ hn Hh) as S. split_and!; [by eapply tree_inv_struct|done..|].
    intros cs. rewrite (cached_struct _ _ cs S). by rewrite (split_cached u node n par pn b Sp).
Qed.

(** ** Comparing runs *)

Lemma common_blocks_spec bt run q n c :
  let r := common_blocks bt run q n c in
  c ≤ r ≤ c + n ∧ (∀ i, c ≤ i < r → chunk_at bt i run = chunk_at bt i q) ∧
  (r < c + n → chunk_at bt r run ≠ chunk_at bt r q).
Proof.
  revert c. induction n as [|n IH]; intros c; simpl; [split_and!; lia|].
  case_bool_decide as E.
  - destruct (IH (S c)) as (H1 & H2 & H3). split_and!; [lia..| |].
    + intros i Hi. destruct (decide (i = c)) as [->|]; [done|]. apply H2. lia.
    + intros Hlt. apply H3. lia.
  - split_and!; [lia..|done].
Qed.

(** Against the query from block [j] on. *)
Lemma common_blocks_query bt run q j n :
  let r := common_blocks bt run (drop (j * bt) q) n 0 in
  r ≤ n ∧ (∀ i, i < r → chunk_at bt i run = chunk_at bt (j + i) q) ∧
  (r < n → chunk_at bt r run ≠ chunk_at bt (j + r) q).
Proof.
  intros r. destruct (common_blocks_spec bt run (drop (j * bt) q) n 0) as (H1 & H2 & H3). fold r in H1, H2, H3.
  split; [lia|]. split.
  - intros i Hi. rewrite <-chunk_at_drop. apply H2. lia.
  - intros Hr. rewrite <-chunk_at_drop. by apply H3.
Qed.

(** Along a node's own run. *)
Lemma follow_run t l n i cs :
  nodes t !! l = Some n → i + length cs ≤ length (blocks n) →
  (∀ x c, cs !! x = Some c → chunk_at (block_tokens_ t) (i + x) (tokens n) = c) →
  follow t (l, i) cs = (take (length cs) (drop i (blocks n)), (l, i + length cs)).
Proof.
  intros Hl. revert i. induction cs as [|c cs IH]; intros i Hlen Heq; simpl.
  - by rewrite Nat.add_0_r.
  - simpl in Hlen. destruct (lookup_lt_is_Some_2 (blocks n) i) as [b Hb]; [lia|].
    unfold step_chunk. simpl. rewrite Hl. simpl. rewrite Hb.
    rewrite decide_True by (rewrite <-(Heq 0 c eq_refl); by rewrite Nat.add_0_r).
    rewrite IH; [|lia|intros x d Hx; rewrite <-(Heq (S x) d Hx); f_equal; lia].
    rewrite (drop_S _ _ _ Hb). simpl. by rewrite Nat.add_succ_r.
Qed.

(** From the end of a node into a child. *)
Lemma follow_child t l n k child d cs :
  nodes t !! l = Some n → k = length (blocks n) → nodes t !! child = Some d →
  0 < length cs ≤ length (blocks d) →
  children n !! block_key (default [] (head cs)) (block_tokens_ t) = Some child →
  (∀ x c, cs !! x = Some c → chunk_at (block_tokens_ t) x (tokens d) = c) →
  follow t (l, k) cs = (take (length cs) (blocks d), (child, length cs)).
Proof.
  intros Hl -> Hd Hlen Hc Heq. destruct cs as [|c cs]; [simpl in Hlen; lia|]. simpl in *.
  unfold step_chunk. simpl. rewrite Hl. simpl. rewrite lookup_ge_None_2 by done.
  rewrite Hc. simpl. rewrite Hd. simpl. destruct (blocks d) as [|b bs] eqn:Hb; [simpl in Hlen; lia|]. simpl.
  rewrite decide_True by (by apply Heq). simpl.
  rewrite (follow_run t child d 1 cs Hd); rewrite ?Hb; simpl in *; [|lia|].
  - by rewrite drop_0.
  - intros x e Hx. by apply Heq.
Qed.

(** A walk stops where no step is possible. *)
Lemma follow_stop t x c cs : step_chunk t x c = None → follow t x (c :: cs) = ([], x).
Proof. intros E. simpl. by rewrite E. Qed.

Lemma step_end_None t l n k c :
  nodes t !! l = Some n → k = length (blocks n) →
  (∀ child d, children n !! block_key c (block_tokens_ t) = Some child → nodes t !! child = Some d →
     chunk_at (block_tokens_ t) 0 (tokens d) ≠ c) →
  step_chunk t (l, k) c = None.
Proof.
  intros Hl -> Hne. unfold step_chunk. simpl. rewrite Hl. simpl. rewrite lookup_ge_None_2 by done.
  destruct (children n !! _) as [child|] eqn:Ec; [|done]. simpl.
  destruct (nodes t !! child) as [d|] eqn:Ed; [|done]. simpl.
  destruct (blocks d !! 0); [|done]. simpl. rewrite decide_False by (by eapply Hne). done.
Qed.

Lemma step_run_None t l n i c :
  nodes t !! l = Some n → i < length (blocks n) →
  chunk_at (block_tokens_ t) i (tokens n) ≠ c → step_chunk t (l, i) c = None.
Proof.
  intros Hl Hi Hne. unfold step_chunk. simpl. rewrite Hl. simpl.
  destruct (lookup_lt_is_Some_2 (blocks n) i Hi) as [b ->]. by rewrite decide_False.
Qed.

(** ** The loop *)

Section descend.
Context {P : Type} `{BlockStore P} `{IterOrder}.
Context (p : P) (t : RadixTree) (I : tree_inv t) (q : list TokenId) (L : nat).
Let bt := block_tokens_ t.
Context (HL : L ≤ length q / bt).

Definition query : list chunk := take L (chunks bt q).

Lemma query_length : length query = L.
Proof. unfold query. rewrite length_take, length_chunks. lia. Qed.

Lemma query_lookup i : i < L → query !! i = Some (chunk_at bt i q).
Proof. intros Hi. unfold query. rewrite lookup_take_lt by done. apply lookup_chunks. split; [lia|done]. Qed.

(** The walk along the first [j] blocks ends exactly at the end of [cur]. *)
Definition at_end (u : RadixTree) (cur : NodePtr) (j : nat) (res : list BlockId) : Prop :=
  ∃ cn, nodes u !! cur = Some cn ∧
    follow u (root_ t, 0) (take j query) = (res, (cur, length (blocks cn))) ∧ length res = j.

Definition walking (w : walk) (s : P * RadixTree) : Prop :=
  let '(cur, pos, res, node) := w in
  ∃ u j k, s = (p, u) ∧ walks k t u ∧ k ≤ j ≤ L ∧ pos = j * bt ∧ at_end u cur j res ∧
    node = (if j =? 0 then None else Some cur) ∧ (j = 0 → cur = root_ t).

(** What the loop leaves behind. *)
Definition walked (w : walk) (s : P * RadixTree) : Prop :=
  let '(cur, pos, res, node) := w in
  ∃ u k, s = (p, u) ∧ walks k t u ∧ k ≤ length res ∧ res = cached t query ∧ pos = length res * bt ∧
    at_end u cur (length res) res ∧ node = (if length res =? 0 then None else Some cur) ∧
    (length res = 0 → cur = root_ t).

Lemma walk_stops u cur cn pos res node j k :
  walks k t u → k ≤ j → j ≤ L → pos = j * bt → nodes u !! cur = Some cn →
  follow u (root_ t, 0) (take j query) = (res, (cur, length (blocks cn))) → length res = j →
  node = (if j =? 0 then None else Some cur) → (j = 0 → cur = root_ t) →
  (j < L → step_chunk u (cur, length (blocks cn)) (chunk_at bt j q) = None) →
  walked (cur, pos, res, node) (p, u).
Proof.
  intros Hw Hkj Hj Hpos Hcn Hf Hr Hnode Hroot Hstop. pose proof (walks_inv k t u I Hw) as (Iu & Eb & Er & Ec).
  exists u, k. rewrite Hr. split_and!; try done; [|by exists cn].
  rewrite <-Ec. unfold cached. rewrite Er.
  rewrite <-(take_drop j query). rewrite follow_app; rewrite Hf; simpl.
  - destruct (decide (j < L)) as [Hlt|].
    + rewrite (drop_S query (chunk_at bt j q) j) by (by apply query_lookup).
      rewrite follow_stop by auto. by rewrite app_nil_r.
    + rewrite drop_ge by (rewrite query_length; lia). simpl. by rewrite app_nil_r.
  - rewrite Hr, length_take, query_length. lia.
Qed.

Section round.
Context (u : RadixTree) (cur : NodePtr) (cn : Node) (res : list BlockId) (j k : nat).
Context (Hw : walks k t u) (Hj : j < L).
Context (Hcn : nodes u !! cur = Some cn).
Context (Hf : follow u (root_ t, 0) (take j query) = (res, (cur, length (blocks cn)))).
Context (Hr : length res = j).

Lemma round_key : block_key (drop (j * bt) q) bt = block_key (chunk_at bt j q) bt.
Proof. by rewrite block_key_chunk. Qed.

(** Consuming [c] blocks of a child. *)
Lemma round_child child d c :
  children cn !! block_key (chunk_at bt j q) bt = Some child → nodes u !! child = Some d →
  0 < c ≤ length (blocks d) → c ≤ L - j →
  (∀ i, i < c → chunk_at bt i (tokens d) = chunk_at bt (j + i) q) →
  follow u (root_ t, 0) (take (j + c) query) = (res ++ take c (blocks d), (child, c)).
Proof.
  intros Hc Hd Hlen HcL Heq. pose proof (walks_inv k t u I Hw) as (Iu & Eb & Er & Ec).
  rewrite <-take_take_drop, follow_app; rewrite Hf; simpl;
    [|by rewrite Hr, length_take, query_length; lia].
  assert (length (take c (drop j query)) = c) as Hlc
    by (rewrite length_take, length_drop, query_length; lia).
  assert (∀ x e, take c (drop j query) !! x = Some e → e = chunk_at bt (j + x) q) as Hq.
  { intros x e Hx. pose proof (lookup_lt_Some _ _ _ Hx) as Hlt. rewrite Hlc in Hlt.
    rewrite lookup_take_lt, lookup_drop, query_lookup in Hx by lia. by simplify_eq. }
  rewrite (follow_child u cur cn _ child d); rewrite ?Hlc; try done.
  - rewrite Eb. fold bt. destruct (take c (drop j query)) as [|e es] eqn:Et; [simpl in Hlc; lia|].
    simpl. rewrite (Hq 0 e eq_refl), Nat.add_0_r. done.
  - intros x e Hx. rewrite Eb. fold bt. rewrite (Hq x e Hx). apply Heq.
    apply lookup_lt_Some in Hx. lia.
Qed.
End round.

Lemma touched_follow u l n x cs : nodes u !! l = Some n → follow (touch_tree u l n) x cs = follow u x cs.
Proof. intros Hl. by apply follow_struct, touch_struct. Qed.

(** The walk ends inside a child: the child is split there, and the walk ends
    at the end of the new parent. *)
Lemma split_stops u child d cur cn c j k res hn pos :
  walks k t u → k ≤ j → 0 < c → j + c ≤ L → splittable u child d cur cn c →
  follow u (root_ t, 0) (take (j + c) query) = (res, (child, c)) → length res = j + c →
  (j + c < L → chunk_at bt c (tokens d) ≠ chunk_at bt (j + c) q) →
  nodes (split_tree u child d cur cn c) !! node_next u = Some hn → length (blocks hn) = c → pos = (j + c) * bt →
  walked (node_next u, pos, res, Some (node_next u)) (p, touch_tree (split_tree u child d cur cn c) (node_next u) hn).
Proof.
  intros Hw Hkj Hc0 HjL Sp Hf' Hr' Hne Hh Hlen ->. pose proof (walks_inv k t u I Hw) as (Iu & Eb & Er & Ec).
  pose proof (sp_node _ _ _ _ _ _ Sp) as Hd. pose proof (sp_root _ _ _ _ _ _ Sp) as Hcr.
  eapply (walk_stops _ _ _ _ _ _ (j + c) (S k)); try done; try lia.
  - by apply walks_split.
  - simpl. by rewrite lookup_insert_eq.
  - rewrite touched_follow by done. simpl. destruct (ti_root _ Iu) as (rn & Hrn & _).
    pose proof (split_follow u child d cur cn c Sp (root_ u, 0) (take (j + c) query) ltac:(by eexists)) as Hsf.
    unfold moved_pos in Hsf at 1. cbn [fst] in Hsf. rewrite decide_False in Hsf by done.
    rewrite Er in Hsf. rewrite Hsf, Hf', Hlen. simpl. unfold moved_pos. simpl. by rewrite !decide_True by done.
  - destruct (Nat.eqb_spec (j + c) 0); [lia|done].
  - intros HlL. rewrite (step_chunk_struct (split_tree u child d cur cn c)) by (by apply touch_struct).
    pose proof (split_step u child d cur cn c Sp (child, c) (chunk_at bt (j + c) q) ltac:(by eexists)) as Hss.
    unfold moved_pos in Hss at 1. simpl in Hss. rewrite !decide_True in Hss by done. simpl. rewrite Hlen, Hss.
    rewrite (step_run_None u child d c); [done|done|apply Sp|]. rewrite Eb. by apply Hne.
Qed.

Lemma wp_descend_round w s :
  walking w s →
  wp (descend_round q (L * bt) w) (λ r s', match r with
    | inl w' => walking w' s' ∧ L * bt - w'.1.1.2 < L * bt - w.1.1.2
    | inr w' => walked w' s'
    end) s.
Proof.
  destruct w as [[[cur pos] res] node]. intros (u & j & k & -> & Hw & Hj & -> & (cn & Hcn & Hf & Hr) & Hnode & Hroot).
  pose proof (walks_inv k t u I Hw) as (Iu & Eb & Er & Ec). pose proof (ti_bt _ I) as Hbt. fold bt in Eb, Hbt.
  unfold descend_round, get_tree. wp_steps. simpl. rewrite Eb.
  destruct (Nat.ltb_spec (j * bt) (L * bt)) as [Hlt|Hge].
  2: { wp_steps. eapply (walk_stops _ _ _ _ _ _ j k); try done; try lia. nia. }
  assert (j < L) as HjL by nia.
  wp_steps. eapply wp_node_at; [done|]. simpl. rewrite round_key.
  destruct (children cn !! block_key (chunk_at bt j q) bt) as [child|] eqn:Hc.
  2: { wp_steps. eapply (walk_stops _ _ _ _ _ _ j k); try done; try lia. intros _.
       eapply step_end_None; [done..|]. intros child d. rewrite Eb. by rewrite Hc. }
  destruct (ti_child _ Iu cur cn _ child Hcn Hc) as (Hcr & d & Hd & Hdp & Hdk).
  wp_steps. eapply wp_node_at; [done|]. wp_steps. simpl.
  replace ((L * bt - j * bt) / bt) with (L - j)
    by (rewrite <-Nat.mul_sub_distr_r, Nat.div_mul; lia).
  destruct (ti_run _ Iu child d Hd Hcr) as [Hrun Hbne].
  assert (0 < length (blocks d)) as Hbd by (destruct (blocks d); [done|simpl; lia]).
  set (mx := Nat.min (length (blocks d)) (L - j)).
  destruct (common_blocks_query bt (tokens d) q j mx) as (Hc1 & Hceq & Hc3).
  set (c := common_blocks bt (tokens d) (drop (j * bt) q) mx 0) in *.
  destruct (Nat.eqb_spec c 0) as [E0|Hc0].
  { wp_steps. eapply (walk_stops _ _ _ _ _ _ j k); try done; try lia. intros _.
    eapply step_end_None; [done..|]. intros child' d'. rewrite Eb, Hc. intros [= <-] Hd'. simplify_eq.
    rewrite E0, Nat.add_0_r in Hc3. apply Hc3. lia. }
  pose proof (round_child u cur cn res j k Hw HjL Hcn Hf Hr child d c Hc Hd ltac:(lia) ltac:(lia) Hceq) as Hf'.
  assert (length (res ++ take c (blocks d)) = j + c) as Hr' by (rewrite length_app, length_take; lia).
  destruct (Nat.ltb_spec c (length (blocks d))) as [Hin|Hend].
  - (* the walk ends inside the child: split *)
    wp_steps.
    assert (splittable u child d cur cn c) as Sp by (constructor; try done; lia).
    rewrite <-Eb. apply (wp_split_node u child d cur cn c Sp).
    pose proof (split_lookup_head u child d cur cn c Sp) as Hh.
    wp_steps. eapply wp_touch_tree; [exact Hh|]. wp_steps. cbn [fst snd].
    eapply (split_stops _ _ _ _ _ c j k); try done; try lia; [intros; apply Hc3; lia|].
    simpl. rewrite length_take. lia.
  - (* the whole child is matched *)
    assert (c = length (blocks d)) as Ecd by lia.
    wp_steps. eapply wp_touch_tree; [done|]. wp_steps. cbn [fst snd]. split; [|nia].
    exists (touch_tree u child d), (j + c), (S k). split_and!; try done; [by apply walks_touch|lia|lia|lia| | |lia].
    + eexists. split; [simpl; apply lookup_insert_eq|]. rewrite touched_follow by done. simpl.
      rewrite <-Ecd. done.
    + destruct (Nat.eqb_spec (j + c) 0); [lia|done].
Qed.
End descend.

(** ** The path to a node *)

Definition node_blocks (u : RadixTree) (l : NodePtr) : list BlockId := default [] (blocks <$> nodes u !! l).
Definition node_tokens (u : RadixTree) (l : NodePtr) : list TokenId := default [] (tokens <$> nodes u !! l).

(** The blocks and the tokens of a chain, from the root down. *)
Definition path_blocks (u : RadixTree) (ls : list NodePtr) : list BlockId :=
  concat (node_blocks u <$> reverse ls).
Definition path_tokens (u : RadixTree) (ls : list NodePtr) : list TokenId :=
  concat (node_tokens u <$> reverse ls).

Lemma path_blocks_cons u l ls : path_blocks u (l :: ls) = path_blocks u ls ++ node_blocks u l.
Proof. unfold path_blocks. rewrite reverse_cons, fmap_app, concat_app. simpl. by rewrite app_nil_r. Qed.
Lemma path_tokens_cons u l ls : path_tokens u (l :: ls) = path_tokens u ls ++ node_tokens u l.
Proof. unfold path_tokens. rewrite reverse_cons, fmap_app, concat_app. simpl. by rewrite app_nil_r. Qed.

Lemma take_chunk bt i ts : (S i) * bt ≤ length ts → take (S i * bt) ts = take (i * bt) ts ++ chunk_at bt i ts.
Proof.
  intros Hle. unfold chunk_at, slice. rewrite take_take_drop. f_equal. simpl. lia.
Qed.

(** What has been read at a position: the blocks [bs] and the tokens [ts] are
    those of the path to it. *)
Inductive reached (u : RadixTree) : N * nat → list BlockId → list TokenId → Prop :=
  | reached_root : reached u (root_ u, 0) [] []
  | reached_in l i n ls :
      nodes u !! l = Some n → l ≠ root_ u → 0 < i ≤ length (blocks n) →
      chain (nodes u) (root_ u) l (l :: ls) →
      reached u (l, i) (path_blocks u ls ++ take i (blocks n))
        (path_tokens u ls ++ take (i * block_tokens_ u) (tokens n)).

Lemma reached_step u x c y b bs ts :
  tree_inv u → reached u x bs ts → step_chunk u x c = Some (y, b) → reached u y (bs ++ [b]) (ts ++ c).
Proof.
  intros Iu Hr Hs. unfold step_chunk in Hs. set (bt := block_tokens_ u) in *.
  destruct (nodes u !! x.1) as [n|] eqn:Hn; simpl in Hs; [|done].
  destruct (blocks n !! x.2) as [b0|] eqn:Hb.
  - case_decide as Hc; [|done]. injection Hs as <- <-.
    destruct Hr as [|l i m ls Hm Hne Hi Hch]; simpl in *.
    { destruct (ti_root _ Iu) as (rn & Hr & _ & Hrb & _). simplify_eq. by rewrite Hrb in Hb. }
    assert (m = n) as -> by congruence. pose proof (lookup_lt_Some _ _ _ Hb) as Hlt.
    destruct (ti_run _ Iu l n Hn Hne) as [Hrun _]. fold bt in Hrun |- *.
    rewrite <-!app_assoc, <-take_S_r by done. rewrite <-Hc, <-take_chunk by nia.
    apply reached_in; try done. lia.
  - destruct (children n !! block_key c bt) as [l'|] eqn:Hc; simpl in Hs; [|done].
    destruct (nodes u !! l') as [d|] eqn:Hd; simpl in Hs; [|done].
    destruct (blocks d !! 0) as [b0|] eqn:Hb0; simpl in Hs; [|done].
    case_decide as Heq; [|done]. injection Hs as <- <-.
    destruct (ti_child _ Iu x.1 n _ l' Hn Hc) as (Hne & d' & Hd' & Hdp & _). simplify_eq.
    destruct (ti_run _ Iu l' d Hd Hne) as [Hrun Hbne].
    assert (0 < length (blocks d)) by (destruct (blocks d); [done|simpl; lia]).
    assert (take 1 (blocks d) = [b0]) as E1 by (destruct (blocks d); simplify_eq/=; by rewrite take_0).
    assert (take (1 * bt) (tokens d) = chunk_at bt 0 (tokens d)) as E2 by (by rewrite Nat.mul_1_l).
    destruct Hr as [|l i m ls Hm Hlne Hi Hch]; simpl in *.
    + rewrite <-E1, <-E2.
      change (reached u (l', 1) (path_blocks u [] ++ take 1 (blocks d))
                (path_tokens u [] ++ take (1 * bt) (tokens d))).
      apply reached_in; try done; [lia|]. econstructor; [done|done|done|constructor].
    + assert (m = n) as -> by congruence. apply lookup_ge_None in Hb. assert (i = length (blocks n)) as -> by lia.
      destruct (ti_run _ Iu l n Hn Hlne) as [Hrun' _]. fold bt in Hrun' |- *.
      rewrite <-Hrun', !firstn_all, <-E1, <-E2.
      assert (path_blocks u ls ++ blocks n = path_blocks u (l :: ls)) as ->
        by (rewrite path_blocks_cons; unfold node_blocks; by rewrite Hn).
      assert (path_tokens u ls ++ tokens n = path_tokens u (l :: ls)) as ->
        by (rewrite path_tokens_cons; unfold node_tokens; by rewrite Hn).
      apply reached_in; try done; [lia|]. econstructor; done.
Qed.

Lemma follow_reached u x cs bs ts :
  tree_inv u → reached u x bs ts → length (follow u x cs).1 = length cs →
  reached u (follow u x cs).2 (bs ++ (follow u x cs).1) (ts ++ concat cs).
Proof.
  intros Iu. revert x bs ts. induction cs as [|c cs IH]; intros x bs ts Hr Hlen; simpl in *.
  - by rewrite !app_nil_r.
  - destruct (step_chunk u x c) as [[y b]|] eqn:Es; simpl in *; [|done].
    rewrite (cons_middle b), (app_assoc _ [b]), (app_assoc ts c). apply IH; [|lia].
    by eapply reached_step.
Qed.

(** A walk stops where it stands. *)
Lemma follow_matched t x cs : follow t x (take (length (follow t x cs).1) cs) = follow t x cs.
Proof.
  revert x. induction cs as [|c cs IH]; intros x; [by rewrite take_nil|]. simpl.
  destruct (step_chunk t x c) as [[y b]|] eqn:E; simpl; [|done]. by rewrite E, IH.
Qed.

Lemma concat_chunks bt q n : n ≤ length q / bt → concat (take n (chunks bt q)) = take (n * bt) q.
Proof.
  destruct (decide (bt = 0)) as [->|Hbt]; [intros Hn; simpl in Hn; replace n with 0 by lia; done|].
  induction n as [|n IH]; intros Hn; [done|].
  assert (S n * bt ≤ length q).
  { etrans; [apply Nat.mul_le_mono_r, Hn|]. rewrite Nat.mul_comm. apply Nat.Div0.mul_div_le. }
  rewrite (take_S_r (chunks bt q) n (chunk_at bt n q)) by (apply lookup_chunks; split; [lia|done]).
  rewrite concat_app, IH by lia. simpl. rewrite app_nil_r. symmetry. by apply take_chunk.
Qed.

(** ** match_prefix *)

Section match_prefix.
Context {P : Type} `{BlockStore P} `{IterOrder}.

Lemma wp_descend (p : P) t q L (Q : walk → P * RadixTree → Prop) :
  tree_inv t → L ≤ length q / block_tokens_ t →
  (∀ w s, walked p t q L w s → Q w s) →
  wp (descend q (L * block_tokens_ t)) Q (p, t).
Proof.
  intros I HL HQ. unfold descend, get_tree. wp_steps. cbn [snd].
  eapply (wp_loop _ (walking p t q L) (λ w _, L * block_tokens_ t - w.1.1.2)); cbn [fst snd].
  - destruct (ti_root _ I) as (rn & Hrn & _ & Hrb & _).
    exists t, 0, 0. split_and!; try done; [by constructor|lia|].
    exists rn. rewrite Hrb. done.
  - lia.
  - intros w s Hw. eapply wp_mono; [by apply wp_descend_round|].
    intros [w'|w'] s' Hr; [|by apply HQ]. done.
Qed.

(** The path of the node a walk ends at is the matched part of the query. *)
Lemma walked_path (p : P) t q L cur pos res node (s : P * RadixTree) :
  tree_inv t → L ≤ length q / block_tokens_ t → walked p t q L (cur, pos, res, node) s → res ≠ [] →
  ∃ ls, chain (nodes s.2) (root_ s.2) cur (cur :: ls) ∧ path_blocks s.2 (cur :: ls) = res ∧
    path_tokens s.2 (cur :: ls) = take pos q.
Proof.
  intros I HL (u & k & -> & Hw & Hk & Hres & -> & (cn & Hcn & Hf & _) & _) Hne. simpl.
  pose proof (walks_inv k t u I Hw) as (Iu & Eb & Er & Ec).
  assert (length res ≤ L) as Hlen.
  { rewrite Hres. unfold cached. etrans; [apply follow_length|]. rewrite (query_length t q L); done. }
  pose proof (follow_reached u (root_ u, 0) (take (length res) (query t q L)) [] [] Iu ltac:(constructor)) as Hr.
  rewrite Er, Hf in Hr. simpl in Hr.
  rewrite length_take, (query_length t q L) in Hr by done. specialize (Hr ltac:(lia)).
  inversion Hr as [E1 E2|l i n ls Hn Hlr Hi Hch E1 E2 E3]; subst; [done|]. simplify_eq.
  exists ls. split; [done|].
  rewrite path_blocks_cons, path_tokens_cons. unfold node_blocks, node_tokens. rewrite Hcn. simpl.
  destruct (ti_run _ Iu cur cn Hcn Hlr) as [Hrun _].
  rewrite <-E2 in Hlen. rewrite firstn_all in E3, Hlen |- *. split; [done|].
  rewrite <-Hrun, firstn_all in E3. rewrite E3. unfold query.
  rewrite take_take, Nat.min_l by done. apply concat_chunks. lia.
Qed.

Lemma match_prefix_spec (p : P) t q :
  tree_inv t →
  wp (match_prefix q) (λ r s, ∃ u k, s = (p, u) ∧ walks k t u ∧ k ≤ length (mr_blocks r) ∧
    mr_blocks r = cached t (chunks (block_tokens_ t) q) ∧
    mr_num_tokens r = length (mr_blocks r) * block_tokens_ t ∧
    holder u (chunks (block_tokens_ t) q) = default (root_ t) (mr_node r) ∧
    match mr_node r with
    | None => mr_blocks r = []
    | Some l => l ≠ root_ u ∧ ∃ ls, chain (nodes u) (root_ u) l (l :: ls) ∧
        path_blocks u (l :: ls) = mr_blocks r ∧ path_tokens u (l :: ls) = take (mr_num_tokens r) q
    end) (p, t).
Proof.
  intros I. unfold match_prefix, get_tree. wp_steps. simpl. apply wp_descend; [done|lia|].
  intros [[[cur pos] res] node] s W. wp_steps. simpl.
  pose proof (walked_path p t q (length q / block_tokens_ t) cur pos res node s I ltac:(lia) W) as Hpath.
  destruct W as (u & k & -> & Hw & Hk & Hres & Hpos & (cn & _ & Hf & _) & Hnode & Hroot). simpl in Hpath.
  assert (query t q (length q / block_tokens_ t) = chunks (block_tokens_ t) q) as Eq
    by (unfold query; by rewrite firstn_all2 by (rewrite length_chunks; lia)).
  rewrite Eq in *. exists u, k. split_and!; try done.
  - destruct (walks_inv k t u I Hw) as (_ & _ & Er & Ec).
    assert (res = (follow u (root_ t, 0) (chunks (block_tokens_ t) q)).1) as Hres'
      by (rewrite Hres, <-Ec; unfold cached; by rewrite Er).
    unfold holder. rewrite Er, <-follow_matched, <-Hres', Hf, Hnode. simpl.
    destruct (Nat.eqb_spec (length res) 0); [by apply Hroot|done].
  - subst node. destruct (Nat.eqb_spec (length res) 0) as [E|E]; [by apply nil_length_inv|].
    destruct Hpath as (ls & Hch & Hb & Ht); [by intros ->|].
    split; [|eauto]. apply (chain_nodes _ _ _ _ cur Hch). by left.
Qed.
End match_prefix.
