(* ===== verification/RadixInsert.v ===== *)
(** * Publishing a sequence: insert

    [insert] walks down as far as the sequence is cached and hangs the rest off
    the node it reaches, as one leaf. What the tree caches afterwards is what
    it cached before plus the prefixes of the new sequence. *)

From S2P Require Import Prelude Types BlockPool PoolInv BlockStore RadixTree RadixInv RadixSplit RadixWalk.

Local Open Scope nat_scope.

(** ** References taken for a list of blocks *)

Section increfs.
Context {P : Type} `{BlockStoreLaws P} `{IterOrder}.

(** Every block of [bs] has gained a reference. *)
Definition increfed (f g : BlockId → option BlockView) (bs : list BlockId) : Prop :=
  ∀ id, g id = if decide (id ∈ bs) then (λ v, with_refs (bv_refs v + 1) v) <$> f id else f id.

Lemma wp_incref_all bs (Q : () → P * RadixTree → Prop) p t :
  bs_ok p → NoDup bs → (∀ id, id ∈ bs → ∃ v, bs_view p id = Some v ∧ (bv_refs v + 1 < two32)%N) →
  (∀ p', bs_ok p' → bs_keeps p p' → increfed (bs_view p) (bs_view p') bs → Q () (p', t)) →
  wp (for_each bs (λ id, on_pool (bs_incref id))) Q (p, t).
Proof.
  intros Hok Hnd Hlive HQ. eapply wp_mono.
  - apply (wp_for_each _ (λ pre suf s, s.2 = t ∧ bs_ok s.1 ∧ bs_keeps p s.1 ∧
      increfed (bs_view p) (bs_view s.1) pre)).
    + split_and!; done.
    + intros pre id suf [p1 t1] E (Et & Hok1 & Hk1 & Hv1). simpl in *. subst t1.
      assert (id ∉ pre) as Hnin.
      { rewrite E in Hnd. apply NoDup_app in Hnd as (_ & Hd & _). intros Hin.
        apply (Hd id Hin). by left. }
      destruct (Hlive id) as (v & Hv & Hlt); [rewrite E; set_solver|].
      assert (bs_view p1 id = Some v) as Hv' by (rewrite Hv1, decide_False; done).
      apply wp_on_pool. simpl. eapply wp_mono; [by eapply bs_incref_law|].
      intros [] p2 (Hok2 & Hk2 & Hv2). simpl. split_and!; [done..|by etrans|].
      intros x. rewrite Hv2. destruct (decide (x = id)) as [->|Hne].
      * rewrite decide_True by set_solver. by rewrite Hv.
      * rewrite Hv1. destruct (decide (x ∈ pre)); [rewrite decide_True by set_solver; done|].
        rewrite decide_False by set_solver. done.
  - intros [] [p' t'] (Et & Hok' & Hk' & Hv'). simpl in *. subst t'. by apply HQ.
Qed.
End increfs.

(** ** Facts about walks *)

Lemma step_chunk_length u x c r : tree_inv u → step_chunk u x c = Some r → length c = block_tokens_ u.
Proof.
  intros I Hs. unfold step_chunk in Hs. set (bt := block_tokens_ u) in *.
  assert (∀ l n i, nodes u !! l = Some n → i < length (blocks n) →
            length (chunk_at bt i (tokens n)) = bt) as Hlen.
  { intros l n i Hn Hi. destruct (decide (l = root_ u)) as [->|Hne].
    - destruct (ti_root _ I) as (rn & Hr & _ & Hb & _). simplify_eq. rewrite Hb in Hi. simpl in Hi. lia.
    - destruct (ti_run _ I l n Hn Hne) as [Hrun _]. apply length_slice. fold bt in Hrun. nia. }
  destruct (nodes u !! x.1) as [n|] eqn:Hn; simpl in Hs; [|done].
  destruct (blocks n !! x.2) as [b|] eqn:Hb.
  - case_decide as E; [|done]. rewrite <-E. eapply Hlen; [done|]. by eapply lookup_lt_Some.
  - destruct (children n !! _) as [l|]; simpl in Hs; [|done].
    destruct (nodes u !! l) as [d|] eqn:Hd; simpl in Hs; [|done].
    destruct (blocks d !! 0) as [b0|] eqn:Hb0; simpl in Hs; [|done]. case_decide as E; [|done].
    rewrite <-E. eapply Hlen; [done|]. by eapply lookup_lt_Some.
Qed.

Lemma follow_chunk_lengths u x cs :
  tree_inv u → length (follow u x cs).1 = length cs → Forall (λ c, length c = block_tokens_ u) cs.
Proof.
  intros I. revert x. induction cs as [|c cs IH]; intros x Hl; simpl in *; [constructor|].
  destruct (step_chunk u x c) as [[y b]|] eqn:E; simpl in *; [|done].
  constructor; [by eapply step_chunk_length|]. apply (IH y). lia.
Qed.

Lemma concat_inj {A} bt (cs cs' : list (list A)) :
  0 < bt → Forall (λ c, length c = bt) cs → Forall (λ c, length c = bt) cs' →
  concat cs = concat cs' → cs = cs'.
Proof.
  intros Hbt H. revert cs'. induction H as [|c cs Hc H IH]; intros cs' H' E.
  - destruct H' as [|c' cs' Hc' H']; [done|]. simpl in E. apply (f_equal length) in E.
    rewrite length_app in E. simpl in E. lia.
  - destruct H' as [|c' cs' Hc' H']; simpl in E.
    + apply (f_equal length) in E. rewrite length_app in E. simpl in E. lia.
    + apply app_inj_1 in E as [-> E]; [|congruence]. f_equal. by apply IH.
Qed.

Lemma reached_det u x bs ts bs' ts' : reached u x bs ts → reached u x bs' ts' → bs = bs' ∧ ts = ts'.
Proof.
  intros H. inversion H as [E|l i n ls Hn Hne Hi Hc E1]; subst; intros H';
    inversion H' as [E'|l' i' n' ls' Hn' Hne' Hi' Hc' E1']; subst; try done.
  pose proof (chain_det _ _ _ _ _ Hc Hc') as E. simplify_eq. done.
Qed.

(** Two complete walks from the root that end at one position are one walk. *)
Lemma follow_inj u cs cs' bs bs' y :
  tree_inv u → follow u (root_ u, 0) cs = (bs, y) → length bs = length cs →
  follow u (root_ u, 0) cs' = (bs', y) → length bs' = length cs' → cs = cs' ∧ bs = bs'.
Proof.
  intros I E Hl E' Hl'.
  pose proof (follow_reached u _ cs [] [] I (reached_root u)) as R. rewrite E in R. specialize (R Hl).
  pose proof (follow_reached u _ cs' [] [] I (reached_root u)) as R'. rewrite E' in R'. specialize (R' Hl').
  destruct (reached_det _ _ _ _ _ _ R R') as [Eb Et]. simpl in *. split; [|done].
  apply (concat_inj (block_tokens_ u)); [apply I|..|done].
  - apply (follow_chunk_lengths u (root_ u, 0)); [done|]. by rewrite E.
  - apply (follow_chunk_lengths u (root_ u, 0)); [done|]. by rewrite E'.
Qed.

(** An incomplete walk stops because its next step does not exist. *)
Lemma follow_stuck u x cs :
  length (follow u x cs).1 < length cs →
  ∃ c rest, cs = take (length (follow u x cs).1) cs ++ c :: rest ∧
    follow u x (take (length (follow u x cs).1) cs) = follow u x cs ∧
    step_chunk u (follow u x cs).2 c = None.
Proof.
  revert x. induction cs as [|c cs IH]; intros x Hl; simpl in *; [lia|].
  destruct (step_chunk u x c) as [[y b]|] eqn:E; simpl in *.
  - destruct (IH y ltac:(lia)) as (c' & rest & E1 & E2 & E3). exists c', rest.
    split_and!; [by f_equal|by rewrite E, E2|done].
  - by exists c, cs.
Qed.

(** ** The new leaf *)

Definition insert_tree (u : RadixTree) (cur : NodePtr) (cn : Node) (ts : list TokenId) (bs : list BlockId)
    : RadixTree :=
  let leaf := node_next u in
  let key := block_key ts (block_tokens_ u) in
  let now := u64 (clock_ u + 1) in
  mk_tree (block_tokens_ u)
    (<[cur := set_children (<[key := leaf]> (children cn)) cn]>
      (<[leaf := {| tokens := ts; blocks := bs; children := ∅; parent := Some cur;
                    lock_count := 0; last_access := now |}]> (nodes u)))
    (root_ u) now (u64 (stored_blocks_ u + size_of bs)) (u64 (num_nodes_ u + 1)) (collisions_ u)
    (node_next u + 1)%N.

Record insertable (u : RadixTree) (cur : NodePtr) (cn : Node) (ts : list TokenId) (bs : list BlockId)
    : Prop := {
  in_inv : tree_inv u;
  in_cur : nodes u !! cur = Some cn;
  in_key : children cn !! block_key ts (block_tokens_ u) = None;
  in_run : length ts = length bs * block_tokens_ u;
  in_pos : bs ≠ [];
}.

Section insert_leaf.
Context (u : RadixTree) (cur : NodePtr) (cn : Node) (ts : list TokenId) (bs : list BlockId).
Context (In : insertable u cur cn ts bs).
Let I := in_inv _ _ _ _ _ In.
Let Hcur := in_cur _ _ _ _ _ In.
Let Hkey := in_key _ _ _ _ _ In.
Let Hrun := in_run _ _ _ _ _ In.
Let Hbs := in_pos _ _ _ _ _ In.
Let bt := block_tokens_ u.
Let leaf := node_next u.
Let key := block_key ts bt.
Let u' := insert_tree u cur cn ts bs.
Let ln : Node := {| tokens := ts; blocks := bs; children := ∅; parent := Some cur;
                    lock_count := 0; last_access := u64 (clock_ u + 1) |}.

Lemma leaf_fresh : nodes u !! leaf = None.
Proof.
  destruct (nodes u !! leaf) eqn:E; [|done].
  pose proof (ti_next _ I leaf ltac:(by eexists)). unfold leaf in *. lia.
Qed.

Lemma leaf_ne : cur ≠ leaf ∧ leaf ≠ root_ u.
Proof.
  pose proof leaf_fresh as Hf. destruct (ti_root _ I) as (rn & Hr & _).
  split; intros E; [rewrite <-E in Hf|rewrite E in Hf]; congruence.
Qed.

Lemma ins_lookup_leaf : nodes u' !! leaf = Some ln.
Proof. destruct leaf_ne. simpl. rewrite lookup_insert_ne by done. apply lookup_insert_eq. Qed.
Lemma ins_lookup_cur : nodes u' !! cur = Some (set_children (<[key := leaf]> (children cn)) cn).
Proof. simpl. apply lookup_insert_eq. Qed.
Lemma ins_lookup_other l : l ≠ cur → l ≠ leaf → nodes u' !! l = nodes u !! l.
Proof. intros. simpl. rewrite lookup_insert_ne by done. by rewrite lookup_insert_ne by done. Qed.

Lemma ins_lookup_old l m :
  nodes u !! l = Some m → ∃ m', nodes u' !! l = Some m' ∧ tokens m' = tokens m ∧ blocks m' = blocks m ∧
    parent m' = parent m ∧ lock_count m' = lock_count m ∧ last_access m' = last_access m ∧
    children m' = (if decide (l = cur) then <[key := leaf]> (children m) else children m).
Proof.
  intros Hl. assert (l ≠ leaf) by (intros ->; pose proof leaf_fresh; congruence).
  destruct (decide (l = cur)) as [->|].
  - eexists. split; [apply ins_lookup_cur|]. assert (m = cn) as -> by congruence. done.
  - exists m. by rewrite ins_lookup_other.
Qed.

Lemma ins_lookup_inv l m' : nodes u' !! l = Some m' → l ≠ leaf → ∃ m, nodes u !! l = Some m.
Proof.
  intros Hl Hne. destruct (decide (l = cur)) as [->|]; [eauto|]. rewrite ins_lookup_other in Hl by done. eauto.
Qed.

Lemma ins_chain l ls : chain (nodes u) (root_ u) l ls → chain (nodes u') (root_ u) l ls.
Proof.
  apply chain_ext. intros x n _ Hx. destruct (ins_lookup_old x n Hx) as (n' & Hn' & _ & _ & E & _). eauto.
Qed.

Lemma insert_inv : tree_inv u'.
Proof.
  destruct leaf_ne as [Hcl Hlr].
  constructor; change (block_tokens_ u') with bt; change (root_ u') with (root_ u).
  - apply I.
  - destruct (ti_root _ I) as (rn & Hr & Ht & Hb & Hp).
    destruct (ins_lookup_old _ rn Hr) as (m' & Hm' & E1 & E2 & E3 & _).
    exists m'. by rewrite E1, E2, E3.
  - intros l m Hm Hne. destruct (decide (l = leaf)) as [->|Hll].
    + rewrite ins_lookup_leaf in Hm. simplify_eq. done.
    + destruct (ins_lookup_inv l m Hm Hll) as [m0 Hm0].
      destruct (ins_lookup_old l m0 Hm0) as (? & ? & E1 & E2 & _). simplify_eq. rewrite E1, E2.
      by apply (ti_run _ I l).
  - intros l m Hm Hne. destruct (decide (l = leaf)) as [->|Hll].
    + rewrite ins_lookup_leaf in Hm. simplify_eq. eexists cur, _. split; [done|].
      split; [apply ins_lookup_cur|]. simpl. apply lookup_insert_eq.
    + destruct (ins_lookup_inv l m Hm Hll) as [m0 Hm0].
      destruct (ins_lookup_old l m0 Hm0) as (? & ? & E1 & _ & E3 & _). simplify_eq. rewrite E1, E3.
      destruct (ti_parent _ I l m0 Hm0 Hne) as (p & pn & Hp & Hpn & Hc).
      destruct (ins_lookup_old p pn Hpn) as (pn' & Hpn' & _ & _ & _ & _ & _ & Ec).
      exists p, pn'. split_and!; [done..|]. rewrite Ec. case_decide as Epc; [|done].
      assert (pn = cn) as -> by congruence. fold bt in Hc.
      rewrite lookup_insert_ne; [done|]. intros E. fold bt in Hkey. unfold key in E. congruence.
  - intros p pn k c Hp Hc. destruct (decide (p = leaf)) as [->|Hpl].
    { rewrite ins_lookup_leaf in Hp. by simplify_eq. }
    destruct (ins_lookup_inv p pn Hp Hpl) as [p0 Hp0].
    destruct (ins_lookup_old p p0 Hp0) as (? & ? & _ & _ & _ & _ & _ & Ec). simplify_eq.
    assert (children p0 !! k = Some c → c ≠ root_ u ∧ ∃ n, nodes u' !! c = Some n ∧ parent n = Some p ∧
              block_key (tokens n) bt = k) as Hold.
    { intros Hc0. destruct (ti_child _ I p p0 k c Hp0 Hc0) as (Hcr & n & Hn & Hnp & Hnk). split; [done|].
      destruct (ins_lookup_old c n Hn) as (n' & Hn' & E1 & _ & E3 & _). exists n'. by rewrite E1, E3. }
    rewrite Ec in Hc. case_decide as Epc; [|by apply Hold]. subst p.
    apply lookup_insert_Some in Hc as [[<- <-]|[_ Hc]]; [|by apply Hold].
    split; [done|]. exists ln. split; [apply ins_lookup_leaf|]. done.
  - intros l [m Hm]. destruct (decide (l = leaf)) as [->|Hll].
    + destruct (ti_chain _ I cur) as [ls Hls]; [by eexists|]. exists (leaf :: ls).
      econstructor; [done|apply ins_lookup_leaf|done|by apply ins_chain].
    + destruct (ins_lookup_inv l m Hm Hll) as [m0 Hm0].
      destruct (ti_chain _ I l) as [ls Hls]; [by eexists|]. exists ls. by apply ins_chain.
  - intros l [m Hm]. simpl. destruct (decide (l = leaf)) as [->|Hll]; [unfold leaf; lia|].
    destruct (ins_lookup_inv l m Hm Hll) as [m0 Hm0]. pose proof (ti_next _ I l ltac:(by eexists)). lia.
Qed.

(** *** What is cached afterwards *)

Definition valid_pos (x : N * nat) : Prop := ∃ n, nodes u !! x.1 = Some n ∧ x.2 ≤ length (blocks n).

Lemma valid_step x c y b : valid_pos x → step_chunk u x c = Some (y, b) → valid_pos y.
Proof.
  intros (n & Hn & Hx) Hs. unfold step_chunk in Hs. rewrite Hn in Hs. simpl in Hs.
  destruct (blocks n !! x.2) as [b0|] eqn:Hb.
  - case_decide; [|done]. simplify_eq. exists n. split; [done|]. apply lookup_lt_Some in Hb. simpl. lia.
  - destruct (children n !! _) as [l|]; simpl in Hs; [|done].
    destruct (nodes u !! l) as [d|] eqn:Hd; simpl in Hs; [|done].
    destruct (blocks d !! 0) as [b0|] eqn:Hb0; simpl in Hs; [|done]. case_decide; [|done]. simplify_eq.
    exists d. split; [done|]. apply lookup_lt_Some in Hb0. simpl. lia.
Qed.

(** A step the old tree can make is still made. *)
Lemma ins_step_old x c r : step_chunk u x c = Some r → step_chunk u' x c = Some r.
Proof.
  unfold step_chunk. change (block_tokens_ u') with bt. fold bt.
  destruct (nodes u !! x.1) as [n|] eqn:Hn; [|done]. cbn [mbind option_bind].
  destruct (ins_lookup_old _ n Hn) as (n' & Hn' & E1 & E2 & _ & _ & _ & Ec).
  rewrite Hn'. cbn [mbind option_bind]. rewrite E1, E2. destruct (blocks n !! x.2) as [b|]; [done|].
  destruct (children n !! block_key c bt) as [l|] eqn:El; [|done]. cbn [mbind option_bind].
  destruct (nodes u !! l) as [d|] eqn:Hd; [|done]. cbn [mbind option_bind]. intros Hs.
  assert (children n' !! block_key c bt = Some l) as ->.
  { rewrite Ec. destruct (decide (x.1 = cur)) as [E|E]; [|done]. rewrite E in Hn. assert (n = cn) as -> by congruence.
    rewrite lookup_insert_ne; [done|]. intros E'. fold bt in Hkey. unfold key in E'. congruence. }
  cbn [mbind option_bind]. destruct (ins_lookup_old l d Hd) as (d' & Hd' & F1 & F2 & _).
  rewrite Hd'. cbn [mbind option_bind]. by rewrite F1, F2.
Qed.

(** A step it cannot make is made only from the end of [cur], into the leaf. *)
Lemma ins_step_new x c :
  valid_pos x → step_chunk u x c = None →
  step_chunk u' x c = if decide (x = (cur, length (blocks cn)) ∧ c = chunk_at bt 0 ts)
                      then (λ b, ((leaf, 1), b)) <$> bs !! 0 else None.
Proof.
  intros (n & Hn & Hx) Hs. unfold step_chunk in *. change (block_tokens_ u') with bt. fold bt in Hs.
  rewrite Hn in Hs. cbn [mbind option_bind] in Hs.
  destruct (ins_lookup_old _ n Hn) as (n' & Hn' & E1 & E2 & _ & _ & _ & Ec).
  rewrite Hn'. cbn [mbind option_bind]. rewrite E1, E2.
  destruct (blocks n !! x.2) as [b|] eqn:Hb.
  - rewrite (decide_False (P := x = _ ∧ _)).
    + by destruct (decide (chunk_at bt x.2 (tokens n) = c)).
    + intros [-> _]. simpl in *. assert (n = cn) as -> by congruence. apply lookup_lt_Some in Hb. lia.
  - apply lookup_ge_None in Hb. rewrite Ec. destruct (decide (x.1 = cur)) as [Exc|Exc].
    + assert (n = cn) as -> by (rewrite Exc in Hn; congruence).
      assert (x = (cur, length (blocks cn))) as Ex by (destruct x; simpl in *; f_equal; [done|lia]).
      destruct (decide (block_key c bt = key)) as [Ek|Ek].
      * rewrite Ek, lookup_insert_eq. cbn [mbind option_bind]. rewrite ins_lookup_leaf.
        cbn [mbind option_bind]. unfold ln. cbn [blocks tokens].
        destruct (bs !! 0) as [b|]; [|by destruct (decide (x = _ ∧ _))]. cbn [mbind option_bind].
        destruct (decide (chunk_at bt 0 ts = c)) as [<-|Hne].
        -- by rewrite decide_True.
        -- rewrite decide_False; [done|]. intros [_ ->]. done.
      * rewrite lookup_insert_ne by done. rewrite (decide_False (P := x = _ ∧ _)).
        -- destruct (children cn !! block_key c bt) as [l|] eqn:El; [|done].
           destruct (ti_child _ I cur cn _ l Hcur El) as (_ & d & Hd & _).
           destruct (ins_lookup_old l d Hd) as (d' & Hd' & F1 & F2 & _).
           cbn [mbind option_bind] in *. rewrite Hd in Hs. rewrite Hd'.
           cbn [mbind option_bind] in *. by rewrite F1, F2.
        -- intros [_ ->]. apply Ek. unfold key. rewrite chunk_at_0. apply block_key_take.
    + rewrite (decide_False (P := x = _ ∧ _)) by (intros [-> _]; done).
      destruct (children n !! block_key c bt) as [l|] eqn:El; [|done]. cbn [mbind option_bind] in *.
      destruct (ti_child _ I x.1 n _ l Hn El) as (_ & d & Hd & _). rewrite Hd in Hs.
      destruct (ins_lookup_old l d Hd) as (d' & Hd' & F1 & F2 & _).
      rewrite Hd'. cbn [mbind option_bind] in *. by rewrite F1, F2.
Qed.

Lemma ins_leaf_step i c :
  step_chunk u' (leaf, i) c
  = if decide (c = chunk_at bt i ts) then (λ b, ((leaf, S i), b)) <$> bs !! i else None.
Proof.
  unfold step_chunk. cbn [fst snd]. change (block_tokens_ u') with bt. rewrite ins_lookup_leaf.
  cbn [mbind option_bind]. unfold ln. cbn [blocks tokens children].
  destruct (bs !! i) as [b|]; [|by case_decide].
  case_decide as E; [rewrite decide_True by done|rewrite decide_False by done]; done.
Qed.

Definition leaf_chunks : list chunk := (λ i, chunk_at bt i ts) <$> seq 0 (length bs).

Lemma leaf_chunks_lookup i : i < length bs → leaf_chunks !! i = Some (chunk_at bt i ts).
Proof.
  intros Hi. unfold leaf_chunks. rewrite list_lookup_fmap, lookup_seq_lt by done. done.
Qed.

(** Inside the leaf, exactly its own blocks can be followed. *)
Lemma ins_leaf_follow i cs :
  i ≤ length bs →
  (length (follow u' (leaf, i) cs).1 = length cs ↔ cs `prefix_of` drop i leaf_chunks) ∧
  (follow u' (leaf, i) cs).1 `prefix_of` drop i bs.
Proof.
  revert i. induction cs as [|c cs IH]; intros i Hi; simpl.
  { split; [split; [intros; apply prefix_nil|done]|apply prefix_nil]. }
  rewrite ins_leaf_step. destruct (decide (i < length bs)) as [Hlt|Hge].
  - destruct (lookup_lt_is_Some_2 bs i Hlt) as [b Hb]. rewrite Hb.
    rewrite (drop_S _ _ _ (leaf_chunks_lookup i Hlt)), (drop_S _ _ _ Hb).
    destruct (IH (S i) ltac:(lia)) as [IH1 IH2].
    case_decide as E; simpl.
    + subst c. rewrite Nat.succ_inj_wd, IH1. split; [|by apply prefix_cons].
      split; [by apply prefix_cons|by apply prefix_cons_inv_2].
    + split; [|apply prefix_nil]. split; [done|]. intros Hp%prefix_cons_inv_1. done.
  - rewrite (lookup_ge_None_2 bs) by lia. rewrite drop_ge by (unfold leaf_chunks; rewrite length_fmap, length_seq; lia).
    assert ((if decide (c = chunk_at bt i ts) then (λ b : N, ((leaf, S i), b)) <$> None else None) = None) as ->
      by (by case_decide).
    simpl. split; [|apply prefix_nil]. split; [done|]. by intros ?%prefix_nil_not.
Qed.

Lemma ins_follow_old x cs :
  length (follow u x cs).1 = length cs → follow u' x cs = follow u x cs.
Proof.
  revert x. induction cs as [|c cs IH]; intros x Hl; [done|]. cbn [follow] in *.
  destruct (step_chunk u x c) as [[y b]|] eqn:E; [|done]. rewrite (ins_step_old _ _ _ E).
  simpl in Hl. rewrite IH by lia. done.
Qed.

Lemma valid_follow x cs : valid_pos x → valid_pos (follow u x cs).2.
Proof.
  revert x. induction cs as [|c cs IH]; intros x Hx; [done|]. simpl.
  destruct (step_chunk u x c) as [[y b]|] eqn:E; [|done]. simpl. apply IH. by eapply valid_step.
Qed.

Context (pre : list chunk) (res : list BlockId).
Context (Hpre : follow u (root_ u, 0) pre = (res, (cur, length (blocks cn)))).
Context (Hres : length res = length pre).

Lemma ins_no_step : step_chunk u (cur, length (blocks cn)) (chunk_at bt 0 ts) = None.
Proof.
  eapply step_end_None; [done..|]. intros child d. rewrite chunk_at_0, block_key_take. fold bt. 
  fold bt in Hkey. by rewrite Hkey.
Qed.

(** Past the end of [cur] the new tree continues into the leaf. *)
Lemma ins_follow_leaf rest :
  ∃ X, (follow u' (cur, length (blocks cn)) (chunk_at bt 0 ts :: rest)).1 = X ∧
    X `prefix_of` bs ∧ (length X = S (length rest) ↔ chunk_at bt 0 ts :: rest `prefix_of` leaf_chunks).
Proof.
  eexists. split; [done|].
  destruct (lookup_lt_is_Some_2 bs 0) as [b Hb]; [by destruct bs; [|simpl; lia]|].
  assert (leaf_chunks = chunk_at bt 0 ts :: drop 1 leaf_chunks) as El.
  { rewrite <-(drop_0 leaf_chunks) at 1. apply drop_S, leaf_chunks_lookup. by eapply lookup_lt_Some. }
  assert (bs = b :: drop 1 bs) as Eb by (rewrite <-(drop_0 bs) at 1; by apply drop_S).
  cbn [follow]. rewrite ins_step_new; [|exists cn; split; [done|simpl; lia]|apply ins_no_step].
  rewrite decide_True by done. rewrite Hb. simpl.
  destruct (ins_leaf_follow 1 rest) as [H1 H2]; [by apply lookup_lt_Some in Hb|].
  split; [rewrite Eb; by apply prefix_cons|].
  rewrite Nat.succ_inj_wd, H1, El. split; [by apply prefix_cons|by intros ?%prefix_cons_inv_2].
Qed.

Lemma prefix_lookup_last (X Y : list BlockId) n :
  X `prefix_of` Y → length X = S n → last X = Y !! n.
Proof.
  intros HX Hlen. rewrite last_lookup, Hlen. simpl.
  destruct (lookup_lt_is_Some_2 X n) as [b Hb]; [lia|].
  rewrite Hb. symmetry. by eapply prefix_lookup_Some.
Qed.

(** A sequence the new tree caches and the old one did not leaves the old tree
    where the leaf was added. *)
Lemma stuck_at_leaf ds r y c rest :
  follow u (root_ u, 0) ds = (r, y) → ds = take (length r) ds ++ c :: rest →
  follow u (root_ u, 0) (take (length r) ds) = (r, y) → ds `prefix_of` pre ++ leaf_chunks →
  y = (cur, length (blocks cn)) ∧ c = chunk_at bt 0 ts.
Proof.
  intros Er Eds Ef [k Hk]. set (m := length r) in *.
  assert (length ds = length (take m ds) + S (length rest)) as Hlds by (by rewrite Eds, length_app at 1).
  assert (m < length ds) as Hlt by (rewrite length_take in Hlds; lia).
  destruct (decide (length ds ≤ length pre)) as [Hle|Hgt].
  { assert (ds = take (length ds) pre) as Ed.
    { rewrite <-(take_app_le pre leaf_chunks), Hk by done. by rewrite take_app_length. }
    pose proof (follow_take u (root_ u, 0) pre (length ds)) as Hft. rewrite <-Ed, Er, Hpre in Hft.
    simpl in Hft. apply (f_equal length) in Hft. rewrite length_take in Hft. fold m in Hft. lia. }
  apply (f_equal (take (length ds))) in Hk as Hk1.
  rewrite take_app_length in Hk1. rewrite take_app_ge in Hk1 by lia.
  set (tl := take (length ds - length pre) leaf_chunks) in *.
  assert (∃ rest', tl = chunk_at bt 0 ts :: rest') as [rest' Etl].
  { unfold tl. destruct (length ds - length pre) as [|z] eqn:Ez; [lia|].
    destruct (decide (0 < length bs)) as [Hb|Hb]; [|by destruct bs; [|simpl in Hb; lia]].
    pose proof (leaf_chunks_lookup 0 Hb) as Hl0. destruct leaf_chunks; simplify_eq/=. eauto. }
  rewrite Etl in Hk1.
  assert (follow u (root_ u, 0) ds = (res, (cur, length (blocks cn)))) as E2.
  { rewrite <-Hk1. rewrite follow_app; rewrite Hpre; [|done]. simpl.
    rewrite ins_no_step. simpl. by rewrite app_nil_r. }
  rewrite E2 in Er. injection Er as <- <-. split; [done|].
  assert (take m ds = pre) as Epre by (apply (follow_inj u (take m ds) pre res res _ I Ef); [rewrite length_take; lia|done..]).
  rewrite Epre in Eds. rewrite Eds in Hk1 at 1. apply app_inv_head in Hk1. congruence.
Qed.

(** A sequence the old tree did not cache in full. *)
Lemma insert_find_stuck ds :
  length (cached u ds) < length ds →
  find u' ds = if decide (ds `prefix_of` pre ++ leaf_chunks)
               then (res ++ bs) !! pred (length ds) else None.
Proof.
  intros Hlt. unfold find, cached in *. change (root_ u') with (root_ u).
  destruct (ti_root _ I) as (rn & Hrn & _ & Hrb & _).
  destruct (follow_stuck u _ ds Hlt) as (c & rest & Eds & Ef & Es).
  pose proof (valid_follow (root_ u, 0) ds) as Hval.
  specialize (Hval ltac:(exists rn; split; [done|simpl; lia])).
  destruct (follow u (root_ u, 0) ds) as [r y] eqn:Er. simpl in *. set (m := length r) in *.
  assert (length (take m ds) = m) as Htm by (rewrite length_take; lia).
  assert (follow u' (root_ u, 0) ds
          = (r ++ (follow u' y (c :: rest)).1, (follow u' y (c :: rest)).2)) as Enew.
  { rewrite Eds at 1. rewrite follow_app; rewrite ins_follow_old, Ef; simpl; rewrite ?Ef; simpl; done || lia. }
  rewrite Enew. cbn [fst].
  assert (length ds = m + S (length rest)) as Hlds by (rewrite Eds, length_app, Htm; done).
  destruct (decide (y = (cur, length (blocks cn)) ∧ c = chunk_at bt 0 ts)) as [[-> ->]|Hno].
  - destruct (follow_inj u (take m ds) pre r res _ I Ef ltac:(lia) Hpre Hres) as [Epre ->].
    destruct (ins_follow_leaf rest) as (X & EX & HX & HlX). rewrite EX, length_app, Hlds. fold m.
    assert (ds `prefix_of` pre ++ leaf_chunks ↔ length X = S (length rest)) as Hiff.
    { rewrite HlX, Eds, Epre. split; [apply prefix_app_inv|apply prefix_app]. }
    destruct (decide (ds `prefix_of` pre ++ leaf_chunks)) as [Hp|Hp].
    + apply Hiff in Hp. rewrite decide_True by lia.
      replace (pred (m + S (length rest))) with (m + length rest) by lia.
      apply prefix_lookup_last; [by apply prefix_app|]. rewrite length_app. fold m. lia.
    + rewrite decide_False; [done|]. intros E. apply Hp, Hiff. lia.
  - cbn [follow]. rewrite ins_step_new by done. rewrite (decide_False (P := y = _ ∧ _)) by done. simpl. rewrite app_nil_r. fold m.
    rewrite decide_False by lia.
    rewrite decide_False; [done|]. intros Hp. by apply Hno, (stuck_at_leaf ds r y c rest).
Qed.

(** After the insert: everything cached before, and the prefixes of the
    inserted sequence. *)
Lemma insert_find ds :
  find u' ds = match find u ds with
               | Some b => Some b
               | None => if decide (ds ≠ [] ∧ ds `prefix_of` pre ++ leaf_chunks)
                         then (res ++ bs) !! pred (length ds) else None
               end.
Proof.
  destruct (decide (ds = [])) as [->|Hne]; [done|].
  pose proof (follow_length u (root_ u, 0) ds) as Hle.
  destruct (decide (length (cached u ds) = length ds)) as [Hfull|Hnot].
  - assert (cached u' ds = cached u ds) as E.
    { unfold cached in *. change (root_ u') with (root_ u). by rewrite ins_follow_old. }
    unfold find. rewrite E, decide_True by done.
    destruct (last (cached u ds)) as [b|] eqn:El; [done|].
    apply last_None in El. rewrite El in Hfull. by destruct ds.
  - rewrite insert_find_stuck by (unfold cached in *; lia).
    assert (find u ds = None) as -> by (unfold find; by rewrite decide_False).
    destruct (decide (ds `prefix_of` pre ++ leaf_chunks));
      [rewrite decide_True by done|rewrite decide_False by tauto]; done.
Qed.
End insert_leaf.

(** ** insert *)

Section insert.
Context {P : Type} `{BlockStoreLaws P} `{IterOrder}.

(** How many whole blocks [insert] considers. *)
Definition insert_len (bt : nat) (q : list TokenId) (table : list BlockId) : nat :=
  Nat.min (length q / bt) (length table).

Lemma insert_limit bt q (table : list BlockId) :
  (N.of_nat (length table) * N.of_nat bt < two64)%N →
  Nat.min (length q / bt * bt) (mul_size (length table) bt) = insert_len bt q table * bt.
Proof.
  intros Hw. unfold mul_size. rewrite u64_small by done.
  rewrite N2Nat.inj_mul, !Nat2N.id. unfold insert_len. by rewrite Nat.mul_min_distr_r.
Qed.

(** The three ways an insert ends. [u] is the tree after the walk, [j] how many
    blocks of the sequence were cached already. *)
Inductive insert_outcome (p : P) (t : RadixTree) (q : list TokenId) (table : list BlockId)
    : nat → P → RadixTree → Prop :=
  | insert_cached u k cur cn :
      walks k t u → k ≤ insert_len (block_tokens_ t) q table → nodes u !! cur = Some cn →
      length (cached t (query t q (insert_len (block_tokens_ t) q table)))
        = insert_len (block_tokens_ t) q table →
      insert_outcome p t q table 0 p (touch_tree u cur cn)
  | insert_collides u k j c :
      walks k t u → k ≤ j → j < insert_len (block_tokens_ t) q table →
      j = length (cached t (query t q (insert_len (block_tokens_ t) q table))) →
      c ≠ chunk_at (block_tokens_ t) j q →
      block_key c (block_tokens_ t) = block_key (chunk_at (block_tokens_ t) j q) (block_tokens_ t) →
      insert_outcome p t q table 0 p (upd_collisions (u64 (collisions_ u + 1)) u)
  | insert_adopts u k j cur cn p' ts bs :
      walks k t u → k ≤ j → j < insert_len (block_tokens_ t) q table →
      j = length (cached t (query t q (insert_len (block_tokens_ t) q table))) →
      bs = drop j (take (insert_len (block_tokens_ t) q table) table) →
      insertable u cur cn ts bs →
      bs_ok p' → bs_keeps p p' → increfed (bs_view p) (bs_view p') bs →
      (∀ ds, find (insert_tree u cur cn ts bs) ds
             = match find t ds with
               | Some b => Some b
               | None => if decide (ds ≠ [] ∧ ds `prefix_of` query t q (insert_len (block_tokens_ t) q table))
                         then table !! pred (length ds) else None
               end) →
      insert_outcome p t q table (length bs) p' (insert_tree u cur cn ts bs).

Lemma slice_drop_take {A} (l : list A) j n : slice j (n - j) l = drop j (take n l).
Proof. unfold slice. by rewrite skipn_firstn_comm. Qed.

(** The leaf's chunks are the rest of the query. *)
Lemma leaf_chunks_query t q L j u bs :
  L ≤ length q / block_tokens_ t → j ≤ L → block_tokens_ u = block_tokens_ t → length bs = L - j →
  leaf_chunks u (drop (j * block_tokens_ t) (take (L * block_tokens_ t) q)) bs = drop j (query t q L).
Proof.
  intros HL Hj Eb Hbs. apply list_eq. intros i. unfold leaf_chunks. rewrite Eb, list_lookup_fmap, lookup_drop.
  destruct (decide (i < L - j)) as [Hi|Hi].
  - rewrite lookup_seq_lt, query_lookup by lia. simpl. f_equal.
    rewrite chunk_at_drop. apply chunk_at_take. lia.
  - rewrite lookup_seq_ge, lookup_ge_None_2 by (rewrite ?query_length; lia). done.
Qed.

(** The state the walk of an insert ends in. *)
Section reached_end.
Context (t : RadixTree) (q : list TokenId) (table : list BlockId) (I : tree_inv t).
Context (u : RadixTree) (k : nat) (cur : NodePtr) (cn : Node) (res : list BlockId).
Let bt := block_tokens_ t.
Let L := insert_len bt q table.
Let j := length res.
Context (Hwk : walks k t u) (Hres : res = cached t (query t q L)).
Context (Hcn : nodes u !! cur = Some cn).
Context (Hf : follow u (root_ t, 0) (take j (query t q L)) = (res, (cur, length (blocks cn)))).

Lemma end_bounds : L ≤ length q / bt ∧ L ≤ length table ∧ j ≤ L ∧ L * bt ≤ length q ∧ 0 < bt.
Proof.
  assert (L ≤ length q / bt) as HL by (unfold L, insert_len; lia).
  split_and!; [done|unfold L, insert_len; lia| | |apply I].
  - unfold j. rewrite Hres. unfold cached. etrans; [apply follow_length|]. by rewrite query_length.
  - etrans; [apply Nat.mul_le_mono_r, HL|]. rewrite Nat.mul_comm. apply Nat.Div0.mul_div_le.
Qed.

Lemma end_walk :
  tree_inv u ∧ block_tokens_ u = bt ∧ root_ u = root_ t ∧ ∀ cs, cached u cs = cached t cs.
Proof. by eapply walks_inv. Qed.

(** An occupied slot holds a block with other tokens. *)
Lemma end_collision child :
  j < L → children cn !! block_key (chunk_at bt j q) bt = Some child →
  ∃ c, c ≠ chunk_at bt j q ∧ block_key c bt = block_key (chunk_at bt j q) bt.
Proof.
  intros Hj Hc. destruct end_walk as (Iu & Eb & Er & Ec). destruct end_bounds as (HL & _ & _ & _ & Hbt).
  destruct (ti_child _ Iu cur cn _ child Hcn Hc) as (Hcr & d & Hd & Hdp & Hdk). rewrite Eb in Hdk.
  destruct (ti_run _ Iu child d Hd Hcr) as [_ Hbne].
  exists (chunk_at bt 0 (tokens d)). split; [|by rewrite chunk_at_0, block_key_take].
  intros E. assert (length (cached u (query t q L)) = j) as Hstop by (by rewrite Ec, <-Hres).
  revert Hstop. unfold cached. rewrite Er, <-(take_drop j (query t q L)).
  rewrite follow_app by (rewrite Hf, length_take, query_length; simpl; unfold j, bt, L in *; lia).
  rewrite Hf. cbn [fst snd]. rewrite (drop_S _ (chunk_at bt j q)) by (by apply query_lookup).
  cbn [follow]. unfold step_chunk. cbn [fst snd]. rewrite Hcn. cbn [mbind option_bind].
  rewrite lookup_ge_None_2, Eb, Hc by done. cbn [mbind option_bind]. rewrite Hd. cbn [mbind option_bind].
  destruct (blocks d) as [|b0 bs0]; [done|]. cbn [lookup list_lookup mbind option_bind].
  rewrite decide_True by done. cbn [fst]. rewrite length_app. simpl. unfold j. lia.
Qed.

(** The part of the sequence that is hung off [cur]. *)
Definition rest_tokens : list TokenId := slice (j * bt) (L * bt - j * bt) q.
Definition rest_blocks : list BlockId := slice j (L - j) table.

Lemma rest_blocks_eq : rest_blocks = drop j (take L table).
Proof. apply slice_drop_take. Qed.
Lemma rest_tokens_eq : rest_tokens = drop (j * bt) (take (L * bt) q).
Proof. apply slice_drop_take. Qed.
Lemma rest_blocks_sublist : rest_blocks `sublist_of` table.
Proof. rewrite rest_blocks_eq. etrans; [apply sublist_drop|apply sublist_take]. Qed.
Lemma length_rest_blocks : length rest_blocks = L - j.
Proof.
  destruct end_bounds as (_ & ? & ? & _ & _). rewrite rest_blocks_eq, length_drop, length_take. lia.
Qed.
Lemma rest_key : j < L → block_key rest_tokens bt = block_key (drop (j * bt) q) bt.
Proof.
  intros Hj. destruct end_bounds as (_ & _ & _ & _ & Hbt). unfold rest_tokens, slice, block_key.
  rewrite take_take. do 2 f_equal. nia.
Qed.

Lemma end_insertable :
  j < L → children cn !! block_key (chunk_at bt j q) bt = None →
  insertable u cur cn rest_tokens rest_blocks.
Proof.
  intros Hj Hc. destruct end_walk as (Iu & Eb & _ & _). destruct end_bounds as (_ & _ & _ & HLq & _).
  constructor; try done.
  - by rewrite Eb, rest_key, <-block_key_chunk.
  - rewrite length_rest_blocks, rest_tokens_eq, length_drop, length_take, Eb. nia.
  - intros E%(f_equal length). rewrite length_rest_blocks in E. simpl in E. lia.
Qed.

Lemma end_find (Ins : insertable u cur cn rest_tokens rest_blocks) ds :
  find (insert_tree u cur cn rest_tokens rest_blocks) ds
  = match find t ds with
    | Some b => Some b
    | None => if decide (ds ≠ [] ∧ ds `prefix_of` query t q L) then table !! pred (length ds) else None
    end.
Proof.
  destruct end_walk as (Iu & Eb & Er & Ec). destruct end_bounds as (HL & HLt & HjL & _ & _).
  rewrite (insert_find u cur cn _ _ Ins (take j (query t q L)) res);
    [|by rewrite Er|by rewrite length_take, query_length; unfold j, bt, L in *; lia].
  unfold find. rewrite Ec. destruct (decide (length (cached t ds) = length ds)) as [Hfull|Hnot].
  { destruct (last (cached t ds)) as [b|] eqn:El; [done|]. apply last_None in El.
    rewrite El in Hfull. destruct ds; [|done]. by rewrite !decide_False by tauto. }
  assert (leaf_chunks u rest_tokens rest_blocks = drop j (query t q L)) as El.
  { rewrite rest_tokens_eq. apply (leaf_chunks_query t q L j u rest_blocks); try done.
    apply length_rest_blocks. }
  rewrite El, take_drop.
  destruct (decide (ds ≠ [] ∧ ds `prefix_of` query t q L)) as [[Hdn Hp]|]; [|done].
  assert (j < length ds) as Hjd.
  { destruct (decide (j < length ds)) as [|Hge]; [done|]. exfalso. apply Hnot.
    destruct Hp as [tl Etl]. assert (ds = take (length ds) (query t q L)) as Ed
      by (rewrite Etl; by rewrite take_app_length).
    rewrite Ed at 1. unfold cached. rewrite follow_take.
    change (follow t (root_ t, 0) (query t q L)).1 with (cached t (query t q L)).
    rewrite <-Hres, length_take. fold j. lia. }
  apply prefix_length in Hp. rewrite query_length in Hp by done.
  rewrite lookup_app_r by (fold j; lia). fold j.
  rewrite rest_blocks_eq, lookup_drop, lookup_take_lt by lia. f_equal. lia.
Qed.
End reached_end.

Lemma insert_spec p t q table :
  tree_inv t → bs_ok p → (N.of_nat (length table) * N.of_nat (block_tokens_ t) < two64)%N →
  NoDup table → (∀ id, id ∈ table → ∃ v, bs_view p id = Some v ∧ (bv_refs v + 1 < two32)%N) →
  wp (insert q table) (λ r s, insert_outcome p t q table r s.1 s.2) (p, t).
Proof.
  intros I Hok Hw Hnd Hlive. set (bt := block_tokens_ t). set (L := insert_len bt q table).
  unfold insert, get_tree. wp_steps. cbn [snd]. rewrite insert_limit by done. fold bt L.
  apply wp_descend; [done|unfold L, insert_len; fold bt; lia|]. intros [[[cur pos] res] node] s W.
  destruct W as (u & k & -> & Hwk & Hk & Hres & -> & (cn & Hcn & Hf & _) & _ & _). fold bt.
  destruct (end_bounds t q table I res Hres) as (HL & HLt & HjL & HLq & Hbt).
  assert (length res = length (cached t (query t q L))) as Hj0 by (by rewrite Hres).
  set (j := length res) in *. fold bt L in HL, HLt, HjL, HLq, Hbt.
  destruct (Nat.leb_spec (L * bt) (j * bt)) as [Hge|Hlt].
  { wp_steps. eapply wp_touch_tree; [done|]. wp_steps. cbn [fst snd].
    apply (insert_cached p t q table u k); try done; fold bt L; [lia|]. rewrite <-Hres. fold j. nia. }
  assert (j < L) as Hj by nia. wp_steps. eapply wp_node_at; [done|].
  rewrite <-block_key_chunk. destruct (children cn !! block_key (chunk_at bt j q) bt) as [child|] eqn:Hc.
  { destruct (end_collision t q table I u k cur cn res Hwk Hres Hcn Hf child Hj Hc) as (c & Hc1 & Hc2).
    unfold upd_tree. wp_steps. cbn [fst snd]. by apply (insert_collides p t q table u k j c). }
  rewrite !Nat.div_mul by lia.
  pose proof (end_insertable t q table I u k cur cn res Hwk Hres Hcn Hj Hc) as Ins.
  destruct (leaf_ne u cur cn _ _ Ins) as [Hne _].
  pose proof (rest_blocks_sublist t q table res) as Hsub.
  pose proof (rest_key t q table I res Hres Hj) as Hkey.
  pose proof (end_find t q table I u k cur cn res Hwk Hres Hf Ins) as Hfind.
  pose proof (rest_blocks_eq t q table res) as Ebs.
  fold bt L j in Hkey, Hfind, Ebs |- *.
  change (slice j (L - j) table) with (rest_blocks t q table res).
  change (slice (j * bt) (L * bt - j * bt) q) with (rest_tokens t q table res).
  set (ts := rest_tokens t q table res) in *. set (bs := rest_blocks t q table res) in *.
  unfold new_node, get_tree, upd_tree. wp_steps. cbn [fst snd].
  eapply wp_touch_tree; [apply lookup_insert_eq|]. wp_steps. cbn [fst snd].
  apply wp_incref_all; [done|by eapply sublist_NoDup| |].
  { intros id Hid. apply Hlive. eapply elem_of_submseteq; [exact Hid|]. by apply sublist_submseteq. }
  intros p' Hok' Hk' Hv'. wp_steps. eapply wp_node_at.
  { cbn. rewrite lookup_insert_ne by done. rewrite lookup_insert_ne by done. exact Hcn. }
  unfold set_node, upd_tree. wp_steps. cbn [fst snd].
  match goal with |- insert_outcome _ _ _ _ _ _ ?x => replace x with (insert_tree u cur cn ts bs) end.
  - by apply (insert_adopts p t q table u k j).
  - destruct (end_walk t I u k Hwk) as (_ & Eb & _). fold bt in Eb.
    unfold insert_tree, touch_tree, upd_counts, upd_nodes, upd_next, upd_clock. cbn.
    rewrite Eb, Hkey, <-block_key_chunk, insert_insert_eq. done.
Qed.
End insert.
