(* ===== verification/RadixLru.v ===== *)
(** * Choosing a victim: find_lru_leaf

    The walk over the whole tree visits every node once, whatever order the
    hash maps iterate in, and keeps the least recently used of the leaves that
    may go. *)

From S2P Require Import Prelude Types BlockPool BlockStore RadixTree RadixInv RadixSplit.

Local Open Scope nat_scope.

(** The least recently used candidate, if there is one. *)
Definition is_lru (t : RadixTree) (rejected : list NodePtr) (r : option NodePtr) : Prop :=
  match r with
  | None => ∀ l n, nodes t !! l = Some n → candidate t rejected l n = false
  | Some v => ∃ n, nodes t !! v = Some n ∧ candidate t rejected v n = true ∧
      ∀ l m, nodes t !! l = Some m → candidate t rejected l m = true → (last_access n <= last_access m)%N
  end.

Section lru.
Context {P : Type} `{BlockStore P} `{Iter : IterOrder}.
Context (p : P) (t : RadixTree) (I : tree_inv t) (rejected : list NodePtr).

(** The best of the nodes seen so far. *)
Definition best_of (V : list NodePtr) (best : option NodePtr) : Prop :=
  match best with
  | None => ∀ l n, l ∈ V → nodes t !! l = Some n → candidate t rejected l n = false
  | Some v => ∃ n, nodes t !! v = Some n ∧ candidate t rejected v n = true ∧
      ∀ l m, l ∈ V → nodes t !! l = Some m → candidate t rejected l m = true →
        (last_access n <= last_access m)%N
  end.

(** The state of the walk: visited nodes, the stack of those seen and not
    visited. *)
Record walk_inv (V stack : list NodePtr) : Prop := {
  wk_nodup : NoDup (V ++ stack);
  wk_nodes l : l ∈ V ++ stack → is_Some (nodes t !! l);
  wk_root : root_ t ∈ V ++ stack;
  wk_closed l n k c : l ∈ V → nodes t !! l = Some n → children n !! k = Some c → c ∈ V ++ stack;
  wk_parent l n : l ∈ V ++ stack → l ≠ root_ t → nodes t !! l = Some n → ∃ q, parent n = Some q ∧ q ∈ V;
}.

(** The children of a node, in iteration order. *)
Definition kids (n : Node) : list NodePtr := rev ((iter (children n)).*2).

Lemma kids_perm n : kids n ≡ₚ (map_to_list (children n)).*2.
Proof. unfold kids. rewrite <-Permutation_rev. by rewrite iter_perm. Qed.

Lemma kids_elem n c : c ∈ kids n ↔ ∃ k, children n !! k = Some c.
Proof.
  rewrite kids_perm, list_elem_of_fmap. split.
  - intros ([k c'] & -> & Hin%elem_of_map_to_list). eauto.
  - intros [k Hk]. exists (k, c). split; [done|]. by apply elem_of_map_to_list.
Qed.

Lemma kids_nodup l n : nodes t !! l = Some n → NoDup (kids n).
Proof.
  intros Hl. rewrite kids_perm. apply NoDup_fmap_2_strong; [|apply NoDup_map_to_list].
  intros [k c] [k' c'] H1%elem_of_map_to_list H2%elem_of_map_to_list E. simpl in E. subst c'.
  destruct (ti_child _ I l n k c Hl H1) as (_ & d & Hd & _ & <-).
  destruct (ti_child _ I l n k' c Hl H2) as (_ & d' & Hd' & _ & <-). by simplify_eq.
Qed.

Lemma walk_start : walk_inv [] [root_ t].
Proof.
  constructor; simpl.
  - apply NoDup_singleton.
  - intros l ->%list_elem_of_singleton. destruct (ti_root _ I) as (rn & Hr & _). by eexists.
  - by left.
  - by intros l n k c ?%not_elem_of_nil.
  - by intros l n ->%list_elem_of_singleton.
Qed.

(** Visiting the top of the stack and pushing its children. *)
Lemma walk_visit V l n stack :
  walk_inv V (l :: stack) → nodes t !! l = Some n → walk_inv (l :: V) (kids n ++ stack).
Proof.
  intros [W1 W2 W3 W4 W5] Hl.
  assert (V ++ l :: stack ≡ₚ (l :: V) ++ stack) as Hp by (by rewrite <-Permutation_middle).
  assert (NoDup ((l :: V) ++ stack)) as W1' by (by rewrite <-Hp).
  assert (∀ x, x ∈ (l :: V) ++ stack ↔ x ∈ V ++ l :: stack) as Hin by (intros; by rewrite Hp).
  assert (l ∉ V) as HlV.
  { apply NoDup_app in W1 as (_ & Hd & _). intros Hx. apply (Hd l Hx). by left. }
  assert (∀ c, c ∈ kids n → c ∉ (l :: V) ++ stack) as Hnew.
  { intros c [k Hk]%kids_elem Hc%Hin. destruct (ti_child _ I l n k c Hl Hk) as (Hcr & d & Hd & Hdp & _).
    destruct (W5 c d Hc Hcr Hd) as (q & Hq & HqV). by simplify_eq. }
  assert ((l :: V) ++ kids n ++ stack ≡ₚ kids n ++ (l :: V) ++ stack) as Hp2
    by (rewrite !app_assoc; by rewrite (Permutation_app_comm (l :: V) (kids n))).
  constructor.
  - rewrite Hp2. apply NoDup_app. split_and!; [by eapply kids_nodup|done|done].
  - intros x. rewrite Hp2, elem_of_app. intros [[k Hk]%kids_elem|Hx%Hin]; [|by apply W2].
    destruct (ti_child _ I l n k x Hl Hk) as (_ & d & Hd & _). by eexists.
  - rewrite Hp2, elem_of_app. right. by apply Hin.
  - intros x m k c. rewrite elem_of_cons. intros [->|Hx] Hm Hc; rewrite Hp2, elem_of_app.
    + left. simplify_eq. apply kids_elem. eauto.
    + right. apply Hin. by eapply W4.
  - intros x m. rewrite Hp2, elem_of_app. intros [[k Hk]%kids_elem|Hx%Hin] Hne Hm.
    + destruct (ti_child _ I l n k x Hl Hk) as (_ & d & Hd & Hdp & _). simplify_eq.
      exists l. split; [done|by left].
    + destruct (W5 x m Hx Hne Hm) as (q & Hq & HqV). exists q. split; [done|by right].
Qed.

(** When the stack is empty every node has been visited. *)
Lemma walk_complete V l : walk_inv V [] → is_Some (nodes t !! l) → l ∈ V.
Proof.
  intros [W1 W2 W3 W4 W5] Hl. rewrite app_nil_r in *. destruct (ti_chain _ I l Hl) as [ls Hls].
  induction Hls as [|l n q ls Hne Hn Hq Hc IH]; [done|].
  destruct (ti_parent _ I l n Hn Hne) as (q' & qn & Hq' & Hqn & Hk). simplify_eq.
  assert (q ∈ V) as HqV by (apply IH; by eexists).
  pose proof (W4 q qn _ l HqV Hqn Hk) as Hlv. by rewrite ?app_nil_r in Hlv.
Qed.

Lemma walk_bound V stack : walk_inv V stack → length (V ++ stack) ≤ size (nodes t).
Proof.
  intros [W1 W2 _ _ _]. rewrite <-size_dom, <-(size_list_to_set (C := gset N) _ W1).
  apply subseteq_size. intros x Hx%elem_of_list_to_set. apply elem_of_dom. by apply W2.
Qed.

(** Looking at one more node. *)
Lemma best_step V l n best :
  nodes t !! l = Some n → best_of V best →
  best_of (l :: V)
    (if candidate t rejected l n then
       match best with
       | None => Some l
       | Some b => if (last_access n <? default 0 (last_access <$> nodes t !! b))%N then Some l else best
       end
     else best).
Proof.
  intros Hl HB. destruct (candidate t rejected l n) eqn:Hc.
  - destruct best as [b|]; simpl in HB.
    + destruct HB as (bn & Hb & Hbc & Hmin). rewrite Hb. simpl.
      destruct (N.ltb_spec (last_access n) (last_access bn)) as [Hlt|Hge].
      * exists n. split_and!; [done..|]. intros x m. rewrite elem_of_cons. intros [->|Hx] Hm Hxc.
        -- simplify_eq. lia.
        -- specialize (Hmin x m Hx Hm Hxc). lia.
      * exists bn. split_and!; [done..|]. intros x m. rewrite elem_of_cons. intros [->|Hx] Hm Hxc.
        -- by simplify_eq.
        -- by apply (Hmin x).
    + exists n. split_and!; [done..|]. intros x m. rewrite elem_of_cons. intros [->|Hx] Hm Hxc.
      * by simplify_eq.
      * by rewrite (HB x m) in Hxc.
  - destruct best as [b|]; simpl in HB |- *.
    + destruct HB as (bn & Hb & Hbc & Hmin). exists bn. split_and!; [done..|].
      intros x m. rewrite elem_of_cons. intros [->|Hx] Hm Hxc; [congruence|by apply (Hmin x)].
    + intros x m. rewrite elem_of_cons. intros [->|Hx] Hm; [congruence|by apply HB].
Qed.

Definition lru_inv (st : list NodePtr * option NodePtr) (V : list NodePtr) : Prop :=
  walk_inv V st.1 ∧ best_of V st.2.

Lemma find_lru_leaf_spec :
  wp (find_lru_leaf rejected) (λ r s, s = (p, t) ∧ is_lru t rejected r) (p, t).
Proof.
  unfold find_lru_leaf, get_tree. wp_steps. cbn [snd].
  eapply (wp_loop_ghost _ (λ V st s, s = (p, t) ∧ lru_inv st V) (λ V, S (size (nodes t)) - length V) _ _ []).
  - split; [done|]. split; [apply walk_start|]. by intros l n ?%not_elem_of_nil.
  - simpl. lia.
  - intros V [stack best] s [-> [W B]]. unfold lru_round. simpl in W, B. destruct stack as [|l stack].
    { wp_steps. split; [done|]. destruct best as [v|]; simpl in *.
      - destruct B as (n & Hn & Hc & Hmin). exists n. split_and!; [done..|].
        intros l m Hm. apply (Hmin l m); [|done]. eapply walk_complete; [done|by eexists].
      - intros l n Hn. apply (B l n); [|done]. eapply walk_complete; [done|by eexists]. }
    destruct (wk_nodes _ _ W l) as [n Hn]; [apply elem_of_app; right; by left|].
    pose proof (walk_visit V l n stack W Hn) as W'. pose proof (best_step V l n best Hn B) as B'.
    pose proof (walk_bound _ _ W) as Hb. rewrite length_app in Hb. simpl in Hb.
    wp_steps. eapply wp_node_at; [done|]. unfold get_tree. wp_steps. cbn [snd].
    destruct (candidate t rejected l n); [destruct best as [b|]|].
    + destruct B as (bn & Hbn & _). eapply wp_bind, wp_node_at; [done|]. rewrite Hbn in B'. simpl in B'.
      wp_steps. exists (l :: V). split; [by split|simpl; lia].
    + wp_steps. exists (l :: V). split; [by split|simpl; lia].
    + wp_steps. exists (l :: V). split; [by split|simpl; lia].
Qed.
End lru.

(** When no two nodes were touched at the same time the choice does not depend
    on the order of iteration. *)
Definition access_distinct (t : RadixTree) : Prop :=
  ∀ l m n k, nodes t !! l = Some n → nodes t !! m = Some k → last_access n = last_access k → l = m.

Lemma is_lru_unique t rejected r r' :
  access_distinct t → is_lru t rejected r → is_lru t rejected r' → r = r'.
Proof.
  intros D H H'. destruct r as [v|], r' as [v'|]; simpl in *; try done.
  - destruct H as (n & Hn & Hc & Hmin), H' as (n' & Hn' & Hc' & Hmin'). f_equal.
    apply (D v v' n n'); [done..|]. specialize (Hmin v' n' Hn' Hc'). specialize (Hmin' v n Hn Hc). lia.
  - destruct H as (n & Hn & Hc & _). by rewrite (H' v n Hn) in Hc.
  - destruct H' as (n & Hn & Hc & _). by rewrite (H v' n Hn) in Hc.
Qed.
