(* ===== verification/RadixEvict.v ===== *)
(** * Eviction

    [evict] drops least-recently-used unpinned leaves whose blocks nobody else
    holds. What it drops is gone from the cache, the rest is served from the
    same nodes as before, and nothing pinned is touched. *)

From S2P Require Import Prelude Types BlockPool PoolInv BlockStore RadixTree RadixInv RadixSplit RadixLru.

Local Open Scope nat_scope.

(** ** References given back *)

(** What a block looks like with one reference less. *)
Definition dec_view (v : BlockView) : option BlockView :=
  if decide (bv_refs v = 1%N) then None else Some (with_refs (bv_refs v - 1) v).

Definition decrefed (f g : BlockId → option BlockView) (bs : list BlockId) : Prop :=
  ∀ id, g id = if decide (id ∈ bs) then f id ≫= dec_view else f id.

Section decrefs.
Context {P : Type} `{BlockStoreLaws P} `{IterOrder}.

Definition sole (f : BlockId → option BlockView) (id : BlockId) : Prop :=
  ∃ v, f id = Some v ∧ bv_refs v = 1%N.

Lemma wp_decref_step bs id p0 p pre t (Q : bool → P * RadixTree → Prop) v :
  bs_ok p → bs_keeps p0 p → decrefed (bs_view p0) (bs_view p) pre → id ∉ pre →
  bs_view p0 id = Some v → bs = pre ++ [id] →
  (∀ p', bs_ok p' → bs_keeps p0 p' → decrefed (bs_view p0) (bs_view p') bs →
     Q (bool_decide (bv_refs v = 1%N)) (p', t)) →
  wp (on_pool (bs_decref id)) Q (p, t).
Proof.
  intros Hok Hk Hv Hnin Hid -> HQ. apply wp_on_pool. simpl.
  assert (bs_view p id = Some v) as Hid' by (rewrite Hv, decide_False; done).
  eapply wp_mono; [by eapply bs_decref_law|]. intros b p' (Hok' & Hk' & -> & Hv').
  apply HQ; [done|by etrans|]. intros x. rewrite Hv'. destruct (decide (x = id)) as [->|Hne].
  - rewrite decide_True by set_solver. rewrite Hid. simpl. unfold dec_view.
    case_bool_decide; by case_decide.
  - rewrite Hv. destruct (decide (x ∈ pre)); [rewrite decide_True by set_solver; done|].
    rewrite decide_False by set_solver. done.
Qed.

(** Giving back blocks the tree alone holds frees them all. *)
Lemma wp_decref_all bs k p t (Q : nat → P * RadixTree → Prop) :
  bs_ok p → NoDup bs → (∀ id, id ∈ bs → sole (bs_view p) id) →
  (∀ p', bs_ok p' → bs_keeps p p' → decrefed (bs_view p) (bs_view p') bs → Q (k + length bs) (p', t)) →
  wp (decref_all bs k) Q (p, t).
Proof.
  intros Hok Hnd Hs HQ.
  enough (∀ suf pre k' p1, bs = pre ++ suf → k' = k + length pre → bs_ok p1 → bs_keeps p p1 →
    decrefed (bs_view p) (bs_view p1) pre → wp (decref_all suf k') Q (p1, t)) as Hgo.
  { apply (Hgo bs []); try done; simpl; lia. }
  induction suf as [|id suf IH]; intros pre k' p1 E -> Hok1 Hk1 Hv1; simpl.
  - wp_steps. rewrite app_nil_r in E. subst pre. by apply HQ.
  - wp_steps. destruct (Hs id) as (v & Hv & Hr); [rewrite E; set_solver|].
    assert (id ∉ pre) as Hnin.
    { rewrite E in Hnd. apply NoDup_app in Hnd as (_ & Hd & _). intros Hin. apply (Hd id Hin). by left. }
    eapply (wp_decref_step (pre ++ [id]) id p p1 pre); try done. intros p2 Hok2 Hk2 Hv2.
    rewrite bool_decide_eq_true_2 by done. apply (IH (pre ++ [id])); try done.
    + by rewrite <-app_assoc.
    + rewrite length_app. simpl. lia.
Qed.

Lemma wp_all_sole bs p t (Q : bool → P * RadixTree → Prop) :
  bs_ok p → (∀ id, id ∈ bs → is_Some (bs_view p id)) →
  ((∀ id, id ∈ bs → sole (bs_view p) id) → Q true (p, t)) →
  (∀ id, id ∈ bs → ¬ sole (bs_view p) id → Q false (p, t)) →
  wp (all_sole bs) Q (p, t).
Proof.
  intros Hok Hlive Ht Hf. induction bs as [|id bs IH]; simpl.
  - wp_steps. apply Ht. by intros ? ?%not_elem_of_nil.
  - destruct (Hlive id) as [v Hv]; [by left|].
    wp_steps. apply wp_on_pool. eapply wp_ok; [by apply bs_refcount_law|]. cbn [snd].
    destruct (N.eqb_spec (bv_refs v) 1) as [E|E]; simpl.
    + apply IH.
      * intros x Hx. apply Hlive. by right.
      * intros Hall. apply Ht. intros x. rewrite elem_of_cons. intros [->|Hx]; [by exists v|by apply Hall].
      * intros x Hx. apply Hf. by right.
    + wp_steps. apply (Hf id); [by left|]. intros (w & Hw & Hr). congruence.
Qed.
End decrefs.

(** ** Dropping a leaf *)

Definition drop_tree (t : RadixTree) (victim : NodePtr) (n : Node) (par : NodePtr) (pn : Node) : RadixTree :=
  upd_nodes (delete victim
    (<[par := set_children (delete (block_key (tokens n) (block_tokens_ t)) (children pn)) pn]> (nodes t)))
  (upd_counts (sub64 (stored_blocks_ t) (size_of (blocks n))) (sub64 (num_nodes_ t) 1) t).

Record droppable (t : RadixTree) (victim : NodePtr) (n : Node) (par : NodePtr) (pn : Node) : Prop := {
  dp_inv : tree_inv t;
  dp_node : nodes t !! victim = Some n;
  dp_root : victim ≠ root_ t;
  dp_leaf : children n = ∅;
  dp_parent : parent n = Some par;
  dp_par : nodes t !! par = Some pn;
}.

Section drop.
Context (t : RadixTree) (victim : NodePtr) (n : Node) (par : NodePtr) (pn : Node).
Context (D : droppable t victim n par pn).
Let I := dp_inv _ _ _ _ _ D.
Let Hv := dp_node _ _ _ _ _ D.
Let Hroot := dp_root _ _ _ _ _ D.
Let Hleaf := dp_leaf _ _ _ _ _ D.
Let Hpar := dp_parent _ _ _ _ _ D.
Let Hpn := dp_par _ _ _ _ _ D.
Let bt := block_tokens_ t.
Let key := block_key (tokens n) bt.
Let t' := drop_tree t victim n par pn.

Lemma drop_par_ne : par ≠ victim.
Proof. by eapply parent_ne. Qed.

Lemma drop_key : children pn !! key = Some victim.
Proof. destruct (ti_parent _ I victim n Hv Hroot) as (p & pn' & Hp & Hpn' & Hc). by simplify_eq. Qed.

Lemma drop_lookup_victim : nodes t' !! victim = None.
Proof. simpl. apply lookup_delete_eq. Qed.

Lemma drop_lookup l m :
  nodes t !! l = Some m → l ≠ victim →
  ∃ m', nodes t' !! l = Some m' ∧ tokens m' = tokens m ∧ blocks m' = blocks m ∧ parent m' = parent m ∧
    lock_count m' = lock_count m ∧ last_access m' = last_access m ∧
    children m' = (if decide (l = par) then delete key (children m) else children m).
Proof.
  intros Hl Hne. simpl. rewrite lookup_delete_ne by done. destruct (decide (l = par)) as [->|].
  - rewrite lookup_insert_eq. assert (m = pn) as -> by congruence. eexists. split; [done|]. done.
  - rewrite lookup_insert_ne by done. exists m. done.
Qed.

Lemma drop_lookup_inv l m' : nodes t' !! l = Some m' → l ≠ victim ∧ ∃ m, nodes t !! l = Some m.
Proof.
  simpl. intros Hl. apply lookup_delete_Some in Hl as [Hne Hl]. split; [done|].
  destruct (decide (l = par)) as [->|]; [eauto|]. rewrite lookup_insert_ne in Hl by done. eauto.
Qed.

(** Nothing hangs below the victim. *)
Lemma victim_no_child l m : nodes t !! l = Some m → parent m = Some victim → l = root_ t.
Proof.
  intros Hl Hp. destruct (decide (l = root_ t)) as [|Hne]; [done|]. exfalso.
  destruct (ti_parent _ I l m Hl Hne) as (q & qn & Hq & Hqn & Hc). simplify_eq. by rewrite Hleaf in Hc.
Qed.

Lemma drop_chain l ls :
  chain (nodes t) (root_ t) l ls → l ≠ victim → (victim ∉ ls) ∧ chain (nodes t') (root_ t) l ls.
Proof.
  induction 1 as [|l m p ls Hne Hl Hp Hc IH]; intros Hlv; [split; [apply not_elem_of_nil|constructor]|].
  destruct (decide (p = victim)) as [->|Hpv].
  { destruct Hne. by eapply victim_no_child. }
  destruct (IH Hpv) as [H1 H2]. split; [by rewrite elem_of_cons; intros [?|?]|].
  destruct (drop_lookup l m Hl Hlv) as (m' & Hm' & _ & _ & Ep & _).
  econstructor; [done|done|by rewrite Ep|done].
Qed.

Lemma drop_inv : tree_inv t'.
Proof.
  pose proof drop_par_ne as Hpne. pose proof drop_key as Hkey.
  constructor; change (block_tokens_ t') with bt; change (root_ t') with (root_ t).
  - apply I.
  - destruct (ti_root _ I) as (rn & Hr & Ht & Hb & Hp).
    destruct (drop_lookup _ rn Hr) as (m' & Hm' & E1 & E2 & E3 & _); [done|]. exists m'. by rewrite E1, E2, E3.
  - intros l m' Hm Hne. destruct (drop_lookup_inv l m' Hm) as [Hlv [m Hm0]].
    destruct (drop_lookup l m Hm0 Hlv) as (? & ? & E1 & E2 & _). simplify_eq. rewrite E1, E2. by apply (ti_run _ I l).
  - intros l m' Hm Hne. destruct (drop_lookup_inv l m' Hm) as [Hlv [m Hm0]].
    destruct (drop_lookup l m Hm0 Hlv) as (? & ? & E1 & _ & E3 & _). simplify_eq. rewrite E1, E3.
    destruct (ti_parent _ I l m Hm0 Hne) as (p & q & Hp & Hq & Hc).
    assert (p ≠ victim) as Hpv by (intros ->; apply Hne; by eapply victim_no_child).
    destruct (drop_lookup p q Hq Hpv) as (q' & Hq' & _ & _ & _ & _ & _ & Ec). exists p, q'.
    split_and!; [done..|]. rewrite Ec. destruct (decide (p = par)) as [->|]; [|done].
    assert (q = pn) as -> by congruence. fold bt in Hc. rewrite lookup_delete_ne; [done|]. congruence.
  - intros p q' k c Hq Hc. destruct (drop_lookup_inv p q' Hq) as [Hpv [q Hq0]].
    destruct (drop_lookup p q Hq0 Hpv) as (? & ? & _ & _ & _ & _ & _ & Ec). simplify_eq.
    assert (children q !! k = Some c ∧ c ≠ victim) as [Hc0 Hcv].
    { rewrite Ec in Hc. destruct (decide (p = par)) as [->|Hpp].
      - assert (q = pn) as -> by congruence. apply lookup_delete_Some in Hc as [Hkne Hc]. split; [done|].
        intros ->. destruct (ti_child _ I par pn k victim Hpn Hc) as (_ & d & Hd & _ & Hdk).
        by simplify_eq.
      - split; [done|]. intros ->. destruct (ti_child _ I p q k victim Hq0 Hc) as (_ & d & Hd & Hdp & _).
        congruence. }
    destruct (ti_child _ I p q k c Hq0 Hc0) as (Hcr & d & Hd & Hdp & Hdk). split; [done|].
    destruct (drop_lookup c d Hd Hcv) as (d' & Hd' & E1 & _ & E3 & _). exists d'. by rewrite E1, E3.
  - intros l [m' Hm]. destruct (drop_lookup_inv l m' Hm) as [Hlv [m Hm0]].
    destruct (ti_chain _ I l) as [ls Hls]; [by eexists|]. exists ls. by apply drop_chain.
  - intros l [m' Hm]. destruct (drop_lookup_inv l m' Hm) as [Hlv [m Hm0]]. simpl. apply (ti_next _ I). by eexists.
Qed.

Lemma drop_step x c :
  x.1 ≠ victim →
  step_chunk t' x c = (r ← step_chunk t x c; if decide (r.1.1 = victim) then None else Some r).
Proof.
  intros Hx. unfold step_chunk. change (block_tokens_ t') with bt. fold bt.
  destruct (nodes t !! x.1) as [m|] eqn:Hm.
  2: { destruct (nodes t' !! x.1) as [m'|] eqn:Hm'; [|done].
       destruct (drop_lookup_inv _ _ Hm') as [_ [? ?]]. congruence. }
  destruct (drop_lookup _ m Hm Hx) as (m' & Hm' & E1 & E2 & _ & _ & _ & Ec).
  rewrite Hm'. cbn [mbind option_bind]. rewrite E1, E2. destruct (blocks m !! x.2) as [b|].
  { destruct (decide (chunk_at bt x.2 (tokens m) = c)); [|done]. cbn [mbind option_bind fst].
    by rewrite decide_False. }
  rewrite Ec. destruct (children m !! block_key c bt) as [l|] eqn:El.
  2: { destruct (decide (x.1 = par)); [|by rewrite El].
       destruct (delete key (children m) !! block_key c bt) eqn:Ed; [|done].
       apply lookup_delete_Some in Ed as [_ Ed]. congruence. }
  destruct (ti_child _ I x.1 m _ l Hm El) as (_ & d & Hd & Hdp & Hdk). fold bt in Hdk.
  cbn [mbind option_bind]. rewrite Hd. cbn [mbind option_bind].
  destruct (decide (l = victim)) as [->|Hlv].
  - assert (d = n) as -> by congruence. rewrite decide_True by congruence.
    assert (block_key c bt = key) as -> by done. rewrite lookup_delete_eq. cbn [mbind option_bind].
    destruct (blocks n !! 0); [|done]. cbn [mbind option_bind].
    destruct (decide (chunk_at bt 0 (tokens n) = c)); [|done]. cbn [mbind option_bind fst].
    by rewrite decide_True.
  - assert ((if decide (x.1 = par) then delete key (children m) else children m) !! block_key c bt = Some l) as ->.
    { destruct (decide (x.1 = par)) as [E|]; [|done]. rewrite lookup_delete_ne; [done|].
      intros E'. pose proof drop_key as Hk. rewrite E' in Hk. rewrite E in Hm. congruence. }
    cbn [mbind option_bind]. destruct (drop_lookup l d Hd Hlv) as (d' & Hd' & F1 & F2 & _).
    rewrite Hd'. cbn [mbind option_bind]. rewrite F1, F2. destruct (blocks d !! 0); [|done].
    cbn [mbind option_bind]. destruct (decide (chunk_at bt 0 (tokens d) = c)); [|done].
    cbn [mbind option_bind fst]. by rewrite decide_False.
Qed.

(** A walk that enters the victim stays in it. *)
Lemma victim_follow i cs : (follow t (victim, i) cs).2.1 = victim.
Proof.
  revert i. induction cs as [|c cs IH]; intros i; [done|]. cbn [follow].
  unfold step_chunk. cbn [fst snd]. rewrite Hv. cbn [mbind option_bind].
  destruct (blocks n !! i) as [b|].
  - destruct (decide (_ = c)); [|done]. cbn [snd]. apply IH.
  - rewrite Hleaf, lookup_empty. done.
Qed.

Lemma drop_follow x cs :
  x.1 ≠ victim →
  if decide ((follow t x cs).2.1 = victim)
  then length (follow t' x cs).1 < length (follow t x cs).1
  else follow t' x cs = follow t x cs.
Proof.
  revert x. induction cs as [|c cs IH]; intros x Hx; cbn [follow].
  { cbn [snd]. by rewrite decide_False. }
  rewrite drop_step by done. destruct (step_chunk t x c) as [[[l i] b]|]; cbn [mbind option_bind fst snd].
  2: { by rewrite decide_False. }
  destruct (decide (l = victim)) as [->|Hl].
  - rewrite decide_True by apply victim_follow. simpl. lia.
  - specialize (IH (l, i) Hl). cbn [fst snd]. case_decide; [simpl; lia|]. by rewrite IH.
Qed.

Lemma drop_follow_root cs : holder t cs ≠ victim → follow t' (root_ t, 0) cs = follow t (root_ t, 0) cs.
Proof.
  intros Hh. pose proof (drop_follow (root_ t, 0) cs) as Hf. rewrite decide_False in Hf by done. by rewrite Hf.
Qed.

(** Exactly the entries served from the victim are gone. *)
Lemma drop_find cs : find t' cs = if decide (holder t cs = victim) then None else find t cs.
Proof.
  pose proof (drop_follow (root_ t, 0) cs) as Hf. unfold holder, find, cached.
  change (root_ t') with (root_ t). specialize (Hf ltac:(done)).
  destruct (decide ((follow t (root_ t, 0) cs).2.1 = victim)).
  - pose proof (follow_length t (root_ t, 0) cs). rewrite decide_False by lia. done.
  - by rewrite Hf.
Qed.
End drop.

(** ** A sequence of drops *)

(** From [t], the unpinned leaves [D], holding the blocks [B], were dropped. *)
Inductive evicts (t : RadixTree) : list NodePtr → list BlockId → RadixTree → Prop :=
  | evicts_none : evicts t [] [] t
  | evicts_drop D B u v n par pn :
      evicts t D B u → droppable u v n par pn → lock_count n = 0%N →
      evicts t (v :: D) (B ++ blocks n) (drop_tree u v n par pn).

(** Two nodes alike but for their children. *)
Definition same_run (n m : Node) : Prop :=
  tokens n = tokens m ∧ blocks n = blocks m ∧ parent n = parent m ∧
  lock_count n = lock_count m ∧ last_access n = last_access m.

Record evicted (t : RadixTree) (D : list NodePtr) (B : list BlockId) (u : RadixTree) : Prop := {
  ev_inv : tree_inv u;
  ev_root : root_ u = root_ t;
  ev_bt : block_tokens_ u = block_tokens_ t;
  ev_kept l n : nodes t !! l = Some n → l ∉ D → ∃ m, nodes u !! l = Some m ∧ same_run m n;
  ev_back l m : nodes u !! l = Some m → (l ∉ D) ∧ ∃ n, nodes t !! l = Some n ∧ same_run m n;
  ev_gone l : l ∈ D → l ≠ root_ t ∧ ∃ n, nodes t !! l = Some n ∧ lock_count n = 0%N;
  ev_blocks id : id ∈ B ↔ ∃ l n, l ∈ D ∧ nodes t !! l = Some n ∧ id ∈ blocks n;
  ev_follow cs : holder t cs ∉ D → follow u (root_ t, 0) cs = follow t (root_ t, 0) cs;
  ev_find cs : find u cs = if decide (holder t cs ∈ D) then None else find t cs;
  ev_size : size (nodes t) = size (nodes u) + length D;
}.

Lemma drop_size t v n par pn : droppable t v n par pn → size (nodes t) = S (size (nodes (drop_tree t v n par pn))).
Proof.
  intros D. pose proof (drop_par_ne _ _ _ _ _ D) as Hne. destruct D as [_ Hv _ _ _ Hpn]. simpl.
  rewrite map_size_delete_Some by (rewrite lookup_insert_ne by done; by eexists).
  rewrite map_size_insert_Some by (by eexists).
  assert (size (nodes t) ≠ 0) by (intros E%map_size_empty_inv; rewrite E in Hv; by rewrite lookup_empty in Hv).
  lia.
Qed.

Lemma evicts_evicted t D B u : tree_inv t → evicts t D B u → evicted t D B u.
Proof.
  intros I. induction 1 as [|D B u v n par pn E IH Dr Hlk].
  - constructor; try done.
    + intros l m Hl _. exists m. done.
    + intros l m Hl. split; [apply not_elem_of_nil|]. exists m. done.
    + by intros l ?%not_elem_of_nil.
    + intros id. split; [by intros ?%not_elem_of_nil|]. by intros (? & ? & ?%not_elem_of_nil & _).
  - destruct IH as [E1 E2 E3 E4 E5 E6 E7 E8 E9 E10].
    pose proof (dp_node _ _ _ _ _ Dr) as Hv. destruct (E5 v n Hv) as [HvD (n0 & Hn0 & Hrun)].
    pose proof Hrun as (_ & Eb & _ & El & _).
    assert (∀ cs, holder t cs ∉ D → holder u cs = holder t cs) as E8'
      by (intros cs Hcs; unfold holder in *; by rewrite E2, E8).
    constructor; try done.
    + by eapply drop_inv.
    + intros l m Hl. rewrite not_elem_of_cons. intros [Hlv HlD].
      destruct (E4 l m Hl HlD) as (m1 & Hm1 & S1).
      destruct (drop_lookup u v n par pn Dr l m1 Hm1 Hlv) as (m2 & Hm2 & F1 & F2 & F3 & F4 & F5 & _).
      exists m2. split; [done|]. destruct S1 as (? & ? & ? & ? & ?). unfold same_run. split_and!; congruence.
    + intros l m Hl. destruct (drop_lookup_inv u v n par pn Dr l m Hl) as [Hlv [m1 Hm1]].
      destruct (E5 l m1 Hm1) as [HlD (m0 & Hm0 & S1)].
      destruct (drop_lookup u v n par pn Dr l m1 Hm1 Hlv) as (m2 & Hm2 & F1 & F2 & F3 & F4 & F5 & _).
      simplify_eq. split; [by rewrite not_elem_of_cons|]. exists m0. split; [done|].
      destruct S1 as (? & ? & ? & ? & ?). unfold same_run. split_and!; congruence.
    + intros l. rewrite elem_of_cons. intros [->|Hl]; [|by apply E6].
      split; [rewrite <-E2; apply Dr|]. exists n0. split; [done|congruence].
    + intros id. rewrite elem_of_app, E7. split.
      * intros [(l & m & Hl & Hm & Hid)|Hid]; [exists l, m; split_and!; [by right|done..]|].
        exists v, n0. split_and!; [by left|done|congruence].
      * intros (l & m & [->|Hl]%elem_of_cons & Hm & Hid); [right; simplify_eq; congruence|left; eauto].
    + intros cs. rewrite not_elem_of_cons. intros [Hh HhD].
      rewrite <-E2, (drop_follow_root u v n par pn Dr), E2; [by apply E8|by rewrite E8'].
    + intros cs. rewrite (drop_find u v n par pn Dr), E9.
      destruct (decide (holder t cs ∈ D)) as [HhD|HhD].
      * rewrite (decide_True (P := _ ∈ v :: D)) by (by right). by case_decide.
      * rewrite E8' by done. destruct (decide (holder t cs = v)) as [Ev|Ev].
        -- rewrite decide_True by (rewrite Ev; by left). done.
        -- rewrite decide_False by (by rewrite not_elem_of_cons). done.
    + rewrite E10. pose proof (drop_size _ _ _ _ _ Dr). cbn [length]. lia.
Qed.

(** ** evict *)

Lemma candidate_spec t rejected l n :
  candidate t rejected l n = true ↔
  l ≠ root_ t ∧ children n = ∅ ∧ lock_count n = 0%N ∧ (l ∉ rejected).
Proof.
  unfold candidate. rewrite !andb_true_iff, !negb_true_iff, bool_decide_eq_true, bool_decide_eq_false,
    N.eqb_neq, N.eqb_eq. tauto.
Qed.

Lemma candidate_droppable t rejected l n :
  tree_inv t → nodes t !! l = Some n → candidate t rejected l n = true →
  ∃ par pn, droppable t l n par pn ∧ lock_count n = 0%N.
Proof.
  intros I Hl (Hr & Hc & Hk & _)%candidate_spec.
  destruct (ti_parent _ I l n Hl Hr) as (par & pn & Hp & Hpn & _). exists par, pn. by split.
Qed.

Section evict.
Context {P : Type} `{BlockStoreLaws P} `{IterOrder}.

(** A leaf eviction may not drop: somebody else holds one of its blocks. *)
Definition shared_leaf (p : P) (t : RadixTree) (l : NodePtr) : Prop :=
  ∃ n id, nodes t !! l = Some n ∧ id ∈ blocks n ∧ ¬ sole (bs_view p) id.

Lemma wp_drop_leaf p t v n par pn (Q : nat → P * RadixTree → Prop) :
  bs_ok p → store_inv (bs_view p) t → droppable t v n par pn →
  (∀ id, id ∈ blocks n → sole (bs_view p) id) →
  (∀ p', bs_ok p' → bs_keeps p p' → decrefed (bs_view p) (bs_view p') (blocks n) →
     Q (length (blocks n)) (p', drop_tree t v n par pn)) →
  wp (drop_leaf v) Q (p, t).
Proof.
  intros Hok St Dr Hs HQ. pose proof (drop_key _ _ _ _ _ Dr) as Hkey.
  destruct Dr as [I Hv Hr Hl Hp Hpn].
  unfold drop_leaf, upd_tree, get_tree. wp_steps. eapply wp_node_at; [done|]. wp_steps.
  apply wp_decref_all; [done|by eapply (st_nodup _ _ St)|done|]. intros p' Hok' Hk' Hv'.
  wp_steps. eapply wp_of_option; [done|]. wp_steps. eapply wp_node_at; [exact Hpn|].
  unfold set_node, upd_tree. wp_steps. cbn [snd block_tokens_ upd_counts]. rewrite Hkey. wp_steps.
  by apply HQ.
Qed.

(** Dropping a node keeps the rest of the tree's blocks live. *)
Lemma drop_store f g t v n par pn :
  store_inv f t → droppable t v n par pn → decrefed f g (blocks n) → store_inv g (drop_tree t v n par pn).
Proof.
  intros [S1 S2 S3] Dr Hg.
  assert (∀ l m, nodes (drop_tree t v n par pn) !! l = Some m →
    ∃ m0, l ≠ v ∧ nodes t !! l = Some m0 ∧ blocks m = blocks m0) as B.
  { intros l m Hm. destruct (drop_lookup_inv _ _ _ _ _ Dr l m Hm) as [Hlv [m0 Hm0]].
    destruct (drop_lookup _ _ _ _ _ Dr l m0 Hm0 Hlv) as (? & ? & _ & E & _). simplify_eq. eauto. }
  pose proof (dp_node _ _ _ _ _ Dr) as Hv. constructor.
  - intros l m id (m0 & Hlv & Hm0 & E)%B Hid. rewrite E in Hid. rewrite Hg, decide_False; [by eapply S1|].
    intros Hin. apply Hlv. by apply (S3 l v m0 n id).
  - intros l m (m0 & Hlv & Hm0 & E)%B. rewrite E. by eapply S2.
  - intros l l' m k id (m0 & Hlv & Hm0 & E)%B (k0 & Hlv' & Hk0 & E')%B. rewrite E, E'. by apply S3.
Qed.

(** The state of the loop of [evict]. *)
Record evict_inv (p0 : P) (t0 : RadixTree) (st : nat * list NodePtr) (s : P * RadixTree)
    (D : list NodePtr) (B : list BlockId) : Prop := {
  ei_drops : evicts t0 D B s.2;
  ei_ok : bs_ok s.1;
  ei_keeps : bs_keeps p0 s.1;
  ei_views : decrefed (bs_view p0) (bs_view s.1) B;
  ei_store : store_inv (bs_view s.1) s.2;
  ei_sole id : id ∈ B → sole (bs_view p0) id;
  ei_freed : st.1 = length B;
  ei_nodup : NoDup st.2;
  ei_rejected l : l ∈ st.2 → shared_leaf s.1 s.2 l;
}.

Lemma sole_live f id : sole f id → is_Some (f id).
Proof. intros (v & Hv & _). by eexists. Qed.

Lemma dec_view_sole f id : sole f id → f id ≫= dec_view = None.
Proof. intros (v & Hv & Hr). rewrite Hv. simpl. unfold dec_view. by rewrite decide_True. Qed.

(** What is live after blocks held by the tree alone were given back, was not
    given back. *)
Lemma decrefed_kept f g B id :
  (∀ id, id ∈ B → sole f id) → decrefed f g B → is_Some (g id) → (id ∉ B) ∧ g id = f id.
Proof.
  intros Hs Hg Hid. assert (id ∉ B) as Hn.
  { intros Hin. rewrite Hg, decide_True, dec_view_sole in Hid by auto. by destruct Hid. }
  split; [done|]. by rewrite Hg, decide_False.
Qed.

Lemma decrefed_app f g h B C :
  (∀ id, id ∈ B → sole f id) → (∀ id, id ∈ C → sole g id) →
  decrefed f g B → decrefed g h C → decrefed f h (B ++ C).
Proof.
  intros HB HC Hg Hh id. rewrite Hh. destruct (decide (id ∈ C)) as [Hc|Hc].
  - rewrite decide_True by set_solver.
    destruct (decrefed_kept f g B id HB Hg) as [_ ->]; [by apply sole_live, HC|done].
  - rewrite Hg. destruct (decide (id ∈ B)); [rewrite decide_True by set_solver|rewrite decide_False by set_solver]; done.
Qed.

Lemma evict_inv_start p t :
  bs_ok p → store_inv (bs_view p) t → evict_inv p t (0, []) (p, t) [] [].
Proof.
  intros Hok St. constructor; cbn [fst snd]; try done.
  - apply evicts_none.
  - by intros ? ?%not_elem_of_nil.
  - constructor.
  - by intros ? ?%not_elem_of_nil.
Qed.

Lemma evict_inv_drop p0 t0 freed rej p t D B v n par pn p' :
  evict_inv p0 t0 (freed, rej) (p, t) D B → droppable t v n par pn → lock_count n = 0%N → v ∉ rej →
  (∀ id, id ∈ blocks n → sole (bs_view p) id) →
  bs_ok p' → bs_keeps p p' → decrefed (bs_view p) (bs_view p') (blocks n) →
  evict_inv p0 t0 (freed + length (blocks n), rej) (p', drop_tree t v n par pn) (v :: D) (B ++ blocks n).
Proof.
  intros [E1 E2 E3 E4 E5 E6 E7 E8 E9] Dr Hlk Hvrej Hs Hok Hk Hv. simpl in *.
  constructor; cbn [fst snd]; try done.
  - by constructor.
  - by etrans.
  - by eapply decrefed_app.
  - by eapply drop_store.
  - intros id [Hid|Hid]%elem_of_app; [by apply E6|].
    destruct (Hs id Hid) as (w & Hw & Hr). exists w. split; [|done].
    destruct (decrefed_kept _ _ B id E6 E4) as [_ <-]; [by eexists|done].
  - rewrite length_app. lia.
  - intros l Hl. destruct (E9 l Hl) as (m & id & Hm & Hid & Hns).
    assert (l ≠ v) as Hlv by (by intros ->).
    destruct (drop_lookup _ _ _ _ _ Dr l m Hm Hlv) as (m' & Hm' & _ & Eb & _).
    exists m', id. rewrite Eb. split_and!; [done..|]. intros (w & Hw & Hr). apply Hns. exists w.
    split; [|done]. destruct (decrefed_kept _ _ _ id Hs Hv) as [_ <-]; [by eexists|done].
Qed.

Lemma evict_inv_reject p0 t0 freed rej s D B v :
  evict_inv p0 t0 (freed, rej) s D B → v ∉ rej → shared_leaf s.1 s.2 v →
  evict_inv p0 t0 (freed, rej ++ [v]) s D B.
Proof.
  intros [E1 E2 E3 E4 E5 E6 E7 E8 E9] Hv Hs. constructor; try done; cbn [fst snd] in *.
  - by apply NoDup_snoc.
  - intros l [Hl| ->%list_elem_of_singleton]%elem_of_app; [by apply E9|done].
Qed.

Lemma rejected_size (p : P) t rej :
  NoDup rej → (∀ l, l ∈ rej → shared_leaf p t l) → length rej ≤ size (nodes t).
Proof.
  intros Hnd Hs. rewrite <-size_dom, <-(size_list_to_set (C := gset N) _ Hnd). apply subseteq_size.
  intros x Hx%elem_of_list_to_set. apply elem_of_dom. destruct (Hs x Hx) as (m & _ & Hm & _). by eexists.
Qed.

(** Every leaf that could have been dropped is shared. *)
Definition nothing_left (p : P) (t : RadixTree) : Prop :=
  ∀ l n, nodes t !! l = Some n → l ≠ root_ t → children n = ∅ → lock_count n = 0%N → shared_leaf p t l.

Lemma evict_spec p t k :
  tree_inv t → bs_ok p → store_inv (bs_view p) t →
  wp (evict k) (λ r s, ∃ D B rej, evict_inv p t (r, rej) s D B ∧
    (r < k → nothing_left s.1 s.2)) (p, t).
Proof.
  intros I Hok St. unfold evict, get_tree. wp_steps. cbn [snd].
  eapply (wp_loop _ (λ st s, ∃ D B, evict_inv p t st s D B) (λ st s, size (nodes s.2) - length st.2)).
  - exists [], []. by apply evict_inv_start.
  - simpl. lia.
  - intros [freed rej] [p1 t1] (D & B & E). pose proof E as [E1 E2 E3 E4 E5 E6 E7 E8 E9]. simpl in *.
    pose proof (ev_inv _ _ _ _ (evicts_evicted t D B t1 I E1)) as I1.
    pose proof (rejected_size p1 t1 rej E8 E9) as Hrej.
    unfold evict_round. destruct (Nat.ltb_spec freed k) as [Hlt|Hge].
    2: { wp_steps. exists D, B, rej. split; [done|lia]. }
    wp_steps. eapply wp_mono; [by apply find_lru_leaf_spec|]. intros r s [-> Hlru].
    destruct r as [v|]; simpl in Hlru.
    2: { wp_steps. exists D, B, rej. split; [done|]. intros _ l n Hl Hr Hc Hk. apply E9.
         destruct (decide (l ∈ rej)) as [|Hn]; [done|]. exfalso.
         assert (candidate t1 rej l n = true) as Hcand by (by apply candidate_spec).
         by rewrite (Hlru l n Hl) in Hcand. }
    destruct Hlru as (n & Hv & Hcand & _).
    destruct (candidate_droppable t1 rej v n I1 Hv Hcand) as (par & pn & Dr & Hlk).
    apply candidate_spec in Hcand as (Hvr & Hvc & _ & Hvrej).
    unfold tree_is_sole_owner. wp_steps. eapply wp_node_at; [done|].
    apply wp_all_sole; [done|by intros; eapply (st_live _ _ E5)| |].
    + intros Hsole. simpl. wp_steps. eapply wp_drop_leaf; [done..|]. intros p' Hok' Hk' Hv'. wp_steps.
      destruct (ti_run _ I1 v n Hv Hvr) as [_ Hbne].
      assert (0 < length (blocks n)) as Hpos by (destruct (blocks n); [done|simpl; lia]).
      apply wp_assert; [by apply Nat.ltb_lt|]. wp_steps.
      pose proof (evict_inv_drop _ _ _ _ _ _ _ _ _ _ _ _ _ E Dr Hlk Hvrej Hsole Hok' Hk' Hv') as E'.
      pose proof (drop_size _ _ _ _ _ Dr). pose proof (rejected_size _ _ _ E8 (ei_rejected _ _ _ _ _ _ E')).
      split; [by eexists _, _|]. simpl in *. lia.
    + intros id Hid Hns. simpl. wp_steps.
      assert (shared_leaf p1 t1 v) as Hsh by (by exists n, id).
      pose proof (evict_inv_reject _ _ _ _ _ _ _ _ E Hvrej Hsh) as E'.
      pose proof (rejected_size _ _ _ (ei_nodup _ _ _ _ _ _ E') (ei_rejected _ _ _ _ _ _ E')) as Hr'.
      split; [by eexists _, _|]. cbn [fst snd] in *. rewrite length_app in *. simpl in *. lia.
Qed.
End evict.
