(* ===== verification/RadixDemote.v ===== *)
(** * Choosing blocks to demote: pick_demotion_victims

    The picks are the demotable blocks of the unpinned leaves, least recently
    used leaf first, up to the number of slots wanted. Neither the tree nor the
    pool changes. *)

From S2P Require Import Prelude Types BlockPool PoolInv BlockStore RadixTree RadixInv RadixSplit RadixWalk RadixLru RadixEvict.

Local Open Scope nat_scope.

(** The unpinned leaves [vs] in the order eviction would consider them. *)
Definition lru_order (t : RadixTree) (vs : list NodePtr) : Prop :=
  ∀ i v, vs !! i = Some v → is_lru t (take i vs) (Some v).

(** On the fast tier, held by the tree alone, and not already moving. *)
Definition demotable (v : BlockView) : Prop :=
  bv_tier v = 0%N ∧ bv_refs v = 1%N ∧ bv_target v = None.
#[export] Instance demotable_dec v : Decision (demotable v).
Proof. unfold demotable. apply _. Defined.

Lemma lru_order_snoc t vs v : lru_order t vs → is_lru t vs (Some v) → lru_order t (vs ++ [v]).
Proof.
  intros Hvs Hv i w Hi. destruct (decide (i < length vs)) as [Hlt|Hge].
  - rewrite lookup_app_l in Hi by done. rewrite take_app_le by lia. by apply Hvs.
  - rewrite lookup_app_r in Hi by lia. apply list_lookup_singleton_Some in Hi as [Hi <-].
    assert (i = length vs) as -> by lia. by rewrite take_app_length.
Qed.

Lemma lru_order_elem t vs v : lru_order t vs → v ∈ vs →
  ∃ n, nodes t !! v = Some n ∧ v ≠ root_ t ∧ children n = ∅ ∧ lock_count n = 0%N.
Proof.
  intros Hvs [i Hi]%list_elem_of_lookup. destruct (Hvs i v Hi) as (n & Hn & Hc & _).
  apply candidate_spec in Hc as (? & ? & ? & _). eauto.
Qed.

Lemma lru_order_nodup t vs : lru_order t vs → NoDup vs.
Proof.
  intros Hvs. apply NoDup_alt. intros i j v Hi Hj.
  assert (∀ i j, i < j → vs !! i = Some v → vs !! j = Some v → False) as Hno.
  { intros a b Hab Ha Hb. destruct (Hvs b v Hb) as (n & _ & Hc & _).
    apply candidate_spec in Hc as (_ & _ & _ & Hc). apply Hc.
    apply (list_elem_of_lookup_2 _ a). by rewrite lookup_take_lt. }
  destruct (lt_eq_lt_dec i j) as [[?|?]|?]; [|done|]; exfalso; eauto.
Qed.

Lemma lru_order_size t vs : lru_order t vs → length vs ≤ size (nodes t).
Proof.
  intros Hvs. rewrite <-size_dom, <-(size_list_to_set (C := gset N) _ (lru_order_nodup _ _ Hvs)).
  apply subseteq_size. intros x Hx%elem_of_list_to_set. apply elem_of_dom.
  destruct (lru_order_elem _ _ _ Hvs Hx) as (n & Hn & _). by eexists.
Qed.

Section demote.
Context {P : Type} `{BlockStoreLaws P} `{IterOrder}.

Definition pickable (p : P) (id : BlockId) : Prop :=
  match bs_view p id with Some v => demotable v | None => False end.
#[export] Instance pickable_dec p id : Decision (pickable p id).
Proof. unfold pickable. destruct (bs_view p id); apply _. Defined.

(** One leaf's share of the picks. *)
Lemma wp_pick_blocks k (out0 : list BlockId) p t bs out (Q : list BlockId → P * RadixTree → Prop) :
  bs_ok p → (∀ id, id ∈ bs → is_Some (bs_view p id)) → length out0 ≤ length out →
  Q (out ++ take (k - (length out - length out0)) (filter (pickable p) bs)) (p, t) →
  wp (pick_blocks k (length out0) bs out) Q (p, t).
Proof.
  intros Hok Hlive. revert out. induction bs as [|id bs IH]; intros out Hlen HQ; simpl.
  { wp_steps. by rewrite filter_nil, take_nil, app_nil_r in HQ. }
  destruct (Nat.leb_spec k (length out - length out0)) as [Hge|Hlt].
  { wp_steps. replace (k - _) with 0 in HQ by lia. by rewrite app_nil_r in HQ. }
  destruct (Hlive id) as [v Hv]; [by left|].
  assert (∀ x, x ∈ bs → is_Some (bs_view p x)) as Hlive' by (intros; apply Hlive; by right).
  specialize (IH Hlive'). rewrite filter_cons in HQ.
  assert (pickable p id ↔ demotable v) as Hpick by (unfold pickable; by rewrite Hv).
  wp_steps. apply wp_on_pool. eapply wp_ok; [by apply bs_block_tier_law|]. cbn [snd].
  destruct (N.eqb_spec (bv_tier v) 0) as [E1|E1]; simpl.
  2: { apply IH; [done|]. rewrite decide_False in HQ; [done|]. rewrite Hpick. by intros (? & _). }
  wp_steps. apply wp_on_pool. eapply wp_ok; [by apply bs_refcount_law|]. cbn [snd].
  destruct (N.eqb_spec (bv_refs v) 1) as [E2|E2]; simpl.
  2: { apply IH; [done|]. rewrite decide_False in HQ; [done|]. rewrite Hpick. by intros (_ & ? & _). }
  wp_steps. apply wp_on_pool. eapply wp_ok; [by apply bs_migrating_law|]. cbn [snd].
  case_bool_decide as E3.
  { apply IH; [done|]. rewrite decide_False in HQ; [done|]. rewrite Hpick. intros (_ & _ & E).
    rewrite E in E3. by destruct E3. }
  rewrite decide_True in HQ.
  2: { apply Hpick. split_and!; [done..|]. destruct (bv_target v); [destruct E3; by eexists|done]. }
  destruct (k - (length out - length out0)) as [|j] eqn:Ej; [lia|]. simpl in HQ.
  apply IH; [rewrite length_app; lia|]. rewrite length_app, <-app_assoc. simpl.
  replace (k - _) with j by lia. exact HQ.
Qed.

(** All the blocks that could be picked from the leaves [vs], in order. *)
Definition candidates (p : P) (t : RadixTree) (vs : list NodePtr) : list BlockId :=
  filter (pickable p) (vs ≫= node_blocks t).

Lemma candidates_snoc p t vs v n :
  nodes t !! v = Some n →
  candidates p t (vs ++ [v]) = candidates p t vs ++ filter (pickable p) (blocks n).
Proof.
  intros Hv. unfold candidates. rewrite bind_app, filter_app. f_equal. simpl.
  unfold node_blocks. by rewrite Hv, app_nil_r.
Qed.

Lemma candidates_nodup p t vs :
  store_inv (bs_view p) t → lru_order t vs → NoDup (candidates p t vs).
Proof.
  intros [S1 S2 S3] Hvs. unfold candidates. apply NoDup_filter.
  assert (∀ v, v ∈ vs → ∃ n, nodes t !! v = Some n ∧ node_blocks t v = blocks n) as Hn.
  { intros v Hv. destruct (lru_order_elem t vs v Hvs Hv) as (n & Hn & _). exists n.
    unfold node_blocks. by rewrite Hn. }
  apply NoDup_bind; [| |by eapply lru_order_nodup].
  - intros v w id Hv Hw. destruct (Hn v Hv) as (n & Hvn & ->), (Hn w Hw) as (m & Hwm & ->). by apply S3.
  - intros v Hv. destruct (Hn v Hv) as (n & Hvn & ->). by eapply S2.
Qed.

Lemma candidates_elem p t vs id :
  lru_order t vs → id ∈ candidates p t vs →
  ∃ l n v, nodes t !! l = Some n ∧ l ≠ root_ t ∧ children n = ∅ ∧ lock_count n = 0%N ∧ id ∈ blocks n ∧
    bs_view p id = Some v ∧ demotable v.
Proof.
  intros Hvs [Hp (l & Hid & Hl)%list_elem_of_bind]%list_elem_of_filter.
  destruct (lru_order_elem t vs l Hvs Hl) as (n & Hn & ? & ? & ?). unfold node_blocks in Hid. rewrite Hn in Hid.
  unfold pickable in Hp. destruct (bs_view p id) as [v|] eqn:Hv; [|done]. exists l, n, v. done.
Qed.

Lemma candidates_intro p t vs id l n v :
  l ∈ vs → nodes t !! l = Some n → id ∈ blocks n → bs_view p id = Some v → demotable v →
  id ∈ candidates p t vs.
Proof.
  intros Hl Hn Hid Hv Hd. apply list_elem_of_filter. split; [unfold pickable; by rewrite Hv|].
  apply list_elem_of_bind. exists l. unfold node_blocks. by rewrite Hn.
Qed.

Lemma pick_demotion_victims_spec p t k out :
  tree_inv t → bs_ok p → store_inv (bs_view p) t →
  wp (pick_demotion_victims k out) (λ r s, s = (p, t) ∧ ∃ vs, lru_order t vs ∧
    r = (length (take k (candidates p t vs)), out ++ take k (candidates p t vs)) ∧
    (length (candidates p t vs) < k → is_lru t vs None)) (p, t).
Proof.
  intros I Hok St. unfold pick_demotion_victims, get_tree. wp_steps. cbn [snd].
  eapply (wp_loop _ (λ st s, s = (p, t) ∧ lru_order t st.2 ∧ st.1 = out ++ take k (candidates p t st.2))
    (λ st _, size (nodes t) - length st.2)).
  - split_and!; [done| |]; [by intros ? ? ?|]. unfold candidates. cbn [snd fst mbind list_bind]. by rewrite filter_nil, take_nil, app_nil_r.
  - simpl. lia.
  - intros [out1 vs] s (-> & Hvs & E). cbn [fst snd] in Hvs, E |- *. subst out1. unfold pick_round.
    rewrite length_app, Nat.add_comm, Nat.add_sub, length_take.
    destruct (Nat.ltb_spec (k `min` length (candidates p t vs)) k) as [Hlt|Hge].
    2: { wp_steps. split; [done|]. exists vs. rewrite length_app, Nat.add_comm, Nat.add_sub.
         split_and!; [done..|lia]. }
    wp_steps. eapply wp_mono; [by apply find_lru_leaf_spec|]. intros r s [-> Hlru].
    destruct r as [v|].
    2: { wp_steps. split; [done|]. exists vs. by rewrite length_app, Nat.add_comm, Nat.add_sub. }
    destruct Hlru as (n & Hn & Hlru). wp_steps. eapply wp_node_at; [done|]. wp_steps.
    apply wp_pick_blocks; [done|by intros; eapply (st_live _ _ St)|rewrite length_app; lia|].
    wp_steps. cbn [fst snd]. pose proof (lru_order_snoc t vs v Hvs ltac:(by exists n)) as Hvs'.
    pose proof (lru_order_size _ _ Hvs') as Hsz. rewrite length_app in *. simpl in Hsz.
    split_and!; [done|done| |rewrite length_app; simpl; lia].
    rewrite (candidates_snoc p t vs v n Hn), <-app_assoc. f_equal.
    rewrite take_app. do 2 f_equal. rewrite length_take. lia.
Qed.
End demote.
