(* ===== verification/RadixPins.v ===== *)
(** * Pins: lock and unlock

    A lock count is the number of pins whose path to the root goes through the
    node. [lock] and [unlock] add and remove one pin, every other operation
    keeps the pins as they are, and eviction leaves what is pinned alone. *)

From S2P Require Import Prelude Types BlockPool PoolInv BlockStore RadixTree RadixInv RadixSplit RadixWalk RadixInsert RadixLru RadixEvict.

Local Open Scope nat_scope.

(** How many of the paths [css] go through [l]. *)
Definition pin_count (css : list (list NodePtr)) (l : NodePtr) : nat := length (filter (l ∈.) css).

(** The pins, each with its path. *)
Record pinned (t : RadixTree) (pins : list NodePtr) (css : list (list NodePtr)) : Prop := {
  pn_chains : Forall2 (chain (nodes t) (root_ t)) pins css;
  pn_count l n : nodes t !! l = Some n → l ≠ root_ t → lock_count n = N.of_nat (pin_count css l);
}.
Definition pins_inv (t : RadixTree) (pins : list NodePtr) : Prop := ∃ css, pinned t pins css.

Lemma pin_count_cons ls css l :
  pin_count (ls :: css) l = (if decide (l ∈ ls) then 1 else 0) + pin_count css l.
Proof. unfold pin_count. rewrite filter_cons. by case_decide. Qed.

Lemma pin_count_le css l : pin_count css l ≤ length css.
Proof. apply length_filter. Qed.

Lemma pin_count_zero css l : pin_count css l = 0 ↔ ∀ ls, ls ∈ css → l ∉ ls.
Proof.
  induction css as [|ls css IH]; [split; [by intros _ ? ?%not_elem_of_nil|done]|].
  rewrite pin_count_cons. setoid_rewrite elem_of_cons. split.
  - case_decide; [done|]. simpl. intros Hz ls' [->|Hin]; [done|]. by apply IH.
  - intros Hno. rewrite decide_False by auto. simpl. apply IH. auto.
Qed.

Lemma pin_count_fmap f css x y :
  (∀ ls, ls ∈ css → x ∈ f ls ↔ y ∈ ls) → pin_count (f <$> css) x = pin_count css y.
Proof.
  induction css as [|ls css IH]; intros Hf; [done|]. rewrite fmap_cons, !pin_count_cons, IH.
  - f_equal. apply decide_ext. apply Hf. by left.
  - intros ls' Hin. apply Hf. by right.
Qed.

Lemma pins_inv_nil t :
  (∀ l n, nodes t !! l = Some n → l ≠ root_ t → lock_count n = 0%N) → pins_inv t [].
Proof. intros Hz. exists []. by constructor. Qed.

(** The order of the pins does not matter. *)
Lemma pins_inv_perm t pins pins' : pins ≡ₚ pins' → pins_inv t pins → pins_inv t pins'.
Proof.
  intros Hp (css & Hc & Hn). destruct (Permutation_Forall2 Hp Hc) as (css' & Hp' & Hc').
  exists css'. constructor; [done|]. intros l n Hl Hr. rewrite (Hn l n) by done.
  unfold pin_count. by rewrite Hp'.
Qed.

(** ** Moving the counts of a path *)

Definition relock (f : N → N) (ls : list NodePtr) (t : RadixTree) : RadixTree :=
  upd_nodes (map_imap (λ l n, Some (if decide (l ∈ ls) then set_lock (f (lock_count n)) n else n)) (nodes t)) t.

Lemma relock_lookup f ls t l :
  nodes (relock f ls t) !! l
  = (λ n, if decide (l ∈ ls) then set_lock (f (lock_count n)) n else n) <$> nodes t !! l.
Proof. simpl. rewrite map_lookup_imap. by destruct (nodes t !! l). Qed.

Lemma relock_struct f ls t : same_struct t (relock f ls t).
Proof.
  constructor; try done. intros l. rewrite relock_lookup. destruct (nodes t !! l); [|done]. simpl.
  by case_decide.
Qed.

Lemma relock_chain f ls t root l xs : chain (nodes t) root l xs → chain (nodes (relock f ls t)) root l xs.
Proof.
  apply chain_ext. intros y n _ Hy. rewrite relock_lookup, Hy. simpl. eexists. split; [done|].
  by case_decide.
Qed.

Lemma relock_nil f t : relock f [] t = t.
Proof.
  unfold relock. replace (map_imap _ (nodes t)) with (nodes t); [by destruct t|].
  apply map_eq. intros l. rewrite map_lookup_imap. destruct (nodes t !! l); done.
Qed.

Lemma relock_snoc f ls t l n :
  l ∉ ls → nodes t !! l = Some n →
  relock f (ls ++ [l]) t
  = upd_nodes (<[l := set_lock (f (lock_count n)) n]> (nodes (relock f ls t))) (relock f ls t).
Proof.
  intros Hl Hn. unfold relock, upd_nodes. simpl. f_equal. apply map_eq. intros x.
  rewrite map_lookup_imap. destruct (decide (x = l)) as [->|Hne].
  - rewrite lookup_insert_eq, Hn. simpl. by rewrite decide_True by set_solver.
  - rewrite lookup_insert_ne, map_lookup_imap by done. destruct (nodes t !! x); [|done]. simpl.
    do 2 f_equal. f_equal. apply decide_ext. set_solver.
Qed.

Lemma relock_relock f g ls t :
  (∀ l n, l ∈ ls → nodes t !! l = Some n → g (f (lock_count n)) = lock_count n) →
  relock g ls (relock f ls t) = t.
Proof.
  intros Hgf. unfold relock, upd_nodes. simpl.
  match goal with |- context [mk_tree _ ?m] => replace m with (nodes t) end; [by destruct t|].
  apply map_eq. intros l. rewrite !map_lookup_imap. destruct (nodes t !! l) as [n|] eqn:Hn; [|done]. simpl.
  case_decide as Hin; [|done]. simpl. rewrite (Hgf l n) by done. by destruct n.
Qed.

Section pins.
Context {P : Type} `{BlockStoreLaws P} `{IterOrder}.

(** Both loops climb from a node to the root. *)
Lemma wp_climb (round : option NodePtr → M (P * RadixTree) (option NodePtr + ())) f ok p t l ls
    (Q : () → P * RadixTree → Prop) :
  (∀ u, root_ u = root_ t → wp (round (Some (root_ t))) (λ r s, r = inr () ∧ s = (p, u)) (p, u)) →
  (∀ u l n, root_ u = root_ t → l ≠ root_ t → nodes u !! l = Some n → ok (lock_count n) →
     wp (round (Some l)) (λ r s, r = inl (parent n) ∧
       s = (p, upd_nodes (<[l := set_lock (f (lock_count n)) n]> (nodes u)) u)) (p, u)) →
  chain (nodes t) (root_ t) l ls →
  (∀ l n, l ∈ ls → nodes t !! l = Some n → ok (lock_count n)) →
  Q () (p, relock f ls t) →
  wp (loop (2 + size (nodes t)) round (Some l)) Q (p, t).
Proof.
  intros Hroot Hround Hc Hok HQ. pose proof (chain_nodup _ _ _ _ Hc) as Hnd.
  eapply (wp_loop_ghost _ (λ (g : list NodePtr * list NodePtr) o s, ls = g.1 ++ g.2 ∧
    s = (p, relock f g.1 t) ∧ ∃ x, o = Some x ∧ chain (nodes t) (root_ t) x g.2)
    (λ g, length g.2) _ _ ([], ls)).
  - split_and!; [done|by rewrite relock_nil|eauto].
  - pose proof (chain_length _ _ _ _ Hc). simpl. lia.
  - intros [pre suf] o s (E & -> & x & -> & Hx). simpl in E, Hx.
    inversion Hx as [|x' n q suf' Hne Hn Hq Hc']; subst; cbn [fst snd].
    + eapply wp_mono; [by apply Hroot|]. intros r s [-> ->]. by rewrite app_nil_r in HQ.
    + assert (x ∉ pre) as Hpre.
      { apply NoDup_app in Hnd as (_ & Hd & _). intros Hin. apply (Hd x Hin). by left. }
      eapply wp_mono.
      { apply (Hround (relock f pre t) x n); [done|done| |].
        - rewrite relock_lookup, Hn. simpl. by rewrite decide_False.
        - apply (Hok x n); [set_solver|done]. }
      intros r s [-> ->]. rewrite Hq, <-relock_snoc by done. exists (pre ++ [x], suf').
      split_and!; [simpl; by rewrite <-app_assoc|done|eauto|simpl; lia].
Qed.

Definition inc_lock (k : N) : N := u32 (k + 1).

Lemma wp_lock p t l ls (Q : () → P * RadixTree → Prop) :
  chain (nodes t) (root_ t) l ls → Q () (p, relock inc_lock ls t) → wp (lock (Some l)) Q (p, t).
Proof.
  intros Hc HQ. unfold lock, get_tree. wp_steps. cbn [snd].
  apply (wp_climb lock_round inc_lock (λ _, True) p t l ls); try done.
  - intros u Hu. unfold lock_round, get_tree. wp_steps. cbn [snd]. rewrite Hu, N.eqb_refl. by wp_steps.
  - intros u x n Hu Hx Hn _. unfold lock_round, get_tree. wp_steps. cbn [snd].
    rewrite (proj2 (N.eqb_neq _ _)) by congruence. wp_steps. eapply wp_node_at; [done|].
    unfold set_node, upd_tree. by wp_steps.
Qed.

Lemma wp_unlock p t l ls (Q : () → P * RadixTree → Prop) :
  chain (nodes t) (root_ t) l ls →
  (∀ x n, x ∈ ls → nodes t !! x = Some n → lock_count n ≠ 0%N) →
  Q () (p, relock N.pred ls t) → wp (unlock (Some l)) Q (p, t).
Proof.
  intros Hc Hpos HQ. unfold unlock, get_tree. wp_steps. cbn [snd].
  apply (wp_climb unlock_round N.pred (λ k, k ≠ 0%N) p t l ls); try done.
  - intros u Hu. unfold unlock_round, get_tree. wp_steps. cbn [snd]. rewrite Hu, N.eqb_refl. by wp_steps.
  - intros u x n Hu Hx Hn Hk. unfold unlock_round, get_tree. wp_steps. cbn [snd].
    rewrite (proj2 (N.eqb_neq _ _)) by congruence. wp_steps. eapply wp_node_at; [done|].
    wp_steps. apply wp_assert; [by rewrite (proj2 (N.eqb_neq _ _))|].
    unfold set_node, upd_tree. wp_steps. by rewrite N.sub_1_r.
Qed.

(** Taking back a lock restores the counts it changed. *)
Lemma relock_undo t pins l ls :
  pins_inv t pins → chain (nodes t) (root_ t) l ls → (N.of_nat (length pins) + 1 < two32)%N →
  relock N.pred ls (relock inc_lock ls t) = t.
Proof.
  intros (css & Hcs & Hn) Hc Hlt. apply relock_relock. intros x n Hx Hxn.
  destruct (chain_nodes _ _ _ _ _ Hc Hx) as [_ Hr]. specialize (Hn x n Hxn Hr).
  pose proof (pin_count_le css x). pose proof (Forall2_length _ _ _ Hcs).
  unfold inc_lock, u32. rewrite N.mod_small; lia.
Qed.

(** [lock] adds a pin. *)
Lemma lock_pins t pins l ls :
  pins_inv t pins → chain (nodes t) (root_ t) l ls → (N.of_nat (length pins) + 1 < two32)%N →
  pins_inv (relock inc_lock ls t) (l :: pins).
Proof.
  intros (css & Hcs & Hn) Hc Hlt. exists (ls :: css).
  constructor; [constructor; [by apply relock_chain|]; eapply Forall2_impl; [done|apply relock_chain]|].
  intros x n. rewrite relock_lookup. intros (m & Hm & ->)%fmap_Some Hr. rewrite pin_count_cons.
  specialize (Hn x m Hm Hr). pose proof (pin_count_le css x). pose proof (Forall2_length _ _ _ Hcs).
  case_decide; simpl; [|done]. unfold inc_lock. unfold u32. rewrite N.mod_small; lia.
Qed.

(** [unlock] removes it. *)
Lemma unlock_pins t pins l ls :
  pins_inv t (l :: pins) → chain (nodes t) (root_ t) l ls →
  (∀ x n, x ∈ ls → nodes t !! x = Some n → lock_count n ≠ 0%N) ∧
  pins_inv (relock N.pred ls t) pins.
Proof.
  intros (css & Hcs & Hn) Hc. apply Forall2_cons_inv_l in Hcs as (ls' & css' & Hc' & Hcs & ->).
  pose proof (chain_det _ _ _ _ _ Hc Hc') as <-. split.
  - intros x n Hx Hxn. rewrite (Hn x n Hxn) by (by eapply chain_nodes).
    rewrite pin_count_cons, decide_True by done. lia.
  - exists css'. constructor.
    + eapply Forall2_impl; [done|apply relock_chain].
    + intros x n. rewrite relock_lookup. intros (m & Hm & ->)%fmap_Some Hr.
      specialize (Hn x m Hm Hr). rewrite pin_count_cons in Hn. case_decide; simpl in *; lia.
Qed.
End pins.

(** ** The other operations keep the pins *)

Lemma touch_pins t l n pins : nodes t !! l = Some n → pins_inv t pins → pins_inv (touch_tree t l n) pins.
Proof.
  intros Hl (css & Hc & Hn). exists css.
  assert (∀ x m, nodes (touch_tree t l n) !! x = Some m → ∃ m0, nodes t !! x = Some m0 ∧
    lock_count m = lock_count m0) as B.
  { intros x m. simpl. destruct (decide (x = l)) as [->|].
    - rewrite lookup_insert_eq. intros [= <-]. eauto.
    - rewrite lookup_insert_ne by done. eauto. }
  constructor.
  - eapply Forall2_impl; [done|]. intros x xs. apply chain_ext. intros y m _ Hy. simpl.
    destruct (decide (y = l)) as [->|]; [rewrite lookup_insert_eq; simplify_eq; eauto|].
    rewrite lookup_insert_ne by done. eauto.
  - intros x m (m0 & Hm0 & ->)%B Hr. by apply Hn.
Qed.

Lemma elem_of_interpose node head ls x :
  x ∈ interpose node head ls ↔ x ∈ ls ∨ (x = head ∧ node ∈ ls).
Proof.
  induction ls as [|y ls IH]; simpl; [set_solver|]. rewrite elem_of_app, IH, !elem_of_cons.
  case_decide; set_solver.
Qed.

Lemma split_pins t node n par pn k pins :
  splittable t node n par pn k → pins_inv t pins → pins_inv (split_tree t node n par pn k) pins.
Proof.
  intros Sp (css & Hc & Hn). pose proof (split_fresh _ _ _ _ _ _ Sp) as Hfresh.
  assert (∀ ls, ls ∈ css → node_next t ∉ ls) as Hno.
  { intros ls Hls Hin. apply list_elem_of_lookup in Hls as [i Hi].
    destruct (Forall2_lookup_r _ _ _ _ _ Hc Hi) as (x & _ & Hx).
    destruct (chain_nodes _ _ _ _ _ Hx Hin) as [[? ?] _]. congruence. }
  exists (interpose node (node_next t) <$> css). constructor.
  - apply Forall2_fmap_r. eapply Forall2_impl; [done|]. intros x xs. apply (split_chain _ _ _ _ _ _ Sp).
  - destruct (split_distinct _ _ _ _ _ _ Sp) as (D1 & D2 & D3).
    intros l m Hl Hr. destruct (decide (l = node_next t)) as [->|Hlh].
    + rewrite (split_lookup_head _ _ _ _ _ _ Sp) in Hl. injection Hl as <-. simpl.
      rewrite (pin_count_fmap _ _ _ node); [apply Hn; apply Sp|].
      intros ls Hls. rewrite elem_of_interpose. specialize (Hno ls Hls). naive_solver.
    + rewrite (pin_count_fmap _ _ _ l); [|intros ls _; rewrite elem_of_interpose; naive_solver].
      destruct (decide (l = node)) as [->|Hln].
      * rewrite (split_lookup_node _ _ _ _ _ _ Sp) in Hl. injection Hl as <-. simpl. apply Hn; apply Sp.
      * destruct (split_lookup_inv _ _ _ _ _ _ Sp l m Hl Hln Hlh) as [m0 Hm0].
        destruct (split_lookup_other _ _ _ _ _ _ Sp l m0 Hm0 Hln) as (m' & Hm' & _ & _ & _ & E & _).
        simplify_eq. rewrite E. by apply Hn.
Qed.

Lemma walks_pins k t u pins : walks k t u → pins_inv t pins → pins_inv u pins.
Proof.
  induction 1 as [t|k t u l n W IH Hl|k t u node n par pn b hn W IH Sp Hh]; intros Hp; [done| |].
  - by apply touch_pins; [|apply IH].
  - apply touch_pins; [done|]. by apply split_pins; [|apply IH].
Qed.

Lemma insert_pins u cur cn ts bs pins :
  insertable u cur cn ts bs → pins_inv u pins → pins_inv (insert_tree u cur cn ts bs) pins.
Proof.
  intros Ins (css & Hc & Hn). exists css. constructor.
  - eapply Forall2_impl; [done|]. intros x xs. apply (ins_chain _ _ _ _ _ Ins).
  - intros l m Hl Hr. destruct (decide (l = node_next u)) as [->|Hll].
    + rewrite (ins_lookup_leaf _ _ _ _ _ Ins) in Hl. injection Hl as <-. simpl.
      replace (pin_count css (node_next u)) with 0; [done|]. symmetry. apply pin_count_zero.
      intros ls Hls Hin. apply list_elem_of_lookup in Hls as [i Hi].
      destruct (Forall2_lookup_r _ _ _ _ _ Hc Hi) as (x & _ & Hx).
      destruct (chain_nodes _ _ _ _ _ Hx Hin) as [[? ?] _].
      pose proof (leaf_fresh _ _ _ _ _ Ins). congruence.
    + destruct (ins_lookup_inv _ _ _ _ _ Ins l m Hl Hll) as [m0 Hm0].
      destruct (ins_lookup_old _ _ _ _ _ Ins l m0 Hm0) as (m' & Hm' & _ & _ & _ & E & _).
      simplify_eq. rewrite E. by apply Hn.
Qed.

(** Nothing a pin's path goes through is ever dropped. *)
Lemma evicted_unpinned t D B u pins css ls l :
  evicted t D B u → pinned t pins css → ls ∈ css → l ∈ ls → l ∉ D.
Proof.
  intros E [Hc Hn] Hls Hl HD. destruct (ev_gone _ _ _ _ E l HD) as (Hr & n & Hln & Hz).
  rewrite (Hn l n Hln Hr) in Hz. assert (pin_count css l = 0) as Hz' by lia.
  by apply (proj1 (pin_count_zero css l) Hz' ls).
Qed.

Lemma evict_pins t D B u pins : evicted t D B u → pins_inv t pins → pins_inv u pins.
Proof.
  intros E (css & Hp). pose proof Hp as [Hc Hn]. exists css. constructor.
  - rewrite (ev_root _ _ _ _ E). apply Forall2_same_length_lookup. split; [by eapply Forall2_length|].
    intros i x xs Hx Hxs. pose proof (Forall2_lookup_lr _ _ _ _ _ _ Hc Hx Hxs) as Hch.
    eapply chain_ext; [|done]. intros y m Hy Hm.
    destruct (ev_kept _ _ _ _ E y m Hm) as (m' & Hm' & _ & _ & Ep & _); [|eauto].
    eapply evicted_unpinned; try done. by eapply list_elem_of_lookup_2.
  - intros l m Hl Hr. destruct (ev_back _ _ _ _ E l m Hl) as [_ (n & Hln & _ & _ & _ & El & _)].
    rewrite El. apply Hn; [done|]. by rewrite <-(ev_root _ _ _ _ E).
Qed.
