(* ===== verification/RadixState.v ===== *)
(** * The blocks, the counters and the clock of the tree

    Which blocks the tree holds references to, that its counters say how many
    blocks and nodes there are, and that its clock tells the accesses to any
    two nodes apart. *)

From S2P Require Import Prelude Types BlockPool PoolInv BlockStore RadixTree RadixInv RadixSplit RadixWalk RadixInsert RadixLru RadixEvict RadixPins.

Local Open Scope nat_scope.

(** ** The blocks of a heap of nodes *)

Definition runs (m : gmap NodePtr Node) : list BlockId := map_to_list m ≫= (λ ln, blocks ln.2).
Definition all_blocks (t : RadixTree) : list BlockId := runs (nodes t).

Lemma elem_of_runs m id : id ∈ runs m ↔ ∃ l n, m !! l = Some n ∧ id ∈ blocks n.
Proof.
  unfold runs. rewrite list_elem_of_bind. split.
  - intros ([l n] & Hid & Hl%elem_of_map_to_list). eauto.
  - intros (l & n & Hl & Hid). exists (l, n). split; [done|]. by apply elem_of_map_to_list.
Qed.

Lemma runs_insert m l n : m !! l = None → runs (<[l := n]> m) ≡ₚ blocks n ++ runs m.
Proof. intros Hl. unfold runs. by rewrite (map_to_list_insert m l n Hl), bind_cons. Qed.

Lemma runs_delete m l n : m !! l = Some n → runs m ≡ₚ blocks n ++ runs (delete l m).
Proof. intros Hl. unfold runs. by rewrite <-(map_to_list_delete m l n Hl), bind_cons. Qed.

(** Writing a node exchanges its blocks. *)
Lemma runs_upd m l n n' : m !! l = Some n → blocks n ++ runs (<[l := n']> m) ≡ₚ blocks n' ++ runs m.
Proof.
  intros Hl. rewrite <-insert_delete_eq, runs_insert by apply lookup_delete_eq.
  rewrite (runs_delete m l n Hl). apply Permutation_app_swap_app.
Qed.

Lemma runs_same m l n n' : m !! l = Some n → blocks n' = blocks n → runs (<[l := n']> m) ≡ₚ runs m.
Proof. intros Hl E. apply (Permutation_app_inv_l (blocks n)). rewrite (runs_upd m l n n' Hl). by rewrite E. Qed.

Lemma store_inv_runs f t :
  store_inv f t ↔ NoDup (all_blocks t) ∧ ∀ id, id ∈ all_blocks t → is_Some (f id).
Proof.
  split.
  - intros [S1 S2 S3]. split.
    + apply NoDup_bind; [| |apply NoDup_map_to_list].
      * intros [l n] [m k] id Hl%elem_of_map_to_list Hm%elem_of_map_to_list Hn Hk. simpl in *.
        assert (l = m) as -> by (by eapply (S3 l m n k)). by simplify_eq.
      * intros [l n] Hl%elem_of_map_to_list. by eapply S2.
    + intros id (l & n & Hl & Hid)%elem_of_runs. by eapply S1.
  - intros [Hnd Hlive]. constructor.
    + intros l n id Hl Hid. apply Hlive, elem_of_runs. eauto.
    + intros l n Hl. unfold all_blocks in Hnd. rewrite (runs_delete _ l n Hl) in Hnd.
      by apply NoDup_app in Hnd as (? & _ & _).
    + intros l m n k id Hl Hm Hn Hk. destruct (decide (l = m)) as [|Hne]; [done|]. exfalso.
      unfold all_blocks in Hnd. rewrite (runs_delete _ l n Hl) in Hnd.
      apply NoDup_app in Hnd as (_ & Hd & _). apply (Hd id Hn). apply elem_of_runs.
      exists m, k. by rewrite lookup_delete_ne.
Qed.

(** ** Counters *)

Definition counts (t : RadixTree) : Prop :=
  num_nodes_ t = u64 (N.of_nat (pred (size (nodes t)))) ∧ stored_blocks_ t = u64 (size_of (all_blocks t)).

Lemma u64_add a b : u64 (u64 a + b) = u64 (a + b).
Proof. unfold u64. by rewrite N.Div0.add_mod_idemp_l. Qed.

Lemma u64_sub a b : (b <= a)%N → sub64 (u64 a) b = u64 (a - b).
Proof.
  intros Hle. unfold sub64, u64, two64. pose proof (N.mod_upper_bound b 18446744073709551616 ltac:(done)).
  lia_div.
Qed.

Lemma counts_intro t nb k :
  size (nodes t) = S k → length (all_blocks t) = nb →
  num_nodes_ t = u64 (N.of_nat k) → stored_blocks_ t = u64 (N.of_nat nb) → counts t.
Proof. intros E1 E2 E3 E4. split; unfold size_of; by rewrite ?E1, ?E2. Qed.

(** ** The clock *)

Definition stamps (t : RadixTree) : Prop :=
  (∀ l n, nodes t !! l = Some n → (last_access n <= clock_ t)%N) ∧ access_distinct t.

(** Everything that holds of a tree between two calls. *)
Record radix_ok (f : BlockId → option BlockView) (t : RadixTree) (pins : list NodePtr) : Prop := {
  rx_inv : tree_inv t;
  rx_store : store_inv f t;
  rx_pins : pins_inv t pins;
  rx_counts : counts t;
  rx_stamps : stamps t;
}.

(** ** Touching *)

Lemma touch_blocks t l n : nodes t !! l = Some n → all_blocks (touch_tree t l n) ≡ₚ all_blocks t.
Proof. intros Hl. by eapply runs_same. Qed.

Lemma touch_counts t l n : nodes t !! l = Some n → counts t → counts (touch_tree t l n).
Proof.
  intros Hl [C1 C2]. split.
  - simpl. by rewrite map_size_insert_Some by (by eexists).
  - unfold size_of. by rewrite (touch_blocks t l n Hl).
Qed.

(** A touch gives the node a stamp of its own; two nodes with the same stamp
    may come before it as long as one of them is touched. *)
Lemma touch_stamps t l n :
  nodes t !! l = Some n → (∀ x m, nodes t !! x = Some m → (last_access m <= clock_ t)%N) →
  (∀ x y m k, x ≠ l → y ≠ l → nodes t !! x = Some m → nodes t !! y = Some k →
     last_access m = last_access k → x = y) →
  (clock_ t + 1 < two64)%N → stamps (touch_tree t l n).
Proof.
  intros Hl Hle Hd Hc. unfold stamps, access_distinct. simpl. rewrite u64_small by done. split.
  - intros x m. destruct (decide (x = l)) as [->|].
    + rewrite lookup_insert_eq. intros [= <-]. done.
    + rewrite lookup_insert_ne by done. intros Hx. specialize (Hle x m Hx). lia.
  - intros x y m k. destruct (decide (x = l)) as [->|Hx], (decide (y = l)) as [->|Hy];
      rewrite ?lookup_insert_eq, ?lookup_insert_ne by done; [done| | |by apply Hd].
    + intros [= <-] Hk E. specialize (Hle y k Hk). simpl in E. lia.
    + intros Hm [= <-] E. specialize (Hle x m Hm). simpl in E. lia.
Qed.

(** ** Splitting *)

Section split_state.
Context (t : RadixTree) (node : NodePtr) (n : Node) (par : NodePtr) (pn : Node) (k : nat).
Context (Sp : splittable t node n par pn k).
Let t' := split_tree t node n par pn k.

Lemma split_par_lookup (x y : Node) :
  (<[node_next t := x]> (<[node := y]> (nodes t))) !! par = Some pn.
Proof.
  destruct (split_distinct _ _ _ _ _ _ Sp) as (_ & D2 & _). pose proof (split_par_ne _ _ _ _ _ _ Sp).
  rewrite lookup_insert_ne by done. rewrite lookup_insert_ne by done. apply Sp.
Qed.

Lemma split_head_lookup (y : Node) : (<[node := y]> (nodes t)) !! node_next t = None.
Proof.
  destruct (split_distinct _ _ _ _ _ _ Sp) as (D1 & _ & _). rewrite lookup_insert_ne by done.
  by eapply split_fresh.
Qed.

(** Its blocks are shared out between the two halves. *)
Lemma split_blocks : all_blocks t' ≡ₚ all_blocks t.
Proof.
  unfold all_blocks, t', split_tree. cbn [nodes upd_counts upd_next upd_nodes].
  rewrite (runs_same _ par pn); [|apply split_par_lookup|done].
  rewrite runs_insert by apply split_head_lookup. cbn [blocks].
  apply (Permutation_app_inv_l (blocks n)). rewrite Permutation_app_swap_app.
  rewrite (runs_upd (nodes t) node n) by apply Sp. cbn [blocks set_run].
  by rewrite app_assoc, take_drop.
Qed.

Lemma split_size : size (nodes t') = S (size (nodes t)).
Proof.
  unfold t', split_tree. cbn [nodes upd_counts upd_next upd_nodes].
  rewrite map_size_insert_Some by (eexists; apply split_par_lookup).
  rewrite map_size_insert_None by apply split_head_lookup.
  rewrite map_size_insert_Some; [done|]. eexists. apply Sp.
Qed.

Lemma size_pos : 0 < size (nodes t).
Proof.
  destruct (decide (size (nodes t) = 0)) as [E%map_size_empty_inv|]; [|lia].
  pose proof (sp_node _ _ _ _ _ _ Sp) as Hn. by rewrite E, lookup_empty in Hn.
Qed.

Lemma split_counts : counts t → counts t'.
Proof.
  intros [C1 C2]. pose proof size_pos. pose proof split_size as E. split.
  - rewrite E. unfold t'. simpl. rewrite C1, u64_add. f_equal. lia.
  - unfold size_of. rewrite split_blocks. apply C2.
Qed.

(** Only the new node shares a stamp with another. *)
Lemma split_access l m' :
  nodes t' !! l = Some m' → ∃ l0 m, nodes t !! l0 = Some m ∧ last_access m' = last_access m ∧
    (l ≠ node_next t → l0 = l).
Proof.
  intros Hl. destruct (decide (l = node_next t)) as [->|Hlh].
  { unfold t' in Hl. rewrite (split_lookup_head _ _ _ _ _ _ Sp) in Hl. injection Hl as <-.
    exists node, n. split_and!; [apply Sp|done..]. }
  destruct (decide (l = node)) as [->|Hln].
  { unfold t' in Hl. rewrite (split_lookup_node _ _ _ _ _ _ Sp) in Hl. injection Hl as <-.
    exists node, n. split_and!; [apply Sp|done..]. }
  destruct (split_lookup_inv _ _ _ _ _ _ Sp l m' Hl Hln Hlh) as [m Hm].
  destruct (split_lookup_other _ _ _ _ _ _ Sp l m Hm Hln) as (m2 & Hm2 & _ & _ & _ & _ & E & _).
  unfold t' in Hl. simplify_eq. eauto.
Qed.

Lemma split_stamps hn :
  stamps t → nodes t' !! node_next t = Some hn → (clock_ t + 1 < two64)%N →
  stamps (touch_tree t' (node_next t) hn).
Proof.
  intros [S1 S2] Hh Hc. apply touch_stamps; [done| | |done].
  - intros l m (l0 & m0 & Hm0 & -> & _)%split_access. by eapply S1.
  - intros x y m m2 Hx Hy (x0 & m0 & Hm0 & E & Ex)%split_access (y0 & m20 & Hm20 & E' & Ey)%split_access Heq.
    rewrite <-(Ex Hx), <-(Ey Hy). apply (S2 x0 y0 m0 m20); congruence.
Qed.
End split_state.

(** ** Walking *)

Lemma walks_state k t u :
  walks k t u → (clock_ t + N.of_nat k < two64)%N →
  clock_ u = (clock_ t + N.of_nat k)%N ∧ all_blocks u ≡ₚ all_blocks t ∧
  (counts t → counts u) ∧ (stamps t → stamps u).
Proof.
  induction 1 as [t|k t u l n W IH Hl|k t u node n par pn b hn W IH Sp Hh]; intros Hc.
  - split_and!; [lia|done..].
  - destruct IH as (E1 & E2 & E3 & E4); [lia|]. split_and!.
    + simpl. rewrite u64_small; lia.
    + by rewrite (touch_blocks u l n Hl).
    + intros C. by apply touch_counts, E3.
    + intros S. destruct (E4 S) as [S1 S2]. apply touch_stamps; [done|done| |lia].
      intros x y m m' _ _. apply S2.
  - destruct IH as (E1 & E2 & E3 & E4); [lia|]. split_and!.
    + simpl. rewrite u64_small; lia.
    + by rewrite (touch_blocks _ _ hn Hh), (split_blocks _ _ _ _ _ _ Sp).
    + intros C. apply touch_counts; [done|]. by apply (split_counts _ _ _ _ _ _ Sp), E3.
    + intros S. apply (split_stamps _ _ _ _ _ _ Sp); [by apply E4|done|lia].
Qed.

Lemma store_inv_perm f t u : all_blocks u ≡ₚ all_blocks t → store_inv f t → store_inv f u.
Proof. intros E. rewrite !store_inv_runs, E. by setoid_rewrite E. Qed.

Lemma walks_ok k t u f pins :
  walks k t u → (clock_ t + N.of_nat k < two64)%N → radix_ok f t pins → radix_ok f u pins.
Proof.
  intros W Hc [I St Pn C S]. destruct (walks_state k t u W Hc) as (_ & E & E3 & E4). constructor.
  - by apply (walks_inv k t u).
  - by eapply store_inv_perm.
  - by eapply walks_pins.
  - by apply E3.
  - by apply E4.
Qed.

(** ** Inserting *)

Section insert_state.
Context (u : RadixTree) (cur : NodePtr) (cn : Node) (ts : list TokenId) (bs : list BlockId).
Context (Ins : insertable u cur cn ts bs).
Let u' := insert_tree u cur cn ts bs.

Lemma insert_cur_lookup (x : Node) : (<[node_next u := x]> (nodes u)) !! cur = Some cn.
Proof.
  destruct (leaf_ne _ _ _ _ _ Ins) as [D _]. rewrite lookup_insert_ne by done. apply Ins.
Qed.

Lemma insert_blocks : all_blocks u' ≡ₚ bs ++ all_blocks u.
Proof.
  unfold all_blocks, u', insert_tree. cbn [nodes].
  rewrite (runs_same _ cur cn); [|apply insert_cur_lookup|done].
  by rewrite runs_insert by apply (leaf_fresh _ _ _ _ _ Ins).
Qed.

Lemma insert_size : size (nodes u') = S (size (nodes u)).
Proof.
  unfold u', insert_tree. cbn [nodes].
  rewrite map_size_insert_Some by (eexists; apply insert_cur_lookup).
  by rewrite map_size_insert_None by apply (leaf_fresh _ _ _ _ _ Ins).
Qed.

Lemma insert_counts : counts u → counts u'.
Proof.
  intros [C1 C2]. assert (0 < size (nodes u)) as Hpos.
  { destruct (decide (size (nodes u) = 0)) as [E%map_size_empty_inv|]; [|lia].
    pose proof (in_cur _ _ _ _ _ Ins) as Hn. by rewrite E, lookup_empty in Hn. }
  split.
  - rewrite insert_size. unfold u'. simpl. rewrite C1, u64_add. f_equal. lia.
  - unfold size_of. rewrite insert_blocks, length_app. unfold u'. simpl. rewrite C2, u64_add.
    unfold size_of. f_equal. lia.
Qed.

Lemma insert_stamps : (clock_ u + 1 < two64)%N → stamps u → stamps u'.
Proof.
  intros Hc [S1 S2].
  assert (∀ l m', nodes u' !! l = Some m' → l ≠ node_next u → ∃ m, nodes u !! l = Some m ∧
    last_access m' = last_access m) as B.
  { intros l m' Hl Hne. destruct (ins_lookup_inv _ _ _ _ _ Ins l m' Hl Hne) as [m Hm].
    destruct (ins_lookup_old _ _ _ _ _ Ins l m Hm) as (? & ? & _ & _ & _ & _ & E & _).
    unfold u' in Hl. simplify_eq. eauto. }
  pose proof (ins_lookup_leaf _ _ _ _ _ Ins) as Hleaf. fold u' in Hleaf.
  unfold stamps, access_distinct. change (clock_ u') with (u64 (clock_ u + 1)).
  rewrite u64_small in * by done. split.
  - intros l m Hl. destruct (decide (l = node_next u)) as [->|Hne]; [simplify_eq; done|].
    destruct (B l m Hl Hne) as (m0 & Hm0 & ->). specialize (S1 l m0 Hm0). lia.
  - intros x y m k Hx Hy E.
    destruct (decide (x = node_next u)) as [->|Nx], (decide (y = node_next u)) as [->|Ny]; [done|..].
    + destruct (B y k Hy Ny) as (k0 & Hk0 & Ek). specialize (S1 y k0 Hk0). simplify_eq. simpl in E. lia.
    + destruct (B x m Hx Nx) as (m0 & Hm0 & Em). specialize (S1 x m0 Hm0). simplify_eq. simpl in E. lia.
    + destruct (B x m Hx Nx) as (m0 & Hm0 & Em), (B y k Hy Ny) as (k0 & Hk0 & Ek).
      apply (S2 x y m0 k0); congruence.
Qed.
End insert_state.

(** ** Evicting *)

Lemma drop_blocks t v n par pn :
  droppable t v n par pn → all_blocks t ≡ₚ blocks n ++ all_blocks (drop_tree t v n par pn).
Proof.
  intros Dr. pose proof (drop_par_ne _ _ _ _ _ Dr) as Hne. destruct Dr as [_ Hv _ _ _ Hpn].
  unfold all_blocks. cbn [nodes drop_tree upd_nodes].
  rewrite <-(runs_delete _ v n) by (by rewrite lookup_insert_ne).
  symmetry. by apply (runs_same _ par pn).
Qed.

Lemma drop_counts t v n par pn : droppable t v n par pn → counts t → counts (drop_tree t v n par pn).
Proof.
  intros Dr [C1 C2]. pose proof (drop_size _ _ _ _ _ Dr) as Es. pose proof (drop_blocks _ _ _ _ _ Dr) as Eb.
  apply Permutation_length in Eb. rewrite length_app in Eb.
  assert (0 < size (nodes (drop_tree t v n par pn))) as Hpos.
  { destruct (ti_root _ (drop_inv _ _ _ _ _ Dr)) as (rn & Hr & _).
    destruct (decide (size (nodes (drop_tree t v n par pn)) = 0)) as [E%map_size_empty_inv|]; [|lia].
    by rewrite E, lookup_empty in Hr. }
  split.
  - change (num_nodes_ (drop_tree t v n par pn)) with (sub64 (num_nodes_ t) 1).
    rewrite C1, u64_sub by lia. f_equal. lia.
  - change (stored_blocks_ (drop_tree t v n par pn)) with (sub64 (stored_blocks_ t) (size_of (blocks n))).
    unfold size_of in *. rewrite C2, u64_sub by lia. f_equal. lia.
Qed.

Lemma evicts_state t D B u :
  evicts t D B u → all_blocks t ≡ₚ B ++ all_blocks u ∧ clock_ u = clock_ t ∧ (counts t → counts u).
Proof.
  induction 1 as [|D B u v n par pn E IH Dr Hlk]; [done|]. destruct IH as (E1 & E2 & E3). split_and!.
  - by rewrite <-app_assoc, <-(drop_blocks _ _ _ _ _ Dr).
  - done.
  - intros C. by apply drop_counts, E3.
Qed.

Lemma evicts_ok t D B u f g pins :
  evicts t D B u → store_inv g u → radix_ok f t pins → radix_ok g u pins.
Proof.
  intros E St [I _ Pn C [S1 S2]]. pose proof (evicts_evicted _ _ _ _ I E) as Ev.
  destruct (evicts_state _ _ _ _ E) as (_ & Ec & E3). constructor.
  - apply Ev.
  - done.
  - by eapply evict_pins.
  - by apply E3.
  - split.
    + intros l m Hl. destruct (ev_back _ _ _ _ Ev l m Hl) as [_ (n & Hn & _ & _ & _ & _ & ->)].
      rewrite Ec. by eapply S1.
    + intros x y m k Hx Hy Heq. destruct (ev_back _ _ _ _ Ev x m Hx) as [_ (m0 & Hm0 & _ & _ & _ & _ & Em)],
        (ev_back _ _ _ _ Ev y k Hy) as [_ (k0 & Hk0 & _ & _ & _ & _ & Ek)].
      apply (S2 x y m0 k0); congruence.
Qed.

(** ** Pinning *)

Lemma relock_blocks f ls t : all_blocks (relock f ls t) ≡ₚ all_blocks t.
Proof.
  unfold all_blocks, runs.
  set (h := λ (l : NodePtr) (n : Node), if decide (l ∈ ls) then set_lock (f (lock_count n)) n else n).
  assert (map_to_list (map_imap (λ l n, Some (h l n)) (nodes t)) ≡ₚ
    (λ ln, (ln.1, h ln.1 ln.2)) <$> map_to_list (nodes t)) as E.
  { apply NoDup_Permutation; [apply NoDup_map_to_list| |].
    - apply NoDup_fmap_2_strong; [|apply NoDup_map_to_list].
      intros [l n] [m k] Hl%elem_of_map_to_list Hm%elem_of_map_to_list [= -> _]. by simplify_eq.
    - intros [l n]. rewrite elem_of_map_to_list, map_lookup_imap, list_elem_of_fmap. split.
      + destruct (nodes t !! l) as [m|] eqn:Hm; simpl; [|done]. intros [= <-]. exists (l, m).
        split; [done|]. by apply elem_of_map_to_list.
      + intros ([l' m] & [= -> ->] & Hm%elem_of_map_to_list). simpl in *. by rewrite Hm. }
  change (nodes (relock f ls t)) with (map_imap (λ l n, Some (h l n)) (nodes t)).
  rewrite E. generalize (map_to_list (nodes t)). intros lns. clear E.
  induction lns as [|[l n] lns IH]; [done|]. rewrite fmap_cons, !bind_cons, IH. cbn [fst snd].
  unfold h. by case_decide.
Qed.

Lemma relock_ok f g ls t pins pins' :
  pins_inv (relock g ls t) pins' → radix_ok f t pins → radix_ok f (relock g ls t) pins'.
Proof.
  intros Hp [I St _ [C1 C2] [S1 S2]].
  assert (∀ l n', nodes (relock g ls t) !! l = Some n' → ∃ n, nodes t !! l = Some n ∧
    last_access n' = last_access n) as B.
  { intros l n'. rewrite relock_lookup. intros (n & Hn & ->)%fmap_Some. exists n. split; [done|]. by case_decide. }
  constructor.
  - eapply tree_inv_struct; [apply relock_struct|done].
  - eapply store_inv_perm; [apply relock_blocks|done].
  - done.
  - split.
    + change (num_nodes_ (relock g ls t)) with (num_nodes_ t). rewrite C1. do 3 f_equal.
      rewrite <-!size_dom. f_equal. apply set_eq. intros l. rewrite !elem_of_dom, relock_lookup.
      by rewrite fmap_is_Some.
    + unfold size_of. by rewrite relock_blocks.
  - split.
    + intros l n' (n & Hn & ->)%B. by eapply S1.
    + intros x y m k (m0 & Hm0 & Em)%B (k0 & Hk0 & Ek)%B Heq. apply (S2 x y m0 k0); congruence.
Qed.

(** ** The whole insert *)

Lemma touch_ok f t l n pins :
  nodes t !! l = Some n → (clock_ t + 1 < two64)%N → radix_ok f t pins → radix_ok f (touch_tree t l n) pins.
Proof.
  intros Hl Hc R. apply (walks_ok 1 t); [|done|done]. by apply (walks_touch 0 t t); [constructor|].
Qed.

Lemma store_inv_ext f g t : (∀ id, is_Some (f id) → is_Some (g id)) → store_inv f t → store_inv g t.
Proof. intros Hfg [S1 S2 S3]. constructor; eauto. Qed.

Lemma insert_ok f g u cur cn ts bs pins :
  insertable u cur cn ts bs → NoDup bs → (∀ id, id ∈ bs → is_Some (f id) ∧ id ∉ all_blocks u) →
  increfed f g bs → (clock_ u + 1 < two64)%N →
  radix_ok f u pins → radix_ok g (insert_tree u cur cn ts bs) pins.
Proof.
  intros Ins Hnd Hbs Hg Hc [I St Pn C S]. constructor.
  - by eapply insert_inv.
  - apply store_inv_runs. apply store_inv_runs in St as [St1 St2]. rewrite (insert_blocks _ _ _ _ _ Ins).
    split.
    + apply NoDup_app. split_and!; [done| |done]. intros id Hid. by apply Hbs.
    + intros id. rewrite (insert_blocks _ _ _ _ _ Ins), elem_of_app. intros Hid.
      assert (is_Some (f id)) as Hf by (destruct Hid; [by apply Hbs|by apply St2]).
      rewrite Hg. case_decide; [by apply fmap_is_Some|done].
  - by apply insert_pins.
  - by apply insert_counts.
  - by apply insert_stamps.
Qed.

(** ** A new tree *)

Section new_tree.
Context (bt : nat) (Hbt : 0 < bt).
Let t : RadixTree := mk_tree bt {[0%N := empty_node]} 0 0 0 0 0 1.

Lemma new_lookup l n : nodes t !! l = Some n → l = root_ t ∧ n = empty_node.
Proof. simpl. by intros [<- <-]%lookup_singleton_Some. Qed.

Lemma new_inv : tree_inv t.
Proof.
  constructor.
  - done.
  - exists empty_node. by split.
  - by intros l n [-> _]%new_lookup.
  - by intros l n [-> _]%new_lookup.
  - intros p pn k c [-> ->]%new_lookup Hc. simpl in Hc. by rewrite lookup_empty in Hc.
  - intros l [n [-> _]%new_lookup]. exists []. constructor.
  - by intros l [n [-> _]%new_lookup].
Qed.

Lemma new_ok f : radix_ok f t [].
Proof.
  constructor.
  - apply new_inv.
  - constructor.
    + intros l n id [_ ->]%new_lookup Hid. by apply not_elem_of_nil in Hid.
    + intros l n [_ ->]%new_lookup. constructor.
    + by intros l m n k id [-> _]%new_lookup [-> _]%new_lookup.
  - apply pins_inv_nil. by intros l n [-> _]%new_lookup.
  - by split.
  - split; [by intros l n [_ ->]%new_lookup|]. by intros l m n k [-> _]%new_lookup [-> _]%new_lookup.
Qed.

Lemma new_find cs : find t cs = None.
Proof. destruct cs as [|c cs]; [done|]. unfold find, cached. done. Qed.
End new_tree.

Lemma walks_find k t u cs : tree_inv t → walks k t u → find u cs = find t cs.
Proof. intros I W. unfold find. destruct (walks_inv k t u I W) as (_ & _ & _ & E). by rewrite E. Qed.

(** A match touches no more nodes than there are tokens. *)
Lemma match_touches t q r k :
  mr_blocks r = cached t (chunks (block_tokens_ t) q) → k ≤ length (mr_blocks r) → k ≤ length q.
Proof.
  intros E Hk. rewrite E in Hk. pose proof (follow_length t (root_ t, 0) (chunks (block_tokens_ t) q)) as Hl.
  unfold cached in Hk. rewrite length_chunks in Hl.
  assert (length q / block_tokens_ t ≤ length q); [|lia].
  destruct (block_tokens_ t); [simpl; lia|]. by apply Nat.Div0.div_le_upper_bound; nia.
Qed.

(** ** What a published sequence reads as *)

Lemma query_cached t q L :
  length (cached t (query t q L)) < L → length (cached t (query t q L)) = length (cached t (chunks (block_tokens_ t) q)).
Proof. unfold query, cached. rewrite follow_take, length_take. lia. Qed.

Lemma insert_cached_blocks t u q L table :
  let cs := chunks (block_tokens_ t) q in
  L ≤ length cs → L ≤ length table → length (cached t (query t q L)) < L →
  (∀ ds, find u ds = match find t ds with
                     | Some b => Some b
                     | None => if decide (ds ≠ [] ∧ ds `prefix_of` query t q L)
                               then table !! pred (length ds) else None
                     end) →
  cached u cs = cached t cs ++ drop (length (cached t cs)) (take L table).
Proof.
  intros cs HL HT Hj Hf. pose proof (query_cached t q L Hj) as Ej. fold cs in Ej. rewrite Ej in Hj.
  apply list_eq. intros i. rewrite cached_find. destruct (decide (i < length cs)) as [Hi|Hi].
  - rewrite Hf. pose proof (cached_find t cs i) as Ei. rewrite decide_True in Ei by done. rewrite <-Ei.
    destruct (decide (i < length (cached t cs))) as [Hlt|Hge].
    { destruct (lookup_lt_is_Some_2 _ _ Hlt) as [b Hb]. rewrite lookup_app_l by done. by rewrite Hb. }
    rewrite (lookup_ge_None_2 (cached t cs)) by lia.
    rewrite lookup_app_r, lookup_drop by lia. replace (_ + (_ - _)) with i by lia.
    destruct (decide (i < L)) as [HiL|HiL].
    + rewrite decide_True, lookup_take_lt, length_take by done || (split; [by destruct cs|]; unfold query; fold cs;
        replace (take (S i) cs) with (take (S i) (take L cs)) by (rewrite take_take; f_equal; lia); apply prefix_take).
      f_equal. lia.
    + rewrite decide_False, lookup_take_ge by lia || (intros [_ Hp%prefix_length];
        unfold query in Hp; rewrite !length_take in Hp; fold cs in Hp; lia). done.
  - symmetry. apply lookup_ge_None. rewrite length_app, length_drop, length_take. lia.
Qed.

Lemma walks_collisions k t u : walks k t u → collisions_ u = collisions_ t.
Proof. by induction 1. Qed.
