(* ===== verification/RadixPath.v ===== *)
(** * Paths

    The path from the root to a node spells the tokens it caches and lists
    their blocks. Reading those tokens leads back to the node, and no operation
    changes the path of a node that is pinned. *)

From S2P Require Import Prelude Types BlockPool PoolInv BlockStore RadixTree RadixInv RadixSplit RadixWalk RadixInsert RadixLru RadixEvict RadixPins RadixState.

Local Open Scope nat_scope.

(** ** Chunks of a concatenation *)

Lemma chunks_app bt a b :
  0 < bt → length a = length a / bt * bt → chunks bt (a ++ b) = chunks bt a ++ chunks bt b.
Proof.
  intros Hbt Ha. set (k := length a / bt) in *.
  assert (length (a ++ b) / bt = k + length b / bt) as E.
  { rewrite length_app, Ha, Nat.add_comm, Nat.div_add by lia. lia. }
  apply list_eq. intros i. unfold chunks. rewrite E. fold k.
  rewrite list_lookup_fmap. destruct (decide (i < k)) as [Hi|Hi].
  - rewrite lookup_app_l by (rewrite length_fmap, length_seq; lia).
    rewrite list_lookup_fmap, !lookup_seq_lt by lia. simpl. f_equal.
    unfold chunk_at. apply list_eq. intros j. rewrite !lookup_slice. case_decide; [|done].
    rewrite lookup_app_l; [done|]. nia.
  - rewrite lookup_app_r by (rewrite length_fmap, length_seq; lia). rewrite length_fmap, length_seq.
    rewrite list_lookup_fmap. destruct (decide (i < k + length b / bt)) as [Hi2|Hi2].
    + rewrite !lookup_seq_lt by lia. simpl. f_equal. unfold chunk_at. apply list_eq. intros j.
      rewrite !lookup_slice. case_decide; [|done]. rewrite lookup_app_r by nia. f_equal. nia.
    + by rewrite !lookup_seq_ge by lia.
Qed.

Lemma chunks_lengths bt q c : c ∈ chunks bt q → length c = bt.
Proof.
  intros [i Hi]%list_elem_of_lookup. apply lookup_chunks in Hi as [Hi ->].
  unfold chunk_at. apply length_slice. assert (bt ≠ 0) by (intros ->; simpl in Hi; lia).
  assert (S i * bt ≤ length q); [|lia]. etrans; [apply Nat.mul_le_mono_r, Hi|].
  rewrite Nat.mul_comm. apply Nat.Div0.mul_div_le.
Qed.

(** ** Reading a path *)

Lemma node_blocks_Some t l n : nodes t !! l = Some n → node_blocks t l = blocks n.
Proof. intros Hl. unfold node_blocks. by rewrite Hl. Qed.
Lemma node_tokens_Some t l n : nodes t !! l = Some n → node_tokens t l = tokens n.
Proof. intros Hl. unfold node_tokens. by rewrite Hl. Qed.

Lemma path_follow t l ls :
  tree_inv t → chain (nodes t) (root_ t) l ls →
  length (path_tokens t ls) = length (path_blocks t ls) * block_tokens_ t ∧
  ∃ n, nodes t !! l = Some n ∧
    follow t (root_ t, 0) (chunks (block_tokens_ t) (path_tokens t ls)) = (path_blocks t ls, (l, length (blocks n))).
Proof.
  intros I. pose proof (ti_bt _ I) as Hbt. set (bt := block_tokens_ t) in *.
  induction 1 as [|l n p ls Hne Hl Hp Hc IH].
  - destruct (ti_root _ I) as (rn & Hr & Ht & Hb & _). split; [done|]. exists rn. split; [done|].
    unfold path_tokens, path_blocks. simpl. unfold chunks. simpl. by rewrite Hb, Nat.Div0.div_0_l.
  - destruct IH as (Hlen & pn & Hpn & Hf). destruct (ti_run _ I l n Hl Hne) as [Hrun Hbne]. fold bt in Hrun.
    destruct (ti_parent _ I l n Hl Hne) as (p' & pn' & Hp' & Hpn' & Hkey). simplify_eq. fold bt in Hkey.
    rewrite path_tokens_cons, path_blocks_cons, (node_blocks_Some t l n Hl), (node_tokens_Some t l n Hl).
    split; [rewrite !length_app; lia|]. exists n. split; [done|].
    assert (length (path_tokens t ls) / bt = length (path_blocks t ls)) as Ediv
      by (rewrite Hlen; apply Nat.div_mul; lia).
    assert (length (tokens n) / bt = length (blocks n)) as Ediv' by (rewrite Hrun; apply Nat.div_mul; lia).
    assert (0 < length (blocks n)) as Hpos by (destruct (blocks n); [done|simpl; lia]).
    rewrite chunks_app by (try done; by rewrite Ediv).
    rewrite follow_app by (rewrite Hf; cbn [fst]; by rewrite length_chunks, Ediv).
    rewrite Hf. cbn [fst snd].
    rewrite (follow_child t p pn _ l n (chunks bt (tokens n)) Hpn eq_refl Hl).
    + cbn [fst snd]. by rewrite length_chunks, Ediv', firstn_all.
    + rewrite length_chunks, Ediv'. lia.
    + fold bt. assert (chunks bt (tokens n) !! 0 = Some (chunk_at bt 0 (tokens n))) as E0
        by (apply lookup_chunks; split; [lia|done]).
      destruct (chunks bt (tokens n)) as [|c cs]; [done|]. simpl in E0 |- *. injection E0 as ->.
      by rewrite chunk_at_0, block_key_take.
    + intros x c Hx. by apply lookup_chunks in Hx as [_ ->].
Qed.

(** The blocks of a path are cached for every sequence that starts with its
    tokens. *)
Lemma path_cached t l ls q :
  tree_inv t → chain (nodes t) (root_ t) l ls →
  path_tokens t ls = take (length (path_tokens t ls)) q →
  ∃ rest, cached t (chunks (block_tokens_ t) q) = path_blocks t ls ++ rest.
Proof.
  intros I Hc Hq. destruct (path_follow t l ls I Hc) as (Hlen & n & _ & Hf). pose proof (ti_bt _ I) as Hbt.
  rewrite <-(take_drop (length (path_tokens t ls)) q), <-Hq.
  assert (length (path_tokens t ls) / block_tokens_ t = length (path_blocks t ls)) as Ediv
    by (rewrite Hlen; apply Nat.div_mul; lia).
  rewrite chunks_app by (try done; by rewrite Ediv).
  unfold cached. rewrite follow_app by (rewrite Hf; cbn [fst]; by rewrite length_chunks, Ediv).
  rewrite Hf. cbn [fst]. by eexists.
Qed.

(** A path's blocks are in the tree, each once. *)
Lemma path_blocks_elem t ls id :
  id ∈ path_blocks t ls ↔ ∃ l n, l ∈ ls ∧ nodes t !! l = Some n ∧ id ∈ blocks n.
Proof.
  induction ls as [|l ls IH].
  - unfold path_blocks. simpl. split; [by intros ?%not_elem_of_nil|]. by intros (? & ? & ?%not_elem_of_nil & _).
  - rewrite path_blocks_cons, elem_of_app, IH. split.
    + intros [(x & n & Hx & Hn & Hid)|Hid]; [exists x, n; split_and!; [by right|done..]|].
      unfold node_blocks in Hid. destruct (nodes t !! l) as [n|] eqn:Hn; [|by apply not_elem_of_nil in Hid].
      exists l, n. split_and!; [by left|done..].
    + intros (x & n & [->|Hx]%elem_of_cons & Hn & Hid); [right; by rewrite (node_blocks_Some t l n Hn)|left; eauto].
Qed.

Lemma path_blocks_all t ls id : id ∈ path_blocks t ls → id ∈ all_blocks t.
Proof. intros (l & n & _ & Hn & Hid)%path_blocks_elem. apply elem_of_runs. eauto. Qed.

(** What is cached is in the tree. *)
Lemma step_chunk_block t x c y b : step_chunk t x c = Some (y, b) → b ∈ all_blocks t.
Proof.
  unfold step_chunk. intros E. apply elem_of_runs. destruct (nodes t !! x.1) as [n|] eqn:Hn; [|done]. simpl in E.
  destruct (blocks n !! x.2) as [b'|] eqn:Hb.
  - case_decide; [|done]. injection E as <- <-. exists x.1, n. split; [done|]. by eapply list_elem_of_lookup_2.
  - destruct (children n !! _) as [l|]; [|done]. simpl in E. destruct (nodes t !! l) as [d|] eqn:Hd; [|done].
    simpl in E. destruct (blocks d !! 0) as [b'|] eqn:Hb'; [|done]. simpl in E. case_decide; [|done].
    injection E as <- <-. exists l, d. split; [done|]. by eapply list_elem_of_lookup_2.
Qed.

Lemma find_blocks t cs id : find t cs = Some id → id ∈ all_blocks t.
Proof.
  unfold find. case_decide; [|done]. intros Hid%last_Some_elem_of. revert Hid. unfold cached.
  generalize (root_ t, 0). clear. induction cs as [|c cs IH]; intros x; [by intros ?%not_elem_of_nil|]. simpl.
  destruct (step_chunk t x c) as [[y b]|] eqn:E; simpl; [|by intros ?%not_elem_of_nil].
  intros [->|Hid]%elem_of_cons; [by eapply step_chunk_block|by eapply IH].
Qed.

Lemma path_blocks_nodup f t l ls :
  store_inv f t → chain (nodes t) (root_ t) l ls → NoDup (path_blocks t ls).
Proof.
  intros [_ S2 S3] Hc. pose proof (chain_nodup _ _ _ _ Hc) as Hnd.
  induction Hc as [|l n p ls Hne Hl Hp Hc IH]; [constructor|].
  rewrite path_blocks_cons, (node_blocks_Some t l n Hl). apply NoDup_cons in Hnd as [Hl' Hnd].
  apply NoDup_app. split_and!; [by apply IH| |by eapply S2].
  intros id (x & m & Hx & Hm & Hid)%path_blocks_elem Hid'. apply Hl'.
  by rewrite <-(S3 x l m n id).
Qed.

(** ** Paths that stay *)

Definition same_path (l : NodePtr) (t u : RadixTree) : Prop :=
  ∀ ls, chain (nodes t) (root_ t) l ls → ∃ ls', chain (nodes u) (root_ u) l ls' ∧
    path_blocks u ls' = path_blocks t ls ∧ path_tokens u ls' = path_tokens t ls.

#[export] Instance same_path_preorder l : PreOrder (same_path l).
Proof.
  split.
  - intros t ls Hc. eauto.
  - intros t u v H1 H2 ls Hc. destruct (H1 ls Hc) as (ls' & Hc' & E1 & E2).
    destruct (H2 ls' Hc') as (ls'' & Hc'' & E3 & E4). exists ls''. split; [done|]. split; congruence.
Qed.

(** Nodes that keep their runs keep their path. *)
Lemma path_ext t u ls :
  (∀ l n, l ∈ ls → nodes t !! l = Some n → ∃ m, nodes u !! l = Some m ∧ tokens m = tokens n ∧ blocks m = blocks n) →
  (∀ l, l ∈ ls → is_Some (nodes t !! l)) →
  path_blocks u ls = path_blocks t ls ∧ path_tokens u ls = path_tokens t ls.
Proof.
  intros Hext Hs. induction ls as [|l ls IH]; [done|].
  destruct IH as [E1 E2]; [intros; apply Hext; [by right|done]|intros; apply Hs; by right|].
  destruct (Hs l) as [n Hn]; [by left|]. destruct (Hext l n) as (m & Hm & Et & Eb); [by left|done|].
  rewrite !path_blocks_cons, !path_tokens_cons, E1, E2.
  by rewrite (node_blocks_Some u l m Hm), (node_blocks_Some t l n Hn), (node_tokens_Some u l m Hm),
    (node_tokens_Some t l n Hn), Et, Eb.
Qed.

Lemma struct_path l t u : same_struct t u → same_path l t u.
Proof.
  intros S ls Hc. exists ls. split.
  - rewrite (ss_root _ _ S). eapply chain_ext; [|done]. intros x n _ Hx.
    destruct (same_struct_lookup t u x n S Hx) as (m & Hm & _ & _ & _ & Ep). eauto.
  - apply path_ext; [|intros x Hx; by eapply chain_nodes]. intros x n _ Hx.
    destruct (same_struct_lookup t u x n S Hx) as (m & Hm & Et & Eb & _). eauto.
Qed.

Lemma split_path l t node n par pn k :
  splittable t node n par pn k → same_path l t (split_tree t node n par pn k).
Proof.
  intros Sp ls Hc. exists (interpose node (node_next t) ls).
  split; [by apply (split_chain _ _ _ _ _ _ Sp)|].
  assert (∀ x, x ∈ ls → is_Some (nodes t !! x)) as Hs by (intros; by eapply chain_nodes). clear Hc.
  induction ls as [|x ls IH]; [done|]. destruct IH as [E1 E2]; [intros; apply Hs; by right|].
  destruct (Hs x) as [m Hm]; [by left|].
  rewrite !path_blocks_cons, !path_tokens_cons. cbn [interpose flat_map]. case_decide as Ex.
  - subst x. simpl. assert (m = n) as -> by (pose proof (sp_node _ _ _ _ _ _ Sp); congruence).
    fold (interpose node (node_next t) ls). rewrite !path_blocks_cons, !path_tokens_cons, E1, E2.
    rewrite (node_blocks_Some _ _ _ (split_lookup_head _ _ _ _ _ _ Sp)), (node_tokens_Some _ _ _ (split_lookup_head _ _ _ _ _ _ Sp)).
    rewrite (node_blocks_Some _ _ _ (split_lookup_node _ _ _ _ _ _ Sp)), (node_tokens_Some _ _ _ (split_lookup_node _ _ _ _ _ _ Sp)).
    rewrite (node_blocks_Some t node n Hm), (node_tokens_Some t node n Hm). simpl.
    by rewrite <-!app_assoc, !take_drop.
  - simpl. fold (interpose node (node_next t) ls). rewrite !path_blocks_cons, !path_tokens_cons, E1, E2.
    destruct (split_lookup_other _ _ _ _ _ _ Sp x m Hm Ex) as (m' & Hm' & Et & Eb & _).
    by rewrite (node_blocks_Some _ _ _ Hm'), (node_tokens_Some _ _ _ Hm'), (node_blocks_Some _ _ _ Hm),
      (node_tokens_Some _ _ _ Hm), Et, Eb.
Qed.

Lemma walks_path l k t u : walks k t u → same_path l t u.
Proof.
  induction 1 as [t|k t u x n W IH Hl|k t u node n par pn b hn W IH Sp Hh].
  - done.
  - etrans; [done|]. by apply struct_path, touch_struct.
  - etrans; [done|]. etrans; [by apply split_path|]. by apply struct_path, touch_struct.
Qed.

Lemma insert_path l u cur cn ts bs : insertable u cur cn ts bs → same_path l u (insert_tree u cur cn ts bs).
Proof.
  intros Ins ls Hc. exists ls. split; [by apply (ins_chain _ _ _ _ _ Ins)|].
  apply path_ext; [|intros x Hx; by eapply chain_nodes]. intros x n _ Hx.
  destruct (ins_lookup_old _ _ _ _ _ Ins x n Hx) as (m & Hm & Et & Eb & _). eauto.
Qed.

Lemma evicted_path l t D B u pins : evicted t D B u → pins_inv t pins → l ∈ pins → same_path l t u.
Proof.
  intros E (css & Hp) Hl ls Hc. pose proof Hp as [Hcs _].
  assert (∀ x, x ∈ ls → x ∉ D) as HD.
  { intros x Hx. apply list_elem_of_lookup in Hl as [i Hi].
    destruct (Forall2_lookup_l _ _ _ _ _ Hcs Hi) as (ls' & Hls' & Hc').
    pose proof (chain_det _ _ _ _ _ Hc Hc') as <-.
    eapply evicted_unpinned; [done|done|by eapply list_elem_of_lookup_2|done]. }
  exists ls. split.
  - rewrite (ev_root _ _ _ _ E). eapply chain_ext; [|done]. intros x n Hx Hn.
    destruct (ev_kept _ _ _ _ E x n Hn (HD x Hx)) as (m & Hm & _ & _ & Ep & _). eauto.
  - apply path_ext; [|intros x Hx; by eapply chain_nodes]. intros x n Hx Hn.
    destruct (ev_kept _ _ _ _ E x n Hn (HD x Hx)) as (m & Hm & Et & Eb & _). eauto.
Qed.
