(* ===== verification/RadixDestroy.v ===== *)
(** * The destructor

    Tearing a tree down gives back exactly one reference for every block it
    holds, iteratively, and leaves no node behind. *)

From S2P Require Import Prelude Types BlockPool PoolInv BlockStore RadixTree RadixInv RadixSplit RadixWalk RadixLru RadixEvict RadixPins RadixState.

Local Open Scope nat_scope.

Lemma decrefed_ext f g B B' : (∀ id, id ∈ B ↔ id ∈ B') → decrefed f g B → decrefed f g B'.
Proof. intros E Hg id. rewrite Hg. by rewrite (decide_ext _ _ _ _ (E id)). Qed.

Lemma decrefed_app_disj f g h B C :
  (∀ id, id ∈ B → id ∉ C) → decrefed f g B → decrefed g h C → decrefed f h (B ++ C).
Proof.
  intros Hd Hg Hh id. rewrite Hh, Hg. specialize (Hd id).
  destruct (decide (id ∈ C)), (decide (id ∈ B)); try (rewrite decide_True by set_solver; done).
  - set_solver.
  - rewrite decide_False by set_solver. done.
Qed.

Section destroy.
Context {P : Type} `{BlockStoreLaws P} `{IterOrder}.

Lemma wp_release_all bs p t (Q : () → P * RadixTree → Prop) :
  bs_ok p → NoDup bs → (∀ id, id ∈ bs → is_Some (bs_view p id)) →
  (∀ p', bs_ok p' → bs_keeps p p' → decrefed (bs_view p) (bs_view p') bs → Q () (p', t)) →
  wp (for_each bs (λ id, _ ← on_pool (bs_decref id); mret ())) Q (p, t).
Proof.
  intros Hok Hnd Hlive HQ. eapply wp_mono.
  - apply (wp_for_each _ (λ pre suf s, s.2 = t ∧ bs_ok s.1 ∧ bs_keeps p s.1 ∧
      decrefed (bs_view p) (bs_view s.1) pre)).
    + split_and!; done.
    + intros pre id suf [p1 t1] E (Et & Hok1 & Hk1 & Hv1). simpl in *. subst t1.
      assert (id ∉ pre) as Hnin.
      { rewrite E in Hnd. apply NoDup_app in Hnd as (_ & Hd & _). intros Hin. apply (Hd id Hin). by left. }
      destruct (Hlive id) as [v Hv]; [rewrite E; set_solver|]. wp_steps.
      eapply (wp_decref_step (pre ++ [id]) id p p1 pre); done.
  - intros [] [p' t'] (Et & Hok' & Hk' & Hv'). simpl in *. subst t'. by apply HQ.
Qed.

Lemma wp_release_blocks l n p t (Q : () → P * RadixTree → Prop) :
  bs_ok p → nodes t !! l = Some n → NoDup (blocks n) → (∀ id, id ∈ blocks n → is_Some (bs_view p id)) →
  (∀ p', bs_ok p' → bs_keeps p p' → decrefed (bs_view p) (bs_view p') (blocks n) →
     Q () (p', upd_nodes (<[l := set_blocks [] n]> (nodes t)) t)) →
  wp (release_blocks l) Q (p, t).
Proof.
  intros Hok Hl Hnd Hlive HQ. unfold release_blocks. wp_steps. eapply wp_node_at; [done|]. wp_steps.
  apply wp_release_all; [done..|]. intros p' Hok' Hk' Hv'. unfold set_node, upd_tree. wp_steps. by apply HQ.
Qed.

(** The state of the loop: [V] has been torn down. *)
Record destroying (p0 : P) (t0 : RadixTree) (V stack : list NodePtr) (s : P * RadixTree) : Prop := {
  ds_walk : walk_inv t0 V stack;
  ds_ok : bs_ok s.1;
  ds_keeps : bs_keeps p0 s.1;
  ds_views : decrefed (bs_view p0) (bs_view s.1) (V ≫= node_blocks t0);
  ds_nodes l : nodes s.2 !! l = if decide (l ∈ V) then None else nodes t0 !! l;
}.

Lemma destroying_visit p0 t0 V l n stack p p' t :
  tree_inv t0 → store_inv (bs_view p0) t0 → nodes t0 !! l = Some n →
  destroying p0 t0 V (l :: stack) (p, t) →
  bs_ok p' → bs_keeps p p' → decrefed (bs_view p) (bs_view p') (blocks n) →
  destroying p0 t0 (l :: V) (kids n ++ stack)
    (p', upd_nodes (delete l (<[l := set_blocks [] n]> (nodes t))) t).
Proof.
  intros I St Hn [W D2 D3 D4 D5] Hok Hk Hv. simpl in *. constructor; cbn [fst snd].
  - by apply walk_visit.
  - done.
  - by etrans.
  - apply (decrefed_ext _ _ ((V ≫= node_blocks t0) ++ blocks n)).
    { assert (node_blocks t0 l = blocks n) as E by (unfold node_blocks; by rewrite Hn).
      intros id. rewrite bind_cons, !elem_of_app, E. tauto. }
    eapply decrefed_app_disj; [|done|done]. intros id (m & Hid & Hm)%list_elem_of_bind Hid'.
    unfold node_blocks in Hid. destruct (nodes t0 !! m) as [k|] eqn:Hk'; [|by apply not_elem_of_nil in Hid].
    assert (m = l) as -> by (by eapply (st_disj _ _ St m l k n)).
    pose proof (wk_nodup _ _ _ W) as Hnd. apply NoDup_app in Hnd as (_ & Hd & _). apply (Hd l Hm). by left.
  - intros x. simpl. destruct (decide (x = l)) as [->|Hne].
    + rewrite lookup_delete_eq, decide_True by (by left). done.
    + rewrite lookup_delete_ne, lookup_insert_ne, D5 by done.
      by rewrite (decide_ext (x ∈ V) (x ∈ l :: V)) by (rewrite elem_of_cons; tauto).
Qed.

Lemma destroy_spec p t :
  tree_inv t → bs_ok p → store_inv (bs_view p) t →
  wp destroy (λ _ s, bs_ok s.1 ∧ bs_keeps p s.1 ∧ nodes s.2 = ∅ ∧
    decrefed (bs_view p) (bs_view s.1) (all_blocks t)) (p, t).
Proof.
  intros I Hok St. unfold destroy, get_tree. wp_steps. cbn [snd].
  eapply (wp_loop_ghost _ (λ V st s, destroying p t V st s) (λ V, S (size (nodes t)) - length V) _ _ []).
  - constructor; try done. by apply walk_start.
  - simpl. lia.
  - intros V stack [p1 t1] D. pose proof D as [W D2 D3 D4 D5]. simpl in *. unfold destroy_round.
    destruct stack as [|l stack].
    { wp_steps. cbn [fst snd].
      assert (∀ l, is_Some (nodes t !! l) → l ∈ V) as Hall by (intros l; by eapply walk_complete).
      split_and!; [done..| |].
      - apply map_empty. intros l. rewrite D5. case_decide as Hl; [done|].
        destruct (nodes t !! l) eqn:E; [|done]. destruct Hl. apply Hall. by eexists.
      - eapply decrefed_ext; [|done]. intros id. rewrite list_elem_of_bind. unfold all_blocks.
        rewrite elem_of_runs. unfold node_blocks. split.
        + intros (l & Hid & Hl). destruct (nodes t !! l) as [n|] eqn:E; [eauto|by apply not_elem_of_nil in Hid].
        + intros (l & n & Hl & Hid). exists l. rewrite Hl. split; [done|]. apply Hall. by eexists. }
    destruct (wk_nodes _ _ _ W l) as [n Hn]; [apply elem_of_app; right; by left|].
    pose proof (walk_bound _ _ _ W) as Hb. rewrite length_app in Hb. simpl in Hb.
    assert (l ∉ V) as HlV.
    { pose proof (wk_nodup _ _ _ W) as Hnd. apply NoDup_app in Hnd as (_ & Hd & _). intros Hx. apply (Hd l Hx). by left. }
    assert (∀ id, id ∈ blocks n → bs_view p1 id = bs_view p id) as Hsame.
    { intros id Hid. rewrite D4, decide_False; [done|]. intros (m & Hm & HmV)%list_elem_of_bind.
      unfold node_blocks in Hm. destruct (nodes t !! m) as [k|] eqn:Hk; [|by apply not_elem_of_nil in Hm].
      assert (m = l) as -> by (by eapply (st_disj _ _ St m l k n)). done. }
    wp_steps. eapply (wp_release_blocks l n); [done| | | |].
    + rewrite D5. by rewrite decide_False.
    + by eapply (st_nodup _ _ St).
    + intros id Hid. rewrite Hsame by done. by eapply (st_live _ _ St).
    + intros p' Hok' Hk' Hv'. wp_steps. eapply wp_node_at; [apply lookup_insert_eq|].
      unfold upd_tree. wp_steps. exists (l :: V). split; [|simpl; lia].
      by apply (destroying_visit p t V l n stack p1 p' t1).
Qed.
End destroy.
