(* ===== verification/RadixOps.v ===== *)
(** * Whole operations

    What an insert leaves behind on each of its branches, and what a pinned
    match is protected against: the lemmas the tree's contract is read off. *)

From S2P Require Import Prelude Types BlockPool PoolInv BlockStore RadixTree RadixInv RadixSplit RadixWalk RadixInsert RadixLru RadixEvict RadixPins RadixState RadixPath.

Local Open Scope nat_scope.

Section ops.
Context {P : Type} `{BlockStoreLaws P} `{Iter : IterOrder}.
Implicit Types (p : P) (t : RadixTree).

Lemma insert_len_le t q (table : list BlockId) :
  insert_len (block_tokens_ t) q table ≤ length (chunks (block_tokens_ t) q) ∧
  insert_len (block_tokens_ t) q table ≤ length table ∧
  insert_len (block_tokens_ t) q table ≤ length q.
Proof.
  rewrite length_chunks. unfold insert_len. split_and!; [lia..|].
  assert (length q / block_tokens_ t ≤ length q); [|lia].
  destruct (block_tokens_ t); [simpl; lia|]. by apply Nat.Div0.div_le_upper_bound; nia.
Qed.

Lemma outcome_inv p t q table r p' t' :
  tree_inv t → insert_outcome p t q table r p' t' → tree_inv t' ∧ block_tokens_ t' = block_tokens_ t.
Proof.
  intros I O. destruct O as [u k cur cn W _ Hcn|u k j c W|u k j cur cn p' ts bs W _ _ _ _ Ins];
    destruct (walks_inv k t u I W) as (Iu & E & _ & _).
  - split; [eapply tree_inv_struct; [by apply touch_struct|done]|done].
  - split; [|done]. by eapply (tree_inv_struct u).
  - split; [by eapply insert_inv|done].
Qed.

Lemma outcome_cached p t q table r p' t' :
  tree_inv t → insert_outcome p t q table r p' t' → 0 < r →
  cached t' (chunks (block_tokens_ t') q)
  = cached t (chunks (block_tokens_ t) q) ++
    drop (length (cached t (chunks (block_tokens_ t) q))) (take (insert_len (block_tokens_ t) q table) table).
Proof.
  intros I O Hr. destruct (outcome_inv _ _ _ _ _ _ _ I O) as [_ ->]. destruct (insert_len_le t q table) as (? & ? & _).
  destruct O as [| |u k j cur cn p' ts bs W Hk Hj Ej -> Ins _ _ _ Hf]; [lia..|]. subst j.
  by apply insert_cached_blocks.
Qed.

(** The collision counter is read by nobody. *)
Lemma collision_ok f t pins c : radix_ok f t pins → radix_ok f (upd_collisions c t) pins.
Proof.
  intros [I [S1 S2 S3] (css & Hc & Hn) C S]. constructor; [by eapply (tree_inv_struct t)|by constructor| |done|done].
  exists css. by constructor.
Qed.

Lemma insert_outcome_ok p t q table pins r p' t' :
  let L := insert_len (block_tokens_ t) q table in
  let j := length (cached t (query t q L)) in
  radix_ok (bs_view p) t pins → bs_ok p → (clock_ t + N.of_nat (length q) + 1 < two64)%N →
  NoDup table → (∀ id, id ∈ table → is_Some (bs_view p id)) →
  (∀ id, id ∈ drop j table → id ∉ all_blocks t) →
  insert_outcome p t q table r p' t' →
  bs_ok p' ∧ bs_keeps p p' ∧ radix_ok (bs_view p') t' pins ∧
  ((r = 0 ∧ p' = p ∧ (∀ ds, find t' ds = find t ds) ∧
      (j = L ∧ collisions_ t' = collisions_ t ∨
       j < L ∧ collisions_ t' = u64 (collisions_ t + 1) ∧
         ∃ c, c ≠ chunk_at (block_tokens_ t) j q ∧
           block_key c (block_tokens_ t) = block_key (drop (j * block_tokens_ t) q) (block_tokens_ t))) ∨
   (j < L ∧ r = L - j ∧ collisions_ t' = collisions_ t ∧
    increfed (bs_view p) (bs_view p') (drop j (take L table)) ∧
    ∀ ds, find t' ds = match find t ds with
                       | Some b => Some b
                       | None => if decide (ds ≠ [] ∧ ds `prefix_of` query t q L)
                                 then table !! pred (length ds) else None
                       end)).
Proof.
  intros L j R Hok Hc Hnd Hlive Hfresh O. destruct (insert_len_le t q table) as (_ & HLt & HLq). fold L in HLq, HLt.
  pose proof (rx_inv _ _ _ R) as I.
  destruct O as [u k cur cn W Hk Hcn Hfull|u k j' c W Hk Hj' Ej Hc1 Hc2|u k j' cur cn p' ts bs W Hk Hj' Ej -> Ins Hok' Hk' Hi Hf].
  - destruct (walks_state k t u W) as (Ecl & _); [unfold L in *; lia|].
    split_and!; [done|done|apply touch_ok; [done|unfold L in *; lia|eapply walks_ok; [done|unfold L in *; lia|done]]|].
    left. split_and!; try done; [|left; split; [done|by apply walks_collisions in W]].
    intros ds. rewrite (find_struct u) by (by apply touch_struct). by eapply walks_find.
  - assert (radix_ok (bs_view p) u pins) as Ru by (eapply walks_ok; [done|unfold L in *; lia|done]).
    split_and!; [done|done|by apply collision_ok|]. left. split_and!; try done.
    { intros ds. rewrite (find_struct u) by done. by eapply walks_find. }
    right. fold L in Ej, Hj'. fold j in Ej. subst j'. split_and!; [done| |].
    + simpl. by rewrite (walks_collisions _ _ _ W).
    + exists c. split; [done|]. by rewrite Hc2, block_key_chunk.
  - fold L in Ej, Hj', Ins, Hi, Hf |- *. fold j in Ej. subst j'.
    destruct (walks_state k t u W) as (Ecl & Eb & _); [lia|].
    split_and!; [done|done| |].
    + eapply insert_ok; [done| | |done|lia|eapply walks_ok; [done|lia|done]].
      * assert (drop j (take L table) `sublist_of` table) as Hsub
          by (etrans; [apply sublist_drop|apply sublist_take]). by eapply sublist_NoDup.
      * intros id Hid. rewrite skipn_firstn_comm in Hid.
        assert (id ∈ drop j table) as Hid'
          by (eapply elem_of_submseteq; [done|]; apply sublist_submseteq, sublist_take).
        rewrite Eb. split; [|by apply Hfresh]. apply Hlive.
        eapply elem_of_submseteq; [done|]. apply sublist_submseteq, sublist_drop.
    + right. split_and!; [done| |by apply walks_collisions in W|done|done].
      rewrite length_drop, length_take. lia.
Qed.

(** What an insert does to the nodes that were there: the tree adopts the
    blocks [A], and no path changes. *)
Lemma outcome_blocks p t q table r p' t' :
  tree_inv t → (clock_ t + N.of_nat (length q) + 1 < two64)%N → insert_outcome p t q table r p' t' →
  let L := insert_len (block_tokens_ t) q table in
  ∃ A, A = (if decide (r = 0) then [] else drop (length (cached t (query t q L))) (take L table)) ∧
    all_blocks t' ≡ₚ A ++ all_blocks t ∧ increfed (bs_view p) (bs_view p') A ∧
    (∀ l, same_path l t t') ∧ (clock_ t' <= clock_ t + N.of_nat (length q) + 1)%N.
Proof.
  intros I Hc O L. destruct (insert_len_le t q table) as (_ & _ & HLq). fold L in HLq.
  destruct O as [u k cur cn W Hk Hcn Hfull|u k j c W Hk Hj|u k j cur cn p' ts bs W Hk Hj Ej -> Ins Hok' Hk' Hi Hf];
    fold L in Hk || fold L in Hj; destruct (walks_state k t u W) as (Ecl & Eb & _); try lia.
  - exists []. rewrite decide_True by done. split_and!; [done| |done| |].
    + by rewrite (touch_blocks _ _ _ Hcn).
    + intros l. etrans; [by eapply walks_path|]. by apply struct_path, touch_struct.
    + simpl. rewrite u64_small; lia.
  - exists []. rewrite decide_True by done. split_and!; [done|exact Eb|done| |].
    + intros l. etrans; [by eapply walks_path|]. by apply struct_path.
    + simpl. lia.
  - fold L in Ej, Ins, Hi |- *. rewrite <-Ej. eexists. split; [done|].
    pose proof (in_pos _ _ _ _ _ Ins) as Hpos. rewrite decide_False.
    2: { intros E%nil_length_inv. done. }
    split_and!; [by rewrite (insert_blocks _ _ _ _ _ Ins), Eb|done| |].
    + intros l. etrans; [by eapply walks_path|]. by eapply insert_path.
    + simpl. rewrite u64_small; lia.
Qed.

(** Pinning the node a query is served from protects the whole of it. *)
Lemma lock_match_spec p u pins o cs :
  radix_ok (bs_view p) u pins → (N.of_nat (length pins) + 1 < two32)%N →
  holder u cs = default (root_ u) o →
  match o with None => True | Some l => ∃ ls, chain (nodes u) (root_ u) l (l :: ls) end →
  wp (lock o) (λ _ s, ∃ u' pins', s = (p, u') ∧ radix_ok (bs_view p) u' pins' ∧ same_struct u u' ∧
    ∀ D B v, evicted u' D B v → holder u' cs ∉ D) (p, u).
Proof.
  intros R Hp Hh Ho. destruct o as [l|]; simpl in Hh.
  - destruct Ho as [ls Hls]. apply (wp_lock p u l (l :: ls) _ Hls).
    pose proof (lock_pins u pins l (l :: ls) (rx_pins _ _ _ R) Hls Hp) as Hpins.
    pose proof (relock_struct inc_lock (l :: ls) u) as SS.
    exists (relock inc_lock (l :: ls) u), (l :: pins).
    split_and!; [done|by eapply relock_ok|done|].
    intros D B v Ev. destruct Hpins as (css & Hcss).
    assert (holder (relock inc_lock (l :: ls) u) cs = l) as ->
      by (unfold holder in *; by rewrite (ss_root _ _ SS), (follow_struct _ _ _ _ SS)).
    pose proof (pn_chains _ _ _ Hcss) as Hc. apply Forall2_cons_inv_l in Hc as (ls' & css' & Hl & _ & ->).
    destruct (chain_head _ _ _ _ Hl) as [tl ->].
    { apply (chain_nodes _ _ _ _ l Hls). by left. }
    eapply evicted_unpinned; [done|done|by left|by left].
  - unfold lock, get_tree. wp_steps. cbn. wp_steps. exists u, pins. split_and!; [done..|].
    intros D B v Ev Hin. rewrite Hh in Hin. by destruct (ev_gone _ _ _ _ Ev _ Hin).
Qed.
End ops.
