(* ===== verification/RadixSpec.v ===== *)
(** * What the prefix tree promises

    The contract of src/radix_tree.cpp over any block store: each method, run
    between two calls, finishes without a failure and does to the cache
    ([find]), to the references and to the pins what it is meant to. *)

From S2P Require Import Prelude Types Tier BlockPool PoolInv PoolOps PoolInit PoolSpec BlockStore RadixTree RadixInv RadixSplit RadixWalk RadixInsert RadixLru RadixEvict RadixDemote RadixPins RadixState RadixDestroy RadixOps.

Local Open Scope nat_scope.

Section spec.
Context {P : Type} `{BlockStoreLaws P} `{Iter : IterOrder}.
Implicit Types (p : P) (t : RadixTree).

(** A new tree is well formed, pins nothing and caches nothing; a block
    size of zero is refused. *)
Theorem tree_make bt (f : BlockId → option BlockView) :
  match make_tree bt with
  | Ok t => 0 < bt ∧ block_tokens_ t = bt ∧ radix_ok f t [] ∧ ∀ cs, find t cs = None
  | Err e => bt = 0 ∧ e = AssertFailed "block_tokens_ > 0"
  end.
Proof.
  unfold make_tree. destruct (Nat.ltb_spec 0 bt) as [Hbt|]; [|split; [lia|done]].
  split_and!; [done|done| |by apply new_find].
  by apply new_ok.
Qed.

(** C22: splitting a node at a block boundary changes nothing the tree caches,
    keeps every invariant and the node's address: it now names the deeper
    half, and the new node above it the shallower one. *)
Theorem tree_split_node p t f pins node n par pn k :
  radix_ok f t pins → splittable t node n par pn k →
  wp (split_node node (k * block_tokens_ t)) (λ head s, ∃ u, s = (p, u) ∧
    tree_inv u ∧ store_inv f u ∧ pins_inv u pins ∧ counts u ∧ (∀ cs, find u cs = find t cs) ∧
    ∃ hn tn, nodes u !! head = Some hn ∧ nodes u !! node = Some tn ∧ parent tn = Some head ∧
      blocks hn ++ blocks tn = blocks n ∧ tokens hn ++ tokens tn = tokens n ∧ length (blocks hn) = k ∧
      lock_count hn = lock_count n ∧ lock_count tn = lock_count n ∧ children tn = children n) (p, t).
Proof.
  intros [I St Pn C S] Sp. apply (wp_split_node t node n par pn k Sp).
  exists (split_tree t node n par pn k). split; [done|]. split_and!.
  - by eapply split_inv.
  - eapply store_inv_perm; [by eapply split_blocks|done].
  - by apply split_pins.
  - by apply split_counts.
  - intros cs. by apply split_find.
  - eexists _, _. split; [by apply split_lookup_head|]. split; [by apply split_lookup_node|].
    cbn [blocks tokens parent lock_count children set_run].
    split_and!; try done; [by rewrite take_drop..|]. rewrite length_take. pose proof (sp_lt _ _ _ _ _ _ Sp). lia.
Qed.

(** C18: [match_prefix] returns the longest cached prefix of the query: block
    by block what [find] gives, up to the first prefix that is not cached. The
    node it returns ends exactly there (its path from the root spells the
    matched tokens and blocks), and the cache, the pool and the pins are as
    they were. *)
Theorem tree_match_prefix p t q pins :
  radix_ok (bs_view p) t pins → (clock_ t + N.of_nat (length q) < two64)%N →
  wp (match_prefix q) (λ r s, ∃ u, s = (p, u) ∧ radix_ok (bs_view p) u pins ∧
    (∀ cs, find u cs = find t cs) ∧
    (let cs := chunks (block_tokens_ t) q in
     mr_num_tokens r = length (mr_blocks r) * block_tokens_ t ∧
     (∀ i, i < length (mr_blocks r) → mr_blocks r !! i = find t (take (S i) cs)) ∧
     (length (mr_blocks r) < length cs → find t (take (S (length (mr_blocks r))) cs) = None)) ∧
    match mr_node r with
    | None => mr_blocks r = []
    | Some l => l ≠ root_ u ∧ ∃ ls, chain (nodes u) (root_ u) l (l :: ls) ∧
        path_blocks u (l :: ls) = mr_blocks r ∧ path_tokens u (l :: ls) = take (mr_num_tokens r) q
    end) (p, t).
Proof.
  intros R Hc. eapply wp_mono; [by apply match_prefix_spec, R|].
  intros r s (u & k & -> & W & Hk & Hb & Hn & _ & Hnode). pose proof (match_touches t q r k Hb Hk) as Hk'.
  exists u. cbv zeta. split_and!; try done.
  - eapply walks_ok; [done|lia|done].
  - intros cs. by eapply walks_find; [apply R|].
  - intros i Hi. rewrite Hb, cached_find, decide_True; [done|].
    rewrite Hb in Hi. unfold cached in Hi. pose proof (follow_length t (root_ t, 0) (chunks (block_tokens_ t) q)). lia.
  - intros Hlt. rewrite <-(decide_True (P := length (mr_blocks r) < length (chunks (block_tokens_ t) q)) _ None) by done.
    rewrite <-cached_find, <-Hb. by apply lookup_ge_None.
Qed.

(** C19: [insert] publishes a sequence. Of the [L] whole blocks it considers,
    the [j] that are cached already keep their blocks. If that is all of them,
    or if the next block's key is taken by a block with other tokens (a hash
    collision, which is counted), the pool and the cache stay as they are and
    the result is 0. Otherwise the tree takes one reference for each of the
    other [L - j] blocks of the table, and afterwards caches exactly what it
    cached before and every prefix of the sequence, under the table's blocks. *)
Theorem tree_insert p t q table pins :
  let L := insert_len (block_tokens_ t) q table in
  let j := length (cached t (query t q L)) in
  radix_ok (bs_view p) t pins → bs_ok p → (clock_ t + N.of_nat (length q) + 1 < two64)%N →
  (N.of_nat (length table) * N.of_nat (block_tokens_ t) < two64)%N →
  NoDup table → (∀ id, id ∈ table → ∃ v, bs_view p id = Some v ∧ (bv_refs v + 1 < two32)%N) →
  (∀ id, id ∈ drop j table → id ∉ all_blocks t) →
  wp (insert q table) (λ r s, bs_ok s.1 ∧ bs_keeps p s.1 ∧ radix_ok (bs_view s.1) s.2 pins ∧
    ((r = 0 ∧ s.1 = p ∧ (∀ ds, find s.2 ds = find t ds) ∧
        (j = L ∧ collisions_ s.2 = collisions_ t ∨
         j < L ∧ collisions_ s.2 = u64 (collisions_ t + 1) ∧
           ∃ c, c ≠ chunk_at (block_tokens_ t) j q ∧
             block_key c (block_tokens_ t) = block_key (drop (j * block_tokens_ t) q) (block_tokens_ t))) ∨
     (j < L ∧ r = L - j ∧ collisions_ s.2 = collisions_ t ∧
      increfed (bs_view p) (bs_view s.1) (drop j (take L table)) ∧
      ∀ ds, find s.2 ds = match find t ds with
                          | Some b => Some b
                          | None => if decide (ds ≠ [] ∧ ds `prefix_of` query t q L)
                                    then table !! pred (length ds) else None
                          end))) (p, t).
Proof.
  intros L j R Hok Hc Hw Hnd Hlive Hfresh. eapply wp_mono; [by apply insert_spec; [apply R|..]|].
  intros r [p' t'] O. simpl in O |- *. eapply insert_outcome_ok; try done.
  intros id Hid. destruct (Hlive id Hid) as (v & Hv & _). by eexists.
Qed.

(** C23: what was inserted is what is matched: after an insert that adopted
    blocks, [match_prefix] of the same sequence returns the blocks that were
    cached before followed by the adopted ones. *)
Theorem tree_insert_then_match p t q table pins :
  let L := insert_len (block_tokens_ t) q table in
  let c := cached t (chunks (block_tokens_ t) q) in
  radix_ok (bs_view p) t pins → bs_ok p → (clock_ t + 2 * N.of_nat (length q) + 1 < two64)%N →
  (N.of_nat (length table) * N.of_nat (block_tokens_ t) < two64)%N →
  NoDup table → (∀ id, id ∈ table → ∃ v, bs_view p id = Some v ∧ (bv_refs v + 1 < two32)%N) →
  wp (n ← insert q table; r ← match_prefix q; mret (n, r)) (λ nr s,
    0 < nr.1 → mr_blocks nr.2 = c ++ drop (length c) (take L table)) (p, t).
Proof.
  intros L c R Hok Hc Hw Hnd Hlive. wp_steps. eapply wp_mono; [by apply insert_spec; [apply R|..]|].
  intros r [p' t'] O. simpl in O. wp_steps.
  eapply wp_mono; [apply match_prefix_spec; by eapply outcome_inv; [apply R|]|].
  intros m s (u & k & -> & W & _ & Hb & _). wp_steps. simpl. intros Hr.
  rewrite Hb. by eapply outcome_cached; [apply R|..].
Qed.

(** C35: the leaf [find_lru_leaf] chooses does not depend on the order in which
    the hash maps are iterated: it is the unpinned leaf, not rejected, with
    the oldest access. Neither the tree nor the pool changes. *)
Theorem tree_find_lru_leaf p t pins rejected :
  radix_ok (bs_view p) t pins →
  ∃ r, is_lru t rejected r ∧ ∀ It : IterOrder, @find_lru_leaf P It rejected (p, t) = Ok (r, (p, t)).
Proof.
  intros [I _ _ _ [_ Hd]].
  assert (∀ It : IterOrder, ∃ r, is_lru t rejected r ∧
    @find_lru_leaf P It rejected (p, t) = Ok (r, (p, t))) as Hrun.
  { intros It. pose proof (find_lru_leaf_spec (Iter := It) p t I rejected) as Hwp. unfold wp in Hwp.
    destruct (find_lru_leaf rejected (p, t)) as [[r s]|]; [|done]. destruct Hwp as [-> Hr]. eauto. }
  destruct (Hrun Iter) as (r & Hr & _). exists r. split; [done|]. intros It.
  destruct (Hrun It) as (r' & Hr' & ->). by rewrite (is_lru_unique t rejected r r').
Qed.

(** C20: [evict] drops unpinned leaves only, and only those whose blocks nobody
    else holds: it frees exactly the blocks [B] of the dropped nodes [D], as
    many as it reports, leaves every other block as it was, and forgets
    exactly what was served from the dropped nodes. When it frees fewer than
    asked, each unpinned leaf left has a block that is in use elsewhere. *)
Theorem tree_evict p t k pins :
  radix_ok (bs_view p) t pins → bs_ok p →
  wp (evict k) (λ r s, bs_ok s.1 ∧ bs_keeps p s.1 ∧ radix_ok (bs_view s.1) s.2 pins ∧
    ∃ (D : list NodePtr) B, r = length B ∧ all_blocks t ≡ₚ B ++ all_blocks s.2 ∧
      (∀ id, id ∈ B → sole (bs_view p) id) ∧
      (∀ id, bs_view s.1 id = if decide (id ∈ B) then None else bs_view p id) ∧
      (∀ l, l ∈ D → l ≠ root_ t ∧ ∃ n, nodes t !! l = Some n ∧ lock_count n = 0%N) ∧
      (∀ cs, find s.2 cs = if decide (holder t cs ∈ D) then None else find t cs) ∧
      (r < k → nothing_left s.1 s.2)) (p, t).
Proof.
  intros R Hok. eapply wp_mono; [by apply evict_spec; [apply R|done|apply R]|].
  intros r [p' t'] (D & B & rej & E & Hleft). pose proof E as [E1 E2 E3 E4 E5 E6 E7 _ _]. simpl in *.
  pose proof (evicts_evicted _ _ _ _ (rx_inv _ _ _ R) E1) as Ev.
  split_and!; [done|done|by eapply evicts_ok|]. exists D, B. split_and!; try done.
  - by apply (evicts_state _ _ _ _ E1).
  - intros id. rewrite E4. case_decide as Hid; [by apply dec_view_sole, E6|done].
  - apply Ev.
  - apply Ev.
Qed.

(** C21: a pinned match survives: lock the node a match returned, evict as much
    as you like, and the same query still matches the same blocks. *)
Theorem tree_pin_survives_eviction p t q k pins :
  radix_ok (bs_view p) t pins → bs_ok p → (clock_ t + N.of_nat (length q) < two64)%N →
  (N.of_nat (length pins) + 1 < two32)%N →
  wp (r ← match_prefix q; lock (mr_node r) ;; _ ← evict k; r' ← match_prefix q; mret (r, r'))
    (λ rr _, mr_blocks rr.2 = mr_blocks rr.1 ∧ mr_num_tokens rr.2 = mr_num_tokens rr.1) (p, t).
Proof.
  intros R Hok Hc Hp. wp_steps. eapply wp_mono; [by apply match_prefix_spec, R|].
  intros r s (u & j & -> & W & Hj & Hb & Hn & Hh & Hnode). pose proof (match_touches t q r j Hb Hj) as Hj'.
  assert (radix_ok (bs_view p) u pins) as Ru by (eapply walks_ok; [done|lia|done]).
  destruct (walks_inv j t u (rx_inv _ _ _ R) W) as (_ & Ebt & Er & Ec).
  wp_steps. eapply wp_mono.
  { apply (lock_match_spec p u pins (mr_node r) (chunks (block_tokens_ t) q)); [done|done|by rewrite Hh, Er|].
    destruct (mr_node r); [|done]. destruct Hnode as (_ & ls & Hls & _). eauto. }
  intros [] s (u2 & pins2 & -> & R2 & SS & Hpin). wp_steps.
  eapply wp_mono; [by apply evict_spec; [apply R2|done|apply R2]|].
  intros fr [p3 t3] (D & B & rej & E & _). wp_steps. simpl in E.
  pose proof (evicts_evicted _ _ _ _ (rx_inv _ _ _ R2) (ei_drops _ _ _ _ _ _ E)) as Ev.
  eapply wp_mono; [apply match_prefix_spec, Ev|].
  intros r' s (u4 & j4 & -> & _ & _ & Hb' & Hn' & _). wp_steps. simpl in *.
  assert (block_tokens_ t3 = block_tokens_ t) as Ebt3 by (rewrite (ev_bt _ _ _ _ Ev), (ss_bt _ _ SS); done).
  assert (mr_blocks r' = mr_blocks r) as Eb.
  { rewrite Hb', Hb, Ebt3, <-Ec, <-(cached_struct _ _ _ SS). unfold cached.
    rewrite (ev_root _ _ _ _ Ev), (ev_follow _ _ _ _ Ev); [done|]. by apply (Hpin D B t3). }
  split; [done|]. by rewrite Hn', Hn, Eb, Ebt3.
Qed.

(** [lock] pins the path from a node to the root: it adds one pin and
    changes nothing else, and [unlock] of the same node restores the tree
    exactly. *)
Theorem tree_lock p t l pins :
  radix_ok (bs_view p) t pins → is_Some (nodes t !! l) → (N.of_nat (length pins) + 1 < two32)%N →
  wp (lock (Some l)) (λ _ s, ∃ u, s = (p, u) ∧ radix_ok (bs_view p) u (l :: pins) ∧ same_struct t u ∧
    unlock (Some l) (p, u) = Ok ((), (p, t))) (p, t).
Proof.
  intros R Hl Hp. destruct (ti_chain _ (rx_inv _ _ _ R) l Hl) as [ls Hls].
  pose proof (lock_pins t pins l ls (rx_pins _ _ _ R) Hls Hp) as Hpins.
  pose proof (relock_undo t pins l ls (rx_pins _ _ _ R) Hls Hp) as Hundo.
  apply (wp_lock p t l ls _ Hls). exists (relock inc_lock ls t).
  split_and!; [done|by eapply relock_ok|apply relock_struct|].
  assert (chain (nodes (relock inc_lock ls t)) (root_ t) l ls) as Hls' by (by apply relock_chain).
  apply wp_exact, (wp_unlock p _ l ls); [done|by apply (unlock_pins _ pins l ls Hpins)|]. by rewrite Hundo.
Qed.

(** [unlock] of a pinned node never trips its assertion, removes that pin
    and changes nothing else; of a node through which no pin goes it fails
    the assertion. *)
Theorem tree_unlock p t l pins :
  radix_ok (bs_view p) t pins →
  (∀ pins', pins ≡ₚ l :: pins' →
     wp (unlock (Some l)) (λ _ s, ∃ u, s = (p, u) ∧ radix_ok (bs_view p) u pins' ∧ same_struct t u) (p, t)) ∧
  (∀ n, nodes t !! l = Some n → l ≠ root_ t → lock_count n = 0%N →
     unlock (Some l) (p, t) = Err (AssertFailed "unbalanced unlock")).
Proof.
  intros R. split.
  - intros pins' Hp. pose proof (pins_inv_perm t _ _ Hp (rx_pins _ _ _ R)) as Hpins.
    destruct Hpins as (css & Hcss). pose proof (pn_chains _ _ _ Hcss) as Hc.
    apply Forall2_cons_inv_l in Hc as (ls & css' & Hls & _ & _).
    destruct (unlock_pins t pins' l ls (ex_intro _ css Hcss) Hls) as [Hpos Hpins'].
    apply (wp_unlock p t l ls _ Hls Hpos). exists (relock N.pred ls t).
    split_and!; [done|by eapply relock_ok|apply relock_struct].
  - intros n Hn Hr Hz. unfold unlock, get_tree, gets, mbind, M_bind. simpl. unfold mbind, M_bind, unlock_round.
    unfold get_tree, gets, mbind, M_bind. simpl. rewrite (proj2 (N.eqb_neq _ _) Hr).
    unfold node_at, get_tree, gets, mbind, M_bind. simpl. rewrite Hn. simpl. by rewrite Hz.
Qed.

(** C36: [pick_demotion_victims] appends at most [k] blocks and changes nothing:
    the blocks on the fast tier that only the tree holds and that are not
    moving, of the unpinned leaves in the order of their last access. When it
    finds fewer than [k], there are no others. *)
Theorem tree_pick_demotion_victims p t k out pins :
  radix_ok (bs_view p) t pins → bs_ok p →
  wp (pick_demotion_victims k out) (λ r s, s = (p, t) ∧ ∃ picks, r = (length picks, out ++ picks) ∧
    length picks ≤ k ∧ NoDup picks ∧
    (∀ id, id ∈ picks → ∃ l n v, nodes t !! l = Some n ∧ l ≠ root_ t ∧ children n = ∅ ∧
       lock_count n = 0%N ∧ id ∈ blocks n ∧ bs_view p id = Some v ∧ demotable v) ∧
    (length picks < k → ∀ id l n v, nodes t !! l = Some n → l ≠ root_ t → children n = ∅ →
       lock_count n = 0%N → id ∈ blocks n → bs_view p id = Some v → demotable v → id ∈ picks) ∧
    ∃ vs, lru_order t vs ∧ picks = take k (candidates p t vs)) (p, t).
Proof.
  intros R Hok. eapply wp_mono; [by apply pick_demotion_victims_spec; [apply R|done|apply R]|].
  intros r s (-> & vs & Hvs & -> & Hnone). split; [done|]. exists (take k (candidates p t vs)).
  split_and!; [done|rewrite length_take; lia| | | |eauto].
  - eapply sublist_NoDup; [by apply candidates_nodup, Hvs; apply (rx_store _ _ _ R)|apply sublist_take].
  - intros id Hid. apply (candidates_elem p t vs id Hvs).
    eapply elem_of_submseteq; [done|]. apply sublist_submseteq, sublist_take.
  - intros Hlt id l n v Hl Hr Hc Hk Hid Hv Hd. rewrite length_take in Hlt.
    rewrite firstn_all2 by lia. apply (candidates_intro p t vs id l n v); try done.
    destruct (decide (l ∈ vs)) as [|Hn]; [done|]. exfalso.
    pose proof (Hnone ltac:(lia) l n Hl) as Hcand.
    by rewrite (proj2 (candidate_spec t vs l n)) in Hcand.
Qed.

(** C37: the destructor gives back exactly one reference for each block the
    tree holds, touches no other block, and leaves no node behind. *)
Theorem tree_destroy p t pins :
  radix_ok (bs_view p) t pins → bs_ok p →
  wp destroy (λ _ s, bs_ok s.1 ∧ bs_keeps p s.1 ∧ nodes s.2 = ∅ ∧
    decrefed (bs_view p) (bs_view s.1) (all_blocks t) ∧ NoDup (all_blocks t)) (p, t).
Proof.
  intros R Hok. eapply wp_mono; [by apply destroy_spec; [apply R|done|apply R]|].
  intros [] s (H1 & H2 & H3 & H4). split_and!; try done. eapply store_inv_runs, R.
Qed.
End spec.

(** ** A concrete tree: two blocks of two tokens on the example pool *)

Module ExampleTree.
#[local] Instance iter0 : IterOrder := {| iter := map_to_list; iter_perm m := reflexivity _ |}.

Abbreviation Pool := (BlockPool HostTier.t).

Definition run {A} (m : M (Pool * RadixTree) A) (s : Pool * RadixTree) : Pool * RadixTree :=
  match m s with Ok (_, s') => s' | Err _ => s end.

Definition t0 : RadixTree := mk_tree 2 {[0%N := empty_node]} 0 0 0 0 0 1.
Definition q : list TokenId := [1; 2; 3; 4]%Z.
(** The blocks 0 and 1 published for the four tokens of [q]. *)
Definition s1 : Pool * RadixTree := run (insert q [0; 1]%N) (Example2.p2, t0).
(** Their owner has let go of them. *)
Definition s2 : Pool * RadixTree :=
  run (_ ← on_pool (bs_decref 0%N); _ ← on_pool (bs_decref 1%N); mret ()) s1.

Lemma table_live id :
  id ∈ [0; 1]%N → ∃ v, bs_view Example2.p2 id = Some v ∧ (bv_refs v + 1 < two32)%N.
Proof.
  intros [->|[->|[]%not_elem_of_nil]%elem_of_cons]%elem_of_cons;
    (exists Example2.v0; split; [vm_compute; reflexivity|done]).
Qed.

Lemma table_nodup : NoDup [0; 1]%N.
Proof. apply NoDup_cons; split; [|apply NoDup_singleton]. by intros ?%list_elem_of_singleton. Qed.

Lemma t0_ok f : radix_ok f t0 [].
Proof. apply new_ok. lia. Qed.

Lemma t0_blocks : all_blocks t0 = [].
Proof. vm_compute. reflexivity. Qed.

Lemma s1_ok : bs_ok s1.1 ∧ radix_ok (bs_view s1.1) s1.2 [].
Proof.
  assert (insert q [0; 1]%N (Example2.p2, t0) = Ok (2, s1)) as E by (vm_compute; reflexivity).
  eapply wp_run in E; [|apply insert_spec; [apply (t0_ok (λ _, None))|apply Example2.p2_running|done|apply table_nodup|apply table_live]].
  cbv beta in E. eapply insert_outcome_ok in E as (H1 & _ & H3 & _); [by split|apply t0_ok|apply Example2.p2_running|done|apply table_nodup| |].
  - intros id (v & Hv & _)%table_live. by eexists.
  - intros id _. rewrite t0_blocks. apply not_elem_of_nil.
Qed.

Lemma s2_tree : s2.2 = s1.2.
Proof. vm_compute. reflexivity. Qed.
Lemma s2_blocks : all_blocks s2.2 = [0; 1]%N.
Proof. vm_compute. reflexivity. Qed.
Lemma s2_view id : id ∈ [0; 1]%N → bs_view s2.1 id = Some Example2.v0.
Proof.
  intros [->|[->|[]%not_elem_of_nil]%elem_of_cons]%elem_of_cons; vm_compute; reflexivity.
Qed.

Lemma decref_ok (p p' : Pool) id v b : bs_ok p → bs_view p id = Some v → bs_decref id p = Ok (b, p') → bs_ok p'.
Proof. intros Hok Hv E. pose proof (wp_run _ _ _ _ _ (bs_decref_law p id v Hok Hv) E) as [? _]. done. Qed.

Lemma s2_pool : bs_ok s2.1.
Proof.
  destruct s1_ok as [H1 _]. set (v := {| bv_refs := 2; bv_tier := 0; bv_target := None |}%N).
  assert (∃ p, bs_decref 0%N s1.1 = Ok (false, p) ∧ bs_view p 1%N = Some v ∧ bs_decref 1%N p = Ok (false, s2.1))
    as (p & E1 & Hv & E2) by (eexists; split_and!; vm_compute; reflexivity).
  apply (decref_ok p s2.1 1%N v false); [|done|done].
  apply (decref_ok s1.1 p 0%N v false); [done| |done]. vm_compute. reflexivity.
Qed.

Lemma s2_ok : radix_ok (bs_view s2.1) s2.2 [].
Proof.
  pose proof (proj2 s1_ok) as R. rewrite <-s2_tree in R. destruct R as [I St Pn C S].
  constructor; [exact I| |exact Pn|exact C|exact S].
  apply store_inv_runs. apply store_inv_runs in St as [Hnd _]. split; [done|].
  intros id. rewrite s2_blocks. intros Hid. rewrite s2_view by done. by eexists.
Qed.

Lemma s2_state : s2 = (s2.1, s2.2).
Proof. by destruct s2. Qed.

(** The two blocks of [q]. *)
Definition cs : list (list TokenId) := [[1; 2]; [3; 4]]%Z.
Definition n1 : Node := {| tokens := q; blocks := [0; 1]%N; children := ∅; parent := Some 0%N;
  lock_count := 0; last_access := 1 |}.
Definition rn : Node := {| tokens := []; blocks := []; children := {[block_key q 2 := 1%N]}; parent := None;
  lock_count := 0; last_access := 0 |}.

Lemma tree_split_node_witness :
  wp (split_node 1%N 2) (λ head s, find s.2 cs = Some 1%N ∧ pins_inv s.2 []) s2.
Proof.
  rewrite s2_state.
  eapply wp_mono; [apply (tree_split_node s2.1 s2.2 (bs_view s2.1) [] 1%N n1 0%N rn 1); [apply s2_ok|]|].
  - constructor; [apply s2_ok|vm_compute; reflexivity..|vm_compute; discriminate|lia|vm_compute; lia].
  - intros head s (u & -> & _ & _ & Hp & _ & Hf & _). simpl. rewrite Hf. split; [vm_compute; reflexivity|exact Hp].
Defined.

Lemma tree_match_prefix_witness :
  wp (match_prefix q) (λ r s, mr_num_tokens r = length (mr_blocks r) * 2 ∧ find s.2 cs = Some 1%N) s2.
Proof.
  rewrite s2_state. eapply wp_mono; [apply (tree_match_prefix s2.1 s2.2 q []); [apply s2_ok|vm_compute; reflexivity]|].
  intros r s (u & -> & _ & Hf & (Hn & _) & _). split; [exact Hn|]. simpl. rewrite Hf. vm_compute. reflexivity.
Defined.

Lemma tree_insert_witness :
  wp (insert q [0; 1]%N) (λ r s, radix_ok (bs_view s.1) s.2 []) (Example2.p2, t0).
Proof.
  eapply wp_mono; [apply (tree_insert Example2.p2 t0 q [0; 1]%N [])|].
  - apply t0_ok.
  - apply Example2.p2_running.
  - vm_compute. reflexivity.
  - vm_compute. reflexivity.
  - apply table_nodup.
  - apply table_live.
  - intros id _. rewrite t0_blocks. apply not_elem_of_nil.
  - intros r s (_ & _ & R & _). exact R.
Defined.

Lemma tree_insert_then_match_witness :
  wp (n ← insert q [0; 1]%N; r ← match_prefix q; mret (n, r))
    (λ nr s, 0 < nr.1 → mr_blocks nr.2 = [0; 1]%N) (Example2.p2, t0).
Proof.
  eapply wp_mono; [apply (tree_insert_then_match Example2.p2 t0 q [0; 1]%N [])|].
  - apply t0_ok.
  - apply Example2.p2_running.
  - vm_compute. reflexivity.
  - vm_compute. reflexivity.
  - apply table_nodup.
  - apply table_live.
  - intros nr s Hr Hpos. rewrite (Hr Hpos). vm_compute. reflexivity.
Defined.

Lemma tree_find_lru_leaf_witness :
  ∃ r, is_lru s2.2 [] r ∧ find_lru_leaf [] (s2.1, s2.2) = Ok (r, (s2.1, s2.2)).
Proof.
  destruct (tree_find_lru_leaf s2.1 s2.2 [] [] s2_ok) as (r & Hr & Hrun). exists r.
  split; [exact Hr|]. apply (Hrun iter0).
Defined.

Lemma tree_evict_witness : wp (evict 1) (λ r s, radix_ok (bs_view s.1) s.2 []) s2.
Proof.
  rewrite s2_state. eapply wp_mono; [apply (tree_evict s2.1 s2.2 1 []); [apply s2_ok|apply s2_pool]|].
  intros r s (_ & _ & R & _). exact R.
Defined.

Lemma tree_pin_survives_eviction_witness :
  wp (r ← match_prefix q; lock (mr_node r) ;; _ ← evict 2; r' ← match_prefix q; mret (r, r'))
    (λ rr _, mr_blocks rr.2 = mr_blocks rr.1) s2.
Proof.
  rewrite s2_state. eapply wp_mono; [apply (tree_pin_survives_eviction s2.1 s2.2 q 2 [])|].
  - apply s2_ok.
  - apply s2_pool.
  - vm_compute. reflexivity.
  - vm_compute. reflexivity.
  - intros rr s [Hb _]. exact Hb.
Defined.

Lemma tree_lock_witness : wp (lock (Some 1%N)) (λ _ s, radix_ok (bs_view s.1) s.2 [1%N]) s2.
Proof.
  rewrite s2_state.
  eapply wp_mono; [apply (tree_lock s2.1 s2.2 1%N []); [apply s2_ok|exists n1; vm_compute; reflexivity|vm_compute; reflexivity]|].
  intros [] s (u & -> & R & _). cbn [fst snd]. exact R.
Defined.

Lemma tree_unlock_witness : unlock (Some 1%N) (s2.1, s2.2) = Err (AssertFailed "unbalanced unlock").
Proof.
  apply (tree_unlock s2.1 s2.2 1%N [] s2_ok) with n1; [vm_compute; reflexivity|vm_compute; discriminate|reflexivity].
Defined.

Lemma tree_pick_demotion_victims_witness : wp (pick_demotion_victims 1 []) (λ r s, r.1 ≤ 1) s2.
Proof.
  rewrite s2_state. eapply wp_mono; [apply (tree_pick_demotion_victims s2.1 s2.2 1 [] []); [apply s2_ok|apply s2_pool]|].
  intros r s (_ & picks & -> & Hl & _). exact Hl.
Defined.

Lemma tree_destroy_witness : wp destroy (λ _ s, nodes s.2 = ∅ ∧ bs_view s.1 0%N = None) s2.
Proof.
  rewrite s2_state. eapply wp_mono; [apply (tree_destroy s2.1 s2.2 []); [apply s2_ok|apply s2_pool]|].
  intros [] s (_ & _ & Hn & Hd & _). split; [exact Hn|]. rewrite (Hd 0%N). vm_compute. reflexivity.
Defined.
End ExampleTree.
