(* ===== verification/CacheManager.v ===== *)
(** * The cache manager

    include/kvslab/cache_manager.hpp and src/cache_manager.cpp: one pool, one
    prefix tree over it, and the handles ([Allocation]) that requests hold
    between [acquire] and [release]. A handle is a value here; the operations
    that take one by reference return it as they leave it. *)

From S2P Require Import Prelude Double Types Tier BlockPool BlockStore RadixTree.

Local Open Scope nat_scope.

Record Allocation := {
  ok : bool;
  cached_tokens : nat;
  cached_blocks : nat;
  table : list BlockId;
  pinned : option NodePtr;
  owner_ : bool;
}.

(** A default-constructed handle. *)
Definition empty_alloc : Allocation := {|
  ok := false; cached_tokens := 0; cached_blocks := 0; table := []; pinned := None; owner_ := false |}.

Record Stats := mk_stats {
  requests : N;
  served : N;
  total_tokens : N;
  hit_tokens : N;
  evicted_blocks : N;
  demoted_blocks : N;
  background_demotions : N;
  promoted_blocks : N;
  alloc_failures : N;
  abandoned : N;
}.

Definition inc (x : N) : N := u64 (x + 1).
Definition bump_requests (s : Stats) : Stats :=
  mk_stats (inc (requests s)) (served s) (total_tokens s) (hit_tokens s) (evicted_blocks s)
    (demoted_blocks s) (background_demotions s) (promoted_blocks s) (alloc_failures s) (abandoned s).
Definition bump_served (s : Stats) : Stats :=
  mk_stats (requests s) (inc (served s)) (total_tokens s) (hit_tokens s) (evicted_blocks s)
    (demoted_blocks s) (background_demotions s) (promoted_blocks s) (alloc_failures s) (abandoned s).
Definition add_tokens (total hit : nat) (s : Stats) : Stats :=
  mk_stats (requests s) (served s) (u64 (total_tokens s + N.of_nat total)) (u64 (hit_tokens s + N.of_nat hit))
    (evicted_blocks s) (demoted_blocks s) (background_demotions s) (promoted_blocks s) (alloc_failures s)
    (abandoned s).
Definition add_evicted (k : nat) (s : Stats) : Stats :=
  mk_stats (requests s) (served s) (total_tokens s) (hit_tokens s) (u64 (evicted_blocks s + N.of_nat k))
    (demoted_blocks s) (background_demotions s) (promoted_blocks s) (alloc_failures s) (abandoned s).
Definition bump_demoted (s : Stats) : Stats :=
  mk_stats (requests s) (served s) (total_tokens s) (hit_tokens s) (evicted_blocks s)
    (inc (demoted_blocks s)) (background_demotions s) (promoted_blocks s) (alloc_failures s) (abandoned s).
Definition bump_background (s : Stats) : Stats :=
  mk_stats (requests s) (served s) (total_tokens s) (hit_tokens s) (evicted_blocks s)
    (demoted_blocks s) (inc (background_demotions s)) (promoted_blocks s) (alloc_failures s) (abandoned s).
Definition bump_promoted (s : Stats) : Stats :=
  mk_stats (requests s) (served s) (total_tokens s) (hit_tokens s) (evicted_blocks s)
    (demoted_blocks s) (background_demotions s) (inc (promoted_blocks s)) (alloc_failures s) (abandoned s).
Definition bump_failures (s : Stats) : Stats :=
  mk_stats (requests s) (served s) (total_tokens s) (hit_tokens s) (evicted_blocks s)
    (demoted_blocks s) (background_demotions s) (promoted_blocks s) (inc (alloc_failures s)) (abandoned s).
Definition bump_abandoned (s : Stats) : Stats :=
  mk_stats (requests s) (served s) (total_tokens s) (hit_tokens s) (evicted_blocks s)
    (demoted_blocks s) (background_demotions s) (promoted_blocks s) (alloc_failures s) (inc (abandoned s)).

Definition zero_stats : Stats := mk_stats 0 0 0 0 0 0 0 0 0 0.

(** [Stats::hit_rate()] *)
Definition hit_rate (s : Stats) : double :=
  if (total_tokens s =? 0)%N then dzero else ddiv (of_u64 (hit_tokens s)) (of_u64 (total_tokens s)).

Record Options := { spill_watermark : nat; async_promotion : bool }.
Definition default_options : Options := {| spill_watermark := 0; async_promotion := false |}.

(** [disarm()] *)
Definition disarm (a : Allocation) : Allocation := empty_alloc.

(** The move constructor: the new handle, and what is left of the old one. *)
Definition move_alloc (other : Allocation) : Allocation * Allocation :=
  ({| ok := ok other; cached_tokens := cached_tokens other; cached_blocks := cached_blocks other;
      table := table other; pinned := pinned other; owner_ := owner_ other |}, disarm other).

Section manager.
Context {T : Type} `{Tier T} `{IterOrder}.
Context (hardware_concurrency : N).

Record CacheManager := mk_manager {
  mgr_cfg_ : CacheConfig;
  pool_ : BlockPool T;
  tree_ : RadixTree;
  stats_ : Stats;
  options_ : Options;
  victims_ : list BlockId;
}.

Abbreviation CM := (M CacheManager).

(** A method of the tree, or of the pool both share. *)
Definition on_cache {A} (m : M (BlockPool T * RadixTree) A) : CM A :=
  zoom (λ s, (pool_ s, tree_ s))
    (λ pt s, mk_manager (mgr_cfg_ s) pt.1 pt.2 (stats_ s) (options_ s) (victims_ s)) m.
(** A question to the pool, and a call that changes it: before each of those the
    workers take some turns. *)
Definition pool_ask {A} (m : M (BlockPool T) A) : CM A := on_cache (on_pool m).
Definition pool_op {A} (m : M (BlockPool T) A) : CM A := on_cache (on_pool (preempt ;; m)).
Definition count (f : Stats → Stats) : CM () :=
  modify (λ s, mk_manager (mgr_cfg_ s) (pool_ s) (tree_ s) (f (stats_ s)) (options_ s) (victims_ s)).
Definition set_victims (v : list BlockId) : CM () :=
  modify (λ s, mk_manager (mgr_cfg_ s) (pool_ s) (tree_ s) (stats_ s) (options_ s) v).

(** [victims_.clear(); tree_.pick_demotion_victims(n, &victims_);] *)
Definition pick_victims (n : nat) : CM () :=
  set_victims [] ;;
  s ← get;
  '(_, out) ← on_cache (pick_demotion_victims n (victims_ s));
  set_victims out.

(** ** Construction *)

Definition make_manager (specs : list TierSpec) (cfg : CacheConfig) (objs : gmap TierPtr T) (options : Options)
    : result CacheManager :=
  match init specs cfg objs with
  | Err e => Err e
  | Ok p =>
      match make_tree (N.to_nat (block_tokens cfg)) with
      | Err e => Err e
      | Ok t => Ok (mk_manager cfg p t zero_stats options [])
      end
  end.

(** The same with [Options{}]. *)
Definition make_manager_default (specs : list TierSpec) (cfg : CacheConfig) (objs : gmap TierPtr T)
    : result CacheManager := make_manager specs cfg objs default_options.

(** The members are destroyed last to first: the tree gives its blocks back,
    then the pool stops its workers. *)
Definition destroy_manager : CM () := on_cache destroy ;; pool_op stop.

(** ** Background demotion *)

Definition maintain : CM () :=
  s ← get;
  if (num_tiers (pool_ s) <? 2) || (spill_watermark (options_ s) =? 0) then mret () else
  let projected := num_free (pool_ s) + pending_departures (pool_ s) 0 in
  if spill_watermark (options_ s) <=? projected then mret () else
  pick_victims (spill_watermark (options_ s) - projected) ;;
  s ← get;
  for_while (victims_ s) (λ id,
    moved ← pool_op (migrate_async hardware_concurrency id 1);
    if (moved : bool) then count bump_background ;; mret true else mret false).

(** ** Giving up a handle *)

Definition abandon (a : Allocation) : CM Allocation :=
  for_each (drop (cached_blocks a) (table a)) (λ id, _ ← pool_op (decref id); mret ()) ;;
  match pinned a with
  | Some l => on_cache (unlock (Some l))
  | None => mret ()
  end ;;
  count bump_abandoned ;;
  mret (disarm a).

(** [~Allocation()] *)
Definition destroy_alloc (a : Allocation) : CM () :=
  if ok a && owner_ a then _ ← abandon a; mret () else mret ().

(** [a = std::move(other)] for two handles; [self] when they are the same
    object. What the two hold afterwards. *)
Definition move_assign (self : bool) (a other : Allocation) : CM (Allocation * Allocation) :=
  if self then mret (a, other) else
  (if ok a && owner_ a then _ ← abandon a; mret () else mret ()) ;;
  mret (move_alloc other).

(** ** acquire *)

(** [a - b] and [a + b] in [size_t]. *)
Definition sub_size (a b : nat) : nat := N.to_nat (sub64 (N.of_nat a) (N.of_nat b)).
Definition add_size (a b : nat) : nat := N.to_nat (u64 (N.of_nat a + N.of_nat b)).

Definition need_blocks (bt : N) (tokens : list TokenId) : nat :=
  N.to_nat (sub64 (u64 (size_of tokens + bt)) 1 / bt).

(** A matched block on its way out of the compute tier stays. *)
Definition cancel_departures (bs : list BlockId) : CM () :=
  for_each bs (λ id,
    m ← pool_ask (migrating id);
    if (m : bool) then
      t ← pool_ask (migration_target id);
      if negb (t =? 0)%N then pool_op (cancel_migration id) else mret ()
    else mret ()).

(** The matched blocks that have to be brought back. *)
Fixpoint count_promotions (bs : list BlockId) (promotions : nat) : CM nat :=
  match bs with
  | [] => mret promotions
  | id :: bs =>
      t ← pool_ask (block_tier id);
      if negb (t =? 0)%N then
        m ← pool_ask (migrating id);
        count_promotions bs (if (m : bool) then promotions else S promotions)
      else count_promotions bs promotions
  end.

Definition demote_for (demand : nat) : CM () :=
  s ← get;
  if (num_free (pool_ s) <? demand) && (1 <? num_tiers (pool_ s)) then
    pick_victims (demand - num_free (pool_ s)) ;;
    s ← get;
    for_while (victims_ s) (λ id,
      moved ← pool_op (migrate id 1);
      if (moved : bool) then count bump_demoted ;; mret true else mret false)
  else mret ().

Definition evict_for_round (demand : nat) (_ : ()) : CM (() + ()) :=
  s ← get;
  if num_free (pool_ s) <? demand then
    evicted ← on_cache (evict (demand - num_free (pool_ s)));
    if evicted =? 0 then mret (inr ()) else
    count (add_evicted evicted) ;;
    mret (inl ())
  else mret (inr ()).
(** Every round but the last drops a node. *)
Definition evict_for (demand : nat) : CM () :=
  s ← get; loop (S (size (nodes (tree_ s)))) (evict_for_round demand) ().

Definition promote (bs : list BlockId) : CM () :=
  for_each bs (λ id,
    t ← pool_ask (block_tier id);
    if (t =? 0)%N then mret () else
    m ← pool_ask (migrating id);
    if (m : bool) then mret () else
    s ← get;
    moved ← (if async_promotion (options_ s) then
               q ← pool_op (migrate_async hardware_concurrency id 0);
               if negb q then pool_op (migrate id 0) else mret true
             else pool_op (migrate id 0));
    assert moved "promotion failed despite reserved compute slots" ;;
    count bump_promoted).

Fixpoint allocate_fresh (fresh : nat) (bs : list BlockId) : CM (list BlockId) :=
  match fresh with
  | O => mret bs
  | S fresh =>
      id ← pool_op allocate;
      assert (negb (id =? kInvalidBlock)%N) "free list disagrees with num_free()" ;;
      allocate_fresh fresh (bs ++ [id])
  end.

Definition acquire (tokens : list TokenId) : CM Allocation :=
  count bump_requests ;;
  if bool_decide (tokens = []) then
    count bump_served ;;
    mret {| ok := true; cached_tokens := 0; cached_blocks := 0; table := []; pinned := None; owner_ := false |}
  else
  s ← get;
  let need := need_blocks (block_tokens (mgr_cfg_ s)) tokens in
  pool_op drain_migrations ;;
  m ← on_cache (match_prefix tokens);
  match mr_node m with
  | Some l => on_cache (lock (Some l))
  | None => mret ()
  end ;;
  let cached := length (mr_blocks m) in
  cancel_departures (mr_blocks m) ;;
  let fresh := sub_size need cached in
  promotions ← count_promotions (mr_blocks m) 0;
  let demand := add_size fresh promotions in
  demote_for demand ;;
  evict_for demand ;;
  s ← get;
  if num_free (pool_ s) <? demand then
    match mr_node m with
    | Some l => on_cache (unlock (Some l))
    | None => mret ()
    end ;;
    count bump_failures ;;
    mret empty_alloc
  else
  promote (mr_blocks m) ;;
  bs ← allocate_fresh fresh (mr_blocks m);
  count bump_served ;;
  count (add_tokens (length tokens) (mr_num_tokens m)) ;;
  maintain ;;
  mret {| ok := true; cached_tokens := mr_num_tokens m; cached_blocks := cached; table := bs;
          pinned := mr_node m; owner_ := true |}.

(** ** release *)

Definition release (tokens : list TokenId) (a : Allocation) : CM Allocation :=
  if negb (ok a) then mret a else
  _ ← on_cache (insert tokens (table a));
  for_each (drop (cached_blocks a) (table a)) (λ id, _ ← pool_op (decref id); mret ()) ;;
  match pinned a with
  | Some l => on_cache (unlock (Some l))
  | None => mret ()
  end ;;
  pool_op drain_migrations ;;
  maintain ;;
  mret (disarm a).

(** ** Waiting for promotions *)

Fixpoint all_in_compute (bs : list BlockId) : CM bool :=
  match bs with
  | [] => mret true
  | id :: bs =>
      t ← pool_ask (block_tier id);
      if negb (t =? 0)%N then mret false else all_in_compute bs
  end.

Definition ready (a : Allocation) : CM bool :=
  if negb (ok a) || negb (owner_ a) then mret true else
  pool_op drain_migrations ;;
  all_in_compute (table a).

(** [fuel] bounds the rounds; a handle of the manager needs two. *)
Definition wait_ready `{Wk : Wakes T} (fuel : nat) (a : Allocation) : CM () :=
  loop fuel (λ _ : (),
    r ← ready a;
    if (r : bool) then mret (inr ()) else
    pool_op wait_for_migrations ;; mret (inl ())) ().
End manager.

(** [CacheManager(cfg)]: one host tier that the pool owns. *)
Definition make_manager_owned (aligned_alloc : N → N → option (list byte)) (cfg : CacheConfig)
    : result (CacheManager (T := HostTier.t)) :=
  match make_owned aligned_alloc cfg with
  | Err e => Err e
  | Ok p =>
      match make_tree (N.to_nat (block_tokens cfg)) with
      | Err e => Err e
      | Ok t => Ok (mk_manager cfg p t zero_stats default_options [])
      end
  end.
