(* ===== verification/ManagerInv.v ===== *)
(** * The manager's ledger

    Between calls every live block is owned exactly once: by the tree, or by
    the one handle that allocated it. The matched part of a handle's table is
    the path of the node it pins. *)

From S2P Require Import Prelude Types Tier BlockPool PoolInv PoolOps PoolMigrate PoolAsync PoolWorker PoolHands BlockStore.
From S2P Require Import RadixTree RadixInv RadixSplit RadixWalk RadixInsert RadixLru RadixEvict RadixDemote RadixPins RadixState RadixPath RadixOps.
From S2P Require Import CacheManager.

Local Open Scope nat_scope.

(** A handle out with a caller, with the tokens it was acquired for. *)
Abbreviation handle := (list TokenId * Allocation)%type (only parsing).

(** The blocks a handle allocated. *)
Definition fresh_of (a : Allocation) : list BlockId := drop (cached_blocks a) (table a).
Definition held (live : list handle) : list BlockId := live ≫= (λ h, fresh_of h.2).
Definition pins_of (live : list handle) : list NodePtr := omap (λ h, pinned h.2) live.

Record handle_ok (t : RadixTree) (h : handle) : Prop := {
  ho_ok : ok h.2 = true;
  ho_owner : owner_ h.2 = true ∨ table h.2 = [] ∧ pinned h.2 = None;
  ho_blocks : cached_blocks h.2 ≤ length (table h.2);
  ho_tokens : cached_tokens h.2 = cached_blocks h.2 * block_tokens_ t;
  ho_fit : cached_tokens h.2 ≤ length h.1;
  ho_prefix : match pinned h.2 with
    | None => cached_blocks h.2 = 0
    | Some l => ∃ ls, chain (nodes t) (root_ t) l ls ∧
        path_blocks t ls = take (cached_blocks h.2) (table h.2) ∧
        path_tokens t ls = take (cached_tokens h.2) h.1
    end;
}.

(** In the compute tier to stay, or on its way there. *)
Definition at_hand (v : BlockView) : Prop :=
  bv_tier v = 0%N ∧ bv_target v = None ∨ bv_target v = Some 0%N.

Section ledger.
Context {T : Type} `{TierLaws T}.
Implicit Types (p : BlockPool T) (t : RadixTree) (live : list handle).

Record ledger p t live : Prop := {
  lg_pool : running p;
  lg_tree : radix_ok (view p) t (pins_of live);
  lg_nodup : NoDup (all_blocks t ++ held live);
  lg_live id : is_Some (view p id) ↔ id ∈ all_blocks t ++ held live;
  lg_refs id v : view p id = Some v → bv_refs v = 1%N;
  lg_handles h : h ∈ live → handle_ok t h;
}.

(** Every block of a handle's table can be read, or will be when its promotion
    lands. *)
Definition resident p (id : BlockId) : Prop := ∃ v, view p id = Some v ∧ at_hand v.
Definition residents p live : Prop := ∀ h id, h ∈ live → id ∈ table h.2 → resident p id.

(** No block is on its way into the compute tier: what is at hand is there. *)
Definition no_promo p : Prop := ∀ id v, view p id = Some v → bv_target v ≠ Some 0%N.

Lemma no_promo_sub p p' :
  (∀ id, is_Some (view p' id) → view p' id = view p id) → no_promo p → no_promo p'.
Proof. intros E N id v Hv. apply (N id). by rewrite <-E. Qed.

Lemma no_promo_upd p p' id v :
  (∀ x, view p' x = if decide (x = id) then v else view p x) → bv_target <$> v ≠ Some (Some 0%N) →
  no_promo p → no_promo p'.
Proof.
  intros E Hv N x w. rewrite E. case_decide; [|apply N]. intros -> Ht. apply Hv. simpl. by rewrite Ht.
Qed.

(** ** Pool operations that neither free nor allocate *)

Record steady p p' : Prop := {
  sd_ok : running p';
  sd_refs id : bv_refs <$> view p' id = bv_refs <$> view p id;
  sd_contents : contents_kept p p';
}.

Lemma steady_refl p : running p → steady p p.
Proof. by constructor. Qed.

Lemma sd_live p p' id : steady p p' → is_Some (view p' id) ↔ is_Some (view p id).
Proof. intros [_ E _]. specialize (E id). rewrite <-!(fmap_is_Some bv_refs), E. done. Qed.

Lemma steady_trans p q r : steady p q → steady q r → steady p r.
Proof.
  intros A B. pose proof (sd_live p q) as L. destruct A as [A1 A2 A3], B as [B1 B2 B3].
  constructor; [done|congruence|].
  intros id Hid. rewrite B3, A3; [done..|]. apply L; [by constructor|done].
Qed.

Lemma radix_ok_ext f g t pins :
  (∀ id, is_Some (f id) → is_Some (g id)) → radix_ok f t pins → radix_ok g t pins.
Proof. intros Hfg [I St Pn C S]. constructor; try done. by eapply store_inv_ext. Qed.

Lemma ledger_refs p p' t live :
  ledger p t live → running p' → (∀ id, bv_refs <$> view p' id = bv_refs <$> view p id) → ledger p' t live.
Proof.
  intros [L1 L2 L3 L4 L5 L6] Ok E.
  assert (∀ id, is_Some (view p' id) ↔ is_Some (view p id)) as Hl
    by (intros id; by rewrite <-!(fmap_is_Some bv_refs), E).
  constructor; try done.
  - eapply radix_ok_ext; [|done]. intros id. by rewrite Hl.
  - intros id. by rewrite Hl.
  - intros id v Hv. specialize (E id). rewrite Hv in E. simpl in E.
    destruct (view p id) as [w|] eqn:Hw; [|done]. simpl in E. injection E as ->. by eapply L5.
Qed.

Lemma ledger_steady p p' t live : ledger p t live → steady p p' → ledger p' t live.
Proof. intros L Sd. eapply ledger_refs; [done|apply Sd..]. Qed.

(** The order of the handles does not matter. *)
Lemma pins_of_perm live live' : live ≡ₚ live' → pins_of live ≡ₚ pins_of live'.
Proof. intros E. unfold pins_of. by rewrite E. Qed.
Lemma held_perm live live' : live ≡ₚ live' → held live ≡ₚ held live'.
Proof. intros E. unfold held. by rewrite E. Qed.

Lemma radix_ok_perm f t pins pins' : pins ≡ₚ pins' → radix_ok f t pins → radix_ok f t pins'.
Proof. intros E [I St Pn C S]. constructor; try done. by eapply pins_inv_perm. Qed.

Lemma ledger_perm p t live live' : live ≡ₚ live' → ledger p t live → ledger p t live'.
Proof.
  intros E [L1 L2 L3 L4 L5 L6]. constructor; try done.
  - eapply radix_ok_perm; [by apply pins_of_perm|done].
  - by rewrite <-(held_perm _ _ E).
  - intros id. by rewrite L4, (held_perm _ _ E).
  - intros h Hh. apply L6. by rewrite E.
Qed.

(** ** The workers' turns

    Before each call of the pool the workers move. The triples of the calls
    below start before that, and nothing in them shows it. *)

Lemma turns_steady p q : running q → worker_result p q → steady p q.
Proof. intros Rq W. constructor; [done|intros id; by rewrite (wr_view _ _ W)|apply W]. Qed.

Lemma turns_free p q i : worker_result p q → tier_free q i = tier_free p i.
Proof. intros W. unfold tier_free. by rewrite (wr_tiers _ _ W). Qed.

Lemma turns_num_tiers p q : worker_result p q → num_tiers q = num_tiers p.
Proof. intros W. unfold num_tiers. by rewrite (wr_tiers _ _ W). Qed.

Lemma turns_upd p q r id v : worker_result p q → view_upd q r id v → view_upd p r id v.
Proof. intros W V x. rewrite (V x), (wr_view _ _ W). done. Qed.

Lemma turns_free_upd p q r i d : worker_result p q → free_upd q r i d → free_upd p r i d.
Proof. intros W F j. rewrite <-(turns_free _ _ j W). apply F. Qed.

Lemma turns_outcome p q r id v dst b :
  worker_result p q → migrate_outcome q r id v dst b → migrate_outcome p r id v dst b.
Proof.
  intros W. unfold migrate_outcome. rewrite (turns_free _ _ dst W).
  case_decide; intros (-> & U & F); (split; [done|split; [by eapply turns_upd|]]); intros i;
    by rewrite F, (turns_free _ _ i W).
Qed.

Lemma turns_landed p q (r : BlockPool T) id : worker_result p q → landed (view q id) (view r id) → landed (view p id) (view r id).
Proof. intros W. by rewrite (wr_view _ _ W). Qed.

Lemma wp_turned {A} (m : M (BlockPool T) A) (Q : A → BlockPool T → Prop) p :
  running p → (∀ q, running q → worker_result p q → wp m Q q) → wp (preempt ;; m) Q p.
Proof. intros Rp Hm. wp_step. by apply wp_preempt. Qed.

(** ** Drains *)

Lemma at_hand_landed v w d : at_hand v → v = w → bv_target w = Some d → at_hand (retarget w d).
Proof. intros [[_ Ht]|Ht] -> E; [congruence|]. rewrite Ht in E. injection E as <-. by left. Qed.

Lemma landed_resident p p' id : landed (view p id) (view p' id) → resident p id → resident p' id.
Proof.
  intros [E|(w & d & E1 & E2 & E3)] (v & Hv & Ha).
  - exists v. by rewrite E.
  - exists (retarget w d). split; [done|]. eapply at_hand_landed; [done|congruence|done].
Qed.

Lemma landed_no_promo p p' : (∀ id, landed (view p id) (view p' id)) → no_promo p → no_promo p'.
Proof.
  intros V N id v Hv. destruct (V id) as [E|(w & d & E & _ & E')].
  - apply (N id). by rewrite <-E.
  - rewrite E' in Hv. by injection Hv as <-.
Qed.

Lemma drain_steady p :
  running p →
  wp (preempt ;; drain_migrations) (λ _ p', steady p p' ∧ ∀ id, landed (view p id) (view p' id)) p.
Proof.
  intros Rp. apply wp_turned; [done|]. intros q Rq W. eapply wp_mono; [by apply drain_migrations_spec, rn_ok|].
  intros [] p' [Ok D]. split; [|intros id; by eapply turns_landed, D].
  eapply steady_trans; [by eapply turns_steady|]. constructor; [by eapply running_kept; [..|apply D]| |apply D].
  intros id. destruct (dr_view _ _ D id) as [->|(w & d & -> & _ & ->)]; done.
Qed.

Lemma cancel_steady p id :
  running p →
  wp (preempt ;; cancel_migration id) (λ _ p', steady p p' ∧ (∀ i, tier_free p' i = tier_free p i) ∧
    view_upd p p' id ((λ v, retarget v (bv_tier v)) <$> view p id)) p.
Proof.
  intros Rp. apply wp_turned; [done|]. intros q Rq W.
  eapply wp_mono; [by apply cancel_migration_spec, running_inv|]. intros [] p' (I & Q & F & V).
  rewrite (wr_view _ _ W) in V. split_and!; [|intros i; by rewrite F, (turns_free _ _ i W)|by eapply turns_upd].
  eapply steady_trans; [by eapply turns_steady|]. constructor; [by eapply quiet_running| |by apply quiet_contents].
  intros x. rewrite V. case_decide; [subst; rewrite (wr_view _ _ W); by destruct (view p id)|done].
Qed.

(** What [migrate] and [migrate_async] may do: the block [id] changes tier or
    target, the others keep both. *)
Lemma migrate_steady p id v dst :
  running p → view p id = Some v → (N.to_nat dst < num_tiers p)%nat →
  wp (preempt ;; migrate id dst) (λ ok p', steady p p' ∧ num_tiers p' = num_tiers p ∧
    migrate_outcome p p' id v dst ok) p.
Proof.
  intros Rp Hv Hd. apply wp_turned; [done|]. intros q Rq W.
  rewrite <-(turns_num_tiers _ _ W) in Hd |- *. rewrite <-(wr_view _ _ W) in Hv.
  eapply wp_mono; [by apply migrate_ok; [apply rn_ok|..]|]. intros ok p' (Ok' & _ & Sh & Hc & Hq & Ho).
  split_and!; [|unfold num_tiers; symmetry; by eapply Forall2_length|by eapply turns_outcome].
  eapply steady_trans; [by eapply turns_steady|].
  constructor; [by eapply running_kept| |done]. intros x. unfold migrate_outcome in Ho.
  assert (∃ w, view_upd q p' id (Some w) ∧ bv_refs w = bv_refs v) as (w & V & E)
    by (case_decide; destruct Ho as (_ & V & _); eauto).
  rewrite V. destruct (decide (x = id)) as [->|]; [rewrite Hv; simpl; by rewrite E|done].
Qed.

Lemma migrate_async_steady hw p id v dst :
  running p → view p id = Some v → (N.to_nat dst < num_tiers p)%nat →
  wp (preempt ;; migrate_async hw id dst) (λ ok p', steady p p' ∧ num_tiers p' = num_tiers p ∧
    if (ok : bool) then free_upd p p' dst (-1) ∧
      view_upd p p' id (Some {| bv_refs := bv_refs v; bv_tier := bv_tier v; bv_target := Some dst |})
    else worker_result p p') p.
Proof.
  intros Rp Hv Hd. apply wp_turned; [done|]. intros q Rq W.
  rewrite <-(turns_num_tiers _ _ W) in Hd |- *. rewrite <-(wr_view _ _ W) in Hv.
  eapply wp_mono; [by apply migrate_async_spec; [by apply running_inv|..]|].
  intros ok p' (I & Q & _ & R). split_and!; [|unfold num_tiers; symmetry; by eapply Forall2_length, Q|].
  - eapply steady_trans; [by eapply turns_steady|].
    constructor; [by eapply quiet_running| |by apply quiet_contents].
    intros x. destruct ok; [|by subst]. destruct R as (_ & _ & V). rewrite V.
    destruct (decide (x = id)) as [->|]; [by rewrite Hv|done].
  - destruct ok; [|by subst]. destruct R as (_ & F & V). split; [by eapply turns_free_upd|by eapply turns_upd].
Qed.

Lemma allocate_steady p :
  running p → num_free p ≠ 0 →
  wp (preempt ;; allocate) (λ id p', running p' ∧ contents_kept p p' ∧ id ≠ kInvalidBlock ∧ view p id = None ∧
    free_upd p p' 0 (-1) ∧ view_upd p p' id (Some {| bv_refs := 1; bv_tier := 0; bv_target := None |})) p.
Proof.
  intros Rp Hn. apply wp_turned; [done|]. intros q Rq W.
  eapply wp_mono; [by apply allocate_spec, running_inv|]. intros id p' (I & Q & Ho).
  assert (num_free q = num_free p) as E by exact (turns_free _ _ 0%N W). rewrite E, decide_False in Ho by done.
  destruct Ho as (Hid & Hnew & F & V). rewrite (wr_view _ _ W) in Hnew.
  split_and!; [by eapply quiet_running| |done|done|by eapply turns_free_upd|by eapply turns_upd].
  intros x Hx. rewrite (quiet_contents _ _ Q); [by apply W|]. by rewrite (wr_view _ _ W).
Qed.

(** Blocks that keep their views stay resident. *)
Lemma residents_ext p p' live :
  (∀ h id, h ∈ live → id ∈ table h.2 → view p' id = view p id) → residents p live → residents p' live.
Proof. intros E R h id Hh Hid. destruct (R h id Hh Hid) as (v & Hv & Ha). exists v. by rewrite (E h). Qed.
End ledger.
