(* ===== verification/ManagerPhases.v ===== *)
(** * The phases of acquire

    Each loop of [acquire], and [maintain], as a triple: which blocks it moves,
    which it leaves alone, and what it does to the free slots of the compute
    tier. *)

From S2P Require Import Prelude Types Tier BlockPool PoolInv PoolOps PoolMigrate PoolAsync PoolWorker PoolHands BlockStore.
From S2P Require Import RadixTree RadixInv RadixSplit RadixWalk RadixInsert RadixLru RadixEvict RadixDemote RadixPins RadixState RadixPath RadixOps.
From S2P Require Import CacheManager ManagerInv.

Local Open Scope nat_scope.

Section phases.
Context {T : Type} `{TierLaws T} `{Iter : IterOrder} (hw : N).
Implicit Types (p : BlockPool T) (t : RadixTree) (s : CacheManager (T := T)).

(** ** Rules *)

Definition with_cache p t s : CacheManager :=
  mk_manager (mgr_cfg_ s) p t (stats_ s) (options_ s) (victims_ s).

Lemma wp_on_cache {A} (m : M (BlockPool T * RadixTree) A) (Q : A → CacheManager → Prop) s :
  wp m (λ a pt, Q a (with_cache pt.1 pt.2 s)) (pool_ s, tree_ s) → wp (on_cache m) Q s.
Proof. intros Hm. unfold on_cache. by wp_step. Qed.

Lemma wp_pool_op {A} (m : M (BlockPool T) A) (Q : A → CacheManager → Prop) s :
  wp (preempt ;; m) (λ a p, Q a (with_cache p (tree_ s) s)) (pool_ s) → wp (pool_op m) Q s.
Proof. intros Hm. unfold pool_op. apply wp_on_cache, wp_on_pool. exact Hm. Qed.

(** A query of the pool whose answer is known. *)
Lemma wp_pool_run {A} (m : M (BlockPool T) A) a (Q : A → CacheManager → Prop) s :
  m (pool_ s) = Ok (a, pool_ s) → Q a s → wp (pool_ask m) Q s.
Proof.
  intros E HQ. unfold pool_ask. apply wp_on_cache, wp_on_pool. eapply wp_ok; [done|]. by destruct s.
Qed.

(** The counters of requests and handles, as opposed to those of blocks. *)
Definition request_stats (st : Stats) : list N :=
  [requests st; served st; total_tokens st; hit_tokens st; alloc_failures st; abandoned st].

(** The configuration, the options and the tree are as they were, and so are
    the request counters. *)
Record same_front s s' : Prop := {
  sf_cfg : mgr_cfg_ s' = mgr_cfg_ s;
  sf_options : options_ s' = options_ s;
  sf_tree : tree_ s' = tree_ s;
  sf_stats : request_stats (stats_ s') = request_stats (stats_ s);
}.
#[export] Instance same_front_preorder : PreOrder same_front.
Proof.
  split; [by constructor|]. intros a b c [A1 A2 A3 A4] [B1 B2 B3 B4]. constructor; congruence.
Qed.

Lemma same_front_cache p s : same_front s (with_cache p (tree_ s) s).
Proof. by constructor. Qed.

Lemma migration_target_run p id v d :
  pool_inv p → view p id = Some v → bv_target v = Some d → migration_target id p = Ok (d, p).
Proof.
  intros I (l & _ & _ & Ht)%view_live Hd. rewrite Ht in Hd. unfold target in Hd.
  unfold migration_target, mbind, M_bind, get. destruct (migrating_ p !! id) as [j|]; simpl in Hd; [|done].
  unfold job_at, of_option, mbind, M_bind, get. destruct (job_heap p !! j) as [job|]; simpl in Hd; [|done].
  by injection Hd as <-.
Qed.

(** ** Cancelling departures *)

(** A block on its way out of the compute tier stays; one on its way in is let
    through. *)
Definition stay (v : BlockView) : BlockView :=
  match bv_target v with
  | Some d => if (d =? 0)%N then v else retarget v (bv_tier v)
  | None => v
  end.

Lemma stay_idem v : stay (stay v) = stay v.
Proof.
  unfold stay. destruct (bv_target v) as [d|] eqn:E; [|by rewrite E].
  destruct (d =? 0)%N eqn:Ed; [by rewrite E, Ed|done].
Qed.

Lemma stay_at_hand v : at_hand v → stay v = v.
Proof. intros [[_ E]|E]; unfold stay; by rewrite E. Qed.

Definition views_stay p p' (bs : list BlockId) : Prop :=
  ∀ id, view p' id = if decide (id ∈ bs) then stay <$> view p id else view p id.

Lemma wp_cancel_departures bs s :
  running (pool_ s) → (∀ id, id ∈ bs → is_Some (view (pool_ s) id)) →
  wp (cancel_departures bs) (λ _ s', same_front s s' ∧ steady (pool_ s) (pool_ s') ∧
    (∀ i, tier_free (pool_ s') i = tier_free (pool_ s) i) ∧ views_stay (pool_ s) (pool_ s') bs) s.
Proof.
  intros Ok Hlive. unfold cancel_departures.
  apply (wp_for_each _ (λ pre _ s', same_front s s' ∧ steady (pool_ s) (pool_ s') ∧
    (∀ i, tier_free (pool_ s') i = tier_free (pool_ s) i) ∧ views_stay (pool_ s) (pool_ s') pre)).
  { split_and!; [done|by apply steady_refl|done|done]. }
  intros pre id suf s1 E (F & Sd & Hfree & V).
  destruct (Hlive id) as [v Hv]; [rewrite E; set_solver|].
  assert (∃ w, view (pool_ s1) id = Some w ∧ stay w = stay v) as (w & Hw & Ew).
  { rewrite V, Hv. case_decide; [exists (stay v); by rewrite stay_idem|eauto]. }
  assert (∀ p2, (∀ x, view p2 x = if decide (x = id) then Some (stay w) else view (pool_ s1) x) →
    views_stay (pool_ s) p2 (pre ++ [id])) as Hstep.
  { intros p2 V2 x. rewrite V2. destruct (decide (x = id)) as [->|Hne].
    - rewrite decide_True by set_solver. by rewrite Hv, Ew.
    - rewrite V. destruct (decide (x ∈ pre)); [rewrite decide_True by set_solver|rewrite decide_False by set_solver]; done. }
  assert (stay w = w → views_stay (pool_ s) (pool_ s1) (pre ++ [id])) as Hsame.
  { intros Es. apply Hstep. intros x. case_decide; [subst; by rewrite Es|done]. }
  pose proof (sd_ok _ _ Sd) as Ok1.
  wp_steps. eapply wp_pool_run; [by apply migrating_run; [by apply running_inv|]|].
  destruct (bv_target w) as [d|] eqn:Ed.
  - rewrite bool_decide_eq_true_2 by (by eexists). wp_steps.
    eapply wp_pool_run; [by eapply migration_target_run; [by apply running_inv|..]|].
    destruct (N.eqb_spec d 0) as [->|Hd]; simpl.
    + wp_steps. split_and!; [done..|]. apply Hsame. unfold stay. by rewrite Ed.
    + apply wp_pool_op. eapply wp_mono; [by apply cancel_steady|]. intros [] p2 (Sd2 & F2 & V2). simpl.
      split_and!.
      * etrans; [done|apply same_front_cache].
      * by eapply steady_trans.
      * intros i. by rewrite F2.
      * apply Hstep. intros x. rewrite V2, Hw. case_decide; [|done]. simpl. unfold stay. rewrite Ed.
        by rewrite (proj2 (N.eqb_neq d 0) Hd).
  - rewrite bool_decide_eq_false_2 by (by intros [? ?]). wp_steps. split_and!; [done..|].
    apply Hsame. unfold stay. by rewrite Ed.
Qed.

(** ** Counting promotions *)

(** The block has to be brought back to the compute tier. *)
Definition needs p (id : BlockId) : Prop :=
  match view p id with Some v => bv_tier v ≠ 0%N ∧ bv_target v = None | None => False end.
#[export] Instance needs_dec p id : Decision (needs p id).
Proof. unfold needs. destruct (view p id); apply _. Defined.

Lemma wp_count_promotions bs k s (Q : nat → CacheManager → Prop) :
  running (pool_ s) → (∀ id, id ∈ bs → is_Some (view (pool_ s) id)) →
  Q (k + length (filter (needs (pool_ s)) bs)) s → wp (count_promotions bs k) Q s.
Proof.
  intros Ok Hlive. revert k. induction bs as [|id bs IH]; intros k HQ; simpl.
  - wp_steps. rewrite filter_nil in HQ. by rewrite Nat.add_0_r in HQ.
  - destruct (Hlive id) as [v Hv]; [by left|].
    assert (∀ x, x ∈ bs → is_Some (view (pool_ s) x)) as Hlive' by (intros; apply Hlive; by right).
    specialize (IH Hlive'). rewrite filter_cons in HQ.
    assert (needs (pool_ s) id ↔ bv_tier v ≠ 0%N ∧ bv_target v = None) as Hn by (unfold needs; by rewrite Hv).
    wp_steps. eapply wp_pool_run; [by apply block_tier_run|].
    destruct (N.eqb_spec (bv_tier v) 0) as [E|E]; simpl.
    { apply IH. rewrite decide_False in HQ by (rewrite Hn; tauto). done. }
    wp_steps. eapply wp_pool_run; [by apply migrating_run; [by apply running_inv|]|].
    destruct (bv_target v) as [d|] eqn:Ed.
    + rewrite bool_decide_eq_true_2 by (by eexists). apply IH.
      rewrite decide_False in HQ; [done|]. rewrite Hn. by intros [_ ?].
    + rewrite bool_decide_eq_false_2 by (by intros [? ?]). apply IH.
      rewrite decide_True in HQ by (by rewrite Hn). simpl in HQ. by rewrite Nat.add_succ_r in HQ.
Qed.

(** ** Spilling cold blocks *)

(** A block that may be moved out: only an unpinned node of the tree holds it. *)
Definition spare p t (id : BlockId) : Prop :=
  ∃ l n v, nodes t !! l = Some n ∧ l ≠ root_ t ∧ lock_count n = 0%N ∧ id ∈ blocks n ∧
    view p id = Some v ∧ demotable v.

Lemma wp_pick_victims k s (Q : () → CacheManager → Prop) :
  tree_inv (tree_ s) → running (pool_ s) → store_inv (view (pool_ s)) (tree_ s) →
  (∀ picks, NoDup picks → (∀ id, id ∈ picks → spare (pool_ s) (tree_ s) id) →
     Q () (mk_manager (mgr_cfg_ s) (pool_ s) (tree_ s) (stats_ s) (options_ s) picks)) →
  wp (pick_victims k) Q s.
Proof.
  intros I Ok St HQ. unfold pick_victims, set_victims. wp_steps. cbn [victims_]. apply wp_on_cache. simpl.
  eapply wp_mono; [by apply pick_demotion_victims_spec|]. intros r pt (-> & vs & Hvs & -> & _).
  wp_steps. simpl. apply HQ.
  - eapply sublist_NoDup; [by apply candidates_nodup, Hvs|apply sublist_take].
  - intros id Hid. assert (id ∈ candidates (pool_ s) (tree_ s) vs) as Hc
      by (eapply elem_of_submseteq; [done|]; apply sublist_submseteq, sublist_take).
    destruct (candidates_elem _ _ _ _ Hvs Hc) as (l & n & v & ? & ? & _ & ? & ? & ? & ?). by exists l, n, v.
Qed.

(** One block spilled: the others keep their views, and the compute tier loses
    no slot. *)
Definition spills p p' (id : BlockId) : Prop :=
  steady p p' ∧ num_tiers p' = num_tiers p ∧ (∀ x, x ≠ id → view p' x = view p x) ∧
  (no_promo p → no_promo p') ∧ num_free p ≤ num_free p'.

Lemma migrate_spills p id v :
  running p → view p id = Some v → demotable v → 1 < num_tiers p →
  wp (preempt ;; migrate id 1) (λ _ p', spills p p' id) p.
Proof.
  intros Ok Hv (Ht & _ & Htg) Hn. eapply wp_mono; [by apply migrate_steady; [..|simpl; lia]|].
  intros b p' (Sd & Hnt & Ho). split_and!; [done..| | |]; unfold migrate_outcome in Ho; case_decide.
  - destruct Ho as (_ & V & _). intros x Hx. rewrite V. by rewrite decide_False.
  - destruct Ho as (_ & V & _). intros x Hx. rewrite V. by rewrite decide_False.
  - by eapply no_promo_upd; [apply Ho|].
  - by eapply no_promo_upd; [apply Ho|].
  - destruct Ho as (_ & _ & F). specialize (F 0%N). rewrite Ht in F. unfold num_free. simpl in F. lia.
  - destruct Ho as (_ & _ & F). unfold num_free. rewrite F. lia.
Qed.

Lemma migrate_async_spills p id v :
  running p → view p id = Some v → demotable v → 1 < num_tiers p →
  wp (preempt ;; migrate_async hw id 1) (λ _ p', spills p p' id) p.
Proof.
  intros Ok Hv _ Hn. eapply wp_mono; [by apply migrate_async_steady; [..|simpl; lia]|].
  intros [] p' (Sd & Hnt & Ho).
  - destruct Ho as [F V]. split_and!; [done..| | |].
    + intros x Hx. rewrite V. by rewrite decide_False.
    + by eapply no_promo_upd; [apply V|].
    + specialize (F 0%N). simpl in F. unfold num_free. lia.
  - split_and!; [done|done|intros x _; apply Ho| |unfold num_free; by rewrite (turns_free _ _ 0%N Ho)].
    apply no_promo_sub. intros x _. apply Ho.
Qed.

Lemma wp_spill_loop (op : BlockId → M (BlockPool T) bool) g vs s :
  (∀ p id v, running p → view p id = Some v → demotable v → 1 < num_tiers p →
     wp (preempt ;; op id) (λ _ p', spills p p' id) p) →
  (∀ st, request_stats (g st) = request_stats st) →
  running (pool_ s) → 1 < num_tiers (pool_ s) → NoDup vs →
  (∀ id, id ∈ vs → ∃ v, view (pool_ s) id = Some v ∧ demotable v) →
  wp (for_while vs (λ id, moved ← pool_op (op id);
        if (moved : bool) then count g ;; mret true else mret false))
    (λ _ s', same_front s s' ∧ steady (pool_ s) (pool_ s') ∧
      (∀ x, x ∉ vs → view (pool_ s') x = view (pool_ s) x) ∧ num_free (pool_ s) ≤ num_free (pool_ s') ∧
      (no_promo (pool_ s) → no_promo (pool_ s'))) s.
Proof.
  intros Hop Hg Ok Hn Hnd Hvs.
  apply (wp_for_while _ (λ pre _ s', same_front s s' ∧ steady (pool_ s) (pool_ s') ∧
    num_tiers (pool_ s') = num_tiers (pool_ s) ∧
    (∀ x, x ∉ pre → view (pool_ s') x = view (pool_ s) x) ∧ num_free (pool_ s) ≤ num_free (pool_ s') ∧
    (no_promo (pool_ s) → no_promo (pool_ s')))).
  { split_and!; done. }
  2: { intros s' (F & Sd & _ & V & Hf & Hp). done. }
  intros pre id suf s1 E (F & Sd & Hnt & V & Hf & Hp).
  assert (id ∉ pre) as Hpre.
  { rewrite E in Hnd. apply NoDup_app in Hnd as (_ & Hd & _). intros Hin. apply (Hd id Hin). by left. }
  destruct (Hvs id) as (v & Hv & Hdem); [rewrite E; set_solver|].
  wp_steps. apply wp_pool_op. eapply wp_mono.
  { apply (Hop (pool_ s1) id v); [apply Sd|by rewrite V|done|lia]. }
  intros b p' (Sd' & Hnt' & V' & Hp' & Hf').
  assert (∀ s2, pool_ s2 = p' → same_front s1 s2 →
    same_front s s2 ∧ steady (pool_ s) (pool_ s2) ∧ num_tiers (pool_ s2) = num_tiers (pool_ s) ∧
    (∀ x, x ∉ pre ++ [id] → view (pool_ s2) x = view (pool_ s) x) ∧ num_free (pool_ s) ≤ num_free (pool_ s2) ∧
    (no_promo (pool_ s) → no_promo (pool_ s2))) as Hgo.
  { intros s2 -> F2. split_and!; [by etrans|by eapply steady_trans|lia| |lia|auto].
    intros x Hx. rewrite V', V; [done|set_solver..]. }
  destruct b.
  - unfold count. wp_steps. apply Hgo; [done|]. by constructor; [..|apply Hg].
  - wp_steps. destruct (Hgo (with_cache p' (tree_ s1) s1)) as (G1 & G2 & _ & G4 & G5 & G6); [done|by constructor|].
    split_and!; [done..| |done|done]. intros x Hx. apply G4. rewrite E in Hx. set_solver.
Qed.

(** What the two places that spill leave alone. *)
Definition spilled s s' : Prop :=
  same_front s s' ∧ steady (pool_ s) (pool_ s') ∧
  (∀ x, ¬ spare (pool_ s) (tree_ s) x → view (pool_ s') x = view (pool_ s) x) ∧
  num_free (pool_ s) ≤ num_free (pool_ s') ∧ (no_promo (pool_ s) → no_promo (pool_ s')).

Lemma spilled_refl s : running (pool_ s) → spilled s s.
Proof. intros Ok. split_and!; [done|by apply steady_refl|done|done|done]. Qed.

Lemma wp_pick_and_spill op g k s :
  (∀ p id v, running p → view p id = Some v → demotable v → 1 < num_tiers p →
     wp (preempt ;; op id) (λ _ p', spills p p' id) p) →
  (∀ st, request_stats (g st) = request_stats st) →
  tree_inv (tree_ s) → running (pool_ s) → store_inv (view (pool_ s)) (tree_ s) → 1 < num_tiers (pool_ s) →
  wp (pick_victims k ;; s ← get; for_while (victims_ s) (λ id, moved ← pool_op (op id);
        if (moved : bool) then count g ;; mret true else mret false)) (λ _ s', spilled s s') s.
Proof.
  intros Hop Hg I Ok St Hn. wp_steps. apply wp_pick_victims; [done..|]. intros picks Hnd Hp. wp_steps.
  cbn [victims_]. eapply wp_mono; [apply wp_spill_loop; [done|done|done|done|done|]|].
  - intros id Hid. destruct (Hp id Hid) as (l & n & v & _ & _ & _ & _ & Hv & Hd). eauto.
  - intros [] s' ([F1 F2 F3 F4] & Sd & V & Hf & Hp'). cbn [pool_ tree_ mgr_cfg_ options_ stats_] in *.
    split_and!; [by constructor|done| |done|done]. intros x Hx. apply V. intros Hin. by apply Hx, Hp.
Qed.

Lemma wp_demote_for demand s :
  tree_inv (tree_ s) → running (pool_ s) → store_inv (view (pool_ s)) (tree_ s) →
  wp (demote_for demand) (λ _ s', spilled s s') s.
Proof.
  intros I Ok St. unfold demote_for. wp_steps.
  destruct (num_free (pool_ s) <? demand); simpl; [|wp_steps; by apply spilled_refl].
  destruct (Nat.ltb_spec 1 (num_tiers (pool_ s))); [|wp_steps; by apply spilled_refl].
  apply wp_pick_and_spill; try done. intros. by eapply migrate_spills.
Qed.

Lemma wp_maintain s :
  tree_inv (tree_ s) → running (pool_ s) → store_inv (view (pool_ s)) (tree_ s) →
  wp (maintain hw) (λ _ s', spilled s s') s.
Proof.
  intros I Ok St. unfold maintain. wp_steps.
  destruct (Nat.ltb_spec (num_tiers (pool_ s)) 2); simpl; [wp_steps; by apply spilled_refl|].
  destruct (spill_watermark (options_ s) =? 0); [wp_steps; by apply spilled_refl|].
  destruct (_ <=? _); [wp_steps; by apply spilled_refl|].
  apply wp_pick_and_spill; try done. intros. by eapply migrate_async_spills.
Qed.
End phases.
