(* ===== verification/ManagerEvict.v ===== *)
(** * Making room by eviction

    What the manager's handles keep while the tree changes under them: a
    handle's path stays because it is pinned, its blocks are never spilled and
    never evicted. The eviction loop of [acquire] ends with enough free slots
    or with no unpinned leaf left. *)

From S2P Require Import Prelude Types Tier BlockPool PoolInv PoolOps PoolMigrate PoolAsync PoolWorker PoolHands BlockStore.
From S2P Require Import RadixTree RadixInv RadixSplit RadixWalk RadixInsert RadixLru RadixEvict RadixDemote RadixPins RadixState RadixPath RadixOps.
From S2P Require Import CacheManager ManagerInv ManagerPhases.

Local Open Scope nat_scope.

(** ** Handles *)

Lemma handle_ok_path t u (h : handle) :
  (∀ l, CacheManager.pinned h.2 = Some l → same_path l t u) → block_tokens_ u = block_tokens_ t →
  handle_ok t h → handle_ok u h.
Proof.
  intros Hp Hbt [O1 O2 O3 O4 O5 O6]. constructor; try done; [by rewrite Hbt|].
  destruct (CacheManager.pinned h.2) as [l|]; [|done].
  destruct O6 as (ls & Hc & Eb & Et). destruct (Hp l eq_refl ls Hc) as (ls' & Hc' & Eb' & Et').
  exists ls'. split_and!; congruence.
Qed.

Lemma pins_of_intro (live : list handle) h l : h ∈ live → CacheManager.pinned h.2 = Some l → l ∈ pins_of live.
Proof. intros Hh Hl. unfold pins_of. apply list_elem_of_omap. eauto. Qed.

Lemma held_intro (live : list handle) h id : h ∈ live → id ∈ fresh_of h.2 → id ∈ held live.
Proof. intros Hh Hid. unfold held. apply list_elem_of_bind. eauto. Qed.

Lemma table_split a id : id ∈ table a → id ∈ take (cached_blocks a) (table a) ∨ id ∈ fresh_of a.
Proof. intros Hid. unfold fresh_of. by rewrite <-elem_of_app, take_drop. Qed.

Section evict.
Context {T : Type} `{TierLaws T} `{Iter : IterOrder} (hw : N).
Implicit Types (p : BlockPool T) (t : RadixTree) (live : list handle) (s : CacheManager (T := T)).

(** The cached part of a table lies on the path of the pin. *)
Lemma cached_path t (h : handle) id :
  handle_ok t h → id ∈ take (cached_blocks h.2) (table h.2) →
  ∃ l ls, CacheManager.pinned h.2 = Some l ∧ chain (nodes t) (root_ t) l ls ∧ id ∈ path_blocks t ls.
Proof.
  intros [_ _ _ _ _ O] Hid. destruct (CacheManager.pinned h.2) as [l|].
  - destruct O as (ls & Hc & Eb & _). exists l, ls. by rewrite Eb.
  - rewrite O, take_0 in Hid. by apply not_elem_of_nil in Hid.
Qed.

Lemma handle_live p t live h id :
  ledger p t live → h ∈ live → id ∈ table h.2 → is_Some (view p id).
Proof.
  intros L Hh Hid. apply (lg_live _ _ _ L), elem_of_app. destruct (table_split _ _ Hid) as [Hc|Hf].
  - left. destruct (cached_path t h id (lg_handles _ _ _ L h Hh) Hc) as (l & ls & _ & _ & Hid').
    by eapply path_blocks_all.
  - right. by eapply held_intro.
Qed.

(** What a handle's table names is not up for demotion. *)
Lemma table_not_spare p t live h id :
  ledger p t live → h ∈ live → id ∈ table h.2 → ¬ spare p t id.
Proof.
  intros L Hh Hid (l & n & v & Hl & Hr & Hk & Hin & _). destruct (table_split _ _ Hid) as [Hc|Hf].
  - destruct (cached_path t h id (lg_handles _ _ _ L h Hh) Hc) as (x & ls & Hx & Hch & Hp).
    apply path_blocks_elem in Hp as (y & m & Hy & Hm & Hid').
    pose proof (rx_store _ _ _ (lg_tree _ _ _ L)) as St.
    assert (y = l) as -> by (by eapply (st_disj _ _ St y l m n)).
    destruct (rx_pins _ _ _ (lg_tree _ _ _ L)) as (css & Hcs & Hn).
    pose proof (pins_of_intro live h x Hh Hx) as [i Hi]%list_elem_of_lookup.
    destruct (Forall2_lookup_l _ _ _ _ _ Hcs Hi) as (ls' & Hls' & Hch').
    pose proof (chain_det _ _ _ _ _ Hch Hch') as <-.
    rewrite (Hn l n Hl Hr) in Hk. assert (pin_count css l = 0) as Hz by lia.
    apply (proj1 (pin_count_zero css l) Hz ls); [by eapply list_elem_of_lookup_2|done].
  - pose proof (lg_nodup _ _ _ L) as (_ & Hd & _)%NoDup_app. apply (Hd id).
    + apply elem_of_runs. eauto.
    + by eapply held_intro.
Qed.

Lemma spilled_ledger s s' live :
  ledger (pool_ s) (tree_ s) live → spilled s s' → ledger (pool_ s') (tree_ s') live.
Proof. intros L ([_ _ -> _] & Sd & _). by eapply ledger_steady. Qed.

Lemma spilled_table s s' live h id :
  ledger (pool_ s) (tree_ s) live → spilled s s' → h ∈ live → id ∈ table h.2 →
  view (pool_ s') id = view (pool_ s) id.
Proof. intros L (_ & _ & V & _) Hh Hid. apply V. by eapply table_not_spare. Qed.

Lemma spilled_residents s s' live :
  ledger (pool_ s) (tree_ s) live → spilled s s' → residents (pool_ s) live → residents (pool_ s') live.
Proof. intros L Sp. apply residents_ext. intros. by eapply spilled_table. Qed.

(** ** Forgetting *)

(** The live blocks after are live before, and look and read as before. *)
Definition forgets p p' : Prop :=
  ∀ id, is_Some (view p' id) → view p' id = view p id ∧ block_contents p' id = block_contents p id.

Record evicted_to s s' live : Prop := {
  et_cfg : mgr_cfg_ s' = mgr_cfg_ s;
  et_options : options_ s' = options_ s;
  et_stats : request_stats (stats_ s') = request_stats (stats_ s);
  et_ledger : ledger (pool_ s') (tree_ s') live;
  et_bt : block_tokens_ (tree_ s') = block_tokens_ (tree_ s);
  et_clock : clock_ (tree_ s') = clock_ (tree_ s);
  et_forgets : forgets (pool_ s) (pool_ s');
  et_free : num_free (pool_ s) ≤ num_free (pool_ s');
  et_find cs : find (tree_ s') cs = find (tree_ s) cs ∨ find (tree_ s') cs = None;
}.

Lemma forgets_trans p q r : forgets p q → forgets q r → forgets p r.
Proof.
  intros A B id Hid. destruct (B id Hid) as [E1 E2]. destruct (A id) as [E3 E4]; [by rewrite <-E1|].
  split; congruence.
Qed.

Lemma evicted_to_refl s live : ledger (pool_ s) (tree_ s) live → evicted_to s s live.
Proof. intros L. by constructor; try done; auto. Qed.

Lemma evicted_to_trans s1 s2 s3 live :
  evicted_to s1 s2 live → evicted_to s2 s3 live → evicted_to s1 s3 live.
Proof.
  intros [A1 A2 A9 A3 A4 A5 A6 A7 A8] [B1 B2 B9 B3 B4 B5 B6 B7 B8]. constructor; try congruence.
  - by eapply forgets_trans.
  - lia.
  - intros cs. destruct (B8 cs) as [->|]; auto.
Qed.

Lemma evicted_to_table s s' live h id :
  evicted_to s s' live → h ∈ live → id ∈ table h.2 → view (pool_ s') id = view (pool_ s) id.
Proof. intros E Hh Hid. apply (et_forgets _ _ _ E). eapply handle_live; [apply E|done..]. Qed.

(** Leaves that nothing pins. *)
Definition loose_leaf t (l : NodePtr) (n : Node) : Prop :=
  nodes t !! l = Some n ∧ l ≠ root_ t ∧ children n = ∅ ∧ lock_count n = 0%N.

Lemma keeps_forgets p p' :
  pool_keeps p p' → (∀ id, is_Some (view p' id) → view p' id = view p id) → forgets p p'.
Proof.
  intros K Hv id Hid. split; [by apply Hv|]. by apply (pk_view _ _ K).
Qed.

(** The tree and the held blocks after an eviction. *)
Lemma ledger_evict p t live k r p' u D B rej :
  ledger p t live → evict_inv p t (r, rej) (p', u) D B → (r < k → nothing_left p' u) →
  ledger p' u live ∧ (∀ id, is_Some (view p' id) → view p' id = view p id).
Proof.
  intros [L1 L2 L3 L4 L5 L6] [E1 E2 E3 E4 E5 E6 E7 _ _] _. cbn [fst snd] in *.
  pose proof (evicts_evicted _ _ _ _ (rx_inv _ _ _ L2) E1) as Ev.
  destruct (evicts_state _ _ _ _ E1) as (Eb & _).
  assert (∀ id, bs_view p' id = if decide (id ∈ B) then None else bs_view p id) as Hv.
  { intros id. rewrite E4. case_decide; [by apply dec_view_sole, E6|done]. }
  change (@bs_view (BlockPool T) _ _) with (view (T := T)) in Hv.
  pose proof L3 as Hnd. rewrite Eb, <-app_assoc in Hnd. apply NoDup_app in Hnd as (_ & Hd & Hnd).
  split.
  - constructor.
    + exact E2.
    + by eapply evicts_ok.
    + done.
    + intros id. rewrite Hv. specialize (Hd id). case_decide as Hid.
      * split; [by intros [? ?]|]. intros Hin. by destruct (Hd Hid).
      * rewrite L4, !elem_of_app, Eb, elem_of_app. tauto.
    + intros id v. rewrite Hv. case_decide; [done|]. apply L5.
    + intros h Hh. eapply (handle_ok_path t); [|apply Ev|by apply L6].
      intros l Hl. eapply evicted_path; [done|apply L2|]. by eapply pins_of_intro.
  - intros id. rewrite Hv. case_decide; [by intros [? ?]|done].
Qed.

Lemma ledger_no_shared p t live l : ledger p t live → ¬ shared_leaf p t l.
Proof.
  intros L (n & id & Hn & Hid & Hs). apply Hs.
  destruct (st_live _ _ (rx_store _ _ _ (lg_tree _ _ _ L)) l n id Hn Hid) as [v Hv].
  exists v. split; [done|]. by eapply lg_refs.
Qed.

Lemma wp_evict_step k s live :
  ledger (pool_ s) (tree_ s) live →
  wp (on_cache (evict k)) (λ r s', evicted_to s s' live ∧ (r ≠ 0 → size (nodes (tree_ s')) < size (nodes (tree_ s))) ∧
    (r < k → ∀ l n, ¬ loose_leaf (tree_ s') l n)) s.
Proof.
  intros L. apply wp_on_cache. eapply wp_mono; [apply evict_spec; apply L|].
  intros r [p' u] (D & B & rej & E & Hleft). cbn [fst snd] in *.
  destruct (ledger_evict _ _ _ _ _ _ _ _ _ _ L E Hleft) as [L' Hv].
  pose proof (evicts_evicted _ _ _ _ (rx_inv _ _ _ (lg_tree _ _ _ L)) (ei_drops _ _ _ _ _ _ E)) as Ev.
  destruct (evicts_state _ _ _ _ (ei_drops _ _ _ _ _ _ E)) as (_ & Ec & _).
  pose proof (ei_keeps _ _ _ _ _ _ E) as K. change (pool_keeps (pool_ s) p') in K.
  split_and!.
  - constructor; try done; simpl.
    + apply Ev.
    + by apply keeps_forgets.
    + apply (pk_free _ _ K 0%N).
    + intros cs. rewrite (ev_find _ _ _ _ Ev). case_decide; auto.
  - intros Hr. simpl. rewrite (ev_size _ _ _ _ Ev). pose proof (ei_freed _ _ _ _ _ _ E) as Ef. simpl in Ef.
    assert (D ≠ []); [|destruct D; [done|simpl; lia]]. intros ->. destruct B as [|b B]; [done|].
    destruct (proj1 (ev_blocks _ _ _ _ Ev b)) as (? & ? & ?%not_elem_of_nil & _); [by left|done].
  - intros Hlt l n (Hn & Hr & Hc & Hk). eapply ledger_no_shared; [exact L'|]. by eapply Hleft.
Qed.

(** The loop stops with the demand met or with nothing left to drop. *)
Lemma wp_evict_for demand s live :
  ledger (pool_ s) (tree_ s) live →
  wp (evict_for demand) (λ _ s', evicted_to s s' live ∧
    (num_free (pool_ s') < demand → ∀ l n, ¬ loose_leaf (tree_ s') l n)) s.
Proof.
  intros L. unfold evict_for. wp_steps.
  apply (wp_loop _ (λ _ s1, evicted_to s s1 live) (λ _ s1, size (nodes (tree_ s1)))).
  - by apply evicted_to_refl.
  - lia.
  - intros [] s1 E. unfold evict_for_round. wp_steps.
    destruct (Nat.ltb_spec (num_free (pool_ s1)) demand) as [Hlt|]; [|wp_steps; split; [done|lia]].
    wp_steps. eapply wp_mono; [apply wp_evict_step, E|]. intros r s2 (E2 & Hsz & Hleft).
    pose proof (evicted_to_trans _ _ _ _ E E2) as E'. destruct (Nat.eqb_spec r 0) as [->|Hr].
    + wp_steps. split; [done|]. intros _. apply Hleft. lia.
    + unfold count. wp_steps. simpl. split; [|by apply Hsz]. by destruct E'.
Qed.
End evict.
