(* ===== verification/ManagerFill.v ===== *)
(** * Filling a block table

    The last part of [acquire]: the matched blocks are brought back to the
    compute tier, and the rest of the table is allocated. Both find a free slot
    whenever they ask for one, so neither assertion can fail. *)

From S2P Require Import Prelude Types Tier BlockPool PoolInv PoolOps PoolMigrate PoolAsync PoolWorker PoolHands BlockStore.
From S2P Require Import RadixTree RadixInv RadixSplit RadixWalk RadixInsert RadixLru RadixEvict RadixDemote RadixPins RadixState RadixPath RadixOps.
From S2P Require Import CacheManager ManagerInv ManagerPhases ManagerEvict.

Local Open Scope nat_scope.

Section fill.
Context {T : Type} `{TierLaws T} `{Iter : IterOrder} (hw : N).
Implicit Types (p : BlockPool T) (t : RadixTree) (live : list handle) (s : CacheManager (T := T)).

Lemma num_tiers_pos p : running p → 0 < num_tiers p.
Proof. intros I%running_inv. unfold num_tiers. pose proof (pi_tiers _ _ _ _ I). destruct (tiers_ p); [done|simpl; lia]. Qed.

(** ** Promoting *)

(** Neither at hand nor on the move: it takes a slot to bring it back. *)
Lemma needs_or_at_hand p id v :
  view p id = Some v → stay v = v → needs p id ∨ ¬ needs p id ∧ at_hand v.
Proof.
  intros Hv Hs. unfold needs, at_hand. rewrite Hv. unfold stay in Hs.
  destruct (bv_target v) as [d|] eqn:Hd.
  - right. split; [by intros [_ ?]|]. right. destruct (N.eqb_spec d 0) as [->|]; [done|].
    rewrite <-Hs in Hd. done.
  - destruct (decide (bv_tier v = 0%N)); [right|left; done]. split; [tauto|by left].
Qed.

(** One promotion: the block is at hand afterwards, for one compute slot. *)
Definition promotes p p' (id : BlockId) : Prop :=
  steady p p' ∧ (∀ x, x ≠ id → view p' x = view p x) ∧ resident p' id ∧ num_free p = S (num_free p').

Lemma promotes_turned p q p' id : running q → worker_result p q → promotes q p' id → promotes p p' id.
Proof.
  intros Rq W (Sd & V & R & F). split_and!; [|intros x Hx; by rewrite V, (wr_view _ _ W)|done|].
  - eapply steady_trans; [by eapply turns_steady|done].
  - unfold num_free in *. by rewrite <-(turns_free _ _ 0%N W).
Qed.

Lemma migrate_promotes p id v :
  running p → view p id = Some v → bv_tier v ≠ 0%N → num_free p ≠ 0 →
  wp (preempt ;; migrate id 0) (λ ok p', ok = true ∧ promotes p p' id ∧ (no_promo p → no_promo p')) p.
Proof.
  intros Ok Hv Ht Hf. pose proof (num_tiers_pos p Ok).
  eapply wp_mono; [by apply migrate_steady; [..|simpl; lia]|].
  intros ok p' (Sd & _ & Ho). unfold migrate_outcome in Ho. rewrite decide_True in Ho by done.
  destruct Ho as (-> & V & F). split; [done|]. split; [|by eapply no_promo_upd; [apply V|]]. split_and!; [done| | |].
  - intros x Hx. rewrite V. by rewrite decide_False.
  - exists (retarget v 0). rewrite V, decide_True by done. split; [done|]. by left.
  - specialize (F 0%N). rewrite decide_False, decide_True in F by done. unfold num_free. lia.
Qed.

Lemma migrate_async_promotes p id v :
  running p → view p id = Some v →
  wp (preempt ;; migrate_async hw id 0)
    (λ ok p', if (ok : bool) then promotes p p' id else running p' ∧ worker_result p p') p.
Proof.
  intros Ok Hv. pose proof (num_tiers_pos p Ok).
  eapply wp_mono; [by apply migrate_async_steady; [..|simpl; lia]|].
  intros [] p' (Sd & _ & Ho); [|by split; [apply Sd|]]. destruct Ho as [F V]. split_and!; [done| | |].
  - intros x Hx. rewrite V. by rewrite decide_False.
  - eexists. rewrite V, decide_True by done. split; [done|]. by right.
  - specialize (F 0%N). rewrite decide_True in F by done. unfold num_free. lia.
Qed.

(** Either way of promoting. *)
Definition promotion (async : bool) (id : BlockId) : M (CacheManager (T := T)) bool :=
  if async then
    q ← pool_op (migrate_async hw id 0);
    if negb q then pool_op (migrate id 0) else mret true
  else pool_op (migrate id 0).

Lemma wp_promotion async id v s :
  running (pool_ s) → view (pool_ s) id = Some v → bv_tier v ≠ 0%N → num_free (pool_ s) ≠ 0 →
  wp (promotion async id) (λ ok s', ok = true ∧ same_front s s' ∧ promotes (pool_ s) (pool_ s') id ∧
    (async = false → no_promo (pool_ s) → no_promo (pool_ s'))) s.
Proof.
  intros Ok Hv Ht Hf. unfold promotion.
  assert (∀ s1, same_front s s1 → running (pool_ s1) → worker_result (pool_ s) (pool_ s1) →
    wp (pool_op (migrate id 0)) (λ ok s', ok = true ∧ same_front s s' ∧
      promotes (pool_ s) (pool_ s') id ∧ (async = false → no_promo (pool_ s) → no_promo (pool_ s'))) s1) as Hsync.
  { intros s1 F1 R1 W. apply wp_pool_op. eapply wp_mono.
    - eapply migrate_promotes; [done|by rewrite (wr_view _ _ W)|done|].
      unfold num_free. by rewrite (turns_free _ _ 0%N W).
    - intros ok p' (-> & Hp & Hn). split; [done|]; split; [etrans; [done|apply same_front_cache]|].
      split; [by eapply promotes_turned|]. intros _ N. apply Hn. eapply no_promo_sub; [|exact N].
      intros x _. apply W. }
  destruct async; [|by apply Hsync].
  wp_steps. apply wp_pool_op. eapply wp_mono; [by eapply migrate_async_promotes|].
  intros [] p' Hp; simpl.
  - wp_steps. split; [done|]; split; [apply same_front_cache|]. by split; [exact Hp|].
  - destruct Hp as [R' W]. by apply Hsync; [apply same_front_cache|..].
Qed.

(** The state of the loop with [pre] done and [suf] to do. *)
Record promoting s (spare : nat) (pre suf : list BlockId) s1 : Prop := {
  pr_front : same_front s s1;
  pr_steady : steady (pool_ s) (pool_ s1);
  pr_free : spare + length (filter (needs (pool_ s)) suf) ≤ num_free (pool_ s1);
  pr_done id : id ∈ pre → resident (pool_ s1) id;
  pr_promo : async_promotion (options_ s) = false → no_promo (pool_ s) → no_promo (pool_ s1);
  pr_rest id : id ∉ pre → view (pool_ s1) id = view (pool_ s) id;
}.

Lemma promoting_skip s k pre id suf s1 :
  ¬ needs (pool_ s) id → resident (pool_ s1) id → (id ∉ pre) →
  promoting s k pre (id :: suf) s1 → promoting s k (pre ++ [id]) suf s1.
Proof.
  intros Hn Hr Hp [P1 P2 P3 P4 P6 P5]. rewrite filter_cons_False in P3 by done. constructor; try done.
  - intros x [Hx| ->%list_elem_of_singleton]%elem_of_app; auto.
  - intros x Hx. apply P5. set_solver.
Qed.

Lemma wp_promote bs k s :
  running (pool_ s) → NoDup bs → k + length (filter (needs (pool_ s)) bs) ≤ num_free (pool_ s) →
  (∀ id, id ∈ bs → ∃ v, view (pool_ s) id = Some v ∧ stay v = v) →
  wp (promote hw bs) (λ _ s', promoting s k bs [] s') s.
Proof.
  intros Ok Hnd Hk Hbs. unfold promote.
  apply (wp_for_each _ (promoting s k)).
  { constructor; [done|by apply steady_refl|done|by intros ? ?%not_elem_of_nil|done|done]. }
  intros pre id suf s1 E P. pose proof P as [P1 P2 P3 P4 P6 P5].
  assert (id ∉ pre) as Hpre.
  { rewrite E in Hnd. apply NoDup_app in Hnd as (_ & Hd & _). intros Hin. apply (Hd id Hin). by left. }
  destruct (Hbs id) as (v & Hv & Hs); [rewrite E; set_solver|].
  pose proof (P5 id Hpre) as Hv1. rewrite Hv in Hv1. pose proof (sd_ok _ _ P2) as Ok1.
  assert (¬ needs (pool_ s) id → promoting s k (pre ++ [id]) suf s1) as Hskip.
  { intros Hn. apply promoting_skip; try done. exists v. split; [done|].
    by destruct (needs_or_at_hand _ _ _ Hv Hs) as [|[_ ?]]. }
  assert (needs (pool_ s) id ↔ bv_tier v ≠ 0%N ∧ bv_target v = None) as Hneeds by (unfold needs; by rewrite Hv).
  wp_steps. eapply wp_pool_run; [by apply block_tier_run|].
  destruct (N.eqb_spec (bv_tier v) 0) as [Ht|Ht]; [wp_steps; apply Hskip; tauto|].
  wp_steps. eapply wp_pool_run; [by apply migrating_run; [by apply running_inv|]|].
  case_bool_decide as Hm; [wp_steps; apply Hskip; rewrite Hneeds; intros [_ Hno]; rewrite Hno in Hm; by destruct Hm|].
  assert (needs (pool_ s) id) as Hn.
  { apply Hneeds. split; [done|]. destruct (bv_target v); [destruct Hm; by eexists|done]. }
  rewrite filter_cons_True in P3 by done. simpl in P3.
  wp_step; wp_step. apply (wp_bind (promotion _ id)). eapply wp_mono.
  { apply (wp_promotion _ id v); [done..|lia]. }
  intros ok s2 (-> & F & (Sd & V & R & Hf) & Hpromo). wp_steps. apply wp_assert; [done|]. unfold count. wp_steps.
  constructor; cbn [pool_].
  - etrans; [done|]. etrans; [done|]. by constructor.
  - by eapply steady_trans.
  - lia.
  - intros x [Hx| ->%list_elem_of_singleton]%elem_of_app; [|done].
    destruct (P4 x Hx) as (w & Hw & Ha). exists w. rewrite V; [done|]. by intros ->.
  - intros Ha Hno. apply Hpromo; [by rewrite (sf_options _ _ P1)|auto].
  - intros x Hx. rewrite V by set_solver. apply P5. set_solver.
Qed.

(** ** Allocating *)

Definition with_table (bs : list BlockId) (a : Allocation) : Allocation :=
  {| ok := ok a; cached_tokens := cached_tokens a; cached_blocks := cached_blocks a; table := bs;
     CacheManager.pinned := CacheManager.pinned a; owner_ := owner_ a |}.

Lemma fresh_snoc a bs id :
  cached_blocks a ≤ length bs → fresh_of (with_table (bs ++ [id]) a) = fresh_of (with_table bs a) ++ [id].
Proof.
  intros Hle. unfold fresh_of. simpl. rewrite drop_app. by replace (cached_blocks a - length bs) with 0 by lia.
Qed.

Lemma held_cons q a live : held ((q, a) :: live) = fresh_of a ++ held live.
Proof. done. Qed.

Lemma take_app_le' {A} k (l l' : list A) : k ≤ length l → take k (l ++ l') = take k l.
Proof. intros Hk. rewrite take_app. replace (k - length l) with 0 by lia. simpl. apply app_nil_r. Qed.

(** The request's handle takes a block that was not live. *)
Lemma ledger_grow p p' t live q a bs id v :
  ledger p t ((q, with_table bs a) :: live) → running p' → bv_refs v = 1%N →
  owner_ a = true → view p id = None → (∀ x, view p' x = if decide (x = id) then Some v else view p x) →
  ledger p' t ((q, with_table (bs ++ [id]) a) :: live).
Proof.
  intros [L1 L2 L3 L4 L5 L6] Ok Hr Hown Hnew V. pose proof (L6 _ ltac:(by left)) as Hh.
  pose proof (ho_blocks _ _ Hh) as Hle. simpl in Hle.
  assert (id ∉ all_blocks t ++ held ((q, with_table bs a) :: live)) as Hnin.
  { intros Hin. apply L4 in Hin. rewrite Hnew in Hin. by destruct Hin. }
  assert (all_blocks t ++ held ((q, with_table (bs ++ [id]) a) :: live)
    ≡ₚ id :: all_blocks t ++ held ((q, with_table bs a) :: live)) as E.
  { rewrite !held_cons, fresh_snoc by done.
    generalize (all_blocks t) (fresh_of (with_table bs a)) (held live). intros xs ys zs.
    rewrite <-(app_assoc ys). simpl. by rewrite <-!Permutation_middle. }
  constructor.
  - done.
  - eapply radix_ok_ext; [|exact L2]. intros x Hx. rewrite V. case_decide; [by eexists|done].
  - rewrite E. by apply NoDup_cons.
  - intros x. rewrite E, elem_of_cons, <-L4, V. case_decide; [subst; split; [by left|by eexists]|].
    split; [by right|]. by intros [?|?].
  - intros x w. rewrite V. case_decide; [by intros [= <-]|]. apply L5.
  - intros h [->|Hin]%elem_of_cons; [|apply L6; by right].
    destruct Hh as [O1 O2 O3 O4 O5 O6]. constructor; try done.
    + by left.
    + simpl in *. rewrite length_app. lia.
    + simpl in *. rewrite take_app_le' by done. exact O6.
Qed.

Record filled s q a live bs s1 : Prop := {
  fi_front : same_front s s1;
  fi_ledger : ledger (pool_ s1) (tree_ s1) ((q, with_table bs a) :: live);
  fi_kept id : is_Some (view (pool_ s) id) → view (pool_ s1) id = view (pool_ s) id;
  fi_contents : contents_kept (pool_ s) (pool_ s1);
  fi_promo : no_promo (pool_ s) → no_promo (pool_ s1);
}.

Lemma wp_allocate_fresh k q a live bs s (Q : list BlockId → CacheManager → Prop) :
  owner_ a = true → ledger (pool_ s) (tree_ s) ((q, with_table bs a) :: live) → k ≤ num_free (pool_ s) →
  (∀ ids s', length ids = k → filled s q a live (bs ++ ids) s' →
     (∀ id, id ∈ ids → view (pool_ s) id = None ∧ resident (pool_ s') id) → Q (bs ++ ids) s') →
  wp (allocate_fresh k bs) Q s.
Proof.
  intros Hown. revert bs s. induction k as [|k IH]; intros bs s L Hk HQ; simpl.
  - wp_steps. rewrite <-(app_nil_r bs) at 1. apply HQ; [done| |by intros ? ?%not_elem_of_nil].
    rewrite app_nil_r. by constructor.
  - wp_steps. apply wp_pool_op. eapply wp_mono; [apply allocate_steady; [apply L|lia]|].
    intros id p' (Ok' & Hc & Hid & Hnew & F & V). wp_steps. apply wp_assert; [by rewrite (proj2 (N.eqb_neq _ _) Hid)|].
    set (s1 := with_cache p' (tree_ s) s).
    assert (filled s q a live (bs ++ [id]) s1) as F1.
    { constructor; [apply same_front_cache| | |exact Hc|by eapply no_promo_upd; [apply V|]].
      - eapply ledger_grow; [exact L|exact Ok'| |exact Hown|exact Hnew|exact V]. done.
      - intros x [w Hx]. simpl. rewrite V. case_decide; [congruence|done]. }
    apply IH; [apply F1| |].
    { simpl. specialize (F 0%N). simpl in F. unfold num_free in *. lia. }
    intros ids s' Hlen F2 Hres. rewrite <-app_assoc in *. apply (HQ (id :: ids)); [simpl; lia| |].
    + destruct F1 as [A1 A2 A3 A4 A5], F2 as [B1 B2 B3 B4 B5]. constructor; [by etrans|done| | |by auto].
      * intros x Hx. rewrite B3, A3; [done..|]. by rewrite A3.
      * intros x Hx. rewrite B4, A4; [done..|]. by rewrite A3.
    + assert (view p' id = Some {| bv_refs := 1; bv_tier := 0; bv_target := None |}) as Hv
        by (by rewrite V, decide_True).
      intros x [->|Hx]%elem_of_cons.
      * split; [done|]. eexists. rewrite (fi_kept _ _ _ _ _ _ F2); [split; [exact Hv|by left]|by eexists].
      * destruct (Hres x Hx) as [Hx1 Hx2]. split; [|done]. simpl in Hx1. rewrite V in Hx1.
        by case_decide.
Qed.
End fill.
