(* ===== verification/ManagerPin.v ===== *)
(** * Pinning for a request

    [acquire] enters the request in the ledger with the blocks it matched, and
    every way of giving a handle up takes it out again through its pin. *)

From S2P Require Import Prelude Types Tier BlockPool PoolInv PoolOps PoolMigrate PoolAsync PoolWorker PoolHands BlockStore.
From S2P Require Import RadixTree RadixInv RadixSplit RadixWalk RadixInsert RadixLru RadixEvict RadixDemote RadixPins RadixState RadixPath RadixOps.
From S2P Require Import CacheManager ManagerInv ManagerPhases ManagerEvict ManagerFill.

Local Open Scope nat_scope.

(** The handle a match makes. *)
Definition matched (m : MatchResult) : Allocation :=
  {| ok := true; cached_tokens := mr_num_tokens m; cached_blocks := length (mr_blocks m);
     table := mr_blocks m; CacheManager.pinned := mr_node m; owner_ := true |}.

Lemma matched_fresh m : fresh_of (matched m) = [].
Proof. unfold fresh_of. simpl. by rewrite drop_all. Qed.

Section pin.
Context {T : Type} `{TierLaws T} `{Iter : IterOrder} (hw : N).
Implicit Types (p : BlockPool T) (t : RadixTree) (live : list handle) (s : CacheManager (T := T)).

(** A change of the tree that moves no block. *)
Lemma ledger_tree p t u live :
  ledger p t live → radix_ok (view p) u (pins_of live) → all_blocks u ≡ₚ all_blocks t →
  block_tokens_ u = block_tokens_ t → (∀ l, same_path l t u) → ledger p u live.
Proof.
  intros [L1 L2 L3 L4 L5 L6] R E Ebt Hp. constructor; try done.
  - by rewrite E.
  - intros id. by rewrite L4, E.
  - intros h Hh. eapply handle_ok_path; [by intros; apply Hp|done|by apply L6].
Qed.

(** A handle that holds no block of its own comes and goes with its pin. *)
Lemma ledger_cons p t live q a :
  fresh_of a = [] → radix_ok (view p) t (pins_of ((q, a) :: live)) → handle_ok t (q, a) →
  ledger p t live → ledger p t ((q, a) :: live).
Proof.
  intros Hf R Ha [L1 L2 L3 L4 L5 L6]. constructor; try done; rewrite ?held_cons, ?Hf; try done.
  intros h [->|Hh]%elem_of_cons; auto.
Qed.

Lemma ledger_uncons p t live q a :
  fresh_of a = [] → radix_ok (view p) t (pins_of live) → ledger p t ((q, a) :: live) → ledger p t live.
Proof.
  intros Hf R [L1 L2 L3 L4 L5 L6]. rewrite held_cons, Hf in L3, L4. constructor; try done.
  intros h Hh. apply L6. by right.
Qed.

(** ** The pin goes in *)

Definition pin (o : option NodePtr) : M (CacheManager (T := T)) () :=
  match o with Some l => on_cache (lock (Some l)) | None => mret () end.
Definition unpin (o : option NodePtr) : M (CacheManager (T := T)) () :=
  match o with Some l => on_cache (unlock (Some l)) | None => mret () end.

(** Nothing but the tree differs, and the tree only in its lock counts. *)
Record relocked s s' : Prop := {
  rl_cfg : mgr_cfg_ s' = mgr_cfg_ s;
  rl_options : options_ s' = options_ s;
  rl_stats : stats_ s' = stats_ s;
  rl_pool : pool_ s' = pool_ s;
  rl_struct : same_struct (tree_ s) (tree_ s');
  rl_blocks : all_blocks (tree_ s') ≡ₚ all_blocks (tree_ s);
  rl_clock : clock_ (tree_ s') = clock_ (tree_ s);
  rl_collisions : collisions_ (tree_ s') = collisions_ (tree_ s);
}.

Lemma relocked_refl s : relocked s s.
Proof. by constructor. Qed.

Lemma relocked_relock s f ls : relocked s (with_cache (pool_ s) (relock f ls (tree_ s)) s).
Proof. constructor; try done; [apply relock_struct|apply relock_blocks]. Qed.

Lemma wp_pin q a s live :
  ledger (pool_ s) (tree_ s) live → handle_ok (tree_ s) (q, a) → fresh_of a = [] →
  (N.of_nat (length live) + 1 < two32)%N →
  wp (pin (CacheManager.pinned a)) (λ _ s', relocked s s' ∧
    ledger (pool_ s') (tree_ s') ((q, a) :: live)) s.
Proof.
  intros L Ha Hf Hn. unfold pin. destruct (CacheManager.pinned a) as [l|] eqn:Hl.
  - pose proof (ho_prefix _ _ Ha) as Hp. simpl in Hp. rewrite Hl in Hp. destruct Hp as (ls & Hc & _).
    assert (length (pins_of live) ≤ length live) as Hlen.
    { unfold pins_of. clear. induction live as [|h live IH]; [done|]. rewrite omap_cons_app.
      destruct (CacheManager.pinned h.2); simpl; lia. }
    apply wp_on_cache, (wp_lock _ _ l ls); [done|]. cbn [fst snd].
    pose proof (lock_pins (tree_ s) (pins_of live) l ls (rx_pins _ _ _ (lg_tree _ _ _ L)) Hc ltac:(lia)) as Hpins.
    split; [apply relocked_relock|]. simpl.
    assert (∀ x, same_path x (tree_ s) (relock inc_lock ls (tree_ s))) as Hpath
      by (intros; apply struct_path, relock_struct).
    assert (handle_ok (relock inc_lock ls (tree_ s)) (q, a)) as Ha'
      by (eapply handle_ok_path; [by intros; apply Hpath|done|done]).
    pose proof (relock_ok _ _ _ _ _ _ Hpins (lg_tree _ _ _ L)) as R.
    destruct L as [L1 L2 L3 L4 L5 L6].
    pose proof (relock_blocks inc_lock ls (tree_ s)) as E.
    constructor; [done| | | |done|].
    + unfold pins_of. rewrite omap_cons_app. simpl. rewrite Hl. exact R.
    + by rewrite held_cons, Hf, E.
    + intros id. by rewrite held_cons, Hf, E.
    + intros h [->|Hh]%elem_of_cons; [done|]. eapply handle_ok_path; [by intros; apply Hpath|done|by apply L6].
  - wp_steps. split; [apply relocked_refl|]. apply ledger_cons; [done| |done|done].
    unfold pins_of. rewrite omap_cons_app. simpl. rewrite Hl. apply L.
Qed.

Lemma wp_unpin q a s live :
  ledger (pool_ s) (tree_ s) ((q, a) :: live) → fresh_of a = [] →
  wp (unpin (CacheManager.pinned a)) (λ _ s', relocked s s' ∧ ledger (pool_ s') (tree_ s') live ∧
    ∀ l n, loose_leaf (tree_ s') l n → loose_leaf (tree_ s) l n ∨ ∀ id, id ∈ blocks n → id ∈ table a) s.
Proof.
  intros L Hf. unfold unpin. pose proof (lg_tree _ _ _ L) as R. unfold pins_of in R.
  rewrite omap_cons_app in R. simpl in R. pose proof (lg_handles _ _ _ L (q, a) ltac:(by left)) as Ha.
  apply ho_prefix in Ha. simpl in Ha.
  destruct (CacheManager.pinned a) as [l|] eqn:Hl; simpl in R.
  - destruct (rx_pins _ _ _ R) as (css & Hcss). pose proof (pn_chains _ _ _ Hcss) as Hc.
    apply Forall2_cons_inv_l in Hc as (ls & css' & Hls & _ & _).
    destruct (unlock_pins _ _ _ _ (ex_intro _ css Hcss) Hls) as [Hpos Hpins].
    apply wp_on_cache, (wp_unlock _ _ l ls _ Hls Hpos). split; [apply relocked_relock|]. cbn [fst snd].
    assert (∀ x n, loose_leaf (relock N.pred ls (tree_ s)) x n → loose_leaf (tree_ s) x n ∨
      ∀ id, id ∈ blocks n → id ∈ table a) as Hloose.
    { intros x n (Hx & Hr & Hch & Hk). rewrite relock_lookup in Hx. apply fmap_Some in Hx as (m & Hm & ->).
      case_decide as Hin; [right|by left]. intros id Hid. destruct Ha as (ls' & Hls' & Eb & _).
      pose proof (chain_det _ _ _ _ _ Hls Hls') as <-. apply (sublist_subseteq _ _ (sublist_take (table a) (cached_blocks a))).
      rewrite <-Eb. apply path_blocks_elem. eauto. }
    split; [|exact Hloose].
    pose proof (relock_ok _ _ _ _ _ _ Hpins R) as R'.
    pose proof (relock_blocks N.pred ls (tree_ s)) as E.
    destruct L as [L1 L2 L3 L4 L5 L6]. rewrite held_cons, Hf in L3, L4.
    constructor; [done|done| | |done|].
    + simpl. by rewrite E.
    + intros id. simpl. by rewrite E.
    + intros h Hh. eapply (handle_ok_path (tree_ s)); [|done|apply L6; by right].
      intros. apply struct_path, relock_struct.
  - wp_steps. split_and!; [apply relocked_refl|by eapply ledger_uncons|by left].
Qed.
End pin.
