(* ===== verification/ManagerAcquire.v ===== *)
(** * acquire

    The whole of [acquire], phase by phase: fold in finished migrations, match
    and pin, make room, then either back out or fill the table. *)

From S2P Require Import Prelude Types Tier BlockPool PoolInv PoolOps PoolMigrate PoolAsync PoolWorker PoolHands BlockStore.
From S2P Require Import RadixTree RadixInv RadixSplit RadixWalk RadixInsert RadixLru RadixEvict RadixDemote RadixPins RadixState RadixPath RadixOps.
From S2P Require Import CacheManager ManagerInv ManagerPhases ManagerEvict ManagerFill ManagerPin.

Local Open Scope nat_scope.

(** ** The number of blocks a request needs *)

Lemma need_blocks_ceil bt (q : list TokenId) :
  bt ≠ 0%N → (size_of q + bt < two64)%N →
  need_blocks bt q = (length q + N.to_nat bt - 1) / N.to_nat bt.
Proof.
  intros Hbt Hlt. unfold need_blocks. rewrite (u64_small (size_of q + bt)) by done.
  assert (sub64 (size_of q + bt) 1 = (size_of q + bt - 1)%N) as ->.
  { unfold sub64, u64, two64 in *. rewrite (N.mod_small 1) by done.
    replace (size_of q + bt + 18446744073709551616 - 1)%N
      with (size_of q + bt - 1 + 1 * 18446744073709551616)%N by lia.
    rewrite N.Div0.mod_add. apply N.mod_small. lia. }
  rewrite N2Nat.inj_div. f_equal. unfold size_of. lia.
Qed.

Lemma div_le_ceil n bt : 0 < bt → n / bt ≤ (n + bt - 1) / bt.
Proof. intros. apply Nat.Div0.div_le_mono. lia. Qed.

Lemma sub_size_le a b : b ≤ a → (N.of_nat a < two64)%N → sub_size a b = a - b.
Proof.
  intros Hle Ha. unfold sub_size, sub64, u64, two64 in *. rewrite (N.mod_small (N.of_nat b)) by lia.
  replace (N.of_nat a + 18446744073709551616 - N.of_nat b)%N
    with (N.of_nat a - N.of_nat b + 1 * 18446744073709551616)%N by lia.
  rewrite N.Div0.mod_add, N.mod_small by lia. lia.
Qed.

Lemma need_blocks_bounds bt (q : list TokenId) k :
  0 < k → N.to_nat bt = k → (size_of q + bt < two64)%N →
  need_blocks bt q = (length q + k - 1) / k ∧ length q / k ≤ need_blocks bt q ∧
  (N.of_nat (need_blocks bt q) < two64)%N.
Proof.
  intros Hk <- Hlt. rewrite need_blocks_ceil by lia. split_and!; [done|by apply div_le_ceil|].
  assert ((length q + N.to_nat bt - 1) / N.to_nat bt ≤ length q + N.to_nat bt - 1)
    by (apply Nat.Div0.div_le_upper_bound; nia).
  unfold size_of in Hlt. lia.
Qed.

Lemma add_size_small a b : (N.of_nat (a + b) < two64)%N → add_size a b = a + b.
Proof. intros Hlt. unfold add_size. rewrite u64_small; lia. Qed.

Section acquire.
Context {T : Type} `{TierLaws T} `{Iter : IterOrder} (hw : N).
Implicit Types (p : BlockPool T) (t : RadixTree) (live : list handle) (s : CacheManager (T := T)).

(** What holds of a manager between two calls, with the handles [live] out. *)
Record manager_ok s live : Prop := {
  mo_ledger : ledger (pool_ s) (tree_ s) live;
  mo_resident : residents (pool_ s) live;
  mo_sync : async_promotion (options_ s) = false → no_promo (pool_ s);
  mo_bt : N.to_nat (block_tokens (mgr_cfg_ s)) = block_tokens_ (tree_ s);
}.

(** ** What survives a call *)

(** The blocks live after were live before and read the same. *)
Definition survives p p' : Prop :=
  ∀ id, is_Some (view p' id) → is_Some (view p id) ∧ block_contents p' id = block_contents p id.

#[export] Instance survives_preorder : PreOrder survives.
Proof.
  split; [by intros p id Hid|]. intros p q r A B id Hid. destruct (B id Hid) as [Hq E].
  destruct (A id Hq) as [Hp E']. split; congruence.
Qed.

Lemma steady_survives p p' : steady p p' → survives p p'.
Proof.
  intros Sd id Hid. apply (sd_live _ _ _ Sd) in Hid. split; [done|]. by apply (sd_contents _ _ Sd).
Qed.

Lemma forgets_survives p p' : forgets p p' → survives p p'.
Proof. intros F id Hid. destruct (F id Hid) as [E1 E2]. by rewrite <-E1. Qed.

(** What the tree and the other handles hold after the call reads as before. *)
Definition kept s s' live : Prop :=
  ∀ id, id ∈ all_blocks (tree_ s') ++ held live →
    is_Some (view (pool_ s) id) ∧ block_contents (pool_ s') id = block_contents (pool_ s) id.

(** The cache lost entries at most. *)
Definition only_forgets t t' : Prop := ∀ cs, find t' cs = find t cs ∨ find t' cs = None.

(** A request in progress: what the phases so far have left as it was. *)
Record frame s s' live : Prop := {
  fr_cfg : mgr_cfg_ s' = mgr_cfg_ s;
  fr_options : options_ s' = options_ s;
  fr_stats : request_stats (stats_ s') = request_stats (stats_ s);
  fr_bt : block_tokens_ (tree_ s') = block_tokens_ (tree_ s);
  fr_residents : residents (pool_ s) live → residents (pool_ s') live;
  fr_survives : survives (pool_ s) (pool_ s');
  fr_find : only_forgets (tree_ s) (tree_ s');
  fr_promo : no_promo (pool_ s) → no_promo (pool_ s');
}.

Lemma frame_refl s live : frame s s live.
Proof. constructor; try done. by left. Qed.

Lemma frame_trans a b c live : frame a b live → frame b c live → frame a c live.
Proof.
  intros [A1 A2 A3 A4 A5 A6 A7 A9] [B1 B2 B3 B4 B5 B6 B7 B9]. constructor; try congruence; auto.
  - by etrans.
  - intros cs. destruct (B7 cs) as [->|]; auto.
Qed.

Lemma frame_steady s s' live :
  same_front s s' → steady (pool_ s) (pool_ s') →
  (residents (pool_ s) live → residents (pool_ s') live) →
  (no_promo (pool_ s) → no_promo (pool_ s')) → frame s s' live.
Proof.
  intros [F1 F2 F3 F4] Sd Hr Hp. constructor; try done; rewrite ?F3; try done.
  - by apply steady_survives.
  - by left.
Qed.

Lemma frame_spilled s s' live :
  ledger (pool_ s) (tree_ s) live → spilled s s' → frame s s' live.
Proof.
  intros L Sp. apply frame_steady; [apply Sp..| |apply Sp]. by apply spilled_residents.
Qed.

Lemma frame_evicted s s' live live' :
  evicted_to s s' live' → (∀ h, h ∈ live → h ∈ live') → frame s s' live.
Proof.
  intros E Hin. pose proof E as [E1 E2 E3 E4 E5 E6 E7 E8 E9]. constructor; try done.
  - apply residents_ext. intros h id Hh Hid. eapply evicted_to_table; [done|by apply Hin|done].
  - by apply forgets_survives.
  - apply no_promo_sub. intros id Hid. by apply E7.
Qed.

Lemma frame_relocked s s' live : relocked s s' → frame s s' live.
Proof.
  intros [R1 R2 R3 R4 R5 R6 R7 R8]. constructor; rewrite ?R3, ?R4; try done.
  - apply R5.
  - intros cs. left. by apply find_struct.
Qed.

(** ** Folding in finished migrations *)

Lemma wp_fold_in s live :
  ledger (pool_ s) (tree_ s) live →
  wp (pool_op drain_migrations) (λ _ s', same_front s s' ∧ frame s s' live ∧
    ledger (pool_ s') (tree_ s') live) s.
Proof.
  intros L. apply wp_pool_op. eapply wp_mono; [apply drain_steady, L|].
  intros [] p' [Sd Hd].
  split_and!; [apply same_front_cache| |by eapply ledger_steady].
  apply frame_steady; [apply same_front_cache|done| |by apply landed_no_promo].
  intros R h id Hh Hid. eapply landed_resident; [apply Hd|by eapply R].
Qed.

(** ** Matching *)

Record matching s q live m s' : Prop := {
  ma_frame : frame s s' live;
  ma_pool : pool_ s' = pool_ s;
  ma_ledger : ledger (pool_ s') (tree_ s') live;
  ma_blocks : mr_blocks m = cached (tree_ s) (chunks (block_tokens_ (tree_ s)) q);
  ma_len : length (mr_blocks m) ≤ length q / block_tokens_ (tree_ s);
  ma_tokens : mr_num_tokens m = length (mr_blocks m) * block_tokens_ (tree_ s);
  ma_handle : handle_ok (tree_ s') (q, matched m);
  ma_clock : (clock_ (tree_ s') <= clock_ (tree_ s) + N.of_nat (length q))%N;
}.

Lemma wp_matching q s live :
  ledger (pool_ s) (tree_ s) live → (clock_ (tree_ s) + N.of_nat (length q) < two64)%N →
  wp (on_cache (match_prefix q)) (matching s q live) s.
Proof.
  intros L Hc. pose proof (rx_inv _ _ _ (lg_tree _ _ _ L)) as I.
  apply wp_on_cache. eapply wp_mono; [by apply match_prefix_spec|].
  intros m [p' u] (u' & k & [= -> <-] & W & Hk & Hb & Hn & _ & Hnode). cbn [fst snd].
  pose proof (match_touches _ q m k Hb Hk) as Hk'.
  destruct (walks_state k _ u W) as (Ecl & Eb & _); [lia|].
  destruct (walks_inv k _ u I W) as (_ & Ebt & _ & _).
  assert (length (mr_blocks m) ≤ length q / block_tokens_ (tree_ s)) as Hlen.
  { rewrite Hb, <-length_chunks. apply follow_length. }
  assert (ledger (pool_ s) u live) as L'.
  { eapply ledger_tree; [exact L| |done|done|intros; by eapply walks_path].
    eapply walks_ok; [done|lia|apply L]. }
  constructor; try done; simpl.
  - constructor; try done. intros cs. left. by eapply walks_find.
  - constructor; simpl; try done.
    + by left.
    + by rewrite Ebt.
    + rewrite Hn. etrans; [by apply Nat.mul_le_mono_r|]. rewrite Nat.mul_comm. apply Nat.Div0.mul_div_le.
    + rewrite firstn_all. destruct (mr_node m); [|by rewrite Hnode].
      destruct Hnode as (_ & ls & Hls & E1 & E2). eauto.
  - lia.
Qed.

(** ** Making room *)

Record roomy s q m live n s' : Prop := {
  ro_frame : frame s s' live;
  ro_ledger : ledger (pool_ s') (tree_ s') ((q, matched m) :: live);
  ro_clock : clock_ (tree_ s') = clock_ (tree_ s);
  ro_blocks id : id ∈ mr_blocks m → ∃ v, view (pool_ s') id = Some v ∧ stay v = v;
  ro_few : n ≤ length (mr_blocks m);
  ro_needs : n = length (filter (needs (pool_ s')) (mr_blocks m));
}.

Lemma residents_stay p p' bs live : views_stay p p' bs → residents p live → residents p' live.
Proof.
  intros V R h id Hh Hid. destruct (R h id Hh Hid) as (v & Hv & Ha). exists v. split; [|done].
  rewrite V, Hv. case_decide; [|done]. simpl. by rewrite stay_at_hand.
Qed.

Lemma stay_no_promo p p' bs : views_stay p p' bs → no_promo p → no_promo p'.
Proof.
  intros V N id v. rewrite V. case_decide; [|apply N]. destruct (view p id) as [w|] eqn:Hw; [|done].
  intros [= <-]. pose proof (N id w Hw) as Ht. unfold stay. destruct (bv_target w) as [d|] eqn:Hd; [|by rewrite Hd].
  by destruct (N.eqb_spec d 0) as [->|].
Qed.

Lemma needs_ext p p' (bs : list BlockId) :
  (∀ id, id ∈ bs → view p' id = view p id) → filter (needs p') bs = filter (needs p) bs.
Proof.
  induction bs as [|id bs IH]; intros E; [done|]. rewrite !filter_cons, IH by (intros; apply E; by right).
  assert (needs p' id ↔ needs p id) as Hn by (unfold needs; rewrite E by (by left); done).
  by rewrite (decide_ext _ _ _ _ Hn).
Qed.

Lemma wp_make_room {A} q m live fresh s (K : nat → M (CacheManager (T := T)) A) Q :
  ledger (pool_ s) (tree_ s) ((q, matched m) :: live) →
  (N.of_nat (fresh + length (mr_blocks m)) < two64)%N →
  (∀ n s', roomy s q m live n s' →
     (num_free (pool_ s') < fresh + n → ∀ l k, ¬ loose_leaf (tree_ s') l k) → wp (K n) Q s') →
  wp (cancel_departures (mr_blocks m) ;; n ← count_promotions (mr_blocks m) 0;
      demote_for (add_size fresh n) ;; evict_for (add_size fresh n) ;; K n) Q s.
Proof.
  intros L Hfit HK. set (live' := (q, matched m) :: live) in *.
  assert (∀ id, id ∈ mr_blocks m → is_Some (view (pool_ s) id)) as Hlive
    by (intros id Hid; apply (handle_live _ _ _ (q, matched m) _ L); [by left|done]).
  apply wp_bind. eapply wp_mono; [apply wp_cancel_departures; [apply L|done]|].
  intros [] s2 (F2 & Sd2 & _ & V2). pose proof (ledger_steady _ _ _ _ L Sd2) as L2.
  rewrite <-(sf_tree _ _ F2) in L2.
  assert (∀ id, id ∈ mr_blocks m → ∃ v, view (pool_ s2) id = Some v ∧ stay v = v) as Hb2.
  { intros id Hid. destruct (Hlive id Hid) as [v Hv]. exists (stay v). rewrite stay_idem. split; [|done].
    by rewrite V2, decide_True, Hv. }
  assert (frame s s2 live) as Fr2.
  { apply frame_steady; [done..|by eapply residents_stay|by eapply stay_no_promo]. }
  wp_step. apply wp_count_promotions; [apply L2|intros id (v & Hv & _)%Hb2; by eexists|]. simpl.
  set (n := length (filter (needs (pool_ s2)) (mr_blocks m))).
  rewrite add_size_small by (pose proof (length_filter (needs (pool_ s2)) (mr_blocks m)); lia).
  wp_step. eapply wp_mono; [apply wp_demote_for; apply L2 || apply (lg_tree _ _ _ L2)|].
  intros [] s3 Sp. pose proof (spilled_ledger _ _ _ L2 Sp) as L3.
  wp_step. eapply wp_mono; [by apply wp_evict_for|]. intros [] s4 [E Hleft].
  apply HK; [|done].
  assert (∀ id, id ∈ mr_blocks m → view (pool_ s4) id = view (pool_ s2) id) as Hsame.
  { intros id Hid. rewrite (evicted_to_table _ _ _ (q, matched m) _ E); [|by left|done].
    by apply (spilled_table _ _ _ (q, matched m) _ L2 Sp); [left|]. }
  constructor.
  - eapply frame_trans; [done|]. eapply frame_trans; [|eapply frame_evicted; [exact E|by right]].
    pose proof (frame_spilled _ _ _ L2 Sp) as []. constructor; try done.
    apply residents_ext. intros h id Hh Hid. eapply spilled_table; [exact L2|done|by right|done].
  - apply E.
  - rewrite (et_clock _ _ _ E). destruct Sp as ([_ _ -> _] & _). by rewrite (sf_tree _ _ F2).
  - intros id Hid. rewrite Hsame by done. by apply Hb2.
  - apply length_filter.
  - unfold n. by rewrite (needs_ext (pool_ s2) (pool_ s4)).
Qed.

(** ** Backing out *)

Lemma kept_frame s s' live :
  frame s s' live → ledger (pool_ s') (tree_ s') live → kept s s' live.
Proof. intros F L id Hid. apply (fr_survives _ _ _ F). by apply (lg_live _ _ _ L). Qed.

(** ** Filling the table *)

(** [s'] after the request's table was completed by [ids]. *)
Record served_from s q m live ids s' : Prop := {
  se_front : same_front s s';
  se_ledger : ledger (pool_ s') (tree_ s') ((q, with_table (mr_blocks m ++ ids) (matched m)) :: live);
  se_residents : residents (pool_ s) live →
    residents (pool_ s') ((q, with_table (mr_blocks m ++ ids) (matched m)) :: live);
  se_contents : contents_kept (pool_ s) (pool_ s');
  se_promo : async_promotion (options_ s) = false → no_promo (pool_ s) → no_promo (pool_ s');
}.

Lemma promoting_residents s k bs s' live :
  promoting s k bs [] s' → residents (pool_ s) live → residents (pool_ s') live.
Proof.
  intros P R h id Hh Hid. destruct (decide (id ∈ bs)) as [Hin|Hin]; [by apply (pr_done _ _ _ _ _ P)|].
  destruct (R h id Hh Hid) as (v & Hv & Ha). exists v. by rewrite (pr_rest _ _ _ _ _ P).
Qed.

Lemma resident_kept p p' id :
  (∀ id, is_Some (view p id) → view p' id = view p id) → resident p id → resident p' id.
Proof. intros E (v & Hv & Ha). exists v. rewrite E; [done|by eexists]. Qed.

Lemma wp_fill {A} q m live fresh n s0 s (K : list BlockId → M (CacheManager (T := T)) A) Q :
  roomy s0 q m live n s → fresh + n ≤ num_free (pool_ s) →
  (∀ ids s', length ids = fresh → served_from s q m live ids s' → wp (K (mr_blocks m ++ ids)) Q s') →
  wp (promote hw (mr_blocks m) ;; bs ← allocate_fresh fresh (mr_blocks m); K bs) Q s.
Proof.
  intros Ro Hn HK. pose proof (ro_ledger _ _ _ _ _ _ Ro) as L.
  assert (NoDup (mr_blocks m)) as Hnd.
  { pose proof (lg_handles _ _ _ L (q, matched m) ltac:(by left)) as Hh. apply ho_prefix in Hh. simpl in Hh.
    rewrite firstn_all in Hh. destruct (mr_node m) as [l|].
    - destruct Hh as (ls & Hls & <- & _). eapply path_blocks_nodup; [apply (lg_tree _ _ _ L)|done].
    - destruct (mr_blocks m); [constructor|done]. }
  apply wp_bind. eapply wp_mono.
  { apply (wp_promote hw (mr_blocks m) fresh); [apply L|done| |apply Ro].
    by rewrite <-(ro_needs _ _ _ _ _ _ Ro). }
  intros [] s1 P. pose proof P as [P1 P2 P3 P4 P6 P5].
  assert (ledger (pool_ s1) (tree_ s1) ((q, matched m) :: live)) as L1.
  { rewrite (sf_tree _ _ P1). by eapply ledger_steady. }
  rewrite filter_nil in P3. wp_step.
  apply (wp_allocate_fresh _ q (matched m) live); [done|exact L1|simpl in P3; lia|].
  intros ids s2 Hlen [F1 F2 F3 F4 F6] Hids. apply HK; [done|]. constructor.
  - by etrans.
  - done.
  - intros R h id [->|Hh]%elem_of_cons Hid.
    + simpl in Hid. apply elem_of_app in Hid as [Hid|Hid]; [|by apply Hids].
      eapply resident_kept; [exact F3|]. by apply P4.
    + eapply resident_kept; [exact F3|]. by eapply (promoting_residents _ _ _ _ _ P R).
  - intros id Hid. rewrite F4, (sd_contents _ _ P2); [done..|]. by apply (sd_live _ _ _ P2).
  - auto.
Qed.

(** ** The whole call *)

(** The counters after a request was served; an empty one counts no tokens. *)
Definition counted (q : list TokenId) (hit : nat) (st : Stats) : Stats :=
  let st := bump_served (bump_requests st) in
  if bool_decide (q = []) then st else add_tokens (length q) hit st.

(** A request that was served. *)
Record acquired s q live a s' : Prop := {
  aq_ok : manager_ok s' ((q, a) :: live);
  aq_cached : take (cached_blocks a) (table a) = cached (tree_ s) (chunks (block_tokens_ (tree_ s)) q);
  aq_hit : cached_tokens a = cached_blocks a * block_tokens_ (tree_ s);
  aq_hit_blocks : cached_blocks a = length (cached (tree_ s) (chunks (block_tokens_ (tree_ s)) q));
  aq_size : length (table a) = (length q + block_tokens_ (tree_ s) - 1) / block_tokens_ (tree_ s);
  aq_kept : kept s s' live;
  aq_find : only_forgets (tree_ s) (tree_ s');
  aq_bt : block_tokens_ (tree_ s') = block_tokens_ (tree_ s);
  aq_clock : (clock_ (tree_ s') <= clock_ (tree_ s) + N.of_nat (length q))%N;
  aq_stats : request_stats (stats_ s')
    = request_stats (counted q (cached_tokens a) (stats_ s));
}.

(** A request that was turned away: there is less room than it needs, and every
    leaf left is pinned or holds part of what it asked for. *)
Record refused s q live s' : Prop := {
  re_ok : manager_ok s' live;
  re_room : let c := cached (tree_ s) (chunks (block_tokens_ (tree_ s)) q) in
    num_free (pool_ s') < (length q + block_tokens_ (tree_ s) - 1) / block_tokens_ (tree_ s) - length c
                          + length (filter (needs (pool_ s')) c);
  re_left l n : loose_leaf (tree_ s') l n →
    ∀ id, id ∈ blocks n → id ∈ cached (tree_ s) (chunks (block_tokens_ (tree_ s)) q);
  re_kept : kept s s' live;
  re_find : only_forgets (tree_ s) (tree_ s');
  re_bt : block_tokens_ (tree_ s') = block_tokens_ (tree_ s);
  re_clock : (clock_ (tree_ s') <= clock_ (tree_ s) + N.of_nat (length q))%N;
  re_stats : request_stats (stats_ s') = request_stats (bump_failures (bump_requests (stats_ s)));
}.

Lemma bump_failures_stats a b :
  request_stats a = request_stats b → request_stats (bump_failures a) = request_stats (bump_failures b).
Proof. unfold request_stats. simpl. by intros [= -> -> -> -> -> ->]. Qed.
Lemma served_stats n h a b :
  request_stats a = request_stats b →
  request_stats (add_tokens n h (bump_served a)) = request_stats (add_tokens n h (bump_served b)).
Proof. unfold request_stats. simpl. by intros [= -> -> -> -> -> ->]. Qed.

(** The state of a call, seen from the request's point of view, once it is
    pinned. *)
Record admitted s q live m s' : Prop := {
  ad_frame : frame s s' live;
  ad_ledger : ledger (pool_ s') (tree_ s') ((q, matched m) :: live);
  ad_blocks : mr_blocks m = cached (tree_ s) (chunks (block_tokens_ (tree_ s)) q);
  ad_len : length (mr_blocks m) ≤ length q / block_tokens_ (tree_ s);
  ad_tokens : mr_num_tokens m = length (mr_blocks m) * block_tokens_ (tree_ s);
  ad_clock : (clock_ (tree_ s') <= clock_ (tree_ s) + N.of_nat (length q))%N;
}.

Lemma wp_admit {A} q s live (K : MatchResult → M (CacheManager (T := T)) A) Q :
  ledger (pool_ s) (tree_ s) live → (clock_ (tree_ s) + N.of_nat (length q) < two64)%N →
  (N.of_nat (length live) + 1 < two32)%N →
  (∀ m s', admitted s q live m s' → wp (K m) Q s') →
  wp (pool_op drain_migrations ;; m ← on_cache (match_prefix q); pin (mr_node m) ;; K m) Q s.
Proof.
  intros L Hc Hn HK. apply wp_bind. eapply wp_mono; [by apply wp_fold_in|].
  intros [] s1 (F1 & Fr1 & L1). pose proof (sf_tree _ _ F1) as Et.
  wp_step. eapply wp_mono; [apply wp_matching; [exact L1|by rewrite Et]|].
  intros m s2 [M1 M2 M3 M4 M5 M6 M7 M8]. rewrite Et in M4, M5, M6, M8.
  wp_step. eapply wp_mono; [apply (wp_pin q (matched m)); [done|done|apply matched_fresh|done]|].
  intros [] s3 [R L3]. apply HK. constructor; try done.
  - eapply frame_trans; [done|]. eapply frame_trans; [done|]. by apply frame_relocked.
  - by rewrite (rl_clock _ _ R).
Qed.

Lemma wp_back_out q m live n s0 s :
  roomy s0 q m live n s →
  wp (unpin (mr_node m)) (λ _ s', frame s s' live ∧ ledger (pool_ s') (tree_ s') live ∧
    pool_ s' = pool_ s ∧ clock_ (tree_ s') = clock_ (tree_ s) ∧
    ((∀ l k, ¬ loose_leaf (tree_ s) l k) →
       ∀ l k, loose_leaf (tree_ s') l k → ∀ id, id ∈ blocks k → id ∈ mr_blocks m)) s.
Proof.
  intros Ro. eapply wp_mono; [apply (wp_unpin q (matched m) s live); [apply Ro|apply matched_fresh]|].
  intros [] s' (R & L & Hl). split_and!; [by apply frame_relocked|done|apply R|apply R|].
  intros Hno l k Hk. destruct (Hl l k Hk) as [Hbad|Hid]; [by destruct (Hno l k)|done].
Qed.

Lemma kept_served s0 s q m live ids s' s'' :
  frame s0 s live → served_from s q m live ids s' → tree_ s'' = tree_ s' → steady (pool_ s') (pool_ s'') →
  ledger (pool_ s) (tree_ s) ((q, matched m) :: live) → kept s0 s'' live.
Proof.
  intros F [E1 E2 E3 E4 _] Et Sd L id Hid. rewrite Et, (sf_tree _ _ E1) in Hid.
  assert (is_Some (view (pool_ s) id)) as Hs.
  { apply (lg_live _ _ _ L). rewrite held_cons, matched_fresh. exact Hid. }
  destruct (fr_survives _ _ _ F id Hs) as [H0' Ec]. split; [done|].
  rewrite (sd_contents _ _ Sd), E4, Ec; [done..|].
  apply (lg_live _ _ _ E2). rewrite (sf_tree _ _ E1), held_cons. set_solver.
Qed.

(** The state [acquire] works on: the request is counted. *)
Definition begun s : CacheManager (T := T) :=
  mk_manager (mgr_cfg_ s) (pool_ s) (tree_ s) (bump_requests (stats_ s)) (options_ s) (victims_ s).

Lemma back_out_refused q s live m n s1 s2 s3 :
  let need := (length q + block_tokens_ (tree_ s) - 1) / block_tokens_ (tree_ s) in
  manager_ok s live → admitted (begun s) q live m s1 → roomy s1 q m live n s2 →
  num_free (pool_ s2) < need - length (mr_blocks m) + n →
  frame s2 s3 live → ledger (pool_ s3) (tree_ s3) live → pool_ s3 = pool_ s2 →
  clock_ (tree_ s3) = clock_ (tree_ s2) →
  (∀ l k, loose_leaf (tree_ s3) l k → ∀ id, id ∈ blocks k → id ∈ mr_blocks m) →
  refused s q live (mk_manager (mgr_cfg_ s3) (pool_ s3) (tree_ s3) (bump_failures (stats_ s3)) (options_ s3) (victims_ s3)).
Proof.
  intros need [L R Hsy Hbt] [A1 A2 A3 A4 A5 A6] Ro Hlt Fr3 L3 Hp3 Hc3 Hl3.
  pose proof (frame_trans _ _ _ _ A1 (frame_trans _ _ _ _ (ro_frame _ _ _ _ _ _ Ro) Fr3)) as Fr.
  change (tree_ (begun s)) with (tree_ s) in *.
  constructor; cbn [pool_ tree_ stats_].
  - constructor; cbn [pool_ tree_ mgr_cfg_ options_]; [done|by apply (fr_residents _ _ _ Fr)| |].
    + rewrite (fr_options _ _ _ Fr). intros Ha. by apply (fr_promo _ _ _ Fr), Hsy.
    + by rewrite (fr_cfg _ _ _ Fr), (fr_bt _ _ _ Fr).
  - cbv zeta. rewrite Hp3, <-A3, <-(ro_needs _ _ _ _ _ _ Ro). exact Hlt.
  - intros l k Hk id Hid. rewrite <-A3. by eapply Hl3.
  - exact (kept_frame (begun s) s3 live Fr L3).
  - apply Fr.
  - apply Fr.
  - rewrite Hc3, (ro_clock _ _ _ _ _ _ Ro). exact A6.
  - apply bump_failures_stats, Fr.
Qed.

(** The state in which the table is complete, with the counters moved on. *)
Definition tallied_up (q : list TokenId) (hit : nat) s : CacheManager (T := T) :=
  mk_manager (mgr_cfg_ s) (pool_ s) (tree_ s) (add_tokens (length q) hit (bump_served (stats_ s)))
    (options_ s) (victims_ s).

Lemma served_acquired q s live m n ids s1 s2 s3 s5 :
  let need := (length q + block_tokens_ (tree_ s) - 1) / block_tokens_ (tree_ s) in
  let a := with_table (mr_blocks m ++ ids) (matched m) in
  manager_ok s live → q ≠ [] → admitted (begun s) q live m s1 → roomy s1 q m live n s2 →
  length ids = need - length (mr_blocks m) → length (mr_blocks m) ≤ need →
  served_from s2 q m live ids s3 → spilled (tallied_up q (mr_num_tokens m) s3) s5 →
  acquired s q live a s5.
Proof.
  intros need a [L R Hsy Hbt] Hq [A1 A2 A3 A4 A5 A6] Ro Hlen Hle Se Sp.
  pose proof (frame_trans _ _ _ _ A1 (ro_frame _ _ _ _ _ _ Ro)) as Fr.
  change (tree_ (begun s)) with (tree_ s) in *.
  pose proof (se_front _ _ _ _ _ _ Se) as F3. pose proof Sp as (F5 & Sd5 & _).
  assert (ledger (pool_ s3) (tree_ s3) ((q, a) :: live)) as L3 by apply Se.
  assert (tree_ s5 = tree_ s2) as Et5 by (rewrite (sf_tree _ _ F5); apply F3).
  constructor; cbn [a with_table matched cached_blocks table cached_tokens].
  - constructor.
    + by eapply (spilled_ledger (tallied_up q (mr_num_tokens m) s3)).
    + eapply spilled_residents; [|exact Sp|]; [exact L3|]. apply Se. by apply (fr_residents _ _ _ Fr).
    + rewrite (sf_options _ _ F5). simpl. rewrite (sf_options _ _ F3). intros Ha.
      apply Sp, Se; [done|]. apply (fr_promo _ _ _ Fr), Hsy. by rewrite (fr_options _ _ _ Fr) in Ha.
    + rewrite Et5, (fr_bt _ _ _ Fr), (sf_cfg _ _ F5). simpl. by rewrite (sf_cfg _ _ F3), (fr_cfg _ _ _ Fr).
  - by rewrite take_app_length.
  - done.
  - by rewrite A3.
  - rewrite length_app, Hlen. fold need. lia.
  - eapply (kept_served (begun s) s2 q m live ids s3 s5); [done|done|apply F5|exact Sd5|apply Ro].
  - rewrite Et5. apply Fr.
  - rewrite Et5. apply Fr.
  - rewrite Et5, (ro_clock _ _ _ _ _ _ Ro). exact A6.
  - rewrite (sf_stats _ _ F5). unfold counted. rewrite bool_decide_eq_false_2 by done.
    apply served_stats. rewrite (sf_stats _ _ F3). apply Fr.
Qed.

Lemma acquire_nonempty q s live :
  manager_ok s live → q ≠ [] → (size_of q + block_tokens (mgr_cfg_ s) < two64)%N →
  (clock_ (tree_ s) + N.of_nat (length q) < two64)%N → (N.of_nat (length live) + 1 < two32)%N →
  wp (acquire hw q) (λ a s', acquired s q live a s' ∨ (a = empty_alloc ∧ refused s q live s')) s.
Proof.
  intros Mo Hq Hsz Hc Hn. pose proof Mo as [L R Hsy Hbt].
  pose proof (ti_bt _ (rx_inv _ _ _ (lg_tree _ _ _ L))) as Hpos.
  unfold acquire, count. wp_steps. rewrite bool_decide_eq_false_2 by done. wp_step. wp_step. cbn [mgr_cfg_].
  fold (begun s). destruct (need_blocks_bounds _ q _ Hpos Hbt Hsz) as (Eneed & Hle & Hfit).
  set (need := need_blocks _ _) in *.
  apply (wp_admit q (begun s) live); [done..|]. intros m s1 Ad.
  assert (length (mr_blocks m) ≤ need) as Hlen by (etrans; [apply Ad|exact Hle]).
  cbv zeta. rewrite sub_size_le by done. set (fresh := need - length (mr_blocks m)).
  apply (wp_make_room q m live fresh); [apply Ad|lia|]. intros n s2 Ro Hleft.
  pose proof (ro_few _ _ _ _ _ _ Ro) as Hfew. rewrite add_size_small by lia.
  wp_step. wp_step. destruct (Nat.ltb_spec (num_free (pool_ s2)) (fresh + n)) as [Hlt|Hge].
  - apply (wp_bind (unpin (mr_node m))). eapply wp_mono; [by eapply wp_back_out|].
    intros [] s3 (Fr3 & L3 & Hp3 & Hc3 & Hl3). wp_steps. right. split; [done|].
    eapply back_out_refused; try done; [by rewrite <-Eneed|]. by apply Hl3, Hleft.
  - eapply (wp_fill q m live fresh n s1 s2); [done|done|]. intros ids s3 Hids Se.
    wp_steps. fold (tallied_up q (mr_num_tokens m) s3). pose proof (se_ledger _ _ _ _ _ _ Se) as L4.
    eapply wp_mono; [apply wp_maintain; apply L4 || apply (lg_tree _ _ _ L4)|].
    intros [] s5 Sp. wp_steps. left.
    eapply (served_acquired q s live m n ids s1 s2 s3); try done; rewrite <-Eneed; done.
Qed.

(** An empty request gets an empty table, which nothing has to be given back
    for. *)
Lemma acquire_empty s live :
  manager_ok s live → wp (acquire hw []) (λ a s', acquired s [] live a s') s.
Proof.
  intros [L R Hsy Hbt]. pose proof (ti_bt _ (rx_inv _ _ _ (lg_tree _ _ _ L))) as Hpos.
  assert (cached (tree_ s) (chunks (block_tokens_ (tree_ s)) []) = []) as Ec
    by (unfold chunks; simpl; by rewrite Nat.Div0.div_0_l).
  unfold acquire, count. wp_steps. rewrite bool_decide_eq_true_2 by done. wp_steps.
  set (a := Build_Allocation _ _ _ _ _ _).
  assert (handle_ok (tree_ s) ([], a)) as Ha by (constructor; try done; by right).
  constructor; rewrite ?Ec; try done; cbn [pool_ tree_].
  - constructor; cbn [pool_ tree_ options_ mgr_cfg_]; [|  |done|done].
    + apply ledger_cons; [done|apply L|done|done].
    + intros h id [->|Hh]%elem_of_cons Hid; [by apply not_elem_of_nil in Hid|by eapply R].
  - simpl. symmetry. apply Nat.div_small. lia.
  - intros id Hid. split; [|done]. by apply (lg_live _ _ _ L).
  - by left.
  - simpl. lia.
Qed.

Lemma acquire_spec q s live :
  manager_ok s live → (size_of q + block_tokens (mgr_cfg_ s) < two64)%N →
  (clock_ (tree_ s) + N.of_nat (length q) < two64)%N → (N.of_nat (length live) + 1 < two32)%N →
  wp (acquire hw q) (λ a s', acquired s q live a s' ∨ (a = empty_alloc ∧ refused s q live s')) s.
Proof.
  intros Mo Hsz Hc Hn. destruct (decide (q = [])) as [->|Hq]; [|by apply acquire_nonempty].
  eapply wp_mono; [by apply acquire_empty|]. by left.
Qed.
End acquire.
