(* ===== verification/ManagerRelease.v ===== *)
(** * Giving a handle up

    [release] publishes a handle's blocks and gives back what the tree did not
    adopt; [abandon] (a destructor, or an assignment over a handle) gives back
    everything. Both end with the handle out of the ledger. *)

From S2P Require Import Prelude Types Tier BlockPool PoolInv PoolOps PoolMigrate PoolAsync PoolWorker PoolHands BlockStore.
From S2P Require Import RadixTree RadixInv RadixSplit RadixWalk RadixInsert RadixLru RadixEvict RadixDemote RadixPins RadixState RadixPath RadixOps.
From S2P Require Import CacheManager ManagerInv ManagerPhases ManagerEvict ManagerFill ManagerPin ManagerAcquire.

Local Open Scope nat_scope.

(** What is left of a handle when its own blocks are gone: its cached prefix. *)
Definition strip (a : Allocation) : Allocation := with_table (take (cached_blocks a) (table a)) a.

Lemma strip_fresh a : fresh_of (strip a) = [].
Proof. unfold fresh_of, strip. simpl. apply drop_ge. rewrite length_take. lia. Qed.

Lemma strip_ok t q a : handle_ok t (q, a) → handle_ok t (q, strip a).
Proof.
  intros [O1 O2 O3 O4 O5 O6]. constructor; try done; simpl in *.
  - destruct O2 as [?|[-> ?]]; [by left|right]. by rewrite take_nil.
  - rewrite length_take. lia.
  - rewrite take_take, Nat.min_id. done.
Qed.

Lemma radix_ok_store f g t pins : store_inv g t → radix_ok f t pins → radix_ok g t pins.
Proof. intros St [I _ Pn C S]. by constructor. Qed.

Section release.
Context {T : Type} `{TierLaws T} `{Iter : IterOrder} (hw : N).
Implicit Types (p : BlockPool T) (t : RadixTree) (live : list handle) (s : CacheManager (T := T)).

Lemma keeps_survives p p' : pool_keeps p p' → survives p p'.
Proof. intros K id. apply (pk_view _ _ K). Qed.

(** ** The handle's own blocks go *)

Lemma wp_give_back bs s (Q : () → CacheManager → Prop) :
  running (pool_ s) → NoDup bs → (∀ id, id ∈ bs → is_Some (view (pool_ s) id)) →
  (∀ p', running p' → pool_keeps (pool_ s) p' → decrefed (view (pool_ s)) (view p') bs →
     Q () (with_cache p' (tree_ s) s)) →
  wp (for_each bs (λ id, _ ← pool_op (decref id); mret ())) Q s.
Proof.
  intros Ok Hnd Hlive HQ. eapply wp_mono.
  - apply (wp_for_each _ (λ pre suf s', s' = with_cache (pool_ s') (tree_ s) s ∧ running (pool_ s') ∧
      pool_keeps (pool_ s) (pool_ s') ∧ decrefed (view (pool_ s)) (view (pool_ s')) pre)).
    + split_and!; [by destruct s|done..].
    + intros pre id suf s1 E (Es & Ok1 & K1 & V1).
      assert (id ∉ pre) as Hnin.
      { rewrite E in Hnd. apply NoDup_app in Hnd as (_ & Hd & _). intros Hin. apply (Hd id Hin). by left. }
      destruct (Hlive id) as [v Hv]; [rewrite E; set_solver|]. wp_steps.
      apply wp_on_cache. change (preempt ;; decref id) with (bs_decref (P := BlockPool T) id).
      eapply (wp_decref_step (P := BlockPool T) (pre ++ [id]) id (pool_ s) (pool_ s1) pre); try done.
      intros p' Ok' K' V'. cbn [fst snd]. rewrite Es. simpl. split_and!; done.
  - intros [] s' (-> & Ok' & K' & V'). by apply HQ.
Qed.

(** The ledger once the tree has adopted the blocks [A] of a handle and its
    other blocks are free. *)
Lemma ledger_settle p t live q a p' u A f :
  ledger p t ((q, a) :: live) → running p' → radix_ok f u (pins_of ((q, a) :: live)) →
  all_blocks u ≡ₚ A ++ all_blocks t → A `sublist_of` fresh_of a → block_tokens_ u = block_tokens_ t →
  (∀ l, same_path l t u) →
  (∀ id, view p' id = if decide (id ∈ fresh_of a ∧ id ∉ A) then None else view p id) →
  ledger p' u ((q, strip a) :: live).
Proof.
  intros [L1 L2 L3 L4 L5 L6] Ok R Eb Hsub Ebt Hp V. rewrite held_cons in L3, L4.
  pose proof (sublist_subseteq _ _ Hsub) as HA.
  assert (NoDup (all_blocks u ++ held live)) as Hnd.
  { rewrite Eb, <-app_assoc. rewrite Permutation_app_swap_app in L3.
    eapply sublist_NoDup; [exact L3|]. by apply sublist_app. }
  assert (∀ id, is_Some (view p' id) ↔ id ∈ all_blocks u ++ held live) as Hlive.
  { intros id. rewrite V, Eb, !elem_of_app. specialize (L4 id). rewrite !elem_of_app in L4.
    specialize (HA id). apply NoDup_app in L3 as (_ & D1 & (_ & D2 & _)%NoDup_app).
    specialize (D1 id). rewrite elem_of_app in D1. specialize (D2 id).
    case_decide as Hid; [split; [by intros [? ?]|tauto]|].
    rewrite L4. destruct (decide (id ∈ A)); tauto. }
  constructor.
  - done.
  - eapply (radix_ok_store f); [|exact R]. apply store_inv_runs. split.
    + by apply NoDup_app in Hnd as (? & _ & _).
    + intros id Hid. apply Hlive, elem_of_app. by left.
  - by rewrite held_cons, strip_fresh.
  - intros id. by rewrite held_cons, strip_fresh.
  - intros id v. rewrite V. case_decide; [done|]. apply L5.
  - intros h [->|Hh]%elem_of_cons.
    + apply strip_ok. eapply handle_ok_path; [by intros; apply Hp|done|apply L6; by left].
    + eapply handle_ok_path; [by intros; apply Hp|done|apply L6; by right].
Qed.

(** Another handle's table names none of them. *)
Lemma other_table p t live q a h id :
  ledger p t ((q, a) :: live) → h ∈ live → id ∈ table h.2 → id ∉ fresh_of a.
Proof.
  intros L Hh Hid Hf. pose proof (lg_nodup _ _ _ L) as Hnd. rewrite held_cons in Hnd.
  apply NoDup_app in Hnd as (_ & D1 & (_ & D2 & _)%NoDup_app).
  destruct (table_split _ _ Hid) as [Hc|Hfr].
  - destruct (cached_path t h id) as (l & ls & _ & _ & Hp); [apply (lg_handles _ _ _ L); by right|done|].
    apply (D1 id); [by eapply path_blocks_all|set_solver].
  - apply (D2 id Hf). by eapply held_intro.
Qed.

Lemma fresh_nodup p t live q a : ledger p t ((q, a) :: live) → NoDup (fresh_of a).
Proof.
  intros L. pose proof (lg_nodup _ _ _ L) as Hnd. rewrite held_cons in Hnd.
  by apply NoDup_app in Hnd as (_ & _ & (? & _ & _)%NoDup_app).
Qed.

Lemma fresh_not_cached p t live q a id : ledger p t ((q, a) :: live) → id ∈ fresh_of a → id ∉ all_blocks t.
Proof.
  intros L Hid Hin. pose proof (lg_nodup _ _ _ L) as Hnd. rewrite held_cons in Hnd.
  apply NoDup_app in Hnd as (_ & D1 & _). apply (D1 id Hin). set_solver.
Qed.

(** The handle leaves with its pin. *)
Lemma wp_retire q a s live (K : M (CacheManager (T := T)) Allocation) Q :
  ledger (pool_ s) (tree_ s) ((q, strip a) :: live) → residents (pool_ s) live →
  (∀ s', relocked s s' → ledger (pool_ s') (tree_ s') live → residents (pool_ s') live → wp K Q s') →
  wp (unpin (CacheManager.pinned a) ;; K) Q s.
Proof.
  intros L R HK. apply wp_bind.
  eapply wp_mono; [apply (wp_unpin q (strip a) s live); [done|apply strip_fresh]|].
  intros [] s' (Rl & L' & _). apply HK; [done|done|]. by rewrite (rl_pool _ _ Rl).
Qed.

(** ** abandon *)

Record abandoned_to s a live s' : Prop := {
  ab_ok : manager_ok s' live;
  ab_kept : kept s s' live;
  ab_freed id : id ∈ fresh_of a → view (pool_ s') id = None;
  ab_find cs : find (tree_ s') cs = find (tree_ s) cs;
  ab_bt : block_tokens_ (tree_ s') = block_tokens_ (tree_ s);
  ab_clock : clock_ (tree_ s') = clock_ (tree_ s);
  ab_stats : request_stats (stats_ s')
    = request_stats (if owner_ a then bump_abandoned (stats_ s) else stats_ s);
}.

Lemma abandon_spec q a s live :
  manager_ok s ((q, a) :: live) → owner_ a = true →
  wp (abandon a) (λ a' s', a' = empty_alloc ∧ abandoned_to s a live s') s.
Proof.
  intros [L R Hsy Hbt] Hown. unfold abandon. wp_step.
  assert (∀ id, id ∈ fresh_of a → ∃ v, view (pool_ s) id = Some v ∧ bv_refs v = 1%N) as Hsole.
  { intros id Hid. destruct (handle_live _ _ _ (q, a) id L) as [v Hv]; [by left| |].
    - apply (sublist_subseteq _ _ (sublist_drop (table a) (cached_blocks a)) id Hid).
    - exists v. split; [done|]. by eapply lg_refs. }
  apply wp_give_back; [apply L|by eapply fresh_nodup|intros id (v & Hv & _)%Hsole; by eexists|].
  intros p' Ok' K V. fold (fresh_of a) in V.
  assert (∀ id, view p' id = if decide (id ∈ fresh_of a) then None else view (pool_ s) id) as V'.
  { intros id. rewrite V. case_decide as Hid; [|done]. by apply dec_view_sole, Hsole. }
  change (match CacheManager.pinned a with Some l => on_cache (unlock (Some l)) | None => mret () end)
    with (unpin (T := T) (CacheManager.pinned a)).
  eapply (wp_retire q a); simpl.
  - eapply (ledger_settle _ _ _ _ _ _ _ [] (view (pool_ s))); [exact L|done|apply L|done|apply sublist_nil_l|done|done|].
    intros id. rewrite V'. apply decide_ext. set_solver.
  - eapply residents_ext; [|intros h id Hh; apply R; by right].
    intros h id Hh Hid. rewrite V', decide_False; [done|]. by eapply other_table.
  - intros s' [R1 R2 R3 R4 R5 R6 R7 R8] L' Rs. unfold count. wp_steps. split; [done|].
    simpl in R1, R2, R3, R4, R5, R6, R7.
    constructor; cbn [pool_ tree_ mgr_cfg_ stats_].
    + constructor; cbn [pool_ tree_ mgr_cfg_]; [done..| |]; [|rewrite R1, (ss_bt _ _ R5); done].
      cbn [options_]. rewrite R2, R4. intros Ha%Hsy. eapply no_promo_sub; [|done].
      intros id. rewrite V'. case_decide; [by intros [? ?]|done].
    + intros id Hid. cbn [pool_ tree_] in *. apply (lg_live _ _ _ L') in Hid. rewrite R4 in Hid |- *. by apply keeps_survives.
    + intros id Hid. rewrite R4, V'. by rewrite decide_True.
    + intros cs. by apply find_struct.
    + apply R5.
    + done.
    + by rewrite R3, Hown.
Qed.

(** ** release *)

(** What a sequence published under the blocks [tab] adds to the cache. *)
Definition publishes t t' (q : list TokenId) (tab : list BlockId) : Prop :=
  let L := insert_len (block_tokens_ t) q tab in
  let j := length (cached t (query t q L)) in
  ((∀ ds, find t' ds = find t ds) ∧
     (j = L ∧ collisions_ t' = collisions_ t ∨ j < L ∧ collisions_ t' = u64 (collisions_ t + 1))) ∨
  (j < L ∧ collisions_ t' = collisions_ t ∧
   ∀ ds, find t' ds = match find t ds with
                      | Some b => Some b
                      | None => if decide (ds ≠ [] ∧ ds `prefix_of` query t q L)
                                then tab !! pred (length ds) else None
                      end).

Lemma publishes_ext t t' t'' q tab :
  (∀ ds, find t'' ds = find t' ds) → collisions_ t'' = collisions_ t' →
  publishes t t' q tab → publishes t t'' q tab.
Proof.
  intros Ef Ec [[Hf Hc]|(Hj & Hc & Hf)]; [left|right].
  - split; [intros ds; by rewrite Ef|by rewrite Ec].
  - split_and!; [done|by rewrite Ec|intros ds; by rewrite Ef].
Qed.

Lemma cached_ext t t' cs : (∀ ds, find t' ds = find t ds) → cached t' cs = cached t cs.
Proof. intros E. apply list_eq. intros i. by rewrite !cached_find, E. Qed.

(** Unless a key collided, all of it is cached afterwards. *)
Lemma publishes_cached t t' q tab :
  let cs := chunks (block_tokens_ t) q in
  publishes t t' q tab → collisions_ t' = collisions_ t →
  cached t' cs = cached t cs ++ drop (length (cached t cs)) (take (insert_len (block_tokens_ t) q tab) tab).
Proof.
  intros cs P Hc. destruct (insert_len_le t q tab) as (HLc & HLt & _). fold cs in HLc.
  destruct P as [[Hf [[Hj _]|[_ Hn]]]|(Hj & _ & Hf)].
  - rewrite (cached_ext t t' cs Hf). rewrite drop_ge; [by rewrite app_nil_r|].
    unfold query, cached in Hj. rewrite follow_take, length_take in Hj. fold cs (cached t cs) in Hj.
    rewrite length_take. lia.
  - exfalso. rewrite Hn in Hc. unfold u64, two64 in Hc. lia_div.
  - by apply insert_cached_blocks.
Qed.

(** The tokens a handle is released with may go on differently from those it
    was acquired for, but not before the end of its cached prefix. *)
Definition extends (a : Allocation) (q0 q : list TokenId) : Prop :=
  take (cached_tokens a) q = take (cached_tokens a) q0 ∧ cached_tokens a ≤ length q.

(** Everything the handle's cached prefix covers is still cached. *)
Lemma release_cached t q0 q a :
  tree_inv t → handle_ok t (q0, a) → extends a q0 q →
  cached_blocks a ≤ length (cached t (query t q (insert_len (block_tokens_ t) q (table a)))).
Proof.
  intros I [O1 O2 O3 O4 O5 O6] [E1 E2]. cbn [fst snd] in *. pose proof (ti_bt _ I) as Hbt.
  assert (cached_blocks a ≤ insert_len (block_tokens_ t) q (table a)) as HL.
  { unfold insert_len. apply Nat.min_glb; [|done]. apply Nat.div_le_lower_bound; lia. }
  assert (cached_blocks a ≤ length (cached t (chunks (block_tokens_ t) q))) as Hc.
  { destruct (CacheManager.pinned a) as [l|]; [|lia]. destruct O6 as (ls & Hls & Eb & Et).
    destruct (path_cached t l ls q I Hls) as [rest ->].
    - rewrite Et, <-E1. rewrite length_take. f_equal. lia.
    - rewrite length_app, Eb, length_take. lia. }
  unfold query, cached in *. rewrite follow_take, length_take. lia.
Qed.

Lemma handle_nodup p t live q a : ledger p t ((q, a) :: live) → NoDup (table a).
Proof.
  intros L. pose proof (lg_handles _ _ _ L (q, a) ltac:(by left)) as Hh.
  rewrite <-(take_drop (cached_blocks a) (table a)). apply NoDup_app. split_and!.
  - apply ho_prefix in Hh. cbn [fst snd] in Hh. destruct (CacheManager.pinned a) as [l|].
    + destruct Hh as (ls & Hls & <- & _). eapply path_blocks_nodup; [apply (lg_tree _ _ _ L)|done].
    + rewrite Hh, take_0. constructor.
  - intros id Hid Hf. destruct (cached_path t (q, a) id Hh Hid) as (l & ls & _ & _ & Hp).
    apply (fresh_not_cached _ _ _ _ _ _ L Hf). by eapply path_blocks_all.
  - by eapply (fresh_nodup _ _ _ q a).
Qed.

(** A block of count 1 that the tree adopts ends with count 1, one it does not
    want ends free. *)
Lemma adopted_views (f g h : BlockId → option BlockView) A bs :
  (∀ id, id ∈ bs → ∃ v, f id = Some v ∧ bv_refs v = 1%N) → (∀ id, id ∈ A → id ∈ bs) →
  increfed f g A → decrefed g h bs →
  ∀ id, h id = if decide (id ∈ bs ∧ id ∉ A) then None else f id.
Proof.
  intros Hs HA Hg Hh id. rewrite Hh, Hg. destruct (decide (id ∈ bs)) as [Hid|Hid].
  - destruct (Hs id Hid) as ([rc ti tg] & Hv & Hrc). simpl in Hrc. subst rc. rewrite Hv.
    destruct (decide (id ∈ A)) as [Hin|Hin]; [rewrite decide_False by tauto|rewrite decide_True by done]; done.
  - rewrite (decide_False (P := id ∈ A)) by auto. by rewrite decide_False by tauto.
Qed.

(** The whole insert, and the references given back after it. *)
Record published s q a live s' : Prop := {
  pu_front : mgr_cfg_ s' = mgr_cfg_ s ∧ stats_ s' = stats_ s ∧ options_ s' = options_ s;
  pu_bt : block_tokens_ (tree_ s') = block_tokens_ (tree_ s);
  pu_survives : survives (pool_ s) (pool_ s');
  pu_views h id : h ∈ live → id ∈ table h.2 → view (pool_ s') id = view (pool_ s) id;
  pu_promo : no_promo (pool_ s) → no_promo (pool_ s');
  pu_clock : (clock_ (tree_ s') <= clock_ (tree_ s) + N.of_nat (length q) + 1)%N;
  pu_publishes : publishes (tree_ s) (tree_ s') q (table a);
}.

Lemma wp_publish {A} q0 q a s live (K : M (CacheManager (T := T)) A) Q :
  ledger (pool_ s) (tree_ s) ((q0, a) :: live) → extends a q0 q →
  (clock_ (tree_ s) + N.of_nat (length q) + 1 < two64)%N →
  (N.of_nat (length (table a)) * N.of_nat (block_tokens_ (tree_ s)) < two64)%N →
  (∀ s', published s q a live s' → ledger (pool_ s') (tree_ s') ((q0, strip a) :: live) → wp K Q s') →
  wp (_ ← on_cache (insert q (table a));
      for_each (fresh_of a) (λ id, _ ← pool_op (decref id); mret ()) ;; K) Q s.
Proof.
  intros L Hext Hc Hw HK. pose proof (lg_tree _ _ _ L) as Rx. pose proof (rx_inv _ _ _ Rx) as I.
  pose proof (lg_handles _ _ _ L (q0, a) ltac:(by left)) as Ha.
  pose proof (release_cached _ _ _ _ I Ha Hext) as Hj. pose proof (handle_nodup _ _ _ _ _ L) as Hnd.
  set (Lq := insert_len (block_tokens_ (tree_ s)) q (table a)) in *.
  set (j := length (cached (tree_ s) (query (tree_ s) q Lq))) in *.
  assert (∀ id, id ∈ table a → ∃ v, view (pool_ s) id = Some v ∧ bv_refs v = 1%N) as Htab.
  { intros id Hid. destruct (handle_live _ _ _ (q0, a) id L) as [v Hv]; [by left|done|].
    exists v. split; [done|]. by eapply lg_refs. }
  assert (drop j (table a) `sublist_of` fresh_of a) as Hsub.
  { unfold fresh_of. replace j with ((j - cached_blocks a) + cached_blocks a) by lia.
    rewrite <-skipn_skipn. apply sublist_drop. }
  wp_step. apply wp_on_cache. eapply wp_mono.
  { apply insert_spec; [done|apply L|done|done|]. intros id (v & Hv & E)%Htab. exists v. by rewrite E. }
  intros r [p1 u] O. cbn [fst snd] in *.
  destruct (outcome_blocks _ _ _ _ _ _ _ I Hc O) as (A' & EA & Eb & Hinc & Hpath & Hclk). fold Lq j in EA.
  change (increfed (view (pool_ s)) (view p1) A') in Hinc.
  destruct (outcome_inv _ _ _ _ _ _ _ I O) as [_ Ebt].
  eapply insert_outcome_ok in O as (Ok1 & K1 & R1 & Hpub); [|exact Rx|apply L|done|done| |].
  2: { intros id (v & Hv & _)%Htab. by eexists. }
  2: { intros id Hid. eapply fresh_not_cached; [exact L|]. by eapply sublist_subseteq. }
  assert (A' `sublist_of` fresh_of a) as HA.
  { rewrite EA. case_decide; [apply sublist_nil_l|]. rewrite skipn_firstn_comm.
    etrans; [apply sublist_take|done]. }
  clear EA. pose proof (sublist_subseteq _ _ HA) as HA'.
  assert (∀ id, id ∈ fresh_of a → id ∈ table a) as Hft
    by (intros id; apply (sublist_subseteq _ _ (sublist_drop (table a) (cached_blocks a)))).
  wp_step. apply wp_give_back; [exact Ok1|by eapply fresh_nodup| |].
  { intros id Hid. simpl. destruct (Htab id (Hft id Hid)) as (v & Hv & _). rewrite (Hinc id).
    destruct (decide (id ∈ A')); [apply fmap_is_Some|]; by eexists. }
  intros p2 Ok2 K2 V2. cbn [pool_ with_cache] in V2.
  pose proof (adopted_views _ _ _ A' (fresh_of a) ltac:(eauto) HA' Hinc V2) as V.
  apply HK; [constructor|]; cbn [pool_ tree_ mgr_cfg_ stats_ with_cache]; try done.
  - etrans; apply keeps_survives; [exact K1|exact K2].
  - intros h id Hh Hid. rewrite V, decide_False; [done|]. intros [Hf _]. by eapply other_table.
  - apply no_promo_sub. intros id. rewrite V. case_decide; [by intros [? ?]|done].
  - destruct Hpub as [(_ & _ & Hf & Hcol)|(Hjl & _ & Hcol & _ & Hf)]; [left|right; done].
    split; [done|]. destruct Hcol as [?|(? & ? & _)]; [by left|by right].
  - eapply ledger_settle; [exact L|done|exact R1|done|done|done|done|exact V].
Qed.

Record released s q a live s' : Prop := {
  rs_ok : manager_ok s' live;
  rs_kept : kept s s' live;
  rs_publishes : publishes (tree_ s) (tree_ s') q (table a);
  rs_bt : block_tokens_ (tree_ s') = block_tokens_ (tree_ s);
  rs_clock : (clock_ (tree_ s') <= clock_ (tree_ s) + N.of_nat (length q) + 1)%N;
  rs_stats : request_stats (stats_ s') = request_stats (stats_ s);
}.

Lemma release_spec q0 q a s live :
  manager_ok s ((q0, a) :: live) → extends a q0 q →
  (clock_ (tree_ s) + N.of_nat (length q) + 1 < two64)%N →
  (N.of_nat (length (table a)) * N.of_nat (block_tokens_ (tree_ s)) < two64)%N →
  wp (release hw q a) (λ a' s', a' = empty_alloc ∧ released s q a live s') s.
Proof.
  intros [L R Hsy Hbt] Hext Hc Hw. unfold release.
  pose proof (ho_ok _ _ (lg_handles _ _ _ L (q0, a) ltac:(by left))) as Hok. simpl in Hok. rewrite Hok. simpl.
  apply (wp_publish q0 q a s live); [done..|]. intros s1 [(P1 & P1' & P1'') P2 P3 P4 P8 P5 P6] L1.
  apply (wp_retire q0 a s1 live); [done| |].
  { eapply residents_ext; [exact P4|]. intros h id Hh. apply R. by right. }
  intros s2 [R1 R2 R3 R4 R5 R6 R7 R8] L2 Rs2.
  wp_step. eapply wp_mono; [by apply wp_fold_in|]. intros [] s3 (F3 & Fr3 & L3).
  wp_step. eapply wp_mono; [apply wp_maintain; apply L3 || apply (lg_tree _ _ _ L3)|].
  intros [] s4 Sp. pose proof (spilled_ledger _ _ _ L3 Sp) as L4. pose proof (frame_spilled _ _ _ L3 Sp) as Fr4.
  pose proof (frame_trans _ _ _ _ Fr3 Fr4) as Fr. wp_steps. split; [done|].
  assert (tree_ s4 = tree_ s2) as Et by (rewrite (sf_tree _ _ (proj1 Sp)); apply F3).
  constructor.
  - constructor; [done|by apply (fr_residents _ _ _ Fr)| |].
    { rewrite (fr_options _ _ _ Fr), R2, P1''. intros Ha%Hsy. apply (fr_promo _ _ _ Fr). rewrite R4. auto. }
    rewrite (fr_cfg _ _ _ Fr), (fr_bt _ _ _ Fr), R1, (ss_bt _ _ R5), P1, P2. done.
  - intros id Hid. apply (lg_live _ _ _ L4) in Hid. eapply (survives_preorder.(PreOrder_Transitive)); [exact P3| |exact Hid].
    rewrite <-R4. apply Fr.
  - rewrite Et. eapply publishes_ext; [|exact R8|exact P6]. intros ds. by apply find_struct.
  - by rewrite Et, (ss_bt _ _ R5).
  - rewrite Et, R7. exact P5.
  - by rewrite (fr_stats _ _ _ Fr), R3, P1'.
Qed.
End release.
