(* ===== verification/ManagerOps.v ===== *)
(** * The other calls

    Construction and teardown, dropped and overwritten handles, waiting for
    promotions, and a worker's turn: what each does to the ledger. *)

From S2P Require Import Prelude Types Tier BlockPool PoolInv PoolOps PoolMigrate PoolAsync PoolWorker PoolHands PoolInit PoolSpec BlockStore.
From S2P Require Import RadixTree RadixInv RadixSplit RadixWalk RadixInsert RadixLru RadixEvict RadixDemote RadixPins RadixState RadixPath RadixDestroy RadixOps.
From S2P Require Import CacheManager ManagerInv ManagerPhases ManagerEvict ManagerFill ManagerPin ManagerAcquire ManagerRelease.

Local Open Scope nat_scope.

Section ops.
Context {T : Type} `{TierLaws T} `{Iter : IterOrder} `{Wk : Wakes T} (hw : N).
Implicit Types (p : BlockPool T) (t : RadixTree) (live : list handle) (s : CacheManager (T := T)).

Lemma manager_ok_perm s live live' : live ≡ₚ live' → manager_ok s live → manager_ok s live'.
Proof.
  intros E [L R Hsy Hbt]. constructor; try done; [by eapply ledger_perm|].
  intros h id Hh. apply R. by rewrite E.
Qed.

(** ** Handles that are dropped or overwritten *)

Lemma destroy_alloc_spec q a s live :
  manager_ok s ((q, a) :: live) → wp (destroy_alloc a) (λ _ s', abandoned_to s a live s') s.
Proof.
  intros Mo. pose proof Mo as [L R Hsy Hbt].
  pose proof (lg_handles _ _ _ L (q, a) ltac:(by left)) as Ha.
  unfold destroy_alloc. pose proof (ho_ok _ _ Ha) as Hok. simpl in Hok. rewrite Hok. simpl.
  destruct (owner_ a) eqn:Hown.
  - wp_steps. eapply wp_mono; [by eapply abandon_spec|]. intros a' s' [_ Ab]. by wp_steps.
  - destruct (ho_owner _ _ Ha) as [Hbad|[Ht Hp]]; [simpl in Hbad; congruence|]. simpl in Ht, Hp.
    assert (fresh_of a = []) as Hf by (unfold fresh_of; by rewrite Ht, drop_nil).
    wp_steps. constructor; try done.
    + constructor; try done; [|intros h id Hh; apply R; by right]. eapply ledger_uncons; [done| |done].
      pose proof (lg_tree _ _ _ L) as Rx. unfold pins_of in Rx. rewrite omap_cons_app in Rx. simpl in Rx.
      rewrite Hp in Rx. exact Rx.
    + intros id Hid. split; [|done]. apply (lg_live _ _ _ L). rewrite held_cons, Hf. exact Hid.
    + intros id. rewrite Hf. by intros ?%not_elem_of_nil.
    + by rewrite Hown.
Qed.

Lemma move_assign_spec q a other s live :
  manager_ok s ((q, a) :: live) →
  wp (move_assign false a other) (λ r s', r = (other, empty_alloc) ∧ abandoned_to s a live s') s.
Proof.
  intros Mo. unfold move_assign. apply (wp_bind (destroy_alloc a)).
  eapply wp_mono; [by eapply destroy_alloc_spec|]. intros [] s' Ab. wp_steps. split; [by destruct other|done].
Qed.

(** ** Waiting *)

Definition in_compute p (id : BlockId) : Prop := ∃ v, view p id = Some v ∧ bv_tier v = 0%N.

Lemma wp_all_in_compute bs s :
  (∀ id, id ∈ bs → is_Some (view (pool_ s) id)) →
  wp (all_in_compute bs) (λ b s', s' = s ∧ (b = true ↔ ∀ id, id ∈ bs → in_compute (pool_ s) id)) s.
Proof.
  induction bs as [|id bs IH]; intros Hlive; simpl.
  - wp_steps. split; [done|]. split; [by intros _ ? ?%not_elem_of_nil|done].
  - destruct (Hlive id) as [v Hv]; [by left|]. wp_steps. eapply wp_pool_run; [by apply block_tier_run|].
    destruct (N.eqb_spec (bv_tier v) 0) as [E|E]; simpl.
    + eapply wp_mono; [apply IH; intros; apply Hlive; by right|]. intros b s' [-> Hb]. split; [done|].
      rewrite Hb. setoid_rewrite elem_of_cons. split; [|by auto]. intros Hall x [->|Hx]; [by exists v|auto].
    + wp_steps. split; [done|]. split; [done|]. intros Hall. destruct (Hall id) as (w & Hw & Ew); [by left|].
      congruence.
Qed.

Lemma manager_ok_frame s s' live :
  manager_ok s live → frame s s' live → ledger (pool_ s') (tree_ s') live → manager_ok s' live.
Proof.
  intros [L R Hsy Hbt] F L'. constructor; [done|by apply (fr_residents _ _ _ F)| |].
  - rewrite (fr_options _ _ _ F). intros Ha. by apply (fr_promo _ _ _ F), Hsy.
  - by rewrite (fr_cfg _ _ _ F), (fr_bt _ _ _ F).
Qed.

(** Every block is where it was: only bytes and the workers moved. *)
Lemma manager_ok_views s p' live :
  manager_ok s live → running p' → (∀ id, view p' id = view (pool_ s) id) →
  manager_ok (with_cache p' (tree_ s) s) live.
Proof.
  intros [L R Hsy Hbt] Ok V. constructor; [|by eapply residents_ext; [intros; apply V|exact R]| |done].
  - eapply ledger_refs; [done|done|]. intros id. by rewrite V.
  - intros Ha. eapply no_promo_sub; [|by apply Hsy]. intros id _. apply V.
Qed.

(** With no promotion under way, what is at hand is in the compute tier. *)
Lemma resident_in_compute p id : no_promo p → resident p id → in_compute p id.
Proof. intros N (v & Hv & [[Ht _]|Ht]); [by exists v|]. by destruct (N id v). Qed.

Lemma ready_spec q a s live :
  manager_ok s live → (q, a) ∈ live →
  wp (ready a) (λ b s', same_front s s' ∧ frame s s' live ∧ manager_ok s' live ∧
    (b = true ↔ ∀ id, id ∈ table a → in_compute (pool_ s') id) ∧
    (no_promo (pool_ s) → b = true)) s.
Proof.
  intros Mo Hin. pose proof Mo as [L R Hsy Hbt]. pose proof (lg_handles _ _ _ L _ Hin) as Ha.
  unfold ready. pose proof (ho_ok _ _ Ha) as Hok. simpl in Hok. rewrite Hok. simpl.
  destruct (owner_ a) eqn:Hown; simpl.
  - wp_step. eapply wp_mono; [by apply wp_fold_in|]. intros [] s1 (F & Fr & L1).
    pose proof (manager_ok_frame _ _ _ Mo Fr L1) as Mo1.
    eapply wp_mono; [apply wp_all_in_compute; intros id Hid; eapply (handle_live _ _ _ (q, a)); done|].
    intros b s' [-> Hb]. split_and!; try done. intros Hno. apply Hb. intros id Hid.
    apply resident_in_compute; [by apply (fr_promo _ _ _ Fr)|]. by eapply (mo_resident _ _ Mo1 (q, a)).
  - wp_steps. destruct (ho_owner _ _ Ha) as [Hbad|[Ht Hp]]; [simpl in Hbad; congruence|]. simpl in Ht.
    split_and!; [done|apply frame_refl|done| |done]. rewrite Ht.
    split; [by intros _ ? ?%not_elem_of_nil|done].
Qed.

(** A pool whose migrations have all landed. *)
Lemma manager_waited s p' live :
  manager_ok s live → running p' → waited (pool_ s) p' →
  let s' := with_cache p' (tree_ s) s in
  same_front s s' ∧ frame s s' live ∧ manager_ok s' live ∧ no_promo (pool_ s').
Proof.
  intros Mo Rp [_ Hc _ _ V _] s'. pose proof Mo as [L R Hsy Hbt].
  assert (steady (pool_ s) p') as Sd by (constructor; [done|intros id; rewrite V; by destruct (view (pool_ s) id)|done]).
  assert (no_promo p') as Hno.
  { intros id v. rewrite V. destruct (view (pool_ s) id); simpl; [|done]. by intros [= <-]. }
  assert (frame s s' live) as Fr.
  { apply frame_steady; [apply same_front_cache|done| |done]. intros _ h id Hh Hid.
    destruct (R h id Hh Hid) as (v & Hv & Ha). exists (settle v). cbn [s' pool_ with_cache]. rewrite V, Hv.
    split; [done|]. left. split; [|done]. unfold settle. simpl. by destruct Ha as [[-> ->]| ->]. }
  split_and!; [apply same_front_cache|done| |done].
  eapply manager_ok_frame; [done|done|]. by eapply ledger_steady.
Qed.

(** After [wait_for_migrations] nothing is under way. *)
Lemma wp_wait_all s live :
  manager_ok s live →
  wp_unless (¬ fair) (pool_op wait_for_migrations) (λ _ s', same_front s s' ∧ frame s s' live ∧ manager_ok s' live ∧
    no_promo (pool_ s')) s.
Proof.
  intros Mo. apply wp_unless_zoom, wp_unless_zoom, wp_unless_then. cbn [fst].
  apply wp_preempt; [apply Mo|]. intros q Rq W. eapply wp_unless_mono; [by apply wait_unless_fair|done|].
  intros [] p' (Rp & Hw). apply (manager_waited s p' live Mo Rp). by eapply worker_waited.
Qed.

(** Nor is it after a drain, when the workers have nothing left to do. *)
Lemma wp_drain_all s live :
  manager_ok s live → work (pool_ s) = 0 →
  wp (pool_op drain_migrations) (λ _ s', same_front s s' ∧ frame s s' live ∧ manager_ok s' live ∧ no_promo (pool_ s')) s.
Proof.
  intros Mo E. apply wp_pool_op. wp_step. eapply wp_mono; [apply preempt_spec, Mo|]. intros [] q (Rq & W & Hq).
  eapply wp_mono; [apply drain_after; [done|done|apply work_done; [done|lia]]|].
  intros [] p' [Rp Hw]. by apply (manager_waited s p' live Mo Rp).
Qed.

(** A caller that comes after the workers are done is not kept waiting. *)
Lemma wait_done fuel q a s live :
  manager_ok s live → (q, a) ∈ live → 0 < fuel → work (pool_ s) = 0 →
  wp (wait_ready fuel a) (λ _ s', ∀ id, id ∈ table a → in_compute (pool_ s') id) s.
Proof.
  intros Mo Hin Hf E. destruct fuel as [|fuel]; [lia|]. unfold wait_ready. cbn [loop]. do 2 wp_step.
  pose proof (lg_handles _ _ _ (mo_ledger _ _ Mo) _ Hin) as Ha.
  eapply (wp_mono _ (λ b s', b = true ∧ ∀ id, id ∈ table a → in_compute (pool_ s') id)); [|intros b s' [-> Hc]; by wp_steps].
  unfold ready. pose proof (ho_ok _ _ Ha) as Hok. simpl in Hok. rewrite Hok. simpl. destruct (owner_ a) eqn:Hown; simpl.
  - wp_step. eapply wp_mono; [by apply wp_drain_all|]. intros [] s1 (_ & _ & Mo1 & Hno).
    assert (∀ id, id ∈ table a → in_compute (pool_ s1) id) as Hc
      by (intros id Hid; apply resident_in_compute; [done|by eapply (mo_resident _ _ Mo1 (q, a))]).
    eapply wp_mono; [apply wp_all_in_compute; intros id Hid; destruct (Hc id Hid) as (v & Hv & _); by exists v|].
    intros b s' [-> Hb]. split; [by apply Hb|done].
  - wp_steps. split; [done|]. destruct (ho_owner _ _ Ha) as [Hbad|[Ht Hp]]; [simpl in Hbad; congruence|]. simpl in Ht.
    rewrite Ht. by intros id ?%not_elem_of_nil.
Qed.

(** Two rounds are enough, unless the wait between them does not end. *)
Lemma wait_ready_spec fuel q a s live :
  manager_ok s live → (q, a) ∈ live → 2 ≤ fuel →
  wp_unless (¬ fair) (wait_ready fuel a) (λ _ s', same_front s s' ∧ frame s s' live ∧ manager_ok s' live ∧
    ∀ id, id ∈ table a → in_compute (pool_ s') id) s.
Proof.
  intros Mo Hin Hfuel. unfold wait_ready.
  eapply (wp_unless_loop _ _ (λ k _ s1, same_front s s1 ∧ frame s s1 live ∧ manager_ok s1 live ∧
    (k = 0 → no_promo (pool_ s1)) ∧ k ≤ 1) (λ k, k) _ _ 1); [|lia|].
  { split_and!; [done|apply frame_refl|done|lia|lia]. }
  intros k [] s1 (F1 & Fr1 & Mo1 & Hno & Hk). apply wp_unless_then.
  eapply wp_mono; [by eapply ready_spec|]. intros b s2 (F2 & Fr2 & Mo2 & Hb & Hb').
  pose proof (frame_trans _ _ _ _ Fr1 Fr2) as Fr. pose proof (transitivity F1 F2) as F. destruct b.
  { split_and!; [done..|]. by apply Hb. }
  assert (k = 1) as -> by (destruct k as [|[|k]]; [|done|lia]; by discriminate (Hb' (Hno eq_refl))).
  apply wp_unless_bind. eapply wp_unless_mono; [by apply wp_wait_all|done|].
  intros [] s3 (F3 & Fr3 & Mo3 & Hno3). exists 0.
  split; [|lia]. split_and!; [by etrans|by eapply frame_trans|done|done|lia].
Qed.

(** ** Workers *)

(** What the workers do on their own changes nothing for the manager. *)
Lemma wp_workers {A} (m : M (BlockPool T) A) (R : BlockPool T → Prop) s live :
  manager_ok s live → wp m (λ _ p', running p' ∧ worker_result (pool_ s) p' ∧ R p') (pool_ s) →
  wp (on_cache (on_pool m)) (λ _ s', frame s s' live ∧ manager_ok s' live ∧ R (pool_ s')) s.
Proof.
  intros Mo Hm. apply wp_on_cache, wp_on_pool. eapply wp_mono; [exact Hm|]. intros a p' (Rp & W & HR).
  pose proof (turns_steady _ _ Rp W) as Sd. fold (with_cache p' (tree_ s) s).
  assert (frame s (with_cache p' (tree_ s) s) live) as Fr.
  { apply frame_steady; [apply same_front_cache|done| |].
    - apply residents_ext. intros. apply W.
    - apply no_promo_sub. intros. apply W. }
  split_and!; [done| |done]. eapply manager_ok_frame; [done|done|].
  eapply ledger_steady; [apply Mo|done].
Qed.

Lemma wp_turn w s live :
  manager_ok s live →
  wp (on_cache (on_pool (take_turn w))) (λ _ s', frame s s' live ∧ manager_ok s' live) s.
Proof.
  intros Mo. pose proof (lg_pool _ _ _ (mo_ledger _ _ Mo)) as Rp.
  eapply wp_mono; [apply (wp_workers _ (λ _, True)); [done|]|].
  - eapply wp_mono; [apply take_turn_spec, Rp|]. intros [] p' [Mn W _ _ _]. split_and!; [by eapply running_worker|done..].
  - by intros [] s' (? & ? & _).
Qed.

Lemma wp_schedule ts s live :
  manager_ok s live →
  wp (on_cache (on_pool (schedule ts))) (λ _ s', frame s s' live ∧ manager_ok s' live) s.
Proof.
  intros Mo. eapply wp_mono; [apply (wp_workers _ (λ _, True)); [done|]|].
  - eapply wp_mono; [apply schedule_spec, Mo|]. by intros [] p' [? ?].
  - by intros [] s' (? & ? & _).
Qed.

(** ** Construction and teardown *)

Lemma make_manager_spec specs cfg (objs : gmap TierPtr T) options :
  specs ≠ [] → Forall (spec_ok cfg objs) specs → NoDup (spec_tier <$> specs) →
  (total_blocks specs <= kInvalidBlock)%N → block_tokens cfg ≠ 0%N →
  ∃ s, make_manager specs cfg objs options = Ok s ∧ manager_ok s [] ∧
    options_ s = options ∧ mgr_cfg_ s = cfg ∧
    (∀ cs, find (tree_ s) cs = None).
Proof.
  intros Hne Hall Hnd Htot Hbt. set (p := empty_pool specs cfg objs).
  assert (init specs cfg objs = Ok p) as Hi.
  { apply init_run. split_and!; [done| |done]. by eapply Forall_impl, spec_ok_accepted. }
  assert (pool_ok p) as Ok by (by apply empty_pool_ok).
  assert (∀ id, view p id = None) as Hv by (intros; apply empty_pool_view).
  assert (0 < N.to_nat (block_tokens cfg)) as Hpos by lia.
  unfold make_manager, make_tree. rewrite Hi, (proj2 (Nat.ltb_lt _ _) Hpos). eexists. split; [done|].
  assert (all_blocks (mk_tree (N.to_nat (block_tokens cfg)) {[0%N := empty_node]} 0 0 0 0 0 1) = []) as Eb
    by (unfold all_blocks, runs; simpl; by rewrite map_to_list_singleton).
  split_and!; try done; cbn [pool_ tree_].
  - constructor; cbn [pool_ tree_ mgr_cfg_]; [|by intros ? ? ?%not_elem_of_nil| |done].
    + constructor; [by apply running_idle; [..|intros []]|by apply new_ok| | | |by intros ? ?%not_elem_of_nil].
      * rewrite Eb. constructor.
      * intros id. rewrite Eb, Hv. split; [by intros [? ?]|by intros ?%not_elem_of_nil].
      * intros id v. by rewrite Hv.
    + intros _ id v. by rewrite Hv.
  - by apply new_find.
Qed.

(** Once no handle is out, tearing the cache down frees every block, and no
    worker is left with a job. *)
Lemma destroy_manager_spec s :
  manager_ok s [] →
  wp destroy_manager (λ _ s', pool_ok (pool_ s') ∧ (∀ id, view (pool_ s') id = None) ∧
    nodes (tree_ s') = ∅ ∧ stopping_ (pool_ s') = true ∧ hands_ (pool_ s') = ∅) s.
Proof.
  intros [L R Hsy Hbt]. unfold destroy_manager. wp_step. apply wp_on_cache.
  eapply wp_mono; [apply destroy_spec; apply L || apply (lg_tree _ _ _ L)|].
  intros [] [p' u] (Ok & _ & Hn & V). cbn [fst snd] in *. apply wp_pool_op, wp_turned; [done|]. intros q Rq W.
  eapply wp_mono; [by apply stop_spec|]. intros [] p2 (Ok2 & V2 & Hs & Hh).
  cbn [pool_ with_cache tree_]. split_and!; [done| |done..]. intros id. rewrite V2, (wr_view _ _ W).
  change (decrefed (view (pool_ s)) (view p') (all_blocks (tree_ s))) in V.
  rewrite V. case_decide as Hid.
  - apply dec_view_sole. destruct (proj2 (lg_live _ _ _ L id)) as [v Hv]; [by rewrite app_nil_r|].
    exists v. split; [done|]. by eapply lg_refs.
  - destruct (view (pool_ s) id) eqn:Hv; [|done]. destruct Hid.
    rewrite <-(app_nil_r (all_blocks _)). apply (lg_live _ _ _ L). by eexists.
Qed.
End ops.
