(* ===== verification/ManagerSpec.v ===== *)
(** * What the cache manager promises

    The contract of src/cache_manager.cpp, and the system it makes together
    with its callers and the migration workers: any sequence of calls, with the
    workers' steps anywhere between and inside them, keeps every block owned
    exactly once and stops at no failure. *)

From S2P Require Import Prelude Double Types Tier BlockPool PoolInv PoolOps PoolMigrate PoolAsync PoolWorker PoolHands PoolInit PoolSpec BlockStore.
From S2P Require Import RadixTree RadixInv RadixSplit RadixWalk RadixInsert RadixLru RadixEvict RadixDemote RadixPins RadixState RadixPath RadixDestroy RadixOps RadixSpec.
From S2P Require Import CacheManager ManagerInv ManagerPhases ManagerEvict ManagerFill ManagerPin ManagerAcquire ManagerRelease ManagerOps.

Local Open Scope nat_scope.

Section system.
Context {T : Type} `{TierLaws T} `{Iter : IterOrder} `{Wk : Wakes T} (hw : N).
Implicit Types (p : BlockPool T) (t : RadixTree) (live : list handle) (s : CacheManager (T := T)).

(** ** The manager, its callers and the workers *)

(** What can happen next: a request, a handle given back with the tokens of its
    sequence, a handle dropped, a caller waiting for its table, a worker thread
    taking its turn, a choice of the threads that take turns inside the coming
    calls. Handles are named by their position. *)
Inductive action :=
  | Acquire (q : list TokenId)
  | Release (i : nat) (q : list TokenId)
  | Drop (i : nat)
  | Wait (i : nat)
  | Turn (w : nat)
  | Schedule (ts : list (list nat)).

Definition system : Type := CacheManager (T := T) * list handle.

Definition exec (act : action) (sys : system) : result system :=
  let '(s, live) := sys in
  match act with
  | Acquire q =>
      match acquire hw q s with
      | Ok (a, s') => Ok (s', if ok a then (q, a) :: live else live)
      | Err e => Err e
      end
  | Release i q =>
      match live !! i with
      | None => Err (BadPointer "handle")
      | Some (_, a) => match release hw q a s with Ok (_, s') => Ok (s', delete i live) | Err e => Err e end
      end
  | Drop i =>
      match live !! i with
      | None => Err (BadPointer "handle")
      | Some (_, a) => match destroy_alloc a s with Ok (_, s') => Ok (s', delete i live) | Err e => Err e end
      end
  | Wait i =>
      match live !! i with
      | None => Err (BadPointer "handle")
      | Some (_, a) => match wait_ready 2 a s with Ok (_, s') => Ok (s', live) | Err e => Err e end
      end
  | Turn w =>
      match on_cache (on_pool (take_turn w)) s with Ok (_, s') => Ok (s', live) | Err e => Err e end
  | Schedule ts =>
      match on_cache (on_pool (schedule ts)) s with Ok (_, s') => Ok (s', live) | Err e => Err e end
  end.

(** What callers have to respect: they name handles they hold, give a handle
    back with a sequence that starts with its cached prefix, and stop before
    the tree's 64-bit clock, a 64-bit size or a 32-bit pin count overflows. *)
Definition legal (act : action) (sys : system) : Prop :=
  let '(s, live) := sys in
  match act with
  | Acquire q =>
      (size_of q + block_tokens (mgr_cfg_ s) < two64)%N ∧
      (clock_ (tree_ s) + N.of_nat (length q) < two64)%N ∧ (N.of_nat (length live) + 1 < two32)%N
  | Release i q =>
      (∃ q0 a, live !! i = Some (q0, a) ∧ extends a q0 q) ∧
      (clock_ (tree_ s) + N.of_nat (length q) + 1 < two64)%N
  | Drop i | Wait i => i < length live
  | Turn _ | Schedule _ => True
  end.

Inductive reachable : system → Prop :=
  | reach_make specs cfg (objs : gmap TierPtr T) options s :
      specs ≠ [] → Forall (spec_ok cfg objs) specs → NoDup (spec_tier <$> specs) →
      (total_blocks specs <= kInvalidBlock)%N → block_tokens cfg ≠ 0%N →
      make_manager specs cfg objs options = Ok s → reachable (s, [])
  | reach_exec act sys sys' : reachable sys → legal act sys → exec act sys = Ok sys' → reachable sys'.

(** Every request was served or refused. *)
Definition tallied (st : Stats) : Prop := requests st = u64 (served st + alloc_failures st).

Lemma tallied_ext st st' : request_stats st' = request_stats st → tallied st → tallied st'.
Proof. unfold request_stats, tallied. by intros [= -> -> _ _ -> _]. Qed.

Lemma tallied_served q hit st : tallied st → tallied (counted q hit st).
Proof.
  unfold tallied, counted. intros E. case_bool_decide;
    cbn [requests served alloc_failures add_tokens bump_served bump_requests]; unfold inc;
    rewrite E, !u64_add; f_equal; lia.
Qed.

Lemma tallied_refused st : tallied st → tallied (bump_failures (bump_requests st)).
Proof.
  unfold tallied. cbn [requests served alloc_failures bump_failures bump_requests]. intros ->. unfold inc.
  rewrite u64_add, (N.add_comm (served st) (u64 _)), u64_add. f_equal. lia.
Qed.

(** What every reachable state satisfies. *)
Record system_ok (sys : system) : Prop := {
  so_manager : manager_ok sys.1 sys.2;
  so_stats : tallied (stats_ sys.1);
  so_tables h : h ∈ sys.2 →
    (N.of_nat (length (table h.2)) * N.of_nat (block_tokens_ (tree_ sys.1)) < two64)%N;
}.

Lemma delete_perm (live : list handle) i h : live !! i = Some h → live ≡ₚ h :: delete i live.
Proof. apply delete_Permutation. Qed.

Lemma ceil_fits n bt :
  0 < bt → (N.of_nat n + N.of_nat bt < two64)%N →
  (N.of_nat ((n + bt - 1) / bt) * N.of_nat bt < two64)%N.
Proof. intros Hbt Hlt. pose proof (Nat.Div0.mul_div_le (n + bt - 1) bt). lia. Qed.

Lemma system_step sys s' live' :
  system_ok sys → manager_ok s' live' →
  block_tokens_ (tree_ s') = block_tokens_ (tree_ sys.1) → tallied (stats_ s') →
  (∀ h, h ∈ live' → h ∈ sys.2 ∨
     (N.of_nat (length (table h.2)) * N.of_nat (block_tokens_ (tree_ s')) < two64)%N) →
  system_ok (s', live').
Proof.
  intros [S1 S5 S4] Mo Ebt Hst Hh.
  constructor; simpl; [done|done|].
  intros h Hin. destruct (Hh h Hin) as [Hold|]; [|done]. rewrite Ebt. by apply S4.
Qed.

Lemma system_ok_perm s live live' : live ≡ₚ live' → system_ok (s, live) → system_ok (s, live').
Proof.
  intros E [S1 S4 S5]. constructor; try done; [by eapply manager_ok_perm|].
  intros h Hh. apply S5. simpl in *. by rewrite E.
Qed.

Lemma acquire_system q s live :
  system_ok (s, live) → legal (Acquire q) (s, live) →
  wp (acquire hw q) (λ a s',
    (ok a = true ∧ acquired s q live a s' ∧ system_ok (s', (q, a) :: live)) ∨
    (a = empty_alloc ∧ refused s q live s' ∧ system_ok (s', live))) s.
Proof.
  intros So (H1 & H2 & H3). pose proof So as [Mo Hst Htab]. cbn [fst snd] in *.
  eapply wp_mono; [by apply acquire_spec|]. intros a s' [A|[-> A]]; [left|right].
  - split_and!; [|done|].
    { apply (ho_ok _ _ (lg_handles _ _ _ (mo_ledger _ _ (aq_ok _ _ _ _ _ A)) (q, a) ltac:(by left))). }
    eapply (system_step (s, live)); [done|apply A..|by eapply tallied_ext, tallied_served; [apply A|]|].
    intros h [->|Hh]%elem_of_cons; [right|by left]. simpl.
    rewrite (aq_size _ _ _ _ _ A), (aq_bt _ _ _ _ _ A).
    pose proof (ti_bt _ (rx_inv _ _ _ (lg_tree _ _ _ (mo_ledger _ _ Mo)))).
    rewrite <-(mo_bt _ _ Mo). apply ceil_fits; [rewrite (mo_bt _ _ Mo); lia|]. unfold size_of in H1. lia.
  - split_and!; [done..|]. eapply (system_step (s, live)); [done|apply A..| |by left].
    by eapply tallied_ext, tallied_refused; [apply A|].
Qed.

Lemma release_system q0 q a s live :
  system_ok (s, (q0, a) :: live) → extends a q0 q → (clock_ (tree_ s) + N.of_nat (length q) + 1 < two64)%N →
  wp (release hw q a) (λ a' s', a' = empty_alloc ∧ released s q a live s' ∧ system_ok (s', live)) s.
Proof.
  intros So Hext Hc. pose proof So as [Mo Hst Htab]. cbn [fst snd] in *.
  eapply wp_mono; [eapply release_spec; [exact Mo|done|done|]; apply (Htab (q0, a)); by left|].
  intros a' s' [-> R]. split_and!; [done..|].
  eapply system_step; [exact So|apply R..|by eapply tallied_ext; [apply R|]|]. intros h Hh. left. by right.
Qed.

Lemma drop_system q0 a s live :
  system_ok (s, (q0, a) :: live) → wp (destroy_alloc a) (λ _ s', system_ok (s', live)) s.
Proof.
  intros So. pose proof So as [Mo Hst _]. cbn [fst snd] in *.
  eapply wp_mono; [by eapply destroy_alloc_spec|]. intros [] s' Ab.
  eapply system_step; [exact So|apply Ab..| |intros h Hh; left; by right].
  eapply tallied_ext; [apply Ab|]. by destruct (owner_ a).
Qed.

Lemma frame_system s s' live :
  system_ok (s, live) → frame s s' live → manager_ok s' live → system_ok (s', live).
Proof.
  intros So Fr Mo. eapply system_step; [exact So|done|apply Fr| |by left].
  eapply tallied_ext; [apply Fr|apply So].
Qed.

Lemma wait_system q a s live :
  system_ok (s, live) → (q, a) ∈ live →
  wp_unless (¬ fair) (wait_ready 2 a) (λ _ s', same_front s s' ∧ system_ok (s', live)) s.
Proof.
  intros So Hin. pose proof So as [Mo _ _]. cbn [fst snd] in *.
  eapply wp_unless_mono; [by eapply wait_ready_spec|done|]. intros [] s' (F & Fr & Mo' & _).
  split; [done|]. by eapply frame_system.
Qed.

(** A wait that does not end. *)
Definition waits_for_good (act : action) (r : result system) : Prop :=
  (∃ i, act = Wait i) ∧ r = Err Blocked ∧ ¬ fair.

(** Every legal action runs to its end and keeps the system well formed, unless
    it is a wait that does not end. *)
Lemma exec_ok act sys :
  system_ok sys → legal act sys →
  waits_for_good act (exec act sys) ∨ ∃ sys', exec act sys = Ok sys' ∧ system_ok sys'.
Proof.
  destruct sys as [s live]. intros So Hl.
  assert (∀ i q a, live !! i = Some (q, a) → system_ok (s, (q, a) :: delete i live)) as Hout
    by (intros; eapply system_ok_perm; [by apply delete_perm|done]).
  destruct act as [q|i q|i|i|w|ts]; cbn [exec]; [right|right|right| |right|right].
  - destruct (wp_result _ _ _ (acquire_system q s live So Hl)) as (a & s' & -> & Hq). eexists. split; [done|].
    destruct Hq as [(-> & _ & Hs)|(-> & _ & Hs)]; exact Hs.
  - destruct Hl as ((q0 & a & Hi & Hext) & Hc). rewrite Hi.
    destruct (wp_result _ _ _ (release_system q0 q a s _ (Hout i q0 a Hi) Hext Hc)) as (a' & s' & -> & _ & _ & Hs).
    eauto.
  - destruct (lookup_lt_is_Some_2 live i Hl) as [[q0 a] Hi]. rewrite Hi.
    destruct (wp_result _ _ _ (drop_system q0 a s _ (Hout i q0 a Hi))) as ([] & s' & -> & Hs). eauto.
  - destruct (lookup_lt_is_Some_2 live i Hl) as [[q0 a] Hi]. rewrite Hi.
    assert ((q0, a) ∈ live) as Hin by (by eapply list_elem_of_lookup_2).
    pose proof (wait_system q0 a s live So Hin) as Hw. apply wp_unless_result in Hw as [[-> Hf]|([] & s' & -> & _ & Hs)];
      [left|right; eauto]. split; [by eexists|done].
  - destruct (wp_result _ _ _ (wp_turn w s live (so_manager _ So))) as ([] & s' & -> & Fr & Mo').
    eexists. split; [done|]. by eapply frame_system.
  - destruct (wp_result _ _ _ (wp_schedule ts s live (so_manager _ So))) as ([] & s' & -> & Fr & Mo').
    eexists. split; [done|]. by eapply frame_system.
Qed.

Lemma reachable_ok sys : reachable sys → system_ok sys.
Proof.
  induction 1 as [specs cfg objs options s Hne Hall Hnd Htot Hbt Hm|act sys sys' _ IH Hl He].
  - destruct (make_manager_spec specs cfg objs options Hne Hall Hnd Htot Hbt)
      as (s' & Hm' & Mo & _). rewrite Hm in Hm'. injection Hm' as <-.
    constructor; [done| |by intros h ?%not_elem_of_nil].
    clear -Hm. unfold make_manager in Hm. repeat case_match; try done. by injection Hm as <-.
  - destruct (exec_ok act sys IH Hl) as [(_ & He2 & _)|(sys2 & He2 & So)]; [congruence|]. rewrite He in He2. by injection He2 as <-.
Qed.

(** ** The contract *)

(** C4: [acquire]. On a well-formed manager it always returns, and no assertion
    on the way can fail. Either the request is served: the table has exactly
    the blocks the tokens need, it starts with the longest cached prefix, every
    block of it is in the compute tier or on its way there, the new blocks are
    the request's alone, and the request enters the ledger with its pin. Or it
    is refused and leaves no trace in the ledger: there is less room than it
    needs even though every leaf left in the tree is pinned or is part of its
    own prefix. In both cases the cache forgets entries at most, and every
    block the tree or another handle still holds keeps its bytes. *)
Theorem manager_acquire q s live :
  manager_ok s live → (size_of q + block_tokens (mgr_cfg_ s) < two64)%N →
  (clock_ (tree_ s) + N.of_nat (length q) < two64)%N → (N.of_nat (length live) + 1 < two32)%N →
  wp (acquire hw q) (λ a s', acquired s q live a s' ∨ (a = empty_alloc ∧ refused s q live s')) s.
Proof. by apply acquire_spec. Qed.

(** C5: [release] of a handle with a sequence that starts with its cached
    prefix. The tree takes over the blocks it does not cache yet, so that the
    whole sequence is cached afterwards unless a key collides; the blocks it
    does not want are freed, the pin is gone, the handle is empty and out of
    the ledger, and no other handle or cache entry changes. Releasing a handle
    that is not live does nothing. *)
Theorem manager_release q0 q a s live :
  (ok a = false → release hw q a s = Ok (a, s)) ∧
  (manager_ok s ((q0, a) :: live) → extends a q0 q →
   (clock_ (tree_ s) + N.of_nat (length q) + 1 < two64)%N →
   (N.of_nat (length (table a)) * N.of_nat (block_tokens_ (tree_ s)) < two64)%N →
   wp (release hw q a) (λ a' s', a' = empty_alloc ∧ released s q a live s') s).
Proof. split; [intros Hok; unfold release; by rewrite Hok|]. intros. by eapply release_spec. Qed.

(** C7: a handle that is destroyed, or overwritten by another, gives back the
    blocks it allocated and its pin, exactly once; the cache stays as it is.
    The handle that was moved from is empty, so that nothing is given back
    twice. *)
Theorem manager_drop q a other s live :
  manager_ok s ((q, a) :: live) →
  wp (destroy_alloc a) (λ _ s', abandoned_to s a live s') s ∧
  wp (move_assign false a other) (λ r s', r = (other, empty_alloc) ∧ abandoned_to s a live s') s ∧
  move_assign true a a s = Ok ((a, a), s) ∧ (move_alloc a).2 = empty_alloc.
Proof.
  intros Mo. split_and!; [by eapply destroy_alloc_spec|by eapply move_assign_spec|done|done].
Qed.

(** C8: wherever the workers are when it is called and whatever they do in the
    meantime, [wait_ready] returns after at most two rounds, with every block
    of the table in the compute tier, the ledger, the tree and the other
    handles as they were, or the workers do not let it: only when they are not
    [fair], which starving a thread is, and so is losing the notification of the
    last job, does it wait for good, and nothing else can go wrong. When
    promotions are synchronous there is nothing to wait for: a handle is ready
    from the start, and [wait_ready] returns whatever the workers do. *)
Theorem manager_wait_ready fuel q a s live :
  manager_ok s live → (q, a) ∈ live → 2 ≤ fuel →
  wp_unless (¬ fair) (wait_ready fuel a) (λ _ s', tree_ s' = tree_ s ∧ manager_ok s' live ∧
    survives (pool_ s) (pool_ s') ∧ ∀ id, id ∈ table a → in_compute (pool_ s') id) s ∧
  (async_promotion (options_ s) = false →
   wp (ready a) (λ b s', b = true ∧ manager_ok s' live) s ∧
   wp (wait_ready fuel a) (λ _ s', manager_ok s' live ∧ ∀ id, id ∈ table a → in_compute (pool_ s') id) s).
Proof.
  intros Mo Hin Hf. split.
  - eapply wp_unless_mono; [by eapply wait_ready_spec|done|]. intros [] s' (F & Fr & Mo' & Hc).
    split_and!; [apply F|done|apply Fr|done].
  - intros Ha. pose proof (mo_sync _ _ Mo Ha) as Hno. split.
    + eapply wp_mono; [by eapply ready_spec|]. intros b s' (_ & _ & Mo' & _ & Hb). split; [by apply Hb|done].
    + unfold wait_ready. destruct fuel as [|fuel]; [lia|]. cbn [loop]. wp_step. wp_step.
      eapply wp_mono; [by eapply ready_spec|]. intros b s' (_ & _ & Mo' & Hc & Hb). rewrite (Hb Hno) in Hc |- *.
      wp_steps. split; [done|]. by apply Hc.
Qed.

(** C6: what one request computes the next one reuses. Release a handle and
    acquire the same tokens again: unless a key collided, a request that is
    served finds all of its whole blocks cached, under the blocks that were
    cached before followed by those of the released table, and all of them
    hold the bytes they held before the release. *)
Theorem manager_hit_after_release q0 q a s live :
  let bt := block_tokens_ (tree_ s) in
  let c := cached (tree_ s) (chunks bt q) in
  manager_ok s ((q0, a) :: live) → extends a q0 q → length q / bt ≤ length (table a) →
  (clock_ (tree_ s) + 2 * N.of_nat (length q) + 1 < two64)%N → (N.of_nat (length live) + 1 < two32)%N →
  (N.of_nat (length (table a)) * N.of_nat bt < two64)%N → (N.of_nat (length q) + N.of_nat bt < two64)%N →
  wp (release hw q a) (λ _ s1, collisions_ (tree_ s1) = collisions_ (tree_ s) →
    wp (acquire hw q) (λ a2 s2, ok a2 = true →
      cached_blocks a2 = length q / bt ∧
      take (cached_blocks a2) (table a2) = c ++ drop (length c) (take (length q / bt) (table a)) ∧
      ∀ id, id ∈ take (cached_blocks a2) (table a2) →
        block_contents (pool_ s2) id = block_contents (pool_ s) id) s1) s.
Proof.
  intros bt c Mo Hext Hlen Hc Hn Hw Hsz. eapply wp_mono; [by eapply release_spec; [..|lia|]|].
  intros a' s1 [_ R] Hcol. pose proof (rs_ok _ _ _ _ _ R) as Mo1.
  assert (insert_len bt q (table a) = length q / bt) as EL by (unfold insert_len; lia).
  pose proof (publishes_cached _ _ _ _ (rs_publishes _ _ _ _ _ R) Hcol) as Ec. fold bt c in Ec. rewrite EL in Ec.
  pose proof (rs_bt _ _ _ _ _ R) as Ebt. fold bt in Ebt.
  assert (length c ≤ length q / bt) as Hcl by (rewrite <-length_chunks; apply follow_length).
  eapply wp_mono.
  { apply acquire_spec; [exact Mo1| |pose proof (rs_clock _ _ _ _ _ R); lia|done].
    pose proof (mo_bt _ _ Mo1) as E. rewrite Ebt in E. unfold size_of. lia. }
  intros a2 s2 [A|[-> _]] Hok; [|done]. pose proof (aq_cached _ _ _ _ _ A) as At.
  pose proof (aq_hit_blocks _ _ _ _ _ A) as Ah. rewrite Ebt, Ec in At, Ah.
  rewrite length_app, length_drop, length_take in Ah. split_and!; [lia|done|].
  intros id Hid. pose proof (aq_ok _ _ _ _ _ A) as [L2 _ _ _].
  destruct (cached_path (tree_ s2) (q, a2) id) as (l & ls & _ & _ & Hp%path_blocks_all);
    [apply L2; by left|done|].
  destruct (aq_kept _ _ _ _ _ A id) as [Hv ->]; [set_solver|].
  apply (rs_kept _ _ _ _ _ R). by apply (lg_live _ _ _ (mo_ledger _ _ Mo1)).
Qed.

(** C3: the system is well formed at all times. From construction on, whatever
    legal sequence of requests, releases, drops and waits happens, and whatever
    turns the workers take between two calls or between two calls of the pool
    inside one, every live block is owned exactly once and with count 1, by the
    tree or by the one handle that allocated it, every handle's pin and table
    are sound, and the counters say that each request was served or refused;
    the next legal action runs to its end, without an abort, a failed
    assertion or an endless loop, or it is a wait and the workers, not being
    [fair], never let it go; and once no handle is out, destroying the manager
    leaves no block behind, and no worker with a job. *)
Theorem manager_reachable sys :
  reachable sys →
  manager_ok sys.1 sys.2 ∧ tallied (stats_ sys.1) ∧
  (∀ act, legal act sys →
     (∃ sys', exec act sys = Ok sys' ∧ reachable sys') ∨ waits_for_good act (exec act sys)) ∧
  (sys.2 = [] →
   wp destroy_manager (λ _ s', (∀ id, view (pool_ s') id = None) ∧ hands_ (pool_ s') = ∅) sys.1).
Proof.
  intros Hr. pose proof (reachable_ok sys Hr) as So. split_and!; [apply So..| |].
  - intros act Hl. destruct (exec_ok act sys So Hl) as [?|(sys' & He & _)]; [by right|left]. exists sys'.
    split; [done|]. by eapply reach_exec.
  - intros E. eapply wp_mono; [apply destroy_manager_spec; rewrite <-E; apply So|]. by intros [] s' (_ & ? & _ & _ & ?).
Qed.
End system.

(** ** The hit rate *)

(** Hits are among the tokens served. *)
Definition hits_fit (st : Stats) : Prop := (hit_tokens st <= total_tokens st)%N.

Lemma hit_rate_unit st : hits_fit st → (total_tokens st < 2 ^ 53)%N → in_unit (hit_rate st).
Proof.
  unfold hits_fit, hit_rate. intros Hle Hlt. destruct (N.eqb_spec (total_tokens st) 0%N) as [|Hne]; [done|].
  pose proof (of_u64_exact (total_tokens st) ltac:(lia)) as Ht. destruct (N.eq_dec (hit_tokens st) 0%N) as [->|Hh].
  - destruct Ht as (m & e & -> & _). done.
  - eapply div_in_unit; [apply of_u64_exact; lia|exact Ht|lia].
Qed.

Lemma hits_counted q hit st :
  hits_fit st → hit ≤ length q → (total_tokens st + N.of_nat (length q) < two64)%N →
  hits_fit (counted q hit st) ∧ (total_tokens (counted q hit st) <= total_tokens st + N.of_nat (length q))%N.
Proof.
  unfold hits_fit, counted. intros Hf Hh Hlt. case_bool_decide; cbn [hit_tokens total_tokens add_tokens bump_served bump_requests];
    [split; [done|lia]|]. rewrite !u64_small by lia. lia.
Qed.

(** ** A concrete manager: two tiers of two blocks, a request for both *)

Module ExampleManager.
#[local] Instance iter1 : IterOrder := {| iter := map_to_list; iter_perm m := reflexivity _ |}.
#[local] Existing Instance round_robin.
Abbreviation Mgr := (CacheManager (T := HostTier.t)).

Definition opts : Options := {| spill_watermark := 1; async_promotion := false |}.
Definition m0 : Mgr := mk_manager Example2.cfg Example2.p0 ExampleTree.t0 zero_stats opts [].
Definition q : list TokenId := [1; 2; 3; 4]%Z.

Definition result_of {A} (d : A) (m : M Mgr A) (s : Mgr) : A * Mgr :=
  match m s with Ok r => r | Err _ => (d, s) end.
Definition a1 : Allocation := (result_of empty_alloc (acquire 1 q) m0).1.
Definition m1 : Mgr := (result_of empty_alloc (acquire 1 q) m0).2.

Lemma m0_made : make_manager Example2.specs Example2.cfg Example2.objs opts = Ok m0.
Proof. vm_compute. reflexivity. Qed.

Lemma tiers_nodup : NoDup (spec_tier <$> Example2.specs).
Proof. apply NoDup_cons; split; [|apply NoDup_singleton]. by intros Hx%list_elem_of_singleton. Qed.

Lemma m0_ok : manager_ok m0 [].
Proof.
  destruct (make_manager_spec Example2.specs Example2.cfg Example2.objs opts) as (s & E & Mo & _);
    [done|apply Example2.specs_fit|apply tiers_nodup|done|done|].
  rewrite m0_made in E. injection E as <-. done.
Qed.

Lemma m1_run : acquire 1 q m0 = Ok (a1, m1).
Proof. vm_compute. reflexivity. Qed.
Lemma a1_ok : ok a1 = true.
Proof. vm_compute. reflexivity. Qed.
Lemma a1_table : table a1 = [0; 1]%N ∧ cached_tokens a1 = 0.
Proof. vm_compute. split; reflexivity. Qed.
Lemma m1_front : block_tokens_ (tree_ m1) = 2 ∧ clock_ (tree_ m1) = 0%N ∧ collisions_ (tree_ m1) = 0%N.
Proof. vm_compute. split_and!; reflexivity. Qed.
Lemma m1_ok : manager_ok m1 [(q, a1)].
Proof.
  destruct (wp_run _ _ _ _ _ (acquire_spec 1 q m0 [] m0_ok ltac:(done) ltac:(done) ltac:(done)) m1_run)
    as [A|[E _]]; [apply A|]. pose proof a1_ok as Hok. by rewrite E in Hok.
Qed.

Lemma a1_extends : extends a1 q q.
Proof. destruct a1_table as [_ E]. unfold extends. rewrite E. simpl. split; [reflexivity|lia]. Qed.

Lemma manager_acquire_witness : acquire 1 q m0 = Ok (a1, m1) ∧ length (table a1) = 2.
Proof.
  split; [exact m1_run|].
  destruct (wp_run _ _ _ _ _ (manager_acquire 1 q m0 [] m0_ok ltac:(done) ltac:(done) ltac:(done)) m1_run)
    as [A|[E _]].
  - exact (aq_size _ _ _ _ _ A).
  - exfalso. pose proof a1_ok as Hok. rewrite E in Hok. discriminate Hok.
Defined.

Lemma manager_release_witness : wp (release 1 q a1) (λ a' s', a' = empty_alloc ∧ manager_ok s' []) m1.
Proof.
  destruct (manager_release 1 q q a1 m1 []) as [_ Hr]. destruct a1_table as [Et _], m1_front as (Eb & Ec & _).
  eapply wp_mono; [apply Hr; [apply m1_ok|apply a1_extends|rewrite Ec; done|rewrite Et, Eb; done]|].
  intros a' s' [Ha R]. split; [exact Ha|apply R].
Defined.

Lemma manager_drop_witness : wp (destroy_alloc a1) (λ _ s', manager_ok s' []) m1.
Proof.
  destruct (manager_drop q a1 empty_alloc m1 [] m1_ok) as [Hd _].
  eapply wp_mono; [exact Hd|]. intros [] s' Ab. apply Ab.
Defined.

Lemma manager_wait_ready_witness : wp (wait_ready 2 a1) (λ _ s', in_compute (pool_ s') 0%N) m1.
Proof.
  destruct (manager_wait_ready 2 q a1 m1 [(q, a1)]) as [Hw _]; [apply m1_ok|by left|lia|].
  eapply wp_mono; [exact (wp_unless_never _ _ _ _ (λ n, n round_robin_fair) Hw)|].
  intros [] s' (_ & _ & _ & Hc). apply Hc. destruct a1_table as [-> _]. by left.
Defined.

Lemma manager_hit_after_release_witness :
  wp (release 1 q a1) (λ _ s1, collisions_ (tree_ s1) = 0%N →
    wp (acquire 1 q) (λ a2 _, ok a2 = true → cached_blocks a2 = 2) s1) m1.
Proof.
  destruct a1_table as [Et _], m1_front as (Eb & Ec & Ecol).
  eapply wp_mono.
  - apply (manager_hit_after_release 1 q q a1 m1 []).
    + apply m1_ok.
    + apply a1_extends.
    + rewrite Et, Eb. simpl. lia.
    + rewrite Ec. done.
    + done.
    + rewrite Et, Eb. done.
    + rewrite Eb. done.
  - cbv beta. intros a' s1 Hh Hcol. eapply wp_mono; [apply Hh; by rewrite Ecol|].
    intros a2 s2 Ha Hok. destruct (Ha Hok) as [E _]. rewrite E, Eb. reflexivity.
Defined.

Lemma manager_reachable_witness :
  ∃ sys', exec 1 (Acquire q) (m0, []) = Ok sys' ∧ manager_ok sys'.1 sys'.2.
Proof.
  assert (reachable 1 (m0, [])) as Hr.
  { eapply reach_make; [|apply Example2.specs_fit|apply tiers_nodup| | |apply m0_made]; done. }
  destruct (manager_reachable 1 _ Hr) as (_ & _ & Hex & _).
  destruct (Hex (Acquire q)) as [(sys' & He & Hr')|([i Hw] & _)]; [done| |discriminate Hw]. exists sys'. split; [exact He|].
  apply (manager_reachable 1 _ Hr').
Defined.
End ExampleManager.
