(* ===== verification/Serving.v ===== *)
(** * Serving: many requests, many workers, one cache

    The whole engine as its users see it. Requests enter and leave the manager,
    each computes the KV of the blocks it was allocated, and the migration
    workers take their steps between those calls and inside them, any number of
    them on jobs of their own. The question is the one that matters to an inference engine: the
    bytes a request finds under its cached prefix are the KV of exactly those
    tokens. *)

From S2P Require Import Prelude Types Tier BlockPool PoolInv PoolOps PoolMigrate PoolAsync PoolWorker PoolHands PoolInit PoolSpec BlockStore.
From S2P Require Import RadixTree RadixInv RadixSplit RadixWalk RadixInsert RadixLru RadixEvict RadixDemote RadixPins RadixState RadixPath RadixDestroy RadixOps RadixSpec.
From S2P Require Import CacheManager ManagerInv ManagerPhases ManagerEvict ManagerFill ManagerPin ManagerAcquire ManagerRelease ManagerOps ManagerSpec.

Local Open Scope nat_scope.

Section serving.
Context {T : Type} `{TierLaws T} `{Iter : IterOrder} `{Wk : Wakes T} (hw : N).
Implicit Types (p : BlockPool T) (t : RadixTree) (live : list handle) (s : CacheManager (T := T)).

(** The engine: the manager, the workers of its pool among it, and the handles
    that are out. *)
Record engine := mk_engine {
  eng_mgr : CacheManager (T := T);
  eng_live : list handle;
}.

(** The jobs the worker threads hold. *)
Definition eng_hands (e : engine) : gmap nat (JobPtr * stage) := hands_ (pool_ (eng_mgr e)).

(** What happens next: a call of the manager or a turn of a worker, or a request
    writing block [k] of its table. *)
Inductive event :=
  | Call (act : action)
  | Compute (i k : nat) (bs : list byte).

Definition run_event (ev : event) (e : engine) : result engine :=
  let '(mk_engine s live) := e in
  match ev with
  | Call act =>
      match exec hw act (s, live) with Ok (s', live') => Ok (mk_engine s' live') | Err x => Err x end
  | Compute i k bs =>
      match (h ← live !! i; table h.2 !! k) with
      | None => Err (BadPointer "block")
      | Some id =>
          match on_cache (on_pool (write_block id bs)) s with
          | Ok (_, s') => Ok (mk_engine s' live)
          | Err x => Err x
          end
      end
  end.

(** The KV of a block is a function of the tokens up to its end. *)
Context (kv : list chunk → list byte).

(** Block [k] of the handle, when its tokens are those of [q], holds their
    KV. *)
Definition computed p bt (q : list TokenId) (a : Allocation) (k : nat) : Prop :=
  ∀ id, table a !! k = Some id → block_contents p id = Some (kv (take (S k) (chunks bt q))).

(** What the callers respect. A request writes to the blocks it allocated, once
    they are in the compute tier and addressable; it has computed the blocks it
    publishes. *)
Definition permitted (ev : event) (e : engine) : Prop :=
  let '(mk_engine s live) := e in
  match ev with
  | Call act =>
      legal act (s, live) ∧
      match act with
      | Release i q => ∀ q0 a k, live !! i = Some (q0, a) →
          cached_blocks a ≤ k < length q / block_tokens_ (tree_ s) →
          computed (pool_ s) (block_tokens_ (tree_ s)) q a k
      | _ => True
      end
  | Compute i k bs =>
      ∃ q a id, live !! i = Some (q, a) ∧ cached_blocks a ≤ k ∧ table a !! k = Some id ∧
        in_compute (pool_ s) id ∧ (∃ ptr, block_data id (pool_ s) = Ok (Some ptr, pool_ s)) ∧
        length bs = N.to_nat (block_bytes (cfg_ (pool_ s)))
  end.

Inductive reached : engine → Prop :=
  | reached_make specs cfg (objs : gmap TierPtr T) options s :
      specs ≠ [] → Forall (spec_ok cfg objs) specs → NoDup (spec_tier <$> specs) →
      (total_blocks specs <= kInvalidBlock)%N → block_tokens cfg ≠ 0%N →
      make_manager specs cfg objs options = Ok s → reached (mk_engine s [])
  | reached_event ev e e' : reached e → permitted ev e → run_event ev e = Ok e' → reached e'.

(** ** One event *)

Definition written (ev : event) (e : engine) : option (BlockId * list byte) :=
  match ev with
  | Compute i k bs => h ← eng_live e !! i; id ← table h.2 !! k; Some (id, bs)
  | _ => None
  end.

(** What is cached after the event was cached before, or a request just
    published it. *)
Definition published_by (ev : event) (e : engine) (cs : list chunk) (id : BlockId) : Prop :=
  ∃ i q q0 a k, ev = Call (Release i q) ∧ eng_live e !! i = Some (q0, a) ∧
    cached_blocks a ≤ k < length q / block_tokens_ (tree_ (eng_mgr e)) ∧
    cs = take (S k) (chunks (block_tokens_ (tree_ (eng_mgr e))) q) ∧ table a !! k = Some id.

(** A block that stays with its owner over the event: the tree, or a request
    that keeps its handle. *)
Definition keeps_owner (e e' : engine) (id : BlockId) : Prop :=
  id ∈ all_blocks (tree_ (eng_mgr e')) ∨ ∃ h, h ∈ eng_live e ∧ h ∈ eng_live e' ∧ id ∈ fresh_of h.2.

Record event_result ev e e' : Prop := {
  er_system : system_ok (eng_mgr e', eng_live e');
  er_bt : block_tokens_ (tree_ (eng_mgr e')) = block_tokens_ (tree_ (eng_mgr e));
  er_find cs id : find (tree_ (eng_mgr e')) cs = Some id →
    find (tree_ (eng_mgr e)) cs = Some id ∨ published_by ev e cs id;
  er_kept id : keeps_owner e e' id →
    block_contents (pool_ (eng_mgr e')) id
    = match written ev e with
      | Some (x, bs) => if decide (id = x) then Some bs else block_contents (pool_ (eng_mgr e)) id
      | None => block_contents (pool_ (eng_mgr e)) id
      end;
}.

Lemma only_forgets_find t t' cs id : only_forgets t t' → find t' cs = Some id → find t cs = Some id.
Proof. intros O E. destruct (O cs) as [<-|]; [done|congruence]. Qed.

(** Most events are of this kind: the cache forgets at most, and what is left
    reads as before. *)
Lemma event_quiet ev s live s' live' :
  written ev (mk_engine s live) = None →
  system_ok (s', live') → block_tokens_ (tree_ s') = block_tokens_ (tree_ s) →
  only_forgets (tree_ s) (tree_ s') →
  (∀ id, keeps_owner (mk_engine s live) (mk_engine s' live') id →
     block_contents (pool_ s') id = block_contents (pool_ s) id) →
  event_result ev (mk_engine s live) (mk_engine s' live').
Proof.
  intros Ew So Ebt O K. constructor; try done.
  - intros cs id Hf. left. by eapply only_forgets_find.
  - intros id Hid. rewrite Ew. by apply K.
Qed.

Lemma keeps_kept s s' live live' id :
  (∀ h, h ∈ live → h ∈ live' → id ∈ fresh_of h.2 → id ∈ held live') →
  keeps_owner (mk_engine s live) (mk_engine s' live') id → id ∈ all_blocks (tree_ s') ++ held live'.
Proof. intros Hl [Hid|(h & H1 & H2 & Hid)]; apply elem_of_app; eauto. Qed.

Lemma event_kept s s' live live' id :
  kept s s' live' → keeps_owner (mk_engine s live) (mk_engine s' live') id →
  block_contents (pool_ s') id = block_contents (pool_ s) id.
Proof. intros K Ho. apply K. eapply keeps_kept; [|done]. intros. by eapply held_intro. Qed.

(** What a handle or the tree owns is live. *)
Lemma owner_live s live id :
  system_ok (s, live) → id ∈ all_blocks (tree_ s) ++ held live → is_Some (view (pool_ s) id).
Proof. intros So. apply (lg_live _ _ _ (mo_ledger _ _ (so_manager _ So))). Qed.

(** *** Calls of the manager *)

Lemma acquire_event s live q :
  system_ok (s, live) → legal (Acquire q) (s, live) →
  ∃ e', run_event (Call (Acquire q)) (mk_engine s live) = Ok e' ∧
    event_result (Call (Acquire q)) (mk_engine s live) e'.
Proof.
  intros So Hl. cbn [run_event exec].
  destruct (wp_result _ _ _ (acquire_system hw q s live So Hl)) as (a & s' & -> & Hq).
  eexists. split; [done|]. destruct Hq as [(-> & A & So')|(-> & R & So')]; apply event_quiet; try done;
    try apply A; try apply R; intros id [Hid|(h & H1 & H2 & Hid)].
  - apply (aq_kept _ _ _ _ _ A). apply elem_of_app. by left.
  - apply (aq_kept _ _ _ _ _ A). apply elem_of_app. right. by eapply held_intro.
  - apply (re_kept _ _ _ _ R). apply elem_of_app. by left.
  - apply (re_kept _ _ _ _ R). apply elem_of_app. right. by eapply held_intro.
Qed.

Lemma live_out s live i q a :
  system_ok (s, live) → live !! i = Some (q, a) → system_ok (s, (q, a) :: delete i live).
Proof. intros So Hi. eapply system_ok_perm; [by apply delete_perm|done]. Qed.

(** What a release adds to the cache are blocks of the table, under the tokens
    they were given back with. *)
Lemma published_find t t' q0 q a ds id :
  tree_inv t → handle_ok t (q0, a) → extends a q0 q → publishes t t' q (table a) → find t' ds = Some id →
  find t ds = Some id ∨ ∃ k, cached_blocks a ≤ k < length q / block_tokens_ t ∧
    ds = take (S k) (chunks (block_tokens_ t) q) ∧ table a !! k = Some id.
Proof.
  intros I Hh Hext Hp Hf. set (bt := block_tokens_ t) in *.
  destruct Hp as [[Hp _]|(Hj & _ & Hp)]; rewrite Hp in Hf; [by left|].
  destruct (find t ds) as [b|] eqn:E; [by left|]. case_decide as Hd; [|done]. destruct Hd as [Hne Hpre]. right.
  pose proof (release_cached t q0 q a I Hh Hext) as Hc. fold bt in Hc, Hj, Hpre.
  set (L := insert_len bt q (table a)) in *. apply prefix_length in Hpre as Hlen.
  unfold query in Hlen, Hpre. rewrite length_take, length_chunks in Hlen.
  assert (L ≤ length q / bt) as HL by (unfold L, insert_len; lia).
  destruct ds as [|d ds]; [done|]. set (k := length ds) in *. cbn [length] in Hlen. fold k in Hlen.
  assert (d :: ds = take (S k) (chunks bt q)) as Eds.
  { destruct Hpre as [rest Er]. rewrite <-(take_app_length (d :: ds) rest), <-Er, take_take.
    f_equal. cbn [length]. fold k. lia. }
  exists k. split_and!; [|lia|done|done].
  destruct (decide (cached_blocks a ≤ k)) as [|Hk]; [done|exfalso].
  assert (is_Some (cached t (query t q L) !! k)) as [b Hb] by (apply lookup_lt_is_Some; lia).
  rewrite cached_find in Hb. case_decide; [|done]. unfold query in Hb. fold bt in Hb.
  rewrite take_take in Hb. replace (S k `min` L) with (S k) in Hb by lia. rewrite <-Eds in Hb. congruence.
Qed.

Lemma release_event s live i q :
  system_ok (s, live) → legal (Release i q) (s, live) →
  ∃ e', run_event (Call (Release i q)) (mk_engine s live) = Ok e' ∧
    event_result (Call (Release i q)) (mk_engine s live) e'.
Proof.
  intros So ((q0 & a & Hi & Hext) & Hc). cbn [run_event exec]. rewrite Hi. pose proof (live_out _ _ _ _ _ So Hi) as So1.
  destruct (wp_result _ _ _ (release_system hw q0 q a s _ So1 Hext Hc)) as (a' & s' & -> & _ & R & So').
  eexists. split; [done|]. constructor; [done|apply R| |].
  - intros ds id Hf. pose proof (mo_ledger _ _ (so_manager _ So1)) as L.
    destruct (published_find (tree_ s) (tree_ s') q0 q a ds id) as [|(k & Hk & Eds & Ht)];
      [apply (lg_tree _ _ _ L)|apply (lg_handles _ _ _ L); by left|done|apply R|done|by left|].
    right. by exists i, q, q0, a, k.
  - intros id Ho. by apply (event_kept s s' live (delete i live)), Ho; apply R.
Qed.

Lemma drop_event s live i :
  system_ok (s, live) → legal (Drop i) (s, live) →
  ∃ e', run_event (Call (Drop i)) (mk_engine s live) = Ok e' ∧
    event_result (Call (Drop i)) (mk_engine s live) e'.
Proof.
  intros So Hl. destruct (lookup_lt_is_Some_2 live i Hl) as [[q a] Hi]. cbn [run_event exec]. rewrite Hi.
  pose proof (live_out _ _ _ _ _ So Hi) as So1.
  destruct (wp_result _ _ _ (wp_conj _ _ _ _ (drop_system q a s _ So1)
    (destroy_alloc_spec q a s _ (so_manager _ So1)))) as ([] & s' & -> & So' & Ab).
  eexists. split; [done|]. apply event_quiet; [done|done|apply Ab|intros cs; left; apply Ab|].
  intros id Ho. by apply (event_kept s s' live (delete i live)), Ho; apply Ab.
Qed.

(** The handles stay as they are. *)
Lemma frame_event ev s live s' :
  written ev (mk_engine s live) = None → system_ok (s, live) → frame s s' live → manager_ok s' live →
  event_result ev (mk_engine s live) (mk_engine s' live).
Proof.
  intros Ew So Fr Mo'. pose proof (frame_system s s' live So Fr Mo') as So'.
  apply event_quiet; [done|done|apply Fr|apply Fr|].
  intros id Ho. apply (fr_survives _ _ _ Fr). eapply owner_live; [exact So'|]. eapply keeps_kept; [|exact Ho].
  intros. by eapply held_intro.
Qed.

(** A wait that does not end. *)
Definition stays_blocked (ev : event) (r : result engine) : Prop :=
  (∃ i, ev = Call (Wait i)) ∧ r = Err Blocked ∧ ¬ fair.

Lemma wait_event s live i :
  system_ok (s, live) → legal (Wait i) (s, live) →
  stays_blocked (Call (Wait i)) (run_event (Call (Wait i)) (mk_engine s live)) ∨
  ∃ e', run_event (Call (Wait i)) (mk_engine s live) = Ok e' ∧
    event_result (Call (Wait i)) (mk_engine s live) e' ∧
    ∀ h id, live !! i = Some h → id ∈ table h.2 → in_compute (pool_ (eng_mgr e')) id.
Proof.
  intros So Hl. destruct (lookup_lt_is_Some_2 live i Hl) as [[q a] Hi]. cbn [run_event exec]. rewrite Hi.
  assert ((q, a) ∈ live) as Hin by (by eapply list_elem_of_lookup_2).
  pose proof (wait_ready_spec 2 q a s live (so_manager _ So) Hin ltac:(lia)) as Hw.
  apply wp_unless_result in Hw as [[-> Hf]|([] & s' & -> & F & Fr & Mo' & Hc)].
  { left. split; [by eexists|done]. }
  right. eexists. split; [done|]. split; [by apply frame_event|]. intros h id Hh. simplify_eq. apply Hc.
Qed.

Lemma turn_event s live w :
  system_ok (s, live) →
  ∃ e', run_event (Call (Turn w)) (mk_engine s live) = Ok e' ∧
    event_result (Call (Turn w)) (mk_engine s live) e'.
Proof.
  intros So. destruct (wp_result _ _ _ (wp_turn w s live (so_manager _ So))) as ([] & s' & E & Fr & Mo').
  cbn [run_event exec]. rewrite E. eexists. split_and!; [done|by apply frame_event].
Qed.

Lemma schedule_event s live ts :
  system_ok (s, live) →
  ∃ e', run_event (Call (Schedule ts)) (mk_engine s live) = Ok e' ∧
    event_result (Call (Schedule ts)) (mk_engine s live) e'.
Proof.
  intros So. destruct (wp_result _ _ _ (wp_schedule ts s live (so_manager _ So))) as ([] & s' & E & Fr & Mo').
  cbn [run_event exec]. rewrite E. eexists. split; [done|]. by apply frame_event.
Qed.

(** *** Writes *)

Lemma in_compute_stays s live q a id :
  manager_ok s live → (q, a) ∈ live → id ∈ table a → in_compute (pool_ s) id →
  ∃ v, view (pool_ s) id = Some v ∧ bv_target v = None.
Proof.
  intros [L R _ _] Hin Hid (v & Hv & Ht). exists v. split; [done|].
  destruct (R (q, a) id Hin Hid) as (w & Hw & [[_ E]|E]); simplify_eq; [done|]. exfalso.
  apply view_live in Hv as (l & Hlive & El & Etg). rewrite E in Etg. symmetry in Etg.
  destruct (target_live _ _ _ (running_inv _ (lg_pool _ _ _ L)) Etg) as (l' & rc' & Hl' & Hne).
  destruct Hlive as (E1 & _), Hl' as (E2 & _). simplify_eq. congruence.
Qed.

Lemma compute_event s live i k bs :
  system_ok (s, live) → permitted (Compute i k bs) (mk_engine s live) →
  ∃ e', run_event (Compute i k bs) (mk_engine s live) = Ok e' ∧
    event_result (Compute i k bs) (mk_engine s live) e'.
Proof.
  intros So (q & a & id & Hi & Hk & Ht & Hc & Hptr & Hlen). pose proof So as [Mo Hst Htab]. cbn [fst snd] in *.
  assert ((q, a) ∈ live) as Hin by (by eapply list_elem_of_lookup_2).
  assert (id ∈ table a) as Hid by (by eapply list_elem_of_lookup_2).
  assert (writable (pool_ s) id) as Hw by (split; [by eapply in_compute_stays|done]).
  assert (wp (on_cache (on_pool (write_block id bs))) (λ _ s', event_result (Compute i k bs) (mk_engine s live)
    (mk_engine s' live)) s) as Hwp.
  { pose proof (lg_pool _ _ _ (mo_ledger _ _ Mo)) as Rp. apply wp_on_cache, wp_on_pool.
    eapply wp_mono; [by apply (write_block_spec id bs _ (hands_ (pool_ s))); [apply Rp..|done|done]|].
    intros [] p' (Ok & _ & K & _ & V & Hcont).
    assert (running p') as Rp' by (by eapply running_kept). fold (with_cache p' (tree_ s) s).
    assert (system_ok (with_cache p' (tree_ s) s, live)) as So'
      by (constructor; [by apply manager_ok_views|done..]).
    constructor; [done|done|by left|]. intros x Ho. cbn [eng_mgr pool_ with_cache written eng_live].
    rewrite Hi. simpl. rewrite Ht. simpl. apply Hcont. rewrite <-V. eapply (owner_live _ _ _ So').
    eapply keeps_kept; [|exact Ho]. intros. by eapply held_intro. }
  destruct (wp_result _ _ _ Hwp) as ([] & s' & E & Hr). eexists. split; [|exact Hr].
  cbn [run_event]. rewrite Hi. simpl. by rewrite Ht, E.
Qed.

(** Every permitted event happens, and with the result above. *)
Lemma run_event_ok ev e :
  system_ok (eng_mgr e, eng_live e) → permitted ev e →
  stays_blocked ev (run_event ev e) ∨ ∃ e', run_event ev e = Ok e' ∧ event_result ev e e'.
Proof.
  destruct e as [s live]. cbn [eng_mgr eng_live]. intros So Hp. destruct ev as [act|i k bs]; [|right; by apply compute_event].
  destruct Hp as [Hl Hx]. destruct act as [q|i q|i|i|w|ts]; [right|right|right| |right|right].
  - by apply acquire_event.
  - by apply release_event.
  - by apply drop_event.
  - destruct (wait_event s live i So Hl) as [?|(e' & E & R & _)]; eauto.
  - by apply turn_event.
  - by apply schedule_event.
Qed.

(** What an event that came to its end leaves behind. *)
Lemma run_event_result ev e e' :
  system_ok (eng_mgr e, eng_live e) → permitted ev e → run_event ev e = Ok e' → event_result ev e e'.
Proof.
  intros So Hp He. destruct (run_event_ok ev e So Hp) as [(_ & Hb & _)|(e2 & He2 & R)]; [congruence|].
  rewrite He in He2. by injection He2 as <-.
Qed.

(** ** What the cache serves *)

(** Every cached block holds the KV of the tokens it is cached for. *)
Definition faithful (e : engine) : Prop :=
  ∀ cs id, find (tree_ (eng_mgr e)) cs = Some id → block_contents (pool_ (eng_mgr e)) id = Some (kv cs).

(** A write goes to a block its request owns, so not to the cache. *)
Lemma written_fresh ev e x bs :
  system_ok (eng_mgr e, eng_live e) → permitted ev e → written ev e = Some (x, bs) →
  x ∉ all_blocks (tree_ (eng_mgr e)).
Proof.
  destruct e as [s live]. intros So Hp. destruct ev as [|i k bs']; try done.
  destruct Hp as (q & a & id & Hi & Hk & Ht & _). cbn [written eng_live]. rewrite Hi. simpl. rewrite Ht. simpl.
  intros [= <- <-]. pose proof (live_out _ _ _ _ _ So Hi) as So1.
  eapply fresh_not_cached; [apply (mo_ledger _ _ (so_manager _ So1))|].
  unfold fresh_of. apply list_elem_of_lookup. exists (k - cached_blocks a). rewrite lookup_drop.
  by replace (cached_blocks a + (k - cached_blocks a)) with k by lia.
Qed.

Lemma faithful_event ev e e' :
  system_ok (eng_mgr e, eng_live e) → permitted ev e → event_result ev e e' →
  faithful e → faithful e'.
Proof.
  intros So Hp R F cs id Hf. rewrite (er_kept _ _ _ R id) by (left; by eapply find_blocks).
  destruct (er_find _ _ _ R cs id Hf) as [Hold|(i & q & q0 & a & k & -> & Hi & Hk & -> & Ht)].
  - destruct (written ev e) as [[x bs]|] eqn:Ew; [|by apply F]. rewrite decide_False; [by apply F|].
    intros ->. eapply written_fresh; [done..|]. by eapply find_blocks.
  - cbn [written]. destruct e as [s live]. cbn [eng_mgr eng_live] in *. destruct Hp as [_ Hx].
    by apply (Hx q0 a k).
Qed.

Lemma reached_ok e : reached e → system_ok (eng_mgr e, eng_live e) ∧ faithful e.
Proof.
  induction 1 as [specs cfg objs options s Hne Hall Hnd Htot Hbt Hm|ev e e' _ [So F] Hp He].
  - split; [apply (reachable_ok hw); by eapply reach_make|]. intros cs id.
    destruct (make_manager_spec specs cfg objs options Hne Hall Hnd Htot Hbt)
      as (s' & Hm' & _ & _ & _ & Hnone). rewrite Hm in Hm'. injection Hm' as <-. simpl. by rewrite Hnone.
  - pose proof (run_event_result ev e e' So Hp He) as R. split; [apply R|by eapply faithful_event].
Qed.

(** The cached part of a handle's table is what the tree serves for its
    tokens. *)
Lemma handle_find t q a k :
  tree_inv t → handle_ok t (q, a) → k < cached_blocks a →
  ∃ id, table a !! k = Some id ∧ find t (take (S k) (chunks (block_tokens_ t) q)) = Some id.
Proof.
  intros I [O1 O2 O3 O4 O5 O6] Hk. cbn [fst snd] in *. pose proof (ti_bt _ I) as Hbt.
  destruct (lookup_lt_is_Some_2 (table a) k) as [id Hid]; [lia|]. exists id. split; [done|].
  destruct (CacheManager.pinned a) as [l|]; [|lia]. destruct O6 as (ls & Hls & Eb & Et).
  destruct (path_cached t l ls q I Hls) as [rest Ec].
  { rewrite Et, length_take. f_equal. lia. }
  assert (cached t (chunks (block_tokens_ t) q) !! k = Some id) as E.
  { rewrite Ec, Eb, lookup_app_l by (rewrite length_take; lia). by rewrite lookup_take_lt. }
  rewrite cached_find in E. by case_decide.
Qed.

(** ** The workers finish *)

Fixpoint run_events (evs : list event) (e : engine) : result engine :=
  match evs with
  | [] => Ok e
  | ev :: evs => match run_event ev e with Ok e' => run_events evs e' | Err x => Err x end
  end.

(** Turns of these threads, one after the other. *)
Definition turns_of (ws : list nat) : list event := (λ w, Call (Turn w)) <$> ws.

Lemma run_turns ws e :
  reached e → ∃ e', run_events (turns_of ws) e = Ok e' ∧ reached e' ∧ eng_live e' = eng_live e ∧
    for_each ws take_turn (pool_ (eng_mgr e)) = Ok ((), pool_ (eng_mgr e')).
Proof.
  revert e. induction ws as [|w ws IH]; intros e Hr; [by exists e|]. destruct (reached_ok e Hr) as [So _].
  destruct e as [s live]. destruct (turn_event s live w So) as (e1 & E1 & _).
  assert (reached e1) as Hr1 by (eapply reached_event; [exact Hr| |exact E1]; done).
  assert (eng_live e1 = live ∧ take_turn w (pool_ s) = Ok ((), pool_ (eng_mgr e1))) as [El Et].
  { cbn [run_event exec] in E1. unfold on_cache, on_pool, zoom in E1. cbn [fst] in E1.
    destruct (take_turn w (pool_ s)) as [[[] p']|]; [|done]. by injection E1 as <-. }
  destruct (IH e1 Hr1) as (e' & Hrun & Hr' & El' & Et'). exists e'.
  change (turns_of (w :: ws)) with (Call (Turn w) :: turns_of ws). cbn [run_events for_each]. rewrite E1.
  split_and!; [done|done|by rewrite El', El|]. unfold mbind, M_bind. cbn [eng_mgr]. by rewrite Et.
Qed.

(** ** The contract *)

(** C1: the cache serves what was computed. From construction on, whatever
    requests come and go, whatever they write to their own blocks, and however
    the steps of any number of migration workers fall in between, the bytes
    under the cached prefix of every handle are, block by block, the KV of that
    handle's own tokens, in whichever tier they are. The next permitted event
    runs to its end, without an abort, a failed assertion or an access outside
    an arena; only a wait can go on for good, when the workers are not
    [fair]. *)
Theorem serving_faithful e :
  reached e →
  (∀ q a k, (q, a) ∈ eng_live e → k < cached_blocks a →
     ∃ id, table a !! k = Some id ∧ block_contents (pool_ (eng_mgr e)) id
       = Some (kv (take (S k) (chunks (block_tokens_ (tree_ (eng_mgr e))) q)))) ∧
  (∀ ev, permitted ev e → (∃ e', run_event ev e = Ok e' ∧ reached e') ∨ stays_blocked ev (run_event ev e)).
Proof.
  intros Hr. destruct (reached_ok e Hr) as [So F]. split.
  - intros q a k Hin Hk. pose proof (mo_ledger _ _ (so_manager _ So)) as L.
    destruct (handle_find (tree_ (eng_mgr e)) q a k) as (id & Hid & Hf);
      [apply (lg_tree _ _ _ L)|by apply (lg_handles _ _ _ L)|done|].
    exists id. split; [done|]. by apply F.
  - intros ev Hp. destruct (run_event_ok ev e So Hp) as [?|(e' & He & _)]; [by right|left]. exists e'.
    split; [done|]. by eapply reached_event.
Qed.

(** C2: requests are isolated. While a handle is out, no event changes a byte
    of the blocks in its table, cached or its own, but a write of its own:
    not an eviction, not a migration in any stage, not another request. What
    it writes is what it reads. *)
Theorem serving_isolated ev e e' h id :
  reached e → permitted ev e → run_event ev e = Ok e' →
  h ∈ eng_live e → h ∈ eng_live e' → id ∈ table h.2 →
  block_contents (pool_ (eng_mgr e')) id
  = match written ev e with
    | Some (x, bs) => if decide (id = x) then Some bs else block_contents (pool_ (eng_mgr e)) id
    | None => block_contents (pool_ (eng_mgr e)) id
    end.
Proof.
  intros Hr Hp He H1 H2 Hid. destruct (reached_ok e Hr) as [So _].
  pose proof (run_event_result ev e e' So Hp He) as R. apply (er_kept _ _ _ R). destruct (table_split _ _ Hid) as [Hc|Hf]; [left|right; by exists h].
  pose proof (mo_ledger _ _ (so_manager _ (er_system _ _ _ R))) as L.
  destruct (cached_path _ h id (lg_handles _ _ _ L h H2) Hc) as (l & ls & _ & _ & Hp').
  by eapply path_blocks_all.
Qed.

(** C9: the workers come to an end, and whoever waits for them is let go. From
    every state, give every thread a turn, over and over: after as many rounds
    as there are steps left, four for each unclaimed job and at most three for
    one in hand, in whatever order the threads come within a round, every queued
    job is done and no thread holds one, and no handle has changed. A caller that
    asks then returns at once with its table in the compute tier, whatever the
    workers do next. One that asks before waits, and returns with the same, or
    not at all: then the workers are not [fair]. *)
Theorem serving_workers_finish e rounds :
  reached e →
  Forall (round_of (workers_ (pool_ (eng_mgr e)))) rounds → work (pool_ (eng_mgr e)) ≤ length rounds →
  (∃ e', run_events (turns_of (concat rounds)) e = Ok e' ∧ reached e' ∧ eng_live e' = eng_live e ∧
     eng_hands e' = ∅ ∧ all_done (pool_ (eng_mgr e')) ∧
     ∀ i h, eng_live e !! i = Some h →
       ∃ e2, run_event (Call (Wait i)) e' = Ok e2 ∧ ∀ id, id ∈ table h.2 → in_compute (pool_ (eng_mgr e2)) id) ∧
  ∀ i h, eng_live e !! i = Some h →
    (∃ e2, run_event (Call (Wait i)) e = Ok e2 ∧ ∀ id, id ∈ table h.2 → in_compute (pool_ (eng_mgr e2)) id) ∨
    run_event (Call (Wait i)) e = Err Blocked ∧ ¬ fair.
Proof.
  intros Hr Hall Hn. destruct (reached_ok e Hr) as [So _]. split.
  - destruct (run_turns (concat rounds) e Hr) as (e' & Hrun & Hr' & El & Ht).
    pose proof (lg_pool _ _ _ (mo_ledger _ _ (so_manager _ So))) as Rp. cbn [fst] in Rp.
    destruct (wp_run _ _ _ _ _ (rounds_spec rounds _ Rp Hall) Ht) as (Rp' & _ & Hw).
    assert (work (pool_ (eng_mgr e')) = 0) as E0 by lia. destruct (work_done _ Rp' E0) as [Hd Hh].
    exists e'. split_and!; try done. intros i [q a] Hi. rewrite <-El in Hi.
    destruct (reached_ok e' Hr') as [So' _]. destruct e' as [s live]. cbn [eng_mgr eng_live] in *.
    destruct (wp_result _ _ _ (wait_done 2 q a s live (so_manager _ So') ltac:(by eapply list_elem_of_lookup_2) ltac:(lia) E0))
      as ([] & s2 & E2 & Hc).
    exists (mk_engine s2 live). cbn [run_event exec]. rewrite Hi, E2. by split.
  - intros i h Hi. destruct e as [s live]. cbn [eng_live] in Hi.
    destruct (wait_event s live i So ltac:(by eapply lookup_lt_Some)) as [(_ & Hb & Hf)|(e2 & E & _ & Hc)]; [by right|left].
    exists e2. split; [done|]. intros id Hid. by eapply Hc.
Qed.
End serving.

(** ** A concrete run

    Two tiers of two blocks. A request computes two blocks and publishes them;
    the manager starts to demote one, a worker claims the copy and is about to
    move its bytes; the same tokens are requested again, which cancels the
    migration under the worker's feet. *)

Module ExampleServing.
#[local] Instance iter3 : IterOrder := {| iter := map_to_list; iter_perm m := reflexivity _ |}.
#[local] Existing Instance round_robin.
Import ExampleManager.

Definition kv (cs : list chunk) : list byte := replicate 8 (if length cs =? 1 then Byte.x01 else Byte.x02).

Definition after (ev : event) (e : engine) : engine :=
  match run_event (T := HostTier.t) 1 ev e with Ok e' => e' | Err _ => e end.
Definition e0 : engine := mk_engine m0 [].
Definition e1 := after (Call (Acquire q)) e0.
Definition e2 := after (Compute 0 0 (replicate 8 Byte.x01)) e1.
Definition e3 := after (Compute 0 1 (replicate 8 Byte.x02)) e2.
Definition e4 := after (Call (Release 0 q)) e3.
Definition e5 := after (Call (Turn 0)) e4.
Definition e6 := after (Call (Turn 0)) e5.
Definition e7 := after (Call (Acquire q)) e6.

Definition a7 : Allocation :=
  {| ok := true; cached_tokens := 4; cached_blocks := 2; table := [0; 1]%N; pinned := Some 1%N; owner_ := true |}.

(** What the run shows: the second request is served from the cache while the
    worker still holds its job. *)
Lemma e7_shape : eng_live e7 = [(q, a7)] ∧ eng_hands e7 = {[0 := (0%N, Copies)]}.
Proof. vm_compute. split; reflexivity. Qed.

Lemma go ev e e' : reached 1 kv e → permitted kv ev e → run_event 1 ev e = Ok e' → reached 1 kv e'.
Proof. intros. by eapply reached_event. Qed.

Definition a1' : Allocation :=
  {| ok := true; cached_tokens := 0; cached_blocks := 0; table := [0; 1]%N; pinned := None; owner_ := true |}.

Lemma e0_reached : reached 1 kv e0.
Proof. eapply reached_make; [|apply Example2.specs_fit|apply tiers_nodup| | |apply m0_made]; done. Qed.

Lemma e1_reached : reached 1 kv e1.
Proof. apply (go (Call (Acquire q)) e0); [apply e0_reached|done|vm_compute; reflexivity]. Qed.

Lemma compute_permitted e k id bs :
  eng_live e = [(q, a1')] → table a1' !! k = Some id → in_compute (pool_ (eng_mgr e)) id →
  (∃ ptr, block_data id (pool_ (eng_mgr e)) = Ok (Some ptr, pool_ (eng_mgr e))) →
  length bs = N.to_nat (block_bytes (cfg_ (pool_ (eng_mgr e)))) → permitted kv (Compute 0 k bs) e.
Proof.
  destruct e as [s live]. simpl. intros -> Hk Hc Hp Hl. exists q, a1', id. split_and!; try done. simpl. lia.
Qed.

Lemma e2_reached : reached 1 kv e2.
Proof.
  apply (go (Compute 0 0 (replicate 8 Byte.x01)) e1); [apply e1_reached| |vm_compute; reflexivity].
  apply (compute_permitted e1 0 0%N); [vm_compute; reflexivity|done| | |vm_compute; reflexivity].
  - eexists. split; [vm_compute; reflexivity|done].
  - eexists. vm_compute. reflexivity.
Qed.

Lemma e3_reached : reached 1 kv e3.
Proof.
  apply (go (Compute 0 1 (replicate 8 Byte.x02)) e2); [apply e2_reached| |vm_compute; reflexivity].
  apply (compute_permitted e2 1 1%N); [vm_compute; reflexivity|done| | |vm_compute; reflexivity].
  - eexists. split; [vm_compute; reflexivity|done].
  - eexists. vm_compute. reflexivity.
Qed.

Lemma e4_reached : reached 1 kv e4.
Proof.
  apply (go (Call (Release 0 q)) e3); [apply e3_reached| |vm_compute; reflexivity].
  assert (eng_live e3 = [(q, a1')]) as El by (vm_compute; reflexivity).
  assert (block_tokens_ (tree_ (eng_mgr e3)) = 2 ∧ clock_ (tree_ (eng_mgr e3)) = 0%N) as [Eb Ec]
    by (vm_compute; split; reflexivity).
  assert (computed kv (pool_ (eng_mgr e3)) 2 q a1' 0 ∧ computed kv (pool_ (eng_mgr e3)) 2 q a1' 1) as [H0 H1].
  { split; intros id; intros [= <-]; vm_compute; reflexivity. }
  destruct e3 as [s live]. cbn [eng_live eng_mgr] in *. subst live. split; [split|].
  - exists q, a1'. split; [done|]. split; [done|simpl; lia].
  - rewrite Ec. done.
  - intros q0 a k [= <- <-] Hk. rewrite Eb in *. change (length q / 2) with 2 in Hk.
    destruct k as [|[|k]]; [exact H0|exact H1|lia].
Qed.

Lemma e5_reached : reached 1 kv e5.
Proof. apply (go (Call (Turn 0)) e4); [apply e4_reached|by destruct e4|vm_compute; reflexivity]. Qed.

Lemma e6_reached : reached 1 kv e6.
Proof. apply (go (Call (Turn 0)) e5); [apply e5_reached|by destruct e5|vm_compute; reflexivity]. Qed.

Lemma e7_reached : reached 1 kv e7.
Proof.
  apply (go (Call (Acquire q)) e6); [apply e6_reached| |vm_compute; reflexivity].
  assert (block_tokens (mgr_cfg_ (eng_mgr e6)) = 2%N ∧ clock_ (tree_ (eng_mgr e6)) = 1%N ∧ eng_live e6 = []) as (Eb & Ec & El)
    by (vm_compute; split_and!; reflexivity).
  destruct e6 as [s live]. cbn [eng_live eng_mgr] in *. subst live.
  split; [|done]. unfold legal. rewrite Eb, Ec. done.
Qed.

Lemma serving_faithful_witness :
  ∃ id, table a7 !! 1 = Some id ∧ block_contents (pool_ (eng_mgr e7)) id = Some (replicate 8 Byte.x02).
Proof.
  destruct (serving_faithful 1 kv e7 e7_reached) as [Hs _]. destruct e7_shape as [El _].
  destruct (Hs q a7 1) as (id & Hid & Hc); [rewrite El; by left|simpl; lia|]. exists id. split; [exact Hid|].
  rewrite Hc. vm_compute. reflexivity.
Defined.

Lemma serving_isolated_witness :
  ∃ e8, run_event 1 (Call (Turn 0)) e7 = Ok e8 ∧
    block_contents (pool_ (eng_mgr e8)) 0%N = block_contents (pool_ (eng_mgr e7)) 0%N.
Proof.
  set (ev := Call (Turn 0)). assert (permitted kv ev e7) as Hp by (by destruct e7).
  assert (run_event 1 ev e7 = Ok (after ev e7)) as Hr by (vm_compute; reflexivity).
  assert (eng_live (after ev e7) = [(q, a7)]) as El' by (vm_compute; reflexivity).
  exists (after ev e7). split; [exact Hr|]. destruct e7_shape as [El _].
  rewrite (serving_isolated 1 kv ev e7 _ (q, a7) 0%N e7_reached Hp Hr).
  - reflexivity.
  - rewrite El. by left.
  - rewrite El'. by left.
  - simpl. by left.
Defined.

(** One thread, one job, halfway through: two rounds. *)
Lemma serving_workers_finish_witness :
  (∃ e', run_events 1 (turns_of [0; 0]) e7 = Ok e' ∧ eng_hands e' = ∅ ∧
     ∃ e2, run_event 1 (Call (Wait 0)) e' = Ok e2 ∧ in_compute (pool_ (eng_mgr e2)) 1%N) ∧
  ∃ e2, run_event 1 (Call (Wait 0)) e7 = Ok e2 ∧ in_compute (pool_ (eng_mgr e2)) 1%N.
Proof.
  destruct e7_shape as [El _].
  assert (workers_ (pool_ (eng_mgr e7)) = 1%N ∧ work (pool_ (eng_mgr e7)) = 2) as [Ew Ek] by (vm_compute; split; reflexivity).
  destruct (serving_workers_finish 1 kv e7 [[0]; [0]] e7_reached) as [(e' & Hrun & _ & _ & Hh & _ & Hc) Hw].
  - rewrite Ew. assert (round_of 1 [0]) as R by (intros w Hlt; assert (w = 0) as -> by lia; by left).
    do 2 (constructor; [exact R|]). constructor.
  - rewrite Ek. reflexivity.
  - split.
    + exists e'. split; [exact Hrun|]. split; [exact Hh|]. destruct (Hc 0 (q, a7)) as (e2 & E & Hin); [by rewrite El|].
      exists e2. split; [exact E|]. apply Hin. simpl. right. by left.
    + destruct (Hw 0 (q, a7)) as [(e2 & E & Hin)|[_ Hf]]; [by rewrite El| |destruct Hf; exact round_robin_fair].
      exists e2. split; [exact E|]. apply Hin. simpl. right. by left.
Defined.
End ExampleServing.
