(* ===== verification/Bench.v ===== *)
(** * The benchmark's drivers

    bench/bench_prefix_cache.cpp: the deterministic workloads, the two loops
    that drive a manager with them, one request at a time and with a window of
    requests in flight, and the managers [run], [bench_tiering] and [main]
    build for them, and what it prints. What the clock says a row took is a
    parameter, and so are the turns the migration workers take in it. *)

From S2P Require Import Prelude Double Types Tier BlockPool PoolInv PoolOps PoolMigrate PoolAsync PoolWorker PoolHands PoolInit PoolSpec BlockStore.
From S2P Require Import RadixTree RadixInv RadixSplit RadixWalk RadixInsert RadixLru RadixEvict RadixDemote RadixPins RadixState RadixPath RadixDestroy RadixOps RadixSpec.
From S2P Require Import CacheManager ManagerInv ManagerPhases ManagerEvict ManagerFill ManagerPin ManagerAcquire ManagerRelease ManagerOps ManagerSpec.

Local Open Scope nat_scope.

(** ** Workloads *)

(** [Lcg::next]: the number and the generator's next state. *)
Definition lcg_next (state : N) : N * N :=
  let state := u64 (u64 (state * 6364136223846793005) + 1442695040888963407) in
  (u32 (N.shiftr state 33), state).
Definition lcg_token (state : N) : TokenId * N :=
  let '(x, state) := lcg_next state in (Z.of_N (x mod 32000), state).

Fixpoint random_tokens (state : N) (count : nat) : list TokenId * N :=
  match count with
  | O => ([], state)
  | S count =>
      let '(t, state) := lcg_token state in
      let '(ts, state) := random_tokens state count in (t :: ts, state)
  end.

(** [count] sequences of [len] tokens, one after the other. *)
Fixpoint random_sequences (state : N) (count len : nat) : list (list TokenId) * N :=
  match count with
  | O => ([], state)
  | S count =>
      let '(ts, state) := random_tokens state len in
      let '(out, state) := random_sequences state count len in (ts :: out, state)
  end.

Definition workload_cold (requests len : nat) : list (list TokenId) := (random_sequences 1 requests len).1.

Definition workload_shared_prefix (requests prefix_len suffix_len : nat) : list (list TokenId) :=
  let '(prefix, state) := random_tokens 2 prefix_len in
  (λ suffix, prefix ++ suffix) <$> (random_sequences state requests suffix_len).1.

(** The turns of one conversation, each with the whole history. *)
Fixpoint conversation (state : N) (turns turn_len : nat) (history : list TokenId)
    : list (list TokenId) * N :=
  match turns with
  | O => ([], state)
  | S turns =>
      let '(turn, state) := random_tokens state turn_len in
      let history := history ++ turn in
      let '(out, state) := conversation state turns turn_len history in (history :: out, state)
  end.
Fixpoint conversations_from (state : N) (conversations turns turn_len : nat) : list (list TokenId) :=
  match conversations with
  | O => []
  | S conversations =>
      let '(out, state) := conversation state turns turn_len [] in
      out ++ conversations_from state conversations turns turn_len
  end.
Definition workload_multi_turn (conversations turns turn_len : nat) : list (list TokenId) :=
  conversations_from 3 conversations turns turn_len.

Definition workload_oversubscribed (sequences len passes : nat) : list (list TokenId) :=
  mjoin (replicate passes (random_sequences 4 sequences len).1).

(** ** Drivers *)

Section drivers.
Context {T : Type} `{TierLaws T} `{Iter : IterOrder} `{Wk : Wakes T} (hw : N).
Implicit Types (live : list handle) (s : CacheManager (T := T)).

(** The handle is a local of the loop's body: it is destroyed at the end of
    each round, by then empty. *)
Definition serve_one (tokens : list TokenId) : M (CacheManager (T := T)) () :=
  a ← acquire hw tokens;
  if negb (ok a) then destroy_alloc a else
  a ← release hw tokens a;
  destroy_alloc a.

(** How long the loop took, and the counters after it. *)
Record TieredResult := mk_tiered { tr_seconds : double; tr_stats : Stats }.

Definition run_manager (seconds : double) (workload : list (list TokenId)) : M (CacheManager (T := T)) TieredResult :=
  for_each workload serve_one ;;
  st ← gets stats_;
  mret (mk_tiered seconds st).

Definition window : Type := list (Allocation * list TokenId).

(** Waits for the oldest request in flight and finishes it. *)
Definition finish_front (w : window) : M (CacheManager (T := T)) window :=
  match w with
  | [] => fail (BadPointer "window.front()")
  | (a, tokens) :: rest =>
      wait_ready 2 a ;;
      a ← release hw tokens a;
      destroy_alloc a ;;
      mret rest
  end.

Fixpoint pipeline (depth : nat) (workload : list (list TokenId)) (w : window) : M (CacheManager (T := T)) window :=
  match workload with
  | [] => mret w
  | tokens :: workload =>
      a ← acquire hw tokens;
      let w := if ok a then w ++ [((move_alloc a).1, tokens)] else w in
      w ← (if depth <=? length w then finish_front w else mret w);
      destroy_alloc (if ok a then (move_alloc a).2 else a) ;;
      pipeline depth workload w
  end.

(** [while (!window.empty())]; each round takes one request out. *)
Definition finish_all (w : window) : M (CacheManager (T := T)) () :=
  loop (S (length w)) (λ w : window,
    match w with
    | [] => mret (inr ())
    | _ => w ← finish_front w; mret (inl w)
    end) w.

Definition run_pipelined (seconds : double) (workload : list (list TokenId)) (depth : nat)
    : M (CacheManager (T := T)) TieredResult :=
  w ← pipeline depth workload [];
  finish_all w ;;
  st ← gets stats_;
  mret (mk_tiered seconds st).
End drivers.

(** ** Output *)

(** A call of [std::printf]: the format and the arguments. *)
Inductive arg := Str (x : string) | Num (n : N) | Real (x : double).
Definition printed : Type := string * list arg.
Abbreviation Out := (M (list printed)).

Definition printf (format : string) (args : list arg) : Out () := modify (λ out, out ++ [(format, args)]).
(** What is computed without printing. *)
Definition quietly {A} (r : result A) : Out A :=
  λ out, match r with Ok a => Ok (a, out) | Err e => Err e end.

(** [std::string(n, '-').c_str()] and the escape for a new line. *)
Fixpoint dashes (n : nat) : string :=
  match n with O => EmptyString | S n => String (Ascii.ascii_of_nat 45) (dashes n) end.
Definition nl : string := String (Ascii.ascii_of_nat 10) EmptyString.

(** A rate is 0 when there is nothing to divide by. *)
Definition per_second (count : N) (seconds : double) : double :=
  if dlt dzero seconds then ddiv (of_u64 count) seconds else dzero.

Definition print_tier_row (name : string) (r : TieredResult) : Out () :=
  let st := tr_stats r in
  printf ("%-22s %10.1f %10.1f%% %11llu %9llu %9llu" +:+ nl)
    [Str name; Real (per_second (requests st) (tr_seconds r)); Real (dmul (hit_rate st) (of_u64 100));
     Num (evicted_blocks st); Num (demoted_blocks st); Num (promoted_blocks st)].

Record Result := mk_result {
  res_seconds : double;
  res_hit_rate : double;
  res_requests : N;
  res_tokens : N;
  res_evicted : N;
  res_failures : N;
}.
Definition result_row (seconds : double) (s : Stats) : Result :=
  mk_result seconds (hit_rate s) (requests s) (total_tokens s) (evicted_blocks s) (alloc_failures s).

Definition us_per_request (r : Result) : double :=
  if (0 <? res_requests r)%N then ddiv (dmul (res_seconds r) (of_u64 1000000)) (of_u64 (res_requests r)) else dzero.

Definition print_row (name : string) (r : Result) : Out () :=
  printf ("%-22s %10.1f %12.1f %10.1f%% %11llu %9llu" +:+ nl)
    [Str name; Real (per_second (res_requests r) (res_seconds r)); Real (us_per_request r);
     Real (dmul (res_hit_rate r) (of_u64 100)); Num (res_evicted r); Num (res_failures r)].

(** ** The benchmark *)

(** A block with a manager as its only object: constructed, used, destroyed.
    [turns] are those the workers of its pool take along the way. *)
Definition with_manager {A} `{IterOrder} (turns : list (list nat)) (cm : result (CacheManager (T := HostTier.t)))
    (body : M (CacheManager (T := HostTier.t)) A) : result A :=
  match cm with
  | Err e => Err e
  | Ok cm =>
      match (on_cache (on_pool (schedule turns)) ;; a ← body; destroy_manager ;; mret a) cm with
      | Ok (a, _) => Ok a
      | Err e => Err e
      end
  end.

Section benchmark.
Context `{Iter : IterOrder} `{Wk : Wakes HostTier.t} (hw : N) (aligned_alloc : N → N → option (list byte)).
(** The clock's and the workers' part in each row. *)
Context (clock : nat → double) (turns : nat → list (list nat)).

(** [run]: a manager of its own, over one host tier. *)
Definition run (row : nat) (cfg : CacheConfig) (workload : list (list TokenId)) : result Result :=
  with_manager (turns row) (make_manager_owned aligned_alloc cfg)
    (for_each workload (serve_one hw) ;; st ← gets stats_; mret (result_row (clock row) st)).

Definition compute_blocks : N := 1024.
Definition spill_blocks : N := 2048.
Definition seq_blocks : N := 16.
Definition sequences : N := 2 * compute_blocks / seq_blocks.
Definition tiering_workload (cfg : CacheConfig) : list (list TokenId) :=
  workload_oversubscribed (N.to_nat sequences) (N.to_nat (u64 (seq_blocks * block_tokens cfg))) 5.

(** One row over a compute and a spill tier, [compute] and [spill], at the
    addresses 0 and 1. *)
Definition tiered_row (row : nat) (cfg : CacheConfig) (options : Options)
    (body : M (CacheManager (T := HostTier.t)) TieredResult) : result TieredResult :=
  match HostTier.make aligned_alloc (u64 (compute_blocks * block_bytes cfg)) with
  | Err e => Err e
  | Ok compute =>
      match HostTier.make aligned_alloc (u64 (spill_blocks * block_bytes cfg)) with
      | Err e => Err e
      | Ok spill =>
          with_manager (turns row)
            (make_manager [{| spec_tier := Some 0%N; spec_num_blocks := compute_blocks |};
                           {| spec_tier := Some 1%N; spec_num_blocks := spill_blocks |}]
               cfg {[0%N := compute; 1%N := spill]} options) body
      end
  end.

Definition set_num_blocks (n : N) (cfg : CacheConfig) : CacheConfig :=
  {| num_blocks := n; block_tokens := block_tokens cfg; num_layers := num_layers cfg;
     num_kv_heads := num_kv_heads cfg; head_dim := head_dim cfg; dtype_bytes := dtype_bytes cfg |}.

Definition tiering_header : Out () :=
  printf (nl +:+ "tiering under oversubscription") [] ;;
  printf ("  (working set %zu blocks, compute %zu, spill %zu)" +:+ nl)
    [Num (sequences * seq_blocks); Num compute_blocks; Num spill_blocks] ;;
  printf ("%-22s %10s %11s %11s %9s %9s" +:+ nl)
    [Str "configuration"; Str "req/s"; Str "hit rate"; Str "evicted"; Str "demoted"; Str "promoted"] ;;
  printf ("%s" +:+ nl) [Str (dashes 78)].

Definition tiering_footer : Out () :=
  printf ("  (evictions cost nothing here; in a real engine each is a recompute." +:+ nl +:+
          "   demoted = copies on the request path; the pipelined row overlaps" +:+ nl +:+
          "   promotion copies with the requests queued behind them.)" +:+ nl) [].

(** Rows 3 to 6. A row is printed in the block of its manager, whose
    destructor prints nothing. *)
Definition bench_tiering (cfg : CacheConfig) : Out () :=
  let workload := tiering_workload cfg in
  let watermark := N.to_nat (compute_blocks / 4) in
  tiering_header ;;
  r ← quietly (with_manager (turns 3) (make_manager_owned aligned_alloc (set_num_blocks compute_blocks cfg))
        (run_manager hw (clock 3) workload));
  print_tier_row "compute only" r ;;
  r ← quietly (tiered_row 4 cfg default_options (run_manager hw (clock 4) workload));
  print_tier_row "compute + spill" r ;;
  r ← quietly (tiered_row 5 cfg {| spill_watermark := watermark; async_promotion := false |}
        (run_manager hw (clock 5) workload));
  print_tier_row "  + async watermark" r ;;
  r ← quietly (tiered_row 6 cfg {| spill_watermark := watermark; async_promotion := true |}
        (run_pipelined hw (clock 6) workload 8));
  print_tier_row "  + async promote x8" r ;;
  tiering_footer.

Definition main_cfg : CacheConfig := {|
  num_blocks := 8192; block_tokens := 16; num_layers := 32; num_kv_heads := 8; head_dim := 128;
  dtype_bytes := 2 |}.

Definition main_header (cfg : CacheConfig) : Out () :=
  let kib := of_u64 1024 in
  printf ("kvslab prefix cache benchmark" +:+ nl) [] ;;
  printf ("  block_tokens=%zu  blocks=%zu  block=%.1f KiB  pool=%.2f GiB" +:+ nl +:+ nl)
    [Num (block_tokens cfg); Num (num_blocks cfg); Real (ddiv (of_u64 (block_bytes cfg)) kib);
     Real (ddiv (of_u64 (total_bytes cfg)) (dmul (dmul kib kib) kib))] ;;
  printf ("%-22s %10s %12s %11s %11s %9s" +:+ nl)
    [Str "workload"; Str "req/s"; Str "us/req"; Str "hit rate"; Str "evicted"; Str "failed"] ;;
  printf ("%s" +:+ nl) [Str (dashes 80)].

(** The program and its exit code. *)
Definition main : Out Z :=
  main_header main_cfg ;;
  r ← quietly (run 0 main_cfg (workload_cold (N.to_nat 20000) 512));
  print_row "cold (no sharing)" r ;;
  r ← quietly (run 1 main_cfg (workload_shared_prefix (N.to_nat 20000) 1024 64));
  print_row "shared prefix 1k+64" r ;;
  r ← quietly (run 2 main_cfg (workload_multi_turn 2000 8 256));
  print_row "multi-turn 8x256" r ;;
  bench_tiering main_cfg ;;
  mret 0%Z.
End benchmark.
