(* ===== verification/BenchDrivers.v ===== *)
(** * The benchmark's drivers against the manager's contract

    What one request, a window of requests and a whole workload leave behind:
    a well-formed manager, the clock and the counters moved on by a known
    amount. *)

From S2P Require Import Prelude Double Types Tier BlockPool PoolInv PoolOps PoolMigrate PoolAsync PoolWorker PoolHands PoolInit PoolSpec BlockStore.
From S2P Require Import RadixTree RadixInv RadixSplit RadixWalk RadixInsert RadixLru RadixEvict RadixDemote RadixPins RadixState RadixPath RadixDestroy RadixOps RadixSpec.
From S2P Require Import CacheManager ManagerInv ManagerPhases ManagerEvict ManagerFill ManagerPin ManagerAcquire ManagerRelease ManagerOps ManagerSpec Bench.

Local Open Scope nat_scope.

(** ** What the drivers rely on *)

(** How far a request moves the tree's clock at most. *)
Definition ticks (workload : list (list TokenId)) : N :=
  foldr (λ q n, 2 * N.of_nat (length q) + 1 + n)%N 0%N workload.

(** Requests short enough for [size_t]. *)
Definition sized (bt : nat) (workload : list (list TokenId)) : Prop :=
  ∀ q, q ∈ workload → (N.of_nat (length q) + N.of_nat bt < two64)%N.

Abbreviation bt_of s := (block_tokens_ (tree_ s)).

Section drivers_ok.
Context {T : Type} `{TierLaws T} `{Iter : IterOrder} `{Wk : Wakes T} (hw : N).
Implicit Types (live : list handle) (s : CacheManager (T := T)).

(** [acquire] may be called. *)
Lemma legal_acquire q s live :
  manager_ok s live → (N.of_nat (length q) + N.of_nat (bt_of s) < two64)%N →
  (clock_ (tree_ s) + 2 * N.of_nat (length q) + 1 < two64)%N → (N.of_nat (length live) + 1 < two32)%N →
  legal (Acquire q) (s, live).
Proof. intros Mo H1 H2 H3. pose proof (mo_bt _ _ Mo). unfold legal, size_of. split_and!; lia. Qed.

(** Dropping an empty handle does nothing. *)
Lemma wp_drop_empty s (Q : () → CacheManager → Prop) : Q () s → wp (destroy_alloc empty_alloc) Q s.
Proof. done. Qed.

(** A handle goes back with the tokens it came for. *)
Lemma extends_self t q a : handle_ok t (q, a) → extends a q q.
Proof. intros Ha. split; [done|]. apply (ho_fit _ _ Ha). Qed.

(** What a whole request leaves behind. *)
Record advanced s s' (n k : N) live : Prop := {
  av_ok : system_ok (s', live);
  av_bt : bt_of s' = bt_of s;
  av_clock : (clock_ (tree_ s') <= clock_ (tree_ s) + n)%N;
  av_requests : requests (stats_ s') = u64 (requests (stats_ s) + k);
  av_tokens : hits_fit (stats_ s) → (total_tokens (stats_ s) + n < two64)%N →
    hits_fit (stats_ s') ∧ (total_tokens (stats_ s') <= total_tokens (stats_ s) + n)%N;
}.

Lemma requests_of st st' : request_stats st' = request_stats st → requests st' = requests st.
Proof. unfold request_stats. by intros [= ? _ _ _ _ _]. Qed.

(** Neither counter of tokens moves. *)
Lemma tokens_same st st' n :
  request_stats st' = request_stats st → hits_fit st → (total_tokens st + n < two64)%N →
  hits_fit st' ∧ (total_tokens st' <= total_tokens st + n)%N.
Proof. unfold request_stats, hits_fit. intros [= _ _ -> -> _ _]. lia. Qed.

Lemma acquired_tokens s q live a s' n :
  acquired s q live a s' → (N.of_nat (length q) <= n)%N → hits_fit (stats_ s) →
  (total_tokens (stats_ s) + n < two64)%N →
  hits_fit (stats_ s') ∧ (total_tokens (stats_ s') <= total_tokens (stats_ s) + n)%N.
Proof.
  intros A Hn Hf Hlt. pose proof (lg_handles _ _ _ (mo_ledger _ _ (aq_ok _ _ _ _ _ A)) (q, a) ltac:(by left)) as Ha.
  destruct (hits_counted q (cached_tokens a) (stats_ s) Hf (ho_fit _ _ Ha) ltac:(lia)) as [H1 H2].
  pose proof (aq_stats _ _ _ _ _ A) as E. unfold request_stats in E. unfold hits_fit in *. injection E as _ _ -> -> _ _. lia.
Qed.

Lemma refused_stats st : request_stats (bump_failures (bump_requests st)) =
  [inc (requests st); served st; total_tokens st; hit_tokens st; inc (alloc_failures st); abandoned st].
Proof. done. Qed.

Lemma refused_tokens s q live s' n :
  refused s q live s' → hits_fit (stats_ s) → (total_tokens (stats_ s) + n < two64)%N →
  hits_fit (stats_ s') ∧ (total_tokens (stats_ s') <= total_tokens (stats_ s) + n)%N.
Proof.
  intros R. pose proof (re_stats _ _ _ _ R) as E. rewrite refused_stats in E. unfold request_stats in E.
  unfold hits_fit. injection E as _ _ -> -> _ _. lia.
Qed.

Lemma acquired_requests s q live a s' :
  acquired s q live a s' → requests (stats_ s') = u64 (requests (stats_ s) + 1).
Proof.
  intros A. rewrite (requests_of _ _ (aq_stats _ _ _ _ _ A)). unfold counted. by case_bool_decide.
Qed.

Lemma refused_requests s q live s' :
  refused s q live s' → requests (stats_ s') = u64 (requests (stats_ s) + 1).
Proof. intros R. by rewrite (requests_of _ _ (re_stats _ _ _ _ R)). Qed.

(** One round of the first loop. *)
Lemma serve_one_spec q s :
  system_ok (s, []) → (N.of_nat (length q) + N.of_nat (bt_of s) < two64)%N →
  (clock_ (tree_ s) + 2 * N.of_nat (length q) + 1 < two64)%N →
  wp (serve_one hw q) (λ _ s', advanced s s' (2 * N.of_nat (length q) + 1) 1 []) s.
Proof.
  intros So Hsz Hc. unfold serve_one. wp_step.
  eapply wp_mono; [apply acquire_system; [exact So|by apply legal_acquire; [apply So|..]]|].
  intros a s1 [(Hok & A & So1)|(-> & R & So1)].
  - rewrite Hok. simpl. wp_step. pose proof (aq_clock _ _ _ _ _ A) as Hc1.
    eapply wp_mono; [eapply release_system; [exact So1| |lia]|].
    { eapply extends_self. apply (mo_ledger _ _ (so_manager _ So1)). by left. }
    intros a' s2 (-> & R & So2). apply wp_drop_empty. pose proof (rs_clock _ _ _ _ _ R).
    constructor; [done| |lia| |].
    + by rewrite (rs_bt _ _ _ _ _ R), (aq_bt _ _ _ _ _ A).
    + by rewrite (requests_of _ _ (rs_stats _ _ _ _ _ R)), (acquired_requests _ _ _ _ _ A).
    + intros Hf Hlt. destruct (acquired_tokens _ _ _ _ _ (2 * N.of_nat (length q) + 1) A) as [Hf1 Ht1]; [lia|done|done|].
      destruct (tokens_same _ _ 0 (rs_stats _ _ _ _ _ R) Hf1) as [Hf2 Ht2]; [lia|]. split; [done|lia].
  - simpl. apply wp_drop_empty. pose proof (re_clock _ _ _ _ R).
    constructor; [done|apply R|lia|by eapply refused_requests|]. intros. by eapply refused_tokens.
Qed.

Lemma requests_small sys : system_ok sys → u64 (requests (stats_ sys.1)) = requests (stats_ (T := T) sys.1).
Proof. intros So. rewrite (so_stats _ So). unfold u64. by rewrite N.Div0.mod_mod. Qed.

(** Nothing happened. *)
Lemma advanced_refl s live : system_ok (s, live) → advanced s s 0 0 live.
Proof.
  intros So. constructor; [done..|lia| |by intros ? ?; split; [|lia]].
  rewrite N.add_0_r. symmetry. by apply (requests_small (s, live)).
Qed.

Lemma advanced_trans a b c n m k l live live' :
  advanced a b n k live → advanced b c m l live' → advanced a c (n + m) (k + l) live'.
Proof.
  intros [A1 A2 A3 A4 A5] [B1 B2 B3 B4 B5]. constructor; [done|congruence|lia|rewrite B4, A4, u64_add; f_equal; lia|].
  intros Hf Hlt. destruct (A5 Hf) as [Hf1 Ht1]; [lia|]. destruct (B5 Hf1) as [Hf2 Ht2]; [lia|]. split; [done|lia].
Qed.

Lemma serve_all ws s :
  system_ok (s, []) → sized (bt_of s) ws → (clock_ (tree_ s) + ticks ws < two64)%N →
  wp (for_each ws (serve_one hw)) (λ _ s', advanced s s' (ticks ws) (N.of_nat (length ws)) []) s.
Proof.
  revert s. induction ws as [|q ws IH]; intros s So Hsz Hc; cbn [for_each].
  { wp_steps. by apply advanced_refl. }
  change (ticks (q :: ws)) with (2 * N.of_nat (length q) + 1 + ticks ws)%N in *.
  replace (N.of_nat (length (q :: ws))) with (1 + N.of_nat (length ws))%N by (simpl; lia).
  wp_step. eapply wp_mono; [apply serve_one_spec; [done|apply Hsz; by left|lia]|].
  intros [] s1 A. pose proof A as [A1 A2 A3 A4 A5]. eapply wp_mono; [apply IH; [done| |lia]|].
  - intros x Hx. rewrite A2. apply Hsz. by right.
  - intros [] s2 B. by eapply advanced_trans.
Qed.

(** ** The pipelined driver *)

(** The handles in the window, as the ledger knows them. *)
Definition in_flight (w : window) : list handle := (λ x, (x.2, x.1)) <$> w.

(** What finishing the requests in the window costs. *)
Definition pending (w : window) : N := foldr (λ x n, N.of_nat (length x.2) + 1 + n)%N 0%N w.

Lemma pending_app w v : pending (w ++ v) = (pending w + pending v)%N.
Proof. induction w as [|x w IH]; [done|]. cbn [pending foldr app]. fold (pending (w ++ v)) (pending w). lia. Qed.

Lemma finish_front_spec a q w s :
  system_ok (s, in_flight ((a, q) :: w)) → (clock_ (tree_ s) + N.of_nat (length q) + 1 < two64)%N →
  wp_unless (¬ fair) (finish_front hw ((a, q) :: w)) (λ w' s', w' = w ∧ advanced s s' (N.of_nat (length q) + 1) 0 (in_flight w)) s.
Proof.
  intros So Hc. unfold finish_front. apply wp_unless_bind.
  eapply wp_unless_mono; [apply (wait_system q a); [exact So|by left]|done|]. intros [] s1 [F So1].
  rewrite <-(sf_tree _ _ F) in Hc. apply wp_unless_wp. wp_step.
  eapply wp_mono; [eapply release_system; [exact So1| |done]|].
  { eapply extends_self. apply (mo_ledger _ _ (so_manager _ So1)). by left. }
  intros a' s2 (-> & R & So2). wp_step. apply wp_drop_empty. wp_steps. split; [done|].
  pose proof (rs_clock _ _ _ _ _ R) as Hk. rewrite (sf_tree _ _ F) in Hk. constructor; [done| |lia| |].
  - by rewrite (rs_bt _ _ _ _ _ R), (sf_tree _ _ F).
  - rewrite N.add_0_r, (requests_of _ _ (rs_stats _ _ _ _ _ R)), (requests_of _ _ (sf_stats _ _ F)).
    symmetry. by apply (requests_small (s, in_flight ((a, q) :: w))).
  - apply tokens_same. rewrite (rs_stats _ _ _ _ _ R). apply F.
Qed.

Lemma finish_all_spec w s :
  system_ok (s, in_flight w) → (clock_ (tree_ s) + pending w < two64)%N →
  wp_unless (¬ fair) (finish_all hw w) (λ _ s', advanced s s' (pending w) 0 []) s.
Proof.
  intros So Hc. unfold finish_all.
  eapply (wp_unless_loop _ _ (λ k v s1, k = length v ∧ ∃ n, advanced s s1 n 0 (in_flight v) ∧ (n + pending v <= pending w)%N)
    (λ k, k) _ _ (length w)).
  - split; [done|]. exists 0%N. split; [by apply advanced_refl|lia].
  - lia.
  - intros k v s1 (-> & n & A & Hn). destruct v as [|[a q] v].
    { destruct A as [A1 A2 A3 A4 A5]. simpl in Hn. constructor; [done|done|lia|done|].
      intros Hf Hlt. destruct (A5 Hf) as [? ?]; [lia|]. split; [done|lia]. }
    cbn [pending foldr] in Hn. fold (pending v) in Hn. cbn [snd] in Hn. pose proof (av_clock _ _ _ _ _ A).
    apply wp_unless_bind. eapply wp_unless_mono; [apply finish_front_spec; [apply A|lia]|done|]. intros v' s2 [-> B].
    exists (length v). split; [|simpl; lia]. split; [done|]. pose proof (advanced_trans _ _ _ _ _ _ _ _ _ A B) as C.
    eexists. split; [exact C|lia].
Qed.

Lemma move_alloc_eq a : move_alloc a = (a, empty_alloc).
Proof. by destruct a. Qed.

Lemma in_flight_snoc w a q : (q, a) :: in_flight w ≡ₚ in_flight (w ++ [(a, q)]).
Proof. unfold in_flight. rewrite fmap_app. simpl. apply Permutation_cons_append. Qed.

Lemma advanced_perm a b n k live live' : live ≡ₚ live' → advanced a b n k live → advanced a b n k live'.
Proof. intros E [A1 A2 A3 A4 A5]. constructor; try done. by eapply system_ok_perm. Qed.

(** A request enters the window, or is turned away. *)
Lemma wp_enter q w s :
  system_ok (s, in_flight w) → (N.of_nat (length q) + N.of_nat (bt_of s) < two64)%N →
  (clock_ (tree_ s) + 2 * N.of_nat (length q) + 1 < two64)%N → (N.of_nat (length w) + 1 < two32)%N →
  wp (acquire hw q) (λ a s1, (∀ s2, destroy_alloc (if ok a then (move_alloc a).2 else a) s2 = Ok ((), s2)) ∧
    ∃ w', w' = (if ok a then w ++ [((move_alloc a).1, q)] else w) ∧
      advanced s s1 (N.of_nat (length q)) 1 (in_flight w')) s.
Proof.
  intros So Hsz Hc Hn. eapply wp_mono.
  { apply acquire_system; [exact So|apply legal_acquire; [apply So|done..|]]. unfold in_flight. by rewrite length_fmap. }
  intros a s1 [(Hok & A & So1)|(-> & R & So1)].
  - rewrite Hok, move_alloc_eq. cbn [fst snd]. split; [done|]. eexists. split; [done|].
    eapply advanced_perm; [apply in_flight_snoc|].
    constructor; [done|apply A|apply A|by eapply acquired_requests|]. intros. by eapply acquired_tokens.
  - cbn [ok empty_alloc]. split; [done|]. eexists. split; [done|].
    constructor; [done|apply R|apply R|by eapply refused_requests|]. intros. by eapply refused_tokens.
Qed.

Lemma pipeline_spec depth ws w s :
  0 < depth → (N.of_nat depth + 1 < two32)%N → length w < depth →
  system_ok (s, in_flight w) → sized (bt_of s) ws →
  (clock_ (tree_ s) + (ticks ws + pending w) < two64)%N →
  wp_unless (¬ fair) (pipeline hw depth ws w) (λ w' s', ∃ n, advanced s s' n (N.of_nat (length ws)) (in_flight w') ∧
    (n + pending w' <= ticks ws + pending w)%N) s.
Proof.
  intros Hd Hd2. revert w s. induction ws as [|q ws IH]; intros w s Hw So Hsz Hc; cbn [pipeline].
  { exists 0%N. split; [by apply advanced_refl|simpl; lia]. }
  change (ticks (q :: ws)) with (2 * N.of_nat (length q) + 1 + ticks ws)%N in *.
  replace (N.of_nat (length (q :: ws))) with (1 + N.of_nat (length ws))%N by (simpl; lia).
  apply wp_unless_then. eapply wp_mono; [apply (wp_enter q w); [done|apply Hsz; by left|lia|lia]|].
  intros a s1 (Hdrop & w1 & Ew & A). cbv zeta. rewrite <-Ew.
  assert ((pending w1 <= pending w + (N.of_nat (length q) + 1))%N) as Hp1.
  { rewrite Ew. destruct (ok a); [rewrite pending_app; simpl; lia|lia]. }
  assert (length w1 ≤ S (length w)) as Hl1 by (rewrite Ew; destruct (ok a); [rewrite length_app; simpl; lia|lia]).
  clear Ew. pose proof (av_clock _ _ _ _ _ A) as Hc1.
  apply wp_unless_bind. eapply (wp_unless_mono _ _ _ (λ w2 s2, length w2 < depth ∧ ∃ n, advanced s s2 n 1 (in_flight w2) ∧
    (n + pending w2 <= N.of_nat (length q) + pending w1)%N)).
  - destruct (Nat.leb_spec depth (length w1)) as [Hle|Hgt].
    + destruct w1 as [|[b q'] w1]; [simpl in Hle; lia|]. change (pending ((b, q') :: w1))
        with (N.of_nat (length q') + 1 + pending w1)%N in *. simpl in Hl1.
      eapply wp_unless_mono; [apply finish_front_spec; [apply A|lia]|done|]. intros w2 s2 [-> B].
      split; [lia|]. exists (N.of_nat (length q) + (N.of_nat (length q') + 1))%N. split; [|lia].
      by apply (advanced_trans _ _ _ _ _ _ _ _ _ A B).
    + split; [done|]. eexists. split; [exact A|lia].
  - done.
  - intros w2 s2 (Hw2 & n & B & Hn). pose proof (av_clock _ _ _ _ _ B).
    apply wp_unless_then. eapply wp_ok; [exact (Hdrop s2)|].
    eapply wp_unless_mono; [apply IH; [done|apply B| |lia]|..].
    { intros x Hx. rewrite (av_bt _ _ _ _ _ B). apply Hsz. by right. }
    { done. }
    intros w3 s3 (m & C & Hm). exists (n + m)%N. split; [by eapply advanced_trans|lia].
Qed.
End drivers_ok.
