(* ===== verification/BenchSpec.v ===== *)
(** * What the benchmark's runs rely on and deliver

    The shapes of the workloads of bench/bench_prefix_cache.cpp, its drivers
    against the manager's contract, and the whole program. *)

From S2P Require Import Prelude Double Types Tier BlockPool PoolInv PoolOps PoolMigrate PoolAsync PoolWorker PoolHands PoolInit PoolSpec BlockStore.
From S2P Require Import RadixTree RadixInv RadixSplit RadixWalk RadixInsert RadixLru RadixEvict RadixDemote RadixPins RadixState RadixPath RadixDestroy RadixOps RadixSpec.
From S2P Require Import CacheManager ManagerInv ManagerPhases ManagerEvict ManagerFill ManagerPin ManagerAcquire ManagerRelease ManagerOps ManagerSpec Bench BenchDrivers.

Local Open Scope nat_scope.

(** ** Workloads *)

(** [n] requests of at most [len] tokens each. *)
Definition shaped (n len : nat) (ws : list (list TokenId)) : Prop :=
  length ws = n ∧ ∀ q, q ∈ ws → length q ≤ len.











Lemma shaped_sized n len ws bt : shaped n len ws → (N.of_nat len + N.of_nat bt < two64)%N → sized bt ws.
Proof. intros [_ Hl] H q Hq. specialize (Hl q Hq). lia. Qed.


(** Later turns of a conversation start with the earlier ones: what the cache
    is for. *)
Lemma conversation_history state turns l hist q :
  q ∈ (conversation state turns l hist).1 → hist `prefix_of` q.
Proof.
  revert state hist. induction turns as [|turns IH]; intros state hist; [by intros ?%not_elem_of_nil|].
  cbn [conversation]. destruct (random_tokens state l) as [turn st]. specialize (IH st (hist ++ turn)).
  destruct (conversation st turns l (hist ++ turn)) as [out st']. simpl in *.
  intros [->|Hq]%elem_of_cons; [by exists turn|]. etrans; [by exists turn|]. auto.
Qed.

Lemma conversation_chain state turns l hist i j p q :
  i ≤ j → (conversation state turns l hist).1 !! i = Some p →
  (conversation state turns l hist).1 !! j = Some q → p `prefix_of` q.
Proof.
  revert state hist i j. induction turns as [|turns IH]; intros state hist i j Hij; [done|].
  cbn [conversation]. destruct (random_tokens state l) as [turn st].
  pose proof (conversation_history st turns l (hist ++ turn)) as Hh. specialize (IH st (hist ++ turn)).
  destruct (conversation st turns l (hist ++ turn)) as [out st']. simpl in *.
  destruct i as [|i], j as [|j]; simpl; [naive_solver| |lia|intros; eapply (IH i j); [lia|done..]].
  intros [= <-] Hq. by apply Hh, (list_elem_of_lookup_2 _ j).
Qed.

(** ** Drivers *)

Section drivers_spec.
Context {T : Type} `{TierLaws T} `{Iter : IterOrder} `{Wk : Wakes T} (hw : N).
Implicit Types s : CacheManager (T := T).

(** The counters a driver returns after [k] requests that moved the clock by
    [n] at most, and the manager it leaves. *)
Definition reported s (k : nat) (n : N) (st : Stats) s' : Prop :=
  st = stats_ s' ∧ system_ok (s', []) ∧ requests st = u64 (requests (stats_ s) + N.of_nat k) ∧
  (hits_fit (stats_ s) → (total_tokens (stats_ s) + n < 2 ^ 53)%N → in_unit (hit_rate st)).

Lemma advanced_reported s s' m n k :
  advanced s s' m (N.of_nat k) [] → (m <= n)%N → reported s k n (stats_ s') s'.
Proof.
  intros [A1 A2 A3 A4 A5] Hn. split_and!; [done..|]. intros Hf Hlt.
  destruct (A5 Hf) as [Hf' Ht]; [unfold two64; lia|]. apply hit_rate_unit; [done|lia].
Qed.



Lemma run_pipelined_spec seconds ws depth s :
  0 < depth → (N.of_nat depth + 1 < two32)%N → system_ok (s, []) → sized (bt_of s) ws →
  (clock_ (tree_ s) + ticks ws < two64)%N →
  wp_unless (¬ fair) (run_pipelined hw seconds ws depth) (λ r, reported s (length ws) (ticks ws) (tr_stats r)) s.
Proof.
  intros Hd Hd2 So Hsz Hc. unfold run_pipelined. apply wp_unless_bind.
  eapply wp_unless_mono; [apply (pipeline_spec hw depth ws []); [done..|simpl; lia]|done|].
  intros w s1 (n & A & Hn). simpl in Hn. pose proof (av_clock _ _ _ _ _ A). apply wp_unless_bind.
  eapply wp_unless_mono; [apply finish_all_spec; [apply A|lia]|done|]. intros [] s2 B. apply wp_unless_wp. wp_steps.
  eapply (advanced_reported _ _ (n + pending w)); [|lia]. rewrite <-(N.add_0_r (N.of_nat (length ws))).
  by eapply advanced_trans.
Qed.

(** C25: the pipelined driver, with any window of at least one request. It
    never loses track of a handle: whatever the requests and whatever turns the
    workers take, every handle it waits on or gives back is live, and no call
    fails. Unless the workers, not being [fair], keep it in a wait for good, it
    returns: the window is empty at the end, no block is left with a request,
    and the counters it returns count every request once, as served or as
    refused, with a hit rate between 0 and 1. With a window of zero the driver
    takes the front of an empty queue as soon as a request is refused. *)
Theorem bench_run_pipelined seconds ws depth s :
  (0 < depth → (N.of_nat depth + 1 < two32)%N → system_ok (s, []) → sized (bt_of s) ws →
   (clock_ (tree_ s) + ticks ws < two64)%N →
   wp_unless (¬ fair) (run_pipelined hw seconds ws depth) (λ r s', system_ok (s', []) ∧ tallied (tr_stats r) ∧
     requests (tr_stats r) = u64 (requests (stats_ s) + N.of_nat (length ws)) ∧
     (hits_fit (stats_ s) → (total_tokens (stats_ s) + ticks ws < 2 ^ 53)%N → in_unit (hit_rate (tr_stats r)))) s) ∧
  (∀ q s1, acquire hw q s = Ok (empty_alloc, s1) →
   run_pipelined hw seconds (q :: ws) 0 s = Err (BadPointer "window.front()")).
Proof.
  split.
  - intros. eapply wp_unless_mono; [by apply run_pipelined_spec|done|].
    intros r s' (-> & So & E & Hu). by split_and!; [|apply So|..].
  - intros q s1 E. unfold run_pipelined. cbn [pipeline]. unfold mbind, M_bind. by rewrite E.
Qed.
End drivers_spec.

(** ** Output *)



(** ** The program *)

Section program.
Context `{Iter : IterOrder} `{Wk : Wakes HostTier.t} (hw : N) (aligned_alloc : N → N → option (list byte)).
Context (clock : nat → double) (turns : nat → list (list nat)).
(** The C library returns a block of the size it was asked for, and does not
    run out of memory. *)
Hypothesis aligned_alloc_size : ∀ align size a, aligned_alloc align size = Some a → size_of a = size.
Hypothesis aligned_alloc_some : ∀ align size, is_Some (aligned_alloc align size).






















End program.

(** ** A concrete run *)

Module ExampleBench.
#[local] Instance iter2 : IterOrder := {| iter := map_to_list; iter_perm m := reflexivity _ |}.
#[local] Existing Instance round_robin.
Import ExampleManager.

Lemma m0_system : system_ok (m0, []).
Proof.
  constructor; [exact m0_ok|done|by intros h ?%not_elem_of_nil].
Qed.

Definition qs : list (list TokenId) := [q; q; q].

Lemma qs_shaped : shaped 3 4 qs.
Proof. split; [done|]. intros x. by do 3 (intros [->|Hx]%elem_of_cons; [done|revert Hx]); intros ?%not_elem_of_nil. Qed.

Lemma m0_front : bt_of m0 = 2 ∧ clock_ (tree_ m0) = 0%N.
Proof. vm_compute. split; reflexivity. Qed.

(** Three requests through a window of two, over tiers of two blocks. *)
Lemma bench_run_pipelined_witness :
  ∃ r s', run_pipelined 1 dzero qs 2 m0 = Ok (r, s') ∧ requests (tr_stats r) = 3%N ∧ system_ok (s', []) ∧
    in_unit (hit_rate (tr_stats r)).
Proof.
  destruct (bench_run_pipelined 1 dzero qs 2 m0) as [Hp _], m0_front as [Eb Ec].
  destruct (wp_result _ _ _ (wp_unless_never _ _ _ _ (λ n, n round_robin_fair)
    (Hp ltac:(lia) ltac:(vm_compute; reflexivity) m0_system
      ltac:(rewrite Eb; eapply shaped_sized; [exact qs_shaped|vm_compute; reflexivity])
      ltac:(rewrite Ec; vm_compute; reflexivity)))) as (r & s' & E & So & _ & Er & Hu).
  exists r, s'. split; [exact E|]. split; [rewrite Er; vm_compute; reflexivity|]. split; [exact So|].
  apply Hu; vm_compute; [discriminate|reflexivity].
Defined.


End ExampleBench.
