(* ===== verification/Workers.v ===== *)
(** * The migration threads

    How the scheduler thread and the workers of src/block_pool.cpp share the
    queue: [queue_mutex_], [queue_cv_], the claim cursor, the job objects and
    their two flags. Every step below is one access another thread can come
    between. What a copy does to the bytes, and what draining does to the
    bookkeeping, is in the sequential model of the pool; here a job is its
    flags.

    A condition variable's wait set is the set of threads in a waiting state.
    Wakeups happen by notification only: a spurious wakeup is allowed by the
    language and promised by nothing. *)

From S2P Require Import Prelude.

Local Open Scope nat_scope.

(** A job object: the two atomics, and whether its bytes have been copied. *)
Record Cell := { c_cancelled : bool; c_copied : bool; c_done : bool }.

Definition new_cell : Cell := {| c_cancelled := false; c_copied := false; c_done := false |}.
Definition cancel_cell (c : Cell) : Cell :=
  {| c_cancelled := true; c_copied := c_copied c; c_done := c_done c |}.
Definition copy_cell (c : Cell) : Cell :=
  {| c_cancelled := c_cancelled c; c_copied := true; c_done := c_done c |}.
Definition done_cell (c : Cell) : Cell :=
  {| c_cancelled := c_cancelled c; c_copied := c_copied c; c_done := true |}.

(** Where a worker is in [worker_loop]. *)
Inductive wpc :=
  | WLock              (* about to (re)acquire the mutex *)
  | WCheck             (* evaluating the wait predicate, mutex held *)
  | WSleep             (* predicate false, mutex still held *)
  | WWaiting           (* in the wait set *)
  | WTest (j : nat)    (* claimed; about to read cancelled *)
  | WCopy (j : nat)
  | WStore (j : nat)   (* about to store done *)
  | WNotify
  | WExited.

(** Where the scheduler thread is, across the pool's entry points. *)
Inductive spc :=
  | SIdle
  | SPushLock | SPushDo | SEnsure | SNotifyOne      (* migrate_async *)
  | SWaitLock | SScan (k : nat) | SSleep | SWaiting | SWaited   (* wait_for_migrations *)
  | SDrainLock | SDrainPop                          (* drain_migrations *)
  | SStopLock | SStopSet | SStopNotify | SJoin | SEnd.  (* ~BlockPool *)

Inductive thread := TSched | TWorker (i : nat).
Inductive call := CPush | CCancel (j : nat) | CDrain | CWait | CStop.

(** The next thing to happen: the scheduler enters an operation, takes a step
    inside one ([pick] is the waiter [notify_one] chooses), or a worker steps. *)
Inductive label := Call (c : call) | Sched (pick : nat) | Work (i : nat).

Record state := mk {
  mutex : option thread;
  stopping : bool;
  queue : list nat;
  cursor : nat;
  cells : gmap nat Cell;
  next : nat;
  sched : spc;
  workers : list wpc;
}.

#[global] Instance thread_eq_dec : EqDecision thread.
Proof. solve_decision. Defined.
#[global] Instance wpc_eq_dec : EqDecision wpc.
Proof. solve_decision. Defined.
#[global] Instance spc_eq_dec : EqDecision spc.
Proof. solve_decision. Defined.

Definition initial : state := mk None false [] 0 ∅ 0 SIdle [].

Definition at_sched (pc : spc) (s : state) : state :=
  mk (mutex s) (stopping s) (queue s) (cursor s) (cells s) (next s) pc (workers s).
Definition at_worker (i : nat) (pc : wpc) (s : state) : state :=
  mk (mutex s) (stopping s) (queue s) (cursor s) (cells s) (next s) (sched s)
    (<[i := pc]> (workers s)).
Definition set_mutex (m : option thread) (s : state) : state :=
  mk m (stopping s) (queue s) (cursor s) (cells s) (next s) (sched s) (workers s).
Definition set_cell (j : nat) (c : Cell) (s : state) : state :=
  mk (mutex s) (stopping s) (queue s) (cursor s) (<[j := c]> (cells s)) (next s) (sched s)
    (workers s).

Definition lock (t : thread) (s : state) : option state :=
  match mutex s with None => Some (set_mutex (Some t) s) | Some _ => None end.
Definition unlock (s : state) : state := set_mutex None s.

Definition wake_worker (w : wpc) : wpc := match w with WWaiting => WLock | w => w end.
Definition wake_sched (pc : spc) : spc := match pc with SWaiting => SWaitLock | pc => pc end.
Definition notify_all (s : state) : state :=
  mk (mutex s) (stopping s) (queue s) (cursor s) (cells s) (next s) (wake_sched (sched s))
    (wake_worker <$> workers s).

(** [notify_one] from the scheduler: some waiting worker, if there is one. *)
Definition notify_one (pick : nat) (s : state) : option state :=
  if decide (WWaiting ∈ workers s)
  then if decide (workers s !! pick = Some WWaiting) then Some (at_worker pick WLock s) else None
  else Some s.

Definition front_done (s : state) : bool :=
  match queue s with
  | j :: _ => match cells s !! j with Some c => c_done c | None => false end
  | [] => false
  end.

(** The threads [ensure_worker] starts. *)
Definition spawned (hw : nat) : list wpc := replicate (if 4 <=? hw then 3 else 1) WLock.

(** The scheduler inside [migrate_async], from the push on. [hw] is
    [std::thread::hardware_concurrency()]. *)
Definition push_op (hw pick : nat) (s : state) : option state :=
  match sched s with
  | SPushLock => lock TSched (at_sched SPushDo s)
  | SPushDo =>
      Some (unlock (at_sched SEnsure
        (mk (mutex s) (stopping s) (queue s ++ [next s]) (cursor s)
           (<[next s := new_cell]> (cells s)) (S (next s)) (sched s) (workers s))))
  | SEnsure =>
      Some (at_sched SNotifyOne
        (match workers s with
         | [] => mk (mutex s) (stopping s) (queue s) (cursor s) (cells s) (next s) (sched s)
                   (spawned hw)
         | _ => s
         end))
  | SNotifyOne => notify_one pick (at_sched SIdle s)
  | _ => None
  end.

(** Inside [wait_for_migrations]; its predicate reads one flag at a time. *)
Definition wait_op (s : state) : option state :=
  match sched s with
  | SWaitLock => lock TSched (at_sched (SScan 0) s)
  | SScan k =>
      match queue s !! k with
      | None => Some (unlock (at_sched SWaited s))
      | Some j => c ← cells s !! j; Some (at_sched (if c_done c then SScan (S k) else SSleep) s)
      end
  | SSleep => Some (unlock (at_sched SWaiting s))
  | SWaited => Some (at_sched (if decide (queue s = []) then SIdle else SDrainLock) s)
  | _ => None
  end.

(** Inside the critical section of [drain_migrations], one pop at a time. *)
Definition drain_op (s : state) : option state :=
  match sched s with
  | SDrainLock => lock TSched (at_sched SDrainPop s)
  | SDrainPop =>
      match queue s with
      | j :: rest =>
          if front_done s
          then Some (mk (mutex s) (stopping s) rest (pred (cursor s)) (delete j (cells s)) (next s)
                       (sched s) (workers s))
          else Some (unlock (at_sched SIdle s))
      | [] => Some (unlock (at_sched SIdle s))
      end
  | _ => None
  end.

(** Inside the destructor. *)
Definition stop_op (s : state) : option state :=
  match sched s with
  | SStopLock => lock TSched (at_sched SStopSet s)
  | SStopSet =>
      Some (unlock (at_sched SStopNotify
        (mk (mutex s) true (queue s) (cursor s) (cells s) (next s) (sched s) (workers s))))
  | SStopNotify => Some (notify_all (at_sched SJoin s))
  | SJoin => if decide (Forall (λ w, w = WExited) (workers s)) then Some (at_sched SEnd s) else None
  | _ => None
  end.

(** One step of the scheduler inside an operation. *)
Definition sched_step (hw pick : nat) (s : state) : option state :=
  match sched s with
  | SIdle | SWaiting | SEnd => None
  | SPushLock | SPushDo | SEnsure | SNotifyOne => push_op hw pick s
  | SWaitLock | SScan _ | SSleep | SWaited => wait_op s
  | SDrainLock | SDrainPop => drain_op s
  | SStopLock | SStopSet | SStopNotify | SJoin => stop_op s
  end.

(** One step of worker [i] in [worker_loop]. *)
Definition worker_step (i : nat) (s : state) : option state :=
  w ← workers s !! i;
  match w with
  | WLock => lock (TWorker i) (at_worker i WCheck s)
  | WCheck =>
      if stopping s then Some (unlock (at_worker i WExited s))
      else match queue s !! cursor s with
           | Some j =>
               Some (unlock (at_worker i (WTest j)
                 (mk (mutex s) (stopping s) (queue s) (S (cursor s)) (cells s) (next s) (sched s)
                    (workers s))))
           | None => Some (at_worker i WSleep s)
           end
  | WSleep => Some (unlock (at_worker i WWaiting s))
  | WWaiting | WExited => None
  | WTest j => c ← cells s !! j; Some (at_worker i (if c_cancelled c then WStore j else WCopy j) s)
  | WCopy j => c ← cells s !! j; Some (at_worker i (WStore j) (set_cell j (copy_cell c) s))
  | WStore j => c ← cells s !! j; Some (at_worker i WNotify (set_cell j (done_cell c) s))
  | WNotify => Some (at_worker i WLock (notify_all s))
  end.

(** The scheduler, idle, enters one of the pool's operations: [migrate_async],
    [wait_for_migrations] and the destructor at the mutex they lock first,
    [drain_migrations] past its unlocked test of the queue, and
    [cancel_migration] with the one store it makes to a job. *)
Definition call_step (c : call) (s : state) : option state :=
  match sched s with
  | SIdle =>
      match c with
      | CPush => Some (at_sched SPushLock s)
      | CCancel j => c ← cells s !! j; Some (set_cell j (cancel_cell c) s)
      | CDrain => Some (at_sched (if decide (queue s = []) then SIdle else SDrainLock) s)
      | CWait => Some (at_sched SWaitLock s)
      | CStop => Some (at_sched SStopLock s)
      end
  | _ => None
  end.

Definition step (hw : nat) (l : label) (s : state) : option state :=
  match l with
  | Call c => call_step c s
  | Sched pick => sched_step hw pick s
  | Work i => worker_step i s
  end.

(** A schedule: the interleaving, step by step. *)
Fixpoint run (hw : nat) (ls : list label) (s : state) : option state :=
  match ls with
  | [] => Some s
  | l :: ls => s' ← step hw l s; run hw ls s'
  end.

Inductive reachable (hw : nat) : state → Prop :=
  | reach_initial : reachable hw initial
  | reach_step l s s' : reachable hw s → step hw l s = Some s' → reachable hw s'.

(** ** What every reachable state satisfies *)

(** The job a worker holds a pointer to. *)
Definition held (w : wpc) : option nat :=
  match w with WTest j | WCopy j | WStore j => Some j | _ => None end.
Definition sched_holds (pc : spc) : bool :=
  match pc with SPushDo | SScan _ | SSleep | SDrainPop | SStopSet => true | _ => false end.
Definition worker_holds (w : wpc) : bool :=
  match w with WCheck | WSleep => true | _ => false end.
Definition awake (w : wpc) : Prop := w ≠ WWaiting ∧ w ≠ WExited.
Definition stop_pc (pc : spc) : bool :=
  match pc with SStopNotify | SJoin | SEnd => true | _ => false end.
Definition joining (pc : spc) : bool := match pc with SJoin | SEnd => true | _ => false end.
Definition waking (pc : spc) : bool := match pc with SEnsure | SNotifyOne => true | _ => false end.

(** The mutex is held by whoever is in a critical section. *)
Record lock_inv (m : option thread) (pc : spc) (ws : list wpc) : Prop := {
  li_sched : m = Some TSched ↔ sched_holds pc = true;
  li_worker i : m = Some (TWorker i) ↔ ∃ w, ws !! i = Some w ∧ worker_holds w = true;
}.

(** Jobs: those before the cursor are done or in the hands of one worker. *)
Record jobs_inv (q : list nat) (cur : nat) (cs : gmap nat Cell) (nxt : nat) (ws : list wpc)
    : Prop := {
  ji_nodup : NoDup q;
  ji_dom j : j ∈ q ↔ is_Some (cs !! j);
  ji_next j : j ∈ q → j < nxt;
  ji_cursor : cur ≤ length q;
  ji_held i w j : ws !! i = Some w → held w = Some j →
    ∃ k c, q !! k = Some j ∧ k < cur ∧ cs !! j = Some c ∧ c_done c = false;
  ji_one i i' w w' j : ws !! i = Some w → ws !! i' = Some w' →
    held w = Some j → held w' = Some j → i = i';
  ji_done k j c : q !! k = Some j → cs !! j = Some c → c_done c = true → k < cur;
  ji_copied j c : cs !! j = Some c → c_done c = true → c_copied c || c_cancelled c = true;
  ji_stored i j c : ws !! i = Some (WStore j) → cs !! j = Some c → c_copied c || c_cancelled c = true;
}.

(** Opens a step into the branches of the code it came from. *)
Ltac split_step H :=
  repeat (match type of H with
          | context [match ?x with _ => _ end] => destruct x eqn:? in H; try discriminate H
          end);
  injection H as <-;
  repeat match goal with E : ?w = _ |- _ => is_var w; subst w end.
Ltac step_cases l H :=
  destruct l as [?c|?pick|?i]; cbn [step] in H;
  unfold call_step, sched_step, push_op, wait_op, drain_op, stop_op, worker_step, notify_one, lock, mbind, option_bind in H;
  split_step H.

Lemma lookup_wake (ws : list wpc) (i : nat) w :
  (wake_worker <$> ws) !! i = Some w ↔
  ∃ w0, ws !! i = Some w0 ∧ w = wake_worker w0.
Proof. rewrite list_lookup_fmap_Some. naive_solver. Qed.

Lemma list_insert_Some {A} (l : list A) i j x y :
  <[i := x]> l !! j = Some y ↔ (i = j ∧ x = y ∧ j < length l) ∨ (i ≠ j ∧ l !! j = Some y).
Proof. rewrite list_lookup_insert_Some. naive_solver. Qed.

Lemma run_app hw l1 l2 s : run hw (l1 ++ l2) s = run hw l1 s ≫= run hw l2.
Proof.
  revert s. induction l1 as [|l l1 IH]; intros s; [done|].
  cbn [run app]. destruct (step hw l s) as [s1|]; [apply IH|done].
Qed.

Create HintDb threads.

(** *** The mutex *)

Section lock_steps.
Context m pc ws (L : lock_inv m pc ws).

Lemma lock_sched pc' : sched_holds pc' = sched_holds pc → lock_inv m pc' ws.
Proof. intros E. destruct L as [L1 L2]. split; [by rewrite E|done]. Qed.

Lemma lock_acquire_sched pc' :
  m = None → sched_holds pc' = true → lock_inv (Some TSched) pc' ws.
Proof.
  intros -> Hpc. destruct L as [L1 L2]. split; [done|]. intros i. rewrite <-L2. done.
Qed.

Lemma lock_release_sched pc' :
  sched_holds pc = true → sched_holds pc' = false → lock_inv None pc' ws.
Proof.
  intros Hpc Hpc'. destruct L as [L1 L2]. apply L1 in Hpc as ->.
  split; [by rewrite Hpc'|]. intros i. rewrite <-L2. done.
Qed.

Lemma lock_worker i w w' :
  ws !! i = Some w → worker_holds w' = worker_holds w → lock_inv m pc (<[i := w']> ws).
Proof.
  intros Hw E. destruct L as [L1 L2]. split; [done|]. intros k. rewrite L2.
  setoid_rewrite list_insert_Some. apply lookup_lt_Some in Hw as Hlt.
  destruct (decide (i = k)) as [->|]; [|naive_solver]. split.
  - intros (? & ? & ?). simplify_eq. exists w'. split; [by left|congruence].
  - intros (? & [(_ & <- & _)|[]] & ?); [|done]. exists w. split; [done|congruence].
Qed.

Lemma lock_acquire_worker i w w' :
  m = None → ws !! i = Some w → worker_holds w' = true →
  lock_inv (Some (TWorker i)) pc (<[i := w']> ws).
Proof.
  intros -> Hw Hw'. destruct L as [L1 L2]. apply lookup_lt_Some in Hw as Hlt. split.
  { rewrite <-L1. done. }
  intros k. setoid_rewrite list_insert_Some. split.
  - intros [= <-]. exists w'. auto.
  - intros (v & [(<- & _)|[_ Hv]] & Hh); [done|].
    assert (None = Some (TWorker k)) by (apply L2; eauto). done.
Qed.

Lemma lock_release_worker i w w' :
  ws !! i = Some w → worker_holds w = true → worker_holds w' = false →
  lock_inv None pc (<[i := w']> ws).
Proof.
  intros Hw Hh Hw'. destruct L as [L1 L2].
  assert (m = Some (TWorker i)) as -> by (apply L2; eauto). split; [by rewrite <-L1|].
  intros k. split; [done|]. setoid_rewrite list_insert_Some.
  intros (v & [(<- & <- & _)|[Hne Hv]] & Hh'); [congruence|].
  assert (Some (TWorker i) = Some (TWorker k)) by (apply L2; eauto). congruence.
Qed.

Lemma lock_notify : lock_inv m (wake_sched pc) (wake_worker <$> ws).
Proof.
  destruct L as [L1 L2]. split; [rewrite L1; by destruct pc|]. intros i. rewrite L2.
  setoid_rewrite lookup_wake. split.
  - intros (w & Hw & Hh). exists w. split; [|done]. exists w. by destruct w.
  - intros (w & (w0 & Hw & ->) & Hh). exists w0. by destruct w0.
Qed.

Lemma lock_fresh hw : ws = [] → lock_inv m pc (spawned hw).
Proof.
  intros ->. destruct L as [L1 L2]. split; [done|]. intros i. rewrite L2. split.
  - intros (w & Hw & _). by rewrite lookup_nil in Hw.
  - intros (w & [-> _]%lookup_replicate & Hh). done.
Qed.
End lock_steps.

#[export] Hint Resolve lock_sched lock_acquire_sched lock_release_sched lock_worker
  lock_acquire_worker lock_release_worker lock_notify lock_fresh : threads.

Lemma lock_step hw l s s' :
  lock_inv (mutex s) (sched s) (workers s) → step hw l s = Some s' →
  lock_inv (mutex s') (sched s') (workers s').
Proof.
  intros L H. step_cases l H; simpl; try done.
  all: repeat match goal with
         | E : sched _ = _ |- _ => rewrite ?E in *; clear E
         | E : workers _ = _ |- _ => rewrite ?E in *; clear E
         end.
  all: try (by eauto with threads).
  - apply (lock_worker _ _ _ (lock_notify _ _ _ L) i WNotify); [|done]. apply lookup_wake. by exists WNotify.
Qed.

(** *** The queue, the cursor and the job objects *)

Section jobs_steps.
Context q cur cs nxt ws (J : jobs_inv q cur cs nxt ws).

Lemma jobs_push : jobs_inv (q ++ [nxt]) cur (<[nxt := new_cell]> cs) (S nxt) ws.
Proof.
  destruct J as [J1 J2 J3 J4 J5 J6 J7 J8 J9].
  assert (nxt ∉ q) as Hn by (intros Hin%J3; lia).
  assert (∀ j c, <[nxt := new_cell]> cs !! j = Some c → cs !! j = Some c ∨ j = nxt ∧ c = new_cell)
    as Hcs by (intros j c; rewrite lookup_insert_Some; naive_solver).
  assert (∀ i w j, ws !! i = Some w → held w = Some j → j ≠ nxt) as Hheld.
  { intros i w j Hw Hj ->. destruct (J5 i w nxt Hw Hj) as (k & c & Hk & _).
    apply Hn. by eapply list_elem_of_lookup_2. }
  constructor.
  - apply NoDup_app. split_and!; [done| |apply NoDup_singleton].
    intros j Hj ->%list_elem_of_singleton. done.
  - intros j. rewrite elem_of_app, list_elem_of_singleton, J2.
    destruct (decide (j = nxt)) as [->|]; [rewrite lookup_insert_eq|rewrite lookup_insert_ne by done];
      naive_solver.
  - intros j. rewrite elem_of_app, list_elem_of_singleton. intros [Hj%J3| ->]; lia.
  - rewrite length_app. lia.
  - intros i w j Hw Hj. destruct (J5 i w j Hw Hj) as (k & c & Hk & ? & ? & ?). exists k, c.
    rewrite lookup_app_l by (by eapply lookup_lt_Some).
    rewrite lookup_insert_ne by (apply not_eq_sym; eauto). done.
  - done.
  - intros k j c Hk [Hc|[-> ->]]%Hcs Hd; [|done]. rewrite lookup_app_Some in Hk.
    destruct Hk as [Hk|[_ Hk]]; [by eapply J7|].
    apply list_lookup_singleton_Some in Hk as [_ <-]. exfalso. apply Hn, J2. eauto.
  - intros j c [Hc|[-> ->]]%Hcs Hd; [eauto|done].
  - intros i j c Hw [Hc|[-> ->]]%Hcs; [eauto|]. by destruct (Hheld i _ _ Hw eq_refl).
Qed.

Lemma jobs_pop j rest :
  q = j :: rest → (∃ c, cs !! j = Some c ∧ c_done c = true) →
  jobs_inv rest (pred cur) (delete j cs) nxt ws.
Proof.
  intros -> (c & Hc & Hd). destruct J as [J1 J2 J3 J4 J5 J6 J7 J8 J9].
  apply NoDup_cons in J1 as [Hj Hnd].
  assert (0 < cur) as Hcur by (by apply (J7 0 j c)).
  constructor; try done.
  - intros k. destruct (decide (k = j)) as [->|Hne].
    + rewrite lookup_delete_eq. split; [done|by intros []].
    + rewrite lookup_delete_ne by done. rewrite <-J2, elem_of_cons. naive_solver.
  - intros k Hk. apply J3. by right.
  - simpl in J4. lia.
  - intros i w k Hw Hk. destruct (J5 i w k Hw Hk) as (n & c' & Hn & Hlt & Hc' & Hd').
    assert (k ≠ j) by (intros ->; congruence).
    destruct n as [|n]; [simpl in Hn; congruence|]. exists n, c'.
    rewrite lookup_delete_ne by done. split_and!; try done. lia.
  - intros n k c' Hn [_ Hc']%lookup_delete_Some Hd'.
    pose proof (J7 (S n) k c' Hn Hc' Hd'). lia.
  - intros k c' [_ Hc']%lookup_delete_Some. eauto.
  - intros i k c' Hw [_ Hc']%lookup_delete_Some. eauto.
Qed.

(** A worker moves on without taking or leaving a job, or leaves one. *)
Lemma jobs_worker i w w' :
  ws !! i = Some w → (held w' = None ∨ held w' = held w) →
  (∀ j c, w' = WStore j → cs !! j = Some c → c_copied c || c_cancelled c = true) →
  jobs_inv q cur cs nxt (<[i := w']> ws).
Proof.
  intros Hw Hh Hst. destruct J as [J1 J2 J3 J4 J5 J6 J7 J8 J9].
  assert (∀ k v j, <[i := w']> ws !! k = Some v → held v = Some j →
            ∃ v', ws !! k = Some v' ∧ held v' = Some j) as Hback.
  { intros k v j [(<- & <- & _)|[_ Hv]]%list_insert_Some Hj; [|eauto].
    exists w. split; [done|]. destruct Hh; congruence. }
  constructor; try done.
  - intros k v j Hv Hj. destruct (Hback k v j Hv Hj) as (v' & ? & ?). eauto.
  - intros k k' v v' j Hv Hv' Hj Hj'. destruct (Hback k v j Hv Hj) as (? & ? & ?).
    destruct (Hback k' v' j Hv' Hj') as (? & ? & ?). eauto.
  - intros k j c [(<- & -> & _)|[_ Hv]]%list_insert_Some; eauto.
Qed.

Lemma jobs_claim i w j :
  ws !! i = Some w → q !! cur = Some j → jobs_inv q (S cur) cs nxt (<[i := WTest j]> ws).
Proof.
  intros Hw Hq. destruct J as [J1 J2 J3 J4 J5 J6 J7 J8 J9].
  assert (∃ c, cs !! j = Some c ∧ c_done c = false) as (c & Hc & Hd).
  { destruct (proj1 (J2 j)) as [c Hc]; [by eapply list_elem_of_lookup_2|]. exists c. split; [done|].
    destruct (c_done c) eqn:Hd; [|done]. pose proof (J7 cur j c Hq Hc Hd). lia. }
  assert (∀ k v, ws !! k = Some v → held v ≠ Some j) as Hfresh.
  { intros k v Hv Hj. destruct (J5 k v j Hv Hj) as (n & c' & Hn & Hlt & _).
    pose proof (NoDup_lookup _ _ _ _ J1 Hq Hn). lia. }
  constructor; try done.
  - by apply lookup_lt_Some in Hq.
  - intros k v n [(<- & <- & _)|[_ Hv]]%list_insert_Some Hn; simplify_eq/=.
    + exists cur, c. auto with lia.
    + destruct (J5 k v n Hv Hn) as (? & ? & ? & ? & ? & ?). eauto 10 with lia.
  - intros k k' v v' n [(<- & <- & _)|[_ Hv]]%list_insert_Some
      [(<- & <- & _)|[_ Hv']]%list_insert_Some Hn Hn'; simplify_eq/=; [done|..].
    + by destruct (Hfresh _ _ Hv' Hn').
    + by destruct (Hfresh _ _ Hv Hn).
    + eauto.
  - intros k n c' Hk Hc' Hd'. pose proof (J7 k n c' Hk Hc' Hd'). lia.
  - intros k n c' [(_ & [=] & _)|[_ Hv]]%list_insert_Some; eauto.
Qed.

(** A flag of a job in the queue changes, [done] going up only when nobody
    holds the job. *)
Lemma jobs_flag j c c' :
  cs !! j = Some c →
  (c_copied c || c_cancelled c = true → c_copied c' || c_cancelled c' = true) →
  c_done c' = c_done c →
  jobs_inv q cur (<[j := c']> cs) nxt ws.
Proof.
  intros Hc Hmono Hd. destruct J as [J1 J2 J3 J4 J5 J6 J7 J8 J9].
  assert (∀ k x, <[j := c']> cs !! k = Some x → ∃ x0, cs !! k = Some x0 ∧ c_done x = c_done x0 ∧
            (c_copied x0 || c_cancelled x0 = true → c_copied x || c_cancelled x = true)) as Hb.
  { intros k x. rewrite lookup_insert_Some. intros [(<- & <-)|(_ & Hx)]; eauto. }
  constructor; try done.
  - intros k. rewrite J2. destruct (decide (k = j)) as [->|];
      [rewrite lookup_insert_eq, Hc; split; eauto|by rewrite lookup_insert_ne].
  - intros i w k Hw Hk. destruct (J5 i w k Hw Hk) as (n & x & ? & ? & Hx & Hxd).
    destruct (decide (k = j)) as [->|].
    + exists n, c'. rewrite lookup_insert_eq. simplify_eq. split_and!; congruence.
    + exists n, x. by rewrite lookup_insert_ne.
  - intros n k x Hk (x0 & Hx0 & E & _)%Hb Hx. rewrite E in Hx. eauto.
  - intros k x (x0 & Hx0 & E & Hm)%Hb Hx. rewrite E in Hx. eauto.
  - intros i k x Hw (x0 & Hx0 & E & Hm)%Hb. eauto.
Qed.

Lemma jobs_finish i j c :
  ws !! i = Some (WStore j) → cs !! j = Some c →
  jobs_inv q cur (<[j := done_cell c]> cs) nxt (<[i := WNotify]> ws).
Proof.
  intros Hw Hc. destruct J as [J1 J2 J3 J4 J5 J6 J7 J8 J9].
  assert (∀ k v n, <[i := WNotify]> ws !! k = Some v → held v = Some n →
            n ≠ j ∧ ws !! k = Some v) as Hb.
  { intros k v n [(<- & <- & _)|[Hne Hv]]%list_insert_Some Hn; [done|]. split; [|done].
    intros ->. apply Hne. by apply (J6 i k (WStore j) v j). }
  constructor; try done.
  - intros k. rewrite J2. destruct (decide (k = j)) as [->|];
      [rewrite lookup_insert_eq, Hc; split; eauto|by rewrite lookup_insert_ne].
  - intros k v n Hv Hn. destruct (Hb k v n Hv Hn) as [Hne Hv'].
    rewrite lookup_insert_ne by done. eauto.
  - intros k k' v v' n Hv Hv' Hn Hn'. destruct (Hb k v n Hv Hn), (Hb k' v' n Hv' Hn'). eauto.
  - intros k n x Hk [(<- & <-)|(_ & Hx)]%lookup_insert_Some Hd; [|eauto].
    destruct (J5 i _ j Hw eq_refl) as (k' & ? & Hk' & ? & _).
    by rewrite (NoDup_lookup _ _ _ _ J1 Hk Hk').
  - intros n x [(<- & <-)|(_ & Hx)]%lookup_insert_Some Hd; [|eauto]. simpl. by apply (J9 i j).
  - intros k n x Hv. destruct (Hb k _ n Hv eq_refl) as [Hne Hv'].
    rewrite lookup_insert_ne by done. eauto.
Qed.

Lemma jobs_notify : jobs_inv q cur cs nxt (wake_worker <$> ws).
Proof.
  destruct J as [J1 J2 J3 J4 J5 J6 J7 J8 J9].
  assert (∀ i v, (wake_worker <$> ws) !! i = Some v →
            ∃ w, ws !! i = Some w ∧ held v = held w ∧ (∀ j, v = WStore j → w = WStore j)) as Hb.
  { intros i v (w & Hw & ->)%lookup_wake. exists w. by destruct w. }
  constructor; try done.
  - intros i v j (w & Hw & E & _)%Hb Hj. rewrite E in Hj. eauto.
  - intros i i' v v' j (w & Hw & E & _)%Hb (w' & Hw' & E' & _)%Hb Hj Hj'.
    rewrite E in Hj. rewrite E' in Hj'. eauto.
  - intros i j c (w & Hw & _ & Hs)%Hb. assert (w = WStore j) as -> by auto. eauto.
Qed.

Lemma jobs_fresh hw : ws = [] → jobs_inv q cur cs nxt (spawned hw).
Proof.
  intros _. destruct J as [J1 J2 J3 J4 J5 J6 J7 J8 J9].
  assert (∀ i v, spawned hw !! i = Some v → v = WLock) as Hb
    by (intros i v [-> _]%lookup_replicate; done).
  constructor; try done.
  - intros i w j ->%Hb. done.
  - intros i i' w w' j ->%Hb. done.
  - intros i j c Hv%Hb. done.
Qed.
End jobs_steps.

#[export] Hint Resolve jobs_push jobs_notify jobs_claim jobs_finish : threads.

Lemma front_done_spec s j rest :
  queue s = j :: rest → front_done s = true → ∃ c, cells s !! j = Some c ∧ c_done c = true.
Proof. unfold front_done. intros ->. destruct (cells s !! j); naive_solver. Qed.

Lemma jobs_step hw l s s' :
  jobs_inv (queue s) (cursor s) (cells s) (next s) (workers s) → step hw l s = Some s' →
  jobs_inv (queue s') (cursor s') (cells s') (next s') (workers s').
Proof.
  intros J H. step_cases l H; simpl; try done; try (by eauto with threads).
  all: try (eapply jobs_worker; [done..|by left|done]).
  - eapply jobs_flag; [done..| |done]. intros _. apply orb_true_r.
  - by apply (jobs_fresh _ _ _ _ _ J hw).
  - eapply jobs_pop; [done|done|]. by eapply front_done_spec.
  - eapply jobs_worker; [done..|by right|]. intros ? ? [= <-] ?. simplify_eq. by apply orb_true_intro; right.
  - eapply jobs_worker; [done..|by right|done].
  - eapply jobs_worker; [eapply (jobs_flag _ _ _ _ _ J j c (copy_cell c)); [done| |done]; by intros|done|by right|].
    intros ? ? [= <-]. rewrite lookup_insert_eq. by intros [= <-].
  - eapply jobs_worker; [by apply jobs_notify|apply lookup_wake; by exists WNotify|by left|done].
Qed.

(** *** Sleeping, waking and shutting down *)

Section exclusion.
Context s (L : lock_inv (mutex s) (sched s) (workers s)).

Lemma excl_sched i w : sched_holds (sched s) = true → workers s !! i = Some w → worker_holds w = false.
Proof.
  intros Hs Hw. destruct (worker_holds w) eqn:Hh; [|done]. destruct L as [L1 L2].
  apply L1 in Hs. assert (mutex s = Some (TWorker i)) by (apply L2; eauto). congruence.
Qed.

Lemma excl_worker i i' w w' :
  workers s !! i = Some w → workers s !! i' = Some w' →
  worker_holds w = true → worker_holds w' = true → i = i'.
Proof.
  intros Hw Hw' Hh Hh'. destruct L as [_ L2].
  assert (mutex s = Some (TWorker i)) by (apply L2; eauto).
  assert (mutex s = Some (TWorker i')) by (apply L2; eauto). congruence.
Qed.
End exclusion.

Lemma lookup_fresh_worker hw i w : spawned hw !! i = Some w → w = WLock.
Proof. by intros [-> _]%lookup_replicate. Qed.

(** Simplifies the fields of the state after a step, and a lookup in its
    workers. *)
Ltac after_step :=
  cbn [mutex stopping queue cursor cells next sched workers at_sched at_worker set_mutex set_cell
       unlock notify_all] in *.
Ltac worker_cases :=
  repeat match goal with
    | H : <[_ := _]> _ !! _ = Some _ |- _ =>
        apply list_insert_Some in H as [(?&?&?)|[? H]]; simplify_eq/=
    | H : (wake_worker <$> _) !! _ = Some _ |- _ => apply lookup_wake in H as (?w & H & ?)
    | H : spawned _ !! _ = Some _ |- _ => apply lookup_fresh_worker in H; simplify_eq/=
    | H : ?w = wake_worker ?v |- _ => destruct v; simplify_eq/=
    | H : wake_worker ?v = ?w |- _ => destruct v; simplify_eq/=
    end.

(** A worker about to sleep has seen everything claimed and no shutdown. *)
Definition sleep_inv (s : state) : Prop := ∀ i,
  workers s !! i = Some WSleep → stopping s = false ∧ cursor s = length (queue s).

Lemma sleep_step hw l s s' :
  lock_inv (mutex s) (sched s) (workers s) →
  jobs_inv (queue s) (cursor s) (cells s) (next s) (workers s) →
  sleep_inv s → step hw l s = Some s' → sleep_inv s'.
Proof.
  intros L J W H. unfold sleep_inv in *.
  pose proof (excl_sched s L) as Ls. pose proof (excl_worker s L) as Lw.
  pose proof (ji_cursor _ _ _ _ _ J) as Hcur. clear L J.
  step_cases l H; after_step; try done; intros k Hk; worker_cases; try (by eauto).
  all: try (by rewrite Heqs0 in Ls; specialize (Ls k _ eq_refl Hk)).
  - by pose proof (Lw i k _ _ Heqo Hk eq_refl eq_refl).
  - apply lookup_ge_None in Heqo0. split; [done|lia].
Qed.

(** [stopping_] is up from the destructor's critical section on, and nobody is
    left in the wait set once the destructor is joining. *)
Record stop_inv (s : state) : Prop := {
  si_stop : stopping s = stop_pc (sched s);
  si_exit i : workers s !! i = Some WExited → stopping s = true;
  si_join i w : workers s !! i = Some w → joining (sched s) = true → w ≠ WWaiting;
  si_notify : sched s = SNotifyOne → length (workers s) ≠ 0;
}.

Lemma length_spawned hw : length (spawned hw) ≠ 0.
Proof. unfold spawned. by destruct (4 <=? hw). Qed.

Lemma wake_sched_pc pc :
  stop_pc (wake_sched pc) = stop_pc pc ∧ joining (wake_sched pc) = joining pc ∧
  waking (wake_sched pc) = waking pc ∧ (wake_sched pc = SNotifyOne ↔ pc = SNotifyOne).
Proof. by destruct pc. Qed.

Lemma stopping_step hw l s s' :
  stopping s = stop_pc (sched s) → step hw l s = Some s' → stopping s' = stop_pc (sched s').
Proof.
  intros S1 H. step_cases l H; after_step; rewrite ?(proj1 (wake_sched_pc _));
    try done; try congruence; rewrite S1; by match goal with E : sched _ = _ |- _ => rewrite E end.
Qed.

Lemma exit_step hw l s s' :
  stop_inv s → step hw l s = Some s' → ∀ i, workers s' !! i = Some WExited → stopping s' = true.
Proof.
  intros [_ S2 _ _] H. step_cases l H; after_step; try done; intros k Hk; worker_cases; by eauto.
Qed.

Lemma join_step hw l s s' :
  sleep_inv s → stop_inv s → step hw l s = Some s' →
  ∀ i w, workers s' !! i = Some w → joining (sched s') = true → w ≠ WWaiting.
Proof.
  intros W [S1 _ S3 _] H.
  assert (∀ i, workers s !! i = Some WSleep → joining (sched s) = true → False) as Ws.
  { intros i [Hs _]%W Hj. rewrite S1 in Hs. by destruct (sched s). }
  clear W. step_cases l H; after_step; try done; intros k v Hk Hj ->;
    rewrite ?(proj1 (proj2 (wake_sched_pc _))) in Hj; worker_cases;
    repeat match goal with E : sched _ = _ |- _ => rewrite E in *; clear E end;
    first [done|by apply (S3 k WWaiting)|by eapply Ws].
Qed.

Lemma notify_step hw l s s' :
  stop_inv s → step hw l s = Some s' → sched s' = SNotifyOne → length (workers s') ≠ 0.
Proof.
  intros [_ _ _ S4] H. step_cases l H; after_step; try done; intros Hpc;
    rewrite ?(proj2 (proj2 (proj2 (wake_sched_pc _)))) in Hpc; rewrite ?length_insert, ?length_fmap;
    try (by auto using length_spawned); by match goal with E : workers _ = _ |- _ => rewrite E end.
Qed.

Lemma stop_step hw l s s' :
  sleep_inv s → stop_inv s → step hw l s = Some s' → stop_inv s'.
Proof.
  intros W S H. constructor.
  - eapply stopping_step; [apply S|done].
  - by eapply exit_step.
  - by eapply join_step.
  - by eapply notify_step.
Qed.

(** *** Unclaimed jobs *)

(** An unclaimed job has an awake worker coming for it, unless the scheduler
    is still between queueing a job and notifying. *)
Definition claim_inv (s : state) : Prop :=
  cursor s < length (queue s) → stopping s = false → waking (sched s) = false →
  ∃ i w, workers s !! i = Some w ∧ awake w.

Lemma awake_at (ws : list wpc) (i : nat) (w w' : wpc) :
  ws !! i = Some w → awake w' → ∃ (k : nat) v, <[i := w']> ws !! k = Some v ∧ awake v.
Proof.
  intros Hw%lookup_lt_Some Ha. exists i, w'. split; [|done]. by apply list_lookup_insert_eq.
Qed.

Lemma awake_wake (ws : list wpc) : (∃ (k : nat) v, ws !! k = Some v ∧ awake v) →
  ∃ (k : nat) v, (wake_worker <$> ws) !! k = Some v ∧ awake v.
Proof.
  intros (k & v & Hv & Ha). exists k, (wake_worker v). split; [by rewrite list_lookup_fmap, Hv|].
  by destruct Ha, v.
Qed.

(** Nobody waiting and nobody gone: a non-empty set of workers is awake. *)
Lemma all_awake s :
  length (workers s) ≠ 0 → (∀ i, workers s !! i ≠ Some WExited) → WWaiting ∉ workers s →
  ∃ (i : nat) w, workers s !! i = Some w ∧ awake w.
Proof.
  intros Hlen Hex Hw. destruct (workers s) as [|w ws] eqn:Hws; [done|].
  exists 0, w. split; [done|]. split.
  - intros ->. apply Hw. by left.
  - intros ->. by apply (Hex 0).
Qed.

Lemma claim_step hw l s s' :
  jobs_inv (queue s) (cursor s) (cells s) (next s) (workers s) →
  sleep_inv s → stop_inv s → claim_inv s → step hw l s = Some s' → claim_inv s'.
Proof.
  intros J W [S1 S2 _ S4] C H. unfold sleep_inv, claim_inv in *.
  pose proof (ji_cursor _ _ _ _ _ J) as Hcur. clear J.
  step_cases l H; after_step; try done; intros Hc Hs Hw;
    try (by eapply awake_at; [done|split]);
    try (by rewrite ?Heqs0 in C; apply C).
  - apply (all_awake s); [auto|by intros ? ?%S2; congruence|done].
  - rewrite Heqs0, Heql in C. apply C; [simpl; lia|done..].
  - rewrite S1, Heqs0 in Hs. done.
  - congruence.
  - destruct (W i Heqo). lia.
  - eapply awake_at; [apply lookup_wake; by exists WNotify|by split].
Qed.

(** *** The wait predicate *)

Definition is_done (s : state) (j : nat) : Prop := ∃ c, cells s !! j = Some c ∧ c_done c = true.

Record scan_inv (s : state) : Prop := {
  sc_scan k i j : sched s = SScan k → i < k → queue s !! i = Some j → is_done s j;
  sc_waited j : sched s = SWaited → j ∈ queue s → is_done s j;
}.

(** Flags only go up, and a job disappears only in [drain_migrations]. *)
Lemma done_mono hw l s s' j :
  step hw l s = Some s' → sched s ≠ SDrainPop →
  next s ∉ queue s → (sched s = SPushDo → j ≠ next s) → is_done s j → is_done s' j.
Proof.
  intros H Hpc Hn Hj (c & Hc & Hd). unfold is_done.
  step_cases l H; after_step; try done; try (by eauto).
  all: try (destruct (decide (j0 = j)) as [->|];
    [rewrite lookup_insert_eq; eexists; split; [done|]; simpl; congruence
    |rewrite lookup_insert_ne by done; by eauto]).
  rewrite lookup_insert_ne by (apply not_eq_sym, Hj; done). eauto.
Qed.

Lemma worker_step_keeps hw i s s' :
  step hw (Work i) s = Some s' →
  queue s' = queue s ∧ (sched s' = sched s ∨ sched s' = wake_sched (sched s)).
Proof.
  intros H. cbn [step] in H. unfold worker_step, lock, mbind, option_bind in H. split_step H; simpl; auto.
Qed.

Lemma scan_step hw l s s' :
  scan_inv s → next s ∉ queue s → step hw l s = Some s' → scan_inv s'.
Proof.
  intros [C1 C2] Hn H. destruct l as [c|pick|i].
  - assert (∀ k, sched s' ≠ SScan k ∧ sched s' ≠ SWaited) as Hpc.
    { intros k. cbn [step] in H. unfold call_step, mbind, option_bind in H. split_step H; simpl; split; congruence. }
    split; [intros k ? ? E; by destruct (Hpc k)|intros ? E; by destruct (Hpc 0)].
  - cbn [step] in H. unfold sched_step, push_op, wait_op, drain_op, stop_op, notify_one, lock, mbind, option_bind in H. split_step H.
    all: split; simpl; try done; try (intros; congruence).
    + intros k i j [= <-] Hlt Hq. lia.
    + intros k' i j [= <-] Hlt Hq. destruct (decide (i = k)) as [->|].
      * simplify_eq. by exists c.
      * apply (C1 k i j); [done|lia|done].
    + intros j _ [i Hi]%list_elem_of_lookup. apply (C1 k i j); [done| |done].
      apply lookup_ge_None in Heqo. apply lookup_lt_Some in Hi. lia.
  - destruct (worker_step_keeps hw i s s' H) as [Hq Hpc].
    assert (∀ k, sched s' = SScan k → sched s = SScan k) as HS
      by (intros k E; destruct Hpc as [Hpc|Hpc]; destruct (sched s); simpl in *; congruence).
    assert (sched s' = SWaited → sched s = SWaited) as HW
      by (intros E; destruct Hpc as [Hpc|Hpc]; destruct (sched s); simpl in *; congruence).
    split.
    + intros k n j E%HS Hlt Hj. eapply done_mono; [done|congruence|done|congruence|].
      rewrite Hq in Hj. by eapply C1.
    + intros j E%HW Hj. eapply done_mono; [done|congruence|done|congruence|].
      rewrite Hq in Hj. by apply C2.
Qed.

(** *** All of it *)

Record inv (s : state) : Prop := {
  iv_lock : lock_inv (mutex s) (sched s) (workers s);
  iv_jobs : jobs_inv (queue s) (cursor s) (cells s) (next s) (workers s);
  iv_sleep : sleep_inv s;
  iv_stop : stop_inv s;
  iv_claim : claim_inv s;
  iv_scan : scan_inv s;
}.

Lemma inv_initial : inv initial.
Proof.
  constructor; [constructor|constructor|..|constructor| |constructor]; simpl; try done.
  - intros i. split; [done|]. by intros (w & Hw & _).
  - constructor.
  - intros j. rewrite lookup_empty. split; [by intros ?%not_elem_of_nil|by intros []].
  - by intros j ?%not_elem_of_nil.
  - intros Hc. simpl in Hc. lia.
Qed.

Lemma inv_step hw l s s' : inv s → step hw l s = Some s' → inv s'.
Proof.
  intros [I1 I2 I3 I4 I5 I6] H. constructor.
  - by eapply lock_step.
  - by eapply jobs_step.
  - by eapply (sleep_step hw l s).
  - by eapply (stop_step hw l s).
  - by eapply (claim_step hw l s).
  - eapply (scan_step hw l s); [done| |done]. intros Hin. apply (ji_next _ _ _ _ _ I2) in Hin. lia.
Qed.

Lemma reachable_inv hw s : reachable hw s → inv s.
Proof. induction 1; eauto using inv_initial, inv_step. Qed.

Lemma run_reachable hw ls s s' : reachable hw s → run hw ls s = Some s' → reachable hw s'.
Proof.
  revert s. induction ls as [|l ls IH]; intros s Hr H; simpl in H; [by simplify_eq|].
  destruct (step hw l s) as [s1|] eqn:Hs; simpl in H; [|done].
  eapply IH; [|done]. by eapply reach_step.
Qed.

(** ** What the threads guarantee *)

(** C30: a worker's job pointer is always one the queue still owns, uncompleted, and
    nobody else's: [drain_migrations] never destroys a job under a worker, and
    no job is copied by two of them. *)
Theorem worker_jobs_owned hw s :
  reachable hw s →
  (∀ i w j, workers s !! i = Some w → held w = Some j →
     j ∈ queue s ∧ ∃ c, cells s !! j = Some c ∧ c_done c = false) ∧
  (∀ i i' w w' j, workers s !! i = Some w → workers s !! i' = Some w' →
     held w = Some j → held w' = Some j → i = i').
Proof.
  intros I%reachable_inv. destruct (iv_jobs _ I) as [_ _ _ _ Hh H1 _ _ _]. split; [|done].
  intros i w j Hw Hj. destruct (Hh i w j Hw Hj) as (k & c & Hk & _ & Hc & Hd).
  split; [by eapply list_elem_of_lookup_2|eauto].
Qed.

(** C31: when [wait_for_migrations] leaves its wait, every queued job is complete:
    copied, unless it was cancelled. *)
Theorem wait_sees_copies hw s :
  reachable hw s → sched s = SWaited →
  ∀ j, j ∈ queue s → ∃ c, cells s !! j = Some c ∧ c_done c = true ∧
    (c_cancelled c = false → c_copied c = true).
Proof.
  intros I%reachable_inv Hpc j Hj. destruct (sc_waited _ (iv_scan _ I) j Hpc Hj) as (c & Hc & Hd).
  exists c. split_and!; [done..|]. intros Hn.
  pose proof (ji_copied _ _ _ _ _ (iv_jobs _ I) j c Hc Hd) as Hcc.
  rewrite Hn, orb_false_r in Hcc. done.
Qed.

(** C33: a queued job nobody has claimed has a worker awake to claim it, as soon as
    [migrate_async] has returned. *)
Theorem unclaimed_has_awake_worker hw s :
  reachable hw s → cursor s < length (queue s) → stopping s = false → waking (sched s) = false →
  ∃ (i : nat) w, workers s !! i = Some w ∧ awake w.
Proof. intros I%reachable_inv. apply (iv_claim _ I). Qed.

(** *** The destructor *)

Definition rank (w : wpc) : nat :=
  match w with
  | WTest _ => 6 | WCopy _ => 5 | WStore _ => 4 | WNotify => 3 | WLock => 2 | WCheck => 1 | _ => 0
  end.
Definition join_rank (s : state) : nat :=
  sum_list_with rank (workers s) + (if decide (sched s = SEnd) then 0 else 1).

Lemma sum_list_with_insert {A} (f : A → nat) l i x y :
  l !! i = Some x → sum_list_with f (<[i := y]> l) + f x = sum_list_with f l + f y.
Proof.
  revert i. induction l as [|z l IH]; intros [|i] H; simplify_eq/=; [lia|]. specialize (IH i H). lia.
Qed.

Lemma wake_none (ws : list wpc) : (∀ (i : nat) w, ws !! i = Some w → w ≠ WWaiting) → wake_worker <$> ws = ws.
Proof.
  intros H. apply list_eq. intros i. rewrite list_lookup_fmap.
  destruct (ws !! i) as [w|] eqn:Hw; [|done]. simpl. specialize (H i w Hw). by destruct w.
Qed.

(** While the destructor joins, every step brings it closer to the end. *)
Lemma join_decreases hw l s s' :
  inv s → sched s = SJoin → step hw l s = Some s' →
  (sched s' = SJoin ∨ sched s' = SEnd ∧ Forall (λ w, w = WExited) (workers s')) ∧
  join_rank s' < join_rank s.
Proof.
  intros I Hpc H. unfold join_rank.
  pose proof (si_stop _ (iv_stop _ I)) as Hstop. rewrite Hpc in Hstop. simpl in Hstop.
  assert (∀ i w, workers s !! i = Some w → w ≠ WWaiting) as Hnw.
  { intros i w Hw. apply (si_join _ (iv_stop _ I) i w Hw). by rewrite Hpc. }
  assert (∀ i, workers s !! i ≠ Some WSleep) as Hns.
  { intros i Hi. destruct (iv_sleep _ I i Hi). congruence. }
  destruct l as [c|pick|i]; cbn [step] in H;
    unfold call_step, sched_step, push_op, wait_op, drain_op, stop_op, worker_step, lock, mbind, option_bind in H; rewrite ?Hpc in H;
    [discriminate H|..]; split_step H; after_step; rewrite ?Hpc; simpl; rewrite ?(wake_none _ Hnw);
    try (by edestruct Hns; eauto); try congruence.
  { split; [by right|lia]. }
  all: split; [by left|].
  all: match goal with Hw : workers _ !! ?i = Some _ |- context [<[?i := ?w]> _] =>
         pose proof (sum_list_with_insert rank _ i _ w Hw) as Hr end; simpl in Hr; lia.
Qed.

(** And there always is a step to take. *)
Lemma join_progress hw s :
  inv s → sched s = SJoin → ∃ l s', step hw l s = Some s'.
Proof.
  intros I Hpc.
  destruct (decide (Forall (λ w, w = WExited) (workers s))) as [Hall|Hnot].
  { exists (Sched 0). cbn [step]. unfold sched_step, stop_op. rewrite !Hpc. rewrite decide_True by done. eauto. }
  apply not_Forall_Exists in Hnot; [|intros w; apply decide_rel; tc_solve].
  apply Exists_exists in Hnot as (w & [i Hw]%list_elem_of_lookup & Hne).
  change (w ≠ WExited) in Hne.
  assert (w ≠ WWaiting) as Hnw by (apply (si_join _ (iv_stop _ I) i w Hw); by rewrite Hpc).
  assert (∀ j, held w = Some j → ∃ c, cells s !! j = Some c) as Hcell.
  { intros j Hj. destruct (ji_held _ _ _ _ _ (iv_jobs _ I) i w j Hw Hj) as (? & c & _ & _ & Hc & _). eauto. }
  assert (∀ k v, workers s !! k = Some v → worker_holds v = true → ∃ l s', step hw l s = Some s') as Hholder.
  { intros k v Hv Hh. exists (Work k). cbn [step]. unfold worker_step. rewrite Hv. simpl.
    destruct v; try done; simpl; repeat case_match; eauto. }
  destruct (decide (w = WLock)) as [->|Hnl].
  - destruct (mutex s) as [[|k]|] eqn:Hm.
    + apply (li_sched _ _ _ (iv_lock _ I)) in Hm. by rewrite Hpc in Hm.
    + apply (li_worker _ _ _ (iv_lock _ I)) in Hm as (v & Hv & Hh). eauto.
    + exists (Work i). cbn [step]. unfold worker_step, lock. rewrite Hw. simpl. rewrite Hm. eauto.
  - exists (Work i). cbn [step]. unfold worker_step. rewrite Hw. simpl.
    destruct w as [| | | |j|j|j| |]; try done; simpl; try (by repeat case_match; eauto).
    all: destruct (Hcell _ eq_refl) as [c ->]; simpl; eauto.
Qed.

Lemma ended_no_step hw l s :
  sched s = SEnd → Forall (λ w, w = WExited) (workers s) → step hw l s = None.
Proof.
  intros Hpc Hall. destruct l as [c|pick|i]; cbn [step]; unfold call_step, sched_step, push_op, wait_op, drain_op, stop_op, worker_step;
    rewrite ?Hpc; [done..|].
  destruct (workers s !! i) as [w|] eqn:Hw; simpl; [|done].
  rewrite Forall_forall in Hall. rewrite (Hall w); [done|]. by eapply list_elem_of_lookup_2.
Qed.

(** C32: once the destructor is joining, no schedule is longer than [join_rank], and
    one that has not ended can always go on: the destructor returns, whatever
    the interleaving and whatever was still in the queue. *)
Theorem destructor_returns hw s :
  reachable hw s → sched s = SJoin →
  ∀ ls s', run hw ls s = Some s' →
    length ls ≤ join_rank s ∧
    (sched s' = SEnd ∧ Forall (λ w, w = WExited) (workers s') ∨ ∃ l s'', step hw l s' = Some s'').
Proof.
  intros I%reachable_inv Hpc ls.
  assert (sched s = SJoin ∨ sched s = SEnd ∧ Forall (λ w, w = WExited) (workers s)) as Hph by auto.
  clear Hpc. revert s I Hph. induction ls as [|l ls IH]; intros s I Hph s' H; simpl in H.
  - simplify_eq. split; [simpl; lia|]. destruct Hph as [Hpc|]; [right|by left].
    by apply join_progress.
  - destruct (step hw l s) as [s1|] eqn:Hs; simpl in H; [|done].
    destruct Hph as [Hpc|[Hpc Hall]]; [|by rewrite ended_no_step in Hs].
    destruct (join_decreases hw l s s1 I Hpc Hs) as [Hph Hlt].
    destruct (IH s1 (inv_step hw l s s1 I Hs) Hph s' H) as [Hlen Hend].
    split; [simpl; lia|done].
Qed.

(** *** A wakeup that [wait_for_migrations] can miss

    [worker_loop] stores [done] and notifies without the mutex. A worker that
    does both between the scheduler's evaluation of its predicate and its
    entry into the wait set notifies nobody, and there is no later
    notification. *)

(** One job queued; the scheduler finds it unfinished and goes to sleep just
    after the worker has finished it and notified. *)
Definition missed_wakeup : list label :=
  [Call CPush; Sched 0; Sched 0; Sched 0; Sched 0;   (* migrate_async, one worker *)
   Work 0; Work 0; Work 0; Work 0;                   (* the worker claims and copies *)
   Call CWait; Sched 0; Sched 0;                     (* the predicate is false *)
   Work 0; Work 0;                                   (* done = true; notify_all *)
   Sched 0;                                          (* the scheduler starts waiting *)
   Work 0; Work 0; Work 0].                          (* the worker has nothing to do *)

(** C34: on a machine with fewer than four hardware threads the schedule above is
    possible and ends with every job complete and every thread asleep: no step is possible, and
    [wait_for_migrations] never returns. *)
Theorem wait_for_migrations_can_hang hw :
  hw < 4 →
  ∃ s, run hw missed_wakeup initial = Some s ∧ sched s = SWaiting ∧
    queue s ≠ [] ∧ (∀ j, j ∈ queue s → is_done s j) ∧ ∀ l, step hw l s = None.
Proof.
  intros Hhw. assert ((4 <=? hw) = false) as E by (by apply Nat.leb_gt).
  exists (mk None false [0] 1 {[0 := done_cell (copy_cell new_cell)]} 1 SWaiting [WWaiting]).
  split_and!; try done.
  - unfold missed_wakeup. cbn -[Nat.leb]. unfold spawned. rewrite E. reflexivity.
  - intros j ->%list_elem_of_singleton. by eexists.
  - intros [c|pick|[|i]]; done.
Qed.

(** ** Concrete schedules *)

(** The state a schedule leads to. *)
Definition after (hw : nat) (ls : list label) : state := default initial (run hw ls initial).

Lemma after_reachable hw ls : reachable hw (after hw ls).
Proof.
  unfold after. destruct (run hw ls initial) as [s|] eqn:E; [|apply reach_initial].
  by apply (run_reachable hw ls initial); [apply reach_initial|].
Qed.

Definition push_one : list label := [Call CPush; Sched 0; Sched 0; Sched 0; Sched 0].
(** One worker, holding a claimed job. *)
Definition claimed_state : state := after 1 (push_one ++ [Work 0; Work 0]).
(** The same, with the job done and the scheduler past its wait. *)
Definition waited_state : state :=
  after 1 (push_one ++ [Work 0; Work 0; Work 0; Work 0; Work 0; Call CWait; Sched 0; Sched 0; Sched 0]).
(** The destructor joining while the worker still holds its job. *)
Definition joining_state : state :=
  after 1 (push_one ++ [Work 0; Work 0; Call CStop; Sched 0; Sched 0; Sched 0]).

Lemma worker_jobs_owned_witness : 0 ∈ queue claimed_state.
Proof.
  apply (worker_jobs_owned 1 claimed_state) with (i := 0) (w := WTest 0).
  - apply after_reachable.
  - vm_compute. reflexivity.
  - reflexivity.
Defined.

Lemma wait_sees_copies_witness : ∃ c, cells waited_state !! 0 = Some c ∧ c_done c = true.
Proof.
  destruct (wait_sees_copies 1 waited_state) with (j := 0) as (c & H1 & H2 & _).
  - apply after_reachable.
  - vm_compute. reflexivity.
  - vm_compute. left.
  - exists c. split; [exact H1|exact H2].
Defined.

Lemma unclaimed_has_awake_worker_witness :
  ∃ (i : nat) w, workers (after 1 push_one) !! i = Some w ∧ awake w.
Proof.
  apply (unclaimed_has_awake_worker 1).
  - apply after_reachable.
  - vm_compute. lia.
  - reflexivity.
  - reflexivity.
Defined.

Lemma destructor_returns_witness :
  sched joining_state = SJoin ∧ ∃ l s', step 1 l joining_state = Some s'.
Proof.
  destruct (destructor_returns 1 joining_state) with (ls := @nil label) (s' := joining_state) as [_ [[H _]|H]].
  - apply after_reachable.
  - vm_compute. reflexivity.
  - reflexivity.
  - vm_compute in H. discriminate.
  - split; [vm_compute; reflexivity|exact H].
Defined.

Lemma wait_for_migrations_can_hang_witness :
  ∃ s, run 1 missed_wakeup initial = Some s ∧ sched s = SWaiting ∧ ∀ l, step 1 l s = None.
Proof.
  destruct (wait_for_migrations_can_hang 1) as (s & H1 & H2 & _ & _ & H3); [lia|].
  exists s. split; [exact H1|]. split; [exact H2|exact H3].
Defined.
