(* ===== verification/Threads.v ===== *)
(** * The threads are the engine's workers

    Workers.v follows the threads of src/block_pool.cpp access by access, with
    the mutex and the condition variable, but a job is only its flags there.
    Serving.v has the jobs' bytes and the rest of the engine, but a worker
    there takes whole steps. This file shows that the first runs inside the
    second: whatever a worker thread does is nothing the pool can see, or a
    step of the engine; and what a call of the scheduler does to the pool, the
    scheduler thread does in steps of its own. *)

From S2P Require Import Prelude Types Tier BlockPool PoolInv PoolOps PoolMigrate PoolAsync PoolWorker PoolHands BlockStore RadixTree RadixInv RadixSplit RadixWalk RadixInsert.
From S2P Require Import CacheManager ManagerInv ManagerPhases ManagerAcquire ManagerSpec Serving Workers.

Local Open Scope nat_scope.

(** The job a thread holds and how far it is with it. *)
Definition stage_of (w : wpc) : option (JobPtr * stage) :=
  match w with
  | WTest j => Some (N.of_nat j, Tests)
  | WCopy j => Some (N.of_nat j, Copies)
  | WStore j => Some (N.of_nat j, Finishes)
  | _ => None
  end.

(** Thread by thread, the threads hold the jobs [hands]. *)
Definition holds (ws : list wpc) (hands : gmap nat (JobPtr * stage)) : Prop :=
  ∀ i, hands !! i = ws !! i ≫= stage_of.

(** One thread moves. *)
Lemma holds_move ws hands (i : nat) w' (o : option (JobPtr * stage)) :
  holds ws hands → i < length ws → stage_of w' = o →
  holds (<[i := w']> ws) (partial_alter (λ _, o) i hands).
Proof.
  intros H Hlt Hw' k. destruct (decide (k = i)) as [->|Hne].
  - by rewrite lookup_partial_alter_eq, list_lookup_insert_eq.
  - by rewrite lookup_partial_alter_ne, list_lookup_insert_ne, (H k).
Qed.

(** A thread that holds no job before and after. *)
Lemma holds_idle ws hands (i : nat) w w' :
  holds ws hands → ws !! i = Some w → stage_of w = None → stage_of w' = None → holds (<[i := w']> ws) hands.
Proof.
  intros H Hi Hw Hw' k. apply lookup_lt_Some in Hi as Hlt. rewrite (H k). destruct (decide (k = i)) as [->|Hne].
  - rewrite list_lookup_insert_eq, Hi by done. simpl. by rewrite Hw, Hw'.
  - by rewrite list_lookup_insert_ne.
Qed.

Lemma holds_wake ws hands : holds ws hands → holds (wake_worker <$> ws) hands.
Proof. intros H k. rewrite (H k), list_lookup_fmap. by destruct (ws !! k) as [[]|]. Qed.

Lemma holds_spawn hw hands : holds [] hands → holds (spawned hw) hands.
Proof.
  intros H k. rewrite (H k), lookup_nil. destruct (spawned hw !! k) eqn:E; [|done].
  by apply lookup_fresh_worker in E as ->.
Qed.

Section threads.
Context {T : Type} `{TierLaws T} `{Iter : IterOrder} `{Wk : Wakes T} (hw : N) (kv : list chunk → list byte).
Implicit Types (p : BlockPool T) (hands : gmap nat (JobPtr * stage)) (s : state).

Definition flags (c : Cell) : bool * bool := (c_cancelled c, c_done c).
Definition job_flags (job : MigrationJob) : bool * bool := (job_cancelled job, job_done job).

(** The shared state of the threads is the pool's. *)
Record tracks p hands s : Prop := {
  tr_queue : queue s = N.to_nat <$> jobs_ p;
  tr_cursor : cursor s = N.to_nat (next_unclaimed_ p);
  tr_stop : stopping s = stopping_ p;
  tr_next : next s = N.to_nat (job_next p);
  tr_workers : N.to_nat (workers_ p) = length (workers s);
  tr_cells j : flags <$> cells s !! N.to_nat j = job_flags <$> job_heap p !! j;
  tr_hands : holds (workers s) hands;
}.

Lemma tracks_cell p hands s j c :
  tracks p hands s → cells s !! N.to_nat j = Some c →
  ∃ job, job_heap p !! j = Some job ∧ c_cancelled c = job_cancelled job ∧ c_done c = job_done job.
Proof.
  intros R Hc. pose proof (tr_cells _ _ _ R j) as E. rewrite Hc in E. symmetry in E.
  apply fmap_Some in E as (job & Hj & E). exists job. by injection E as -> ->.
Qed.

(** A thread step that looks at a job's cell looks at the pool's job. *)
Lemma in_step_cell p hands s j (f : Cell → state) s' :
  tracks p hands s → (c ← cells s !! j; Some (f c)) = Some s' →
  ∃ k c job, j = N.to_nat k ∧ cells s !! j = Some c ∧ job_heap p !! k = Some job ∧
    c_cancelled c = job_cancelled job ∧ c_done c = job_done job ∧ f c = s'.
Proof.
  intros R E. destruct (cells s !! j) as [c|] eqn:Hc; [|done]. injection E as E.
  assert (j = N.to_nat (N.of_nat j)) as Ej by lia. rewrite Ej in Hc.
  destruct (tracks_cell _ _ _ _ _ R Hc) as (job & Hj & E1 & E2). exists (N.of_nat j), c, job. by rewrite <-Ej in Hc |- *.
Qed.

(** One cell is written, and one job. *)
Lemma cells_set p hands s k c job :
  tracks p hands s → flags c = job_flags job →
  ∀ k', flags <$> <[N.to_nat k := c]> (cells s) !! N.to_nat k' = job_flags <$> <[k := job]> (job_heap p) !! k'.
Proof.
  intros R E k'. destruct (decide (k' = k)) as [->|Hne].
  - rewrite !lookup_insert_eq. simpl. by rewrite E.
  - rewrite !lookup_insert_ne by lia. apply R.
Qed.

Lemma cells_insert p hands s k c job :
  tracks p hands s → job_heap p !! k = Some job → flags c = job_flags job →
  ∀ k', flags <$> <[N.to_nat k := c]> (cells s) !! N.to_nat k' = job_flags <$> job_heap p !! k'.
Proof. intros R Hj E k'. rewrite <-(insert_id _ _ _ Hj) at 1. by eapply cells_set. Qed.

(** The pool's view of a thread step that only concerns the thread. *)
Lemma tracks_idle p hands s i w w' m sp :
  tracks p hands s → workers s !! i = Some w → stage_of w = None → stage_of w' = None →
  tracks p hands (mk m (stopping s) (queue s) (cursor s) (cells s) (next s) sp (<[i := w']> (workers s))).
Proof. intros [R1 R2 R3 R4 R5 R6 R7] Hw H1 H2. constructor; try done; simpl; [by rewrite length_insert|by eapply holds_idle]. Qed.

Lemma tracks_notify p hands s i :
  tracks p hands s → workers s !! i = Some WNotify → tracks p hands (at_worker i WLock (notify_all s)).
Proof.
  intros [R1 R2 R3 R4 R5 R6 R7] Hw. constructor; try done; simpl; [by rewrite length_insert, length_fmap|].
  apply (holds_idle _ _ i WNotify); [by apply holds_wake| |done..]. apply lookup_wake. by exists WNotify.
Qed.

(** ** What each step does to the pool *)

Lemma hand_step_pool j st p hands job :
  pool_ok p → hands_ok p hands → (∃ w, hands !! w = Some (j, st)) → job_heap p !! j = Some job →
  wp (hand_step j st) (λ o p', jobs_ p' = jobs_ p ∧ next_unclaimed_ p' = next_unclaimed_ p ∧
    stopping_ p' = stopping_ p ∧ job_next p' = job_next p ∧ workers_ p' = workers_ p ∧ hands_ p' = hands_ p ∧
    job_heap p' = (if decide (st = Finishes) then <[j := set_done job]> (job_heap p) else job_heap p) ∧
    o = match st with
        | Tests => Some (if job_cancelled job then Finishes else Copies)
        | Copies => Some Finishes
        | Finishes => None
        end) p.
Proof.
  intros Ok Ha [w Hst] Hj. destruct st; unfold hand_step; wp_step.
  - eapply wp_job_at; [done|]. by wp_steps.
  - eapply wp_job_at; [done|]. wp_step.
    destruct (pi_job _ (proj1 Ok) j job Hj) as [_ Hb (d & Hd & Hdok & Hdh & Hdr) (x & Hx & Hsok & Hsh & Hsr) _].
    rewrite Hb. eapply (wp_memcpy _ _ _ x d); [done..|]. intros objs _. by wp_steps.
  - unfold worker_finish. wp_steps. eapply wp_job_at; [done|]. by wp_steps.
Qed.

(** ** The worker threads, step by step *)

(** Event [ev] happens to the engine and keeps it in step with the threads. *)
Definition mirrors (ev : event) (e : engine) (s' : state) : Prop :=
  permitted kv ev e ∧ ∃ e', run_event hw ev e = Ok e' ∧ reached hw kv e' ∧
    tracks (pool_ (eng_mgr e')) (eng_hands e') s'.

Lemma in_nat (l : list N) i j : (N.to_nat <$> l) !! i = Some j → ∃ k, l !! i = Some k ∧ j = N.to_nat k.
Proof. rewrite list_lookup_fmap_Some. naive_solver. Qed.

Lemma turn_mirrors tn e s' :
  reached hw kv e → wp (take_turn tn) (λ _ q, tracks q (hands_ q) s') (pool_ (eng_mgr e)) →
  mirrors (Serving.Call (Turn tn)) e s'.
Proof.
  intros Hr Ht. destruct e as [x live]. cbn [eng_mgr] in Ht. split; [done|].
  assert (wp (on_cache (on_pool (take_turn tn))) (λ _ x', tracks (pool_ x') (hands_ (pool_ x')) s') x) as Hw
    by (apply wp_on_cache, wp_on_pool; exact Ht).
  destruct (wp_result _ _ _ Hw) as ([] & x' & E & R).
  exists (mk_engine x' live). assert (run_event hw (Serving.Call (Turn tn)) (mk_engine x live) = Ok (mk_engine x' live)) as He
    by (cbn [run_event exec]; by rewrite E).
  split; [exact He|]. split; [|exact R]. eapply reached_event; [exact Hr| |exact He]. done.
Qed.

(** A thread the scheduler has started, seen from the engine. *)
Lemma thread_started p hands s i w : tracks p hands s → workers s !! i = Some w → (workers_ p <=? N.of_nat i)%N = false.
Proof. intros R Hw. apply lookup_lt_Some in Hw. pose proof (tr_workers _ _ _ R). apply N.leb_gt. lia. Qed.

(** Thread [i] takes the job at the cursor. *)
Lemma claim_mirrors e s i w m sp j :
  reached hw kv e → tracks (pool_ (eng_mgr e)) (eng_hands e) s → workers s !! i = Some w → stage_of w = None →
  stopping s = false → queue s !! cursor s = Some j →
  mirrors (Serving.Call (Turn i)) e (mk m false (queue s) (S (cursor s)) (cells s) (next s) sp (<[i := WTest j]> (workers s))).
Proof.
  intros Hr R Hw Hs Hstop Hj. destruct (reached_ok _ _ e Hr) as [So _]. pose proof R as [R1 R2 R3 R4 R5 R6 R7].
  destruct e as [x live]. cbn [eng_mgr eng_live] in *. unfold eng_hands in *. cbn [eng_mgr] in *.
  rewrite R1, R2 in Hj. apply in_nat in Hj as (k & Hk & ->).
  destruct (lg_pool _ _ _ (mo_ledger _ _ (so_manager _ So))) as [[Pok Ha _] _ Hrun]. cbn [fst] in *.
  apply turn_mirrors; [done|]. cbn [eng_mgr]. unfold take_turn. wp_steps. rewrite (thread_started _ _ _ _ _ R Hw).
  assert (hands_ (pool_ x) !! i = None) as Hn by (rewrite (R7 i), Hw; exact Hs). rewrite Hn. wp_step.
  eapply wp_mono; [apply wp_conj; [by apply worker_claim_spec|by apply (claim_hand i _ (hands_ (pool_ x)))]|].
  intros [k'|] p'; [|intros [[-> E] _]; apply lookup_lt_Some in Hk; unfold size_of in E; lia].
  intros [(-> & Hk' & _) (_ & _ & Eh & _)]. simplify_eq. wp_steps. constructor; try done.
  - simpl. rewrite R2. lia.
  - simpl. by rewrite length_insert.
  - apply (holds_move (workers s) (hands_ (pool_ x)) i (WTest (N.to_nat k)) (Some (k, Tests))); [done|by eapply lookup_lt_Some|].
    simpl. by rewrite N2Nat.id.
Qed.

(** Thread [i] takes its next step with the job it holds. *)
Lemma hand_mirrors e s i j st job m sp cs w w' :
  reached hw kv e → tracks (pool_ (eng_mgr e)) (eng_hands e) s →
  workers s !! i = Some w → stage_of w = Some (j, st) → job_heap (pool_ (eng_mgr e)) !! j = Some job →
  stage_of w' = pair j <$> match st with
    | Tests => Some (if job_cancelled job then Finishes else Copies)
    | Copies => Some Finishes
    | Finishes => None
    end →
  (∀ k, flags <$> cs !! N.to_nat k = job_flags <$>
    (if decide (st = Finishes) then <[j := set_done job]> (job_heap (pool_ (eng_mgr e)))
     else job_heap (pool_ (eng_mgr e))) !! k) →
  mirrors (Serving.Call (Turn i)) e (mk m (stopping s) (queue s) (cursor s) cs (next s) sp (<[i := w']> (workers s))).
Proof.
  intros Hr R Hw Hs Hj Hw' Hcs. destruct (reached_ok _ _ e Hr) as [So _]. pose proof R as [R1 R2 R3 R4 R5 R6 R7].
  destruct e as [x live]. cbn [eng_mgr eng_live] in *. unfold eng_hands in *. cbn [eng_mgr] in *.
  destruct (lg_pool _ _ _ (mo_ledger _ _ (so_manager _ So))) as [[Pok Ha _] _ Hrun]. cbn [fst] in *.
  set (p := pool_ x) in *. assert (hands_ p !! i = Some (j, st)) as Hst by (rewrite (R7 i), Hw; exact Hs).
  apply turn_mirrors; [done|]. cbn [eng_mgr]. fold p. unfold take_turn. wp_steps.
  rewrite (thread_started _ _ _ _ _ R Hw), Hst. wp_step.
  eapply wp_mono; [by apply (hand_step_pool j st _ (hands_ p) job); [| |eexists|]|].
  intros o p' (E1 & E2 & E3 & E4 & Ew & Eh & E5 & ->). wp_steps.
  constructor; cbn [queue cursor stopping next cells workers upd_workers jobs_ next_unclaimed_ stopping_ job_next workers_ job_heap hands_];
    try congruence; [rewrite length_insert; congruence|].
  rewrite Eh. apply (holds_move (workers s) (hands_ p) i w'); [done|by eapply lookup_lt_Some|done].
Qed.

(** Whatever step a worker thread takes next, at the mutex, the condition
    variable, the cursor, a flag or the bytes of a job, either the engine has
    nothing to do, or the same thread takes its turn there. *)
Lemma worker_thread_step n s i s' e :
  Workers.reachable n s → reached hw kv e → tracks (pool_ (eng_mgr e)) (eng_hands e) s →
  worker_step i s = Some s' →
  tracks (pool_ (eng_mgr e)) (eng_hands e) s' ∨ mirrors (Serving.Call (Turn i)) e s'.
Proof.
  intros Hs Hr R E. unfold worker_step in E.
  destruct (workers s !! i) as [w|] eqn:Hw; [|done]. cbn [mbind option_bind] in E.
  destruct w as [| | | |j|j|j| |]; [..|done].
  - left. unfold Workers.lock in E. simpl in E. destruct (mutex s); [done|]. injection E as <-. by apply (tracks_idle _ _ s i WLock).
  - destruct (stopping s) eqn:Hst; [left; injection E as <-; by apply (tracks_idle _ _ s i WCheck)|].
    destruct (queue s !! cursor s) as [j|] eqn:Hj; [|left; injection E as <-; by apply (tracks_idle _ _ s i WCheck)].
    right. injection E as <-. by apply (claim_mirrors e s i WCheck).
  - left. injection E as <-. by apply (tracks_idle _ _ s i WSleep).
  - done.
  - right. destruct (in_step_cell _ _ _ _ _ _ R E) as (k & c & job & -> & Hc & Hj & E1 & E2 & <-).
    apply (hand_mirrors e s i k Tests job _ _ (cells s) (WTest (N.to_nat k))); [done..|simpl; by rewrite N2Nat.id|done| |apply R].
    rewrite E1. destruct (job_cancelled job); simpl; by rewrite N2Nat.id.
  - right. destruct (in_step_cell _ _ _ _ _ _ R E) as (k & c & job & -> & Hc & Hj & E1 & E2 & <-).
    apply (hand_mirrors e s i k Copies job _ _ (<[N.to_nat k := copy_cell c]> (cells s)) (WCopy (N.to_nat k))); [done..|simpl; by rewrite N2Nat.id|done|simpl; by rewrite N2Nat.id|].
    apply (cells_insert _ _ s k _ job R Hj). unfold flags, job_flags. simpl. congruence.
  - right. destruct (in_step_cell _ _ _ _ _ _ R E) as (k & c & job & -> & Hc & Hj & E1 & E2 & <-).
    apply (hand_mirrors e s i k Finishes job _ _ (<[N.to_nat k := done_cell c]> (cells s)) (WStore (N.to_nat k))); [done..|simpl; by rewrite N2Nat.id|done|done|].
    rewrite decide_True by done. apply (cells_set _ _ s k _ (set_done job) R). unfold flags, job_flags. simpl. congruence.
  - left. injection E as <-. by apply tracks_notify.
Qed.

(** C28: the worker threads of the pool are the engine's workers. Take any state
    of the threads that some schedule reaches, and any history of the engine
    that has the same queue, cursor, flags and claimed jobs, thread by thread.
    Then let the worker threads run, in any order and for as long as they like:
    the engine follows with turns of the same threads in the same order, leaving
    out those steps of a thread that only concern the mutex and the condition
    variable, all of them permitted, and the two agree again afterwards. So what
    holds of every history of the engine holds whatever the threads do. *)
Theorem worker_threads_refine n turns s s' e :
  Workers.reachable n s → reached hw kv e → tracks (pool_ (eng_mgr e)) (eng_hands e) s →
  run n (Workers.Work <$> turns) s = Some s' →
  ∃ ws e', ws `sublist_of` turns ∧ run_events hw (turns_of ws) e = Ok e' ∧
    reached hw kv e' ∧ tracks (pool_ (eng_mgr e')) (eng_hands e') s'.
Proof.
  intros Hs Hr R E. revert s e Hs Hr R E. induction turns as [|i turns IH]; intros s e Hs Hr R E.
  { injection E as <-. by exists [], e. }
  cbn [fmap list_fmap run] in E. destruct (step n (Workers.Work i) s) as [s1|] eqn:E1; [|done].
  assert (Workers.reachable n s1) as Hs1 by (by eapply reach_step).
  destruct (worker_thread_step n s i s1 e Hs Hr R E1) as [R1|(_ & e1 & He & Hr1 & R1)].
  - destruct (IH s1 e) as (ws & e' & Hl & Hr'); [done..|]. exists ws, e'. split; [by apply sublist_cons|done].
  - destruct (IH s1 e1) as (ws & e' & Hl & He' & Hr' & R'); [done..|].
    exists (i :: ws), e'. change (turns_of (i :: ws)) with (Serving.Call (Turn i) :: turns_of ws). cbn [run_events].
    rewrite He. split_and!; try done. by apply sublist_skip.
Qed.
End threads.

(** ** The scheduler thread *)

Section scheduler.
Context {T : Type} `{TierLaws T} (hw : N).
Implicit Types (p q : BlockPool T) (hands : gmap nat (JobPtr * stage)) (s : state).

(** All of a pool that the threads see of it. *)
Definition shared p : list JobPtr * N * bool * N * N * gmap JobPtr (bool * bool) :=
  (jobs_ p, next_unclaimed_ p, stopping_ p, job_next p, workers_ p, job_flags <$> job_heap p).

Lemma tracks_shared p q hands s : shared q = shared p → tracks p hands s → tracks q hands s.
Proof.
  intros E [R1 R2 R3 R4 R5 R6 R7]. injection E as E1 E2 E3 E4 E5 E6. constructor; try congruence; try done.
  intros j. by rewrite R6, <-!lookup_fmap, E6.
Qed.

(** What a call does if it returns. *)
Definition ends {A} (m : M (BlockPool T) A) (Q : A → BlockPool T → Prop) p : Prop :=
  ∀ a q, m p = Ok (a, q) → Q a q.
Definition quiet {A} (m : M (BlockPool T) A) : Prop := ∀ p, ends m (λ _ q, shared q = shared p) p.

Lemma ends_bind {A B} (m : M (BlockPool T) A) (k : A → M (BlockPool T) B) Q p :
  ends m (λ a, ends (k a) Q) p → ends (m ≫= k) Q p.
Proof.
  intros Hm b q E. unfold mbind, M_bind in E. destruct (m p) as [[a r]|] eqn:Em; [|done]. by apply (Hm a r).
Qed.

Lemma ends_quiet {A B} (m : M (BlockPool T) A) (k : A → M (BlockPool T) B) Q p :
  quiet m → (∀ a q, shared q = shared p → ends (k a) Q q) → ends (m ≫= k) Q p.
Proof. intros Hm Hk. apply ends_bind. intros a q E. by apply Hk, (Hm p a q). Qed.

Lemma ends_ret {A} (a : A) (Q : A → BlockPool T → Prop) p : Q a p → ends (mret a) Q p.
Proof. intros HQ ?? [= <- <-]. done. Qed.
Lemma ends_fail {A} x (Q : A → BlockPool T → Prop) p : ends (fail x) Q p.
Proof. intros ??. done. Qed.
Lemma ends_get (Q : BlockPool T → BlockPool T → Prop) p : Q p p → ends get Q p.
Proof. intros HQ ?? [= <- <-]. done. Qed.
Lemma ends_modify f (Q : () → BlockPool T → Prop) p : Q () (f p) → ends (modify f) Q p.
Proof. intros HQ ?? [= <- <-]. done. Qed.

Lemma quiet_bind {A B} (m : M (BlockPool T) A) (k : A → M (BlockPool T) B) :
  quiet m → (∀ a, quiet (k a)) → quiet (m ≫= k).
Proof. intros Hm Hk p. apply ends_quiet; [done|]. intros a q <-. apply Hk. Qed.
Lemma quiet_ret {A} (a : A) : quiet (mret a).
Proof. intros p. by apply ends_ret. Qed.
Lemma quiet_fail {A} x : quiet (A := A) (fail x).
Proof. intros p. by apply ends_fail. Qed.
Lemma quiet_get : quiet get.
Proof. intros p. by apply ends_get. Qed.
Lemma quiet_modify f : (∀ p, shared (f p) = shared p) → quiet (modify f).
Proof. intros Hf p. by apply ends_modify. Qed.
Lemma quiet_option {A} x (o : option A) : quiet (of_option x o).
Proof. destruct o; [apply quiet_ret|apply quiet_fail]. Qed.

Create HintDb quiet.
#[local] Hint Resolve quiet_bind quiet_ret quiet_fail quiet_get quiet_option : quiet.
#[local] Hint Extern 1 (quiet (modify _)) => by apply quiet_modify : quiet.
#[local] Hint Extern 1 (quiet (if ?b then _ else _)) => destruct b : quiet.

Lemma quiet_tier_at i : quiet (tier_at i).
Proof. unfold tier_at, at_. eauto with quiet. Qed.
Lemma quiet_tier_obj t : quiet (tier_obj t).
Proof. unfold tier_obj. eauto with quiet. Qed.
Lemma quiet_locate id : quiet (locate id).
Proof. unfold locate, refcount_at, location_at, at_, fatal. eauto 10 with quiet. Qed.
Lemma quiet_slot_pop i : quiet (free_slot_pop i).
Proof. unfold free_slot_pop, set_tier, tier_at, at_. eauto 10 with quiet. Qed.
Lemma quiet_slot_push i slot : quiet (free_slot_push i slot).
Proof. unfold free_slot_push, set_tier, tier_at, at_. eauto 10 with quiet. Qed.
#[local] Hint Resolve quiet_slot_push : quiet.

(** Draining's second loop is the scheduler's own business. *)
Lemma quiet_apply_finished jobs : quiet (for_each jobs apply_finished).
Proof.
  assert (∀ job, quiet (apply_finished (T := T) job)) as Hq
    by (intros job; unfold apply_finished, set_location, location_at, at_; eauto 15 with quiet).
  induction jobs; simpl; eauto with quiet.
Qed.

(** The calls by which the scheduler changes what the threads share. *)
Inductive scheduler_call := MigrateAsync (id : BlockId) (dst : TierIndex) | CancelMigration (id : BlockId) | DrainMigrations.
Definition run_call (c : scheduler_call) : M (BlockPool T) () :=
  match c with
  | MigrateAsync id dst => migrate_async hw id dst ;; mret ()
  | CancelMigration id => cancel_migration id
  | DrainMigrations => drain_migrations
  end.

(** The threads' share after a job is queued. *)
Definition pushes p q : Prop :=
  jobs_ q = jobs_ p ++ [job_next p] ∧ next_unclaimed_ q = next_unclaimed_ p ∧ stopping_ q = stopping_ p ∧
  job_next q = (job_next p + 1)%N ∧
  workers_ q = (if workers_ p =? 0 then if 4 <=? hw then 3 else 1 else workers_ p)%N ∧
  job_flags <$> job_heap q = <[job_next p := (false, false)]> (job_flags <$> job_heap p).

Lemma migrate_async_ends id dst p :
  ends (migrate_async hw id dst) (λ b q, if b then pushes p q else shared q = shared p) p.
Proof.
  unfold migrate_async, fatal. apply ends_quiet; [apply quiet_locate|]. intros loc p1 E1.
  apply ends_bind, ends_get. case_match; [apply ends_fail|]. do 2 (case_match; [by apply ends_ret|]).
  apply ends_quiet; [apply quiet_tier_at|]. intros dts p2 E2. case_match; [apply ends_ret; congruence|].
  apply ends_quiet; [apply quiet_tier_at|]. intros sts p3 E3.
  apply ends_quiet; [apply quiet_tier_obj|]. intros st p4 E4.
  apply ends_quiet; [apply quiet_tier_obj|]. intros dt p5 E5. case_match; [apply ends_ret; congruence|].
  apply ends_quiet; [apply quiet_slot_pop|]. intros slot p6 E6.
  assert (shared p6 = shared p) as E by congruence. injection E as F1 F2 F3 F4 F5 F6.
  injection E1 as _ _ _ G4 _ _. do 2 apply ends_bind, ends_modify. apply ends_bind.
  unfold ensure_worker. apply ends_bind, ends_get. unfold pushes. simpl. rewrite G4, F5.
  destruct (workers_ p =? 0)%N eqn:Ew; simpl; [apply ends_modify|apply ends_ret]; apply ends_ret; simpl;
    rewrite fmap_insert, F6, ?Ew; unfold push_back; split_and!; done || congruence.
Qed.

Lemma cancel_ends id p :
  ends (cancel_migration id) (λ _ q, match migrating_ p !! id with
    | None => shared q = shared p
    | Some j => ∃ job, job_heap p !! j = Some job ∧ migrating_ q = delete id (migrating_ p) ∧
        q = upd_queue (jobs_ p) (delete id (migrating_ p)) (<[j := set_cancelled job]> (job_heap p)) p
    end) p.
Proof.
  unfold cancel_migration, job_at. apply ends_bind, ends_get. destruct (migrating_ p !! id) as [j|]; [|by apply ends_ret].
  do 2 apply ends_bind. apply ends_get. destruct (job_heap p !! j) as [job|]; [|apply ends_fail].
  apply ends_ret, ends_modify. by exists job.
Qed.

(** *** The same calls, step by step *)

(** The scheduler gets from one idle state to another on its own. *)
Definition scheduler_label (l : label) : Prop := match l with Workers.Work _ => False | _ => True end.
Definition scheduler_runs (n : nat) s s' : Prop :=
  ∃ ls, Forall scheduler_label ls ∧ run n ls s = Some s' ∧ sched s' = SIdle ∧ mutex s' = None.

Lemma notify_one_runs (P : state → Prop) s :
  sched s = SIdle → mutex s = None → P s →
  (∀ i, workers s !! i = Some WWaiting → P (at_worker i WLock s)) →
  ∃ pick s', notify_one pick s = Some s' ∧ sched s' = SIdle ∧ mutex s' = None ∧ P s'.
Proof.
  intros Hs Hm HP Hw. unfold notify_one. destruct (decide (WWaiting ∈ workers s)) as [Hin|]; [|by exists 0, s].
  apply list_elem_of_lookup in Hin as [i Hi]. exists i. rewrite decide_True by done. eauto 10.
Qed.

Lemma tracks_push n p q hands s :
  n = N.to_nat hw → tracks p hands s → pushes p q →
  tracks q hands (mk None (stopping s) (queue s ++ [next s]) (cursor s) (<[next s := new_cell]> (cells s))
    (S (next s)) SIdle (match workers s with [] => spawned n | ws => ws end)).
Proof.
  intros -> [R1 R2 R3 R4 R5 R6 R7] (P1 & P2 & P3 & P4 & P5 & P6).
  constructor; simpl; rewrite ?P1, ?P2, ?P3, ?P4, ?P5; try done.
  - rewrite fmap_app, R1. simpl. by rewrite R4.
  - rewrite R4. lia.
  - destruct (N.eqb_spec (workers_ p) 0), (workers s); simpl in R5; [|lia|lia|done]. unfold spawned. rewrite length_replicate.
    destruct (N.leb_spec 4 hw), (Nat.leb_spec 4 (N.to_nat hw)); done || lia.
  - intros j. rewrite <-(lookup_fmap job_flags), P6, R4. destruct (decide (j = job_next p)) as [->|Hne].
    + by rewrite !lookup_insert_eq.
    + rewrite !lookup_insert_ne, lookup_fmap by lia. apply R6.
  - destruct (workers s); [by apply holds_spawn|done].
Qed.

Lemma push_runs n p q hands s :
  n = N.to_nat hw → tracks p hands s → pushes p q → sched s = SIdle → mutex s = None →
  ∃ s', scheduler_runs n s s' ∧ tracks q hands s'.
Proof.
  intros Hn R HP Hs Hm. pose proof (tracks_push n p q hands s Hn R HP) as R'.
  destruct (notify_one_runs (tracks q hands) (mk None _ _ _ _ _ SIdle _) eq_refl eq_refl R') as (pick & s' & E & Hs' & Hm' & Rs).
  { intros i Hi. by apply (tracks_idle q hands _ i WWaiting WLock None SIdle R'). }
  exists s'. split; [|done]. exists [Workers.Call CPush; Sched 0; Sched 0; Sched 0; Sched pick].
  split; [by repeat constructor|]. split; [|done]. rewrite <-E.
  destruct s as [m st qu cu cs nx sp ws]. simpl in Hs, Hm. subst m sp. cbn. destruct ws;
    (match goal with |- _ = ?r => change (r ≫= Some = r) end); by destruct (notify_one _ _).
Qed.

(** A cancelled job keeps its place in the queue. *)
Lemma cancel_runs n p hands s id j job :
  tracks p hands s → job_heap p !! j = Some job → sched s = SIdle → mutex s = None →
  ∃ s', scheduler_runs n s s' ∧
    tracks (upd_queue (jobs_ p) (delete id (migrating_ p)) (<[j := set_cancelled job]> (job_heap p)) p) hands s'.
Proof.
  intros R Hj Hs Hm. pose proof (tr_cells _ _ _ R j) as E. rewrite Hj in E. apply fmap_Some in E as (c & Hc & E).
  exists (set_cell (N.to_nat j) (cancel_cell c) s). split.
  - exists [Workers.Call (CCancel (N.to_nat j))]. split; [by repeat constructor|]. split; [|done].
    cbn. unfold call_step. by rewrite Hs, Hc.
  - pose proof R as [R1 R2 R3 R4 R5 R6 R7]. constructor; try done. simpl. apply (cells_set _ hands s); [done|].
    unfold flags, job_flags in *. simpl. congruence.
Qed.

(** Inside the critical section of the drain, one finished job at a time. *)
Lemma take_finished_runs n hands jobs p s :
  Workers.reachable n s → tracks p hands s → jobs_ p = jobs → sched s = SDrainPop → (next_unclaimed_ p < two64)%N →
  ends (take_finished jobs) (λ _ q, ∃ k s', run n (replicate k (Sched 0)) s = Some s' ∧
    sched s' = SIdle ∧ mutex s' = None ∧ tracks q hands s') p.
Proof.
  revert p s. induction jobs as [|j jobs IH]; intros p s Hr R Hq Hs Hc; pose proof (tr_queue _ _ _ R) as Eq;
    rewrite Hq in Eq; cbn [take_finished].
  - apply ends_ret. exists 1, (unlock (at_sched SIdle s)). cbn. unfold sched_step, drain_op. rewrite Hs, Eq.
    split_and!; try done. by destruct R.
  - unfold job_at. do 2 apply ends_bind. apply ends_get. destruct (job_heap p !! j) as [job|] eqn:Hj; [|apply ends_fail].
    pose proof (tr_cells _ _ _ R j) as E. rewrite Hj in E. apply fmap_Some in E as (c & Ec & E). injection E as _ Ed.
    apply ends_ret. cbn [fmap list_fmap] in Eq.
    assert (front_done s = job_done job) as Ef by (unfold front_done; by rewrite Eq, Ec).
    destruct (job_done job) eqn:Hd.
    + do 2 apply ends_bind, ends_modify. apply ends_bind.
      set (s1 := mk (mutex s) (stopping s) (N.to_nat <$> jobs) (pred (cursor s)) (delete (N.to_nat j) (cells s)) (next s)
        SDrainPop (workers s)).
      assert (step n (Sched 0) s = Some s1) as Hstep.
      { cbn. unfold sched_step, drain_op. by rewrite Hs, Eq, Ef. }
      assert (0 < cursor s) as Hpos.
      { apply (ji_done _ _ _ _ _ (iv_jobs _ (reachable_inv _ _ Hr)) 0 (N.to_nat j) c); [by rewrite Eq|done|congruence]. }
      assert (sub64 (next_unclaimed_ p) 1 = next_unclaimed_ p - 1)%N as Esub
        by (rewrite (tr_cursor _ _ _ R) in Hpos; apply sub64_pred; lia).
      set (p1 := upd_cursor (sub64 (next_unclaimed_ p) 1) (upd_queue jobs (migrating_ p) (delete j (job_heap p)) p)).
      assert (tracks p1 hands s1) as R1.
      { pose proof R as [R1 R2 R3 R4 R5 R6 R7]. constructor; try done; simpl.
        - rewrite Esub. lia.
        - intros k. destruct (decide (k = j)) as [->|]; [by rewrite !lookup_delete_eq|].
          rewrite !lookup_delete_ne by lia. apply R6. }
      intros fin q Hfin. apply ends_ret. destruct (IH p1 s1) with (a := fin) (q := q) as (k & s' & Hrun & Hrest); try done.
      * by eapply reach_step.
      * simpl. rewrite Esub. lia.
      * exists (S k), s'. split; [|done]. cbn [replicate run]. rewrite Hstep. exact Hrun.
    + apply ends_ret. exists 1, (unlock (at_sched SIdle s)). cbn. unfold sched_step, drain_op. rewrite Hs, Eq, Ef.
      split_and!; try done. by destruct R.
Qed.

Lemma drain_runs n hands p s :
  Workers.reachable n s → tracks p hands s → sched s = SIdle → mutex s = None → (next_unclaimed_ p < two64)%N →
  ends drain_migrations (λ _ q, ∃ s', scheduler_runs n s s' ∧ tracks q hands s') p.
Proof.
  intros Hr R Hs Hm Hc. unfold drain_migrations. apply ends_bind, ends_get.
  destruct (decide (jobs_ p = [])) as [E|E].
  { rewrite bool_decide_true by done. apply ends_ret. exists s. split; [|done]. by exists []. }
  rewrite bool_decide_false by done. apply ends_bind. intros fin q Hfin.
  set (s1 := set_mutex (Some TSched) (at_sched SDrainPop s)).
  assert (run n [Workers.Call CDrain; Sched 0] s = Some s1) as Hrun.
  { assert (queue s ≠ []) as Hq by (rewrite (tr_queue _ _ _ R); by destruct (jobs_ p)).
    cbn. unfold call_step. rewrite Hs, decide_False by done. cbn. unfold lock. simpl. by rewrite Hm. }
  destruct (take_finished_runs n hands (jobs_ p) p s1) with (a := fin) (q := q) as (k & s' & Hk & Hs' & Hm' & R'); try done.
  { revert Hrun. cbn [run]. intros Hrun. destruct (step n (Workers.Call CDrain) s) as [s2|] eqn:E2; [|done].
    cbn [mbind option_bind] in Hrun. destruct (step n (Sched 0) s2) as [s3|] eqn:E3; [|done]. injection Hrun as <-.
    eapply reach_step; [by eapply reach_step|done]. }
  { by destruct R. }
  intros [] r Hap. exists s'. split.
  - exists ([Workers.Call CDrain; Sched 0] ++ replicate k (Sched 0)). split.
    + apply Forall_app. split; [by repeat constructor|]. by apply Forall_replicate.
    + split; [|done]. by rewrite run_app, Hrun.
  - by apply (tracks_shared q), R'; apply (quiet_apply_finished fin q () r).
Qed.

(** C29: the scheduler's side of the same picture. Take any state the threads
    reach in which the scheduler is between two calls and the mutex is free,
    and a pool in step with it, with any number of jobs in the workers' hands.
    When [migrate_async], [cancel_migration] or [drain_migrations] returns on
    the pool, the scheduler thread can go through its own lock, push, spawn,
    notify and pop steps, and arrives, idle and with the mutex released, in a
    state in step with the pool the call left. *)
Theorem scheduler_calls_refine n p hands s c q :
  n = N.to_nat hw → Workers.reachable n s → pool_ok p → tracks p hands s → sched s = SIdle → mutex s = None →
  run_call c p = Ok ((), q) → ∃ s', scheduler_runs n s s' ∧ tracks q hands s'.
Proof.
  intros Hn Hr [I _] R Hs Hm Hc.
  assert (∀ r, shared r = shared p → ∃ s', scheduler_runs n s s' ∧ tracks r hands s') as Hstay.
  { intros r E. exists s. split; [by exists []|by apply (tracks_shared p)]. }
  destruct c as [id dst|id|]; cbn [run_call] in Hc.
  - enough (ends (migrate_async hw id dst ;; mret ()) (λ _ q, ∃ s', scheduler_runs n s s' ∧ tracks q hands s') p) as He
      by exact (He () q Hc).
    apply ends_bind. intros b r Hb. apply ends_ret. pose proof (migrate_async_ends id dst p b r Hb) as Hq.
    destruct b; [by eapply push_runs|by apply Hstay].
  - pose proof (cancel_ends id p () q Hc) as Hq. cbv beta in Hq.
    destruct (migrating_ p !! id) as [j|]; [|by apply Hstay]. destruct Hq as (job & Hj & _ & ->). by apply cancel_runs.
  - apply (drain_runs n hands p s Hr R Hs Hm) with (a := ()); [|done].
    pose proof (pi_cursor _ _ _ _ _ I). pose proof (jobs_bound p I). unfold two64, two32 in *. lia.
Qed.
End scheduler.

(** ** A thread at work on the run of ExampleServing *)

Module ExampleThreads.
Import ExampleServing.
#[local] Existing Instance iter3.
#[local] Existing Instance round_robin.

(** The scheduler has queued a copy and worker 0 has claimed it. *)
Definition schedule : list label :=
  [Workers.Call CPush; Sched 0; Sched 0; Sched 0; Sched 0; Work 0; Work 0].
Definition s5 : state := default initial (run 1 schedule initial).

Lemma s5_reachable : reachable 1 s5.
Proof.
  assert (run 1 schedule initial = Some s5) as E by (vm_compute; reflexivity).
  revert E. generalize (reach_initial 1). generalize initial, s5, schedule. intros s s' ls. revert s.
  induction ls as [|l ls IH]; intros s Hs E; [by injection E as <-|].
  cbn [run] in E. destruct (step 1 l s) as [s1|] eqn:El; [|done]. eapply IH; [by eapply reach_step|done].
Qed.

Lemma s5_tracks : tracks (pool_ (eng_mgr e5)) (eng_hands e5) s5.
Proof.
  constructor; [vm_compute; reflexivity..| |].
  - assert (∃ job, job_heap (pool_ (eng_mgr e5)) = {[0%N := job]} ∧ job_flags job = (false, false)) as (job & -> & E)
      by (eexists; split; [vm_compute; reflexivity|done]).
    assert (cells s5 = {[0 := new_cell]}) as -> by (vm_compute; reflexivity). intros j.
    destruct (decide (j = 0%N)) as [->|]; [by rewrite !lookup_singleton_eq; simpl; rewrite E|].
    by rewrite !lookup_singleton_ne by lia.
  - assert (eng_hands e5 = {[0 := (0%N, Tests)]}) as -> by (vm_compute; reflexivity).
    assert (workers s5 = [WTest 0]) as -> by (vm_compute; reflexivity). intros i.
    destruct i as [|i]; [apply lookup_singleton_eq|by rewrite lookup_singleton_ne].
Qed.

(** The worker reads the flag, copies, stores [done], notifies and goes back to
    sleep. *)
Lemma worker_threads_refine_witness :
  ∃ s', run 1 (Workers.Work <$> replicate 7 0) s5 = Some s' ∧ workers s' = [WWaiting] ∧
  ∃ ws e', ws `sublist_of` replicate 7 0 ∧ run_events 1 (turns_of ws) e5 = Ok e' ∧
    reached 1 kv e' ∧ tracks (pool_ (eng_mgr e')) (eng_hands e') s'.
Proof.
  assert (∃ s', run 1 (Workers.Work <$> replicate 7 0) s5 = Some s' ∧ workers s' = [WWaiting]) as (s' & E & Ew)
    by (eexists; vm_compute; split; reflexivity).
  exists s'. split; [exact E|]. split; [exact Ew|].
  apply (worker_threads_refine 1 kv 1 (replicate 7 0) s5 s' e5 s5_reachable e5_reached s5_tracks E).
Defined.

(** The scheduler takes the block back while worker 0 holds its job. *)
Lemma scheduler_calls_refine_witness :
  let p := pool_ (eng_mgr e5) in
  ∃ id q, migrating_ p !! id = Some 0%N ∧ run_call 1 (CancelMigration id) p = Ok ((), q) ∧ migrating_ q !! id = None ∧
  ∃ s', scheduler_runs 1 s5 s' ∧ tracks q (eng_hands e5) s'.
Proof.
  set (p := pool_ (eng_mgr e5)).
  assert (∃ q, migrating_ p !! 0%N = Some 0%N ∧ run_call 1 (CancelMigration 0%N) p = Ok ((), q) ∧
    migrating_ q !! 0%N = None) as (q & Hm & Hq & Hn) by (eexists; vm_compute; split_and!; reflexivity).
  exists 0%N, q. split; [exact Hm|]. split; [exact Hq|]. split; [exact Hn|].
  apply (scheduler_calls_refine 1 1 p (eng_hands e5) s5 (CancelMigration 0%N) q); [reflexivity|apply s5_reachable| |
    apply s5_tracks|vm_compute; reflexivity|vm_compute; reflexivity|exact Hq].
  apply (mo_ledger _ _ (so_manager _ (proj1 (reached_ok 1 kv e5 e5_reached)))).
Defined.
End ExampleThreads.
